(* ===== verification/_CoqProject ===== *)
-Q . S2P
Prelude.v
CppHeap.v
LRU.v
Timer.v
TimerProps.v
Monitor.v
BlockQueue.v
Threads.v
ThreadPool.v
ConnectionPool.v
MultiThread.v
ReadWrite.v
SharedPtr.v
SharedPtrProps.v
RandomList.v
TinySTL.v
CppWitness.v
HttpModel.v
HttpParse.v
HttpResponse.v
HttpWrite.v
Decimal.v
HttpParseProps.v
HttpLineProps.v
HttpRequestProps.v
HttpWriteProps.v
HttpFormProps.v
HttpWitness.v
WebServer.v
WebServerProps.v
WebWitness.v
Log.v
LogProps.v
LogThreads.v
LogWitness.v
RBCode.v
RBTree.v
RBSpec.v
RBSteps.v
RBSearch.v
RBInsert.v
RBRemove.v
RBWalk.v
RBProps.v
SplayCode.v
SplayTree.v
SplayStep.v
SplayProps.v
SplayOps.v
SplayProgram.v
QueueCode.v
QueueRep.v
TailQueue.v
QueueLoops.v
ListQueue.v
QueueSpec.v
QueueProps.v
QueueFamilies.v
QueueClaims.v
NetModel.v
NetTcp.v
NetCalc.v
NetUdp.v
NetFile.v
NetProc.v
NetRules.v
NetEcho.v
NetTransfer.v
NetServers.v
NetSelect.v
NetCalcProps.v
NetWitness.v
VideoLog.v
VideoTask.v
VideoTaskProps.v
VideoQueue.v
VideoInput.v
VideoInputProps.v
VideoWitness.v
SysExamples.v
