(* ===== verification/Prelude.v ===== *)
(** * A verification of Cpp-in-action

    The repository collects small systems in C and C++. This development models
    and verifies the ones with a logic of their own: the intrusive data
    structures of the coroutine library (src/kvstore/NtyCo/core), the network
    programs of src/net-program, the web server src/TinyWebServer with all its
    classes, the video editor src/videoedit, and single components (src/TinySTL,
    src/algo, src/Cpp/shared_ptr.cpp, src/process, src/learnOS, src/IPC).

    ** The model of C and C++ (this file, [CppHeap], [Monitor], [Threads])

    A computation is a value of the monad [M S A]: it takes the state [S] of
    the component and ends with a value, exits the process with a code, runs
    into undefined behaviour, or is stopped when the fuel of a loop runs out.
    Every loop of the code is a [loop] with fuel. [wp m s Q] is total
    correctness: [m] ends by itself, without undefined behaviour, and [Q] holds
    of its result and its last state; a theorem stated with [wp], or that
    gives the result of [m] as [Done], therefore includes termination for the
    fuel it names. [wpx m s X F Q] speaks of every way to end but undefined
    behaviour, and serves the programs that never return: [F] holds each time
    the program is stopped at the head of a loop, for any amount of fuel.

    [CppHeap] adds objects: [new], [delete] and accesses through pointers, with
    an arbitrary allocator (class [Allocator]). Threads come in two forms.
    [Monitor] is for objects whose methods hold one mutex and wait on a
    condition, which others signal or broadcast: the class [MonitorSpec] is what
    such an object promises, where it is undefined included, and any object
    that implements it is linearizable and forgets no waiting thread. Its
    instances are the two blocking queues.
    [Threads] is for threads that run between a mutex, a semaphore and atomic
    steps, with mutual exclusion, counting and termination as classes
    ([LockDiscipline], [SemDiscipline], [Potential]).

    Code that is not in the repository is a parameter: the operating system
    ([OS], [HttpOS], [ServerOS], [LogOS]), the shell and the file system
    ([Shell]), MySQL ([MySQL]), the allocator, the tasks of the thread pool
    ([Task]), the comparison of the trees ([CmpOrder]). It answers as an
    arbitrary function of what happened so far; what is required of it is a
    hypothesis of its own ([OSLaws]).

    ** Red-black and splay trees: src/kvstore/NtyCo/core/nty_tree.h

    - [RBCode]: the state is the head and a heap of entries ([rb_state]); one
      definition per [RB_*] macro and per generated function, with [cmp] a
      parameter and the augmentation hook [RB_AUGMENT] empty, as by default.
    - [RBTree]: trees, their contexts and colours, and the relation of a heap
      to the tree it holds. [RBSpec]: the contract, a sequence in strictly
      increasing order, for any comparison that is a total preorder
      ([CmpOrder]). [RBSteps], [RBSearch], [RBInsert], [RBRemove], [RBWalk]:
      what each field access, rotation and loop does to the tree.
    - [RBProps]: every sequence of operations on a valid tree returns what it
      returns on the sorted sequence and keeps the tree valid; each operation
      does so on every branch; traversals visit every element once in order,
      also when the body removes it; the height is logarithmic. The fuel is
      [rb_fuel], twice the logarithm of the number of elements.
    - [SplayCode]: the [SPLAY_*] macros and functions over their own heap; the
      temporary node of a splay is an object of that heap. [SplayTree],
      [SplayStep]: the two spines a top-down splay builds, one direction being
      the parameter of both, and what a turn of the loop keeps. [SplayProps],
      [SplayOps], [SplayProgram]: after a splay the root divides the sequence
      at the key; every program of operations and walks does what it does on
      the sequence of the same contract [RBSpec]. The fuel is one more than
      the number of elements, which every turn takes from the tree in the
      middle.

    ** List macros: src/kvstore/NtyCo/core/nty_queue.h

    - [QueueCode]: the state is the set of words of the heads and entries; a
      [slot] is the address of a pointer word, which the second words
      ([stqh_last], [le_prev], [tqe_prev], ...) hold. One definition per macro
      of [SLIST_*], [STAILQ_*], [LIST_*] and [TAILQ_*].
    - [QueueRep]: the list a head holds, for the four layouts of words at
      once. [TailQueue], [ListQueue], [QueueLoops]: each operation and each
      traversal.
    - [QueueSpec]: the contract of a client that owns any number of heads and
      elements ([q_spec]); [QueueProps]: the class [QueueFamily] of the
      families that implement it, and that every client program does;
      [QueueFamilies]: the four instances. [QueueClaims]: the properties,
      client programs of each family and traversals with any body that keeps
      the queue. The fuel is one more than the number of elements.

    ** Single components

    - [LRU]: src/algo/Ya_10.cpp. The hash table and the list between its two
      sentinels hold what a list of entries in order of use does, and the
      destructor frees every node.
    - [SharedPtr], [SharedPtrProps]: src/Cpp/shared_ptr.cpp. Threads that
      start with variables which share objects, and create, copy, move, assign,
      reset, swap and destroy their own variables, the operations of
      [SharedCount] on the shared counts being the atomic steps: counts are
      exact, nothing is deleted twice, used afterwards or left over.
    - [RandomList]: src/algo/Ya_4.cpp. The two loops copy a list with random
      pointers in place; the function never returns the copies.
    - [MultiThread]: src/process/multi_thread_cal.cpp. Threads that add up
      squares under a mutex compute what one thread does, for bounds up to
      which the sum fits into its type; the program's own bound is larger, and
      with it the sum is undefined.
    - [ReadWrite]: src/learnOS/sync/read_write.cpp. The lines that readers and
      writers print under a shared mutex are those of one counter.
    - [TinySTL]: src/TinySTL. The size classes of the allocator are exact, but
      its lists are never written; ranges are swapped and destroyed, pairs
      made, assigned and ordered as they should.

    ** The web server: src/TinyWebServer

    - [BlockQueue] (log/block_queue.h, lock/locker.h): the circular array is a
      bounded first-in first-out list for any threads, and none of them waits
      although it could go on; [front] alone reads another slot than the first,
      and is undefined where that slot holds nothing.
    - [ThreadPool] (threadpool/threadpool.h): requests are taken in order, the
      calls the workers make are exactly those the requests ask for, and none
      is forgotten; a successful [append] is undefined, as it lacks its
      return. [ConnectionPool] (CGImysql/sql_connection_pool.cpp): [init]
      leaves the copy of a semaphore that was destroyed, so that the first
      [GetConnection] of a pool that has connections is undefined; destroying
      the pool unlocks a mutex that is not locked.
    - [Timer], [TimerProps] (timer/lst_timer.h, lst_timer.cpp): timers that
      are only added and expire close the expired connections in order; moving
      one inside the list loses those behind it.
    - [HttpModel], [HttpParse], [HttpResponse], [HttpWrite] (http/http_conn.h,
      http_conn.cpp): the connection with its buffers as they are; a request
      is a trace of calls. [HttpLineProps], [HttpParseProps]: parsing in
      pieces is parsing the whole, printed request lines are parsed back.
      [HttpRequestProps], [HttpFormProps]: what receiving stores, up to the
      byte it takes back when [recv] fails, what is answered to a request,
      registration and login. [HttpWriteProps]: the response to a failure is
      well formed and sent as it is when [writev] takes it in at most two
      parts, a third is cut; a missing file gets no response; and a file is
      never sent, because the number of its vectors is not set. [Decimal]: decimal numbers as
      text.
    - [WebServer], [WebServerProps] (webserver.cpp, config.cpp, main.cpp): the
      server puts the timers, the connections and the pools together. [main]
      never gets to serve: it ends or is undefined in [sql_pool]. Past it, the
      first client would be undefined, because [m_trig_mode] of its object has
      no value. For objects that have one and a level-triggered listening
      socket, the event loop closes idle connections exactly when their time is
      over; it becomes undefined at the first complete request line and at the
      first connection it has to close.
    - [Log], [LogProps], [LogThreads] (log/log.h, log.cpp): a line is
      formatted inside the buffer or written behind it, by its length; the
      lines of each day go to the files they are numbered for; one thread that
      logs through the queue loses no line whatever the writer does, two may.
    - [CppWitness], [HttpWitness], [WebWitness], [LogWitness]: the theorems at
      concrete inputs.

    The server waits for its workers at the points where its main thread waits
    (the loops on [improv], [epoll_wait]); there the workers finish as many
    whole requests as the system decides. [GetConnection] reads the size of
    its list without the lock, in one step; no thread ever changes the list of
    an initialised pool, so this is no data race. Signal handlers run between
    the calls of the main thread. Of the members of [HttpConn] that no
    constructor sets, [m_trig_mode] has no value until one is stored, and its
    use before is undefined; the others are arbitrary.
    Writes of a log are recorded as calls of stdio, what a format prints is
    given, and the number of digits of times assumes years before 10000.

    ** The video editor: src/videoedit/src

    - [VideoLog] (xlog): the configuration file, which is read back as it was
      printed, and the log that is set up from it.
    - [VideoTask], [VideoTaskProps] (xtask, xexec, xinput): the command line
      of ffmpeg; the thread that runs it and hears its output byte by byte;
      and [RunTask], which waits for the thread. The class [Shell] gives the
      output of a command and the number of steps the thread makes between two
      looks of the main thread, in any pattern: [RunTask] comes back exactly
      when the thread is not too fast at the start. Its fuel is the number of
      bytes. The main thread reads the plain integers [progress_] and
      [total_seconds_] while the worker writes them, a data race; the model
      takes these reads for atomic ones.
    - [VideoQueue] (xexec): the queue of lines, where one [notify_one] for each
      [push] wakes enough threads; the thread of a command without callback,
      which fills it, and the program that shows its lines, which may miss
      lines or wait for ever.
    - [VideoInput], [VideoInputProps] (xinput, xdir): the console over the
      bytes of [cin], the registered functions as a finite map, the tasks on
      files and directories. A job that is printed as a line is run as its
      command, on runs in which no thread is too fast at the start, no callback
      throws and no path is a directory ([CalmShell]).
    - [VideoWitness]: concrete inputs, and inputs the program does not expect.

    ** Network programs: src/net-program

    - [NetModel]: the world. A program is a computation over the trace of its
      calls; the operating system is an arbitrary function from the trace and
      the call to the reply (class [OS]), and [OSLaws] states what the manual
      pages promise of it: counts within their bounds, descriptors of their
      own, and the like. [inet_addr], [inet_aton] and [inet_ntoa] are
      parameters. Buffers have their size and may hold bytes that were never
      stored. A loop that the model stops is a process that is still running.
    - [NetTcp] (chapters 1, 2, 4, 5 and 9), [NetCalc] (chapter 5), [NetUdp]
      (chapters 6 and 14), [NetFile] (chapters 1, 3, 7, 8, 9 and 13) and
      [NetProc] (chapters 10, 11 and 12): the programs, one definition per
      function or loop, the whole [main]s included. Copies of a program in
      another chapter are aliases of one definition. A process is followed
      through the values its own calls return; [fork] is a call whose reply
      says which process it is.
    - [NetRules]: rules for the calls and the buffers, and what a trace moved.
      [NetEcho], [NetTransfer], [NetServers], [NetSelect], [NetCalcProps]: the
      properties. Where [read] does not fail, the servers pass to [write]
      exactly the bytes they read, in order, on every run and for every number
      of steps, and what [write] takes of them is sent; the multiplexing server
      watches exactly its open connections, as long as [accept] does not fail
      either and there are fewer than a thousand of them; the forking server's
      parent keeps none open; the file that is sent is the file that is stored; the calculator
      computes exact folds. Some properties show what a program does against
      its purpose: a short echo, a write past a buffer, digits sent in the
      wrong order, an error that is never reported.
    - [NetWitness]: operating systems on which the properties apply.
    - [SysExamples]: the examples of system calls in src/IPC, src/learnOS/IPC,
      src/process, src/mmap and src/timer, in the same world. The processes of
      multi_process.cpp make exactly the calls that print the parts of a sum,
      which is never put together.

    ** Not modelled

    The [main]s of chap5/op_server.c and op_client.c name variables that are
    not declared, so they are no programs; their functions are modelled. The
    constructor of src/Cpp/shared_ptr.cpp from a raw pointer does not compile
    either, nor does src/TinySTL/iterator.h. The expansion of [SPLAY_PROTOTYPE]
    does not compile because of a stray backslash; its functions are modelled
    without it. The headers kvstore.h, config.h and nty_coroutine.h only declare
    what no file of the repository defines. The debug tracing and the kernel
    checks of nty_queue.h are compiled out by default.
    [XVideoInput::Start] ends by deleting an [FFTask] through a pointer to a
    class without virtual destructor, which is undefined; it is modelled up to
    there. src/process/multi_thread.cpp and the other test programs of
    src/videoedit only print or call what is modelled; src/videoedit/build is
    generated by CMake, and src/data_structure holds an empty file. *)
From stdpp Require Export base gmap list strings.
From Stdlib Require Export ZArith Lia.


(** * Outcomes of a C computation

    [Done a s]: the computation returned [a] in the final state [s];
    [Undef]: it executed something the C standard leaves undefined (a null or
    dangling dereference, an access outside an array, a signed overflow);
    [OutOfFuel s]: the fuel of a modelled loop ran out in state [s];
    [Exited code s]: the process called [exit(code)]. *)
Inductive outcome (S A : Type) : Type :=
| Done (a : A) (s : S)
| Undef
| OutOfFuel (s : S)
| Exited (code : Z) (s : S).
Arguments Done {S A} a s.
Arguments Undef {S A}.
Arguments OutOfFuel {S A} s.
Arguments Exited {S A} code s.

(** The state and error monad all components are written in. *)
Definition M (S A : Type) : Type := S → outcome S A.

Definition ret {S A} (a : A) : M S A := λ s, Done a s.
Definition bind {S A B} (m : M S A) (f : A → M S B) : M S B := λ s,
  match m s with
  | Done a s' => f a s'
  | Undef => Undef
  | OutOfFuel s' => OutOfFuel s'
  | Exited c s' => Exited c s'
  end.

Declare Scope c_scope.
Delimit Scope c_scope with c.
Notation "x ← y ; z" := (bind y (λ x : _, z))
  (at level 20, y at level 100, z at level 200, only parsing) : c_scope.
Notation "' x ← y ; z" := (bind y (λ x : _, z))
  (at level 20, x pattern, y at level 100, z at level 200, only parsing) : c_scope.
Notation "x ;; z" := (bind x (λ _, z))
  (at level 100, z at level 200, only parsing, right associativity) : c_scope.
#[global] Open Scope c_scope.

Section operations.
Context {S : Type}.

Definition gets {A} (f : S → A) : M S A := λ s, Done (f s) s.
Definition modify (f : S → S) : M S unit := λ s, Done tt (f s).
Definition undef {A} : M S A := λ _, Undef.
Definition exit {A} (code : Z) : M S A := λ s, Exited code s.
(** A value the C program may only use when it is there. *)
Definition need {A} (o : option A) : M S A :=
  match o with Some a => ret a | None => undef end.
Definition whenM (b : bool) (m : M S unit) : M S unit :=
  if b then m else ret tt.

(** [while]/[for] loops: the body maps the values of the local variables to
    [inl] their next values or to [inr] the result the loop is left with. *)
Fixpoint loop {L R} (fuel : nat) (body : L → M S (L + R)) (l : L) : M S R :=
  match fuel with
  | O => λ s, OutOfFuel s
  | Datatypes.S n =>
      r ← body l;
      match r with
      | inl l' => loop n body l'
      | inr x => ret x
      end
  end.
End operations.

(** Total correctness: [m] started in [s] returns, and the result and the
    final state satisfy [Q]. *)
Definition wp {S A} (m : M S A) (s : S) (Q : A → S → Prop) : Prop :=
  match m s with Done a s' => Q a s' | _ => False end.

Section wp_rules.
Context {S : Type}.
Implicit Types s : S.

Lemma wp_intro {A} (m : M S A) s Q a s' : m s = Done a s' → Q a s' → wp m s Q.
Proof. unfold wp. by intros ->. Qed.

Lemma wp_elim {A} (m : M S A) s Q :
  wp m s Q → ∃ a s', m s = Done a s' ∧ Q a s'.
Proof. unfold wp. destruct (m s); naive_solver. Qed.

Lemma wp_ret {A} (a : A) s Q : Q a s → wp (ret a) s Q.
Proof. done. Qed.

Lemma wp_bind {A B} (f : A → M S B) (m : M S A) s Q :
  wp m s (λ a s', wp (f a) s' Q) → wp (bind m f) s Q.
Proof. unfold wp, bind. by destruct (m s). Qed.

Lemma wp_mono {A} (m : M S A) s (P Q : A → S → Prop) :
  wp m s P → (∀ a s', P a s' → Q a s') → wp m s Q.
Proof. unfold wp. destruct (m s); naive_solver. Qed.

Lemma wp_gets {A} (f : S → A) s Q : Q (f s) s → wp (gets f) s Q.
Proof. done. Qed.

Lemma wp_modify (f : S → S) s Q : Q tt (f s) → wp (modify f) s Q.
Proof. done. Qed.

Lemma wp_need {A} (o : option A) a s Q : o = Some a → Q a s → wp (need o) s Q.
Proof. by intros ->. Qed.

Lemma wp_when b (m : M S unit) s Q :
  (b = true → wp m s Q) → (b = false → Q tt s) → wp (whenM b m) s Q.
Proof. intros H1 H2. destruct b; [by apply H1|by apply H2]. Qed.

(** A loop whose body keeps an invariant [I n], at an ever smaller [n],
    leaves within any fuel above the initial [n]. *)
Lemma wp_loop {L R} (I : nat → L → S → Prop) (body : L → M S (L + R))
    (Q : R → S → Prop) :
  (∀ n l s, I n l s → wp (body l) s (λ r s',
      match r with
      | inl l' => ∃ n', (n' < n)%nat ∧ I n' l' s'
      | inr x => Q x s'
      end)) →
  ∀ fuel n l s, I n l s → (n < fuel)%nat → wp (loop fuel body l) s Q.
Proof.
  intros Hbody fuel. induction fuel as [|f IH]; intros n l s HI Hlt; [lia|].
  simpl. apply wp_bind. eapply wp_mono; [by eapply Hbody|].
  intros [l'|x] s' H; simpl in H; [|by apply wp_ret].
  destruct H as (n' & Hn & HI'). eapply IH; [done|lia].
Qed.

End wp_rules.

(** Every outcome: [m] started in [s] executes nothing undefined; [Q] holds
    when it returns, [X] when it exits and [F] when it is stopped, at the head
    of one of its loops, after any number of turns. For a program that is meant
    to run forever, [F] is what holds all along. *)
Definition wpx {S A} (m : M S A) (s : S) (X : Z → S → Prop) (F : S → Prop)
    (Q : A → S → Prop) : Prop :=
  match m s with
  | Done a s' => Q a s'
  | Exited c s' => X c s'
  | OutOfFuel s' => F s'
  | Undef => False
  end.

Section wpx_rules.
Context {S : Type} (X : Z → S → Prop) (F : S → Prop).
Implicit Types s : S.

Lemma wpx_ret {A} (a : A) s Q : Q a s → wpx (ret a) s X F Q.
Proof. done. Qed.

Lemma wpx_bind {A B} (f : A → M S B) (m : M S A) s Q :
  wpx m s X F (λ a s', wpx (f a) s' X F Q) → wpx (bind m f) s X F Q.
Proof. unfold wpx, bind. by destruct (m s). Qed.

Lemma wpx_mono {A} (m : M S A) s (P Q : A → S → Prop) :
  wpx m s X F P → (∀ a s', P a s' → Q a s') → wpx m s X F Q.
Proof. unfold wpx. destruct (m s); naive_solver. Qed.

Lemma wpx_exit {A} c s (Q : A → S → Prop) : X c s → wpx (exit c) s X F Q.
Proof. done. Qed.

Lemma wpx_need {A} (o : option A) a s Q : o = Some a → Q a s → wpx (need o) s X F Q.
Proof. by intros ->. Qed.

Lemma wpx_loop {L R} (I : L → S → Prop) (body : L → M S (L + R)) (Q : R → S → Prop) :
  (∀ l s, I l s → F s ∧ wpx (body l) s X F (λ r s',
      match r with inl l' => I l' s' | inr x => Q x s' end)) →
  ∀ fuel l s, I l s → wpx (loop fuel body l) s X F Q.
Proof.
  intros Hbody fuel. induction fuel as [|f IH]; intros l s HI; simpl.
  { exact (proj1 (Hbody _ _ HI)). }
  apply wpx_bind. eapply wpx_mono; [exact (proj2 (Hbody _ _ HI))|].
  intros [l'|x] s' H; simpl in H; [by apply IH|by apply wpx_ret].
Qed.

(** The same with the number of turns made so far. *)
Lemma wpx_loop_count {L R} (I : nat → L → S → Prop) (body : L → M S (L + R))
    (Q : R → S → Prop) fuel l s :
  (∀ k l s, (k < fuel)%nat → I k l s → wpx (body l) s X F (λ r s',
      match r with inl l' => I (Datatypes.S k) l' s' | inr x => Q x s' end)) →
  (∀ l s, I fuel l s → F s) →
  I 0%nat l s → wpx (loop fuel body l) s X F Q.
Proof.
  intros Hbody HF. enough (∀ n k l s, (k + n = fuel)%nat → I k l s →
    wpx (loop n body l) s X F Q) as Hn by (intros; by apply (Hn fuel 0%nat)).
  intros n. induction n as [|n IH]; intros k l0 s0 Hk HI; simpl.
  { apply (HF l0). by replace fuel with k by lia. }
  apply wpx_bind. eapply wpx_mono; [apply (Hbody k); [lia|done]|].
  intros [l'|x] s' H; simpl in H; [apply (IH (Datatypes.S k)); [lia|done]|by apply wpx_ret].
Qed.

(** Total correctness is the case in which nothing else happens. *)
Lemma wpx_of_wp {A} (m : M S A) s Q : wp m s Q → wpx m s X F Q.
Proof. unfold wp, wpx. by destruct (m s). Qed.
End wpx_rules.

Lemma wpx_conseq {S A} (m : M S A) s (X X' : Z → S → Prop) (F F' : S → Prop)
    (Q Q' : A → S → Prop) :
  wpx m s X F Q → (∀ c s, X c s → X' c s) → (∀ s, F s → F' s) → (∀ a s, Q a s → Q' a s) →
  wpx m s X' F' Q'.
Proof. unfold wpx. destruct (m s); naive_solver. Qed.

(** Following a run to the point where it is undefined. *)
Lemma bind_done {S A B} (m : M S A) (f : A → M S B) s a s' :
  m s = Done a s' → bind m f s = f a s'.
Proof. unfold bind. by intros ->. Qed.

Lemma bind_done_inv {S A B} (m : M S A) (f : A → M S B) s b s'' :
  bind m f s = Done b s'' → ∃ a s', m s = Done a s' ∧ f a s' = Done b s''.
Proof. unfold bind. destruct (m s); naive_solver. Qed.

Lemma bind_need_inv {S A B} (o : option A) (f : A → M S B) s b s' :
  bind (need o) f s = Done b s' → ∃ a, o = Some a ∧ f a s = Done b s'.
Proof. destruct o; unfold bind, need, ret, undef; naive_solver. Qed.

Lemma need_done_inv {S A} (o : option A) (s s' : S) a :
  need o s = Done a s' → o = Some a ∧ s' = s.
Proof. destruct o; unfold need, ret, undef; naive_solver. Qed.

Lemma wp_of_wpx {S A} (m : M S A) s Q :
  wpx m s (λ _ _, False) (λ _, False) Q → wp m s Q.
Proof. unfold wp, wpx. by destruct (m s). Qed.

Create HintDb cmodel.

(** One step of symbolic execution of the monad's own operations. *)
Ltac wp_base :=
  lazymatch goal with
  | |- wp (bind _ _) _ _ => apply wp_bind
  | |- wp (ret _) _ _ => apply wp_ret
  | |- wp (gets _) _ _ => apply wp_gets
  | |- wp (modify _) _ _ => apply wp_modify
  | |- wp (need (Some _)) _ _ => eapply wp_need; [reflexivity|]
  end; cbv beta.

(** Taking apart [m s = Done a s'], operation by operation. *)
Ltac done_inv H :=
  lazymatch type of H with
  | bind (gets ?f) ?k ?s = ?o => change (k (f s) s = o) in H; cbv beta in H; done_inv H
  | bind (ret ?a) ?k ?s = ?o => change (k a s = o) in H; cbv beta in H; done_inv H
  | bind (modify ?f) ?k ?s = ?o => change (k tt (f s) = o) in H; cbv beta in H; done_inv H
  | bind (need _) _ _ = Done _ _ =>
      apply bind_need_inv in H as (? & ? & H); cbv beta in H; done_inv H
  | bind _ _ _ = Done _ _ =>
      let H' := fresh in
      apply bind_done_inv in H as (? & ? & H' & H); done_inv H'; cbv beta in H; done_inv H
  | ret _ _ = Done _ _ => unfold ret in H; simplify_eq
  | gets _ _ = Done _ _ => unfold gets in H; simplify_eq
  | modify _ _ = Done _ _ => unfold modify in H; simplify_eq
  | undef _ = Done _ _ => discriminate H
  | need _ _ = Done _ _ => apply need_done_inv in H as [? ?]; subst
  | (if ?b then _ else _) _ = Done _ _ => let E := fresh "E" in destruct b eqn:E; done_inv H
  | _ => idtac
  end.

(** * Pointers

    An object's address is a [loc]; a C pointer is [None] (NULL) or [Some] of
    an address. *)
Abbreviation loc := positive.
Abbreviation ptr := (option positive).

Definition non_null (p : ptr) : bool :=
  match p with Some _ => true | None => false end.

(** * Machine integers *)

Definition INT_MAX : Z := 2147483647.
Definition INT_MIN : Z := -2147483648.
Definition is_int (z : Z) : bool := (INT_MIN <=? z)%Z && (z <=? INT_MAX)%Z.
(** The value of a signed [int] expression: undefined when it overflows. *)
Definition int {S} (z : Z) : M S Z := if is_int z then ret z else undef.

Lemma wp_int {S} z (s : S) Q : (INT_MIN ≤ z ≤ INT_MAX)%Z → Q z s → wp (int z) s Q.
Proof.
  intros Hz HQ. unfold int, is_int.
  rewrite (proj2 (Z.leb_le _ _)), (proj2 (Z.leb_le _ _)) by lia. done.
Qed.

(** * Facts on lists the components share *)

Lemma find_app {A} (f : A → bool) l1 l2 :
  (∀ y, y ∈ l1 → f y = false) → List.find f (l1 ++ l2) = List.find f l2.
Proof.
  induction l1 as [|y l1 IH]; simpl; [done|]. intros H.
  rewrite H by set_solver. apply IH. set_solver.
Qed.

Lemma find_none_all {A} (f : A → bool) l :
  (∀ y, y ∈ l → f y = false) → List.find f l = None.
Proof.
  induction l as [|y l IH]; simpl; [done|]. intros H.
  rewrite H by set_solver. apply IH. set_solver.
Qed.

Lemma filter_all {A} (f : A → bool) l :
  (∀ y, y ∈ l → f y = true) → List.filter f l = l.
Proof.
  induction l as [|y l IH]; simpl; [done|]. intros H.
  rewrite H, IH by set_solver. done.
Qed.

Lemma filter_none {A} (f : A → bool) l :
  (∀ y, y ∈ l → f y = false) → List.filter f l = [].
Proof.
  induction l as [|y l IH]; simpl; [done|]. intros H.
  rewrite H, IH by set_solver. done.
Qed.

(** Flatten hypotheses about [NoDup] and membership of explicit lists into
    atomic facts. *)
Ltac nodup_flat :=
  repeat match goal with
  | H : _ ∧ _ |- _ => destruct H
  | H : NoDup (_ :: _) |- _ => apply NoDup_cons in H
  | H : NoDup (_ ++ _) |- _ => apply NoDup_app in H
  | H : _ ∉ _ :: _ |- _ => apply not_elem_of_cons in H
  | H : _ ∉ _ ++ _ |- _ => apply not_elem_of_app in H
  end.
