(* ===== verification/CppHeap.v ===== *)
(** Objects of the C++ programs: [new], [delete], and accesses through
    pointers to a heap of objects of one class, whose addresses an arbitrary
    allocator chooses; and chains of nodes doubly linked by [prev] and
    [next]. *)
From stdpp Require Import gmap.
From S2P Require Import Prelude.

(** The allocator returns an address that no live object has; it may return
    the address of a deleted one. *)
Class Allocator := {
  alloc : gset loc → loc;
  alloc_fresh X : alloc X ∉ X
}.

(** The state of a component contains the heap of its objects. *)
Class HasHeap (S A : Type) := {
  heap_of : S → gmap loc A;
  with_heap : gmap loc A → S → S;
  heap_of_with h s : heap_of (with_heap h s) = h;
  with_heap_with h h' s : with_heap h (with_heap h' s) = with_heap h s;
  with_heap_of s : with_heap (heap_of s) s = s
}.

Section objects.
Context {S A : Type} {HH : HasHeap S A} {AL : Allocator}.

(** [*p], and [p->f] for a field [f]. *)
Definition load (p : ptr) : M S A :=
  l ← need p; h ← gets heap_of; need (h !! l).
Definition field {B} (f : A → B) (p : ptr) : M S B := a ← load p; ret (f a).
(** [p->f = v], as the change it makes to the object. *)
Definition store (p : ptr) (f : A → A) : M S unit :=
  l ← need p; a ← load p; modify (λ s, with_heap (<[l:=f a]> (heap_of s)) s).
(** [new T(...)] *)
Definition new (a : A) : M S ptr := λ s,
  let l := alloc (dom (heap_of s)) in
  Done (Some l) (with_heap (<[l:=a]> (heap_of s)) s).
(** [delete p]: nothing for a null pointer, undefined for one that points to
    no live object. *)
Definition delete_ (p : ptr) : M S unit :=
  match p with
  | None => ret tt
  | Some l => a ← load p; modify (λ s, with_heap (delete l (heap_of s)) s)
  end.

Lemma wp_load l a s Q : heap_of s !! l = Some a → Q a s → wp (load (Some l)) s Q.
Proof. intros Ha HQ. unfold load, wp, bind, need, gets, ret. by rewrite Ha. Qed.

Lemma wp_field {B} (f : A → B) l a s Q :
  heap_of s !! l = Some a → Q (f a) s → wp (field f (Some l)) s Q.
Proof. intros. apply wp_bind. by eapply wp_load. Qed.

Lemma wp_store l a f s Q :
  heap_of s !! l = Some a → Q tt (with_heap (<[l:=f a]> (heap_of s)) s) →
  wp (store (Some l) f) s Q.
Proof. intros Ha HQ. apply wp_bind, wp_ret, wp_bind. by eapply wp_load. Qed.

Lemma wp_new a s Q :
  (∀ l, heap_of s !! l = None → Q (Some l) (with_heap (<[l:=a]> (heap_of s)) s)) →
  wp (new a) s Q.
Proof. intros HQ. apply HQ. apply not_elem_of_dom. apply alloc_fresh. Qed.

Lemma wp_delete l a s Q :
  heap_of s !! l = Some a → Q tt (with_heap (delete l (heap_of s)) s) →
  wp (delete_ (Some l)) s Q.
Proof. intros Ha HQ. apply wp_bind. by eapply wp_load. Qed.
End objects.

Lemma elem_of_fst {A B} (x : A) (d : B) (xs : list (A * B)) : (x, d) ∈ xs → x ∈ xs.*1.
Proof. intros. apply list_elem_of_fmap. by exists (x, d). Qed.

(** * Chains of doubly linked nodes *)

(** A node: its own members, then its links. *)
Record dnode (D : Type) := DNode { n_data : D; n_prev : ptr; n_next : ptr }.
Arguments DNode {D} _ _ _.
Arguments n_data {D} _.
Arguments n_prev {D} _.
Arguments n_next {D} _.
Definition set_prev {D} (p : ptr) (n : dnode D) : dnode D := DNode (n_data n) p (n_next n).
Definition set_next {D} (p : ptr) (n : dnode D) : dnode D := DNode (n_data n) (n_prev n) p.

Section chains.
Context {D : Type}.
Implicit Types h : gmap loc (dnode D).
Implicit Types xs ys : list (loc * D).

(** The first node of a chain that ends at [n], the last one of a chain that
    starts after [p]. *)
Definition first_of (xs : list (loc * D)) (n : ptr) : ptr :=
  match xs with [] => n | (x, _) :: _ => Some x end.
Fixpoint last_of (p : ptr) (xs : list (loc * D)) : ptr :=
  match xs with [] => p | (x, _) :: xs => last_of (Some x) xs end.

(** The nodes [xs], with their data, between the pointers [p] and [n]. *)
Fixpoint chain h (p : ptr) (xs : list (loc * D)) (n : ptr) : Prop :=
  match xs with
  | [] => True
  | (x, d) :: xs => h !! x = Some (DNode d p (first_of xs n)) ∧ chain h (Some x) xs n
  end.

Lemma first_of_app xs ys n : first_of (xs ++ ys) n = first_of xs (first_of ys n).
Proof. by destruct xs. Qed.
Lemma last_of_app p xs ys : last_of p (xs ++ ys) = last_of (last_of p xs) ys.
Proof. revert p. by induction xs as [|[x d] xs IH]; simpl. Qed.

Lemma chain_app h p xs ys n :
  chain h p (xs ++ ys) n ↔ chain h p xs (first_of ys n) ∧ chain h (last_of p xs) ys n.
Proof.
  revert p. induction xs as [|[x d] xs IH]; intros p; simpl; [tauto|].
  rewrite IH, first_of_app. tauto.
Qed.

Lemma chain_lookup h p xs x d ys n :
  chain h p (xs ++ (x, d) :: ys) n →
  h !! x = Some (DNode d (last_of p xs) (first_of ys n)).
Proof. rewrite chain_app. simpl. tauto. Qed.

Lemma chain_insert_ne h p xs n x v :
  x ∉ xs.*1 → chain h p xs n → chain (<[x:=v]> h) p xs n.
Proof.
  revert p. induction xs as [|[y d] xs IH]; intros p Hx; simpl; [done|].
  csimpl in Hx. apply not_elem_of_cons in Hx as [Hxy Hx].
  rewrite lookup_insert_ne by done. intros [Hy Hc]. split; [done|by apply IH].
Qed.

Lemma chain_delete_ne h p xs n x :
  x ∉ xs.*1 → chain h p xs n → chain (delete x h) p xs n.
Proof.
  revert p. induction xs as [|[y d] xs IH]; intros p Hx; simpl; [done|].
  csimpl in Hx. apply not_elem_of_cons in Hx as [Hxy Hx].
  rewrite lookup_delete_ne by done. intros [Hy Hc]. split; [done|by apply IH].
Qed.

(** Writing the first [prev] and the last [next] of a chain. *)
Lemma chain_set_first h p p' x d xs n :
  x ∉ xs.*1 → chain h p ((x, d) :: xs) n →
  chain (<[x:=DNode d p' (first_of xs n)]> h) p' ((x, d) :: xs) n.
Proof.
  intros Hx [_ Hc]. split; [apply lookup_insert_eq|by apply chain_insert_ne].
Qed.

Lemma chain_set_last h p xs x d n n' :
  x ∉ xs.*1 → chain h p (xs ++ [(x, d)]) n →
  chain (<[x:=DNode d (last_of p xs) n']> h) p (xs ++ [(x, d)]) n'.
Proof.
  rewrite !chain_app. simpl. intros Hx [Hc _].
  split; [by apply chain_insert_ne|by rewrite lookup_insert_eq].
Qed.

(** Writing the data of a node. *)
Lemma chain_set_data h p xs x d d' ys n :
  NoDup (xs ++ (x, d) :: ys).*1 → chain h p (xs ++ (x, d) :: ys) n →
  chain (<[x:=DNode d' (last_of p xs) (first_of ys n)]> h) p (xs ++ (x, d') :: ys) n.
Proof.
  rewrite fmap_app, !chain_app. csimpl. intros Hnd (H1 & _ & H2). nodup_flat.
  split_and!; [by apply chain_insert_ne; [set_solver|]|apply lookup_insert_eq|].
  by apply chain_insert_ne; [set_solver|].
Qed.

Lemma chain_dom h p xs n x : chain h p xs n → x ∈ xs.*1 → is_Some (h !! x).
Proof.
  revert p. induction xs as [|[y d] xs IH]; intros p; csimpl; [set_solver|].
  intros [Hy Hc] [->|Hx]%elem_of_cons; [eauto|by eapply IH].
Qed.

(** The last node of a chain that is not empty. *)
Lemma snoc_cases xs : xs ≠ [] → ∃ ys y d, xs = ys ++ [(y, d)].
Proof. destruct xs as [|[y d] ys _] using rev_ind; [done|eauto]. Qed.
End chains.

Create HintDb chains.
#[export] Hint Resolve chain_insert_ne chain_delete_ne : chains.

(** Running loads and stores whose addresses the context tells the contents
    of. *)
Ltac heap_look := simpl; first [eassumption | by simplify_map_eq].
Ltac heap_step :=
  first
  [ wp_base
  | eapply wp_field; [heap_look|]
  | eapply wp_store; [heap_look|]
  | eapply wp_load; [heap_look|]
  | eapply wp_delete; [heap_look|] ];
  simpl; rewrite ?heap_of_with, ?with_heap_with; simpl.
(** The links of explicit chains, apart. *)
Ltac chain_split :=
  repeat first
  [ progress simpl in *
  | match goal with
    | H : _ ∧ _ |- _ => destruct H
    | H : chain _ _ (_ ++ _) _ |- _ => apply chain_app in H
    | H : context [first_of (_ ++ _) _] |- _ => rewrite first_of_app in H
    | H : context [last_of _ (_ ++ _)] |- _ => rewrite last_of_app in H
    end ].
Ltac chain_join :=
  repeat first
  [ progress simpl
  | rewrite chain_app
  | rewrite first_of_app
  | rewrite last_of_app
  | rewrite lookup_insert_eq
  | rewrite lookup_insert_ne by congruence
  | rewrite lookup_delete_ne by congruence
  | match goal with |- _ ∧ _ => split end
  | assumption | reflexivity
  | apply chain_insert_ne; [first [assumption|set_solver]|]
  | apply chain_delete_ne; [first [assumption|set_solver]|] ].
