(* ===== verification/LRU.v ===== *)
(** The least-recently-used cache of src/algo/Ya_10.cpp: a hash table from
    keys to the nodes of a doubly linked list between two sentinels. The cache
    does what a list of entries in order of use does. *)
From stdpp Require Import gmap.
From S2P Require Import Prelude CppHeap.
#[global] Open Scope Z_scope.

(** [struct DListNode]: the key and the value, [prev] and [next]. *)
Abbreviation DListNode := (dnode (Z * Z)).
Definition key (n : DListNode) : Z := (n_data n).1.
Definition value (n : DListNode) : Z := (n_data n).2.
Definition set_value (v : Z) (n : DListNode) : DListNode :=
  DNode (key n, v) (n_prev n) (n_next n).
(** [DListNode(k, v)]; [DListNode()] is [DListNode(0, 0)]. *)
Definition new_DListNode (k v : Z) : DListNode := DNode (k, v) None None.

Record LRUCache := LRU {
  lru_cache : gmap Z ptr;
  lru_size : Z;
  lru_capacity : Z;
  lru_head : ptr;
  lru_tail : ptr;
  lru_heap : gmap loc DListNode
}.

#[export, program] Instance LRU_heap : HasHeap LRUCache DListNode := {|
  heap_of := lru_heap;
  with_heap h s := LRU (lru_cache s) (lru_size s) (lru_capacity s) (lru_head s) (lru_tail s) h
|}.
Solve Obligations with (intros; simpl; try by destruct s).

Definition LRUM := M LRUCache.
Definition set_cache (c : gmap Z ptr) (s : LRUCache) : LRUCache :=
  LRU c (lru_size s) (lru_capacity s) (lru_head s) (lru_tail s) (lru_heap s).
Definition set_size (z : Z) (s : LRUCache) : LRUCache :=
  LRU (lru_cache s) z (lru_capacity s) (lru_head s) (lru_tail s) (lru_heap s).

Section code.
Context `{Allocator}.

(** [cache.count(key)] *)
Definition cache_count (k : Z) : LRUM bool := gets (λ s, bool_decide (is_Some (lru_cache s !! k))).
(** [cache[key]]: inserts a null pointer when the key is not there. *)
Definition cache_at (k : Z) : LRUM ptr :=
  c ← gets lru_cache;
  match c !! k with
  | Some p => ret p
  | None => modify (set_cache (<[k:=None]> c));; ret None
  end.

Definition addToHead (node : ptr) : LRUM unit :=
  hd ← gets lru_head;
  first ← field n_next hd; store node (set_next first);;
  store node (set_prev hd);;
  first ← field n_next hd; store first (set_prev node);;
  store hd (set_next node).

Definition removeNode (node : ptr) : LRUM unit :=
  p ← field n_prev node; n ← field n_next node; store p (set_next n);;
  n ← field n_next node; p ← field n_prev node; store n (set_prev p).

Definition moveToHead (node : ptr) : LRUM unit := removeNode node;; addToHead node.

Definition removeTail : LRUM ptr :=
  tl ← gets lru_tail;
  removed ← field n_prev tl;
  removeNode removed;;
  ret removed.

(** [LRUCache(int c)] *)
Definition LRUCache_new (c : Z) : LRUM unit :=
  hd ← new (new_DListNode 0 0);
  tl ← new (new_DListNode 0 0);
  modify (λ s, LRU ∅ 0 c hd tl (lru_heap s));;
  store hd (set_next tl);;
  store tl (set_prev hd).

Definition get (k : Z) : LRUM Z :=
  present ← cache_count k;
  if negb present then ret (-1) else
  node ← cache_at k;
  moveToHead node;;
  field value node.

Definition put (k v : Z) : LRUM unit :=
  present ← cache_count k;
  if negb present then
    node ← new (new_DListNode k v);
    c ← gets lru_cache; modify (set_cache (<[k:=node]> c));;
    addToHead node;;
    z ← gets lru_size; z ← int (z + 1); modify (set_size z);;
    cap ← gets lru_capacity;
    whenM (cap <? z)
      (removed ← removeTail;
       rk ← field key removed;
       c ← gets lru_cache; modify (set_cache (delete rk c));;
       delete_ removed;;
       z ← gets lru_size; z ← int (z - 1); modify (set_size z))
  else
    node ← cache_at k;
    store node (set_value v);;
    moveToHead node.

(** [~LRUCache()] *)
Definition LRUCache_delete (fuel : nat) : LRUM unit :=
  hd ← gets lru_head;
  loop fuel (λ cur,
    if negb (non_null cur) then ret (inr tt) else
    next ← field n_next cur;
    delete_ cur;;
    ret (inl next)) hd.

(** [main()]: what it prints, then the end of the scope of [cache]. *)
Definition LRU_main (fuel : nat) : LRUM (list Z) :=
  LRUCache_new 2;;
  put 1 10;;
  put 2 20;;
  a ← get 1;
  put 3 3;;
  b ← get 2;
  LRUCache_delete fuel;;
  ret [a; b].
End code.

(** * The contract *)

(** The entries, the most recently used first. *)
Inductive lru_op := OpGet (k : Z) | OpPut (k v : Z).

Definition lru_find (k : Z) (l : list (Z * Z)) : option Z :=
  snd <$> List.find (λ e, e.1 =? k) l.
Definition lru_remove (k : Z) (l : list (Z * Z)) : list (Z * Z) :=
  List.filter (λ e, negb (e.1 =? k)) l.
Definition lru_spec (cap : Z) (o : lru_op) (l : list (Z * Z)) : option Z * list (Z * Z) :=
  match o with
  | OpGet k =>
      match lru_find k l with
      | Some v => (Some v, (k, v) :: lru_remove k l)
      | None => (Some (-1), l)
      end
  | OpPut k v =>
      (None, match lru_find k l with
             | Some _ => (k, v) :: lru_remove k l
             | None => take (Z.to_nat cap) ((k, v) :: l)
             end)
  end.
Fixpoint lru_specs (cap : Z) (os : list lru_op) (l : list (Z * Z)) :
    list (option Z) * list (Z * Z) :=
  match os with
  | [] => ([], l)
  | o :: os =>
      let '(r, l1) := lru_spec cap o l in
      let '(rs, l2) := lru_specs cap os l1 in (r :: rs, l2)
  end.

(** * What the object holds *)

Definition nodes_t : Type := list (loc * (Z * Z)).
(** The list between the sentinels [hd] and [tl]. *)
Definition full (hd tl : loc) (P : nodes_t) : list (loc * (Z * Z)) := (hd, (0, 0)) :: P ++ [(tl, (0, 0))].


(** The node of key [k]. *)
Definition node_of (k : Z) (P : nodes_t) : option loc := fst <$> List.find (λ e, e.2.1 =? k) P.

(** The cache of capacity [cap] holds the nodes [P] between its sentinels, in
    a heap whose other objects are those of [F]. *)
Record lru_rep (F : gmap loc DListNode) (cap : Z) (s : LRUCache) (hd tl : loc) (P : nodes_t) :
    Prop := {
  rep_head : lru_head s = Some hd;
  rep_tail : lru_tail s = Some tl;
  rep_cap : lru_capacity s = cap;
  rep_size : lru_size s = Z.of_nat (length P);
  rep_chain : chain (lru_heap s) None (full hd tl P) None;
  rep_nodup : NoDup (full hd tl P).*1;
  rep_frame l : l ∉ (full hd tl P).*1 → lru_heap s !! l = F !! l;
  rep_fresh l : l ∈ (full hd tl P).*1 → F !! l = None;
  rep_keys : NoDup P.*2.*1;
  rep_cache k : lru_cache s !! k = Some <$> node_of k P
}.
Definition lru_model F cap s l : Prop :=
  ∃ hd tl P, lru_rep F cap s hd tl P ∧ l = P.*2 ∧ (length l ≤ Z.to_nat cap)%nat.

(** * The two list operations *)

Section links.
Context `{Allocator}.
Implicit Types (s : LRUCache) (P Q : list (loc * (Z * Z))).

Lemma wp_removeNode s p P x d Q n :
  P ≠ [] → Q ≠ [] → NoDup (P ++ (x, d) :: Q).*1 →
  chain (lru_heap s) p (P ++ (x, d) :: Q) n →
  wp (removeNode (Some x)) s (λ _ s', ∃ h', s' = with_heap h' s ∧
    chain h' p (P ++ Q) n ∧ h' !! x = lru_heap s !! x ∧
    ∀ l, l ∉ P.*1 ++ Q.*1 → h' !! l = lru_heap s !! l).
Proof.
  intros (P' & a & da & ->)%snoc_cases HQ Hnd Hc. destruct Q as [|[b db] Q]; [done|].
  rewrite <-app_assoc in *. simpl in *. rewrite fmap_app in Hnd. csimpl in Hnd.
  nodup_flat. chain_split. unfold removeNode. repeat heap_step.
  eexists. split; [reflexivity|]. split_and!; [| |intros l Hl].
  - chain_join.
  - by simplify_map_eq.
  - rewrite fmap_app in Hl. csimpl in Hl. nodup_flat. by rewrite !lookup_insert_ne by congruence.
Qed.

Lemma wp_addToHead s hd d0 Q x d pv nx :
  lru_head s = Some hd → Q ≠ [] → NoDup (x :: hd :: Q.*1) →
  lru_heap s !! x = Some (DNode d pv nx) →
  chain (lru_heap s) None ((hd, d0) :: Q) None →
  wp (addToHead (Some x)) s (λ _ s', ∃ h', s' = with_heap h' s ∧
    chain h' None ((hd, d0) :: (x, d) :: Q) None ∧
    ∀ l, l ∉ x :: hd :: Q.*1 → h' !! l = lru_heap s !! l).
Proof.
  intros Hhd HQ Hnd Hx Hc. destruct Q as [|[y dy] Q]; [done|]. csimpl in Hnd.
  destruct s as [c z cap h tl hp]. simpl in Hhd. subst h.
  nodup_flat. chain_split. unfold addToHead. repeat heap_step.
  eexists. split; [reflexivity|]. split; [|intros l Hl].
  - chain_join.
  - csimpl in Hl. nodup_flat. by rewrite !lookup_insert_ne by congruence.
Qed.

Lemma full_perm hd tl x d P Q :
  (full hd tl (P ++ (x, d) :: Q)).*1 ≡ₚ x :: hd :: P.*1 ++ Q.*1 ++ [tl].
Proof.
  unfold full. csimpl. rewrite !fmap_app. csimpl. rewrite <-app_assoc.
  simpl. solve_Permutation.
Qed.

Lemma full_perm_front hd tl x d P :
  (full hd tl ((x, d) :: P)).*1 ≡ₚ x :: hd :: P.*1 ++ [tl].
Proof. exact (full_perm hd tl x d [] P). Qed.

Lemma wp_moveToHead s hd tl P x d Q :
  lru_head s = Some hd → NoDup (full hd tl (P ++ (x, d) :: Q)).*1 →
  chain (lru_heap s) None (full hd tl (P ++ (x, d) :: Q)) None →
  wp (moveToHead (Some x)) s (λ _ s', ∃ h', s' = with_heap h' s ∧
    chain h' None (full hd tl ((x, d) :: P ++ Q)) None ∧
    ∀ l, l ∉ x :: hd :: P.*1 ++ Q.*1 ++ [tl] → h' !! l = lru_heap s !! l).
Proof.
  intros Hhd Hnd Hc. pose proof Hnd as Hnd'. rewrite full_perm in Hnd'.
  replace (full hd tl (P ++ (x, d) :: Q))
    with (((hd, (0, 0)) :: P) ++ (x, d) :: (Q ++ [(tl, (0, 0))])) in *
    by (unfold full; simpl; by rewrite <-app_assoc).
  unfold moveToHead. apply wp_bind.
  eapply wp_mono; [eapply (wp_removeNode s _ ((hd, (0, 0)) :: P) x d (Q ++ [(tl, (0, 0))])); [done|by destruct Q|exact Hnd|exact Hc]|].
  intros _ ? (h1 & -> & Hc1 & Hx1 & Hf1).
  apply chain_lookup in Hc. simpl in Hc1.
  eapply wp_mono; [eapply (wp_addToHead _ hd (0, 0) (P ++ Q ++ [(tl, (0, 0))]) x d)|].
  - done.
  - by destruct P, Q.
  - rewrite !fmap_app. exact Hnd'.
  - simpl. etrans; [exact Hx1|exact Hc].
  - done.
  - intros _ ? (h2 & -> & Hc2 & Hf2). exists h2. split_and!; [done| |].
    + unfold full. simpl. by rewrite <-app_assoc.
    + intros l Hl. rewrite Hf2 by (by rewrite !fmap_app). apply Hf1.
      rewrite fmap_cons, fmap_app. csimpl. clear -Hl. set_solver.
Qed.
End links.

(** * Entries by key *)

Section entries.
Implicit Types P A B : nodes_t.

Lemma node_of_split k P x :
  node_of k P = Some x → ∃ A v B, P = A ++ (x, (k, v)) :: B ∧ k ∉ A.*2.*1.
Proof.
  unfold node_of. induction P as [|[y [k' v]] P IH]; simpl; [done|].
  destruct (Z.eqb_spec k' k) as [->|Hk]; simpl.
  - intros [= ->]. exists [], v, P. split; [done|set_solver].
  - intros (A & v' & B & -> & HA)%IH. exists ((y, (k', v)) :: A), v', B. csimpl. set_solver.
Qed.

Lemma node_of_none k P : node_of k P = None → k ∉ P.*2.*1.
Proof.
  unfold node_of. induction P as [|[y [k' v]] P IH]; csimpl; [set_solver|].
  destruct (Z.eqb_spec k' k) as [->|Hk]; simpl; [done|]. intros ?%IH. set_solver.
Qed.

Lemma node_of_not_in k P : k ∉ P.*2.*1 → node_of k P = None.
Proof.
  intros Hk. unfold node_of. rewrite find_none_all; [done|].
  intros [y [k' v]] Hy. simpl. apply Z.eqb_neq. intros ->. apply Hk.
  apply list_elem_of_fmap. exists (k, v). split; [done|].
  apply list_elem_of_fmap. by exists (y, (k, v)).
Qed.

Lemma node_of_app k A B :
  node_of k (A ++ B) = match node_of k A with Some x => Some x | None => node_of k B end.
Proof.
  unfold node_of. induction A as [|[y [k' v]] A IH]; simpl; [done|]. by destruct (k' =? k).
Qed.

(** Moving a node to the front, and changing its value, finds the same nodes. *)
Lemma node_of_move k k' x v v' A B :
  k ∉ A.*2.*1 → node_of k' (A ++ (x, (k, v)) :: B) = node_of k' ((x, (k, v')) :: A ++ B).
Proof.
  intros HA. rewrite node_of_app. unfold node_of at 2 3. simpl.
  destruct (Z.eqb_spec k k') as [->|Hk]; simpl.
  - by rewrite node_of_not_in.
  - fold (node_of k' B). fold (node_of k' (A ++ B)). by rewrite node_of_app.
Qed.

Lemma lru_find_none k (l : list (Z * Z)) : k ∉ l.*1 → lru_find k l = None.
Proof.
  intros Hk. unfold lru_find. rewrite find_none_all; [done|].
  intros [k' v] Hy. simpl. apply Z.eqb_neq. intros ->. apply Hk. by eapply elem_of_fst.
Qed.
Lemma lru_find_split k v (l1 l2 : list (Z * Z)) :
  k ∉ l1.*1 → lru_find k (l1 ++ (k, v) :: l2) = Some v.
Proof.
  intros Hk. unfold lru_find. rewrite find_app.
  - simpl. by rewrite Z.eqb_refl.
  - intros [k' v'] Hy. simpl. apply Z.eqb_neq. intros ->. apply Hk. by eapply elem_of_fst.
Qed.
Lemma lru_remove_split k v (l1 l2 : list (Z * Z)) :
  k ∉ l1.*1 → k ∉ l2.*1 → lru_remove k (l1 ++ (k, v) :: l2) = l1 ++ l2.
Proof.
  intros H1 H2. unfold lru_remove. rewrite List.filter_app. simpl. rewrite Z.eqb_refl. simpl.
  f_equal; apply filter_all; intros [k' v'] Hy; simpl;
    apply negb_true_iff, Z.eqb_neq; intros ->; eapply elem_of_fst in Hy; done.
Qed.
End entries.

(** * The operations *)

Section operations.
Context `{Allocator} (F : gmap loc DListNode) (cap : Z).
Implicit Types (s : LRUCache) (A B P : nodes_t).

(** Changing the links and the value of one node. *)
Lemma rep_move s hd tl A x k v v' B h :
  lru_rep F cap s hd tl (A ++ (x, (k, v)) :: B) → k ∉ A.*2.*1 →
  chain h None (full hd tl ((x, (k, v')) :: A ++ B)) None →
  (∀ l, l ∉ x :: hd :: A.*1 ++ B.*1 ++ [tl] → h !! l = lru_heap s !! l) →
  lru_rep F cap (with_heap h s) hd tl ((x, (k, v')) :: A ++ B).
Proof.
  intros [Hh Ht Hcap Hz _ Hnd Hfr Hfs Hk Hc] HkA Hch Hh'.
  assert ((full hd tl ((x, (k, v')) :: A ++ B)).*1 ≡ₚ (full hd tl (A ++ (x, (k, v)) :: B)).*1)
    as Hp by (by rewrite full_perm_front, full_perm, fmap_app, <-app_assoc).
  constructor; try done.
  - etrans; [exact Hz|]. f_equal. rewrite length_app. simpl. rewrite length_app. lia.
  - by rewrite Hp.
  - intros l Hl. rewrite Hp in Hl. rewrite <-Hfr by done. apply Hh'. by rewrite <-(full_perm hd tl x (k, v)).
  - intros l Hl. apply Hfs. by rewrite <-Hp.
  - revert Hk. rewrite !fmap_app. csimpl. rewrite !fmap_app.
    intros Hk. by rewrite Permutation_middle.
  - intros k'. simpl. rewrite Hc. f_equal. by apply node_of_move.
Qed.

Lemma wp_move s hd tl A x k v B :
  lru_rep F cap s hd tl (A ++ (x, (k, v)) :: B) → k ∉ A.*2.*1 →
  wp (moveToHead (Some x)) s (λ _ s', lru_rep F cap s' hd tl ((x, (k, v)) :: A ++ B)).
Proof.
  intros Hr HkA. eapply wp_mono; [eapply wp_moveToHead; apply Hr|].
  intros _ ? (h & -> & Hc & Hf). by eapply rep_move.
Qed.

Lemma cache_lookup s hd tl A x k v B :
  lru_rep F cap s hd tl (A ++ (x, (k, v)) :: B) → k ∉ A.*2.*1 →
  lru_cache s !! k = Some (Some x).
Proof.
  intros Hr HkA. rewrite (rep_cache _ _ _ _ _ _ Hr), node_of_app, node_of_not_in by done.
  unfold node_of. simpl. by rewrite Z.eqb_refl.
Qed.

Lemma spec_split A x k v B :
  k ∉ A.*2.*1 → NoDup (A ++ (x, (k, v)) :: B).*2.*1 →
  lru_find k (A ++ (x, (k, v)) :: B).*2 = Some v ∧
  lru_remove k (A ++ (x, (k, v)) :: B).*2 = (A ++ B).*2.
Proof.
  rewrite !fmap_app. csimpl. intros HA Hnd. nodup_flat.
  rewrite lru_find_split, lru_remove_split by done. done.
Qed.

Lemma wp_get k s l :
  lru_model F cap s l →
  wp (get k) s (λ r s', Some r = (lru_spec cap (OpGet k) l).1 ∧
    lru_model F cap s' (lru_spec cap (OpGet k) l).2).
Proof.
  intros (hd & tl & P & Hr & -> & Hlen). unfold get, cache_count. repeat heap_step.
  destruct (node_of k P) as [x|] eqn:Hk.
  - destruct (node_of_split _ _ _ Hk) as (A & v & B & -> & HkA).
    pose proof (spec_split A x k v B HkA (rep_keys _ _ _ _ _ _ Hr)) as [-> ->].
    pose proof (cache_lookup _ _ _ _ _ _ _ _ Hr HkA) as Hck.
    rewrite bool_decide_eq_true_2 by (rewrite Hck; eauto). simpl.
    unfold cache_at. repeat heap_step. rewrite Hck. repeat heap_step.
    eapply wp_mono; [exact (wp_move _ _ _ A x k v B Hr HkA)|]. intros ? s' Hr'. simpl.
    pose proof (rep_chain _ _ _ _ _ _ Hr') as Hc. unfold full in Hc. chain_split.
    eapply wp_field; [done|]. simpl. split; [done|].
    exists hd, tl, ((x, (k, v)) :: A ++ B). split_and!; [done|done|].
    revert Hlen. csimpl. rewrite !length_fmap, !length_app. simpl. lia.
  - rewrite bool_decide_eq_false_2
      by (rewrite (rep_cache _ _ _ _ _ _ Hr), Hk; by intros [? [=]]).
    rewrite lru_find_none by (by apply node_of_none). simpl. repeat heap_step.
    split; [done|]. by exists hd, tl, P.
Qed.

(** A node that is not in the heap is in no list. *)
Lemma rep_new_node s hd tl P x :
  lru_rep F cap s hd tl P → lru_heap s !! x = None →
  x ∉ (full hd tl P).*1 ∧ F !! x = None.
Proof.
  intros Hr Hx. assert (x ∉ (full hd tl P).*1) as Hf.
  { intros Hin. destruct (chain_dom _ _ _ _ _ (rep_chain _ _ _ _ _ _ Hr) Hin) as [? Hs].
    pose proof (eq_trans (eq_sym Hx) Hs); done. }
  split; [done|]. by rewrite <-(rep_frame _ _ _ _ _ _ Hr).
Qed.

(** Linking a new node in front. *)
Lemma rep_push s hd tl P x k v h :
  lru_rep F cap s hd tl P → k ∉ P.*2.*1 → lru_heap s !! x = None →
  chain h None (full hd tl ((x, (k, v)) :: P)) None →
  (∀ l, l ∉ x :: hd :: P.*1 ++ [tl] → h !! l = lru_heap s !! l) →
  lru_rep F cap (LRU (<[k:=Some x]> (lru_cache s)) (lru_size s + 1) (lru_capacity s)
    (lru_head s) (lru_tail s) h) hd tl ((x, (k, v)) :: P).
Proof.
  intros Hr Hk Hx Hc Hh. destruct (rep_new_node _ _ _ _ _ Hr Hx) as [Hxf HxF].
  destruct Hr as [Hhd Ht Hcap Hz _ Hnd Hfr Hfs Hks Hca].
  assert ((full hd tl ((x, (k, v)) :: P)).*1 ≡ₚ x :: (full hd tl P).*1) as Hp
    by (rewrite full_perm_front; unfold full; csimpl; by rewrite fmap_app).
  constructor; simpl; try done.
  - rewrite Hz. lia.
  - rewrite Hp. by apply NoDup_cons.
  - intros l Hl. rewrite Hp in Hl. rewrite Hh by (by rewrite <-(full_perm_front hd tl x (k, v))
      ; rewrite Hp). apply Hfr. set_solver.
  - intros l. rewrite Hp. intros [->|Hl]%elem_of_cons; [done|by apply Hfs].
  - by apply NoDup_cons.
  - intros k'. unfold node_of. simpl. destruct (Z.eqb_spec k k') as [->|Hkk].
    + by rewrite lookup_insert_eq.
    + rewrite lookup_insert_ne by done. apply Hca.
Qed.

(** Unlinking and deleting the last node. *)
Lemma rep_pop s hd tl P y k v h :
  lru_rep F cap s hd tl (P ++ [(y, (k, v))]) →
  chain h None (full hd tl P) None →
  (∀ l, l ∉ (full hd tl P).*1 → h !! l = delete y (lru_heap s) !! l) →
  lru_rep F cap (LRU (delete k (lru_cache s)) (lru_size s - 1) (lru_capacity s)
    (lru_head s) (lru_tail s) h) hd tl P.
Proof.
  intros [Hhd Ht Hcap Hz _ Hnd Hfr Hfs Hks Hca] Hc Hh.
  assert ((full hd tl (P ++ [(y, (k, v))])).*1 ≡ₚ y :: (full hd tl P).*1) as Hp
    by (rewrite (full_perm hd tl y (k, v) P []); unfold full; csimpl; by rewrite fmap_app).
  rewrite Hp in Hnd. apply NoDup_cons in Hnd as [Hy Hnd].
  rewrite !fmap_app in Hks. csimpl in Hks. apply NoDup_app in Hks as (Hks & Hkn & _).
  assert (k ∉ P.*2.*1) as HkP by (intros Hk; apply (Hkn k Hk); by apply list_elem_of_singleton).
  constructor; simpl; try done.
  - rewrite Hz, length_app. simpl. lia.
  - intros l Hl. rewrite Hh by done. destruct (decide (l = y)) as [->|Hly].
    + rewrite lookup_delete_eq. symmetry. apply Hfs. rewrite Hp. by left.
    + rewrite lookup_delete_ne by done. apply Hfr. rewrite Hp. set_solver.
  - intros l Hl. apply Hfs. rewrite Hp. by right.
  - intros k'. destruct (decide (k' = k)) as [->|Hkk].
    + by rewrite lookup_delete_eq, node_of_not_in.
    + rewrite lookup_delete_ne, Hca, node_of_app by done. unfold node_of at 2. simpl.
      rewrite (proj2 (Z.eqb_neq k k')) by congruence. by destruct (node_of k' P).
Qed.

Lemma wp_evict s hd tl P y k v :
  lru_rep F cap s hd tl (P ++ [(y, (k, v))]) → Z.of_nat (length P) ≤ INT_MAX →
  wp (removed ← removeTail;
      rk ← field key removed;
      c ← gets lru_cache; modify (set_cache (delete rk c));;
      delete_ removed;;
      z ← gets lru_size; z ← int (z - 1); modify (set_size z)) s
    (λ _ s', lru_rep F cap s' hd tl P).
Proof.
  intros Hr Hlen. pose proof (rep_chain _ _ _ _ _ _ Hr) as Hc.
  pose proof (rep_nodup _ _ _ _ _ _ Hr) as Hnd.
  pose proof (rep_size _ _ _ _ _ _ Hr) as Hz. rewrite length_app in Hz. simpl in Hz.
  assert (full hd tl (P ++ [(y, (k, v))]) = ((hd, (0, 0)) :: P) ++ (y, (k, v)) :: [(tl, (0, 0))])
    as Hfull by (unfold full; by rewrite <-app_assoc).
  assert (lru_heap s !! tl = Some (DNode (0, 0) (Some y) None)) as Htl.
  { unfold full in Hc. by chain_split. }
  unfold removeTail. do 2 apply wp_bind. rewrite Hfull in Hc, Hnd.
  apply wp_gets. rewrite (rep_tail _ _ _ _ _ _ Hr). repeat heap_step.
  eapply wp_mono; [eapply (wp_removeNode s _ ((hd, (0, 0)) :: P) y (k, v) [(tl, (0, 0))]); done|].
  intros _ ? (h & -> & Hc' & Hy & Hf). apply chain_lookup in Hc.
  pose proof (eq_trans Hy Hc) as Hy'. repeat heap_step.
  apply wp_int; [unfold INT_MIN, INT_MAX in *; lia|]. repeat heap_step.
  eapply (rep_pop s hd tl P y k v); [done| |].
  - apply chain_delete_ne; [|exact Hc']. revert Hnd. rewrite fmap_app. csimpl.
    intros Hnd. rewrite fmap_app. nodup_flat. csimpl. set_solver.
  - intros l Hl. destruct (decide (l = y)) as [->|Hly]; [by simpl; rewrite !lookup_delete_eq|].
    simpl. rewrite !lookup_delete_ne by done. apply Hf. rewrite <-fmap_app. exact Hl.
Qed.

Lemma rep_set_value s hd tl A x k w v B :
  lru_rep F cap s hd tl (A ++ (x, (k, w)) :: B) → ∃ n,
  lru_heap s !! x = Some n ∧
  lru_rep F cap (with_heap (<[x:=set_value v n]> (lru_heap s)) s) hd tl (A ++ (x, (k, v)) :: B).
Proof.
  intros [Hhd Ht Hcap Hz Hc Hnd Hfr Hfs Hks Hca].
  assert (∀ u, full hd tl (A ++ (x, (k, u)) :: B) =
    ((hd, (0, 0)) :: A) ++ (x, (k, u)) :: B ++ [(tl, (0, 0))]) as Hfull
    by (intros u; unfold full; by rewrite <-app_assoc).
  assert ((full hd tl (A ++ (x, (k, v)) :: B)).*1 = (full hd tl (A ++ (x, (k, w)) :: B)).*1) as Hp
    by (rewrite !Hfull, !fmap_app; done).
  rewrite Hfull in Hc. eexists. split; [by eapply chain_lookup|].
  constructor; try done.
  - simpl. rewrite Hz, !length_app. done.
  - rewrite Hfull. apply chain_set_data with (k, w); [by rewrite <-Hfull|exact Hc].
  - by rewrite Hp.
  - intros l. rewrite Hp. intros Hl. simpl. rewrite lookup_insert_ne; [by apply Hfr|].
    intros <-. apply Hl. rewrite full_perm. by left.
  - intros l. rewrite Hp. apply Hfs.
  - revert Hks. by rewrite !fmap_app.
  - intros k'. simpl. rewrite Hca, !node_of_app. unfold node_of. simpl. by destruct (k =? k').
Qed.

(** The end of an insertion: the last node goes when there are too many. *)
Lemma wp_put_tail s hd tl P :
  P ≠ [] → lru_rep F cap s hd tl P → (length P ≤ S (Z.to_nat cap))%nat → Z.of_nat (length P) ≤ INT_MAX →
  wp (whenM (lru_capacity s <? lru_size s)
       (removed ← removeTail;
        rk ← field key removed;
        c ← gets lru_cache; modify (set_cache (delete rk c));;
        delete_ removed;;
        z ← gets lru_size; z ← int (z - 1); modify (set_size z))) s
    (λ _ s', lru_rep F cap s' hd tl (take (Z.to_nat cap) P)).
Proof.
  intros (P' & y & [k v] & ->)%snoc_cases Hr Hlen Hmax.
  pose proof (rep_size _ _ _ _ _ _ Hr) as Hz. rewrite length_app in *. simpl in *.
  rewrite (rep_cap _ _ _ _ _ _ Hr), Hz.
  apply wp_when; intros Hb; [apply Z.ltb_lt in Hb|apply Z.ltb_ge in Hb].
  - rewrite take_app_le, take_ge by lia. apply wp_evict with y k v; [done|lia].
  - by rewrite take_ge by (rewrite length_app; simpl; lia).
Qed.

Lemma wp_put k v s l :
  cap < INT_MAX → lru_model F cap s l →
  wp (put k v) s (λ _ s', lru_model F cap s' (lru_spec cap (OpPut k v) l).2).
Proof.
  intros Hcap (hd & tl & P & Hr & -> & Hlen). unfold put, cache_count. repeat heap_step.
  destruct (node_of k P) as [x|] eqn:Hk.
  - destruct (node_of_split _ _ _ Hk) as (A & w & B & -> & HkA).
    pose proof (spec_split A x k w B HkA (rep_keys _ _ _ _ _ _ Hr)) as [-> ->].
    pose proof (cache_lookup _ _ _ _ _ _ _ _ Hr HkA) as Hck.
    rewrite bool_decide_eq_true_2 by (rewrite Hck; eauto). simpl.
    unfold cache_at. repeat heap_step. rewrite Hck. repeat heap_step.
    pose proof (rep_set_value _ _ _ _ _ _ _ v _ Hr) as (n & Hn & Hr').
    eapply wp_store; [exact Hn|].
    eapply wp_mono; [exact (wp_move _ _ _ A x k v B Hr' HkA)|]. intros ? s' Hs'.
    exists hd, tl, ((x, (k, v)) :: A ++ B). split_and!; [done|done|].
    revert Hlen. csimpl. rewrite !length_fmap, !length_app. simpl. lia.
  - rewrite bool_decide_eq_false_2
      by (rewrite (rep_cache _ _ _ _ _ _ Hr), Hk; by intros [? [=]]).
    apply node_of_none in Hk. rewrite lru_find_none by done. simpl.
    apply wp_bind, wp_new. intros x Hx. repeat heap_step.
    destruct (rep_new_node _ _ _ _ _ Hr Hx) as [Hxf _].
    unfold full in Hxf.
    eapply wp_mono; [eapply (wp_addToHead _ hd (0, 0) (P ++ [(tl, (0, 0))]) x (k, v))|].
    + exact (rep_head _ _ _ _ _ _ Hr).
    + by destruct P.
    + apply NoDup_cons. split; [exact Hxf|exact (rep_nodup _ _ _ _ _ _ Hr)].
    + apply lookup_insert_eq.
    + apply chain_insert_ne; [exact Hxf|exact (rep_chain _ _ _ _ _ _ Hr)].
    + intros _ ? (h & -> & Hc & Hf). simpl.
      assert (lru_size s = Z.of_nat (length P)) as Hz by apply Hr.
      assert (lru_capacity s = cap) as Hca by apply Hr.
      rewrite length_fmap in Hlen.
      repeat heap_step. apply wp_int; [unfold INT_MIN, INT_MAX in *; lia|]. repeat heap_step.
      lazymatch goal with |- wp _ ?st _ =>
        eapply wp_mono; [apply (wp_put_tail st hd tl ((x, (k, v)) :: P))|] end.
      * done.
      * eapply (rep_push s); try done. intros l Hl. rewrite Hf.
        -- apply lookup_insert_ne. set_solver.
        -- by rewrite fmap_app.
      * simpl. lia.
      * simpl length. unfold INT_MAX in *; lia.
      * intros ? s' Hs'. exists hd, tl, (take (Z.to_nat cap) ((x, (k, v)) :: P)).
        rewrite fmap_take. split_and!; [done|done|]. rewrite length_take. lia.
Qed.

Lemma wp_LRUCache_new s :
  lru_heap s = F →
  wp (LRUCache_new cap) s (λ _ s', lru_model F cap s' []).
Proof.
  intros HF. unfold LRUCache_new. apply wp_bind, wp_new. intros hd Hhd.
  apply wp_bind, wp_new. simpl. intros tl Htl.
  assert (hd ≠ tl) as Hne by (intros ->; by rewrite lookup_insert_eq in Htl).
  rewrite lookup_insert_ne in Htl by done. simpl in Hhd. rewrite HF in *.
  repeat heap_step.
  exists hd, tl, []. split_and!; [|done|simpl; lia].
  constructor; simpl; try done.
  - chain_join.
  - apply NoDup_cons. split; [set_solver|apply NoDup_singleton].
  - intros l Hl. rewrite !lookup_insert_ne by set_solver. done.
  - intros l Hl. apply elem_of_cons in Hl as [->|Hl]; [done|apply list_elem_of_singleton in Hl as ->]; done.
  - apply NoDup_nil_2.
Qed.

Lemma wp_LRUCache_delete s l fuel :
  lru_model F cap s l → (Z.to_nat cap + 2 < fuel)%nat →
  wp (LRUCache_delete fuel) s (λ _ s', lru_heap s' = F).
Proof.
  intros (hd & tl & P & Hr & -> & Hlen) Hfuel. unfold LRUCache_delete.
  apply wp_bind, wp_gets. rewrite (rep_head _ _ _ _ _ _ Hr). rewrite length_fmap in Hlen.
  apply (wp_loop (λ n cur s, ∃ p R, n = length R ∧ cur = first_of R None ∧
    chain (lru_heap s) p R None ∧ NoDup R.*1 ∧ (∀ l, l ∈ R.*1 → F !! l = None) ∧
    ∀ l, l ∉ R.*1 → lru_heap s !! l = F !! l)) with (n := length (full hd tl P)).
  - clear. intros n cur s (p & R & -> & -> & Hc & Hnd & HF & Hfr).
    destruct R as [|[x d] R]; simpl.
    { apply wp_ret. apply map_eq. intros l. apply Hfr. set_solver. }
    destruct Hc as [Hx Hc]. csimpl in Hnd. nodup_flat. repeat heap_step.
    exists (length R). split; [lia|]. exists (Some x), R. split_and!; try done.
    + by apply chain_delete_ne.
    + intros l Hl. apply HF. csimpl. by right.
    + intros l Hl. destruct (decide (l = x)) as [->|Hlx].
      * rewrite lookup_delete_eq. symmetry. apply HF. csimpl. by left.
      * rewrite lookup_delete_ne by done. apply Hfr. csimpl. set_solver.
  - exists None, (full hd tl P). split_and!; try done; apply Hr.
  - unfold full. simpl. rewrite length_app. simpl. lia.
Qed.
End operations.

(** * Clients *)

Section clients.
Context `{Allocator}.

Definition lru_exec (o : lru_op) : LRUM (option Z) :=
  match o with
  | OpGet k => v ← get k; ret (Some v)
  | OpPut k v => put k v;; ret None
  end.
Fixpoint lru_execs (os : list lru_op) : LRUM (list (option Z)) :=
  match os with
  | [] => ret []
  | o :: os => r ← lru_exec o; rs ← lru_execs os; ret (r :: rs)
  end.
(** A cache from its construction to the end of its scope. *)
Definition lru_client (c : Z) (os : list lru_op) (fuel : nat) : LRUM (list (option Z)) :=
  LRUCache_new c;; rs ← lru_execs os; LRUCache_delete fuel;; ret rs.

Lemma wp_lru_exec F cap o s l :
  cap < INT_MAX → lru_model F cap s l →
  wp (lru_exec o) s (λ r s', r = (lru_spec cap o l).1 ∧ lru_model F cap s' (lru_spec cap o l).2).
Proof.
  intros Hcap Hm. destruct o as [k|k v]; unfold lru_exec; apply wp_bind.
  - eapply wp_mono; [by apply wp_get|]. by intros r s'.
  - eapply wp_mono; [by apply wp_put|]. by intros r s'.
Qed.

Lemma wp_lru_execs F cap os s l :
  cap < INT_MAX → lru_model F cap s l →
  wp (lru_execs os) s (λ rs s', rs = (lru_specs cap os l).1 ∧
    lru_model F cap s' (lru_specs cap os l).2).
Proof.
  intros Hcap. revert s l. induction os as [|o os IH]; intros s l Hm; simpl; [done|].
  apply wp_bind. eapply wp_mono; [by apply wp_lru_exec|]. intros r s1 [-> Hm1].
  destruct (lru_spec cap o l) as [r l1]. simpl in *.
  apply wp_bind. eapply wp_mono; [by apply IH|]. intros rs s2 [-> Hm2].
  destruct (lru_specs cap os l1) as [rs l2]. by apply wp_ret.
Qed.
End clients.

(** C5: The cache refines the list of its entries in order of use: for any
    sequence of [get]s and [put]s on a new cache of capacity [c], the results
    are those of the list, where a [get] returns the value and moves the entry
    to the front, or returns -1, and a [put] replaces the value in front or adds
    an entry and drops the least recently used one beyond the capacity; nothing
    undefined happens for any allocator, and the destructor frees every node. *)
Theorem LRUCache_refines `{Allocator} c os fuel s :
  c < INT_MAX → (Z.to_nat c + 2 < fuel)%nat →
  ∃ s', lru_client c os fuel s = Done (lru_specs c os []).1 s' ∧ lru_heap s' = lru_heap s.
Proof.
  intros Hc Hf. enough (wp (lru_client c os fuel) s (λ rs s',
    rs = (lru_specs c os []).1 ∧ lru_heap s' = lru_heap s)) as Hw.
  { destruct (wp_elim _ _ _ Hw) as (rs & s' & Hr & -> & Hs). eauto. }
  apply wp_bind. eapply wp_mono; [by apply (wp_LRUCache_new (lru_heap s))|]. intros ? s1 Hm.
  apply wp_bind. eapply wp_mono; [eapply wp_lru_execs; [done|exact Hm]|]. intros rs s2 [-> Hm2].
  apply wp_bind. eapply wp_mono; [eapply wp_LRUCache_delete; [exact Hm2|done]|]. intros ? s3 Hs.
  by apply wp_ret.
Qed.
