(* ===== verification/Timer.v ===== *)
(** The list of timers of src/TinyWebServer/timer (lst_timer.h,
    lst_timer.cpp), sorted by expiry, with the callback that closes a
    connection, and the timer operations of the server
    (src/TinyWebServer/webserver.cpp). *)
From stdpp Require Import gmap.
From S2P Require Import Prelude CppHeap.
#[global] Open Scope Z_scope.

(** The members of [UtilTimer] but its links. [user_data] points into the
    array [client_data]: its index. *)
Record timer_data := TimerData { t_expire : Z; t_user_data : Z }.
Abbreviation UtilTimer := (dnode timer_data).
Definition expire (t : UtilTimer) : Z := t_expire (n_data t).
Definition user_data (t : UtilTimer) : Z := t_user_data (n_data t).
Definition set_expire (e : Z) (t : UtilTimer) : UtilTimer :=
  DNode (TimerData e (user_data t)) (n_prev t) (n_next t).

(** [struct ClientData]: the descriptor and the timer of a connection. *)
Record ClientData := Client { sockfd : Z; timer : ptr }.

(** The calls the callback makes. *)
Inductive conn_call := EpollDel (fd : Z) | CloseFd (fd : Z).
#[export] Instance conn_call_eq_dec : EqDecision conn_call.
Proof. solve_decision. Defined.

(** [SortTimeLst], the heap of timers, the array [client_data], and what the
    callback changes: [HttpConn::m_user_count] and the calls made so far. *)
Record SortTimeLst := Timers {
  tl_head : ptr;
  tl_tail : ptr;
  tl_heap : gmap loc UtilTimer;
  client_data : gmap Z ClientData;
  m_user_count : Z;
  conn_calls : list conn_call
}.

#[export, program] Instance timers_heap : HasHeap SortTimeLst UtilTimer := {|
  heap_of := tl_heap;
  with_heap h s := Timers (tl_head s) (tl_tail s) h (client_data s) (m_user_count s) (conn_calls s)
|}.
Solve Obligations with (intros; simpl; try by destruct s).

Definition TM := M SortTimeLst.
Definition set_head (p : ptr) : TM unit := modify (λ s,
  Timers p (tl_tail s) (tl_heap s) (client_data s) (m_user_count s) (conn_calls s)).
Definition set_tail (p : ptr) : TM unit := modify (λ s,
  Timers (tl_head s) p (tl_heap s) (client_data s) (m_user_count s) (conn_calls s)).
Definition set_client (fd : Z) (c : ClientData) : TM unit := modify (λ s,
  Timers (tl_head s) (tl_tail s) (tl_heap s) (<[fd:=c]> (client_data s)) (m_user_count s)
    (conn_calls s)).
Definition conn_do (c : conn_call) : TM unit := modify (λ s,
  Timers (tl_head s) (tl_tail s) (tl_heap s) (client_data s) (m_user_count s)
    (conn_calls s ++ [c])).

(** [cb_func(user_data)]: the connection is taken out of the epoll table and
    closed, and counted off. *)
Definition cb_func (fd : Z) : TM unit :=
  cs ← gets client_data; c ← need (cs !! fd);
  conn_do (EpollDel (sockfd c));;
  conn_do (CloseFd (sockfd c));;
  n ← gets m_user_count; n ← int (n - 1);
  modify (λ s, Timers (tl_head s) (tl_tail s) (tl_heap s) (client_data s) n (conn_calls s)).

(** [SortTimeLst()] *)
Definition SortTimeLst_new : TM unit := set_head None;; set_tail None.

(** [~SortTimeLst()] *)
Definition SortTimeLst_delete (fuel : nat) : TM unit :=
  tmp ← gets tl_head;
  loop fuel (λ tmp,
    if negb (non_null tmp) then ret (inr tt) else
    n ← field n_next tmp; set_head n;;
    delete_ tmp;;
    tmp ← gets tl_head;
    ret (inl tmp)) tmp.

(** [add_timer(timer, lst_head)] *)
Definition add_timer_after (fuel : nat) (timer lst_head : ptr) : TM unit :=
  let prev := lst_head in
  tmp ← field n_next prev;
  tmp ← loop fuel (λ '(prev, tmp),
    if negb (non_null tmp) then ret (inr tmp) else
    e ← field expire timer; te ← field expire tmp;
    if e <? te then
      store prev (set_next timer);;
      store timer (set_prev prev);;
      store tmp (set_prev timer);;
      store timer (set_next timer);;
      ret (inr tmp)
    else
      let prev := tmp in
      tmp ← field n_next tmp;
      ret (inl (prev, tmp))) (prev, tmp);
  whenM (negb (non_null tmp))
    (tl ← gets tl_tail; store tl (set_next timer);;
     store timer (set_prev timer);;
     store timer (set_next None);;
     set_tail timer).

(** [add_timer(timer)] *)
Definition add_timer (fuel : nat) (timer : ptr) : TM unit :=
  if negb (non_null timer) then ret tt else
  hd ← gets tl_head;
  if negb (non_null hd) then set_tail timer;; set_head timer else
  e ← field expire timer; he ← field expire hd;
  if e <? he then
    store hd (set_prev timer);;
    store timer (set_next hd);;
    set_head timer
  else add_timer_after fuel timer hd.

Definition adjust_timer (fuel : nat) (timer : ptr) : TM unit :=
  if negb (non_null timer) then ret tt else
  hd ← gets tl_head; tl ← gets tl_tail;
  if bool_decide (timer = hd) && bool_decide (timer = tl) then ret tt else
  tmp ← field n_next timer;
  if negb (non_null tmp) then ret tt else
  e ← field expire timer; te ← field expire tmp;
  if e <? te then ret tt else
  if bool_decide (timer = hd) then
    n ← field n_next hd; set_head n;;
    store tmp (set_prev None);;
    store timer (set_next None);;
    hd ← gets tl_head; add_timer_after fuel timer hd
  else
    p ← field n_prev timer; n ← field n_next timer; store p (set_next n);;
    n ← field n_next timer; p ← field n_prev timer; store n (set_prev p);;
    hd ← gets tl_head; add_timer_after fuel timer hd.

Definition del_timer (timer : ptr) : TM unit :=
  if negb (non_null timer) then ret tt else
  hd ← gets tl_head; tl ← gets tl_tail;
  if bool_decide (timer = hd) || bool_decide (hd = tl) then
    if bool_decide (hd = tl) then
      delete_ timer;; set_head None;; set_tail None
    else if bool_decide (timer = hd) then
      n ← field n_next hd; set_head n;;
      hd ← gets tl_head; store hd (set_prev None);;
      delete_ timer
    else whenM (bool_decide (timer = tl))
      (p ← field n_prev tl; set_tail p;;
       tl ← gets tl_tail; store tl (set_next None);;
       delete_ timer)
  else
    p ← field n_prev timer; n ← field n_next timer; store p (set_next n);;
    n ← field n_next timer; p ← field n_prev timer; store n (set_prev p);;
    delete_ timer.

(** [tick()], at the time [cur] that [time(NULL)] returns. *)
Definition tick (fuel : nat) (cur : Z) : TM unit :=
  hd ← gets tl_head;
  if negb (non_null hd) then ret tt else
  let tmp := hd in
  loop fuel (λ tmp,
    if negb (non_null tmp) then ret (inr tt) else
    te ← field expire tmp;
    if te >? cur then ret (inr tt) else
    n ← field n_next tmp; set_head n;;
    u ← field user_data tmp; cb_func u;;
    hd ← gets tl_head; whenM (non_null hd) (store hd (set_prev None));;
    delete_ tmp;;
    tmp ← gets tl_head;
    ret (inl tmp)) tmp.

(** * The operations of the server: webserver.cpp *)

Definition TIMESLOT : Z := 5.

Section server.
Context `{Allocator}.

(** [WebServer::timer(conn_fd, client_address)], after [users[conn_fd].init],
    at the time [cur]. *)
Definition server_timer (fuel : nat) (cur conn_fd : Z) : TM unit :=
  t ← new (DNode (TimerData (cur + 3 * TIMESLOT) conn_fd) None None);
  set_client conn_fd (Client conn_fd t);;
  add_timer fuel t.

(** [WebServer::adjust_timer(timer)], at the time [cur]. *)
Definition server_adjust_timer (fuel : nat) (cur : Z) (timer : ptr) : TM unit :=
  store timer (set_expire (cur + 3 * TIMESLOT));;
  adjust_timer fuel timer.

(** [WebServer::del_timer(timer, sockfd)] *)
Definition server_del_timer (timer : ptr) (sockfd : Z) : TM unit :=
  _ ← load timer;
  cb_func sockfd;;
  whenM (non_null timer) (del_timer timer;; delete_ timer).
End server.
