(* ===== verification/TimerProps.v ===== *)
(** The timers of the web server: connections are closed in the order of
    their expiry, as long as timers are only appended; a timer that is moved
    from the middle of the list cuts off those behind it, and closing a
    connection deletes its timer twice. *)
From stdpp Require Import gmap sorting.
From S2P Require Import Prelude CppHeap Timer.

(** * The list, forwards *)

Section forward.
Context {D : Type}.
Implicit Types (h : gmap loc (dnode D)) (xs ys : list (loc * D)).

(** The nodes [xs] linked by [next] up to [n]; [prev] is not looked at. *)
Fixpoint nchain h xs (n : ptr) : Prop :=
  match xs with
  | [] => True
  | (x, d) :: xs => (∃ p, h !! x = Some (DNode d p (first_of xs n))) ∧ nchain h xs n
  end.

Lemma nchain_app h xs ys n :
  nchain h (xs ++ ys) n ↔ nchain h xs (first_of ys n) ∧ nchain h ys n.
Proof.
  induction xs as [|[x d] xs IH]; simpl; [tauto|]. rewrite IH, first_of_app. tauto.
Qed.

Lemma nchain_ext h h' xs n :
  (∀ x, x ∈ xs.*1 → h' !! x = h !! x) → nchain h xs n → nchain h' xs n.
Proof.
  induction xs as [|[x d] xs IH]; simpl; [done|]. csimpl. intros Hx [[p Hp] Hc].
  split; [exists p; by rewrite Hx by set_solver|]. apply IH; [set_solver|done].
Qed.

Lemma nchain_insert_ne h xs n x v : x ∉ xs.*1 → nchain h xs n → nchain (<[x:=v]> h) xs n.
Proof. intros Hx. apply nchain_ext. intros y Hy. apply lookup_insert_ne. set_solver. Qed.

Lemma nchain_dom h xs n x : nchain h xs n → x ∈ xs.*1 → is_Some (h !! x).
Proof.
  induction xs as [|[y d] xs IH]; csimpl; [set_solver|].
  intros [[p Hy] Hc] [->|Hx]%elem_of_cons; [eauto|by apply IH].
Qed.

(** Changing only [prev]s. *)
Lemma nchain_set_prev h xs n x nd p :
  h !! x = Some nd → nchain h xs n → nchain (<[x:=set_prev p nd]> h) xs n.
Proof.
  intros Hx. induction xs as [|[y d] xs IH]; simpl; [done|].
  intros [[q Hy] Hc]. split; [|by apply IH].
  destruct (decide (x = y)) as [->|Hxy].
  - rewrite lookup_insert_eq. simplify_map_eq. by eexists.
  - rewrite lookup_insert_ne by done. by exists q.
Qed.

Lemma last_of_snoc p xs (x : loc) (d : D) : last_of p (xs ++ [(x, d)]) = Some x.
Proof. by rewrite last_of_app. Qed.
Lemma first_of_snoc xs (x : loc) (d : D) n : ∃ y, first_of (xs ++ [(x, d)]) n = Some y.
Proof. destruct xs as [|[y ?] ?]; eexists; reflexivity. Qed.
End forward.

(** * What the object holds *)

Definition timers_t : Type := list (loc * timer_data).

(** The timers [xs], in a heap whose other objects are those of [F]. The [prev]
    of a timer that was appended is the timer itself. *)
Record tl_rep (F : gmap loc UtilTimer) (s : SortTimeLst) (xs : timers_t) : Prop := {
  tr_head : tl_head s = first_of xs None;
  tr_tail : xs ≠ [] → tl_tail s = last_of None xs;
  tr_chain : nchain (tl_heap s) xs None;
  tr_nodup : NoDup xs.*1;
  tr_frame l : l ∉ xs.*1 → tl_heap s !! l = F !! l;
  tr_fresh l : l ∈ xs.*1 → F !! l = None;
  tr_self y : y ∈ (tail xs).*1 → ∃ d n, tl_heap s !! y = Some (DNode d (Some y) n)
}.

(** * Undefined: a timer is deleted twice *)

(** What holds of the result, if there is one. *)
Definition wlp {S A} (m : M S A) (s : S) (Q : A → S → Prop) : Prop :=
  ∀ a s', m s = Done a s' → Q a s'.

Lemma wlp_bind {S A B} (f : A → M S B) (m : M S A) s Q :
  wlp m s (λ a s', wlp (f a) s' Q) → wlp (bind m f) s Q.
Proof.
  intros Hm b s' Hb. unfold bind in Hb. destruct (m s) as [a s1| | |] eqn:Hs; try done.
  by eapply Hm.
Qed.
Lemma wlp_skip {S A B} (f : A → M S B) (m : M S A) s Q :
  (∀ a s', wlp (f a) s' Q) → wlp (bind m f) s Q.
Proof. intros Hf. apply wlp_bind. intros a s' _. apply Hf. Qed.
Ltac wlp_skips := repeat lazymatch goal with
  | |- wlp (bind _ _) _ _ => apply wlp_skip; intros; cbv beta end.
Lemma wlp_if {S A} (b : bool) (m1 m2 : M S A) s Q :
  (b = true → wlp m1 s Q) → (b = false → wlp m2 s Q) → wlp (if b then m1 else m2) s Q.
Proof. destruct b; auto. Qed.

Lemma wlp_delete x s : wlp (delete_ (Some x)) s (λ _ s', tl_heap s' !! x = None).
Proof.
  intros a s' Hd. unfold delete_, load, bind, need, gets, ret, modify in Hd.
  destruct (heap_of s !! x) eqn:Hx; [|done].
  injection Hd as _ <-. simpl. apply lookup_delete_eq.
Qed.

Lemma wlp_delete_gone x s : tl_heap s !! x = None → wlp (delete_ (Some x)) s (λ _ _, False).
Proof.
  intros Hx a s' Hd. unfold delete_, load, bind, need, gets, ret in Hd. simpl in Hd.
  by rewrite Hx in Hd.
Qed.

(** The computation neither exits nor runs out of fuel. *)
Definition plain {S A} (m : M S A) : Prop :=
  ∀ s, match m s with Done _ _ | Undef => True | _ => False end.
Lemma plain_bind {S A B} (m : M S A) (f : A → M S B) :
  plain m → (∀ a, plain (f a)) → plain (bind m f).
Proof.
  intros Hm Hf s. specialize (Hm s). unfold bind. destruct (m s); try done. apply Hf.
Qed.
Lemma plain_if {S A} (b : bool) (m1 m2 : M S A) :
  plain m1 → plain m2 → plain (if b then m1 else m2).
Proof. by destruct b. Qed.
Lemma plain_need {S A} (o : option A) : plain (S:=S) (need o).
Proof. by destruct o. Qed.
Lemma plain_int {S} z : plain (S:=S) (int z).
Proof. intros s. unfold int. by destruct (is_int z). Qed.
Ltac plain :=
  repeat lazymatch goal with
  | |- plain (bind _ _) => apply plain_bind; [|intros ?]
  | |- plain (if _ then _ else _) => apply plain_if
  | |- plain (need _) => apply plain_need
  | |- plain (int _) => apply plain_int
  | |- plain (whenM _ _) => unfold whenM
  | |- plain (field _ _) => unfold field
  | |- plain (store _ _) => unfold store
  | |- plain (load _) => unfold load
  | |- plain (delete_ ?p) => destruct p; unfold delete_
  | |- plain _ => done
  end.

Lemma undef_intro {S A} (m : M S A) s : plain m → wlp m s (λ _ _, False) → m s = Undef.
Proof. intros Hp Hw. specialize (Hp s). destruct (m s) eqn:Hm; try done. by destruct (Hw a s0). Qed.

Lemma del_timer_deletes x s : wlp (del_timer (Some x)) s (λ _ s', tl_heap s' !! x = None).
Proof.
  unfold del_timer. simpl. intros a s'. unfold bind at 1 2, gets at 1 2. revert a s'.
  change (wlp (if bool_decide (Some x = tl_head s) || bool_decide (tl_head s = tl_tail s) then
    if bool_decide (tl_head s = tl_tail s) then
      delete_ (Some x);; set_head None;; set_tail None
    else if bool_decide (Some x = tl_head s) then
      n ← field n_next (tl_head s); set_head n;;
      hd ← gets tl_head; store hd (set_prev None);;
      delete_ (Some x)
    else whenM (bool_decide (Some x = tl_tail s))
      (p ← field n_prev (tl_tail s); set_tail p;;
       tl ← gets tl_tail; store tl (set_next None);;
       delete_ (Some x))
  else
    p ← field n_prev (Some x); n ← field n_next (Some x); store p (set_next n);;
    n ← field n_next (Some x); p ← field n_prev (Some x); store n (set_prev p);;
    delete_ (Some x)) s (λ _ s', tl_heap s' !! x = None)).
  apply wlp_if; intros Hb; [apply wlp_if; intros Ht; [|apply wlp_if; intros Hh]|].
  - apply wlp_bind. intros a s' Hd. apply wlp_delete in Hd.
    intros b s'' [= _ <-]. exact Hd.
  - wlp_skips. apply wlp_delete.
  - rewrite Ht, Hh in Hb. done.
  - wlp_skips. apply wlp_delete.
Qed.

Lemma server_del_timer_undef timer sockfd s : server_del_timer timer sockfd s = Undef.
Proof.
  destruct timer as [x|]; [|done]. unfold server_del_timer. simpl. apply undef_intro.
  - unfold cb_func, conn_do, del_timer. simpl. plain.
  - do 2 (apply wlp_skip; intros). apply wlp_bind. intros b s1 Hd.
    apply wlp_delete_gone. by eapply del_timer_deletes.
Qed.


(** [WebServer::del_timer] (webserver.cpp), which ends every connection
    that the peer closes or whose reading or writing fails, has no defined
    behaviour, whatever the state, the timer and the descriptor: the timer is
    used before it is compared with null, and when it is not null
    [SortTimeLst::del_timer] has already deleted it when it is deleted again. *)
Theorem server_del_timer_undefined timer sockfd s : server_del_timer timer sockfd s = Undef.
Proof. apply server_del_timer_undef. Qed.

(** * Appending and expiring *)

(** Everything but the list. *)
Definition same_rest (s s' : SortTimeLst) : Prop :=
  client_data s' = client_data s ∧ m_user_count s' = m_user_count s ∧
  conn_calls s' = conn_calls s.

Section operations.
Context (F : gmap loc UtilTimer).
Implicit Types (xs A B : timers_t).

Lemma tr_not_in nd s xs x : tl_rep (<[x:=nd]> F) s xs → x ∉ xs.*1 ∧ tl_heap s !! x = Some nd.
Proof.
  intros Hr. assert (x ∉ xs.*1) as Hx.
  { intros Hin. apply (tr_fresh _ _ _ Hr) in Hin. by rewrite lookup_insert_eq in Hin. }
  split; [done|]. by rewrite (tr_frame _ _ _ Hr), lookup_insert_eq.
Qed.

(** The end of [add_timer]: [x] becomes the last timer. *)
Lemma tr_append nd s xs z dz p x :
  tl_rep (<[x:=nd]> F) s (xs ++ [(z, dz)]) → F !! x = None →
  tl_heap s !! z = Some (DNode dz p None) →
  tl_rep F (Timers (tl_head s) (Some x)
      (<[x:=DNode (n_data nd) (Some x) None]> (<[z:=DNode dz p (Some x)]> (tl_heap s)))
      (client_data s) (m_user_count s) (conn_calls s))
    ((xs ++ [(z, dz)]) ++ [(x, n_data nd)]).
Proof.
  intros Hr HF Hz. destruct (tr_not_in _ _ _ _ Hr) as [Hx _].
  destruct Hr as [Hh Ht Hc Hnd Hfr Hfs Hself].
  pose proof Hnd as Hnd'. rewrite fmap_app in Hnd', Hx. csimpl in Hnd'. csimpl in Hx. nodup_flat.
  constructor; simpl.
  - by rewrite Hh, first_of_app; destruct xs.
  - intros _. by rewrite last_of_snoc.
  - rewrite !nchain_app in *. simpl in *. destruct Hc as [Hc _].
    split_and!; [|by rewrite lookup_insert_ne, lookup_insert_eq by congruence; eauto|done|
      by rewrite lookup_insert_eq; eauto|done].
    apply nchain_insert_ne; [set_solver|]. by apply nchain_insert_ne; [set_solver|].
  - rewrite fmap_app. csimpl. apply NoDup_app. split_and!; [done| |apply NoDup_singleton].
    intros y Hy ->%list_elem_of_singleton. rewrite fmap_app in Hy. csimpl in Hy. set_solver.
  - intros l Hl. rewrite !fmap_app in Hl. csimpl in Hl. nodup_flat.
    rewrite !lookup_insert_ne by congruence. rewrite Hfr; [by rewrite lookup_insert_ne by congruence|].
    rewrite fmap_app. csimpl. set_solver.
  - intros l Hl. rewrite fmap_app in Hl. csimpl in Hl. apply elem_of_app in Hl as [Hl|Hl].
    + specialize (Hfs l Hl). destruct (decide (x = l)) as [->|]; [done|].
      by rewrite lookup_insert_ne in Hfs.
    + by apply list_elem_of_singleton in Hl as ->.
  - intros y Hy. destruct (decide (y = x)) as [->|Hyx]; [rewrite lookup_insert_eq; eauto|].
    rewrite lookup_insert_ne by done.
    assert (y ∈ (tail (xs ++ [(z, dz)])).*1) as Hyt.
    { destruct xs as [|e xs]; simpl in *.
      - by apply list_elem_of_singleton in Hy.
      - rewrite fmap_app in Hy. csimpl in Hy. set_solver. }
    destruct (Hself y Hyt) as (d & n & Hyd). destruct (decide (y = z)) as [->|Hyz].
    + rewrite lookup_insert_eq. destruct xs as [|e xs]; simpl in *; [set_solver|].
      simplify_map_eq. eauto.
    + rewrite lookup_insert_ne by done. eauto.
Qed.

(** [add_timer] goes past every timer that does not expire later. *)
Lemma wp_add_walk fuel nd s y dy p ys x Q :
  tl_heap s !! x = Some nd → tl_heap s !! y = Some (DNode dy p (first_of ys None)) →
  nchain (tl_heap s) ys None → (∀ d, d ∈ ys.*2 → t_expire d ≤ expire nd) →
  (length ys < fuel)%nat →
  wp (tl ← gets tl_tail; store tl (set_next (Some x));;
      store (Some x) (set_prev (Some x));;
      store (Some x) (set_next None);;
      set_tail (Some x)) s Q →
  wp (add_timer_after fuel (Some x) (Some y)) s Q.
Proof.
  intros Hxn Hy Hc He Hfuel HQ. unfold add_timer_after. repeat heap_step.
  eapply wp_mono with (P := λ r s', r = None ∧ s' = s).
  { apply (wp_loop (λ n '(_, tmp) s', s' = s ∧ ∃ A R, ys = A ++ R ∧ tmp = first_of R None ∧
      n = length R)) with (n := length ys); [|split; [done|]; by exists [], ys|done].
    intros n [prev tmp] s' (-> & A & R & HAR & -> & ->).
    destruct R as [|[z dz] R]; simpl; [by apply wp_ret|].
    rewrite HAR, nchain_app in Hc. simpl in Hc. destruct Hc as (_ & [q Hz] & _).
    repeat heap_step. unfold expire at 2. simpl.
    rewrite (proj2 (Z.ltb_ge _ _))
      by (apply He; rewrite HAR, fmap_app; csimpl; set_solver).
    repeat heap_step. exists (length R). split; [lia|]. split; [done|].
    exists (A ++ [(z, dz)]), R. by rewrite <-app_assoc. }
  by intros ? s' [-> ->].
Qed.

Lemma wp_add_timer fuel nd s xs x :
  tl_rep (<[x:=nd]> F) s xs → F !! x = None → n_next nd = None →
  (∀ y, y ∈ xs.*2 → t_expire y ≤ expire nd) → (length xs < fuel)%nat →
  wp (add_timer fuel (Some x)) s (λ _ s', tl_rep F s' (xs ++ [(x, n_data nd)]) ∧ same_rest s s').
Proof.
  intros Hr HF Hnx He Hfuel. destruct (tr_not_in _ _ _ _ Hr) as [Hx Hxn].
  unfold add_timer. simpl. apply wp_bind, wp_gets.
  destruct xs as [|[y dy] ys] eqn:Hxs.
  { rewrite (tr_head _ _ _ Hr). simpl. repeat heap_step.
    split; [|done]. destruct Hr as [_ _ _ _ Hfr _ _]. constructor; simpl; try done.
    - rewrite Hxn. split; [|done]. exists (n_prev nd). destruct nd. simpl in *. by subst.
    - apply NoDup_singleton.
    - intros l Hl. rewrite Hfr by set_solver. apply lookup_insert_ne. set_solver.
    - by intros l ->%list_elem_of_singleton.
    - intros y Hy. by apply not_elem_of_nil in Hy. }
  rewrite <-Hxs in *. assert (tl_head s = Some y) as Hhd by (by rewrite (tr_head _ _ _ Hr), Hxs).
  pose proof (tr_chain _ _ _ Hr) as Hc. rewrite Hxs in Hc. simpl in Hc. destruct Hc as [[p Hy] Hc].
  rewrite Hhd. simpl. repeat heap_step. unfold expire at 2. simpl.
  rewrite (proj2 (Z.ltb_ge _ _)) by (apply He; rewrite Hxs; csimpl; by left).
  apply wp_add_walk with nd dy p ys; try done.
  { intros d Hd. apply He. rewrite Hxs. csimpl. by right. }
  { rewrite Hxs in Hfuel. simpl in Hfuel. lia. }
  destruct (snoc_cases xs) as (zs & z & dz & Hz); [by rewrite Hxs|].
  rewrite Hz in Hr. pose proof (tr_chain _ _ _ Hr) as Hc'. rewrite nchain_app in Hc'.
  destruct Hc' as (_ & [q Hzn] & _). simpl in Hzn.
  assert (tl_tail s = Some z) as Htl by (rewrite (tr_tail _ _ _ Hr), last_of_snoc; [done|by destruct zs]).
  assert (z ≠ x) by (intros ->; apply Hx; rewrite Hz, fmap_app; set_solver).
  repeat heap_step. rewrite Htl. repeat heap_step. unfold set_tail. repeat heap_step.
  split; [|done]. rewrite Hz. unfold set_prev, set_next. simpl.
  rewrite !insert_insert_eq. by apply tr_append.
Qed.

(** The first timer leaves the list and is deleted; [h] may have new [prev]s. *)
Lemma tr_drop s x d xs h n calls :
  tl_rep F s ((x, d) :: xs) → nchain h xs None →
  (∀ l, l ∉ x :: (take 1 xs).*1 → h !! l = tl_heap s !! l) →
  tl_rep F (Timers (first_of xs None) (tl_tail s) (delete x h) (client_data s) n calls) xs.
Proof.
  intros [Hh Ht _ Hnd Hfr Hfs Hself] Hc Hh'. csimpl in Hnd. apply NoDup_cons in Hnd as [Hx Hnd].
  constructor; simpl; try done.
  - intros Hne. rewrite Ht by done. by destruct xs as [|[]].
  - revert Hc. apply nchain_ext. intros y Hy. apply lookup_delete_ne. set_solver.
  - intros l Hl. destruct (decide (l = x)) as [->|Hlx].
    + rewrite lookup_delete_eq. symmetry. apply Hfs. csimpl. by left.
    + rewrite lookup_delete_ne by done.
      rewrite Hh' by (destruct xs; csimpl in *; set_solver). apply Hfr. csimpl. set_solver.
  - intros l Hl. apply Hfs. csimpl. by right.
  - intros y Hy. destruct xs as [|[z dz] xs]; csimpl in *; [set_solver|]. nodup_flat.
    rewrite lookup_delete_ne, Hh' by set_solver. apply Hself. csimpl. by right.
Qed.

Lemma wp_SortTimeLst_delete fuel s xs :
  tl_rep F s xs → (length xs < fuel)%nat →
  wp (SortTimeLst_delete fuel) s (λ _ s', tl_heap s' = F ∧ same_rest s s').
Proof.
  intros Hr Hf. unfold SortTimeLst_delete. apply wp_bind, wp_gets. rewrite (tr_head _ _ _ Hr).
  apply (wp_loop (λ n tmp s', ∃ xs, tl_rep F s' xs ∧ same_rest s s' ∧ tmp = first_of xs None ∧
    n = length xs)) with (n := length xs); [|by exists xs|done].
  clear. intros n tmp s1 (xs & Hr & Hs & -> & ->). destruct xs as [|[x d] xs]; simpl.
  { apply wp_ret. split; [|done]. apply map_eq. intros l. apply (tr_frame _ _ _ Hr). set_solver. }
  pose proof (tr_chain _ _ _ Hr) as [[p Hx] Hc]. unfold set_head. repeat heap_step.
  exists (length xs). split; [lia|]. exists xs. split_and!; try done.
  by eapply (tr_drop s1).
Qed.

(** The timers whose time has come, and the others. *)
Fixpoint due (cur : Z) (xs : timers_t) : timers_t :=
  match xs with
  | (x, d) :: xs => if t_expire d >? cur then [] else (x, d) :: due cur xs
  | [] => []
  end.
Fixpoint rest (cur : Z) (xs : timers_t) : timers_t :=
  match xs with
  | (x, d) :: xs' => if t_expire d >? cur then xs else rest cur xs'
  | [] => []
  end.
Definition closes (fds : list Z) : list conn_call :=
  fds ≫= (λ fd, [EpollDel fd; CloseFd fd]).
Definition fds_of (xs : timers_t) : list Z := t_user_data <$> xs.*2.
(** Every timer's connection is in the array [client_data]. *)
Definition clients_ok (s : SortTimeLst) xs : Prop :=
  ∀ x d, (x, d) ∈ xs → ∃ p, client_data s !! t_user_data d = Some (Client (t_user_data d) p).

(** [tick] under way: the timers [ys] have expired, [zs] are still linked. *)
Record tick_at (cur : Z) (s : SortTimeLst) (xs ys zs : list (loc * timer_data)) (s' : SortTimeLst) : Prop := {
  ta_rep : tl_rep F s' zs;
  ta_due : due cur xs = ys ++ due cur zs;
  ta_rest : rest cur xs = rest cur zs;
  ta_length : (length ys + length zs = length xs)%nat;
  ta_in e : e ∈ zs → e ∈ xs;
  ta_clients : client_data s' = client_data s;
  ta_count : m_user_count s' = m_user_count s - Z.of_nat (length ys);
  ta_calls : conn_calls s' = conn_calls s ++ closes (fds_of ys)
}.
(** The first timer expires; [h] is the heap after the link back to it was
    cleared. *)
Lemma tick_at_next cur s xs ys x d zs s1 h :
  tick_at cur s xs ys ((x, d) :: zs) s1 → (t_expire d >? cur) = false → nchain h zs None →
  (∀ l, l ∉ x :: (take 1 zs).*1 → h !! l = tl_heap s1 !! l) →
  tick_at cur s xs (ys ++ [(x, d)]) zs
    (Timers (first_of zs None) (tl_tail s1) (delete x h) (client_data s1) (m_user_count s1 - 1)
      ((conn_calls s1 ++ [EpollDel (t_user_data d)]) ++ [CloseFd (t_user_data d)])).
Proof.
  intros [Hr Hdue Hrest Hlen Hin Hcl Huc Hcc] Hcur Hh Hsame. simpl in Hdue, Hrest, Hlen. rewrite Hcur in *.
  constructor; simpl; try done.
  - by eapply tr_drop.
  - by rewrite <-app_assoc.
  - rewrite length_app. simpl. lia.
  - intros e He. apply Hin. by right.
  - rewrite length_app. simpl. lia.
  - rewrite Hcc. unfold closes, fds_of. rewrite !fmap_app, bind_app. simpl. by rewrite <-!app_assoc.
Qed.

Lemma wp_tick fuel cur s xs :
  tl_rep F s xs → clients_ok s xs → (length xs < fuel)%nat →
  INT_MIN ≤ m_user_count s - Z.of_nat (length xs) → m_user_count s ≤ INT_MAX →
  wp (tick fuel cur) s (λ _ s', tl_rep F s' (rest cur xs) ∧ client_data s' = client_data s ∧
    m_user_count s' = m_user_count s - Z.of_nat (length (due cur xs)) ∧
    conn_calls s' = conn_calls s ++ closes (fds_of (due cur xs))).
Proof.
  intros Hr Hcl Hf Hmin Hmax. unfold tick. apply wp_bind, wp_gets.
  rewrite (tr_head _ _ _ Hr). destruct xs as [|e xs'] eqn:Hxs.
  { simpl. apply wp_ret. rewrite app_nil_r. split_and!; [done..|lia|done]. }
  replace (negb _) with false by (by destruct e). rewrite <-Hxs in *. clear Hxs e xs'.
  apply (wp_loop (λ n tmp s', ∃ ys zs, tick_at cur s xs ys zs s' ∧ tmp = first_of zs None ∧ n = length zs))
    with (n := length xs); [| |done].
  2:{ exists [], xs. split; [|done]. constructor; simpl; try done; [lia|]. by rewrite app_nil_r. }
  intros n tmp s1 (ys & zs & Hat & -> & ->). pose proof Hat as [Hr1 Hdue Hrest Hlen Hin Hcd Huc Hcc].
  destruct zs as [|[x d] zs]; simpl.
  { apply wp_ret. rewrite Hdue, Hrest. simpl. rewrite app_nil_r. done. }
  pose proof (tr_chain _ _ _ Hr1) as [[p Hx] Hc].
  repeat heap_step. unfold expire. simpl in Hdue, Hrest. simpl.
  destruct (t_expire d >? cur) eqn:Hcur.
  { apply wp_ret. rewrite Hdue, Hrest, app_nil_r. done. }
  unfold set_head. repeat heap_step. unfold cb_func, conn_do. repeat heap_step.
  destruct (Hcl x d) as [q Hq]; [apply Hin; by left|]. rewrite <-Hcd in Hq. unfold user_data. simpl.
  eapply wp_need; [exact Hq|]. repeat heap_step. simpl in Hlen. apply wp_int; [lia|]. repeat heap_step.
  destruct zs as [|[y dy] zs]; simpl; repeat heap_step.
  - exists 0%nat. split; [lia|]. exists (ys ++ [(x, d)]), []. split; [|done]. by apply tick_at_next.
  - pose proof Hc as Hc'. destruct Hc' as [[py Hy] _].
    pose proof (tr_nodup _ _ _ Hr1) as Hnd. csimpl in Hnd. nodup_flat. repeat heap_step.
    exists (S (length zs)). split; [lia|]. exists (ys ++ [(x, d)]), ((y, dy) :: zs). split; [|done].
    apply tick_at_next; [done|done|by eapply (nchain_set_prev (tl_heap s1) ((y, dy) :: zs))|].
    intros l Hl. apply lookup_insert_ne. intros ->. apply Hl. csimpl. set_solver.
Qed.
End operations.
(** * The life of a server *)

(** A connection that is opened, and the alarm that calls [tick], each with the
    time it happens at. *)
Inductive t_event := Connect (cur fd : Z) | Alarm (cur : Z).
Definition ev_time (e : t_event) : Z := match e with Connect cur _ | Alarm cur => cur end.
Fixpoint in_time (now : Z) (es : list t_event) : Prop :=
  match es with
  | [] => True
  | e :: es => now ≤ ev_time e ∧ in_time (ev_time e) es
  end.

(** The connections that wait, with their expiry, and those each event
    closes. *)
Definition ev_spec (e : t_event) (l : list (Z * Z)) : list Z * list (Z * Z) :=
  match e with
  | Connect cur fd => ([], l ++ [(cur + 3 * TIMESLOT, fd)])
  | Alarm cur =>
      ((List.filter (λ w, w.1 <=? cur) l).*2, List.filter (λ w, negb (w.1 <=? cur)) l)
  end.
Fixpoint evs_spec (es : list t_event) (l : list (Z * Z)) : list Z * list (Z * Z) :=
  match es with
  | [] => ([], l)
  | e :: es =>
      let '(c, l1) := ev_spec e l in
      let '(cs, l2) := evs_spec es l1 in (c ++ cs, l2)
  end.

Section life.
Context `{Allocator}.

Definition ev_exec (fuel : nat) (e : t_event) : TM unit :=
  match e with
  | Connect cur fd => server_timer fuel cur fd
  | Alarm cur => tick fuel cur
  end.
Fixpoint evs_exec (fuel : nat) (es : list t_event) : TM unit :=
  match es with
  | [] => ret tt
  | e :: es => ev_exec fuel e;; evs_exec fuel es
  end.

Definition waiting (xs : timers_t) : list (Z * Z) := (λ d, (t_expire d, t_user_data d)) <$> xs.*2.

(** Up to [now]: the waiting connections [l], in the order of their expiry,
    which is at most three slots away. *)
Record t_inv (F : gmap loc UtilTimer) (now : Z) (s : SortTimeLst) (l : list (Z * Z)) : Prop := {
  ti_rep : ∃ xs, tl_rep F s xs ∧ clients_ok s xs ∧ l = waiting xs;
  ti_sorted : StronglySorted Z.le l.*1;
  ti_bound : ∀ w, w ∈ l → w.1 ≤ now + 3 * TIMESLOT
}.

(** On a sorted list, the due timers are those that have expired. *)
Lemma due_filter cur xs :
  StronglySorted Z.le (waiting xs).*1 →
  fds_of (due cur xs) = (List.filter (λ w, w.1 <=? cur) (waiting xs)).*2 ∧
  waiting (rest cur xs) = List.filter (λ w, negb (w.1 <=? cur)) (waiting xs).
Proof.
  induction xs as [|[x d] xs IH]; simpl; [done|]. csimpl.
  intros [Hs Hall]%StronglySorted_inv. rewrite Z.gtb_ltb.
  destruct (Z.leb_spec (t_expire d) cur) as [Hle|Hgt]; simpl.
  - rewrite (proj2 (Z.ltb_ge _ _)) by done. destruct (IH Hs) as [H1 H2]. csimpl.
    unfold fds_of in *. csimpl. by rewrite H1, H2.
  - rewrite (proj2 (Z.ltb_lt _ _)) by done. csimpl.
    assert (∀ w, w ∈ waiting xs → (w.1 <=? cur) = false) as Hw.
    { intros w Hw. apply Z.leb_gt. rewrite Forall_forall in Hall.
      enough (t_expire d ≤ w.1) by lia. apply Hall. apply list_elem_of_fmap. by exists w. }
    split; [by rewrite filter_none|]. rewrite filter_all; [done|].
    intros w Hin. by rewrite Hw.
Qed.

Lemma wp_connect F fuel now cur fd s l :
  t_inv F now s l → now ≤ cur → (length l < fuel)%nat →
  wp (server_timer fuel cur fd) s (λ _ s',
    t_inv F cur s' (l ++ [(cur + 3 * TIMESLOT, fd)]) ∧
    m_user_count s' = m_user_count s ∧ conn_calls s' = conn_calls s).
Proof.
  intros [(xs & Hr & Hcl & ->) Hs Hb] Hcur Hf. unfold server_timer.
  apply wp_bind, wp_new. intros x Hx. simpl in Hx. unfold set_client. repeat heap_step.
  assert (x ∉ xs.*1) as Hxs.
  { intros Hin. destruct (nchain_dom _ _ _ _ (tr_chain _ _ _ Hr) Hin) as [? Hsome]. congruence. }
  assert (F !! x = None) as HF by (by rewrite <-(tr_frame _ _ _ Hr)).
  set (nd := DNode (TimerData (cur + 3 * TIMESLOT) fd) None None).
  eapply wp_mono; [apply (wp_add_timer F fuel nd _ xs x)|].
  - destruct Hr as [Hh Ht Hc Hnd Hfr Hfs Hself]. constructor; simpl; try done.
    + by apply nchain_insert_ne.
    + intros l Hl. destruct (decide (l = x)) as [->|Hlx]; [by rewrite !lookup_insert_eq|].
      rewrite !lookup_insert_ne by done. by apply Hfr.
    + intros l Hl. rewrite lookup_insert_ne by congruence. by apply Hfs.
    + intros y Hy. destruct (Hself y Hy) as (d & n & Hyd). exists d, n.
      rewrite lookup_insert_ne; [done|]. intros ->. apply Hxs. destruct xs; csimpl in *; set_solver.
  - done.
  - done.
  - intros y Hy. enough (t_expire y ≤ now + 3 * TIMESLOT) by (unfold expire; simpl; lia).
    apply (Hb (t_expire y, t_user_data y)). apply list_elem_of_fmap. by exists y.
  - unfold waiting in Hf. by rewrite !length_fmap in Hf.
  - intros ? s' (Hr' & Hcd & Hu & Hc). simpl in *. split_and!; [|done..]. constructor.
    + exists (xs ++ [(x, n_data nd)]). split_and!; [done| |].
      * intros y d [Hin|Hin]%elem_of_app; rewrite Hcd.
        -- destruct (decide (t_user_data d = fd)) as [->|Hne].
           ++ exists (Some x). by rewrite lookup_insert_eq.
           ++ destruct (Hcl y d Hin) as [p Hp]. exists p. by rewrite lookup_insert_ne.
        -- apply list_elem_of_singleton in Hin as [= -> ->]. exists (Some x). by rewrite lookup_insert_eq.
      * unfold waiting. by rewrite !fmap_app.
    + rewrite fmap_app. apply StronglySorted_app_2; [|done|by repeat constructor].
      intros e1 e2 He1 He2. apply list_elem_of_singleton in He2 as ->.
      apply list_elem_of_fmap in He1 as (w & -> & Hw). specialize (Hb w Hw). simpl. lia.
    + intros w [Hw|Hw]%elem_of_app; [specialize (Hb w Hw); lia|].
      apply list_elem_of_singleton in Hw as ->. simpl. lia.
Qed.

Lemma wp_alarm F fuel now cur s l :
  t_inv F now s l → now ≤ cur → (length l < fuel)%nat →
  INT_MIN ≤ m_user_count s - Z.of_nat (length l) → m_user_count s ≤ INT_MAX →
  wp (tick fuel cur) s (λ _ s',
    t_inv F cur s' (ev_spec (Alarm cur) l).2 ∧
    m_user_count s' = m_user_count s - Z.of_nat (length (ev_spec (Alarm cur) l).1) ∧
    conn_calls s' = conn_calls s ++ closes (ev_spec (Alarm cur) l).1).
Proof.
  intros [(xs & Hr & Hcl & ->) Hs Hb] Hcur Hf Hmin Hmax.
  assert (length (waiting xs) = length xs) as Hlen by (unfold waiting; by rewrite !length_fmap).
  rewrite Hlen in *. destruct (due_filter cur xs Hs) as [Hd Hw].
  eapply wp_mono; [by apply (wp_tick F fuel cur s xs)|].
  intros ? s' (Hr' & Hcd & Hu & Hc). simpl. rewrite <-Hd. split_and!; [|by rewrite Hu; unfold fds_of; rewrite !length_fmap|done].
  constructor.
  - exists (rest cur xs). split_and!; [done| |by rewrite <-Hw].
    intros x d Hin. rewrite Hcd. apply (Hcl x d). clear -Hin.
    induction xs as [|[y e] xs IH]; simpl in *; [done|]. destruct (_ >? _); [done|]. by right; apply IH.
  - rewrite <-Hw. clear -Hs. induction xs as [|[y e] xs IH]; [done|]. simpl.
    destruct (_ >? _); [done|]. csimpl in Hs. apply StronglySorted_inv in Hs as [Hs _]. by apply IH.
  - intros w Hin. apply list_elem_of_In, List.filter_In in Hin as [Hin%list_elem_of_In _].
    specialize (Hb w Hin). lia.
Qed.

Lemma ev_spec_length e l :
  (length (ev_spec e l).1 + length (ev_spec e l).2 <= S (length l))%nat.
Proof.
  destruct e as [cur fd|cur]; simpl; [rewrite length_app; simpl; lia|].
  rewrite length_fmap. induction l as [|w l IH]; simpl; [lia|]. destruct (w.1 <=? cur); simpl; lia.
Qed.

Lemma wp_evs_exec F fuel es now s l :
  t_inv F now s l → in_time now es → (length l + length es < fuel)%nat →
  INT_MIN ≤ m_user_count s - Z.of_nat (length l + length es) → m_user_count s ≤ INT_MAX →
  wp (evs_exec fuel es) s (λ _ s', ∃ now', t_inv F now' s' (evs_spec es l).2 ∧
    conn_calls s' = conn_calls s ++ closes (evs_spec es l).1).
Proof.
  revert now s l. induction es as [|e es IH]; intros now s l Hi Ht Hf Hmin Hmax; simpl.
  { apply wp_ret. exists now. by rewrite app_nil_r. }
  destruct Ht as [Hn Ht]. simpl in Hf, Hmin.
  pose proof (ev_spec_length e l) as Hlen.
  apply wp_bind. eapply wp_mono with (P := λ _ s', t_inv F (ev_time e) s' (ev_spec e l).2 ∧
    m_user_count s' = m_user_count s - Z.of_nat (length (ev_spec e l).1) ∧
    conn_calls s' = conn_calls s ++ closes (ev_spec e l).1).
  { destruct e as [cur fd|cur]; simpl in *.
    - eapply wp_mono; [eapply wp_connect; [done..|lia]|]. intros ? s' (Hi' & Hu & Hc).
      rewrite Hc, app_nil_r. split_and!; [done|lia|done].
    - eapply wp_alarm; try done; lia. }
  intros ? s1 (Hi1 & Hu1 & Hc1). destruct (ev_spec e l) as [c l1]. simpl in *.
  eapply wp_mono; [eapply (IH _ _ l1); try done; lia|]. intros ? s2 (now' & Hi2 & Hc2).
  destruct (evs_spec es l1) as [cs l2]. simpl in *. exists now'. split; [done|].
  rewrite Hc2, Hc1. unfold closes. by rewrite bind_app, app_assoc.
Qed.

Lemma evs_spec_length es l :
  (length (evs_spec es l).2 ≤ length l + length es)%nat.
Proof.
  revert l. induction es as [|e es IH]; intros l; simpl; [lia|].
  pose proof (ev_spec_length e l). destruct (ev_spec e l) as [c l1]. specialize (IH l1).
  destruct (evs_spec es l1) as [cs l2]. simpl in *. lia.
Qed.
End life.

(** As long as timers are only added, at the times the connections arrive,
    and expire, the list closes exactly the connections whose three slots are
    over, in the order in which they arrived, each once, whatever the moments of
    the ticks; nothing is undefined and the destructor frees the timers that are
    left. *)
Theorem timers_expire_in_order `{Allocator} fuel es now s :
  in_time now es → (length es < fuel)%nat →
  INT_MIN ≤ m_user_count s - Z.of_nat (length es) → m_user_count s ≤ INT_MAX →
  ∃ s', (SortTimeLst_new;; evs_exec fuel es;; SortTimeLst_delete fuel) s = Done tt s' ∧
    conn_calls s' = conn_calls s ++ closes (evs_spec es []).1 ∧
    tl_heap s' = tl_heap s.
Proof.
  intros Ht Hf Hmin Hmax.
  enough (wp (evs_exec fuel es;; SortTimeLst_delete fuel)
    (Timers None None (tl_heap s) (client_data s) (m_user_count s) (conn_calls s))
    (λ _ s', conn_calls s' = conn_calls s ++ closes (evs_spec es []).1 ∧ tl_heap s' = tl_heap s))
    as Hw by (destruct (wp_elim _ _ _ Hw) as ([] & s' & Hr & Hs); by exists s').
  apply wp_bind. eapply wp_mono; [apply (wp_evs_exec (tl_heap s) fuel es now _ []); try done|].
  { constructor; [|constructor|by intros w Hw%not_elem_of_nil]. exists [].
    split_and!; [|by intros ? ? ?%not_elem_of_nil|done].
    constructor; simpl; try done; [constructor|..]; intros l Hl; by apply not_elem_of_nil in Hl. }
  intros ? s1 (now' & [(xs & Hr & _ & Hxs) _ _] & Hc).
  pose proof (evs_spec_length es []) as Hlen. rewrite Hxs in Hlen. unfold waiting in Hlen.
  rewrite !length_fmap in Hlen. simpl in Hlen.
  eapply wp_mono; [apply (wp_SortTimeLst_delete _ fuel s1 xs Hr); lia|].
  intros ? s2 (Hh & _ & _ & Hc2). by rewrite Hc2.
Qed.

(** * Cut off: a timer that is moved *)

Section moved.
Context (F : gmap loc UtilTimer).
Implicit Types (A B : timers_t).

(** The list without the timers behind [x], which stay in the heap. *)
Lemma wp_adjust_middle s A x d B cur fuel :
  tl_rep F s (A ++ (x, d) :: B) → A ≠ [] → B ≠ [] →
  (∀ e, e ∈ (A ++ (x, d) :: B).*2 → t_expire e ≤ cur + 3 * TIMESLOT) →
  (length (A ++ (x, d) :: B) < fuel)%nat →
  wp (server_adjust_timer fuel cur (Some x)) s (λ _ s', same_rest s s' ∧
    tl_head s' = first_of A None ∧ tl_tail s' = Some x ∧
    nchain (tl_heap s') (A ++ [(x, TimerData (cur + 3 * TIMESLOT) (t_user_data d))]) None ∧
    dom (tl_heap s') = dom (tl_heap s) ∧
    ∀ y, y ∈ (tail A).*1 ++ [x] → ∃ d n, tl_heap s' !! y = Some (DNode d (Some y) n)).
Proof.
  intros Hr HA HB He Hf. destruct A as [|[a da] A]; [done|].
  destruct (snoc_cases B HB) as (B' & z & dz & HBz). destruct B as [|[b db] B]; [done|].
  pose proof (tr_self _ _ _ Hr x) as (d1 & n1 & Hx);
    [simpl; rewrite fmap_app; csimpl; set_solver|].
  pose proof (tr_chain _ _ _ Hr) as Hc. rewrite nchain_app in Hc. simpl in Hc.
  destruct Hc as ([[pa Ha] HcA] & [px Hx'] & [pb Hb] & HcB).
  pose proof (tr_nodup _ _ _ Hr) as Hnd. csimpl in Hnd. rewrite fmap_app in Hnd. csimpl in Hnd.
  nodup_flat. rewrite Hx in Hx'. injection Hx' as -> <- ->.
  assert (tl_head s = Some a) as Hh by (by rewrite (tr_head _ _ _ Hr)).
  assert (tl_tail s = Some z) as Ht.
  { rewrite (tr_tail _ _ _ Hr) by done. by rewrite HBz, last_of_app; simpl; rewrite last_of_snoc. }
  assert (z ∈ b :: B.*1) as Hz by (change (b :: B.*1) with ((b, db) :: B).*1; rewrite HBz, fmap_app; set_solver).
  unfold server_adjust_timer, adjust_timer. repeat heap_step. rewrite Hh, Ht.
  rewrite bool_decide_eq_false_2 by congruence. simpl. repeat heap_step.
  rewrite (proj2 (Z.ltb_ge _ _))
    by (unfold expire; simpl; apply (He db); rewrite !fmap_app; csimpl; set_solver).
  repeat heap_step.
  set (d' := TimerData (cur + 3 * TIMESLOT) (t_user_data d)).
  set (nb := DNode db (Some x) (first_of B None)). set (nx := DNode d' (Some x) (Some b)).
  lazymatch goal with |- wp _ ?st _ => remember st as s1 eqn:Hs1 end.
  assert (tl_heap s1 !! x = Some nx) as Hnx by (subst s1; simpl; by simplify_map_eq).
  assert (tl_heap s1 !! b = Some nb) as Hnb by (subst s1; simpl; by simplify_map_eq).
  assert (∀ l, l ≠ x → l ≠ b → tl_heap s1 !! l = tl_heap s !! l) as Hother
    by (intros l ??; subst s1; simpl; by rewrite !lookup_insert_ne by congruence).
  assert (dom (tl_heap s1) = dom (tl_heap s)) as Hdom
    by (subst s1; simpl; by rewrite !dom_insert_lookup_L by (simplify_map_eq; eauto)).
  assert (tl_head s1 = Some a ∧ tl_tail s1 = Some z ∧ same_rest s s1) as (Hh1 & Ht1 & Hrest)
    by by subst s1.
  clear Hs1.
  assert (nchain (tl_heap s1) ((b, db) :: B) None) as HcB'.
  { split; [by exists (Some x)|]. revert HcB. apply nchain_ext. intros y Hy.
    apply Hother; congruence. }
  apply wp_add_walk with nx da pa (A ++ (x, d') :: (b, db) :: B); [done|..].
  - rewrite Hother by done. by rewrite first_of_app.
  - rewrite nchain_app. split; [|split; [by exists (Some x)|done]].
    revert HcA. apply nchain_ext. intros y Hy. specialize (H1 y Hy).
    apply Hother; intros ->; apply H1; set_solver.
  - intros e Hin. unfold expire. simpl.
    assert (e = d' ∨ e ∈ (((a, da) :: A) ++ (x, d) :: (b, db) :: B).*2) as [->|Hin'];
      [|simpl; lia|by apply He].
    rewrite fmap_app in *. csimpl. csimpl in Hin. set_solver.
  - rewrite length_app in *. simpl in *. lia.
  - destruct (nchain_dom _ _ _ z HcB') as [nz Hnz]; [by csimpl|].
    assert (x ≠ z) by (intros ->; apply elem_of_cons in Hz as [?|?]; congruence).
    repeat heap_step. rewrite Ht1. repeat heap_step. unfold set_tail. repeat heap_step.
    do 3 (split; [done|]). split.
    + apply (proj2 (nchain_app _ ((a, da) :: A) [(x, d')] None)). split; [|split; [simpl; rewrite lookup_insert_eq; eauto|done]].
      apply (nchain_ext (tl_heap s) _ ((a, da) :: A)); [|by split; [exists pa|]].
      intros y Hy. csimpl in Hy.
      assert (y ∉ x :: b :: B.*1) as Hyn
        by (apply elem_of_cons in Hy as [->|Hy]; [set_solver|by apply H1]).
      assert (y ≠ z) by (intros ->; apply Hyn; by right).
      nodup_flat. simpl. rewrite !lookup_insert_ne by congruence. apply Hother; congruence.
    + split; [rewrite !dom_insert_lookup_L; [done|..]; simplify_map_eq; eauto|].
      intros y [Hy|Hy]%elem_of_app; [|apply list_elem_of_singleton in Hy as ->;
        rewrite lookup_insert_eq; by eexists _, _].
      pose proof (H1 y Hy) as Hyn. assert (y ≠ z) by (intros ->; apply Hyn; by right).
      nodup_flat. simpl. rewrite !lookup_insert_ne by congruence. rewrite Hother by congruence.
      apply (tr_self _ _ _ Hr). simpl. rewrite fmap_app. apply elem_of_app. by left.
Qed.

(** Timers that are linked well are a list, the rest of the heap being its
    frame. *)
Lemma tl_rep_linked s xs :
  tl_head s = first_of xs None → (xs ≠ [] → tl_tail s = last_of None xs) →
  nchain (tl_heap s) xs None → NoDup xs.*1 →
  (∀ y, y ∈ (tail xs).*1 → ∃ d n, tl_heap s !! y = Some (DNode d (Some y) n)) →
  ∃ G, tl_rep G s xs ∧ ∀ l, l ∉ xs.*1 → G !! l = tl_heap s !! l.
Proof.
  intros Hh Ht Hc Hnd Hself.
  set (G := filter (λ p : loc * UtilTimer, p.1 ∉ xs.*1) (tl_heap s)).
  assert (∀ l, l ∉ xs.*1 → G !! l = tl_heap s !! l) as HG.
  { intros l Hl. unfold G. rewrite map_lookup_filter.
    destruct (tl_heap s !! l) as [n|]; simpl; [|done]. by case_guard. }
  exists G. split; [|done]. constructor; try done.
  - intros l Hl. by rewrite HG.
  - intros l Hl. apply map_lookup_filter_None. right. intros n Hn. simpl. by intros [].
Qed.
Lemma due_all cur xs : (∀ e, e ∈ xs → t_expire e.2 ≤ cur) → due cur xs = xs ∧ rest cur xs = [].
Proof.
  intros He. induction xs as [|[y e] xs IH]; [done|]. simpl.
  rewrite Z.gtb_ltb, (proj2 (Z.ltb_ge _ _)) by (apply (He (y, e)); by left).
  destruct IH as [-> ->]; [intros e' He'; apply He; by right|done].
Qed.

(** [adjust_timer], called when a connection in the middle of the list
    shows activity, cuts the list behind the timer it moves: [add_timer] stores
    [timer->prev = timer] and ends the list there. The timers behind it stay
    allocated but no later tick reaches them, and their connections are never
    closed. *)
Theorem adjust_timer_loses s A x d B cur cur' fuel :
  tl_rep F s (A ++ (x, d) :: B) → A ≠ [] → B ≠ [] → clients_ok s (A ++ (x, d) :: B) →
  (∀ e, e ∈ (A ++ (x, d) :: B).*2 → t_expire e ≤ cur + 3 * TIMESLOT) →
  cur + 3 * TIMESLOT ≤ cur' → (length (A ++ (x, d) :: B) < fuel)%nat →
  INT_MIN ≤ m_user_count s - Z.of_nat (length (A ++ (x, d) :: B)) → m_user_count s ≤ INT_MAX →
  ∃ s', (server_adjust_timer fuel cur (Some x);; tick fuel cur') s = Done tt s' ∧
    tl_head s' = None ∧ conn_calls s' = conn_calls s ++ closes (fds_of (A ++ [(x, d)])) ∧
    ∀ y, y ∈ B.*1 → is_Some (tl_heap s' !! y).
Proof.
  intros Hr HA HB Hcl He Hcur Hf Hmin Hmax.
  enough (wp (server_adjust_timer fuel cur (Some x);; tick fuel cur') s (λ _ s',
    tl_head s' = None ∧ conn_calls s' = conn_calls s ++ closes (fds_of (A ++ [(x, d)])) ∧
    ∀ y, y ∈ B.*1 → is_Some (tl_heap s' !! y)))
    as Hw by (destruct (wp_elim _ _ _ Hw) as ([] & s' & Hs & Hq); by exists s').
  apply wp_bind. eapply wp_mono; [by apply (wp_adjust_middle s A x d B)|].
  intros ? s1 ((Hcd & Hu & Hcc) & Hh & Ht & Hc & Hdom & Hself).
  set (d' := TimerData (cur + 3 * TIMESLOT) (t_user_data d)) in *.
  set (L := A ++ [(x, d')]) in *.
  pose proof (tr_nodup _ _ _ Hr) as Hnd. rewrite fmap_app in Hnd. csimpl in Hnd.
  apply NoDup_app in Hnd as (HndA & HAx & [HxB HndB]%NoDup_cons).
  destruct (tl_rep_linked s1 L) as (G & HrL & HG); [| |done| | |].
  { by rewrite Hh; unfold L; destruct A. }
  { intros _. by rewrite Ht; unfold L; rewrite last_of_snoc. }
  { unfold L. rewrite fmap_app. csimpl. apply NoDup_app. split_and!; [done| |apply NoDup_singleton].
    intros y Hy ->%list_elem_of_singleton. apply (HAx x Hy). by left. }
  { intros y Hy. apply Hself. unfold L in Hy.
    by destruct A as [|e A]; simpl in Hy; rewrite ?fmap_app in Hy; [done|]. }
  assert (length L ≤ length (A ++ (x, d) :: B))%nat as HlenL
    by (unfold L; rewrite !length_app; simpl; lia).
  assert (∀ e, e ∈ L → t_expire e.2 ≤ cur') as HeL.
  { intros [y e] [Hin|Hin]%elem_of_app; simpl.
    - etrans; [apply He|done]. rewrite fmap_app. apply elem_of_app. left.
      apply list_elem_of_fmap. by exists (y, e).
    - apply list_elem_of_singleton in Hin as [= -> ->]. simpl. lia. }
  destruct (due_all cur' L HeL) as [Hdue Hrest].
  eapply wp_mono; [apply (wp_tick G fuel cur' s1 L HrL)|]; try lia.
  - intros y e [Hin|Hin]%elem_of_app; rewrite Hcd.
    + apply (Hcl y). apply elem_of_app. by left.
    + apply list_elem_of_singleton in Hin as [= -> ->]. apply (Hcl x d). apply elem_of_app. right. by left.
  - intros ? s2 (Hr2 & _ & _ & Hcc2). rewrite Hrest in Hr2. rewrite Hdue in Hcc2.
    split_and!; [by rewrite (tr_head _ _ _ Hr2)| |].
    + rewrite Hcc2, Hcc. unfold L, fds_of. by rewrite !fmap_app.
    + intros y Hy. rewrite (tr_frame _ _ _ Hr2) by apply not_elem_of_nil.
      rewrite HG; [|unfold L; rewrite fmap_app; csimpl; intros [Hin|Hin]%elem_of_app].
      * apply elem_of_dom. rewrite Hdom. apply elem_of_dom.
        apply (nchain_dom _ (A ++ (x, d) :: B) None); [apply Hr|].
        rewrite fmap_app. csimpl. set_solver.
      * apply (HAx y Hin). by right.
      * apply list_elem_of_singleton in Hin as ->. done.
Qed.
End moved.
