(* ===== verification/Monitor.v ===== *)
(** Objects shared by threads: a mutex around every operation and a condition
    variable (src/TinyWebServer/lock/locker.h, [Locker] and [Cond], and their
    counterparts in the standard library). The threads' steps interleave; what
    one of them does while it holds the mutex is one of its steps. *)
From stdpp Require Import list relations.
From S2P Require Import Prelude.

(** How a critical section ends: it unlocks and the operation returns, or it
    calls [wait] on the condition variable. *)
Inductive cs_end (R : Type) := Return (r : R) | CondWait.
Arguments Return {R} r.
Arguments CondWait {R}.
(** What it did to the threads that wait before. *)
Inductive wake := NoWake | Signal | Broadcast.

(** A thread in an operation [c]: at [lock()], between [lock()] and the end of
    the critical section, in [wait()], or about to return from [wait()] with
    result [b], which needs the mutex. [Inside c w]: [w] is the result of
    [wait()] if the thread comes from there. *)
Inductive tstate (C : Type) :=
| Idle
| Locking (c : C)
| Inside (c : C) (w : option bool)
| Waiting (c : C)
| Woken (c : C) (b : bool).
Arguments Idle {C}.
Arguments Locking {C} c.
Arguments Inside {C} c w.
Arguments Waiting {C} c.
Arguments Woken {C} c b.

(** A thread and the operations it still has to call. *)
Record thread (C : Type) := Thread { th_now : tstate C; th_todo : list C }.
Arguments Thread {C} _ _.
Arguments th_now {C} _.
Arguments th_todo {C} _.

(** The object, the thread that holds the mutex, the threads, and the
    operations that have returned so far, in the order in which they held the
    mutex last. *)
Record sys (Q C R : Type) := Sys {
  s_obj : Q;
  s_owner : option nat;
  s_threads : list (thread C);
  s_hist : list (C * R)
}.
Arguments Sys {Q C R} _ _ _ _.
Arguments s_obj {Q C R} _.
Arguments s_owner {Q C R} _.
Arguments s_threads {Q C R} _.
Arguments s_hist {Q C R} _.

Definition wake_thread {C} (t : thread C) : thread C :=
  match th_now t with Waiting c => Thread (Woken c true) (th_todo t) | _ => t end.
Definition waits_in {C} (ts : list (thread C)) (i : nat) : Prop :=
  ∃ c todo, ts !! i = Some (Thread (Waiting c) todo).
(** [signal] wakes one of the threads that wait, if there is any. *)
Inductive wakes {C} : wake → list (thread C) → list (thread C) → Prop :=
| wakes_none ts : wakes NoWake ts ts
| wakes_one ts i : waits_in ts i → wakes Signal ts (alter wake_thread i ts)
| wakes_nobody ts : (∀ i, ¬ waits_in ts i) → wakes Signal ts ts
| wakes_all ts : wakes Broadcast ts (wake_thread <$> ts).

Section steps.
Context {Q C R : Type} (cs : C → option bool → M Q (wake * cs_end R)).
Implicit Types (s : sys Q C R) (ts : list (thread C)).

Inductive step : sys Q C R → sys Q C R → Prop :=
| step_call q o ts h i c todo :
    ts !! i = Some (Thread Idle (c :: todo)) →
    step (Sys q o ts h) (Sys q o (<[i:=Thread (Locking c) todo]> ts) h)
| step_lock q ts h i c todo :
    ts !! i = Some (Thread (Locking c) todo) →
    step (Sys q None ts h) (Sys q (Some i) (<[i:=Thread (Inside c None) todo]> ts) h)
| step_relock q ts h i c b todo :
    ts !! i = Some (Thread (Woken c b) todo) →
    step (Sys q None ts h) (Sys q (Some i) (<[i:=Thread (Inside c (Some b)) todo]> ts) h)
| step_return q ts ts' h i c w todo wk r q' :
    ts !! i = Some (Thread (Inside c w) todo) →
    cs c w q = Done (wk, Return r) q' →
    wakes wk (<[i:=Thread Idle todo]> ts) ts' →
    step (Sys q (Some i) ts h) (Sys q' None ts' (h ++ [(c, r)]))
| step_wait q ts ts' h i c w todo wk q' :
    ts !! i = Some (Thread (Inside c w) todo) →
    cs c w q = Done (wk, CondWait) q' →
    wakes wk (<[i:=Thread (Waiting c) todo]> ts) ts' →
    step (Sys q (Some i) ts h) (Sys q' None ts' h).

(** A thread that wakes up by itself, or whose [wait()] fails or times out. *)
Inductive disturb : sys Q C R → sys Q C R → Prop :=
| disturb_wait q o ts h i c b todo :
    ts !! i = Some (Thread (Waiting c) todo) →
    disturb (Sys q o ts h) (Sys q o (<[i:=Thread (Woken c b) todo]> ts) h).

Definition any_step s s' : Prop := step s s' ∨ disturb s s'.

(** Threads that have called nothing yet. *)
Definition start (q : Q) (todos : list (list C)) : sys Q C R :=
  Sys q None (Thread Idle <$> todos) [].

(** A thread whose critical section has undefined behaviour. *)
Definition crashed s : Prop :=
  ∃ i c w todo, s_threads s !! i = Some (Thread (Inside c w) todo) ∧
    cs c w (s_obj s) = Undef.
End steps.

(** * What an object promises *)

(** The contract of an object: a sequential specification of its operations on
    abstract values, related to its states by [rep]; the critical sections
    implement it, they [wait()] only when the operation is [blocked], and they
    are undefined only when it is [undefined]. *)
(** The wake-ups: [credit] counts the waiting operations that could go on. An
    object that only broadcasts may raise it whenever it does so; one that
    [signals] may raise it by one for each signal, and then every thread that
    was woken has to spend one. *)
Definition spent (signals : bool) (w : option bool) : nat :=
  match w with Some _ => if signals then 1 else 0 | None => 0 end.
Definition wake_ok (signals : bool) (w : option bool) (wk : wake) (n n' : nat) : Prop :=
  match wk with
  | NoWake => n' ≤ n - spent signals w
  | Signal => signals = true ∧ n' ≤ S n - spent signals w
  | Broadcast => True
  end%nat.

Class MonitorSpec {Q C R : Type} (cs : C → option bool → M Q (wake * cs_end R))
    (A : Type) := {
  rep : Q → A → Prop;
  spec : C → A → R → A → Prop;
  blocked : C → A → Prop;
  undefined : C → A → Prop;
  credit : A → nat;
  signals : bool;
  blocked_credit c a : blocked c a → credit a = 0%nat;
  credit_blocked c a a' : blocked c a → credit a' = 0%nat → blocked c a';
  cs_ok c w q a : rep q a → w = None ∨ (∃ a0, blocked c a0) →
    (undefined c a ∧ cs c w q = Undef) ∨
    ∃ wk e q', cs c w q = Done (wk, e) q' ∧
    match e with
    | Return r => ∃ a', rep q' a' ∧ spec c a r a' ∧ wake_ok signals w wk (credit a) (credit a')
    | CondWait => q' = q ∧ wk = NoWake ∧ blocked c a
    end
}.

Section monitors.
Context {Q C R A : Type} (cs : C → option bool → M Q (wake * cs_end R)) {MS : MonitorSpec cs A}.
Implicit Types (s : sys Q C R) (a : A) (ts : list (thread C)).

(** A sequential history of the specification. *)
Fixpoint replay (h : list (C * R)) (a a' : A) : Prop :=
  match h with
  | [] => a' = a
  | (c, r) :: h => ∃ a1, spec c a r a1 ∧ replay h a1 a'
  end.

Lemma replay_snoc h c r a a1 a2 : replay h a a1 → spec c a1 r a2 → replay (h ++ [(c, r)]) a a2.
Proof.
  revert a. induction h as [|[c' r'] h IH]; intros a; simpl.
  - intros -> Hs. by exists a2.
  - intros (a' & Hs & Hr) Hs2. exists a'. split; [done|by apply IH].
Qed.

Lemma sum_insert (f : thread C → nat) ts i t t' :
  ts !! i = Some t → (sum_list (f <$> <[i:=t']> ts) + f t = sum_list (f <$> ts) + f t')%nat.
Proof.
  revert i. induction ts as [|t1 ts IH]; intros [|i] Ht; simplify_eq/=; [lia|].
  specialize (IH i Ht). lia.
Qed.

(** The operation of a thread that waits or has waited. *)
Definition waited (t : tstate C) : option C :=
  match t with Waiting c | Woken c _ | Inside c (Some _) => Some c | _ => None end.
(** What the threads that were woken will spend. *)
Definition owes (t : thread C) : nat :=
  match th_now t with Woken _ _ => spent signals (Some true) | Inside _ w => spent signals w | _ => 0 end.
Definition owed ts : nat := sum_list (owes <$> ts).

(** The invariant: the history is one of the specification; only the owner of
    the mutex is inside; only operations that can be blocked wait, and while
    one waits, what it waits for is owed by threads that are awake. *)
Record inv (a0 : A) s (a : A) : Prop := {
  inv_rep : rep (s_obj s) a;
  inv_hist : replay (s_hist s) a0 a;
  inv_mutex i c w todo :
    s_threads s !! i = Some (Thread (Inside c w) todo) → s_owner s = Some i;
  inv_owner i : s_owner s = Some i →
    ∃ c w todo, s_threads s !! i = Some (Thread (Inside c w) todo);
  inv_waited i t c : s_threads s !! i = Some t → waited (th_now t) = Some c → ∃ a, blocked c a;
  inv_credit i : waits_in (s_threads s) i → (credit a ≤ owed (s_threads s))%nat
}.

Lemma inv_start q a todos : rep q a → inv a (start q todos) a.
Proof.
  intros Hq. assert (∀ i t, (Thread Idle <$> todos) !! i = Some t → th_now t = @Idle C) as Hidle.
  { intros i t (todo & -> & _)%list_lookup_fmap_Some. done. }
  constructor; simpl; try done.
  - by intros i c w todo Ht%Hidle.
  - intros i t c Ht%Hidle. by rewrite Ht.
  - by intros i (c & todo & Ht%Hidle).
Qed.

Lemma owed_insert ts i t t' :
  ts !! i = Some t → (owed (<[i:=t']> ts) + owes t = owed ts + owes t')%nat.
Proof. apply sum_insert. Qed.
Lemma owed_has ts i t : ts !! i = Some t → (owes t ≤ owed ts)%nat.
Proof.
  intros Ht. pose proof (owed_insert ts i t (Thread Idle []) Ht) as H.
  change (owes (Thread Idle [])) with 0%nat in H. lia.
Qed.
Lemma waits_insert ts i j t' :
  (∀ c, th_now t' ≠ Waiting c) → waits_in (<[i:=t']> ts) j → waits_in ts j.
Proof.
  intros Hn (c & todo & [(-> & -> & _)|[_ Hj]]%list_lookup_insert_Some); [by destruct (Hn c)|].
  by exists c, todo.
Qed.

(** What waking does to a thread. *)
Lemma wakes_lookup wk ts ts' i t' :
  wakes wk ts ts' → ts' !! i = Some t' →
  ∃ t, ts !! i = Some t ∧ (t' = t ∨ (∃ c, th_now t = Waiting c) ∧ t' = wake_thread t).
Proof.
  intros Hw Ht'. destruct Hw as [ts|ts j (c & todo & Hj)|ts _|ts]; [by eauto| |by eauto|].
  - destruct (decide (i = j)) as [->|Hij].
    + rewrite list_lookup_alter_eq, Hj in Ht'. injection Ht' as <-. eauto 6.
    + rewrite list_lookup_alter_ne in Ht' by done. eauto.
  - rewrite list_lookup_fmap in Ht'. apply fmap_Some in Ht' as (t & Ht & ->).
    exists t. split; [done|]. destruct t as [[] todo]; eauto.
Qed.
Lemma wakes_inside wk ts ts' i c w todo :
  wakes wk ts ts' → ts' !! i = Some (Thread (Inside c w) todo) →
  ts !! i = Some (Thread (Inside c w) todo).
Proof.
  intros Hw Ht'. destruct (wakes_lookup _ _ _ _ _ Hw Ht') as (t & Ht & [<-|[[c' Hc] Heq]]); [done|].
  destruct t as [now td]. simpl in Hc. by subst now.
Qed.
Lemma wakes_waited wk ts ts' i t' c :
  wakes wk ts ts' → ts' !! i = Some t' → waited (th_now t') = Some c →
  ∃ t, ts !! i = Some t ∧ waited (th_now t) = Some c.
Proof.
  intros Hw Ht'. destruct (wakes_lookup _ _ _ _ _ Hw Ht') as ([now td] & Ht & [->|[[c' Hc] ->]]); [by eauto|].
  simpl in Hc. subst now. simpl. intros [= ->]. by eexists.
Qed.
Lemma wakes_waits wk ts ts' i : wakes wk ts ts' → waits_in ts' i → waits_in ts i ∧ wk ≠ Broadcast.
Proof.
  intros Hw (c & todo & Ht').
  destruct (wakes_lookup _ _ _ _ _ Hw Ht') as (t & Ht & [<-|[[c' Hc] Heq]]).
  - split; [by exists c, todo|]. intros ->. inversion Hw; subst.
    by rewrite list_lookup_fmap, Ht in Ht'.
  - destruct t as [now td]. simpl in Hc. by subst now.
Qed.
Lemma wakes_owed wk ts ts' i :
  wakes wk ts ts' → waits_in ts' i →
  owed ts' = (owed ts + match wk with Signal => spent signals (Some true) | _ => 0 end)%nat.
Proof.
  intros Hw Hi. pose proof (wakes_waits _ _ _ _ Hw Hi) as [Hi' Hwk].
  destruct Hw as [ts|ts j (c & todo & Hj)|ts Hno|ts]; [lia| |by destruct (Hno i)|done].
  assert (alter wake_thread j ts = <[j:=wake_thread (Thread (Waiting c) todo)]> ts) as ->.
  { apply list_eq. intros k. destruct (decide (k = j)) as [->|Hk].
    - rewrite list_lookup_alter_eq, list_lookup_insert_eq, Hj; [done|by eapply lookup_lt_Some].
    - by rewrite list_lookup_alter_ne, list_lookup_insert_ne. }
  pose proof (owed_insert ts j _ (wake_thread (Thread (Waiting c) todo)) Hj) as H.
  change (owes (Thread (Waiting c) todo)) with 0%nat in H.
  change (owes (wake_thread (Thread (Waiting c) todo))) with (spent signals (Some true)) in H. lia.
Qed.

(** Changing a thread that is not inside to one that is not inside. *)
Lemma inv_update a0 q o ts h a i t t' :
  inv a0 (Sys q o ts h) a → ts !! i = Some t →
  (∀ c w, th_now t ≠ Inside c w) → (∀ c w, th_now t' ≠ Inside c w) →
  (∀ c, th_now t' ≠ Waiting c) → (owes t ≤ owes t')%nat →
  (∀ c, waited (th_now t') = Some c → waited (th_now t) = Some c) →
  inv a0 (Sys q o (<[i:=t']> ts) h) a.
Proof.
  intros [Hq Hh Hm Ho Hb Hc] Ht Hn Hn' Hw' Hle Hwd. constructor; simpl in *; try done.
  - intros j c w todo [(-> & -> & _)|[_ Hj]]%list_lookup_insert_Some; [by destruct (Hn' c w)|eauto].
  - intros j (c & w & todo & Hj)%Ho. exists c, w, todo.
    rewrite list_lookup_insert_ne; [done|]. intros ->. simplify_eq. by destruct (Hn c w).
  - intros j t1 c [(-> & -> & _)|[_ Hj]]%list_lookup_insert_Some; [intros ?%Hwd|]; eauto.
  - intros j Hj%waits_insert%Hc; [|done]. pose proof (owed_insert ts i t t' Ht). lia.
Qed.

(** A thread takes the mutex. *)
Lemma inv_enter a0 q ts h a i t c w todo :
  inv a0 (Sys q None ts h) a → ts !! i = Some t →
  owes t = spent signals w → (is_Some w → waited (th_now t) = Some c) →
  inv a0 (Sys q (Some i) (<[i:=Thread (Inside c w) todo]> ts) h) a.
Proof.
  intros [Hq Hh Hm Ho Hb Hc] Ht Hs Hsome. pose proof (lookup_lt_Some _ _ _ Ht) as Hlt.
  constructor; simpl in *; try done.
  - intros j c' w' todo' [(-> & _)|[_ Hj]]%list_lookup_insert_Some; [done|]. by apply Hm in Hj.
  - intros j [= <-]. exists c, w, todo. by apply list_lookup_insert_eq.
  - intros j t1 c' [(-> & <- & _)|[_ Hj]]%list_lookup_insert_Some; [|by eauto]. simpl.
    destruct w; [|done]. intros [= <-]. eauto.
  - intros j Hj%waits_insert%Hc; [|done].
    pose proof (owed_insert ts i t (Thread (Inside c w) todo) Ht) as H.
    change (owes (Thread (Inside c w) todo)) with (spent signals w) in H. lia.
Qed.

(** The thread inside leaves, having woken others: nobody else is inside. *)
Lemma inv_leave a0 q q' ts ts' h h' a a' i c w todo t' wk :
  inv a0 (Sys q (Some i) ts h) a → ts !! i = Some (Thread (Inside c w) todo) →
  rep q' a' → replay h' a0 a' → (∀ c w, th_now t' ≠ Inside c w) →
  (∀ c, waited (th_now t') = Some c → ∃ a, blocked c a) →
  wakes wk (<[i:=t']> ts) ts' → (∀ j, waits_in ts' j → (credit a' ≤ owed ts')%nat) →
  inv a0 (Sys q' None ts' h') a'.
Proof.
  intros [Hq Hh Hm Ho Hb Hc] Ht Hq' Hh' Hn Hwd Hwk Hcr. constructor; simpl in *; try done.
  - intros j c' w' todo' [(-> & Hj & _)|[Hij Hj]]%(wakes_inside _ _ _ _ _ _ _ Hwk)%list_lookup_insert_Some.
    + destruct (Hn c' w'). by rewrite Hj.
    + apply Hm in Hj. congruence.
  - intros j t1 c1 Hj Hw1. destruct (wakes_waited _ _ _ _ _ _ Hwk Hj Hw1) as (t2 & Hj2 & Hw2).
    apply list_lookup_insert_Some in Hj2 as [(_ & -> & _)|[_ Hj2]]; eauto.
Qed.

Lemma may_wait a0 q o ts h a i c w todo :
  inv a0 (Sys q o ts h) a → ts !! i = Some (Thread (Inside c w) todo) → w = None ∨ ∃ a, blocked c a.
Proof. intros Hi Ht. destruct w; [right|by left]. by eapply (inv_waited _ _ _ Hi). Qed.

(** The credit is still owed after a section that keeps the contract. *)
Lemma credit_leave a0 q ts ts' h a i c w todo wk n' j :
  inv a0 (Sys q (Some i) ts h) a → ts !! i = Some (Thread (Inside c w) todo) →
  wake_ok signals w wk (credit a) n' → wakes wk (<[i:=Thread Idle todo]> ts) ts' →
  waits_in ts' j → (n' ≤ owed ts')%nat.
Proof.
  intros Hi Ht Hok Hwk Hj. pose proof (wakes_owed _ _ _ _ Hwk Hj) as ->.
  destruct (wakes_waits _ _ _ _ Hwk Hj) as [Hj' Hnb].
  apply waits_insert, (inv_credit _ _ _ Hi) in Hj' as Hcr; [|done]. simpl in Hcr.
  pose proof (owed_insert ts i _ (Thread Idle todo) Ht) as H. pose proof (owed_has _ _ _ Ht) as Hle.
  change (owes (Thread (Inside c w) todo)) with (spent signals w) in H, Hle.
  change (owes (Thread Idle todo)) with 0%nat in H.
  simpl in *. destruct wk; simpl in Hok; [lia| |done]. destruct Hok as [Hs Hok].
  unfold spent in *. rewrite Hs in *. destruct w; lia.
Qed.

Lemma inv_step a0 s s' a :
  inv a0 s a → any_step cs s s' → ∃ a', inv a0 s' a'.
Proof.
  intros Hi [Hs|Hs].
  - destruct Hs as [q o ts h i c todo Ht|q ts h i c todo Ht|q ts h i c b todo Ht|
      q ts ts' h i c w todo wk r q' Ht Hcs Hw|q ts ts' h i c w todo wk q' Ht Hcs Hw].
    + exists a. by eapply inv_update.
    + exists a. eapply inv_enter; try done.
    + exists a. eapply inv_enter; try done.
    + destruct (cs_ok c w q a (inv_rep _ _ _ Hi) (may_wait _ _ _ _ _ _ _ _ _ _ Hi Ht))
        as [[_ Hcs']|(wk' & e & q1 & Hcs' & He)]; [congruence|].
      rewrite Hcs in Hcs'. simplify_eq. destruct He as (a' & Hq' & Hsp & Hwk).
      exists a'. eapply inv_leave; eauto; [eapply replay_snoc; [apply Hi|done]|done|done|].
      intros j. by eapply credit_leave.
    + destruct (cs_ok c w q a (inv_rep _ _ _ Hi) (may_wait _ _ _ _ _ _ _ _ _ _ Hi Ht))
        as [[_ Hcs']|(wk' & e & q1 & Hcs' & He)]; [congruence|].
      rewrite Hcs in Hcs'. simplify_eq. destruct He as (-> & -> & Hb).
      exists a. eapply inv_leave; eauto; [apply Hi|apply Hi|done|intros ? [= <-]; eauto|].
      intros j _. rewrite (blocked_credit _ _ Hb). lia.
  - destruct Hs as [q o ts h i c b todo Ht]. exists a. eapply inv_update; try done. unfold owes. simpl. lia.
Qed.

Lemma inv_steps a0 s s' a :
  inv a0 s a → rtc (any_step cs) s s' → ∃ a', inv a0 s' a'.
Proof.
  intros Hi Hs. revert a Hi. induction Hs as [s|s s1 s' H1 _ IH]; intros a Hi; [by exists a|].
  destruct (inv_step _ _ _ _ Hi H1) as [a1 Hi1]. by eapply IH.
Qed.

(** * Safety *)

(** A thread is in an operation that is undefined on [a]. *)
Definition undefined_at ts a : Prop :=
  ∃ i c w todo, ts !! i = Some (Thread (Inside c w) todo) ∧ undefined c a.

Lemma crashed_undefined a0 s a : inv a0 s a → crashed cs s → undefined_at (s_threads s) a.
Proof.
  intros Hi (i & c & w & todo & Ht & Hu). destruct s as [q1 o ts h]. exists i, c, w, todo. split; [done|].
  destruct (cs_ok c w _ _ (inv_rep _ _ _ Hi) (may_wait _ _ _ _ _ _ _ _ _ _ Hi Ht)) as [[? _]|(? & ? & ? & ? & _)];
    simpl in *; congruence.
Qed.

Lemma crashed_dec a0 s a : inv a0 s a → crashed cs s ∨ ¬ crashed cs s.
Proof.
  intros Hi. destruct (s_owner s) as [j|] eqn:Ho.
  - destruct (inv_owner _ _ _ Hi j Ho) as (c & w & todo & Hj).
    destruct (cs c w (s_obj s)) eqn:Hc; first [by left; exists j, c, w, todo|right];
      (intros (i & c' & w' & todo' & Ht & Hu); pose proof (inv_mutex _ _ _ Hi _ _ _ _ Ht); congruence).
  - right. intros (i & c' & w' & todo' & Ht & Hu). pose proof (inv_mutex _ _ _ Hi _ _ _ _ Ht). congruence.
Qed.

Lemma monitor_linearizable q a todos s :
  rep q a → rtc (any_step cs) (start q todos) s →
  ∃ a', rep (s_obj s) a' ∧ replay (s_hist s) a a' ∧ (crashed cs s → undefined_at (s_threads s) a').
Proof.
  intros Hq Hs. destruct (inv_steps a _ _ _ (inv_start q a todos Hq) Hs) as [a' Hi].
  exists a'. split; [apply Hi|split; [apply Hi|by eapply crashed_undefined]].
Qed.

(** * Liveness *)

(** The steps a thread can still make before it has returned for good, when
    all threads are [k]. *)
Definition now_left (k : nat) (t : tstate C) : nat :=
  match t with
  | Idle => 0
  | Waiting _ => 2 * k + 1
  | Inside _ _ => 2 * k + 2
  | Locking _ | Woken _ _ => 2 * k + 3
  end.
Definition thread_left (k : nat) (t : thread C) : nat :=
  now_left k (th_now t) + (2 * k + 4) * length (th_todo t).
Definition steps_left s : nat :=
  sum_list (thread_left (length (s_threads s)) <$> s_threads s).

Lemma sum_left k ts i t t' :
  ts !! i = Some t →
  (sum_list (thread_left k <$> <[i:=t']> ts) +
     now_left k (th_now t) + (2 * k + 4) * length (th_todo t) =
   sum_list (thread_left k <$> ts) +
     now_left k (th_now t') + (2 * k + 4) * length (th_todo t'))%nat.
Proof.
  intros Ht. pose proof (sum_insert (thread_left k) ts i t t' Ht) as Hs.
  unfold thread_left at 2 4 in Hs. lia.
Qed.

Lemma sum_wake k wk ts ts' :
  wakes wk ts ts' →
  (sum_list (thread_left k <$> ts') ≤ sum_list (thread_left k <$> ts) + 2 * length ts)%nat.
Proof.
  assert (∀ t : thread C, thread_left k (wake_thread t) ≤ thread_left k t + 2)%nat as Ht
    by (intros [[] todo]; unfold thread_left; simpl; lia).
  destruct 1 as [ts|ts i (c & todo & Hi)|ts _|ts]; [lia| |lia|].
  - pose proof (lookup_lt_Some _ _ _ Hi). revert i Hi H.
    induction ts as [|t ts IH]; intros [|i] Hi Hlt; simplify_eq/=; [specialize (Ht (Thread (Waiting c) todo)); lia|].
    specialize (IH i Hi ltac:(lia)). lia.
  - induction ts as [|t ts IH]; csimpl; [lia|]. specialize (Ht t). lia.
Qed.

Lemma length_wakes wk ts ts' : wakes wk ts ts' → length ts' = length ts.
Proof. destruct 1; by rewrite ?length_alter, ?length_fmap. Qed.

Lemma monitor_step_left s s' a a0 : inv a0 s a → step cs s s' → (steps_left s' < steps_left s)%nat.
Proof.
  intros Hi Hs. unfold steps_left.
  destruct Hs as [q o ts h i c todo Ht|q ts h i c todo Ht|q ts h i c b todo Ht|
    q ts ts' h i c w todo wk r q' Ht Hcs Hw|q ts ts' h i c w todo wk q' Ht Hcs Hw]; simpl;
    try rewrite (length_wakes _ _ _ Hw); rewrite length_insert; set (k := length ts).
  - pose proof (sum_left k ts i _ (Thread (Locking c) todo) Ht). simpl in *. lia.
  - pose proof (sum_left k ts i _ (Thread (Inside c None) todo) Ht). simpl in *. lia.
  - pose proof (sum_left k ts i _ (Thread (Inside c (Some b)) todo) Ht). simpl in *. lia.
  - pose proof (sum_left k ts i _ (Thread Idle todo) Ht). simpl in *.
    pose proof (sum_wake k _ _ _ Hw) as Hs. rewrite length_insert in Hs. fold k in Hs. lia.
  - destruct (cs_ok c w q a (inv_rep _ _ _ Hi) (may_wait _ _ _ _ _ _ _ _ _ _ Hi Ht))
      as [[_ Hcs']|(wk' & e & q1 & Hcs' & He)]; [congruence|].
    rewrite Hcs in Hcs'. simplify_eq. destruct He as (-> & -> & _). inversion Hw; subst.
    pose proof (sum_left k ts i _ (Thread (Waiting c) todo) Ht). simpl in *. lia.
Qed.

Lemma monitor_terminates a0 s a n s' :
  inv a0 s a → nsteps (step cs) n s s' → (n ≤ steps_left s)%nat.
Proof.
  intros Hi Hn. revert a Hi. induction Hn as [s|n s s1 s' H1 _ IH]; intros a Hi; [lia|].
  pose proof (monitor_step_left _ _ _ _ Hi H1).
  destruct (inv_step _ _ _ _ Hi (or_introl H1)) as [a1 Hi1]. specialize (IH a1 Hi1). lia.
Qed.

(** When no thread can make a step and none has crashed, each has returned from all its operations
    or waits in one that is blocked. *)
Lemma monitor_stuck_free a0 q o ts h a :
  inv a0 (Sys q o ts h) a → ¬ crashed cs (Sys q o ts h) → (∀ s', ¬ step cs (Sys q o ts h) s') → o = None.
Proof.
  intros Hi Hnc Hf. destruct o as [j|]; [|done]. exfalso.
  destruct (inv_owner _ _ _ Hi j eq_refl) as (c & w & todo & Hj).
  destruct (cs_ok c w q a (inv_rep _ _ _ Hi) (may_wait _ _ _ _ _ _ _ _ _ _ Hi Hj))
    as [[_ Hcs]|(wk & e & q1 & Hcs & He)]; [by apply Hnc; exists j, c, w, todo|].
  assert (∀ ts1, ∃ ts', @wakes C wk ts1 ts') as Hwk.
  { intros ts1. destruct wk; [eexists; constructor| |eexists; constructor].
    destruct (decide (Exists (λ t, is_Some (match th_now t with Waiting c => Some c | _ => None end)) ts1))
      as [(t & Hin & Hw)%Exists_exists|Hno].
    - apply list_elem_of_lookup in Hin as [k Hk]. destruct t as [[] td]; try by destruct Hw.
      exists (alter wake_thread k ts1). constructor. by eexists _, _.
    - exists ts1. constructor. intros k (c1 & td & Hk). apply Hno, Exists_exists.
      eexists. split; [by eapply list_elem_of_lookup_2|]. by eexists. }
  destruct e as [r|].
  - destruct (Hwk (<[j:=Thread Idle todo]> ts)) as [ts' Hw]. by eapply Hf, step_return.
  - destruct (Hwk (<[j:=Thread (Waiting c) todo]> ts)) as [ts' Hw]. by eapply Hf, step_wait.
Qed.

Lemma monitor_final a0 s a i t :
  inv a0 s a → ¬ crashed cs s → (∀ s', ¬ step cs s s') → s_threads s !! i = Some t →
  t = Thread Idle [] ∨ ∃ c todo, t = Thread (Waiting c) todo ∧ blocked c a.
Proof.
  intros Hi Hnc Hf. destruct s as [q o ts h]. pose proof (monitor_stuck_free _ _ _ _ _ _ Hi Hnc Hf) as ->. simpl.
  assert (∀ j t, ts !! j = Some t → t = Thread Idle [] ∨ ∃ c todo, t = Thread (Waiting c) todo) as Hall.
  { intros j [[|c|c w|c|c b] todo] Ht.
    - destruct todo as [|c todo]; [by left|]. exfalso. by eapply Hf, step_call.
    - exfalso. by eapply Hf, step_lock.
    - by apply (inv_mutex _ _ _ Hi) in Ht.
    - right. by exists c, todo.
    - exfalso. by eapply Hf, step_relock. }
  intros Ht. destruct (Hall i t Ht) as [->|(c & todo & ->)]; [by left|]. right. exists c, todo.
  split; [done|]. destruct (inv_waited _ _ _ Hi i _ c Ht eq_refl) as [a1 Hb].
  eapply credit_blocked; [exact Hb|].
  pose proof (inv_credit _ _ _ Hi i ltac:(by exists c, todo)) as Hc. simpl in Hc.
  assert (owed ts = 0%nat); [|lia]. clear -Hall. unfold owed.
  induction ts as [|t ts IH]; csimpl; [done|]. rewrite IH by (intros j; apply (Hall (S j))).
  by destruct (Hall 0%nat t eq_refl) as [->|(c & todo & ->)].
Qed.
End monitors.
