(* ===== verification/BlockQueue.v ===== *)
(** The blocking queue of src/TinyWebServer/log/block_queue.h: a circular
    array under a mutex, and a condition variable the consumers wait on. It is
    a bounded first-in first-out queue for any number of threads, and no
    consumer sleeps through a push. *)
From stdpp Require Import list relations.
From S2P Require Import Prelude Monitor.
#[global] Open Scope Z_scope.

Section code.
Context {T : Type}.

Record BlockQueue := BQ {
  m_array : list T;
  m_size : Z;
  m_max_size : Z;
  m_front : Z;
  m_back : Z
}.
Definition BQM := M BlockQueue.
Definition set_array (a : list T) : BQM unit := modify (λ q,
  BQ a (m_size q) (m_max_size q) (m_front q) (m_back q)).
Definition set_size (z : Z) : BQM unit := modify (λ q,
  BQ (m_array q) z (m_max_size q) (m_front q) (m_back q)).
Definition set_front (z : Z) : BQM unit := modify (λ q,
  BQ (m_array q) (m_size q) (m_max_size q) z (m_back q)).
Definition set_back (z : Z) : BQM unit := modify (λ q,
  BQ (m_array q) (m_size q) (m_max_size q) (m_front q) z).

(** [m_array[i]], read and written: undefined outside the array. *)
Definition array_at (i : Z) : BQM T :=
  a ← gets m_array; need (if 0 <=? i then a !! Z.to_nat i else None).
Definition array_put (i : Z) (x : T) : BQM unit :=
  _ ← array_at i; a ← gets m_array; set_array (<[Z.to_nat i:=x]> a).

(** [BlockQueue(max_size)]; [new T[max_size]] constructs its elements with
    [T()]. *)
Definition BlockQueue_new (default : T) (max_size : Z) : BQM unit :=
  if max_size <=? 0 then exit 1 else
  modify (λ _, BQ (replicate (Z.to_nat max_size) default) 0 max_size (-1) (-1)).

(** [~BlockQueue()]: [delete] of an array that [new T[]] gave is undefined, and
    the array is never null. *)
Definition BlockQueue_delete : BQM unit := _ ← gets m_array; undef.

(** The operations and their results: the value of a call that has an output
    parameter is what it stores there, [None] when it returns false. *)
Inductive bq_call :=
| Clear | Full | Empty | Front | Back | Size | MaxSize
| Push (item : T) | Pop | PopTimeout (ms_timeout : Z).
Inductive bq_res := RVoid | RBool (b : bool) | RInt (z : Z) | RItem (x : option T).
Definition section_end : Type := wake * cs_end bq_res.
Definition returns (r : bq_res) : BQM section_end := ret (NoWake, Return r).

(** What each operation does between [m_mutex.lock()] and
    [m_mutex.unlock()]. *)
Definition clear : BQM section_end :=
  set_size 0;; set_front (-1);; set_back (-1);; returns RVoid.

Definition full : BQM section_end :=
  sz ← gets m_size; mx ← gets m_max_size;
  if mx <=? sz then returns (RBool true) else returns (RBool false).

Definition empty : BQM section_end :=
  sz ← gets m_size;
  if sz <=? 0 then returns (RBool true) else returns (RBool false).

Definition front : BQM section_end :=
  sz ← gets m_size;
  if sz <=? 0 then returns (RItem None) else
  i ← gets m_front; x ← array_at i; returns (RItem (Some x)).

Definition back : BQM section_end :=
  sz ← gets m_size;
  if sz <=? 0 then returns (RItem None) else
  i ← gets m_back; x ← array_at i; returns (RItem (Some x)).

Definition size : BQM section_end := tmp ← gets m_size; returns (RInt tmp).
Definition max_size : BQM section_end := tmp ← gets m_max_size; returns (RInt tmp).

Definition push (item : T) : BQM section_end :=
  sz ← gets m_size; mx ← gets m_max_size;
  if mx <=? sz then ret (Broadcast, Return (RBool false)) else
  bk ← gets m_back; b1 ← int (bk + 1); set_back (Z.rem b1 mx);;
  bk ← gets m_back; array_put bk item;;
  sz ← int (sz + 1); set_size sz;;
  ret (Broadcast, Return (RBool true)).

(** The end of both [pop]s. *)
Definition pop_item : BQM section_end :=
  fr ← gets m_front; mx ← gets m_max_size;
  f1 ← int (fr + 1); set_front (Z.rem f1 mx);;
  fr ← gets m_front; item ← array_at fr;
  sz ← gets m_size; sz ← int (sz - 1); set_size sz;;
  returns (RItem (Some item)).

(** [while (m_size <= 0) { if (!m_cond.wait(...)) ... }]: the section starts
    again with the result of [wait]. *)
Definition pop (w : option bool) : BQM section_end :=
  if bool_decide (w = Some false) then returns (RItem None) else
  sz ← gets m_size;
  if sz <=? 0 then ret (NoWake, CondWait) else pop_item.

(** The time until which [pop(item, ms_timeout)] waits, in seconds and
    nanoseconds, at the time [sec] (and whatever microseconds). *)
Definition deadline (sec ms_timeout : Z) : Z * Z :=
  (sec + Z.quot ms_timeout 1000, Z.rem ms_timeout 1000 * 1000).

Definition pop_timeout (ms_timeout : Z) (w : option bool) : BQM section_end :=
  sz ← gets m_size;
  match w with
  | None => if sz <=? 0 then ret (NoWake, CondWait) else pop_item
  | Some false => returns (RItem None)
  | Some true => if sz <=? 0 then returns (RItem None) else pop_item
  end.

Definition bq_cs (c : bq_call) (w : option bool) : BQM section_end :=
  match c with
  | Clear => clear
  | Full => full
  | Empty => empty
  | Front => front
  | Back => back
  | Size => size
  | MaxSize => max_size
  | Push item => push item
  | Pop => pop w
  | PopTimeout ms => pop_timeout ms w
  end.
End code.
Arguments BlockQueue T : clear implicits.
Arguments bq_call T : clear implicits.
Arguments bq_res T : clear implicits.

Section ring.
Context {T : Type}.
Implicit Types (q : BlockQueue T) (l : list T).

(** The queue of capacity [n] holds [l]: from the place after [m_front] on,
    around the array, up to [m_back]. *)
Record bq_rep (n : Z) (q : BlockQueue T) (l : list T) : Prop := {
  br_max : m_max_size q = n;
  br_pos : 0 < n ≤ INT_MAX;
  br_array : Z.of_nat (length (m_array q)) = n;
  br_size : m_size q = Z.of_nat (length l);
  br_fits : Z.of_nat (length l) ≤ n;
  br_front : -1 ≤ m_front q < n;
  br_back : -1 ≤ m_back q < n;
  br_back_pos : l ≠ [] → 0 ≤ m_back q;
  br_ends : (m_back q + 1) mod n = (m_front q + 1 + Z.of_nat (length l)) mod n;
  br_items i x : l !! i = Some x →
    m_array q !! Z.to_nat ((m_front q + 1 + Z.of_nat i) mod n) = Some x
}.

Lemma mod_inj a i j n : 0 ≤ i < n → 0 ≤ j < n → (a + i) mod n = (a + j) mod n → i = j.
Proof.
  intros Hi Hj H. pose proof (Z.div_mod (a + i) n). pose proof (Z.div_mod (a + j) n).
  assert ((a + i) / n = (a + j) / n ∨ (a + i) / n < (a + j) / n ∨ (a + j) / n < (a + i) / n) as [|[|]]
    by lia; nia.
Qed.

Lemma wp_array_at q i x (P : T → BlockQueue T → Prop) :
  0 ≤ i → m_array q !! Z.to_nat i = Some x → P x q → wp (array_at i) q P.
Proof.
  intros Hi Hx HP. unfold array_at. apply wp_bind, wp_gets.
  rewrite (proj2 (Z.leb_le _ _)) by done. by eapply wp_need.
Qed.

Lemma wp_array_put q i x y (P : unit → BlockQueue T → Prop) :
  0 ≤ i → m_array q !! Z.to_nat i = Some y →
  P tt (BQ (<[Z.to_nat i:=x]> (m_array q)) (m_size q) (m_max_size q) (m_front q) (m_back q)) →
  wp (array_put i x) q P.
Proof. intros Hi Hy HP. apply wp_bind. eapply wp_array_at; [done|done|]. done. Qed.

Lemma array_in n q i : Z.of_nat (length (m_array q)) = n → 0 ≤ i < n →
  ∃ x, m_array q !! Z.to_nat i = Some x.
Proof. intros Hn Hi. apply lookup_lt_is_Some. lia. Qed.

(** [push] leaves the place [m_front] alone, unless the queue becomes full. *)
Lemma wp_push_front n q l item :
  bq_rep n q l → wp (push item) q (λ r q',
    if Z.of_nat (length l) <? n
    then r = (Broadcast, Return (RBool true)) ∧ bq_rep n q' (l ++ [item]) ∧ m_front q' = m_front q ∧
      (0 ≤ m_front q → Z.of_nat (length l) + 1 < n →
        m_array q' !! Z.to_nat (m_front q) = m_array q !! Z.to_nat (m_front q))
    else r = (Broadcast, Return (RBool false)) ∧ q' = q).
Proof.
  intros [Hm Hp Ha Hs Hf Hfr Hbk Hbp He Hi]. unfold push. repeat wp_base. rewrite Hm, Hs.
  destruct (Z.leb_spec n (Z.of_nat (length l))) as [Hle|Hlt].
  { rewrite (proj2 (Z.ltb_ge _ _)) by done. by apply wp_ret. }
  rewrite (proj2 (Z.ltb_lt _ _)) by done. repeat wp_base.
  apply wp_int; [unfold INT_MIN, INT_MAX in *; lia|].
  unfold set_back. repeat wp_base. simpl.
  rewrite Z.rem_mod_nonneg by lia. rewrite He.
  set (j := (m_front q + 1 + Z.of_nat (length l)) mod n).
  assert (0 ≤ j < n) as Hj by (apply Z.mod_pos_bound; lia).
  destruct (array_in n q j Ha Hj) as [y Hy].
  eapply wp_array_put; [lia|exact Hy|]. simpl. repeat wp_base.
  apply wp_int; [unfold INT_MIN, INT_MAX in *; lia|]. unfold set_size. repeat wp_base. simpl.
  split; [done|]. split; [|split; [done|]].
  2: { intros Hf0 Hl. apply list_lookup_insert_ne. intros Hj0. apply Z2Nat.inj in Hj0; [|lia..].
       unfold j in Hj0. rewrite <- (Z.mod_small (m_front q) n) in Hj0 at 2 by lia.
       replace (m_front q + 1 + Z.of_nat (length l)) with (m_front q + (1 + Z.of_nat (length l))) in Hj0 by lia.
       rewrite <- (Z.add_0_r (m_front q)) in Hj0 at 2. apply mod_inj in Hj0; lia. }
  constructor; simpl; rewrite ?length_insert, ?length_app; simpl; try lia.
  - unfold j. rewrite Zplus_mod_idemp_l. f_equal. lia.
  - intros i x [Hx|[Hix Hx]]%lookup_app_Some.
    + rewrite list_lookup_insert_ne; [by apply Hi|]. intros Hij.
      pose proof (lookup_lt_Some _ _ _ Hx). apply Z2Nat.inj in Hij; [|lia|apply Z.mod_pos_bound; lia].
      apply mod_inj in Hij; lia.
    + apply list_lookup_singleton_Some in Hx as [Hx0 <-].
      replace (m_front q + 1 + Z.of_nat i) with (m_front q + 1 + Z.of_nat (length l)) by lia.
      fold j. apply list_lookup_insert_eq. lia.
Qed.

Lemma wp_push n q l item :
  bq_rep n q l → wp (push item) q (λ r q',
    if Z.of_nat (length l) <? n
    then r = (Broadcast, Return (RBool true)) ∧ bq_rep n q' (l ++ [item])
    else r = (Broadcast, Return (RBool false)) ∧ q' = q).
Proof.
  intros Hr. eapply wp_mono; [by apply wp_push_front|]. intros r q'. by case_match; [intros (? & ? & _)|].
Qed.

(** [pop] leaves [m_front] at the item it returns. *)
Lemma wp_pop_item_front n q x l :
  bq_rep n q (x :: l) →
  wp pop_item q (λ r q', r = (NoWake, Return (RItem (Some x))) ∧ bq_rep n q' l ∧
    0 ≤ m_front q' ∧ m_array q' !! Z.to_nat (m_front q') = Some x).
Proof.
  intros [Hm Hp Ha Hs Hf Hfr Hbk Hbp He Hi]. unfold pop_item. repeat wp_base. rewrite Hm.
  apply wp_int; [unfold INT_MIN, INT_MAX in *; lia|].
  unfold set_front. repeat wp_base. simpl. rewrite Z.rem_mod_nonneg by lia.
  set (j := (m_front q + 1) mod n).
  assert (0 ≤ j < n) as Hj by (apply Z.mod_pos_bound; lia).
  pose proof (Hi 0%nat x eq_refl) as Hx. rewrite Z.add_0_r in Hx. fold j in Hx.
  eapply wp_array_at; [lia|exact Hx|]. repeat wp_base. simpl. rewrite Hs. simpl length in *.
  apply wp_int; [unfold INT_MIN, INT_MAX in *; lia|]. unfold set_size. repeat wp_base. simpl.
  assert (∀ k, (j + 1 + k) mod n = (m_front q + 1 + (1 + k)) mod n) as Hshift.
  { intros k. unfold j. replace ((m_front q + 1) mod n + 1 + k) with ((m_front q + 1) mod n + (1 + k)) by lia.
    apply Zplus_mod_idemp_l. }
  split; [done|]. split; [|split; [simpl; lia|done]]. constructor; simpl; try done; try lia.
  - intros _. by apply Hbp.
  - rewrite He, Hshift. f_equal. lia.
  - intros i y Hy. rewrite Hshift. rewrite <-(Hi (S i) y) by done. do 3 f_equal. lia.
Qed.

Lemma wp_pop_item n q x l :
  bq_rep n q (x :: l) →
  wp pop_item q (λ r q', r = (NoWake, Return (RItem (Some x))) ∧ bq_rep n q' l).
Proof.
  intros Hr. eapply wp_mono; [by apply wp_pop_item_front|]. by intros r q' (? & ? & _).
Qed.

(** * The contract *)

(** The value of a queue: the item that was popped last, unless nothing was
    since it was made or cleared, and the items in it. *)
Abbreviation bq_value := (option T * list T)%type.
(** Where [front] looks: at the place of the item that was popped last, which
    the next item takes when the queue becomes full. *)
Definition bq_holds (n : Z) (q : BlockQueue T) (a : bq_value) : Prop :=
  bq_rep n q a.2 ∧
  match a.1 with
  | None => m_front q = -1
  | Some x => 0 ≤ m_front q ∧ (Z.of_nat (length a.2) < n → m_array q !! Z.to_nat (m_front q) = Some x)
  end.

(** What each operation does to the value of a queue of capacity [n]. A [pop]
    also fails when its [wait] does; [front] of a queue that holds something
    returns the item that was popped last, or the last of a full queue. *)
Definition bq_spec (n : Z) (c : bq_call T) (a : bq_value) (r : bq_res T) (a' : bq_value) : Prop :=
  let l := a.2 in
  match c with
  | Clear => r = RVoid ∧ a' = (None, [])
  | Full => r = RBool (n <=? Z.of_nat (length l)) ∧ a' = a
  | Empty => r = RBool (bool_decide (length l = 0%nat)) ∧ a' = a
  | Front => r = RItem (if bool_decide (l = []) then None
               else if Z.of_nat (length l) <? n then a.1 else last l) ∧ a' = a
  | Back => r = RItem (last l) ∧ a' = a
  | Size => r = RInt (Z.of_nat (length l)) ∧ a' = a
  | MaxSize => r = RInt n ∧ a' = a
  | Push item =>
      if Z.of_nat (length l) <? n then r = RBool true ∧ a' = (a.1, l ++ [item])
      else r = RBool false ∧ a' = a
  | Pop | PopTimeout _ =>
      (∃ x l', l = x :: l' ∧ r = RItem (Some x) ∧ a' = (Some x, l')) ∨ (r = RItem None ∧ a' = a)
  end.
Definition bq_blocked (c : bq_call T) (a : bq_value) : Prop :=
  match c with Pop | PopTimeout _ => a.2 = [] | _ => False end.
(** [front] before anything was popped: it reads [m_array[-1]]. *)
Definition bq_undefined (c : bq_call T) (a : bq_value) : Prop := c = Front ∧ a.1 = None ∧ a.2 ≠ [].

Lemma size_empty n q l : bq_rep n q l → (m_size q <=? 0) = bool_decide (length l = 0%nat).
Proof.
  intros Hr. rewrite (br_size _ _ _ Hr).
  case_bool_decide; [apply Z.leb_le|apply Z.leb_gt]; lia.
Qed.

Lemma back_item n q l x : bq_rep n q l → last l = Some x → m_array q !! Z.to_nat (m_back q) = Some x.
Proof.
  intros [Hm Hp Ha Hs Hf Hfr Hbk Hbp He Hi] Hx.
  destruct l as [|y l' _] using rev_ind; [done|]. rewrite last_snoc in Hx. injection Hx as ->.
  assert (0 ≤ m_back q) as Hb by (apply Hbp; by destruct l').
  rewrite <-(Hi (length l') x) by (by rewrite lookup_app_r, Nat.sub_diag by done).
  do 2 f_equal. rewrite length_app in He. simpl in He.
  assert (m_back q = (m_back q + 1 - 1) mod n) as -> by (rewrite Z.mod_small; lia).
  rewrite <-Zminus_mod_idemp_l, He, Zminus_mod_idemp_l. f_equal. lia.
Qed.

(** How a section ends. *)
Definition cs_post (n : Z) (c : bq_call T) (a : bq_value) (q : BlockQueue T)
    (r : wake * cs_end (bq_res T)) (q' : BlockQueue T) : Prop :=
  match r with
  | (wk, Return r) => ∃ a', bq_holds n q' a' ∧ bq_spec n c a r a' ∧
      wake_ok false None wk (length a.2) (length a'.2)
  | (wk, CondWait) => q' = q ∧ wk = NoWake ∧ bq_blocked c a
  end.

Lemma wp_same c n q a r :
  bq_holds n q a → bq_spec n c a r a → wp (returns r) q (cs_post n c a q).
Proof. intros Hr Hs. apply wp_ret. exists a. split_and!; [done|done|simpl; lia]. Qed.

Lemma wp_take c n q a :
  bq_holds n q a → (m_size q <=? 0) = false → c = Pop ∨ (∃ ms, c = PopTimeout ms) →
  wp pop_item q (cs_post n c a q).
Proof.
  intros [Hr Hh] Hz Hc. rewrite (size_empty n q _ Hr) in Hz. apply bool_decide_eq_false in Hz.
  destruct a as [o [|x l]]; [done|]. eapply wp_mono; [by apply wp_pop_item_front|].
  intros r q' (-> & Hr' & Hf & Hx). exists (Some x, l). split_and!; [by split| |].
  - destruct Hc as [->|[ms ->]]; left; by exists x, l.
  - simpl. lia.
Qed.

Lemma wp_clear n q a : bq_holds n q a → wp clear q (cs_post n Clear a q).
Proof.
  intros [Hr _]. unfold clear, set_size, set_front, set_back. repeat wp_base. exists (None, []).
  destruct Hr as [Hm Hp Ha Hs Hf Hfr Hbk Hbp He Hi]. split_and!; [split; [|done]|done|simpl; lia].
  constructor; simpl; try done; lia.
Qed.

Lemma wp_push_holds n q a item : bq_holds n q a → wp (push item) q (cs_post n (Push item) a q).
Proof.
  intros [Hr Hh]. eapply wp_mono; [by apply wp_push_front|]. intros r q' Hpost.
  destruct (Z.of_nat (length a.2) <? n) eqn:Hn.
  - destruct Hpost as (-> & Hr' & Hf & Hkeep). exists (a.1, a.2 ++ [item]). simpl. rewrite Hn.
    split_and!; [split; [done|]|done..]. simpl. rewrite Hf, length_app. simpl.
    destruct a.1 as [x|]; [|done]. destruct Hh as [Hf0 Hx]. split; [done|]. intros Hl.
    rewrite Hkeep by lia. apply Hx. lia.
  - destruct Hpost as [-> ->]. exists a. simpl. rewrite Hn. by split_and!.
Qed.

(** A full queue has its last item at [m_front]. *)
Lemma full_front n q l : bq_rep n q l → 0 ≤ m_front q → l ≠ [] → Z.of_nat (length l) = n → m_back q = m_front q.
Proof.
  intros [Hm Hp Ha Hs Hf Hfr Hbk Hbp He Hi] Hf0 Hl Hn. specialize (Hbp Hl).
  replace (m_front q + 1 + Z.of_nat (length l)) with (m_front q + 1 + 1 * n) in He by lia.
  rewrite Z_mod_plus_full, !(Z.add_comm _ 1) in He. apply mod_inj in He; lia.
Qed.
Lemma wp_front n q a :
  bq_holds n q a → ¬ bq_undefined Front a → wp front q (cs_post n Front a q).
Proof.
  intros Hh Hd. destruct a as [o l]. pose proof Hh as [Hr Ho]. simpl in Hr, Ho.
  unfold front. wp_base. wp_base. rewrite (size_empty _ _ _ Hr). case_bool_decide as Hl.
  { destruct l; [|done]. by apply wp_same. }
  assert (l ≠ []) as Hne by (by intros ->). destruct o as [x|]; [|by destruct Hd].
  destruct Ho as [Hf Hx]. repeat wp_base. destruct (Z.ltb_spec (Z.of_nat (length l)) n) as [Hlt|Hge].
  - eapply wp_array_at; [done|by apply Hx|]. apply wp_same; [done|]. simpl.
    by rewrite bool_decide_eq_false_2, (proj2 (Z.ltb_lt _ _)).
  - pose proof (br_fits _ _ _ Hr). destruct (last l) as [y|] eqn:Hy; [|by apply last_None in Hy].
    eapply wp_array_at; [done| |].
    + rewrite <-(full_front n q l Hr Hf Hne) by lia. by eapply back_item.
    + apply wp_same; [done|]. simpl. by rewrite bool_decide_eq_false_2, (proj2 (Z.ltb_ge _ _)), Hy by done.
Qed.
Lemma front_undefined n q a : bq_holds n q a → bq_undefined Front a → front q = Undef.
Proof.
  intros [Hr Hh] (_ & Ho & Hl). rewrite Ho in Hh. unfold front, bind, gets. rewrite (size_empty _ _ _ Hr).
  rewrite bool_decide_eq_false_2 by (by destruct a.2). unfold array_at, bind, gets. by rewrite Hh.
Qed.

Lemma wp_bq_cs c w n q a : bq_holds n q a → ¬ bq_undefined c a → wp (bq_cs c w) q (cs_post n c a q).
Proof.
  intros Hh Hd. pose proof Hh as [Hr _]. pose proof (size_empty n q _ Hr) as Hz.
  destruct c as [| | | | | | |item| |ms]; simpl.
  - by apply wp_clear.
  - unfold full. repeat wp_base. rewrite (br_max _ _ _ Hr), (br_size _ _ _ Hr).
    destruct (n <=? Z.of_nat (length a.2)) eqn:Hn; apply wp_same; simpl; rewrite ?Hn; done.
  - unfold empty. repeat wp_base. rewrite Hz.
    destruct (bool_decide (length a.2 = 0%nat)) eqn:Hl; (apply wp_same; [done|simpl; by rewrite Hl]).
  - by apply wp_front.
  - unfold back. repeat wp_base. rewrite Hz. case_bool_decide as Hl.
    + apply wp_same; [done|]. simpl. by destruct a.2.
    + repeat wp_base. destruct (last a.2) as [x|] eqn:Hx; [|by apply last_None in Hx; rewrite Hx in Hl].
      eapply wp_array_at; [apply (br_back_pos _ _ _ Hr); by destruct a.2|by eapply back_item|].
      apply wp_same; [done|]. by rewrite <-Hx.
  - unfold size. repeat wp_base. apply wp_same; [done|]. by rewrite (br_size _ _ _ Hr).
  - unfold max_size. repeat wp_base. apply wp_same; [done|]. by rewrite (br_max _ _ _ Hr).
  - by apply wp_push_holds.
  - unfold pop. destruct (bool_decide (w = Some false)); [by apply wp_same; [|right]|].
    repeat wp_base. destruct (m_size q <=? 0) eqn:Hs; [|apply wp_take; eauto].
    apply wp_ret. symmetry in Hz. apply bool_decide_eq_true in Hz. split_and!; [done..|]. simpl. by destruct a.2.
  - unfold pop_timeout. repeat wp_base. destruct w as [[]|].
    + destruct (m_size q <=? 0) eqn:Hs; [by apply wp_same; [|right]|]. apply wp_take; eauto.
    + by apply wp_same; [|right].
    + destruct (m_size q <=? 0) eqn:Hs; [|apply wp_take; eauto].
      apply wp_ret. symmetry in Hz. apply bool_decide_eq_true in Hz. split_and!; [done..|]. simpl. by destruct a.2.
Qed.

#[export, program] Instance bq_monitor (n : Z) : MonitorSpec (@bq_cs T) bq_value := {|
  rep := bq_holds n;
  spec := bq_spec n;
  blocked := bq_blocked;
  undefined := bq_undefined;
  credit a := length a.2;
  signals := false
|}.
Next Obligation. by intros n [] [o l]; simpl; try done; intros ->. Qed.
Next Obligation. by intros n [] [o l] [o' l']; simpl; try done; intros _ ?%length_zero_iff_nil. Qed.
Next Obligation.
  intros n c w q a Hr _. assert (Decision (bq_undefined c a)) as Hdec.
  { unfold bq_undefined. destruct c; try (right; naive_solver). destruct a as [[x|] [|y l]]; try (right; naive_solver).
    by left. }
  destruct Hdec as [Hu|Hu].
  { left. split; [done|]. destruct Hu as [-> Hu]. by apply (front_undefined n q a). }
  right. destruct (wp_elim _ _ _ (wp_bq_cs c w n q a Hr Hu)) as ([wk e] & q' & Hcs & Hp).
  exists wk, e, q'. split; [done|]. destruct e; [|done]. destruct Hp as (a' & ? & ? & Hw).
  exists a'. split_and!; [done..|]. by destruct w.
Qed.

Lemma wp_BlockQueue_new d n q : 0 < n ≤ INT_MAX → wp (BlockQueue_new d n) q (λ _ q', bq_holds n q' (None, [])).
Proof.
  intros Hn. unfold BlockQueue_new. rewrite (proj2 (Z.leb_gt _ _)) by lia. apply wp_modify. split; [|done].
  constructor; simpl; try done; try lia. rewrite length_replicate. lia.
Qed.
End ring.



(** [front] does not return the item the next [pop] will return: before the
    first [pop] it reads [m_array[-1]], and after a [pop] it returns once more
    the item that was popped, although [pop] first advances [m_front]. *)
Theorem BlockQueue_front_stale {T} (n : Z) (q : BlockQueue T) l x y :
  bq_rep n q (x :: y :: l) →
  (m_front q = -1 → front q = Undef) ∧
  ∃ q', pop_item q = Done (NoWake, Return (RItem (Some x))) q' ∧ bq_rep n q' (y :: l) ∧
    front q' = Done (NoWake, Return (RItem (Some x))) q'.
Proof.
  intros Hr. split.
  - intros Hf. unfold front, bind, gets. rewrite (br_size _ _ _ Hr).
    rewrite (proj2 (Z.leb_gt _ _)) by (simpl; lia).
    unfold array_at, bind, gets. by rewrite Hf.
  - destruct (wp_elim _ _ _ (wp_pop_item_front _ _ _ _ Hr)) as (r & q' & Hp & -> & Hr' & Hf & Hx).
    exists q'. split_and!; [done|done|]. destruct (wp_elim (front (T:=T)) q' (λ r q2,
      r = (NoWake, Return (RItem (Some x))) ∧ q2 = q')) as (r & q2 & Hfr & -> & ->); [|done].
    unfold front. repeat wp_base. rewrite (br_size _ _ _ Hr').
    rewrite (proj2 (Z.leb_gt _ _)) by (simpl; lia). repeat wp_base.
    by eapply wp_array_at.
Qed.
