(* ===== verification/Threads.v ===== *)
(** Threads that share data under a mutex and count it with a semaphore
    (src/TinyWebServer/lock/locker.h, [Sem] and [Locker]). A thread is a control
    point; the code says what is executed there, and the threads' steps
    interleave. *)
From stdpp Require Import list relations.
From S2P Require Import Prelude.

(** What a thread does at a control point, and where it goes on. *)
Inductive instr (Q PC : Type) :=
| IWait (k : PC)
| IPost (k : PC)
| ILock (k : PC)
| IUnlock (k : PC)
| IDo (m : M Q PC)
| IHalt.
Arguments IWait {Q PC} k.
Arguments IPost {Q PC} k.
Arguments ILock {Q PC} k.
Arguments IUnlock {Q PC} k.
Arguments IDo {Q PC} m.
Arguments IHalt {Q PC}.

(** The shared data, the value of the semaphore, the thread that holds the
    mutex, and the threads. *)
Record machine (Q PC : Type) := Machine {
  mc_obj : Q;
  mc_sem : nat;
  mc_owner : option nat;
  mc_pcs : list PC
}.
Arguments Machine {Q PC} _ _ _ _.
Arguments mc_obj {Q PC} _.
Arguments mc_sem {Q PC} _.
Arguments mc_owner {Q PC} _.
Arguments mc_pcs {Q PC} _.

(** * Sums over the threads *)

Section sums.
Context {PC : Type}.
Implicit Types (f : PC → nat) (pcs : list PC).

Definition total f pcs : nat := sum_list (f <$> pcs).
Lemma total_insert f pcs i pc k :
  pcs !! i = Some pc → (total f (<[i:=k]> pcs) + f pc = total f pcs + f k)%nat.
Proof.
  unfold total. revert i. induction pcs as [|p pcs IH]; intros [|i] Hp; simplify_eq/=; [lia|].
  specialize (IH i Hp). lia.
Qed.
Lemma total_elem f pcs i pc : pcs !! i = Some pc → (f pc ≤ total f pcs)%nat.
Proof.
  unfold total. revert i. induction pcs as [|p pcs IH]; intros [|i] Hp; simplify_eq/=; [lia|].
  specialize (IH i Hp). lia.
Qed.
Lemma total_0 f pcs : (∀ pc, pc ∈ pcs → f pc = 0%nat) → total f pcs = 0%nat.
Proof.
  unfold total. induction pcs as [|p pcs IH]; intros Hf; csimpl; [done|].
  rewrite (Hf p) by set_solver. simpl. apply IH. set_solver.
Qed.

(** What the threads hold, together: a step of one of them changes its part. *)
Context {A : Type}.
Implicit Types h : PC → list A.
Lemma bind_insert h pcs i pc k :
  pcs !! i = Some pc → h pc ++ (<[i:=k]> pcs ≫= h) ≡ₚ h k ++ (pcs ≫= h).
Proof.
  revert i. induction pcs as [|p pcs IH]; intros [|i] Hp; simplify_eq/=.
  - rewrite !app_assoc. f_equiv. apply Permutation_app_comm.
  - rewrite !(Permutation_app_comm (h p)), !app_assoc. f_equiv. by apply IH.
Qed.
Lemma bind_nil h pcs : (∀ pc, pc ∈ pcs → h pc = []) → pcs ≫= h = [].
Proof.
  induction pcs as [|pc pcs IH]; intros H; [done|]. rewrite bind_cons.
  rewrite (H pc), IH by set_solver. done.
Qed.

End sums.

Section machines.
Context {Q PC : Type} (code : PC → instr Q PC).
Implicit Types (s : machine Q PC) (pcs : list PC).

Inductive mstep : machine Q PC → machine Q PC → Prop :=
| mstep_wait q n o pcs i pc k :
    pcs !! i = Some pc → code pc = IWait k →
    mstep (Machine q (S n) o pcs) (Machine q n o (<[i:=k]> pcs))
| mstep_post q n o pcs i pc k :
    pcs !! i = Some pc → code pc = IPost k →
    mstep (Machine q n o pcs) (Machine q (S n) o (<[i:=k]> pcs))
| mstep_lock q n pcs i pc k :
    pcs !! i = Some pc → code pc = ILock k →
    mstep (Machine q n None pcs) (Machine q n (Some i) (<[i:=k]> pcs))
| mstep_unlock q n pcs i pc k :
    pcs !! i = Some pc → code pc = IUnlock k →
    mstep (Machine q n (Some i) pcs) (Machine q n None (<[i:=k]> pcs))
| mstep_do q n o pcs i pc m k q' :
    pcs !! i = Some pc → code pc = IDo m → m q = Done k q' →
    mstep (Machine q n o pcs) (Machine q' n o (<[i:=k]> pcs)).

(** A thread that executes something undefined, or unlocks a mutex it does not
    hold. *)
Definition mcrashed s : Prop :=
  ∃ i pc, mc_pcs s !! i = Some pc ∧
    ((∃ m, code pc = IDo m ∧ m (mc_obj s) = Undef) ∨
     (∃ k, code pc = IUnlock k ∧ mc_owner s ≠ Some i)).

(** * Mutual exclusion *)

(** The points between [lock] and [unlock]. *)
Class LockDiscipline := {
  inside : PC → bool;
  inside_ok pc :
    match code pc with
    | IWait k | IPost k => inside pc = false ∧ inside k = false
    | ILock k => inside pc = false ∧ inside k = true
    | IUnlock k => inside pc = true ∧ inside k = false
    | IDo m => ∀ q k q', m q = Done k q' → inside k = inside pc
    | IHalt => inside pc = false
    end
}.

Definition mutex_inv `{LockDiscipline} s : Prop :=
  ∀ i pc, mc_pcs s !! i = Some pc → (inside pc = true ↔ mc_owner s = Some i).

Lemma mutex_step `{LockDiscipline} s s' : mutex_inv s → mstep s s' → mutex_inv s'.
Proof.
  intros Hi Hs j pcj Hj.
  destruct Hs as [q n o pcs i pc k Hp Hc|q n o pcs i pc k Hp Hc|q n pcs i pc k Hp Hc|
    q n pcs i pc k Hp Hc|q n o pcs i pc m k q' Hp Hc Hm]; simpl in *;
    pose proof (inside_ok pc) as Hok; rewrite Hc in Hok; pose proof (Hi i pc Hp) as Hii; simpl in Hii;
    (destruct (decide (i = j)) as [<-|Hij];
      [rewrite list_lookup_insert_eq in Hj by (by eapply lookup_lt_Some); injection Hj as <-
      |rewrite list_lookup_insert_ne in Hj by done; pose proof (Hi j pcj Hj) as Hjj; simpl in Hjj]).
  all: try (destruct Hok as [Hok1 Hok2]); try (specialize (Hok _ _ _ Hm)).
  all: rewrite ?Hok1, ?Hok2, ?Hok in *; try naive_solver congruence.
Qed.

(** * Counting *)

(** The semaphore counts the items that nobody has yet a claim on: a weight
    says how many each thread has, or still has to announce. *)
Class SemDiscipline := {
  items : Q → nat;
  weight : PC → nat;
  weight_ok pc :
    match code pc with
    | IWait k => weight k = S (weight pc)
    | IPost k => weight pc = S (weight k)
    | ILock k | IUnlock k => weight k = weight pc
    | IDo m => ∀ q k q', (weight pc ≤ items q)%nat → m q = Done k q' →
        (items q' + weight pc = items q + weight k)%nat
    | IHalt => True
    end
}.

Definition sem_inv `{SemDiscipline} s : Prop :=
  (mc_sem s + total weight (mc_pcs s) = items (mc_obj s))%nat.

Lemma sem_step `{SemDiscipline} s s' : sem_inv s → mstep s s' → sem_inv s'.
Proof.
  unfold sem_inv. intros Hi Hs.
  destruct Hs as [q n o pcs i pc k Hp Hc|q n o pcs i pc k Hp Hc|q n pcs i pc k Hp Hc|
    q n pcs i pc k Hp Hc|q n o pcs i pc m k q' Hp Hc Hm]; simpl in *;
    pose proof (weight_ok pc) as Hok; rewrite Hc in Hok;
    pose proof (total_insert weight pcs i pc k Hp); try lia.
  pose proof (total_elem weight pcs i pc Hp). specialize (Hok q k q' ltac:(lia) Hm). lia.
Qed.

(** * Termination *)

(** A potential that every step lowers, [c] a unit of the semaphore. *)
Class Potential := {
  cost : nat;
  left_ : PC → nat;
  left_ok pc :
    match code pc with
    | IWait k => (left_ k < left_ pc + cost)%nat
    | IPost k => (left_ k + cost < left_ pc)%nat
    | ILock k | IUnlock k => (left_ k < left_ pc)%nat
    | IDo m => ∀ q k q', m q = Done k q' → (left_ k < left_ pc)%nat
    | IHalt => True
    end
}.
Definition potential `{Potential} s : nat := (cost * mc_sem s + total left_ (mc_pcs s))%nat.

Lemma potential_step `{Potential} s s' : mstep s s' → (potential s' < potential s)%nat.
Proof.
  unfold potential. intros Hs.
  destruct Hs as [q n o pcs i pc k Hp Hc|q n o pcs i pc k Hp Hc|q n pcs i pc k Hp Hc|
    q n pcs i pc k Hp Hc|q n o pcs i pc m k q' Hp Hc Hm]; simpl in *;
    pose proof (left_ok pc) as Hok; rewrite Hc in Hok;
    pose proof (total_insert left_ pcs i pc k Hp); try specialize (Hok _ _ _ Hm); lia.
Qed.
Lemma potential_bounds `{Potential} n s s' : nsteps mstep n s s' → (n + potential s' ≤ potential s)%nat.
Proof.
  induction 1 as [s|n s s1 s' H1 _ IH]; [lia|]. pose proof (potential_step _ _ H1). lia.
Qed.

(** * When no thread can move *)

Definition stuck s : Prop := ∀ s', ¬ mstep s s'.

(** Unless one of them has undefined behaviour, the threads are at the end or
    wait for a semaphore that is 0; no one holds the mutex. *)
Lemma stuck_threads `{LockDiscipline} s :
  mutex_inv s → stuck s → ¬ mcrashed s → (∀ pc, pc ∈ mc_pcs s → ∀ m, code pc = IDo m →
    ∀ q, m q = Undef ∨ ∃ k q', m q = Done k q') →
  (∀ i, mc_owner s = Some i → (i < length (mc_pcs s))%nat) →
  mc_owner s = None ∧
  ∀ pc, pc ∈ mc_pcs s → code pc = IHalt ∨ (mc_sem s = 0%nat ∧ ∃ k, code pc = IWait k).
Proof.
  intros Hi Hst Hcr Htot Hown. destruct s as [q n o pcs]. simpl in *.
  assert (∀ i pc, pcs !! i = Some pc → match code pc with
    | IPost _ | IDo _ => False | IUnlock _ => o ≠ Some i | ILock _ => o ≠ None
    | IWait _ => n = 0%nat | IHalt => True end) as Hno.
  { intros i pc Hp. destruct (code pc) as [k|k|k|k|m|] eqn:Hc; [..|done].
    - destruct n; [done|]. exfalso. by eapply Hst, mstep_wait.
    - by eapply Hst, mstep_post.
    - intros ->. by eapply Hst, mstep_lock.
    - intros ->. by eapply Hst, mstep_unlock.
    - destruct (Htot pc (list_elem_of_lookup_2 _ _ _ Hp) m Hc q) as [Hu|(k & q' & Hk)].
      + apply Hcr. exists i, pc. split; [done|]. left. by exists m.
      + by eapply Hst, mstep_do. }
  assert (o = None) as ->.
  { destruct o as [i|]; [|done]. exfalso.
    destruct (lookup_lt_is_Some_2 pcs i (Hown i eq_refl)) as [pc Hp].
    pose proof (proj2 (Hi i pc Hp) eq_refl) as Hin. pose proof (inside_ok pc) as Hok.
    specialize (Hno i pc Hp). destruct (code pc); naive_solver congruence. }
  split; [done|]. intros pc [i Hp]%list_elem_of_lookup. specialize (Hno i pc Hp).
  pose proof (inside_ok pc) as Hok. pose proof (Hi i pc Hp) as Hin. simpl in Hin.
  destruct (code pc) as [k|k|k|k|m|]; try naive_solver congruence.
Qed.

(** * Runs *)

(** The next step of thread [i], and those of the threads in the given order. *)
Definition turn (i : nat) s : option (machine Q PC) :=
  let go q n o k := Some (Machine q n o (<[i:=k]> (mc_pcs s))) in
  match code <$> mc_pcs s !! i with
  | Some (IWait k) => match mc_sem s with S n => go (mc_obj s) n (mc_owner s) k | O => None end
  | Some (IPost k) => go (mc_obj s) (S (mc_sem s)) (mc_owner s) k
  | Some (ILock k) => match mc_owner s with None => go (mc_obj s) (mc_sem s) (Some i) k | _ => None end
  | Some (IUnlock k) => if decide (mc_owner s = Some i) then go (mc_obj s) (mc_sem s) None k else None
  | Some (IDo m) => match m (mc_obj s) with Done k q => go q (mc_sem s) (mc_owner s) k | _ => None end
  | _ => None
  end.
Fixpoint turns (order : list nat) s : option (machine Q PC) :=
  match order with
  | [] => Some s
  | i :: order => match turn i s with Some s' => turns order s' | None => None end
  end.
Lemma turns_steps order s s' : turns order s = Some s' → rtc mstep s s'.
Proof.
  revert s. induction order as [|i order IH]; simpl; intros s; [by intros [= ->]|].
  destruct (turn i s) as [s1|] eqn:E; [|done]. intros Hs. eapply rtc_l; [|by apply IH].
  unfold turn in E. destruct s as [q n o pcs]. simpl in *. destruct (pcs !! i) as [pc|] eqn:Hp; simpl in E; [|done].
  destruct (code pc) eqn:Hc; repeat case_match; simplify_eq; by econstructor.
Qed.
End machines.
