(* ===== verification/ThreadPool.v ===== *)
(** The thread pool of src/TinyWebServer/threadpool/threadpool.h: producers
    append requests to a queue, workers take them from it and call [read_once],
    [write] and [process] on them. The calls that are made are those the
    requests that were appended ask for, each once. *)
From stdpp Require Import gmap list relations.
From coqutil Require Import Datatypes.RecordSetters.
From S2P Require Import Prelude Threads.
Export RecordSetters.DoubleBraceUpdate.
#[global] Open Scope Z_scope.

(** The calls a worker makes on a request or on the connection pool. *)
Inductive task_call := Read_once | Write | Process | GetConnection | ReleaseConnection.

#[export] Instance task_call_eq_dec : EqDecision task_call.
Proof. solve_decision. Defined.

(** The template's parameter: what [read_once] and [write] return, after the
    calls made so far (with what they returned). *)
Class Task := { task_reply : list (loc * task_call * bool) → loc → task_call → bool }.

(** The shared data of a pool: the queue, its bound, the actor mode; the fields
    of the requests it touches; and what happened so far: the requests that were
    appended and taken, each in order, and the workers' calls. *)
Record ThreadPool := Pool {
  m_work_queue : list ptr;
  m_max_requests : Z;
  m_actor_mode : Z;
  m_states : gmap loc Z;
  m_improv : gmap loc Z;
  m_timer_flag : gmap loc Z;
  appended : list ptr;
  taken : list ptr;
  task_calls : list (loc * task_call * bool)
}.

(** The calls of a producer. *)
Inductive pool_call := Append (request : ptr) (state : Z) | AppendP (request : ptr).
Definition call_request (c : pool_call) : ptr :=
  match c with Append r _ => r | AppendP r => r end.

(** Where a thread is: a worker in [run], a producer in [append] or
    [append_p], with the calls it still has to make. *)
Inductive pool_pc :=
| W_wait | W_lock | W_take | W_unlock_empty | W_unlock (request : ptr) | W_run (request : ptr)
| W_read (l : loc) | W_write (l : loc) | W_get (l : loc) | W_process (l : loc) | W_release (l : loc)
| P_next (todo : list pool_call)
| P_check (c : pool_call) (todo : list pool_call)
| P_unlock_full (todo : list pool_call)
| P_unlock (c : pool_call) (todo : list pool_call)
| P_post (c : pool_call) (todo : list pool_call)
| P_return (c : pool_call) (todo : list pool_call).

Definition PM := M ThreadPool.
Definition set_queue (q : list ptr) : PM unit := modify (λ p, p{{m_work_queue := q}}).
(** [request->m_state = state] and so on *)
Definition set_m_state (request : ptr) (v : Z) : PM unit :=
  l ← need request; modify (λ p, p{{m_states := <[l:=v]> (m_states p)}}).
Definition set_m_improv (l : loc) (v : Z) : PM unit :=
  modify (λ p, p{{m_improv := <[l:=v]> (m_improv p)}}).
Definition set_m_timer_flag (l : loc) (v : Z) : PM unit :=
  modify (λ p, p{{m_timer_flag := <[l:=v]> (m_timer_flag p)}}).
Definition log_appended (r : ptr) : PM unit := modify (λ p, p{{appended := appended p ++ [r] }}).
Definition log_taken (r : ptr) : PM unit := modify (λ p, p{{taken := taken p ++ [r] }}).

(** The part of [append] and [append_p] that holds the lock. *)
Definition push_request (c : pool_call) (todo : list pool_call) : PM pool_pc :=
  q ← gets m_work_queue; mx ← gets m_max_requests;
  if Z.of_nat (length q) >=? mx then ret (P_unlock_full todo) else
  (match c with Append r st => set_m_state r st | AppendP _ => ret tt end);;
  set_queue (q ++ [call_request c]);; log_appended (call_request c);;
  ret (P_unlock c todo).

(** The part of [run] that holds the lock. *)
Definition take_request : PM pool_pc :=
  q ← gets m_work_queue;
  match q with
  | [] => ret W_unlock_empty
  | r :: q => set_queue q;; log_taken r;; ret (W_unlock r)
  end.

Section workers.
Context `{Task}.

Definition call_task (l : loc) (c : task_call) : PM bool :=
  cs ← gets task_calls; let ok := task_reply cs l c in
  modify (λ p, p{{task_calls := cs ++ [(l, c, ok)] }});; ret ok.

(** [if (!request) continue;] and what the actor mode and the state ask for. *)
Definition begin_run (request : ptr) : PM pool_pc :=
  match request with
  | None => ret W_wait
  | Some l =>
      a ← gets m_actor_mode;
      if a =? 1 then
        st ← gets (λ p, m_states p !! l); st ← need st;
        ret (if st =? 0 then W_read l else W_write l)
      else ret (W_get l)
  end.
Definition run_read (l : loc) : PM pool_pc :=
  ok ← call_task l Read_once;
  if ok then set_m_improv l 1;; ret (W_get l)
  else set_m_improv l 1;; set_m_timer_flag l 1;; ret W_wait.
Definition run_write (l : loc) : PM pool_pc :=
  ok ← call_task l Write;
  if ok then set_m_improv l 1;; ret W_wait
  else set_m_improv l 1;; set_m_timer_flag l 1;; ret W_wait.
(** The scope of a [ConnectionRAII], in which the request is processed. *)
Definition run_get (l : loc) : PM pool_pc := call_task l GetConnection;; ret (W_process l).
Definition run_process (l : loc) : PM pool_pc := call_task l Process;; ret (W_release l).
Definition run_release (l : loc) : PM pool_pc := call_task l ReleaseConnection;; ret W_wait.

(** [run], from one access to the shared data to the next, and the producers. *)
Definition pool_code (pc : pool_pc) : instr ThreadPool pool_pc :=
  match pc with
  | W_wait => IWait W_lock
  | W_lock => ILock W_take
  | W_take => IDo take_request
  | W_unlock_empty => IUnlock W_wait
  | W_unlock r => IUnlock (W_run r)
  | W_run r => IDo (begin_run r)
  | W_read l => IDo (run_read l)
  | W_write l => IDo (run_write l)
  | W_get l => IDo (run_get l)
  | W_process l => IDo (run_process l)
  | W_release l => IDo (run_release l)
  | P_next [] => IHalt
  | P_next (c :: todo) => ILock (P_check c todo)
  | P_check c todo => IDo (push_request c todo)
  | P_unlock_full todo => IUnlock (P_next todo)
  | P_unlock c todo => IUnlock (P_post c todo)
  | P_post c todo => IPost (P_return c todo)
  (** [append] ends without a value, [append_p] returns true. *)
  | P_return (Append _ _) _ => IDo undef
  | P_return (AppendP _) todo => IDo (ret (P_next todo))
  end.

End workers.

(** [ThreadPool(actor_mode, conn_pool, thread_number, max_requests)]: [inr]
    the exception; the workers start at the head of the loop of [run]. *)
Definition ThreadPool_new (actor_mode thread_number max_requests : Z) (states : gmap loc Z) :
    (ThreadPool * list pool_pc) + unit :=
  if (thread_number <? 0) || (max_requests <=? 0) then inr tt
  else inl (Pool [] max_requests actor_mode states ∅ ∅ [] [] [],
    replicate (Z.to_nat thread_number) W_wait).

(** A pool with its workers and the producers that use it. *)
Definition pool_start (p : ThreadPool) (workers : list pool_pc) (todos : list (list pool_call)) :
    machine ThreadPool pool_pc :=
  Machine p 0 None (workers ++ (P_next <$> todos)).

Section pool.
Context {T : Task}.

(** * What the critical sections do *)

Lemma take_request_eq p :
  take_request p =
  match m_work_queue p with
  | [] => Done W_unlock_empty p
  | r :: q => Done (W_unlock r) p{{m_work_queue := q}}{{taken := taken p ++ [r] }}
  end.
Proof. unfold take_request, bind, gets. by destruct (m_work_queue p). Qed.

(** The state after a push, if it is defined. *)
Lemma push_request_inv c todo p k p' :
  push_request c todo p = Done k p' →
  (k = P_unlock_full todo ∧ p' = p) ∨
  (k = P_unlock c todo ∧ Z.of_nat (length (m_work_queue p)) < m_max_requests p ∧
   m_work_queue p' = m_work_queue p ++ [call_request c] ∧ m_max_requests p' = m_max_requests p ∧
   m_actor_mode p' = m_actor_mode p ∧ m_improv p' = m_improv p ∧ m_timer_flag p' = m_timer_flag p ∧
   appended p' = appended p ++ [call_request c] ∧ taken p' = taken p ∧ task_calls p' = task_calls p).
Proof.
  unfold push_request. intros H. done_inv H; [by left|].
  right. split; [done|]. split; [lia|]. destruct p.
  destruct c as [r st|r]; unfold set_m_state, set_queue, log_appended in *;
    done_inv H0; done_inv H1; done_inv H2; by split_and!.
Qed.

(** The state after a step of [run] that does not hold the lock: some calls
    have been made. *)
Definition quiet (p p' : ThreadPool) (cs : list (loc * task_call * bool)) : Prop :=
  m_work_queue p' = m_work_queue p ∧ m_max_requests p' = m_max_requests p ∧
  m_actor_mode p' = m_actor_mode p ∧ appended p' = appended p ∧ taken p' = taken p ∧
  task_calls p' = task_calls p ++ cs.
Definition failed (c : loc * task_call * bool) : option loc := if c.2 then None else Some c.1.1.

Lemma begin_run_inv r p k p' :
  begin_run r p = Done k p' → p' = p ∧
  match r with
  | None => k = W_wait
  | Some l => if m_actor_mode p =? 1 then k = W_read l ∨ k = W_write l else k = W_get l
  end.
Proof.
  unfold begin_run. destruct r as [l|]; intros H; done_inv H; simplify_eq/=; try done.
  split; [done|]. destruct (_ =? 1); [|done]. case_match; auto.
Qed.
Lemma run_io_inv c l p k p' :
  (c = Read_once ∧ run_read l p = Done k p') ∨ (c = Write ∧ run_write l p = Done k p') →
  let ok := task_reply (task_calls p) l c in
  quiet p p' [(l, c, ok)] ∧ m_improv p' = <[l:=1]> (m_improv p) ∧
  m_timer_flag p' = (if ok then m_timer_flag p else <[l:=1]> (m_timer_flag p)) ∧
  k = (if ok then if decide (c = Read_once) then W_get l else W_wait else W_wait).
Proof.
  unfold quiet, run_read, run_write, call_task, set_m_improv, set_m_timer_flag, bind, gets, modify, ret.
  intros [[-> H]|[-> H]]; destruct p; simpl in *; unfold constant in *;
    destruct (task_reply _ _ _); simplify_eq/=; by split_and!.
Qed.
Lemma call_task_quiet l c p : ∃ ok p',
  call_task l c p = Done ok p' ∧ quiet p p' [(l, c, ok)] ∧ m_improv p' = m_improv p ∧ m_timer_flag p' = m_timer_flag p.
Proof.
  destruct p. unfold call_task, bind, gets, modify, ret. do 2 eexists. split; [reflexivity|]. by split_and!.
Qed.
Lemma run_call_inv l c (k0 : pool_pc) p k p' :
  bind (call_task l c) (λ _, ret k0) p = Done k p' → k = k0 ∧ m_improv p' = m_improv p ∧ m_timer_flag p' = m_timer_flag p ∧
  ∃ ok, quiet p p' [(l, c, ok)].
Proof.
  unfold bind, ret. destruct (call_task_quiet l c p) as (ok & q & -> & Hq & Hi & Ht). intros [= <- <-].
  split_and!; [done..|by exists ok].
Qed.

(** * The lock, the semaphore and the steps *)

(** A step of [run] that does not hold the lock, and where it leads. *)
Definition runs_on (pc : pool_pc) (l : loc) (c : task_call) : Prop :=
  match pc with
  | W_read l' => l' = l ∧ c = Read_once
  | W_write l' => l' = l ∧ c = Write
  | W_get l' => l' = l ∧ c = GetConnection
  | W_process l' => l' = l ∧ c = Process
  | W_release l' => l' = l ∧ c = ReleaseConnection
  | _ => False
  end.
Definition runs_to (l : loc) (c : task_call) (ok : bool) : pool_pc :=
  match c with
  | Read_once => if ok then W_get l else W_wait
  | GetConnection => W_process l
  | Process => W_release l
  | Write | ReleaseConnection => W_wait
  end.
Definition is_io (c : task_call) : bool := bool_decide (c = Read_once) || bool_decide (c = Write).

(** Every call of a worker. *)
Lemma pool_call_inv pc l c m p k p' :
  runs_on pc l c → pool_code pc = IDo m → m p = Done k p' →
  ∃ ok, quiet p p' [(l, c, ok)] ∧ k = runs_to l c ok ∧
    m_improv p' = (if is_io c then <[l:=1]> (m_improv p) else m_improv p) ∧
    m_timer_flag p' = (if is_io c && negb ok then <[l:=1]> (m_timer_flag p) else m_timer_flag p).
Proof.
  destruct pc; intros Hr; try done; destruct Hr as [<- ->]; intros [= <-] Hm; simpl.
  1-2: (destruct (run_io_inv Read_once l0 p k p') as (Hq & Hi & Ht & Hk); [by left|]) ||
    (destruct (run_io_inv Write l0 p k p') as (Hq & Hi & Ht & Hk); [by right|]);
    eexists; split_and!; [exact Hq|by rewrite Hk; destruct (task_reply _ _ _)|exact Hi|
    by rewrite Ht; destruct (task_reply _ _ _)].
  all: apply run_call_inv in Hm as (-> & Hi & Ht & ok & Hq); exists ok; by split_and!.
Qed.
Lemma pool_call_total pc l c m p : runs_on pc l c → pool_code pc = IDo m → ∃ k p', m p = Done k p'.
Proof.
  destruct pc; intros Hr; try done; destruct Hr as [<- ->]; intros [= <-];
    unfold run_read, run_write, run_get, run_process, run_release, call_task, set_m_improv, set_m_timer_flag,
      bind, gets, modify, ret; try (do 2 eexists; reflexivity);
    simpl; destruct (task_reply _ _ _); do 2 eexists; reflexivity.
Qed.

(** The steps of [pool_code], for a proof by cases: one that makes a call, or
    one of those that do something else. *)
Ltac pool_steps pc := destruct pc as [| | | | |r|l|l|l|l|l|[|c todo]| | | | |[r state|r] todo]; simplify_eq/=; try done.
Ltac pool_call_step Hm :=
  match type of Hm with
  | run_read ?l _ = _ => eapply (pool_call_inv (W_read l) l Read_once) in Hm
  | run_write ?l _ = _ => eapply (pool_call_inv (W_write l) l Write) in Hm
  | run_get ?l _ = _ => eapply (pool_call_inv (W_get l) l GetConnection) in Hm
  | run_process ?l _ = _ => eapply (pool_call_inv (W_process l) l Process) in Hm
  | run_release ?l _ = _ => eapply (pool_call_inv (W_release l) l ReleaseConnection) in Hm
  end; [|done|done].

Definition pool_inside (pc : pool_pc) : bool :=
  match pc with
  | W_take | W_unlock_empty | W_unlock _ | P_check _ _ | P_unlock_full _ | P_unlock _ _ => true
  | _ => false
  end.
#[export, program] Instance pool_lock : LockDiscipline pool_code := {| inside := pool_inside |}.
Next Obligation.
  intros pc. pool_steps pc.
  all: intros q k q' Hm; try (pool_call_step Hm; destruct Hm as (ok & _ & -> & _); by destruct ok).
  - rewrite take_request_eq in Hm. destruct (m_work_queue q); naive_solver.
  - apply begin_run_inv in Hm as [_ Hk]. destruct r; [destruct (_ =? _)|]; naive_solver.
  - apply push_request_inv in Hm. naive_solver.
  - by done_inv Hm.
Qed.

(** A worker that passed [wait] has a claim on a request; a producer that
    appended one still has to announce it. *)
Definition pool_weight (pc : pool_pc) : nat :=
  match pc with W_lock | W_take | P_unlock _ _ | P_post _ _ => 1 | _ => 0 end.
#[export, program] Instance pool_sem : SemDiscipline pool_code :=
  {| items p := length (m_work_queue p); weight := pool_weight |}.
Next Obligation.
  intros pc. pool_steps pc.
  all: intros q k q' Hle Hm; try (pool_call_step Hm; destruct Hm as (ok & (-> & _) & -> & _); by destruct ok).
  - rewrite take_request_eq in Hm. destruct q as [[] ]; simplify_eq/=; unfold constant; lia.
  - apply begin_run_inv in Hm as [-> Hk]. destruct r; [destruct (_ =? _)|]; naive_solver.
  - apply push_request_inv in Hm as [(-> & ->)|(-> & _ & -> & _)]; simpl; [done|].
    rewrite length_app. simpl. lia.
  - by done_inv Hm.
Qed.

Definition pool_left (pc : pool_pc) : nat :=
  match pc with
  | W_wait => 0 | W_lock => 8 | W_take => 7 | W_unlock_empty => 6 | W_unlock _ => 6 | W_run _ => 5
  | W_read _ | W_write _ => 4 | W_get _ => 3 | W_process _ => 2 | W_release _ => 1
  | P_next todo => 20 * length todo
  | P_check _ todo => 20 * length todo + 19
  | P_unlock_full todo => 20 * length todo + 18
  | P_unlock _ todo => 20 * length todo + 18
  | P_post _ todo => 20 * length todo + 17
  | P_return _ todo => 20 * length todo + 1
  end.
#[export, program] Instance pool_potential : Potential pool_code :=
  {| cost := 9; left_ := pool_left |}.
Next Obligation.
  intros pc. pool_steps pc; try lia.
  all: intros q k q' Hm; try (pool_call_step Hm; destruct Hm as (ok & _ & -> & _); destruct ok; simpl; lia).
  - rewrite take_request_eq in Hm. destruct (m_work_queue q); simplify_eq/=; lia.
  - apply begin_run_inv in Hm as [_ Hk]. destruct r; [destruct (_ =? _)|]; naive_solver lia.
  - apply push_request_inv in Hm as [(-> & ->)|(-> & _)]; simpl; lia.
  - done_inv Hm. simpl. lia.
Qed.

(** * What has been called *)

Definition made (f : task_call → bool → bool) (q : ThreadPool) : list loc :=
  omap (λ '(l, c, ok), if f c ok then Some l else None) (task_calls q).
Definition calls (c : task_call) : ThreadPool → list loc := made (λ c' _, bool_decide (c' = c)).
(** [read_once] and [write], those that returned false, and the [read_once] that
    returned true. *)
Definition io_calls : ThreadPool → list loc := made (λ c _, is_io c).
Definition failed_io : ThreadPool → list loc := made (λ c ok, is_io c && negb ok).
Definition good_reads : ThreadPool → list loc := made (λ c ok, bool_decide (c = Read_once) && ok).
(** The requests that were taken and are not null. *)
Definition requests (q : ThreadPool) : list loc := omap id (taken q).

(** What the workers still have to call: [read_once] or [write], in the reactor
    mode; [GetConnection]; [Process]; [ReleaseConnection]. *)
Definition todo_io (reactor : bool) (pc : pool_pc) : list loc :=
  match pc with
  | W_read l | W_write l => [l]
  | W_unlock (Some l) | W_run (Some l) => if reactor then [l] else []
  | _ => []
  end.
Definition todo_get (reactor : bool) (pc : pool_pc) : list loc :=
  match pc with
  | W_get l => [l]
  | W_unlock (Some l) | W_run (Some l) => if reactor then [] else [l]
  | _ => []
  end.
Definition todo_process (pc : pool_pc) : list loc := match pc with W_process l => [l] | _ => [] end.
Definition todo_release (pc : pool_pc) : list loc := match pc with W_release l => [l] | _ => [] end.

(** In the reactor mode every request that was taken has been read or written
    once, or will be, and those that were read successfully are processed; in
    the other mode all are processed; between taking a connection and giving it
    back, once. *)
Record runs_inv (reactor : bool) (q : ThreadPool) (pcs : list pool_pc) : Prop := {
  ri_io : (if reactor then requests q else []) ≡ₚ io_calls q ++ (pcs ≫= todo_io reactor);
  ri_get : (if reactor then good_reads q else requests q) ≡ₚ calls GetConnection q ++ (pcs ≫= todo_get reactor);
  ri_process : calls GetConnection q ≡ₚ calls Process q ++ (pcs ≫= todo_process);
  ri_release : calls Process q ≡ₚ calls ReleaseConnection q ++ (pcs ≫= todo_release)
}.

(** A step that adds [dX] to what is due and [dY] to what was called. *)
Lemma flow (X X' Y Y' dX dY : list loc) (h : pool_pc → list loc) pcs i pc k :
  pcs !! i = Some pc → X ≡ₚ Y ++ (pcs ≫= h) →
  X' = X ++ dX → Y' = Y ++ dY → dX ++ h pc ≡ₚ dY ++ h k → X' ≡ₚ Y' ++ (<[i:=k]> pcs ≫= h).
Proof.
  intros Hp HX -> -> Hd. pose proof (bind_insert h pcs i pc k Hp) as Hb.
  apply (Permutation_app_inv_l (h pc)).
  rewrite (Permutation_app_comm (h pc) (X ++ dX)), <-app_assoc, Hd, HX, <-!app_assoc.
  rewrite (Permutation_app_comm (h pc)), <-!app_assoc, (Permutation_app_comm _ (h pc)), Hb.
  f_equiv. rewrite !app_assoc. rewrite (Permutation_app_comm _ dY), <-!app_assoc. f_equiv.
  apply Permutation_app_comm.
Qed.
Lemma made_snoc f q q' l c ok :
  task_calls q' = task_calls q ++ [(l, c, ok)] → made f q' = made f q ++ (if f c ok then [l] else []).
Proof. intros Hq. unfold made. rewrite Hq, omap_app. simpl. by destruct (f c ok). Qed.
Lemma made_same f q q' : task_calls q' = task_calls q → made f q' = made f q.
Proof. intros Hq. unfold made. by rewrite Hq. Qed.
Lemma requests_snoc q q' r : taken q' = taken q ++ [r] → requests q' = requests q ++ (match r with Some l => [l] | None => [] end).
Proof. intros Hq. unfold requests. rewrite Hq, omap_app. by destruct r. Qed.

Ltac flow_by R dX dY := eapply (flow _ _ _ _ dX dY); [done|exact R|..].
(** A thread that only moves on. *)
Lemma runs_same m q q' pcs i pc k :
  pcs !! i = Some pc → taken q' = taken q → task_calls q' = task_calls q →
  todo_io m k = todo_io m pc → todo_get m k = todo_get m pc →
  todo_process k = todo_process pc → todo_release k = todo_release pc →
  runs_inv m q pcs → runs_inv m q' (<[i:=k]> pcs).
Proof.
  intros Hp Ht Hc H1 H2 H3 H4 [R1 R2 R3 R4]. unfold calls, io_calls, good_reads, requests in *.
  constructor; unfold calls, io_calls, good_reads, requests; rewrite ?(made_same _ _ _ Hc), ?Ht.
  - flow_by R1 (@nil loc) (@nil loc); rewrite ?app_nil_r; [done..|]. by rewrite H1.
  - flow_by R2 (@nil loc) (@nil loc); rewrite ?app_nil_r; [done..|]. by rewrite H2.
  - flow_by R3 (@nil loc) (@nil loc); rewrite ?app_nil_r; [done..|]. by rewrite H3.
  - flow_by R4 (@nil loc) (@nil loc); rewrite ?app_nil_r; [done..|]. by rewrite H4.
Qed.
(** A worker that takes a request. *)
Lemma runs_take m q q' pcs i r :
  pcs !! i = Some W_take → taken q' = taken q ++ [r] → task_calls q' = task_calls q →
  runs_inv m q pcs → runs_inv m q' (<[i:=W_unlock r]> pcs).
Proof.
  intros Hp Ht Hc [R1 R2 R3 R4]. unfold calls, io_calls, good_reads in *.
  set (d := match r with Some l => [l] | None => [] end).
  constructor; unfold calls, io_calls, good_reads; rewrite ?(made_same _ _ _ Hc).
  - flow_by R1 (if m then d else []) (@nil loc); rewrite ?app_nil_r; [|done| ].
    + destruct m; [by apply requests_snoc|done].
    + destruct r, m; done.
  - flow_by R2 (if m then [] else d) (@nil loc); rewrite ?app_nil_r; [|done| ].
    + destruct m; [by rewrite app_nil_r|by apply requests_snoc].
    + destruct r, m; done.
  - flow_by R3 (@nil loc) (@nil loc); rewrite ?app_nil_r; [done|done| ]. by destruct r.
  - flow_by R4 (@nil loc) (@nil loc); rewrite ?app_nil_r; [done|done| ]. by destruct r.
Qed.
(** Requests are read and written in the reactor mode only. *)
Lemma runs_io m q pcs i pc l c :
  pcs !! i = Some pc → runs_on pc l c → is_io c = true → runs_inv m q pcs → m = true.
Proof.
  intros Hp Hr Hc [R1 _ _ _]. destruct m; [done|]. exfalso.
  apply (not_elem_of_nil l). rewrite R1. apply elem_of_app. right. apply list_elem_of_bind. exists pc.
  split; [|by eapply list_elem_of_lookup_2]. destruct pc; try done; destruct Hr as [<- ->]; try done; left.
Qed.
Lemma runs_call m q q' pcs i pc l c ok :
  pcs !! i = Some pc → runs_on pc l c → quiet q q' [(l, c, ok)] →
  runs_inv m q pcs → runs_inv m q' (<[i:=runs_to l c ok]> pcs).
Proof.
  intros Hp Hr (_ & _ & _ & _ & Ht & Hc) Hi. assert (is_io c = true → m = true) as Hm by (intros; by eapply runs_io).
  assert (requests q' = requests q) as Hq by (unfold requests; by rewrite Ht).
  destruct Hi as [R1 R2 R3 R4]. unfold calls, io_calls, good_reads in *.
  constructor; unfold calls, io_calls, good_reads; rewrite ?Hq, ?(made_snoc _ _ _ _ _ _ Hc).
  - flow_by R1 (@nil loc) (if is_io c then [l] else []); [by rewrite app_nil_r|done| ].
    destruct pc; try done; destruct Hr as [<- ->]; destruct ok, m; simpl in *; by specialize (Hm eq_refl) || done.
  - flow_by R2 (if m && bool_decide (c = Read_once) && ok then [l] else []) (if bool_decide (c = GetConnection) then [l] else []);
      [by destruct m; simpl; rewrite ?app_nil_r|done| ].
    destruct pc; try done; destruct Hr as [<- ->]; destruct ok, m; simpl in *; by specialize (Hm eq_refl) || done.
  - flow_by R3 (if bool_decide (c = GetConnection) then [l] else []) (if bool_decide (c = Process) then [l] else []);
      [done|done| ].
    destruct pc; try done; destruct Hr as [<- ->]; by destruct ok.
  - flow_by R4 (if bool_decide (c = Process) then [l] else []) (if bool_decide (c = ReleaseConnection) then [l] else []);
      [done|done| ].
    destruct pc; try done; destruct Hr as [<- ->]; by destruct ok.
Qed.

(** * The invariant *)

(** The requests whose flags have been set are those that were read or written,
    and those where that failed. *)
Definition flags_ok (q : ThreadPool) : Prop :=
  dom (m_improv q) = list_to_set (io_calls q) ∧ dom (m_timer_flag q) = list_to_set (failed_io q).
(** The shared data, for a pool that was constructed as [p]. *)
Record data_inv (p q : ThreadPool) : Prop := {
  di_max : m_max_requests q = m_max_requests p;
  di_mode : m_actor_mode q = m_actor_mode p;
  di_fits : Z.of_nat (length (m_work_queue q)) ≤ m_max_requests p;
  di_order : appended q = taken q ++ m_work_queue q;
  di_flags : flags_ok q
}.

Record pool_inv (p : ThreadPool) (s : machine ThreadPool pool_pc) : Prop := {
  pi_mutex : mutex_inv pool_code s;
  pi_sem : sem_inv pool_code s;
  pi_owner i : mc_owner s = Some i → (i < length (mc_pcs s))%nat;
  pi_awake : W_unlock_empty ∉ mc_pcs s;
  pi_data : data_inv p (mc_obj s);
  pi_runs : runs_inv (m_actor_mode p =? 1) (mc_obj s) (mc_pcs s)
}.

Lemma flags_call q q' l c ok :
  quiet q q' [(l, c, ok)] →
  m_improv q' = (if is_io c then <[l:=1]> (m_improv q) else m_improv q) →
  m_timer_flag q' = (if is_io c && negb ok then <[l:=1]> (m_timer_flag q) else m_timer_flag q) →
  flags_ok q → flags_ok q'.
Proof.
  intros (_ & _ & _ & _ & _ & Hc) Hi Ht [H1 H2]. unfold flags_ok, io_calls, failed_io in *.
  rewrite Hi, Ht, !(made_snoc _ _ _ _ _ _ Hc), !list_to_set_app_L. split.
  - destruct (is_io c); rewrite ?dom_insert_L, H1; set_solver.
  - destruct (is_io c && negb ok); rewrite ?dom_insert_L, H2; set_solver.
Qed.
Lemma flags_same q q' :
  task_calls q' = task_calls q → m_improv q' = m_improv q → m_timer_flag q' = m_timer_flag q → flags_ok q → flags_ok q'.
Proof. intros Hc Hi Ht [H1 H2]. unfold flags_ok, io_calls, failed_io in *. by rewrite Hi, Ht, !(made_same _ _ _ Hc). Qed.

(** Steps that leave the data alone. *)
Lemma pool_code_pc m pc :
  match pool_code pc with
  | IWait k | IPost k | ILock k | IUnlock k => k ≠ W_unlock_empty ∧
      todo_io m k = todo_io m pc ∧ todo_get m k = todo_get m pc ∧
      todo_process k = todo_process pc ∧ todo_release k = todo_release pc
  | _ => True
  end.
Proof. pool_steps pc. Qed.

(** And those that do not. *)
Lemma pool_code_do p pcs i pc m q k q' :
  data_inv p q → runs_inv (m_actor_mode p =? 1) q pcs → pcs !! i = Some pc →
  pool_code pc = IDo m → m q = Done k q' → (pool_weight pc ≤ length (m_work_queue q))%nat →
  k ≠ W_unlock_empty ∧ data_inv p q' ∧ runs_inv (m_actor_mode p =? 1) q' (<[i:=k]> pcs).
Proof.
  intros [D1 D2 D3 D4 D5] Hr Hp Hc Hm Hw. pose proof Hc as Hc0. pose proof Hm as Hm0.
  assert (∀ l c, runs_on pc l c →
    k ≠ W_unlock_empty ∧ data_inv p q' ∧ runs_inv (m_actor_mode p =? 1) q' (<[i:=k]> pcs)) as Hcall.
  { intros l c Hon. destruct (pool_call_inv _ _ _ _ _ _ _ Hon Hc0 Hm0) as (ok & Hq & -> & Hi & Ht).
    split; [by destruct c, ok|]. split; [|by eapply runs_call].
    pose proof Hq as (F1 & F2 & F3 & F4 & F5 & _). constructor; try congruence. by eapply flags_call. }
  pool_steps pc; try by eapply Hcall.
  - rewrite take_request_eq in Hm. destruct (m_work_queue q) as [|r qs] eqn:Eq; [simpl in Hw; lia|].
    injection Hm as <- <-. split; [done|]. destruct q. simpl in *. subst. unfold constant. split.
    + constructor; simpl; try done; [lia|]. by rewrite <- app_assoc.
    + eapply runs_take; [done| | |exact Hr]; done.
  - apply begin_run_inv in Hm as [-> Hk]. rewrite D2 in Hk.
    assert (k ≠ W_unlock_empty ∧ todo_io (m_actor_mode p =? 1) k = todo_io (m_actor_mode p =? 1) (W_run r) ∧
      todo_get (m_actor_mode p =? 1) k = todo_get (m_actor_mode p =? 1) (W_run r) ∧
      todo_process k = [] ∧ todo_release k = []) as (Hk0 & H1 & H2 & H3 & H4).
    { destruct r as [l|]; [|by subst k]. destruct (_ =? 1); [by destruct Hk as [-> | ->]|by subst k]. }
    split; [done|]. split; [done|]. by eapply runs_same.
  - apply push_request_inv in Hm as [(-> & ->)|(-> & Hlt & F1 & F2 & F3 & F4 & F5 & F6 & F7 & F8)].
    + split; [done|]. split; [done|]. by eapply runs_same.
    + split; [done|]. split; [|by eapply runs_same]. constructor; try congruence.
      * rewrite F1, length_app. simpl. lia.
      * by rewrite F6, F1, F7, D4, <- app_assoc.
      * by eapply flags_same.
  - done_inv Hm. split; [done|]. split; [done|]. by eapply runs_same.
Qed.

Lemma awake_insert (pcs : list pool_pc) i k :
  W_unlock_empty ∉ pcs → k ≠ W_unlock_empty → W_unlock_empty ∉ <[i:=k]> pcs.
Proof.
  intros Ha Hk [j Hj]%list_elem_of_lookup. apply list_lookup_insert_Some in Hj as [(_ & ? & _)|[_ Hj]]; [done|].
  by eapply Ha, list_elem_of_lookup_2.
Qed.

Lemma pool_inv_step p s s' : pool_inv p s → mstep pool_code s s' → pool_inv p s'.
Proof.
  intros Hi Hs. pose proof (mutex_step _ _ _ (pi_mutex _ _ Hi) Hs) as Hm.
  pose proof (sem_step _ _ _ (pi_sem _ _ Hi) Hs) as Hsem.
  destruct Hi as [Hmi Hse Hown Haw Hdata Hrun].
  destruct Hs as [q n o pcs i pc k Hp Hc|q n o pcs i pc k Hp Hc|q n pcs i pc k Hp Hc|
    q n pcs i pc k Hp Hc|q n o pcs i pc m k q' Hp Hc Hd]; simpl in *;
    pose proof (lookup_lt_Some _ _ _ Hp) as Hlt.
  1-4: pose proof (pool_code_pc (m_actor_mode p =? 1) pc) as Hk; rewrite Hc in Hk;
    destruct Hk as (Hk & H1 & H2 & H3 & H4);
    (constructor; simpl; [done|done| |by apply awake_insert|done|by eapply runs_same]);
    rewrite length_insert; naive_solver.
  destruct (pool_code_do p pcs i pc m q k q') as (Hk & Hdata' & Hrun'); try done.
  { unfold sem_inv in Hse. simpl in Hse. pose proof (total_elem pool_weight pcs i pc Hp). lia. }
  constructor; simpl; [done|done|rewrite length_insert; done|by apply awake_insert|done|done].
Qed.

Lemma pool_inv_steps p s s' : pool_inv p s → rtc (mstep pool_code) s s' → pool_inv p s'.
Proof. intros Hi Hs. revert Hi. induction Hs; [done|]. eauto using pool_inv_step. Qed.

Lemma pool_inv_start p ws am n mx st todos :
  ThreadPool_new am n mx st = inl (p, ws) → pool_inv p (pool_start p ws todos).
Proof.
  unfold ThreadPool_new. intros Hnew. destruct (_ || _) eqn:E; simplify_eq.
  apply orb_false_iff in E as [_ Hmx%Z.leb_gt].
  set (p := Pool _ _ _ _ _ _ _ _ _) in *.
  assert (∀ pc, pc ∈ replicate (Z.to_nat n) W_wait ++ (P_next <$> todos) →
    pc = W_wait ∨ ∃ todo, pc = P_next todo) as Hpcs.
  { intros pc [->%elem_of_replicate_inv|(t & -> & Hin)%list_elem_of_fmap]%elem_of_app; [by left|]. eauto. }
  assert (∀ h : pool_pc → list loc, (∀ todo, h (P_next todo) = []) → h W_wait = [] →
    (replicate (Z.to_nat n) W_wait ++ (P_next <$> todos)) ≫= h = []) as Hb.
  { intros h H1 H2. apply bind_nil. intros pc [->|[t ->]]%Hpcs; done. }
  constructor; simpl; try done.
  - intros i pc Hp%list_elem_of_lookup_2. by destruct (Hpcs pc Hp) as [->|(t & ->)].
  - unfold sem_inv. simpl. apply total_0. intros pc Hp. by destruct (Hpcs pc Hp) as [->|(t & ->)].
  - intros Hin. by destruct (Hpcs _ Hin) as [?|(? & ?)].
  - constructor; simpl; try done. lia.
  - constructor; rewrite Hb by done; by destruct (am =? 1).
Qed.

(** * What is undefined *)

(** A thread at the end of an [append] that succeeded, which returns no value;
    at [append] of a null pointer to a queue that is not full; or at a request
    whose [m_state] never got a value. *)
Definition undefined_at (q : ThreadPool) (pc : pool_pc) : Prop :=
  match pc with
  | P_return (Append _ _) _ => True
  | P_check (Append None _) _ => Z.of_nat (length (m_work_queue q)) < m_max_requests q
  | W_run (Some l) => m_actor_mode q = 1 ∧ m_states q !! l = None
  | _ => False
  end.

Lemma pool_do_total pc m q :
  pool_code pc = IDo m → (m q = Undef ∧ undefined_at q pc) ∨ (∃ k q', m q = Done k q') ∧ ¬ undefined_at q pc.
Proof.
  intros Hc. assert (∀ l c, runs_on pc l c → (∃ k q', m q = Done k q') ∧ ¬ undefined_at q pc) as Hcall.
  { intros l c Hon. split; [by eapply pool_call_total|]. intros Hu. by destruct pc. }
  pool_steps pc; try (right; by eapply Hcall).
  - right. split; [|by intros []]. rewrite take_request_eq. destruct (m_work_queue q); eauto.
  - unfold begin_run, bind, gets, need, ret. destruct r as [l|]; [|right; split; [eauto|by intros []]].
    destruct (Z.eqb_spec (m_actor_mode q) 1) as [E|E]; [|right; split; [eauto|by intros []]].
    destruct (m_states q !! l) eqn:El; [right|left]; simpl; split; try done; [eauto|].
    intros [_ ?]. congruence.
  - unfold push_request, bind, gets. destruct (Z.of_nat _ >=? _) eqn:E.
    + right. split; [do 2 eexists; reflexivity|]. destruct c as [[l|] st|r]; simpl; [tauto|lia|tauto].
    + destruct c as [[l|] st|r]; [right|left|right]; (split; [first [do 2 eexists; reflexivity|reflexivity]|simpl; first [tauto|lia]]).
  - by left.
  - right. split; [eauto|tauto].
Qed.

Lemma pool_crashed p s :
  pool_inv p s → mcrashed pool_code s ↔ ∃ pc, pc ∈ mc_pcs s ∧ undefined_at (mc_obj s) pc.
Proof.
  intros Hi. split.
  - intros (i & pc & Hp & Hcr). destruct Hcr as [(m & Hc & Hu)|(k & Hc & Ho)].
    + exists pc. split; [by eapply list_elem_of_lookup_2|].
      destruct (pool_do_total pc m (mc_obj s) Hc) as [[_ ?]|[(k & q' & Hd) _]]; [done|congruence].
    + destruct Ho. apply (pi_mutex _ _ Hi _ _ Hp). pose proof (inside_ok pool_code pc) as Hin.
      rewrite Hc in Hin. by destruct Hin.
  - intros (pc & [i Hp]%list_elem_of_lookup & Hu). exists i, pc. split; [done|]. left.
    destruct (pool_code pc) as [k|k|k|k|m|] eqn:Hc; try (pool_steps pc; done).
    exists m. split; [done|]. by destruct (pool_do_total pc m (mc_obj s) Hc) as [[? _]|[_ []]].
Qed.

(** * Workers stay workers *)

Definition is_worker (pc : pool_pc) : bool :=
  match pc with
  | P_next _ | P_check _ _ | P_unlock_full _ | P_unlock _ _ | P_post _ _ | P_return _ _ => false
  | _ => true
  end.
Lemma is_worker_step s s' :
  mstep pool_code s s' → is_worker <$> mc_pcs s' = is_worker <$> mc_pcs s.
Proof.
  intros Hs. assert (∃ i pc k, mc_pcs s !! i = Some pc ∧ mc_pcs s' = <[i:=k]> (mc_pcs s) ∧
    is_worker k = is_worker pc) as (i & pc & k & Hp & -> & Hk).
  { destruct Hs as [q n o pcs i pc k Hp Hc|q n o pcs i pc k Hp Hc|q n pcs i pc k Hp Hc|
      q n pcs i pc k Hp Hc|q n o pcs i pc m k q' Hp Hc Hm]; simpl; exists i, pc, k;
      (split; [done|split; [done|]]); pool_steps pc;
      try (pool_call_step Hm; destruct Hm as (ok & _ & -> & _); by destruct ok).
    - rewrite take_request_eq in Hm. by destruct (m_work_queue q); simplify_eq/=.
    - apply begin_run_inv in Hm as [_ Hk]. destruct r; [destruct (_ =? _)|]; naive_solver.
    - apply push_request_inv in Hm. naive_solver.
    - by done_inv Hm. }
  rewrite list_fmap_insert, Hk. apply list_insert_id. by rewrite list_lookup_fmap, Hp.
Qed.
Lemma is_worker_steps s s' :
  rtc (mstep pool_code) s s' → is_worker <$> mc_pcs s' = is_worker <$> mc_pcs s.
Proof. induction 1 as [|s s1 s' H1 _ IH]; [done|]. rewrite IH. by apply is_worker_step. Qed.

(** * The theorems *)


End pool.
