(* ===== verification/ConnectionPool.v ===== *)
(** The pool of database connections of
    src/TinyWebServer/CGImysql/sql_connection_pool.cpp, and the scopes
    ([ConnectionRAII]) in which threads use its connections. The semaphore of
    the pool is a copy of one that was destroyed, so that nobody can get a
    connection; and a pool that has connections cannot be destroyed. *)
From stdpp Require Import gmap list relations.
From coqutil Require Import Datatypes.RecordSetters.
From S2P Require Import Prelude Threads.
Export RecordSetters.DoubleBraceUpdate.
#[global] Open Scope Z_scope.

(** What the MySQL library answers to the [i]-th pair of calls of [init]: the
    handle, and whether the connection could be made. *)
Class MySQL := {
  mysql_init : Z → ptr;
  mysql_real_connect : Z → loc → bool
}.

(** The pool; whether its semaphore [reserve] is one that [sem_init] made at its
    place, which is what [sem_wait] and [sem_post] need; and what happened so
    far: the connection each scope was given, and the connections that were
    closed. *)
Record ConnectionPool := ConnPool {
  reserve_usable : bool;
  m_max_conn : Z;
  m_cur_conn : Z;
  m_free_conn : Z;
  conn_list : list loc;
  given : list ptr;
  closed : list loc
}.
Definition CM := M ConnectionPool.

(** [ConnectionPool()]; [m_max_conn] has no value yet. *)
Definition ConnectionPool_new : ConnectionPool := ConnPool true 0 0 0 [] [] [].

(** [init]: [max_conn] connections, or the end of the process. Then
    [reserve = Sem(m_free_conn)]: the assignment copies the [sem_t] of a
    temporary object, whose destructor destroys it; neither the copy nor what it
    replaces can be used as a semaphore any more. *)
Section init.
Context `{MySQL}.

Definition init_one (i : Z) : CM unit :=
  match mysql_init i with
  | None => exit 1
  | Some conn =>
      if mysql_real_connect i conn
      then modify (λ p, p{{conn_list := conn_list p ++ [conn] }}{{m_free_conn := m_free_conn p + 1}})
      else exit 1
  end.
Fixpoint init_from (i : Z) (n : nat) : CM unit :=
  match n with
  | O => ret tt
  | S n => init_one i;; init_from (i + 1) n
  end.
Definition init (max_conn : Z) : CM Z :=
  init_from 0 (Z.to_nat max_conn);;
  reserve ← gets m_free_conn;
  modify (λ p, p{{reserve_usable := false}}{{m_max_conn := m_free_conn p}});;
  ret reserve.
End init.

(** Where a thread is that opens [n] more scopes: in [GetConnection], in the
    scope with what it was given, or in [ReleaseConnection]. *)
Inductive conn_pc :=
| C_next (n : nat)
| C_sem (n : nat) | C_wait (n : nat) | C_lock (n : nat) | C_take (n : nat) | C_unlock (conn : loc) (n : nat)
| C_scope (conn_RAII : ptr) (n : nat)
| C_put_lock (conn : loc) (n : nat) | C_put (conn : loc) (n : nat)
| C_put_unlock (n : nat) | C_sem_post (n : nat) | C_post (n : nat).

#[export] Instance conn_pc_eq_dec : EqDecision conn_pc.
Proof. solve_decision. Defined.

(** [if (conn_list.size() == 0) return NULL], before the lock is taken: a data
    race if another thread were changing the list, but none ever does, as
    [GetConnection_undefined] shows. *)
Definition check_size (n : nat) : CM conn_pc :=
  l ← gets conn_list; ret (if (length l =? 0)%nat then C_scope None n else C_sem n).

(** [reserve.wait()] and [reserve.post()] of a semaphore that is none. *)
Definition use_reserve (k : conn_pc) : CM conn_pc :=
  ok ← gets reserve_usable; if ok : bool then ret k else undef.

(** The part of [GetConnection] that holds the lock; [front] of an empty list is
    undefined. *)
Definition take_conn (n : nat) : CM conn_pc :=
  l ← gets conn_list;
  match l with
  | [] => undef
  | conn :: l =>
      modify (λ p, p{{conn_list := l}}{{m_free_conn := m_free_conn p - 1}}
                    {{m_cur_conn := m_cur_conn p + 1}});;
      ret (C_unlock conn n)
  end.

(** The scope's body, whatever it does with its connection, and the start of
    [~ConnectionRAII]. *)
Definition use_conn (o : ptr) (n : nat) : CM conn_pc :=
  modify (λ p, p{{given := given p ++ [o] }});;
  ret (match o with None => C_next n | Some conn => C_put_lock conn n end).

(** The part of [ReleaseConnection] that holds the lock. *)
Definition put_conn (conn : loc) (n : nat) : CM conn_pc :=
  modify (λ p, p{{conn_list := conn_list p ++ [conn] }}{{m_free_conn := m_free_conn p + 1}}
                {{m_cur_conn := m_cur_conn p - 1}});;
  ret (C_put_unlock n).

Definition conn_code (pc : conn_pc) : instr ConnectionPool conn_pc :=
  match pc with
  | C_next O => IHalt
  | C_next (S n) => IDo (check_size n)
  | C_sem n => IDo (use_reserve (C_wait n))
  | C_wait n => IWait (C_lock n)
  | C_lock n => ILock (C_take n)
  | C_take n => IDo (take_conn n)
  | C_unlock conn n => IUnlock (C_scope (Some conn) n)
  | C_scope o n => IDo (use_conn o n)
  | C_put_lock conn n => ILock (C_put conn n)
  | C_put conn n => IDo (put_conn conn n)
  | C_put_unlock n => IUnlock (C_sem_post n)
  | C_sem_post n => IDo (use_reserve (C_post n))
  | C_post n => IPost (C_next n)
  end.

(** The threads that use an initialised pool. *)
Definition conn_start (p : ConnectionPool) (reserve : Z) (scopes : list nat) :
    machine ConnectionPool conn_pc :=
  Machine p (Z.to_nat reserve) None (C_next <$> scopes).

(** * [DestroyPool] *)

Inductive destroy_pc := D_lock | D_close | D_unlock_inner | D_unlock | D_done.

Definition close_all : CM destroy_pc :=
  l ← gets conn_list;
  if (length l =? 0)%nat then ret D_unlock else
  modify (λ p, p{{closed := closed p ++ l}}{{m_cur_conn := 0}}{{m_free_conn := 0}}
                {{conn_list := [] }});;
  ret D_unlock_inner.

Definition destroy_code (pc : destroy_pc) : instr ConnectionPool destroy_pc :=
  match pc with
  | D_lock => ILock D_close
  | D_close => IDo close_all
  | D_unlock_inner => IUnlock D_unlock
  | D_unlock => IUnlock D_done
  | D_done => IHalt
  end.

(** * Initialisation *)

Section init.
Context {M : MySQL}.

(** The first [n] handles from the [i]-th on, if every connection can be made. *)
Fixpoint handles (i : Z) (n : nat) : option (list loc) :=
  match n with
  | O => Some []
  | S n => c ← mysql_init i; guard (mysql_real_connect i c = true);; (c ::.) <$> handles (i + 1) n
  end%stdpp.

Lemma init_from_eq i n p :
  match handles i n with
  | Some cs => ∃ p', init_from i n p = Done tt p' ∧ conn_list p' = conn_list p ++ cs ∧
      m_free_conn p' = m_free_conn p + Z.of_nat (length cs) ∧ m_cur_conn p' = m_cur_conn p ∧
      given p' = given p
  | None => ∃ p', init_from i n p = Exited 1 p'
  end.
Proof.
  revert i p. induction n as [|n IH]; intros i p; simpl.
  { exists p. rewrite app_nil_r. split_and!; try done. lia. }
  unfold bind at 2, init_one. destruct (mysql_init i) as [c|] eqn:E1; simpl; [|by eexists].
  destruct (mysql_real_connect i c) eqn:E2; simpl; [|by eexists].
  set (p1 := ConnPool _ _ _ _ _ _ _). specialize (IH (i + 1) p1).
  destruct (handles (i + 1) n) as [cs|]; simpl; [|done].
  destruct IH as (p' & H1 & H2 & H3 & H4 & H5). exists p'. unfold modify. split; [done|].
  subst p1. destruct p; simpl in *. unfold constant in *. split_and!; try done; [by rewrite H2, <- app_assoc|lia].
Qed.

Lemma init_inv mx r p :
  init mx ConnectionPool_new = Done r p →
  handles 0 (Z.to_nat mx) = Some (conn_list p) ∧ r = Z.of_nat (length (conn_list p)) ∧
  reserve_usable p = false ∧ given p = [].
Proof.
  unfold init, bind, gets, modify, ret. pose proof (init_from_eq 0 (Z.to_nat mx) ConnectionPool_new) as Hi.
  destruct (handles 0 _) as [cs|]; [destruct Hi as (p' & -> & H1 & H2 & H3 & H4)|
    destruct Hi as [p' ->]; done]. simpl in *.
  intros Hd. destruct p'. simpl in *. unfold constant in *. simplify_eq/=. by split_and!.
Qed.
Lemma handles_length i n cs : handles i n = Some cs → length cs = n.
Proof.
  revert i cs. induction n as [|n IH]; intros i cs Hh; simplify_eq/=; [done|].
  destruct (mysql_init i) as [d|]; simplify_eq/=. case_guard; simplify_eq/=.
  apply fmap_Some in Hh as (ds & Hd & ->). simpl. f_equal. by eapply IH.
Qed.
End init.

(** * Threads that use the pool *)

Lemma check_size_eq n p :
  check_size n p = Done (if decide (conn_list p = []) then C_scope None n else C_sem n) p.
Proof. unfold check_size, bind, gets, ret. by destruct (conn_list p). Qed.
Lemma use_reserve_eq k p : use_reserve k p = if reserve_usable p then Done k p else Undef.
Proof. unfold use_reserve, bind, gets, ret, undef. by destruct (reserve_usable p). Qed.

(** The points threads reach, and the scopes that are still to be entered. *)
Definition pc_ok (conns : list loc) (pc : conn_pc) : Prop :=
  match pc with
  | C_next _ => True
  | C_scope None _ => conns = []
  | C_sem _ => conns ≠ []
  | _ => False
  end.
Definition scopes_left (pc : conn_pc) : nat :=
  match pc with C_next n => n | C_scope _ n | C_sem n => S n | _ => 0 end.

(** A pool that [init] made with the connections [conns]. *)
Record conn_inv (conns : list loc) (todo : nat) (s : machine ConnectionPool conn_pc) : Prop := {
  ci_reserve : reserve_usable (mc_obj s) = false;
  ci_list : conn_list (mc_obj s) = conns;
  ci_pcs : Forall (pc_ok conns) (mc_pcs s);
  ci_given : Forall (.= None) (given (mc_obj s)) ∧ (conns ≠ [] → given (mc_obj s) = []);
  ci_owner : mc_owner s = None;
  ci_todo : (length (given (mc_obj s)) + total scopes_left (mc_pcs s) = todo)%nat
}.

Lemma conn_inv_step conns todo s s' : conn_inv conns todo s → mstep conn_code s s' → conn_inv conns todo s'.
Proof.
  intros [Hr Hl Hok [Hg Hg'] Ho Ht] Hs.
  destruct Hs as [q n o pcs i pc k Hp Hc|q n o pcs i pc k Hp Hc|q n pcs i pc k Hp Hc|
    q n pcs i pc k Hp Hc|q n o pcs i pc m k q' Hp Hc Hm]; simpl in *;
    pose proof (Forall_lookup_1 _ _ _ _ Hok Hp) as Hpc; pose proof (total_insert scopes_left pcs i pc k Hp) as Htot;
    destruct pc as [[|j]|j| | | | |[conn|] j| | | | |]; simplify_eq/=; try done.
  - rewrite check_size_eq in Hm. case_decide; simplify_eq/=; constructor; simpl; try done; try lia;
      by apply Forall_insert.
  - by rewrite use_reserve_eq, Hr in Hm.
  - destruct q as [us mx cur fr l gv cl]. simpl in *. subst. unfold use_conn, bind, modify, ret in Hm. simplify_eq/=.
    constructor; simpl; unfold constant; try done.
    + by apply Forall_insert.
    + split; [by apply Forall_app; split; [|constructor]|done].
    + rewrite length_app. simpl. lia.
Qed.
Lemma conn_inv_steps conns todo s s' :
  conn_inv conns todo s → rtc (mstep conn_code) s s' → conn_inv conns todo s'.
Proof. intros Hi Hs. revert Hi. induction Hs; [done|]. eauto using conn_inv_step. Qed.

Lemma init_conn_inv {M : MySQL} mx r p scopes :
  init mx ConnectionPool_new = Done r p →
  conn_inv (conn_list p) (sum_list scopes) (conn_start p r scopes).
Proof.
  intros (_ & -> & Hr & Hg)%init_inv. constructor; simpl; try done.
  - apply Forall_fmap, Forall_true. done.
  - by rewrite Hg.
  - rewrite Hg. unfold total. rewrite <- list_fmap_compose. simpl. f_equal. apply list_fmap_id.
Qed.

Lemma conn_crashed conns todo s :
  conn_inv conns todo s → mcrashed conn_code s ↔ ∃ n, C_sem n ∈ mc_pcs s.
Proof.
  intros Hi. split.
  - intros (i & pc & Hp & Hc). pose proof (Forall_lookup_1 _ _ _ _ (ci_pcs _ _ _ Hi) Hp) as Hpc.
    destruct Hc as [(m & Hc & Hu)|(k & Hc & _)];
      destruct pc as [[|j]|j| | | | |[conn|] j| | | | |]; simplify_eq/=; try done.
    exists j. by eapply list_elem_of_lookup_2.
  - intros (n & [i Hp]%list_elem_of_lookup). exists i, (C_sem n). split; [done|]. left.
    eexists. split; [done|]. by rewrite use_reserve_eq, (ci_reserve _ _ _ Hi).
Qed.

(** When no thread can move, each is done or at the semaphore. *)
Lemma conn_stuck conns todo s :
  conn_inv conns todo s → stuck conn_code s → ∀ pc, pc ∈ mc_pcs s → pc = C_next 0 ∨ ∃ n, pc = C_sem n.
Proof.
  intros Hi Hst pc [i Hp]%list_elem_of_lookup. pose proof (Forall_lookup_1 _ _ _ _ (ci_pcs _ _ _ Hi) Hp) as Hpc.
  destruct s as [q n o pcs]. simpl in *.
  destruct pc as [[|j]|j| | | | |[conn|] j| | | | |]; try done; [by left| |by right; eauto|];
    exfalso; by eapply Hst, mstep_do.
Qed.

(** C10: No thread ever gets a connection from a pool that [init] has set up,
    however many threads open scopes and however their steps interleave: if the
    pool has a connection, the first [GetConnection] is undefined, because it
    waits for a semaphore that is a copy of one that was destroyed, so that no
    scope is ever entered; if it has none, nothing undefined happens and every
    scope gets a null pointer. *)
Theorem GetConnection_undefined {M : MySQL} mx r p scopes s :
  init mx ConnectionPool_new = Done r p →
  rtc (mstep conn_code) (conn_start p r scopes) s →
  length (conn_list p) = Z.to_nat mx ∧ conn_list (mc_obj s) = conn_list p ∧
  (∀ o, o ∈ given (mc_obj s) → o = None) ∧
  (0 < mx → given (mc_obj s) = [] ∧ (mcrashed conn_code s ↔ ∃ n, C_sem n ∈ mc_pcs s) ∧
    (stuck conn_code s → mcrashed conn_code s ∨ sum_list scopes = 0%nat)) ∧
  (mx ≤ 0 → ¬ mcrashed conn_code s ∧
    (stuck conn_code s → given (mc_obj s) = replicate (sum_list scopes) None)).
Proof.
  intros Hinit Hs. pose proof (conn_inv_steps _ _ _ _ (init_conn_inv _ _ _ scopes Hinit) Hs) as Hi.
  apply init_inv in Hinit as (Hh%handles_length & _). pose proof (conn_crashed _ _ _ Hi) as Hcr.
  pose proof Hi as [_ Hl Hok [Hg Hg'] _ Ht].
  assert (∀ pc, pc ∈ mc_pcs s → pc_ok (conn_list p) pc) as Hpc by (by apply Forall_forall).
  split_and!; [done|done|by apply Forall_forall| |].
  - intros Hmx. assert (conn_list p ≠ []) as Hne by (intros Hn; rewrite Hn in Hh; simpl in Hh; lia).
    split_and!; [auto|done|]. intros Hst. rewrite Hcr.
    destruct (decide (Exists (λ pc, pc ≠ C_next 0) (mc_pcs s))) as [(pc & Hin & Hne')%Exists_exists|Hno].
    + left. destruct (conn_stuck _ _ _ Hi Hst pc Hin) as [->|[n ->]]; [done|by exists n].
    + right. rewrite <-Ht, (Hg' Hne), total_0; [done|]. intros pc Hin.
      destruct (conn_stuck _ _ _ Hi Hst pc Hin) as [->|[n ->]]; [done|]. destruct Hno. apply Exists_exists. eauto.
  - intros Hmx. assert (conn_list p = []) as Hnil by (apply length_zero_iff_nil; lia). rewrite Hnil in Hpc.
    assert (∀ n, C_sem n ∉ mc_pcs s) as Hno by (intros n Hin; by apply (Hpc _ Hin)).
    split; [by rewrite Hcr; intros [n ?%Hno]|]. intros Hst. rewrite <-Ht, total_0.
    + rewrite Nat.add_0_r. clear -Hg. induction (given (mc_obj s)) as [|o l IH]; [done|].
      apply Forall_cons in Hg as [-> Hg]. simpl. by rewrite <-IH.
    + intros pc Hin. destruct (conn_stuck _ _ _ Hi Hst pc Hin) as [->|[n ->]]; [done|]. by apply Hno in Hin.
Qed.

(** The states of a thread that destroys the pool [p]. *)
Inductive destroying (p : ConnectionPool) (n : nat) : machine ConnectionPool destroy_pc → Prop :=
| destroying_start : destroying p n (Machine p n None [D_lock])
| destroying_close : destroying p n (Machine p n (Some 0%nat) [D_close])
| destroying_empty : conn_list p = [] → destroying p n (Machine p n (Some 0%nat) [D_unlock])
| destroying_done : conn_list p = [] → destroying p n (Machine p n None [D_done])
| destroying_inner q : conn_list p ≠ [] → closed q = closed p ++ conn_list p →
    destroying p n (Machine q n (Some 0%nat) [D_unlock_inner])
| destroying_again q : conn_list p ≠ [] → closed q = closed p ++ conn_list p →
    destroying p n (Machine q n None [D_unlock]).

Lemma close_all_inv p k q :
  close_all p = Done k q →
  (conn_list p = [] ∧ k = D_unlock ∧ q = p) ∨
  (conn_list p ≠ [] ∧ k = D_unlock_inner ∧ closed q = closed p ++ conn_list p).
Proof.
  unfold close_all, bind, gets, modify, ret. destruct p as [us mx cu fr [|c l] gv cl]; simpl;
    intros; simplify_eq/=; [by left|by right].
Qed.
Lemma destroying_step p n s s' : destroying p n s → mstep destroy_code s s' → destroying p n s'.
Proof.
  intros Hd Hs. destruct Hd; inversion Hs as [q' n' o pcs i pc k Hp Hc|q' n' o pcs i pc k Hp Hc|
    q' n' pcs i pc k Hp Hc|q' n' pcs i pc k Hp Hc|q' n' o pcs i pc m k q'' Hp Hc Hm]; subst;
    try (apply list_lookup_singleton_Some in Hp as [? ?]; simplify_eq/=);
    try (destruct i as [|[|i] ]; simplify_eq/=); try (constructor; done).
  apply close_all_inv in Hm as [(? & -> & ->)|(? & -> & ?)]; by constructor.
Qed.
Lemma destroying_steps p n s s' : destroying p n s → rtc (mstep destroy_code) s s' → destroying p n s'.
Proof. intros Hd Hs. revert Hd. induction Hs; [done|]. eauto using destroying_step. Qed.

(** Destroying a pool ends in undefined behaviour exactly when there is a
    connection to close: after closing them all, the thread unlocks the mutex a
    second time. *)
Theorem DestroyPool_unlocks_twice p n :
  (∃ s, rtc (mstep destroy_code) (Machine p n None [D_lock]) s ∧ mcrashed destroy_code s ∧
    closed (mc_obj s) = closed p ++ conn_list p) ↔ conn_list p ≠ [].
Proof.
  split.
  - intros (s & Hs & (i & pc & Hp & Hc) & _) Hl.
    apply (destroying_steps p n) in Hs; [|constructor].
    destruct Hs; simpl in *; try done; destruct i as [|i]; simplify_eq/=;
      destruct Hc as [(m & Hc & Hu)|(k & Hc & Ho)]; simplify_eq/=.
    unfold close_all, bind, gets, modify, ret in Hu. by destruct (conn_list p).
  - intros Hl. assert (∃ q, close_all p = Done D_unlock_inner q ∧ closed q = closed p ++ conn_list p)
      as (q & Hq & Hcl).
    { unfold close_all, bind, gets, modify, ret. destruct p as [us mx cu fr [|c l] gv cl]; [done|].
      by eexists. }
    exists (Machine q n None [D_unlock]). split; [|split; [|done]].
    + eapply rtc_l; [exact (mstep_lock destroy_code p n [D_lock] 0 D_lock D_close eq_refl eq_refl)|].
      eapply rtc_l; [exact (mstep_do destroy_code p n (Some 0%nat) [D_close] 0 D_close close_all _ q
        eq_refl eq_refl Hq)|].
      apply rtc_once, (mstep_unlock destroy_code q n [D_unlock_inner] 0 D_unlock_inner D_unlock eq_refl eq_refl).
    + exists 0%nat, D_unlock. split; [done|]. right. by exists D_done.
Qed.
