(* ===== verification/MultiThread.v ===== *)
(** Sums of squares by one thread and by many:
    src/process/multi_thread_cal.cpp. The threads compute what one thread
    does, in every interleaving, when the sum fits. *)
From stdpp Require Import list relations.
From S2P Require Import Prelude Threads.
#[global] Open Scope Z_scope.

Definition LL_MAX : Z := 9223372036854775807.
(** The value of a [long long] expression. *)
Definition ll {S} (z : Z) : M S Z := if (- LL_MAX - 1 <=? z) && (z <=? LL_MAX) then ret z else undef.
Definition MAX : Z := 100000000.

(** * One thread; the state is [sum] *)

Abbreviation SM := (M Z).
Definition set_sum (z : Z) : SM unit := modify (λ _, z).
(** [for (int i = minV; i <= maxV; ++i) sum += i * (LL)i;] *)
Definition worker_turn (maxV i : Z) : SM (Z + unit) :=
  if i <=? maxV then
    square ← ll (i * i); old ← gets id; new ← ll (old + square); set_sum new;;
    i ← int (i + 1); ret (inl i)
  else ret (inr tt).
Definition worker (fuel : nat) (minV maxV : Z) : SM unit := loop fuel (worker_turn maxV) minV.
(** The result it prints. *)
Definition serial_task (fuel : nat) (maxV : Z) : SM Z := set_sum 0;; worker fuel 1 maxV;; gets id.

(** * Many threads *)

(** Where a thread in [concurrent_worker] is: in its loop, with [i] and [tmp];
    at [mtx.lock()]; before and after it has read [sum] for [sum += tmp]; at
    [mtx.unlock()]; at the end. *)
Inductive worker_pc :=
| W_loop (i maxV tmp : Z)
| W_lock (tmp : Z)
| W_add (tmp : Z)
| W_store (old tmp : Z)
| W_unlock
| W_end.

Definition loop_turn (i maxV tmp : Z) : SM worker_pc :=
  if i <=? maxV then
    square ← ll (i * i); tmp ← ll (tmp + square); i ← int (i + 1); ret (W_loop i maxV tmp)
  else ret (W_lock tmp).
Definition concurrent_worker (pc : worker_pc) : instr Z worker_pc :=
  match pc with
  | W_loop i maxV tmp => IDo (loop_turn i maxV tmp)
  | W_lock tmp => ILock (W_add tmp)
  | W_add tmp => IDo (old ← gets id; ret (W_store old tmp))
  | W_store old tmp => IDo (new ← ll (old + tmp); set_sum new;; ret W_unlock)
  | W_unlock => IUnlock W_end
  | W_end => IHalt
  end.

(** [concurrent_task]: the ranges of the threads, for the number of threads
    [hardware_concurrency] returns. The division is one of unsigned numbers. *)
Definition range_turn (concurrent_count maxV range : Z) (l : Z * Z * list (Z * Z)) : SM (Z * Z * list (Z * Z) + list (Z * Z)) :=
  let '(t, minV, threads) := l in
  if t <? concurrent_count then
    if t <? concurrent_count - 1 then
      last ← int (minV + range); next ← int (range + 1); next ← int (minV + next);
      ret (inl (t + 1, next, threads ++ [(minV, last)]))
    else ret (inl (t + 1, minV, threads ++ [(minV, maxV)]))
  else ret (inr threads).
Definition concurrent_ranges (fuel : nat) (concurrent_count maxV : Z) : SM (list (Z * Z)) :=
  set_sum 0;;
  if concurrent_count =? 0 then undef else
  loop fuel (range_turn concurrent_count maxV (maxV / concurrent_count)) (0, 0, []).
(** The threads, once they are started. The main thread uses [sum] again when
    it has joined all of them, and then prints it. *)
Definition start_workers (ranges : list (Z * Z)) (sum : Z) : machine Z worker_pc :=
  Machine sum 0 None ((λ r, W_loop r.1 r.2 0) <$> ranges).
Definition joined (s : machine Z worker_pc) : Prop := Forall (eq W_end) (mc_pcs s).

(** The sum of [n] squares from [lo] on, and of those from [lo] to [hi]. *)
Fixpoint squares (n : nat) (lo : Z) : Z :=
  match n with O => 0 | S n => lo * lo + squares n (lo + 1) end.
Definition sum_squares (lo hi : Z) : Z := squares (Z.to_nat (hi - lo + 1)) lo.

Lemma squares_pos n lo : 0 ≤ squares n lo.
Proof. revert lo. induction n as [|n IH]; intros lo; simpl; [done|]. specialize (IH (lo + 1)). nia. Qed.
Lemma squares_app n m lo : squares (n + m) lo = squares n lo + squares m (lo + Z.of_nat n).
Proof.
  revert lo. induction n as [|n IH]; intros lo; [simpl; by rewrite Z.add_0_r|].
  cbn [squares Nat.add]. rewrite IH. replace (lo + Z.of_nat (S n)) with (lo + 1 + Z.of_nat n) by lia. lia.
Qed.
Lemma sum_squares_pos lo hi : 0 ≤ sum_squares lo hi.
Proof. apply squares_pos. Qed.
Lemma sum_squares_step lo hi : lo ≤ hi → sum_squares lo hi = lo * lo + sum_squares (lo + 1) hi.
Proof.
  intros H. unfold sum_squares.
  replace (Z.to_nat (hi - lo + 1)) with (S (Z.to_nat (hi - (lo + 1) + 1))) by lia. done.
Qed.
Lemma sum_squares_none lo hi : hi < lo → sum_squares lo hi = 0.
Proof. intros H. unfold sum_squares. by replace (Z.to_nat (hi - lo + 1)) with 0%nat by lia. Qed.
Lemma sum_squares_split lo mid hi :
  lo ≤ mid + 1 → mid ≤ hi → sum_squares lo hi = sum_squares lo mid + sum_squares (mid + 1) hi.
Proof.
  intros H1 H2. unfold sum_squares.
  replace (Z.to_nat (hi - lo + 1)) with (Z.to_nat (mid - lo + 1) + Z.to_nat (hi - (mid + 1) + 1))%nat by lia.
  rewrite squares_app. by replace (lo + Z.of_nat (Z.to_nat (mid - lo + 1))) with (mid + 1) by lia.
Qed.

Lemma sum_squares_closed hi : 0 ≤ hi → 6 * sum_squares 0 hi = hi * (hi + 1) * (2 * hi + 1).
Proof.
  intros Hhi. unfold sum_squares. replace hi with (Z.of_nat (Z.to_nat hi)) by lia. generalize (Z.to_nat hi) as n. intros n.
  replace (Z.to_nat (Z.of_nat n - 0 + 1)) with (n + 1)%nat by lia.
  induction n as [|n IH]; [done|].
  replace (S n + 1)%nat with (n + 1 + 1)%nat by lia. rewrite squares_app. cbn [squares]. lia.
Qed.

Lemma wp_ll {S} z (s : S) (Q : Z → S → Prop) : 0 ≤ z ≤ LL_MAX → Q z s → wp (ll z) s Q.
Proof. intros Hz HQ. unfold ll. by rewrite (proj2 (Z.leb_le _ _)), (proj2 (Z.leb_le _ _)) by (unfold LL_MAX in *; lia). Qed.

(** * One thread *)

Lemma wp_worker fuel minV maxV sum :
  0 ≤ minV ≤ maxV + 1 → maxV < INT_MAX → 0 ≤ sum → sum + sum_squares minV maxV ≤ LL_MAX →
  (Z.to_nat (maxV + 1 - minV) < fuel)%nat →
  wp (worker fuel minV maxV) sum (λ _ sum', sum' = sum + sum_squares minV maxV).
Proof.
  intros Hmin Hmax Hpos Hsum Hfuel.
  apply (wp_loop (λ n i s, 0 ≤ i ≤ maxV + 1 ∧ (Z.to_nat (maxV + 1 - i) ≤ n)%nat ∧ 0 ≤ s ∧
    s + sum_squares i maxV = sum + sum_squares minV maxV)) with (n := Z.to_nat (maxV + 1 - minV));
    [|split_and!; lia|done].
  intros n i s (Hi & Hn & Hs & He). unfold worker_turn.
  destruct (Z.leb_spec i maxV) as [Hle|Hgt].
  2:{ apply wp_ret. rewrite sum_squares_none in He by lia. lia. }
  rewrite sum_squares_step in He by done. pose proof (sum_squares_pos (i + 1) maxV) as Hp.
  apply wp_bind, wp_ll; [nia|]. apply wp_bind, wp_gets, wp_bind, wp_ll; [unfold id; nia|].
  apply wp_bind, wp_modify, wp_bind, wp_int; [unfold INT_MIN, INT_MAX in *; lia|].
  apply wp_ret. exists (pred n). unfold id. split_and!; lia.
Qed.

(** * The ranges *)

Lemma wp_ranges fuel count maxV sum :
  0 < count → 0 ≤ maxV < INT_MAX → (count - 1) * (maxV / count + 1) ≤ maxV + 1 → (Z.to_nat count < fuel)%nat →
  wp (concurrent_ranges fuel count maxV) sum (λ rs sum', sum' = 0 ∧
    Z.of_nat (length rs) = count ∧ Forall (λ r, 0 ≤ r.1 ≤ r.2 + 1 ∧ r.2 ≤ maxV) rs ∧
    foldr Z.add 0 ((λ r, sum_squares r.1 r.2) <$> rs) = sum_squares 0 maxV).
Proof.
  intros Hc Hmax Hfit Hfuel. unfold concurrent_ranges. apply wp_bind, wp_modify.
  rewrite (proj2 (Z.eqb_neq _ _)) by lia. set (q := maxV / count) in *.
  assert (0 ≤ q ≤ maxV) as Hq by (unfold q; split; [apply Z.div_pos|apply Z.div_le_upper_bound]; nia).
  apply (wp_loop (λ n l s, s = 0 ∧ let '(t, minV, rs) := l in
    0 ≤ t ≤ count ∧ (Z.to_nat (count - t) ≤ n)%nat ∧ Z.of_nat (length rs) = t ∧
    Forall (λ r, 0 ≤ r.1 ≤ r.2 + 1 ∧ r.2 ≤ maxV) rs ∧
    if t <? count then minV = t * (q + 1) ∧
      foldr Z.add 0 ((λ r, sum_squares r.1 r.2) <$> rs) = sum_squares 0 (minV - 1)
    else foldr Z.add 0 ((λ r, sum_squares r.1 r.2) <$> rs) = sum_squares 0 maxV)) with (n := Z.to_nat count);
    [|split_and!; try done; try lia; rewrite (proj2 (Z.ltb_lt _ _)) by lia; by split_and!|done].
  assert (∀ rs r, foldr Z.add 0 ((λ r, sum_squares r.1 r.2) <$> (rs ++ [r])) =
    foldr Z.add 0 ((λ r, sum_squares r.1 r.2) <$> rs) + sum_squares r.1 r.2) as Hsnoc.
  { intros rs r. rewrite fmap_app, foldr_app. simpl. rewrite Z.add_0_r.
    generalize (sum_squares r.1 r.2) as z. intros z. induction rs as [|r' rs IH]; csimpl; [lia|]. rewrite IH. lia. }
  intros n [[t minV] rs] s (-> & Ht & Hn & Hlen & Hall & Hsum). unfold range_turn.
  destruct (Z.ltb_spec t count) as [Hlt|Hge]; [|apply wp_ret; by split_and!; [|lia|..]].
  destruct Hsum as [-> Hsum].
  assert (0 ≤ t * (q + 1) ≤ (count - 1) * (q + 1)) as Hm by nia.
  destruct (Z.ltb_spec t (count - 1)) as [Hlt'|Hlast].
  - assert ((t + 1) * (q + 1) ≤ maxV + 1) as Hm' by nia. unfold INT_MIN, INT_MAX in *.
    do 3 (apply wp_bind, wp_int; [unfold INT_MIN, INT_MAX; lia|]). apply wp_ret. exists (pred n).
    split_and!; try lia; [rewrite length_app; simpl; lia| |].
    + apply Forall_app. split; [done|]. apply Forall_singleton. simpl. lia.
    + rewrite (proj2 (Z.ltb_lt _ _)) by lia. split; [lia|]. rewrite Hsnoc, Hsum. simpl.
      rewrite (sum_squares_split 0 (t * (q + 1) - 1) (t * (q + 1) + (q + 1) - 1)) by lia. f_equal. f_equal; lia.
  - apply wp_ret. exists (pred n). split_and!; try lia; [rewrite length_app; simpl; lia| |].
    + apply Forall_app. split; [done|]. apply Forall_singleton. simpl. lia.
    + rewrite (proj2 (Z.ltb_ge _ _)) by lia. rewrite Hsnoc, Hsum. simpl.
      rewrite (sum_squares_split 0 (t * (q + 1) - 1) maxV) by lia. f_equal. f_equal; lia.
Qed.

(** * The threads *)

Definition worker_inside (pc : worker_pc) : bool :=
  match pc with W_add _ | W_store _ _ | W_unlock => true | _ => false end.
#[export, program] Instance worker_lock : LockDiscipline concurrent_worker := {| inside := worker_inside |}.
Next Obligation.
  intros [i maxV tmp|tmp|tmp|old tmp| |]; simpl; try done; intros s k s' Hm.
  - unfold loop_turn, ll, int in Hm. done_inv Hm; done.
  - by done_inv Hm.
  - unfold ll in Hm. by done_inv Hm.
Qed.
(** The steps it has left. *)
Definition worker_left (pc : worker_pc) : nat :=
  match pc with
  | W_loop i maxV _ => Z.to_nat (maxV + 1 - i) + 6
  | W_lock _ => 5 | W_add _ => 4 | W_store _ _ => 3 | W_unlock => 2 | W_end => 1
  end.
#[export, program] Instance worker_potential : Potential concurrent_worker := {| cost := 0; left_ := worker_left |}.
Next Obligation.
  intros [i maxV tmp|tmp|tmp|old tmp| |]; simpl; try lia; try done; intros s k s' Hm.
  - unfold loop_turn, ll, int in Hm. done_inv Hm; simpl; lia.
  - done_inv Hm. simpl. lia.
  - unfold ll in Hm. done_inv Hm. simpl. lia.
Qed.

(** What a thread still adds to [sum]. *)
Definition pending (pc : worker_pc) : nat :=
  match pc with
  | W_loop i maxV tmp => Z.to_nat (tmp + sum_squares i maxV)
  | W_lock tmp | W_add tmp | W_store _ tmp => Z.to_nat tmp
  | W_unlock | W_end => 0
  end.
Definition pc_ok (sum : Z) (pc : worker_pc) : Prop :=
  match pc with
  | W_loop i maxV tmp => 0 ≤ i ≤ maxV + 1 ∧ maxV < INT_MAX ∧ 0 ≤ tmp
  | W_lock tmp | W_add tmp => 0 ≤ tmp
  | W_store old tmp => 0 ≤ tmp ∧ old = sum
  | W_unlock | W_end => True
  end.
(** The invariant: what is there and what is still to come is [goal]. *)
Record sum_inv (goal : Z) (s : machine Z worker_pc) : Prop := {
  si_mutex : mutex_inv concurrent_worker s;
  si_sum : 0 ≤ mc_obj s;
  si_total : mc_obj s + Z.of_nat (total pending (mc_pcs s)) = goal;
  si_ok pc : pc ∈ mc_pcs s → pc_ok (mc_obj s) pc
}.

(** What a step of a thread does to its part. *)
Lemma worker_do goal sum pc m :
  goal ≤ LL_MAX → pc_ok sum pc → 0 ≤ sum → sum + Z.of_nat (pending pc) ≤ goal → concurrent_worker pc = IDo m →
  wp m sum (λ k sum', pc_ok sum' k ∧ 0 ≤ sum' ∧ sum' + Z.of_nat (pending k) = sum + Z.of_nat (pending pc) ∧
    (sum' ≠ sum → worker_inside pc = true)).
Proof.
  intros Hg Hok Hs Hp Hc. destruct pc as [i maxV tmp|tmp|tmp|old tmp| |]; simplify_eq/=.
  - destruct Hok as (Hi & Hmax & Ht). unfold loop_turn. pose proof (sum_squares_pos (i + 1) maxV) as Hp1.
    destruct (Z.leb_spec i maxV) as [Hle|Hgt].
    + rewrite sum_squares_step in * by done.
      apply wp_bind, wp_ll; [nia|]. apply wp_bind, wp_ll; [nia|].
      apply wp_bind, wp_int; [unfold INT_MIN, INT_MAX in *; lia|]. apply wp_ret. simpl. split_and!; try done; nia.
    + apply wp_ret. simpl. rewrite sum_squares_none by lia. split_and!; try done; lia.
  - apply wp_bind, wp_gets, wp_ret. by split_and!.
  - destruct Hok as [Ht ->]. apply wp_bind, wp_ll; [lia|]. apply wp_bind, wp_modify, wp_ret. simpl.
    split_and!; try done; lia.
Qed.

Lemma sum_inv_pending goal q n o pcs i pc :
  sum_inv goal (Machine q n o pcs) → pcs !! i = Some pc →
  0 ≤ q ∧ pc_ok q pc ∧ q + Z.of_nat (pending pc) ≤ goal.
Proof.
  intros [Hm Hs Ht Hok] Hp. simpl in *. pose proof (total_elem pending pcs i pc Hp).
  split_and!; [done|apply Hok; by eapply list_elem_of_lookup_2|lia].
Qed.
(** A step that leaves [sum] and what is pending as they are. *)
Lemma sum_inv_local goal q n n' o o' pcs i pc k :
  sum_inv goal (Machine q n o pcs) → pcs !! i = Some pc →
  mutex_inv concurrent_worker (Machine q n' o' (<[i:=k]> pcs)) → pending k = pending pc → pc_ok q k →
  sum_inv goal (Machine q n' o' (<[i:=k]> pcs)).
Proof.
  intros [Hm Hs Ht Hok] Hp Hm' Hk Hokk. simpl in *. pose proof (total_insert pending pcs i pc k Hp).
  constructor; simpl; [done|done|lia|]. intros pc' [j Hj]%list_elem_of_lookup.
  apply list_lookup_insert_Some in Hj as [(_ & <- & _)|[_ Hj]]; [done|]. apply Hok. by eapply list_elem_of_lookup_2.
Qed.
Lemma sum_inv_step goal s s' : goal ≤ LL_MAX → sum_inv goal s → mstep concurrent_worker s s' → sum_inv goal s'.
Proof.
  intros Hg Hi Hs. pose proof (mutex_step _ _ _ (si_mutex _ _ Hi) Hs) as Hm'.
  destruct Hs as [q n o pcs i pc k Hp Hc|q n o pcs i pc k Hp Hc|q n pcs i pc k Hp Hc|
    q n pcs i pc k Hp Hc|q n o pcs i pc m k q' Hp Hc Hm];
    destruct (sum_inv_pending _ _ _ _ _ _ _ Hi Hp) as (Hq & Hok & Hle).
  1-4: eapply sum_inv_local; [done..| |]; destruct pc; simplify_eq/=; done.
  destruct (wp_elim _ _ _ (worker_do goal q pc m Hg Hok Hq Hle Hc)) as (k1 & q1 & Hk & Hok1 & Hq1 & Hsum & Hin).
  rewrite Hm in Hk. simplify_eq. destruct Hi as [Hmx Hs Ht Hall]. simpl in *.
  pose proof (total_insert pending pcs i pc k1 Hp). constructor; simpl; [done|done|lia|].
  intros pc' [j Hj]%list_elem_of_lookup. apply list_lookup_insert_Some in Hj as [(<- & <- & _)|[Hij Hj]]; [done|].
  destruct (decide (q1 = q)) as [->|Hne]; [apply Hall; by eapply list_elem_of_lookup_2|].
  pose proof (proj1 (Hmx i pc Hp) (Hin Hne)) as Ho. pose proof (Hall pc' (list_elem_of_lookup_2 _ _ _ Hj)) as Hok'.
  destruct pc' as [| | |old tmp| |]; try done. pose proof (proj1 (Hmx j _ Hj) eq_refl). simpl in *. congruence.
Qed.
Lemma sum_inv_safe goal s : goal ≤ LL_MAX → sum_inv goal s → ¬ mcrashed concurrent_worker s.
Proof.
  intros Hg Hi (i & pc & Hp & Hcr). destruct s as [q n o pcs]. simpl in *.
  destruct (sum_inv_pending _ _ _ _ _ _ _ Hi Hp) as (Hq & Hok & Hle). destruct Hcr as [(m & Hc & Hu)|(k & Hc & Ho)].
  - destruct (wp_elim _ _ _ (worker_do goal q pc m Hg Hok Hq Hle Hc)) as (? & ? & Hk & _). congruence.
  - apply Ho, (si_mutex _ _ Hi i pc Hp). by destruct pc.
Qed.
Lemma sum_inv_start rs maxV :
  Forall (λ r, 0 ≤ r.1 ≤ r.2 + 1 ∧ r.2 ≤ maxV) rs → maxV < INT_MAX →
  sum_inv (foldr Z.add 0 ((λ r, sum_squares r.1 r.2) <$> rs)) (start_workers rs 0).
Proof.
  intros Hrs Hmax. constructor; simpl; [| |clear Hrs|].
  - intros i pc Hp. apply list_lookup_fmap_Some in Hp as (r & -> & Hr). split; done.
  - done.
  - unfold total. induction rs as [|r rs IH]; [done|]. csimpl. rewrite <- IH.
    pose proof (sum_squares_pos r.1 r.2). lia.
  - intros pc (r & -> & Hr)%list_elem_of_fmap. rewrite Forall_forall in Hrs. specialize (Hrs r Hr). simpl. lia.
Qed.

(** When no thread can go on, all are at the end. *)
Lemma sum_inv_final goal s :
  goal ≤ LL_MAX → sum_inv goal s → stuck concurrent_worker s →
  (∀ i, mc_owner s = Some i → (i < length (mc_pcs s))%nat) → joined s ∧ mc_obj s = goal.
Proof.
  intros Hg Hi Hst Hown.
  destruct (stuck_threads _ s (si_mutex _ _ Hi) Hst (sum_inv_safe _ _ Hg Hi)) as [_ Hend]; [|done|].
  { intros pc Hpc m Hc q. destruct pc; simplify_eq/=; unfold loop_turn, bind, gets, ll, int, modify, set_sum, ret, undef;
      repeat match goal with |- context [if ?b then _ else _] => destruct b end; eauto. }
  assert (∀ pc, pc ∈ mc_pcs s → pc = W_end) as Hall.
  { intros pc Hpc. destruct (Hend pc Hpc) as [Hh|[_ [k Hk]]]; by destruct pc. }
  split; [by apply Forall_forall; intros pc Hpc; symmetry; auto|].
  rewrite <- (si_total _ _ Hi), total_0; [lia|]. intros pc Hpc. by rewrite (Hall pc Hpc).
Qed.

(** The owner of the mutex is one of the threads. *)
Lemma owner_step s s' : mstep concurrent_worker s s' →
  (∀ i, mc_owner s = Some i → (i < length (mc_pcs s))%nat) → ∀ i, mc_owner s' = Some i → (i < length (mc_pcs s'))%nat.
Proof.
  intros Hs Ho. destruct Hs; simpl in *; intros j; rewrite length_insert; auto; intros [= <-].
  by eapply lookup_lt_Some.
Qed.

(** * The program's own bound *)

Lemma worker_turn_adds maxV i s :
  i ≤ maxV → maxV < INT_MAX → 0 ≤ i → 0 ≤ s →
  worker_turn maxV i s = if s + i * i <=? LL_MAX then Done (inl (i + 1)) (s + i * i) else Undef.
Proof.
  intros Hi Hm Hi0 Hs. unfold worker_turn. rewrite (proj2 (Z.leb_le _ _)) by done.
  assert (i * i ≤ LL_MAX) as Hii by (unfold LL_MAX, INT_MAX in *; nia).
  unfold bind, gets, ll, id, modify, int, is_int. simpl.
  rewrite (proj2 (Z.leb_le (- LL_MAX - 1) (i * i))), (proj2 (Z.leb_le (i * i) LL_MAX)) by (unfold LL_MAX in *; nia).
  simpl. rewrite (proj2 (Z.leb_le (- LL_MAX - 1) (s + i * i))) by (unfold LL_MAX in *; nia). simpl.
  destruct (Z.leb_spec (s + i * i) LL_MAX); [|done]. simpl.
  rewrite (proj2 (Z.leb_le INT_MIN (i + 1))), (proj2 (Z.leb_le (i + 1) INT_MAX)) by (unfold INT_MIN, INT_MAX in *; lia). done.
Qed.
Lemma worker_overflows n fuel maxV i s :
  (n < fuel)%nat → 0 ≤ i → 0 ≤ s → i + Z.of_nat n ≤ maxV → maxV < INT_MAX →
  LL_MAX < s + squares (S n) i → worker fuel i maxV s = Undef.
Proof.
  unfold worker. revert fuel i s. induction n as [|n IH]; intros [|fuel] i s Hf Hi Hs Hmax Hint Hov; try lia;
    cbn [loop]; unfold bind; rewrite worker_turn_adds by lia; cbn [squares] in Hov.
  - by rewrite (proj2 (Z.leb_gt _ _)) by lia.
  - destruct (Z.leb_spec (s + i * i) LL_MAX); [|done]. apply IH; cbn [squares]; lia.
Qed.
(** The program's own bound is too large: the sum of the squares up to
    100000000 does not fit into [long long], and the addition that goes beyond
    it is undefined. *)
Lemma serial_task_overflows fuel sum : 3100000 < Z.of_nat fuel → serial_task fuel MAX sum = Undef.
Proof.
  intros Hf. unfold serial_task. rewrite (bind_done _ _ _ tt 0) by done. unfold bind.
  assert (∃ n, Z.of_nat n = 3100000) as [n Hn] by (exists (Z.to_nat 3100000); lia).
  assert (LL_MAX < squares (S n) 1) as Hov.
  { pose proof (sum_squares_closed (Z.of_nat n + 1) ltac:(lia)) as Hs. rewrite sum_squares_step in Hs by lia.
    unfold sum_squares in Hs. replace (Z.to_nat (Z.of_nat n + 1 - (0 + 1) + 1)) with (S n) in Hs by lia.
    rewrite Hn in Hs. change (0 + 1) with 1 in Hs. unfold LL_MAX. lia. }
  by rewrite (worker_overflows n) by (unfold MAX, INT_MAX; lia).
Qed.
(** With more threads than numbers the ranges go beyond [maxV]. *)
Lemma ranges_overlap sum :
  concurrent_ranges 10 8 3 sum = Done [(0, 0); (1, 1); (2, 2); (3, 3); (4, 4); (5, 5); (6, 6); (7, 3)] 0.
Proof. done. Qed.

(** C23: many threads compute what one does, when the sum fits. For a number of
    threads whose ranges do not go beyond [maxV] (the source rounds the size of
    a range up, so with more threads than numbers the last ranges can lie
    beyond it), and a [maxV] such that the sum of the squares up to it fits
    into [long long]: whatever the interleaving, no thread does anything
    undefined, all end after a bounded number of steps, and when the main
    thread has joined them the sum it prints is the one the serial task prints.
    The condition on the sum excludes the bound the program itself uses: with
    [MAX], 100000000, the serial task is undefined, since one of its additions
    goes beyond [long long]. *)
Theorem concurrent_task_is_serial count maxV sum fuel :
  (0 < count → 0 ≤ maxV < INT_MAX → (count - 1) * (maxV / count + 1) ≤ maxV + 1 →
   maxV * (maxV + 1) * (2 * maxV + 1) ≤ 6 * LL_MAX → (Z.to_nat count + Z.to_nat maxV + 1 < fuel)%nat →
   ∃ ranges, concurrent_ranges fuel count maxV sum = Done ranges 0 ∧ Z.of_nat (length ranges) = count ∧
     ∀ s, rtc (mstep concurrent_worker) (start_workers ranges 0) s →
       ¬ mcrashed concurrent_worker s ∧
       (∀ n s', nsteps (mstep concurrent_worker) n s s' → (n ≤ potential concurrent_worker s)%nat) ∧
       (stuck concurrent_worker s → joined s ∧ serial_task fuel maxV sum = Done (mc_obj s) (mc_obj s) ∧
         6 * mc_obj s = maxV * (maxV + 1) * (2 * maxV + 1))) ∧
  (3100000 < Z.of_nat fuel → serial_task fuel MAX sum = Undef).
Proof.
  split; [|apply serial_task_overflows]. intros Hc Hmax Hfit Hsum Hfuel. rewrite <- sum_squares_closed in Hsum by lia. apply Z.mul_le_mono_pos_l in Hsum; [|done].
  destruct (wp_elim _ _ _ (wp_ranges fuel count maxV sum Hc Hmax Hfit ltac:(lia))) as (rs & ? & Hr & -> & Hlen & Hall & Hgoal).
  exists rs. split_and!; [done|done|]. intros s Hs.
  assert (sum_inv (sum_squares 0 maxV) s ∧ ∀ i, mc_owner s = Some i → (i < length (mc_pcs s))%nat) as [Hi Ho].
  { assert (sum_inv (sum_squares 0 maxV) (start_workers rs 0)) as Hi0.
    { rewrite <- Hgoal. apply (sum_inv_start rs maxV); [done|lia]. }
    assert (∀ i, mc_owner (start_workers rs 0) = Some i → (i < length (mc_pcs (start_workers rs 0)))%nat) as Ho0 by done.
    revert Hi0 Ho0. induction Hs as [s|s s1 s2 H1 _ IH]; [done|]. intros Hi0 Ho0.
    apply IH; [by eapply sum_inv_step|by eapply owner_step]. }
  split_and!; [by eapply sum_inv_safe|intros n s' Hn; pose proof (potential_bounds _ _ _ _ Hn); lia|].
  intros Hst. destruct (sum_inv_final _ _ Hsum Hi Hst Ho) as [Hj ->].
  split_and!; [done| |apply sum_squares_closed; lia].
  assert (sum_squares 0 maxV = sum_squares 1 maxV) as He by by rewrite (sum_squares_step 0) by lia.
  unfold serial_task. rewrite (bind_done _ _ _ tt 0) by done.
  destruct (wp_elim _ _ _ (wp_worker fuel 1 maxV 0 ltac:(lia) ltac:(lia) ltac:(lia) ltac:(lia) ltac:(lia))) as ([] & s1 & Hw & ->).
  rewrite (bind_done _ _ _ _ _ Hw), He. done.
Qed.
