(* ===== verification/ReadWrite.v ===== *)
(** Readers and writers under a shared mutex: src/learnOS/sync/read_write.cpp.
    Every value that is read is the number of writes that were made, and some
    thread can always go on. *)
From stdpp Require Import list relations.
From coqutil Require Import Datatypes.RecordSetters.
From S2P Require Import Prelude Threads.
Export RecordSetters.DoubleBraceUpdate.
#[global] Open Scope Z_scope.

(** What the threads print of [shared_data]. *)
Inductive line := Reads (v : Z) | Writes (v : Z).
(** [shared_mutex] (the readers that hold it, and whether a writer does),
    [shared_data], and what was printed. *)
Record shared := Shared {
  rw_readers : nat;
  rw_writer : bool;
  shared_data : Z;
  printed : list line
}.
Definition shared_start : shared := Shared 0 false 0 [].

(** Where a thread is in [reader] and in [writer]. *)
Inductive rw_pc :=
| R_lock | R_read | R_unlock
| W_lock | W_load | W_store (old : Z) | W_print | W_unlock.

(** Its next step; [None] when it has to wait for the lock. *)
Definition rw_step (pc : rw_pc) : M shared (option rw_pc) :=
  match pc with
  | R_lock =>
      w ← gets rw_writer;
      if w : bool then ret None else
      modify (λ s, s{{rw_readers := S (rw_readers s)}});; ret (Some R_read)
  | R_read =>
      v ← gets shared_data; modify (λ s, s{{printed := printed s ++ [Reads v] }});; ret (Some R_unlock)
  | R_unlock => modify (λ s, s{{rw_readers := pred (rw_readers s)}});; ret (Some R_lock)
  | W_lock =>
      w ← gets rw_writer; r ← gets rw_readers;
      if w || negb (r =? 0)%nat then ret None else
      modify (λ s, s{{rw_writer := true}});; ret (Some W_load)
  | W_load => v ← gets shared_data; ret (Some (W_store v))
  | W_store old => v ← int (old + 1); modify (λ s, s{{shared_data := v}});; ret (Some W_print)
  | W_print =>
      v ← gets shared_data; modify (λ s, s{{printed := printed s ++ [Writes v] }});; ret (Some W_unlock)
  | W_unlock => modify (λ s, s{{rw_writer := false}});; ret (Some W_lock)
  end.

(** The threads [main] starts, and their steps. *)
Definition rw_threads (readers writers : nat) : list rw_pc := replicate readers R_lock ++ replicate writers W_lock.
Inductive rw_move : shared * list rw_pc → shared * list rw_pc → Prop :=
| rw_move_thread s pcs i pc k s' :
    pcs !! i = Some pc → rw_step pc s = Done (Some k) s' → rw_move (s, pcs) (s', <[i:=k]> pcs).

(** * The reference: the lines of one counter *)

Fixpoint counted (n : Z) (ls : list line) : option Z :=
  match ls with
  | [] => Some n
  | Reads v :: ls => if v =? n then counted n ls else None
  | Writes v :: ls => if v =? n + 1 then counted (n + 1) ls else None
  end.
Lemma counted_snoc n ls l : counted n (ls ++ [l]) = counted n ls ≫= λ k, counted k [l].
Proof.
  revert n. induction ls as [|[v|v] ls IH]; intros n; [done|..]; simpl.
  - destruct (v =? n); [apply IH|done].
  - destruct (v =? n + 1); [apply IH|done].
Qed.

(** * The invariant *)

Definition reading (pc : rw_pc) : nat := match pc with R_read | R_unlock => 1 | _ => 0 end.
Definition writing (pc : rw_pc) : nat := match pc with W_load | W_store _ | W_print | W_unlock => 1 | _ => 0 end.
Definition unprinted (pc : rw_pc) : nat := match pc with W_print => 1 | _ => 0 end.
Record rw_inv (s : shared) (pcs : list rw_pc) : Prop := {
  ri_readers : rw_readers s = total reading pcs;
  ri_writer : total writing pcs = (if rw_writer s then 1 else 0)%nat;
  ri_excludes : rw_writer s = true → rw_readers s = 0%nat;
  ri_store old : W_store old ∈ pcs → old = shared_data s;
  ri_count : ∃ n, counted 0 (printed s) = Some n ∧ 0 ≤ n ∧ shared_data s = n + Z.of_nat (total unprinted pcs)
}.

Lemma unprinted_writing pc : (unprinted pc ≤ writing pc)%nat.
Proof. destruct pc; simpl; lia. Qed.
Lemma total_le (f g : rw_pc → nat) pcs : (∀ pc, (f pc ≤ g pc)%nat) → (total f pcs ≤ total g pcs)%nat.
Proof.
  intros H. unfold total. induction pcs as [|pc pcs IH]; csimpl; [done|]. specialize (H pc). lia.
Qed.
Lemma rw_start readers writers : rw_inv shared_start (rw_threads readers writers).
Proof.
  assert (∀ pc, pc ∈ rw_threads readers writers → pc = R_lock ∨ pc = W_lock) as Hall.
  { intros pc [Hpc|Hpc]%elem_of_app; apply elem_of_replicate in Hpc as [-> _]; auto. }
  constructor; simpl; try done.
  - symmetry. apply total_0. by intros pc [->| ->]%Hall.
  - apply total_0. by intros pc [->| ->]%Hall.
  - by intros old [?|?]%Hall.
  - exists 0. split_and!; try done. rewrite total_0; [done|]. by intros pc [->| ->]%Hall.
Qed.

(** A writer inside is the only one. *)
Lemma writer_alone (pcs : list rw_pc) (i j : nat) pc pc' :
  (total writing pcs ≤ 1)%nat → pcs !! i = Some pc → pcs !! j = Some pc' → writing pc = 1%nat → writing pc' = 1%nat → i = j.
Proof.
  intros Ht Hi Hj Hw Hw'. destruct (decide (i = j)) as [|Hij]; [done|].
  pose proof (total_insert writing pcs i pc W_lock Hi) as T. simpl in T.
  assert (<[i:=W_lock]> pcs !! j = Some pc') as Hj' by by rewrite list_lookup_insert_ne.
  pose proof (total_elem writing _ j pc' Hj'). lia.
Qed.
Lemma store_in (pcs : list rw_pc) (i : nat) k old : W_store old ∈ <[i:=k]> pcs → W_store old = k ∨ ∃ j, j ≠ i ∧ pcs !! j = Some (W_store old).
Proof.
  intros [j Hj]%list_elem_of_lookup. apply list_lookup_insert_Some in Hj as [(_ & <- & _)|[Hne Hj]]; [by left|].
  right. by exists j.
Qed.

(** One step of a thread, by the sums it changes. *)
Lemma rw_inv_step s pcs s' pcs' : rw_inv s pcs → rw_move (s, pcs) (s', pcs') → rw_inv s' pcs'.
Proof.
  intros [Hr Hw Hx Hst (n & Hn & Hpos & Hd)] Hm. inversion Hm as [? ? i pc k ? Hi Hk]; subst. clear Hm.
  pose proof (total_insert reading pcs i pc k Hi) as Tr. pose proof (total_insert writing pcs i pc k Hi) as Tw.
  pose proof (total_insert unprinted pcs i pc k Hi) as Tu. pose proof (total_elem writing pcs i pc Hi) as Ew.
  pose proof (total_elem unprinted pcs i pc Hi) as Eu. pose proof (total_elem reading pcs i pc Hi) as Er.
  pose proof (total_le unprinted writing pcs unprinted_writing) as Hle.
  pose proof (total_insert writing pcs i pc W_lock Hi) as Lw. pose proof (total_insert unprinted pcs i pc W_lock Hi) as Lu.
  pose proof (total_le unprinted writing (<[i:=W_lock]> pcs) unprinted_writing) as Hle'.
  assert (∀ old, pc ≠ W_store old → W_store old ∈ <[i:=k]> pcs → W_store old = k ∨ W_store old ∈ pcs) as Hin.
  { intros old _ [?|(j & _ & Hj)]%store_in; [by left|right]. by eapply list_elem_of_lookup_2. }
  assert (∀ old v, pc = W_store v → W_store old ∈ <[i:=W_print]> pcs → False) as Hone.
  { intros old v -> [?|(j & Hj & Hold)]%store_in; [done|]. apply Hj.
    eapply writer_alone; [|exact Hold|exact Hi|done..]. destruct (rw_writer s); lia. }
  destruct s as [rs w d ls]. simpl in *. assert (w = true ∨ w = false) as Hwc by (destruct w; auto).
  destruct pc as [| | | | |old| |]; unfold rw_step, int in Hk; done_inv Hk; simplify_eq/=.
  all: constructor; simpl; unfold constant; try lia; try done;
    try (intros o Ho; destruct (Hin o ltac:(done) Ho) as [?|?]; [by simplify_eq|by apply Hst]).
  all: try (exists n; split_and!; [done|done|lia]).
  - assert (total unprinted pcs = 0%nat) as Hu by (destruct Hwc as [->| ->]; [specialize (Hx eq_refl)|]; lia).
    exists n. rewrite counted_snoc, Hn. simpl. rewrite Hu in *. rewrite (proj2 (Z.eqb_eq _ _)) by lia. split_and!; [done|done|lia].
  - intros ->. specialize (Hx eq_refl). lia.
  - destruct Hwc as [->| ->]; [done|lia].
  - intros _. destruct w; [done|]. destruct (Nat.eqb_spec (total reading pcs) 0); done.
  - intros o Ho. exfalso. by eapply Hone.
  - assert (old = n + Z.of_nat (total unprinted pcs)) as -> by (apply Hst; by eapply list_elem_of_lookup_2).
    exists n. split_and!; [done|done|]. destruct Hwc as [->| ->]; lia.
  - assert (total unprinted pcs = 1%nat) as Hu by (destruct Hwc as [->| ->]; lia).
    exists (n + 1). rewrite counted_snoc, Hn. simpl. rewrite Hu in *. rewrite (proj2 (Z.eqb_eq _ _)) by lia.
    split_and!; [done|lia|lia].
  - destruct Hwc as [->| ->]; lia.
Qed.
Lemma rw_inv_steps s pcs s' pcs' : rw_inv s pcs → rtc rw_move (s, pcs) (s', pcs') → rw_inv s' pcs'.
Proof.
  intros Hi Hs. remember (s, pcs) as x. remember (s', pcs') as y. revert s pcs Heqx Hi.
  induction Hs as [x|x [s1 pcs1] z H1 _ IH]; intros s pcs -> Hi; [by simplify_eq|].
  subst z. eapply IH; [done|done|by eapply rw_inv_step].
Qed.

(** A thread that has the lock, or finds it free, can go on. *)
Lemma rw_can_step s pcs : rw_inv s pcs → pcs ≠ [] → (shared_data s < INT_MAX) →
  ∃ i pc k s', pcs !! i = Some pc ∧ rw_step pc s = Done (Some k) s'.
Proof.
  intros [Hr Hw Hx Hst (n & Hn & Hpos & Hd)] Hne Hmax. destruct s as [rs w d ls]. simpl in *.
  assert (∀ f : rw_pc → nat, (0 < total f pcs)%nat → ∃ i pc, pcs !! i = Some pc ∧ f pc ≠ 0%nat) as Hex.
  { intros f Hf. destruct (decide (Forall (λ pc, f pc = 0%nat) pcs)) as [Hall|Hsome].
    - rewrite Forall_forall in Hall. rewrite (total_0 f pcs Hall) in Hf; lia.
    - apply not_Forall_Exists in Hsome; [|intros pc; apply _]. apply Exists_exists in Hsome as (pc & [i Hi]%list_elem_of_lookup & Hpc).
      by exists i, pc. }
  destruct w.
  - destruct (Hex writing) as (i & pc & Hi & Hpc); [lia|]. exists i, pc.
    destruct pc; try done; unfold rw_step; try (by do 2 eexists).
    pose proof (Hst old (list_elem_of_lookup_2 _ _ _ Hi)) as ->. unfold bind, int, is_int.
    rewrite (proj2 (Z.leb_le _ _)), (proj2 (Z.leb_le _ _)) by (unfold INT_MIN, INT_MAX in *; lia). by do 2 eexists.
  - destruct (decide (rs = 0)%nat) as [->|Hrs].
    + destruct pcs as [|pc pcs]; [done|]. exists 0%nat, pc.
      assert (writing pc = 0%nat) as Hpc by (csimpl in Hw; unfold total in Hw; csimpl in Hw; lia).
      destruct pc; try done; by do 2 eexists.
    + destruct (Hex reading) as (i & pc & Hi & Hpc); [lia|]. exists i, pc. destruct pc; try done; by do 2 eexists.
Qed.

(** C26: any number of readers and writers, in any interleaving: the lines that
    were printed are those of one counter, each write printing the number of
    writes made so far and each read the number of writes before it; as long as
    the counter is not the largest [int] no thread does anything undefined, and
    some thread can go on. *)
Theorem read_write_consistent readers writers s pcs :
  (0 < readers + writers)%nat → rtc rw_move (shared_start, rw_threads readers writers) (s, pcs) →
  ∃ n, counted 0 (printed s) = Some n ∧ 0 ≤ n ≤ shared_data s ∧
    (shared_data s < INT_MAX →
      (∀ i pc, pcs !! i = Some pc → rw_step pc s ≠ Undef) ∧ ∃ x, rw_move (s, pcs) x).
Proof.
  intros Hpos Hs. pose proof (rw_inv_steps _ _ _ _ (rw_start readers writers) Hs) as Hi.
  destruct (ri_count _ _ Hi) as (n & Hn & Hn0 & Hd). exists n. split_and!; [done|done|lia|]. intros Hmax.
  assert (length pcs = readers + writers)%nat as Hlen.
  { assert (∀ x y, rtc rw_move x y → length y.2 = length x.2) as Hall.
    { intros x y Hxy. induction Hxy as [|x1 x2 x3 H1 _ IH]; [done|]. rewrite IH. inversion H1; subst; simpl. by rewrite length_insert. }
    apply Hall in Hs. simpl in Hs. rewrite Hs. unfold rw_threads. by rewrite length_app, !length_replicate. }
  split.
  - intros i pc Hpc. destruct pc; unfold rw_step, bind, gets, modify, ret; try (by repeat case_match).
    pose proof (ri_store _ _ Hi old (list_elem_of_lookup_2 _ _ _ Hpc)) as ->. unfold int, is_int.
    by rewrite (proj2 (Z.leb_le _ _)), (proj2 (Z.leb_le _ _)) by (unfold INT_MIN, INT_MAX in *; lia).
  - destruct (rw_can_step s pcs Hi) as (i & pc & k & s' & Hpc & Hk); [by intros ->; simpl in Hlen; lia|done|].
    eexists. by eapply rw_move_thread.
Qed.

Lemma read_write_consistent_witness :
  ∃ n, counted 0 [Writes 1; Reads 1] = Some n ∧ 0 ≤ n ≤ 1 ∧
    (1 < INT_MAX →
      (∀ i pc, [R_unlock; W_lock] !! i = Some pc → rw_step pc (Shared 1 false 1 [Writes 1; Reads 1]) ≠ Undef) ∧
      ∃ x, rw_move (Shared 1 false 1 [Writes 1; Reads 1], [R_unlock; W_lock]) x).
Proof.
  apply (read_write_consistent 1 1 (Shared 1 false 1 [Writes 1; Reads 1]) [R_unlock; W_lock]); [simpl; lia|].
  do 5 (eapply rtc_l; [eapply (rw_move_thread _ _ 1); reflexivity|]; simpl).
  do 2 (eapply rtc_l; [eapply (rw_move_thread _ _ 0); reflexivity|]; simpl).
  apply rtc_refl.
Defined.
