(* ===== verification/SharedPtr.v ===== *)
(** The reference-counted pointers of src/Cpp/shared_ptr.cpp, used by any number
    of threads: the operations of [SharedCount] are atomic steps, so is
    everything a thread does to its own variables between two of them. *)
From stdpp Require Import gmap list relations.
From S2P Require Import Prelude CppHeap Threads.
#[global] Open Scope Z_scope.

(** [SharedPtr<T>]; the objects of type [T] that exist and the counts of the
    [SharedCount]s that exist. *)
Record SharedPtr := SPtr { sp_ptr : ptr; sp_ref_count : ptr }.
Record sp_heap := SPHeap { sp_objects : gset loc; sp_counts : gmap loc Z }.
Definition null_ptr : SharedPtr := SPtr None None.

(** The reference of a variable, as its count and its object, and the number of
    references to a count. *)
Abbreviation refs := (list (loc * loc)).
Definition ref_of (v : SharedPtr) : refs :=
  match v with SPtr (Some p) (Some c) => [(c, p)] | _ => [] end.
Definition occ (c : loc) (C : refs) : nat := length (filter (λ x, x.1 = c) C).
Definition var_ok (v : SharedPtr) : Prop := v = null_ptr ∨ ∃ p c, v = SPtr (Some p) (Some c).

(** Arithmetic on [std::atomic<int>] wraps around. *)
Definition wrap_int (z : Z) : Z := (z + 2 ^ 31) mod 2 ^ 32 - 2 ^ 31.

Section heap.
Context {AL : Allocator}.

Definition used (h : sp_heap) : gset loc := sp_objects h ∪ dom (sp_counts h).
(** [new T] and [delete ptr] *)
Definition new_object : M sp_heap ptr := λ h,
  let p := alloc (used h) in Done (Some p) (SPHeap ({[p]} ∪ sp_objects h) (sp_counts h)).
Definition delete_object (p : ptr) : M sp_heap unit :=
  match p with
  | None => ret tt
  | Some l => objs ← gets sp_objects;
      if decide (l ∈ objs) then modify (λ h, SPHeap (sp_objects h ∖ {[l]}) (sp_counts h)) else undef
  end.
(** [new SharedCount()] and [delete ref_count] *)
Definition new_count : M sp_heap ptr := λ h,
  let c := alloc (used h) in Done (Some c) (SPHeap (sp_objects h) (<[c:=1]> (sp_counts h))).
Definition delete_count (c : ptr) : M sp_heap unit :=
  match c with
  | None => ret tt
  | Some l => cs ← gets sp_counts; _ ← need (cs !! l); modify (λ h, SPHeap (sp_objects h) (delete l (sp_counts h)))
  end.

(** [SharedCount] *)
Definition fetch_add (c : ptr) (d : Z) : M sp_heap Z :=
  l ← need c; cs ← gets sp_counts; n ← need (cs !! l);
  modify (λ h, SPHeap (sp_objects h) (<[l:=wrap_int (n + d)]> (sp_counts h)));; ret n.
Definition add (c : ptr) : M sp_heap unit := _ ← fetch_add c 1; ret tt.
Definition minus (c : ptr) : M sp_heap Z := n ← fetch_add c (-1); int (n - 1).

(** * The threads *)

(** What a thread may do: [SharedPtr()], the copy and the move constructor, the
    assignments, [reset(new T)] and [reset()], [swap], and the destructor. Its
    variables are numbered. *)
Inductive sp_op :=
| OpNew | OpCopyNew (j : nat) | OpMoveNew (j : nat)
| OpCopyAssign (i j : nat) | OpMoveAssign (i j : nat)
| OpReset (i : nat) (fresh : bool) | OpSwap (i j : nat) | OpDestroy (i : nat).

(** Where it is: in [clean()] of the variable [i], and what follows it. *)
Inductive after := CopyFrom (j : nat) | MoveFrom (j : nat) | Take (p : ptr) | Gone.
Inductive point :=
| Between
| Cleaning (i : nat) (k : after)
| DeletePtr (i : nat) (k : after)
| DeleteCount (i : nat) (k : after)
| Nulling (i : nat) (k : after)
| Cleaned (i : nat) (k : after)
| Adding (i : nat).
Record sp_thread := SPThread { t_at : point; t_vars : list SharedPtr; t_todo : list sp_op }.

Definition var (t : sp_thread) (i : nat) : M sp_heap SharedPtr := need (t_vars t !! i).
Definition at_ (t : sp_thread) (p : point) : sp_thread := SPThread p (t_vars t) (t_todo t).
Definition with_vars (t : sp_thread) (vs : list SharedPtr) : sp_thread := SPThread (t_at t) vs (t_todo t).

(** [swap] *)
Definition swap (t : sp_thread) (i j : nat) : M sp_heap sp_thread :=
  a ← var t i; b ← var t j; ret (with_vars t (<[j:=a]> (<[i:=b]> (t_vars t)))).

(** Up to the first call of a [SharedCount]. *)
Definition begin_op (o : sp_op) (t : sp_thread) : M sp_heap sp_thread :=
  match o with
  | OpNew => ret (with_vars t (t_vars t ++ [null_ptr]))
  | OpCopyNew j =>
      other ← var t j; ret (at_ (with_vars t (t_vars t ++ [other])) (Adding (length (t_vars t))))
  | OpMoveNew j => other ← var t j; ret (with_vars t (<[j:=null_ptr]> (t_vars t) ++ [other]))
  | OpCopyAssign i j =>
      _ ← var t i; _ ← var t j; ret (if decide (i = j) then t else at_ t (Cleaning i (CopyFrom j)))
  | OpMoveAssign i j =>
      _ ← var t i; _ ← var t j; ret (if decide (i = j) then t else at_ t (Cleaning i (MoveFrom j)))
  | OpReset i fresh =>
      _ ← var t i; p ← (if fresh : bool then new_object else ret None); ret (at_ t (Cleaning i (Take p)))
  | OpSwap i j => swap t i j
  | OpDestroy i => _ ← var t i; ret (at_ t (Cleaning i Gone))
  end.

(** After [clean()]. *)
Definition finish (i : nat) (k : after) (t : sp_thread) : M sp_heap sp_thread :=
  match k with
  | CopyFrom j => other ← var t j; ret (at_ (with_vars t (<[i:=other]> (t_vars t))) (Adding i))
  | MoveFrom j =>
      other ← var t j; ret (at_ (with_vars t (<[j:=null_ptr]> (<[i:=other]> (t_vars t)))) Between)
  | Take p =>
      if non_null p then
        c ← new_count; ret (at_ (with_vars t (<[i:=SPtr p c]> (t_vars t))) Between)
      else ret (at_ t Between)
  | Gone => ret (at_ (with_vars t (delete i (t_vars t))) Between)
  end.

Definition sp_code (t : sp_thread) : instr sp_heap sp_thread :=
  match t_at t with
  | Between =>
      match t_todo t with
      | [] => IHalt
      | o :: todo => IDo (begin_op o (SPThread Between (t_vars t) todo))
      end
  | Cleaning i k =>
      IDo (v ← var t i;
           if non_null (sp_ref_count v) then
             r ← minus (sp_ref_count v); ret (at_ t (if r =? 0 then DeletePtr i k else Nulling i k))
           else ret (at_ t (Cleaned i k)))
  | DeletePtr i k => IDo (v ← var t i; delete_object (sp_ptr v);; ret (at_ t (DeleteCount i k)))
  | DeleteCount i k => IDo (v ← var t i; delete_count (sp_ref_count v);; ret (at_ t (Nulling i k)))
  | Nulling i k => IDo (_ ← var t i; ret (at_ (with_vars t (<[i:=null_ptr]> (t_vars t))) (Cleaned i k)))
  | Cleaned i k => IDo (finish i k t)
  | Adding i =>
      IDo (v ← var t i;
           if non_null (sp_ref_count v) then add (sp_ref_count v);; ret (at_ t Between) else ret (at_ t Between))
  end.

(** The threads start with variables that may refer to the same objects, since
    whoever started them gave each a copy: [shared] are the pairs of a count and
    its object, a client is a thread's first variables and what it then does.
    Every count is the number of the variables that refer to it. *)
Definition held (clients : list (list SharedPtr * list sp_op)) : refs := clients ≫= (λ c, c.1 ≫= ref_of).
Definition sp_start (shared : refs) (clients : list (list SharedPtr * list sp_op)) : machine sp_heap sp_thread :=
  Machine
    (SPHeap (list_to_set shared.*2)
       (list_to_map ((λ x, (x.1, Z.of_nat (occ x.1 (held clients)))) <$> shared)))
    0 None ((λ c, SPThread Between c.1 c.2) <$> clients).
End heap.

(** A program that uses only variables it has, [n] at first and [m] at the
    end. *)
Fixpoint uses (n : nat) (os : list sp_op) (m : nat) : Prop :=
  match os with
  | [] => n = m
  | OpNew :: os => uses (S n) os m
  | (OpCopyNew j | OpMoveNew j) :: os => (j < n)%nat ∧ uses (S n) os m
  | (OpCopyAssign i j | OpMoveAssign i j | OpSwap i j) :: os => (i < n)%nat ∧ (j < n)%nat ∧ uses n os m
  | OpReset i _ :: os => (i < n)%nat ∧ uses n os m
  | OpDestroy i :: os => (i < n)%nat ∧ uses (pred n) os m
  end.

(** The clients of [sp_start]: every variable is empty or refers to an object of
    [shared], every object of [shared] has such a variable, the programs use
    only variables they have and destroy all of them, and the counts cannot
    overflow. *)
Record clients_ok (shared : refs) (clients : list (list SharedPtr * list sp_op)) : Prop := {
  ok_counts : NoDup shared.*1;
  ok_objects : NoDup shared.*2;
  ok_held : ∀ x, x ∈ held clients ↔ x ∈ shared;
  ok_vars : Forall (λ c, Forall var_ok c.1) clients;
  ok_uses : Forall (λ c, uses (length c.1) c.2 0) clients;
  ok_size : Z.of_nat (sum_list ((λ c, length c.1 + length c.2)%nat <$> clients)) < INT_MAX
}.
