(* ===== verification/SharedPtrProps.v ===== *)
(** Reference counting is right under any interleaving: nothing is deleted
    twice or used after it was deleted, and nothing is left over. The threads
    that use reference-counted pointers. *)
From stdpp Require Import gmap list relations.
From S2P Require Import Prelude CppHeap Threads SharedPtr.
(** * The heap

    [C]: the references that are counted, as pairs of a block and its object;
    [D]: those whose thread has seen the count fall to 0 and still has to
    delete both; [E]: those that still have to delete the block; [F]: objects
    that no block owns yet. *)

Definition heap_inv (h : sp_heap) (C D E : refs) (F : list loc) : Prop :=
  ∃ B : gmap loc loc,
    (∀ c p, (c, p) ∈ C ++ D → B !! c = Some p) ∧
    (∀ c p, B !! c = Some p → sp_counts h !! c = Some (Z.of_nat (occ c C)) ∧ (occ c C = 0%nat ↔ c ∈ D.*1)) ∧
    NoDup D.*1 ∧
    elements (dom (sp_counts h)) ≡ₚ (map_to_list B).*1 ++ E.*1 ∧
    elements (sp_objects h) ≡ₚ (map_to_list B).*2 ++ F.

#[export] Instance occ_proper c : Proper ((≡ₚ) ==> (=)) (occ c).
Proof. intros C C' HC. unfold occ. by rewrite HC. Qed.
Lemma occ_cons c x C : occ c (x :: C) = ((if decide (x.1 = c) then 1 else 0) + occ c C)%nat.
Proof. unfold occ. rewrite filter_cons. by destruct (decide (x.1 = c)). Qed.
Lemma occ_elem c p C : (c, p) ∈ C → (0 < occ c C)%nat.
Proof.
  intros Hin. unfold occ. destruct (filter (λ x, x.1 = c) C) as [|y l] eqn:E; [|simpl; lia].
  assert ((c, p) ∈ filter (λ x, x.1 = c) C) as Hf by (by apply list_elem_of_filter). rewrite E in Hf.
  by apply not_elem_of_nil in Hf.
Qed.

#[export] Instance heap_inv_proper h : Proper ((≡ₚ) ==> (≡ₚ) ==> (≡ₚ) ==> (≡ₚ) ==> iff) (heap_inv h).
Proof.
  intros C C' HC D D' HD E E' HE F F' HF. unfold heap_inv. setoid_rewrite HC. setoid_rewrite HD.
  setoid_rewrite HE. setoid_rewrite HF. done.
Qed.

Lemma wrap_int_id z : INT_MIN ≤ z ≤ INT_MAX → wrap_int z = z.
Proof. unfold INT_MIN, INT_MAX, wrap_int. intros Hz. rewrite Z.mod_small; lia. Qed.

Section heap.
Context {AL : Allocator}.
Implicit Types (C D E : refs) (F : list loc) (h : sp_heap).

Lemma wp_fetch_add h c n d (Q : Z → sp_heap → Prop) :
  sp_counts h !! c = Some n → INT_MIN ≤ n + d ≤ INT_MAX →
  Q n (SPHeap (sp_objects h) (<[c:=n + d]> (sp_counts h))) → wp (fetch_add (Some c) d) h Q.
Proof.
  intros Hc Hn HQ. unfold fetch_add. repeat wp_base. eapply wp_need; [exact Hc|].
  repeat wp_base. by rewrite wrap_int_id.
Qed.
Lemma dom_elements (m : gmap loc Z) c n n' : m !! c = Some n → dom (<[c:=n']> m) = dom m.
Proof. intros Hc. apply dom_insert_lookup_L. by eexists. Qed.

Lemma wp_minus h c p C D E F (Q : Z → sp_heap → Prop) :
  heap_inv h ((c, p) :: C) D E F → Z.of_nat (length C) < INT_MAX →
  (∀ h', heap_inv h' C (if decide (occ c C = 0%nat) then (c, p) :: D else D) E F →
    Q (Z.of_nat (occ c C)) h') →
  wp (minus (Some c)) h Q.
Proof.
  intros (B & HB & Hcnt & HD & Hdom & Hobj) Hmax HQ.
  assert (occ c C ≤ length C)%nat as Hle by apply length_filter.
  destruct (Hcnt c p) as [Hc H0]; [apply HB; left|].
  rewrite occ_cons, decide_True in Hc, H0 by done.
  unfold minus. wp_base. eapply wp_fetch_add; [exact Hc|unfold INT_MIN, INT_MAX in *; lia|].
  apply wp_int; [unfold INT_MIN, INT_MAX in *; lia|].
  replace (Z.of_nat (1 + occ c C) - 1) with (Z.of_nat (occ c C)) by lia.
  replace (Z.of_nat (1 + occ c C) + -1) with (Z.of_nat (occ c C)) by lia.
  apply HQ. exists B. simpl. split_and!.
  - intros c' p'. case_decide; rewrite ?elem_of_app, ?elem_of_cons; intros Hin.
    + destruct Hin as [Hin|[[= -> ->]|Hin]]; apply HB; set_solver.
    + apply HB. set_solver.
  - intros c' p' Hc'. specialize (Hcnt c' p' Hc') as [Hn Hz]. rewrite occ_cons in Hn, Hz. simpl in *.
    destruct (decide (c = c')) as [<-|Hne].
    + rewrite lookup_insert_eq. split; [done|]. case_decide; [set_solver|]. simpl in Hz. split; [lia|].
      intros Hin. by apply Hz in Hin.
    + rewrite lookup_insert_ne by done. split; [done|]. case_decide; [|done]. rewrite Hz. csimpl. set_solver.
  - case_decide; [|done]. csimpl. constructor; [|done]. intros Hin. apply H0 in Hin. lia.
  - by rewrite (dom_elements _ _ _ _ Hc).
  - done.
Qed.

Lemma wp_add h c p C D E F (Q : unit → sp_heap → Prop) :
  heap_inv h C D E F → (c, p) ∈ C → Z.of_nat (length C) < INT_MAX →
  (∀ h', heap_inv h' ((c, p) :: C) D E F → Q tt h') → wp (add (Some c)) h Q.
Proof.
  intros (B & HB & Hcnt & HD & Hdom & Hobj) Hin Hmax HQ.
  assert (occ c C ≤ length C)%nat as Hle by apply length_filter. pose proof (occ_elem _ _ _ Hin) as Hpos.
  destruct (Hcnt c p) as [Hc H0]; [apply HB; set_solver|].
  unfold add. wp_base. eapply wp_fetch_add; [exact Hc|unfold INT_MIN, INT_MAX in *; lia|].
  apply wp_ret. apply HQ. exists B. simpl. split_and!.
  - intros c' p'. rewrite elem_of_cons. intros [[= -> ->]|Hin']; apply HB; set_solver.
  - intros c' p' Hc'. specialize (Hcnt c' p' Hc') as [Hn Hz]. rewrite occ_cons. simpl.
    destruct (decide (c = c')) as [<-|Hne].
    + rewrite lookup_insert_eq. split; [do 2 f_equal; lia|]. split; [lia|]. intros Hd. apply H0 in Hd. lia.
    + by rewrite lookup_insert_ne.
  - done.
  - by rewrite (dom_elements _ _ _ _ Hc).
  - done.
Qed.
Lemma elements_remove (X : gset loc) x l : elements X ≡ₚ x :: l → x ∈ X ∧ elements (X ∖ {[x]}) ≡ₚ l.
Proof.
  intros HX. assert (x ∈ X) as Hx by (apply elem_of_elements; rewrite HX; left). split; [done|].
  apply (Permutation_cons_inv (a:=x)). rewrite <- HX.
  rewrite (union_difference_L {[x]} X) at 2 by set_solver.
  rewrite elements_disj_union by set_solver. by rewrite elements_singleton.
Qed.
Lemma elements_add (X : gset loc) x l : x ∉ X → elements X ≡ₚ l → elements ({[x]} ∪ X) ≡ₚ x :: l.
Proof. intros Hx HX. rewrite elements_union_singleton by done. by rewrite HX. Qed.

Lemma wp_delete_object h c p C D E F (Q : unit → sp_heap → Prop) :
  heap_inv h C ((c, p) :: D) E F →
  (∀ h', heap_inv h' C D ((c, p) :: E) F → Q tt h') → wp (delete_object (Some p)) h Q.
Proof.
  intros (B & HB & Hcnt & HD & Hdom & Hobj) HQ.
  assert (B !! c = Some p) as Hc by (apply HB; set_solver).
  pose proof (map_to_list_delete B c p Hc) as HBl. rewrite <- HBl in Hdom, Hobj. csimpl in *.
  apply elements_remove in Hobj as [Hp Hobj]. apply NoDup_cons in HD as [Hn HD].
  unfold delete_object. repeat wp_base. rewrite decide_True by done. apply wp_modify.
  apply HQ. exists (delete c B). simpl. split_and!.
  - intros c' p' Hin. rewrite lookup_delete_ne; [apply HB; set_solver|]. intros ->.
    apply elem_of_app in Hin as [Hin|Hin].
    + destruct (Hcnt c' p Hc) as [_ Hz]. apply occ_elem in Hin. rewrite (proj2 Hz) in Hin; [lia|left].
    + apply Hn. apply list_elem_of_fmap. by exists (c', p').
  - intros c' p' [Hne Hc']%lookup_delete_Some. destruct (Hcnt c' p' Hc') as [Hn' Hz]. split; [done|].
    rewrite Hz, elem_of_cons. naive_solver.
  - done.
  - rewrite Hdom. by rewrite Permutation_middle.
  - done.
Qed.

Lemma wp_delete_count h c p C D E F (Q : unit → sp_heap → Prop) :
  heap_inv h C D ((c, p) :: E) F →
  (∀ h', heap_inv h' C D E F → Q tt h') → wp (delete_count (Some c)) h Q.
Proof.
  intros (B & HB & Hcnt & HD & Hdom & Hobj) HQ. csimpl in *.
  rewrite <- Permutation_middle in Hdom.
  pose proof (NoDup_elements (dom (sp_counts h))) as Hnd. rewrite Hdom in Hnd. apply NoDup_cons in Hnd as [Hc _].
  apply elements_remove in Hdom as [[n Hn]%elem_of_dom Hdom].
  unfold delete_count. repeat wp_base. eapply wp_need; [exact Hn|]. apply wp_modify.
  apply HQ. exists B. simpl. split_and!; [done| |done| |done].
  - intros c' p' Hc'. rewrite lookup_delete_ne; [by eapply Hcnt|]. intros ->. apply Hc.
    apply elem_of_app. left. apply list_elem_of_fmap. exists (c', p'). split; [done|]. by apply elem_of_map_to_list.
  - by rewrite dom_delete_L.
Qed.

Lemma wp_new_object h C D E F (Q : ptr → sp_heap → Prop) :
  heap_inv h C D E F → (∀ p h', heap_inv h' C D E (p :: F) → Q (Some p) h') → wp new_object h Q.
Proof.
  intros (B & HB & Hcnt & HD & Hdom & Hobj) HQ. apply HQ. exists B. simpl. split_and!; try done.
  rewrite <- Permutation_middle. apply elements_add; [|done].
  pose proof (alloc_fresh (used h)) as Hf. unfold used in *. set_solver.
Qed.

Lemma wp_new_count h p C D E F (Q : ptr → sp_heap → Prop) :
  heap_inv h C D E (p :: F) → (∀ c h', heap_inv h' ((c, p) :: C) D E F → Q (Some c) h') → wp new_count h Q.
Proof.
  intros (B & HB & Hcnt & HD & Hdom & Hobj) HQ. apply HQ. set (c := alloc (used h)).
  assert (c ∉ dom (sp_counts h)) as Hc.
  { pose proof (alloc_fresh (used h)) as Hf. unfold used in *. set_solver. }
  assert (B !! c = None) as HBc.
  { destruct (B !! c) as [q|] eqn:E1; [|done]. exfalso. apply Hc. apply elem_of_elements. rewrite Hdom.
    apply elem_of_app. left. apply list_elem_of_fmap. exists (c, q). split; [done|]. by apply elem_of_map_to_list. }
  assert (∀ q, (c, q) ∉ C ++ D) as Hno by (intros q Hin%HB; congruence).
  assert (occ c C = 0%nat) as H0.
  { destruct (occ c C) as [|k] eqn:Eo; [done|]. exfalso. unfold occ in Eo.
    destruct (filter (λ x, x.1 = c) C) as [|[c' q] l] eqn:Ef; [done|].
    assert ((c', q) ∈ filter (λ x, x.1 = c) C) as [Hc' Hin]%list_elem_of_filter by (rewrite Ef; left).
    simpl in Hc'. subst c'. apply (Hno q). apply elem_of_app. by left. }
  exists (<[c:=p]> B). simpl. split_and!.
  - intros c' p'. rewrite elem_of_cons. intros [[= -> ->]|Hin]; [apply lookup_insert_eq|].
    rewrite lookup_insert_ne; [by apply HB|]. intros <-. by apply (Hno p').
  - intros c' p' Hc'. rewrite occ_cons. simpl. destruct (decide (c = c')) as [<-|Hne].
    + rewrite lookup_insert_eq, H0. split; [done|]. split; [done|].
      intros ([c' q] & -> & Hin)%list_elem_of_fmap. destruct (Hno q). apply elem_of_app. by right.
    + rewrite lookup_insert_ne in Hc' by done. rewrite lookup_insert_ne by done. by apply (Hcnt c' p').
  - done.
  - rewrite dom_insert_L, map_to_list_insert by done. csimpl. by apply elements_add.
  - rewrite map_to_list_insert by done. csimpl. by rewrite Hobj, Permutation_middle.
Qed.
End heap.

(** * What a thread holds *)

Definition the_ref (t : sp_thread) (i : nat) : refs := match t_vars t !! i with Some v => ref_of v | None => [] end.
(** All its variables, except the one whose reference has been given up, or is
    still to be counted. *)
Definition counted (t : sp_thread) : refs :=
  match t_at t with
  | DeletePtr i _ | DeleteCount i _ | Nulling i _ | Adding i => delete i (t_vars t) ≫= ref_of
  | _ => t_vars t ≫= ref_of
  end.
Definition dying (t : sp_thread) : refs := match t_at t with DeletePtr i _ => the_ref t i | _ => [] end.
Definition dying_block (t : sp_thread) : refs := match t_at t with DeleteCount i _ => the_ref t i | _ => [] end.
(** An object that is to be taken. *)
Definition fresh_of (k : after) : list loc := match k with Take (Some p) => [p] | _ => [] end.
Definition fresh_objects (t : sp_thread) : list loc :=
  match t_at t with
  | Cleaning _ k | DeletePtr _ k | DeleteCount _ k | Nulling _ k | Cleaned _ k => fresh_of k
  | _ => []
  end.

Definition after_ok (i : nat) (k : after) (t : sp_thread) : Prop :=
  (i < length (t_vars t))%nat ∧
  match k with
  | CopyFrom j | MoveFrom j =>
      j ≠ i ∧ (j < length (t_vars t))%nat ∧ uses (length (t_vars t)) (t_todo t) 0
  | Take _ => uses (length (t_vars t)) (t_todo t) 0
  | Gone => uses (pred (length (t_vars t))) (t_todo t) 0
  end.
Definition point_ok (t : sp_thread) : Prop :=
  match t_at t with
  | Between => uses (length (t_vars t)) (t_todo t) 0
  | Cleaning i k | Nulling i k => after_ok i k t
  | DeletePtr i k | DeleteCount i k => after_ok i k t ∧ ∃ p c, t_vars t !! i = Some (SPtr (Some p) (Some c))
  | Cleaned i k => after_ok i k t ∧ t_vars t !! i = Some null_ptr
  | Adding i => uses (length (t_vars t)) (t_todo t) 0 ∧
      ∃ v j, t_vars t !! i = Some v ∧ j ≠ i ∧ t_vars t !! j = Some v
  end.
Definition thread_ok (t : sp_thread) : Prop := Forall var_ok (t_vars t) ∧ point_ok t.

Lemma refs_split vs i v : vs !! i = Some v → vs ≫= ref_of ≡ₚ ref_of v ++ (delete i vs ≫= ref_of).
Proof. intros Hi. rewrite (delete_Permutation vs i v Hi) at 1. by rewrite bind_cons. Qed.
Lemma delete_insert_list {A} (l : list A) i x : delete i (<[i:=x]> l) = delete i l.
Proof. revert i. induction l as [|y l IH]; intros [|i]; simpl; [done..|]. f_equal. apply IH. Qed.
Lemma refs_insert vs i v : (i < length vs)%nat → <[i:=v]> vs ≫= ref_of ≡ₚ ref_of v ++ (delete i vs ≫= ref_of).
Proof.
  intros Hi. rewrite (refs_split (<[i:=v]> vs) i v) by (by apply list_lookup_insert_eq). by rewrite delete_insert_list.
Qed.
Lemma swap_Permutation {A} (vs : list A) i j a b :
  vs !! i = Some a → vs !! j = Some b → <[j:=a]> (<[i:=b]> vs) ≡ₚ vs.
Proof.
  intros Hi Hj. pose proof (lookup_lt_Some _ _ _ Hi). pose proof (lookup_lt_Some _ _ _ Hj).
  set (w := <[i:=b]> vs).
  assert (w !! j = Some b) as Hw.
  { unfold w. destruct (decide (i = j)) as [->|]; [by apply list_lookup_insert_eq|]. by rewrite list_lookup_insert_ne. }
  assert (w ≡ₚ b :: delete i vs) as E1.
  { rewrite (delete_Permutation w i b) by (by apply list_lookup_insert_eq). unfold w. by rewrite delete_insert_list. }
  apply (Permutation_cons_inv (a:=b)).
  rewrite (delete_Permutation (<[j:=a]> w) j a) by (apply list_lookup_insert_eq; unfold w; by rewrite length_insert).
  rewrite delete_insert_list, Permutation_swap, <- (delete_Permutation w j b Hw), E1, Permutation_swap.
  by rewrite <- (delete_Permutation vs i a Hi).
Qed.
Lemma refs_length vs : (length (vs ≫= ref_of) ≤ length vs)%nat.
Proof.
  induction vs as [|v vs IH]; [done|]. rewrite bind_cons, length_app. simpl.
  destruct v as [[p|] [c|]]; simpl; lia.
Qed.
Lemma refs_snoc vs v : (vs ++ [v]) ≫= ref_of = (vs ≫= ref_of) ++ ref_of v.
Proof. rewrite bind_app. simpl. by rewrite app_nil_r. Qed.

Lemma length_delete_le {A} (l : list A) i : (length (delete i l) ≤ length l)%nat.
Proof. revert i. induction l as [|y l IH]; intros [|i]; simpl; try specialize (IH i); lia. Qed.

Lemma delete_keeps {A} (l : list A) i j x : l !! j = Some x → j ≠ i → x ∈ delete i l.
Proof.
  intros Hj Hne. apply list_elem_of_lookup. destruct (decide (j < i)%nat).
  - exists j. by rewrite list_lookup_delete_lt.
  - exists (pred j). rewrite list_lookup_delete_ge by lia. by replace (S (pred j)) with j by lia.
Qed.

(** Every thread may still create as many variables as it has operations. *)
Definition size (t : sp_thread) : nat := length (t_vars t) + length (t_todo t).
Lemma counted_size t : (length (counted t) ≤ size t)%nat.
Proof.
  unfold counted, size. pose proof (refs_length (t_vars t)) as H1.
  assert (∀ i, length (delete i (t_vars t) ≫= ref_of) ≤ length (t_vars t))%nat as H2.
  { intros i. etrans; [apply refs_length|]. apply length_delete_le. }
  destruct (t_at t); try lia; specialize (H2 i); lia.
Qed.

Section steps.
Context {AL : Allocator}.
Implicit Types (C D E : refs) (F : list loc) (h : sp_heap) (t : sp_thread).

(** What one step of a thread keeps, [C] to [F] being what the others hold. *)
Definition keeps_inv C D E F t (t' : sp_thread) (h' : sp_heap) : Prop :=
  thread_ok t' ∧ (size t' ≤ size t)%nat ∧
  heap_inv h' (counted t' ++ C) (dying t' ++ D) (dying_block t' ++ E) (fresh_objects t' ++ F).

Lemma wp_var t i v h (Q : SharedPtr → sp_heap → Prop) : t_vars t !! i = Some v → Q v h → wp (var t i) h Q.
Proof. intros Hv HQ. unfold var. by eapply wp_need. Qed.

Lemma var_in (vs : list SharedPtr) i : (i < length vs)%nat → ∃ v, vs !! i = Some v.
Proof. intros Hi. by apply lookup_lt_is_Some_2. Qed.

Lemma wp_begin_op o vs todo C D E F h :
  Forall var_ok vs → uses (length vs) (o :: todo) 0 →
  heap_inv h ((vs ≫= ref_of) ++ C) D E F →
  wp (begin_op o (SPThread Between vs todo)) h (keeps_inv C D E F (SPThread Between vs (o :: todo))).
Proof.
  intros Hok Huse Hi. unfold keeps_inv, thread_ok, point_ok, size.
  destruct o as [|j|j|i j|i j|i fresh|i j|i]; cbn [uses begin_op] in *.
  - wp_base. simpl. split_and!.
    + apply Forall_app. split; [done|]. repeat constructor. 
    + rewrite length_app. simpl. by rewrite Nat.add_1_r.
    + rewrite length_app. simpl. lia.
    + unfold counted. simpl. by rewrite refs_snoc, app_nil_r.
  - destruct Huse as [Hj Huse]. destruct (var_in _ _ Hj) as [v Hv]. wp_base. eapply wp_var; [done|]. wp_base. simpl.
    pose proof (lookup_lt_Some _ _ _ Hv). split_and!.
    + apply Forall_app. split; [done|]. constructor; [|done]. by eapply Forall_lookup_1.
    + rewrite length_app. simpl. by rewrite Nat.add_1_r.
    + exists v, j. split_and!; [by rewrite lookup_app_r, Nat.sub_diag by done|lia|by rewrite lookup_app_l].
    + rewrite length_app. simpl. lia.
    + unfold counted. simpl. rewrite delete_middle. by rewrite app_nil_r.
  - destruct Huse as [Hj Huse]. destruct (var_in _ _ Hj) as [v Hv]. wp_base. eapply wp_var; [done|]. wp_base. simpl.
    split_and!.
    + apply Forall_app. split; [by apply Forall_insert; [|by left]|]. constructor; [|done]. by eapply Forall_lookup_1.
    + rewrite length_app, length_insert. simpl. by rewrite Nat.add_1_r.
    + rewrite length_app, length_insert. simpl. lia.
    + unfold counted. simpl. rewrite refs_snoc, refs_insert by done. simpl. rewrite (refs_split vs j v Hv) in Hi.
      by rewrite (Permutation_app_comm _ (ref_of v)).
  - destruct Huse as (Hii & Hj & Huse). destruct (var_in _ _ Hii) as [v Hv], (var_in _ _ Hj) as [w Hw].
    wp_base. eapply wp_var; [done|]. wp_base. eapply wp_var; [done|]. wp_base.
    destruct (decide (i = j)); simpl; (split; [split; [done|]|split; [lia|exact Hi]]); [done|].
    split; simpl; [done|]. by split_and!.
  - destruct Huse as (Hii & Hj & Huse). destruct (var_in _ _ Hii) as [v Hv], (var_in _ _ Hj) as [w Hw].
    wp_base. eapply wp_var; [done|]. wp_base. eapply wp_var; [done|]. wp_base.
    destruct (decide (i = j)); simpl; (split; [split; [done|]|split; [lia|exact Hi]]); [done|].
    split; simpl; [done|]. by split_and!.
  - destruct Huse as [Hii Huse]. destruct (var_in _ _ Hii) as [v Hv].
    wp_base. eapply wp_var; [done|]. wp_base. destruct fresh.
    + eapply wp_new_object; [done|]. intros p h' Hi'. wp_base. simpl.
      split; [by repeat split|]. split; [simpl; lia|exact Hi'].
    + do 2 wp_base. simpl. split; [by repeat split|]. split; [simpl; lia|exact Hi].
  - destruct Huse as (Hii & Hj & Huse). destruct (var_in _ _ Hii) as [v Hv], (var_in _ _ Hj) as [w Hw].
    unfold swap. wp_base. eapply wp_var; [done|]. wp_base. eapply wp_var; [done|]. wp_base. simpl. split_and!.
    + apply Forall_insert; [apply Forall_insert; [done|]|]; by eapply Forall_lookup_1.
    + by rewrite !length_insert.
    + rewrite !length_insert. lia.
    + unfold counted. simpl.
      assert (<[j:=v]> (<[i:=w]> vs) ≫= ref_of ≡ₚ vs ≫= ref_of) as ->; [|done].
      rewrite (swap_Permutation vs i j v w) by done. done.
  - destruct Huse as [Hii Huse]. destruct (var_in _ _ Hii) as [v Hv].
    wp_base. eapply wp_var; [done|]. wp_base. simpl. split; [by repeat split|]. split; [simpl; lia|exact Hi].
Qed.

Lemma wp_finish i k vs todo C D E F h :
  Forall var_ok vs → after_ok i k (SPThread (Cleaned i k) vs todo) → vs !! i = Some null_ptr →
  heap_inv h ((vs ≫= ref_of) ++ C) D E (fresh_of k ++ F) →
  wp (finish i k (SPThread (Cleaned i k) vs todo)) h (keeps_inv C D E F (SPThread (Cleaned i k) vs todo)).
Proof.
  intros Hok [Hii Hk] Hnull Hi. unfold keeps_inv, thread_ok, point_ok, size. simpl in *.
  rewrite (refs_split vs i null_ptr Hnull) in Hi. simpl in Hi.
  destruct k as [j|j|p|]; simpl in *.
  - destruct Hk as (Hij & Hj & Huse). destruct (var_in _ _ Hj) as [v Hv]. wp_base. eapply wp_var; [done|]. wp_base. simpl.
    rewrite length_insert. split_and!.
    + apply Forall_insert; [done|]. by eapply Forall_lookup_1.
    + done.
    + exists v, j. split_and!; [by apply list_lookup_insert_eq|done|by rewrite list_lookup_insert_ne].
    + lia.
    + unfold counted. simpl. by rewrite delete_insert_list.
  - destruct Hk as (Hij & Hj & Huse). destruct (var_in _ _ Hj) as [v Hv]. wp_base. eapply wp_var; [done|]. wp_base. simpl.
    rewrite !length_insert. split_and!.
    + apply Forall_insert; [apply Forall_insert; [done|]|by left]. by eapply Forall_lookup_1.
    + done.
    + lia.
    + unfold counted. simpl.
      assert (<[j:=null_ptr]> (<[i:=v]> vs) ≫= ref_of ≡ₚ delete i vs ≫= ref_of) as ->; [|done].
      rewrite (swap_Permutation vs i j null_ptr v) by done. by rewrite (refs_split vs i null_ptr Hnull).
  - destruct p as [p|]; simpl in *; wp_base.
    + eapply wp_new_count; [done|]. intros c h' Hi'. wp_base. simpl. rewrite length_insert. split_and!.
      * apply Forall_insert; [done|]. right. eauto.
      * done.
      * lia.
      * unfold counted. simpl. by rewrite refs_insert by done.
    + simpl. split_and!; [done|done|lia|]. unfold counted. simpl. by rewrite (refs_split vs i null_ptr Hnull).
  - wp_base. simpl. split_and!.
    + by apply Forall_delete.
    + rewrite length_delete by eauto. by rewrite Nat.sub_1_r.
    + rewrite length_delete by eauto. lia.
    + done.
Qed.

Lemma wp_sp_code t m C D E F h :
  thread_ok t → sp_code t = IDo m → Z.of_nat (size t + length C) < INT_MAX →
  heap_inv h (counted t ++ C) (dying t ++ D) (dying_block t ++ E) (fresh_objects t ++ F) →
  wp m h (keeps_inv C D E F t).
Proof.
  intros [Hok Hp] Hm Hmax Hi. pose proof (counted_size t) as Hsz.
  destruct t as [pt vs todo]. unfold point_ok in Hp. simpl in *.
  destruct pt as [|i k|i k|i k|i k|i k|i]; simpl in *; unfold sp_code in Hm; simpl in Hm.
  - destruct todo as [|o todo]; [done|]. injection Hm as <-. by apply wp_begin_op.
  - injection Hm as <-. destruct Hp as [Hii Hk]. destruct (var_in _ _ Hii) as [v Hv]. simpl in *.
    wp_base. eapply wp_var; [done|]. unfold counted in Hi. simpl in Hi. rewrite (refs_split vs i v Hv) in Hi.
    destruct (Forall_lookup_1 _ _ _ _ Hok Hv) as [->|(p & c & ->)]; simpl in *.
    + wp_base. split; [by repeat split|]. split; [done|]. unfold counted. simpl. by rewrite (refs_split vs i _ Hv).
    + wp_base. eapply wp_minus; [exact Hi| |].
      { rewrite length_app. pose proof (refs_length (delete i vs)). pose proof (length_delete_le vs i).
        unfold size in *. simpl in *. lia. }
      intros h' Hi'. wp_base. unfold keeps_inv, counted, dying, the_ref. simpl.
      case_decide as Ho; [rewrite Ho in *|rewrite (proj2 (Z.eqb_neq _ 0)) by lia]; simpl; unfold the_ref; simpl.
      * rewrite Hv. simpl. split; [split; [done|split; [done|eauto]]|]. by split; [unfold size; simpl|].
      * split; [split; [done|done]|]. by split; [unfold size; simpl|].
  - injection Hm as <-. destruct Hp as (Hk & p & c & Hv). simpl in *.
    wp_base. eapply wp_var; [done|]. unfold dying, the_ref in Hi. simpl in Hi. rewrite Hv in Hi. simpl in Hi. simpl.
    wp_base. eapply wp_delete_object; [exact Hi|]. intros h' Hi'. wp_base.
    unfold keeps_inv, dying_block, the_ref. simpl. unfold the_ref. simpl. rewrite Hv. simpl.
    split; [split; [done|split; [done|eauto]]|]. by split; [unfold size; simpl|].
  - injection Hm as <-. destruct Hp as (Hk & p & c & Hv). simpl in *.
    wp_base. eapply wp_var; [done|]. unfold dying_block, the_ref in Hi. simpl in Hi. rewrite Hv in Hi. simpl in Hi. simpl.
    wp_base. eapply wp_delete_count; [exact Hi|]. intros h' Hi'. wp_base.
    split; [by split|]. by split; [unfold size; simpl|].
  - injection Hm as <-. pose proof Hp as [Hii Hk]. destruct (var_in _ _ Hii) as [v Hv]. simpl in *.
    wp_base. eapply wp_var; [done|]. wp_base. unfold keeps_inv, thread_ok, point_ok, size, after_ok. simpl.
    rewrite length_insert. split; [split; [by apply Forall_insert; [|left]|split; [done|by apply list_lookup_insert_eq]]|].
    split; [done|]. unfold counted in *. simpl in *. by rewrite refs_insert by done.
  - injection Hm as <-. destruct Hp as [Hp Hnull]. by apply wp_finish.
  - injection Hm as <-. destruct Hp as (Huse & v & j & Hv & Hij & Hj). simpl in *.
    wp_base. eapply wp_var; [done|]. unfold counted in Hi. simpl in Hi.
    destruct (Forall_lookup_1 _ _ _ _ Hok Hv) as [->|(p & c & ->)]; simpl.
    + wp_base. split; [by split|]. split; [unfold size; done|]. unfold counted. simpl. by rewrite (refs_split vs i _ Hv).
    + wp_base. eapply (wp_add _ _ p); [exact Hi| | |].
      * apply elem_of_app. left. apply list_elem_of_bind. exists (SPtr (Some p) (Some c)). split; [by left|].
        by apply (delete_keeps vs i j).
      * rewrite length_app. pose proof (refs_length (delete i vs)). pose proof (length_delete_le vs i).
        unfold size in *. simpl in *. lia.
      * intros h' Hi'. wp_base. split; [by split|]. split; [unfold size; done|].
        unfold counted. simpl. by rewrite (refs_split vs i _ Hv).
Qed.
End steps.

(** * The machine *)
Section machine.
Context {AL : Allocator}.
Implicit Types s : machine sp_heap sp_thread.

Definition sp_inv s : Prop :=
  Forall thread_ok (mc_pcs s) ∧ Z.of_nat (total size (mc_pcs s)) < INT_MAX ∧
  heap_inv (mc_obj s) (mc_pcs s ≫= counted) (mc_pcs s ≫= dying) (mc_pcs s ≫= dying_block) (mc_pcs s ≫= fresh_objects).

(** One thread and the others. *)
Lemma held_split {A} (f : sp_thread → list A) pcs i t :
  pcs !! i = Some t → pcs ≫= f ≡ₚ f t ++ (delete i pcs ≫= f).
Proof. intros Hi. rewrite (delete_Permutation pcs i t Hi) at 1. by rewrite bind_cons. Qed.
Lemma held_insert {A} (f : sp_thread → list A) pcs i t t' :
  pcs !! i = Some t → <[i:=t']> pcs ≫= f ≡ₚ f t' ++ (delete i pcs ≫= f).
Proof.
  intros Hi. rewrite (held_split f (<[i:=t']> pcs) i t') by (by eapply list_lookup_insert_eq, lookup_lt_Some).
  by rewrite delete_insert_list.
Qed.
Lemma counted_all (pcs : list sp_thread) : (length (pcs ≫= counted) ≤ total size pcs)%nat.
Proof.
  induction pcs as [|t pcs IH]; [done|]. rewrite bind_cons, length_app. pose proof (counted_size t).
  change (total size (t :: pcs)) with (size t + total size pcs)%nat. lia.
Qed.
Lemma counted_total (pcs : list sp_thread) i t : pcs !! i = Some t →
  (size t + length (delete i pcs ≫= counted) ≤ total size pcs)%nat.
Proof.
  intros Hi. pose proof (counted_all (delete i pcs)) as Hd.
  assert (total size pcs = size t + total size (delete i pcs))%nat; [|lia].
  revert i Hi Hd. induction pcs as [|t' pcs IH]; intros [|i] Hi Hd; simplify_eq/=; [done|].
  change (total size (t' :: pcs)) with (size t' + total size pcs)%nat.
  change (total size (t' :: delete i pcs)) with (size t' + total size (delete i pcs))%nat.
  rewrite (IH i Hi (counted_all _)). lia.
Qed.

Lemma wp_machine s i t m :
  sp_inv s → mc_pcs s !! i = Some t → sp_code t = IDo m →
  wp m (mc_obj s) (λ t' h', sp_inv (Machine h' (mc_sem s) (mc_owner s) (<[i:=t']> (mc_pcs s)))).
Proof.
  intros (Hok & Hsize & Hi) Hp Hm. pose proof (counted_total _ _ _ Hp) as Htot.
  rewrite (held_split counted _ _ _ Hp), (held_split dying _ _ _ Hp), (held_split dying_block _ _ _ Hp),
    (held_split fresh_objects _ _ _ Hp) in Hi.
  eapply wp_mono; [eapply wp_sp_code; [by eapply Forall_lookup_1|done| |exact Hi]; lia|].
  intros t' h' (Hok' & Hsz & Hi'). split; [|split]; simpl.
  - by apply Forall_insert.
  - pose proof (total_insert size _ _ _ t' Hp). lia.
  - by rewrite !(held_insert _ _ _ _ _ Hp).
Qed.

Lemma sp_step s s' : sp_inv s → mstep sp_code s s' → sp_inv s'.
Proof.
  intros Hi Hs. destruct Hs as [q n o pcs i t k Hp Hc|q n o pcs i t k Hp Hc|q n pcs i t k Hp Hc|
    q n pcs i t k Hp Hc|q n o pcs i t m k q' Hp Hc Hm];
    try (unfold sp_code in Hc; repeat case_match; discriminate Hc).
  pose proof (wp_machine _ i t m Hi Hp Hc) as Hw. unfold wp in Hw. simpl in Hw. by rewrite Hm in Hw.
Qed.
Lemma sp_steps s s' : sp_inv s → rtc (mstep sp_code) s s' → sp_inv s'.
Proof. intros Hi Hs. induction Hs as [|s s1 s' H1 _ IH]; [done|]. apply IH. by eapply sp_step. Qed.
Lemma sp_safe s : sp_inv s → ¬ mcrashed sp_code s.
Proof.
  intros Hi (i & t & Hp & [(m & Hc & Hu)|(k & Hc & _)]).
  - destruct (wp_elim _ _ _ (wp_machine _ i t m Hi Hp Hc)) as (? & ? & Hd & _). congruence.
  - unfold sp_code in Hc. repeat case_match; discriminate Hc.
Qed.

Definition point_left (p : point) : nat :=
  match p with
  | Between => 0 | Adding _ => 1 | Cleaned _ _ => 2 | Nulling _ _ => 3 | DeleteCount _ _ => 4
  | DeletePtr _ _ => 5 | Cleaning _ _ => 6
  end.
#[export, program] Instance sp_potential : Potential sp_code := {|
  cost := 0;
  left_ t := (7 * length (t_todo t) + point_left (t_at t))%nat
|}.
Next Obligation.
  intros [pt vs todo]. unfold sp_code. simpl. destruct pt as [|i k|i k|i k|i k|i k|i]; simpl.
  - destruct todo as [|o todo]; [done|]. intros q t' q' Hm. simpl.
    destruct o; simpl in Hm; unfold swap, var in Hm; repeat case_match; done_inv Hm; repeat case_match; simplify_eq/=; lia.
  - intros q t' q' Hm. unfold var in Hm. done_inv Hm; repeat case_match; simplify_eq/=; lia.
  - intros q t' q' Hm. unfold var in Hm. done_inv Hm; simplify_eq/=; lia.
  - intros q t' q' Hm. unfold var in Hm. done_inv Hm; simplify_eq/=; lia.
  - intros q t' q' Hm. unfold var in Hm. done_inv Hm; simplify_eq/=; lia.
  - intros q t' q' Hm. destruct k; simpl in Hm; unfold var in Hm; done_inv Hm; simplify_eq/=; lia.
  - intros q t' q' Hm. unfold var in Hm. done_inv Hm; simplify_eq/=; lia.
Qed.

Lemma bind_nothing {A} (f : sp_thread → list A) (cs : list (list SharedPtr * list sp_op)) :
  (∀ c, f (SPThread Between c.1 c.2) = []) → ((λ c, SPThread Between c.1 c.2) <$> cs) ≫= f = [].
Proof. intros Hf. apply bind_nil. intros t (c & -> & _)%list_elem_of_fmap. apply Hf. Qed.
Lemma start_counted cs : ((λ c, SPThread Between c.1 c.2) <$> cs) ≫= counted = held cs.
Proof. induction cs as [|c cs IH]; [done|]. rewrite fmap_cons, bind_cons, IH. done. Qed.
Lemma list_to_map_refs (shared : refs) :
  NoDup shared.*1 → map_to_list (list_to_map shared : gmap loc loc) ≡ₚ shared.
Proof. apply map_to_list_to_map. Qed.

Lemma sp_inv_start shared clients : clients_ok shared clients → sp_inv (sp_start shared clients).
Proof.
  intros [Hnc Hno Hheld Hvars Huse Hmax]. unfold sp_start. split; [|split]; simpl.
  - apply Forall_fmap. rewrite Forall_forall in *. intros c Hc. specialize (Hvars c Hc). specialize (Huse c Hc).
    by split.
  - unfold total. rewrite <- list_fmap_compose. exact Hmax.
  - rewrite start_counted, !bind_nothing by done.
    exists (list_to_map shared). simpl. rewrite !app_nil_r. split_and!; [| |constructor| |].
    + intros c p Hin%Hheld. by apply elem_of_list_to_map.
    + intros c p Hc. apply elem_of_list_to_map_2 in Hc. split.
      * apply elem_of_list_to_map; [by rewrite <- list_fmap_compose|]. apply list_elem_of_fmap. by exists (c, p).
      * apply Hheld, occ_elem in Hc. split; [lia|]. by intros ?%not_elem_of_nil.
    + rewrite dom_list_to_map_L, <- list_fmap_compose. change (fst ∘ _) with (@fst loc loc).
      rewrite elements_list_to_set by done. by rewrite list_to_map_refs.
    + rewrite elements_list_to_set by done. by rewrite list_to_map_refs.
Qed.

(** When no thread can move, all are at the end, and the heap is empty. *)
Lemma heap_empty h : heap_inv h [] [] [] [] → h = SPHeap ∅ ∅.
Proof.
  intros (B & _ & Hcnt & _ & Hdom & Hobj).
  assert (B = ∅) as ->.
  { apply map_empty. intros c. destruct (B !! c) as [p|] eqn:Hc; [|done].
    destruct (Hcnt c p Hc) as [_ [Hz _]]. specialize (Hz eq_refl). by apply not_elem_of_nil in Hz. }
  rewrite map_to_list_empty in *. simpl in *. destruct h as [objs cs]. simpl in *.
  apply Permutation_nil_r, elements_empty_inv in Hobj. apply Permutation_nil_r, elements_empty_inv in Hdom.
  apply dom_empty_iff in Hdom. f_equal; [by apply leibniz_equiv|done].
Qed.
Lemma sp_stuck s : sp_inv s → stuck sp_code s → mc_obj s = SPHeap ∅ ∅ ∧ Forall (λ t, t = SPThread Between [] []) (mc_pcs s).
Proof.
  intros Hi Hst. assert (∀ t, t ∈ mc_pcs s → t = SPThread Between [] []) as Hend.
  { intros t Ht. apply list_elem_of_lookup in Ht as [i Hp]. destruct (sp_code t) as [k|k|k|k|m|] eqn:Hc;
      try (unfold sp_code in Hc; repeat case_match; discriminate Hc).
    - destruct (wp_elim _ _ _ (wp_machine _ i t m Hi Hp Hc)) as (t' & h' & Hd & _).
      destruct s as [h n o pcs]. simpl in *. destruct (Hst _ (mstep_do _ _ _ _ _ _ _ _ _ _ Hp Hc Hd)).
    - destruct t as [pt vs todo]. unfold sp_code in Hc. simpl in Hc. repeat case_match; try discriminate Hc. subst.
      destruct Hi as [Hok _]. destruct (Forall_lookup_1 _ _ _ _ Hok Hp) as [_ Hpo]. unfold point_ok in Hpo. simpl in Hpo.
      by destruct vs. }
  split; [|by apply Forall_forall]. destruct Hi as (_ & _ & Hi).
  rewrite !bind_nil in Hi by (intros t Ht; by rewrite (Hend t Ht)). by apply heap_empty.
Qed.
End machine.

(** C4: Threads that are given copies of the same pointers, and that create,
    copy, move, assign, reset, swap and destroy their own variables, in any
    interleaving of the atomic operations on the counts they share: no count is
    used and nothing is deleted after it was deleted; the object of every
    reference that is counted exists and its count is the number of these
    references, whichever threads hold them; and the threads stop, after a
    bounded number of steps, only when they are at the end, with every object
    and every count deleted. The variables themselves are not shared, and there
    are fewer than INT_MAX references at any time. *)
Theorem SharedPtr_counts `{Allocator} shared clients s :
  clients_ok shared clients → rtc (mstep sp_code) (sp_start shared clients) s →
  ¬ mcrashed sp_code s ∧
  (∀ c p, (c, p) ∈ mc_pcs s ≫= counted → p ∈ sp_objects (mc_obj s) ∧
     sp_counts (mc_obj s) !! c = Some (Z.of_nat (occ c (mc_pcs s ≫= counted)))) ∧
  (∀ k s', nsteps (mstep sp_code) k s s' → (k ≤ potential sp_code s)%nat) ∧
  (stuck sp_code s → mc_obj s = SPHeap ∅ ∅ ∧ Forall (λ t, t = SPThread Between [] []) (mc_pcs s)).
Proof.
  intros Hok Hs. pose proof (sp_steps _ _ (sp_inv_start _ _ Hok) Hs) as Hi. split_and!.
  - by apply sp_safe.
  - intros c p Hin. destruct Hi as (_ & _ & B & HB & Hcnt & _ & _ & Hobj).
    assert (B !! c = Some p) as Hc by (apply HB; set_solver). split; [|by apply (Hcnt c p)].
    apply elem_of_elements. rewrite Hobj. apply elem_of_app. left. apply list_elem_of_fmap.
    exists (c, p). split; [done|]. by apply elem_of_map_to_list.
  - intros k s' Hk. pose proof (potential_bounds sp_code _ _ _ Hk). lia.
  - by apply sp_stuck.
Qed.

(** Two threads with a copy of the same pointer each (the count is at 1, the
    object at 2): both copy it once more and let go of all their variables. *)
#[local, program] Instance next_free : Allocator := {| alloc X := fresh X |}.
Next Obligation. intros X. apply is_fresh. Qed.
Definition demo_shared : list (loc * loc) := [(1%positive, 2%positive)].
Definition demo_clients : list (list SharedPtr * list sp_op) :=
  let v := SPtr (Some 2%positive) (Some 1%positive) in
  [([v], [OpCopyNew 0; OpReset 0 true; OpDestroy 0; OpDestroy 0]);
   ([v], [OpNew; OpCopyAssign 1 0; OpSwap 0 1; OpDestroy 1; OpDestroy 0])].

(** Both threads have made their copy, with interleaved steps: the object has
    four references. *)
Definition demo_sp_order : list nat := [0; 1; 1; 1; 1; 1; 0]%nat.
Lemma demo_pointers_ok : clients_ok demo_shared demo_clients.
Proof.
  split; [repeat constructor; set_solver..| | | |by vm_compute].
  - intros x. unfold held. simpl. set_solver.
  - repeat (constructor; [constructor; [right; eauto|constructor]|]); constructor.
  - repeat constructor; simpl; lia.
Qed.
Lemma SharedPtr_counts_witness :
  ∃ s c p, rtc (mstep sp_code) (sp_start demo_shared demo_clients) s ∧ ¬ mcrashed sp_code s ∧
    p ∈ sp_objects (mc_obj s) ∧ sp_counts (mc_obj s) !! c = Some 4.
Proof.
  destruct (turns sp_code demo_sp_order (sp_start demo_shared demo_clients)) as [s|] eqn:E; [|by vm_compute in E].
  pose proof (turns_steps _ _ _ _ E) as Hs. exists s.
  destruct (SharedPtr_counts demo_shared demo_clients s demo_pointers_ok Hs) as (Hsafe & Hcnt & _ & _).
  destruct (mc_pcs s ≫= counted) as [|[c p] l] eqn:El; [vm_compute in E; injection E as <-; by vm_compute in El|].
  exists c, p. destruct (Hcnt c p) as [Hp Hc]; [left|]. split_and!; [done|done|done|].
  rewrite Hc. rewrite <- El. vm_compute in E. injection E as <-. vm_compute in El. injection El as <- <- _.
  by vm_compute.
Defined.
