(* ===== verification/RandomList.v ===== *)
(** Copying a list whose nodes have a second, random pointer:
    src/algo/Ya_4.cpp. The copies have the values, the order and the random
    pointers of the nodes they were made of. *)
From stdpp Require Import gmap list.
From S2P Require Import Prelude CppHeap.
#[global] Open Scope Z_scope.

(** [class Node], and its constructor. *)
Record Node := NodeObject { val : Z; next : ptr; random : ptr }.
Definition new_Node (val_ : Z) : Node := NodeObject val_ None None.
Definition set_next (p : ptr) (n : Node) : Node := NodeObject (val n) p (random n).
Definition set_random (p : ptr) (n : Node) : Node := NodeObject (val n) (next n) p.

#[export, program] Instance node_heap : HasHeap (gmap loc Node) Node := {|
  heap_of h := h;
  with_heap h _ := h
|}.
Solve Obligations with done.
Abbreviation NM := (M (gmap loc Node)).

Section code.
Context `{Allocator}.

(** The loop that puts a copy behind every node. *)
Definition clone_turn (cur : ptr) : NM (ptr + unit) :=
  if negb (non_null cur) then ret (inr tt) else
  v ← field val cur; node ← new (new_Node v);
  n ← field next cur; store node (set_next n);;
  store cur (set_next node);;
  cur ← field next node; ret (inl cur).
(** The loop that sets the random pointers of the copies. *)
Definition random_turn (cur : ptr) : NM (ptr + unit) :=
  if negb (non_null cur) then ret (inr tt) else
  r ← field random cur;
  whenM (non_null r)
    (r ← field random cur; target ← field next r; copy ← field next cur; store copy (set_random target));;
  copy ← field next cur; cur ← field next copy; ret (inl cur).
Definition copy_nodes (fuel : nat) (head : ptr) : NM unit :=
  loop fuel clone_turn head;; loop fuel random_turn head.
(** A list that is not empty: the function ends without a [return]. *)
Definition copyRandomList (fuel : nat) (head : ptr) : NM ptr :=
  if negb (non_null head) then ret None else copy_nodes fuel head;; undef.
End code.

(** A list: the addresses of its nodes with their values and random pointers. *)
Implicit Types (xs : list (loc * (Z * ptr))) (ys : list loc) (h : gmap loc Node).

(** The node at a position, and the null pointer behind the last one. *)
Definition at_ xs (i : nat) : ptr := fst <$> xs !! i.
Definition is_list h xs : Prop :=
  NoDup xs.*1 ∧ ∀ i x v r, xs !! i = Some (x, (v, r)) →
    h !! x = Some (NodeObject v (at_ xs (S i)) r) ∧ ∀ l, r = Some l → l ∈ xs.*1.
(** The copy of the node a random pointer points to. *)
Definition copied xs ys (r r' : ptr) : Prop :=
  match r with None => r' = None | Some l => ∃ j, at_ xs j = Some l ∧ r' = ys !! j end.
(** The first [k] nodes have a copy behind them, [ys]; the random pointers of
    the first [m] of them are set. *)
Record copied_to h0 h xs ys (k m : nat) : Prop := {
  ct_fresh y : y ∈ ys → h0 !! y = None;
  ct_nodup : NoDup ys;
  ct_length : length ys = k;
  ct_frame l : l ∉ xs.*1 → l ∉ ys → h !! l = h0 !! l;
  ct_copy i x v r y : xs !! i = Some (x, (v, r)) → ys !! i = Some y →
    h !! x = Some (NodeObject v (Some y) r) ∧
    ∃ r', h !! y = Some (NodeObject v (at_ xs (S i)) r') ∧ if (i <? m)%nat then copied xs ys r r' else r' = None;
  ct_rest i x v r : xs !! i = Some (x, (v, r)) → (k ≤ i)%nat → h !! x = Some (NodeObject v (at_ xs (S i)) r)
}.

Lemma at_inj xs i j x d x' d' :
  NoDup xs.*1 → xs !! i = Some (x, d) → xs !! j = Some (x', d') → x = x' → i = j.
Proof.
  intros Hnd Hi Hj ->. eapply NoDup_lookup; [exact Hnd| |]; rewrite list_lookup_fmap; [by rewrite Hi|by rewrite Hj].
Qed.

Section proofs.
Context `{Allocator} (h0 : gmap loc Node) (xs : list (loc * (Z * ptr))) (Hlist : is_list h0 xs).

Lemma copied_start : copied_to h0 h0 xs [] 0 0.
Proof.
  constructor; try done; [set_solver|constructor|]. intros i x v r Hi _. by apply Hlist in Hi as [? _].
Qed.
(** No copy is a node. *)
Lemma copy_not_node h ys k m i x v r y :
  copied_to h0 h xs ys k m → xs !! i = Some (x, (v, r)) → y ∈ ys → x ≠ y.
Proof.
  intros Hc Hi Hy ->. apply (ct_fresh _ _ _ _ _ _ Hc) in Hy. apply Hlist in Hi as [Hi _]. congruence.
Qed.

(** The next node gets its copy. *)
Lemma clone_next h ys i x v r y :
  copied_to h0 h xs ys i 0 → xs !! i = Some (x, (v, r)) → h !! y = None →
  copied_to h0 (<[x:=NodeObject v (Some y) r]> (<[y:=NodeObject v (at_ xs (S i)) None]> h)) xs (ys ++ [y]) (S i) 0.
Proof.
  intros [Hf Hnd Hl Hfr Hc Hr] Hi Hy.
  assert (y ∉ ys) as Hyn.
  { intros [j Hj]%list_elem_of_lookup. pose proof (lookup_lt_Some _ _ _ Hj).
    destruct (lookup_lt_is_Some_2 xs j) as [[x' [v' r']] Hx']; [apply lookup_lt_Some in Hi; lia|].
    destruct (Hc j _ _ _ _ Hx' Hj) as [_ (r2 & Hr2 & _)]. congruence. }
  assert (y ∉ xs.*1) as Hyx.
  { rewrite list_elem_of_fmap. intros ([x' [v' r']] & -> & [j Hj]%list_elem_of_lookup). simpl in *.
    destruct (decide (j < i)%nat) as [Hlt|Hge]; [|rewrite (Hr j _ _ _ Hj) in Hy by lia; done].
    destruct (lookup_lt_is_Some_2 ys j) as [y' Hy']; [lia|]. destruct (Hc j _ _ _ _ Hj Hy'). congruence. }
  assert (∀ j x' d', xs !! j = Some (x', d') → x' ≠ y) as Hxy.
  { intros j x' d' Hj ->. apply Hyx, list_elem_of_fmap. exists (y, d'). split; [done|by eapply list_elem_of_lookup_2]. }
  constructor.
  - intros y' [Hy'| ->%list_elem_of_singleton]%elem_of_app; [by apply Hf|]. by rewrite <- Hfr.
  - apply NoDup_app. split_and!; [done| |apply NoDup_singleton]. by intros y' Hy' ->%list_elem_of_singleton.
  - rewrite length_app. simpl. lia.
  - intros l Hlx Hly. rewrite not_elem_of_app, list_elem_of_singleton in Hly.
    rewrite !lookup_insert_ne; [apply Hfr; tauto|naive_solver|]. intros ->. apply Hlx, list_elem_of_fmap.
    exists (l, (v, r)). split; [done|by eapply list_elem_of_lookup_2].
  - intros j x' v' r' y' Hj Hjy. destruct (decide (j = i)) as [->|Hji].
    + rewrite Hi in Hj. simplify_eq. rewrite lookup_app_r, Nat.sub_diag in Hjy by lia. simplify_eq/=.
      rewrite lookup_insert_eq. split; [done|]. exists None. split; [|done].
      rewrite lookup_insert_ne, lookup_insert_eq by (by eapply Hxy). done.
    + assert (j < i)%nat as Hlt.
      { pose proof (lookup_lt_Some _ _ _ Hjy) as Hlt. rewrite length_app in Hlt. simpl in Hlt. lia. }
      rewrite lookup_app_l in Hjy by lia. destruct (Hc j _ _ _ _ Hj Hjy) as [Hx (r2 & Hr2 & Hm)].
      assert (x ≠ x') as Hxx by (intros He; apply Hji; by eapply at_inj; [apply Hlist|..]).
      assert (x ≠ y') as Hxy' by (intros <-; apply list_elem_of_lookup_2, Hf in Hjy; apply Hlist in Hi as [? _]; congruence).
      assert (y ≠ y') as Hyy by (intros <-; by apply Hyn; eapply list_elem_of_lookup_2).
      split; [by rewrite !lookup_insert_ne by (congruence || by apply not_eq_sym; eapply Hxy)|].
      exists r2. split; [by rewrite !lookup_insert_ne|done].
  - intros j x' v' r' Hj Hle. assert (x ≠ x') as Hxx.
    { intros He. assert (i = j) by (by eapply at_inj; [apply Hlist|..]). lia. }
    rewrite !lookup_insert_ne by (done || by apply not_eq_sym; eapply Hxy). apply Hr; [done|lia].
Qed.

Lemma wp_clone_loop `{Allocator} fuel :
  (length xs < fuel)%nat →
  wp (loop fuel clone_turn (at_ xs 0)) h0 (λ _ h, ∃ ys, copied_to h0 h xs ys (length xs) 0).
Proof.
  intros Hfuel. apply (wp_loop (λ n cur h, ∃ i ys, (n + i = length xs)%nat ∧ cur = at_ xs i ∧ copied_to h0 h xs ys i 0))
    with (n := length xs); [|exists 0%nat, []; split_and!; [lia|done|apply copied_start]|done].
  intros n cur h (i & ys & Hn & -> & Hc). unfold clone_turn, at_.
  destruct (xs !! i) as [[x [v r]]|] eqn:Hi; simpl.
  2:{ apply lookup_ge_None in Hi. apply wp_ret. exists ys. by replace (length xs) with i by lia. }
  pose proof (ct_rest _ _ _ _ _ _ Hc i x v r Hi ltac:(lia)) as Hx. pose proof (lookup_lt_Some _ _ _ Hi).
  apply wp_bind. eapply wp_field; [exact Hx|]. apply wp_bind, wp_new. intros y Hy. simpl in Hy.
  assert (x ≠ y) as Hxy by congruence.
  repeat heap_step. unfold set_next. simpl. exists (pred n). split; [lia|]. exists (S i), (ys ++ [y]). split_and!; [lia|done|].
  rewrite insert_insert_eq, (insert_insert_ne _ x y) by done.
  pose proof (clone_next h ys i x v r y Hc Hi Hy) as Hn'. by rewrite insert_insert_ne in Hn' by done.
Qed.

(** The random pointer of the next copy is set. *)
Lemma random_next h ys m x v r y r' :
  copied_to h0 h xs ys (length xs) m → xs !! m = Some (x, (v, r)) → ys !! m = Some y → copied xs ys r r' →
  copied_to h0 (<[y:=NodeObject v (at_ xs (S m)) r']> h) xs ys (length xs) (S m).
Proof.
  intros Hct Hm Hy Hr'. pose proof Hct as [Hf Hnd Hl Hfr Hc Hr].
  constructor; [done|done|done| | |].
  - intros l Hlx Hly. rewrite lookup_insert_ne; [by apply Hfr|]. intros ->. by apply Hly; eapply list_elem_of_lookup_2.
  - intros j x' v' r1 y' Hj Hjy. destruct (Hc j _ _ _ _ Hj Hjy) as [Hx' (r2 & Hr2 & Hm2)].
    rewrite (lookup_insert_ne _ y x').
    2:{ apply not_eq_sym. eapply (copy_not_node h ys); [done..|by eapply list_elem_of_lookup_2]. }
    split; [done|]. destruct (decide (j = m)) as [->|Hjm].
    + rewrite Hm in Hj. rewrite Hy in Hjy. simplify_eq. exists r'. rewrite lookup_insert_eq. split; [done|].
      by rewrite (proj2 (Nat.ltb_lt _ _)) by lia.
    + exists r2. rewrite lookup_insert_ne.
      2:{ intros <-. apply Hjm. by eapply NoDup_lookup. }
      split; [done|]. destruct (Nat.ltb_spec j m), (Nat.ltb_spec j (S m)); try done; lia.
  - intros j x' v' r1 Hj Hle. pose proof (lookup_lt_Some _ _ _ Hj). lia.
Qed.
Lemma wp_random_loop fuel h ys :
  (length xs < fuel)%nat → copied_to h0 h xs ys (length xs) 0 →
  wp (loop fuel random_turn (at_ xs 0)) h (λ _ h', copied_to h0 h' xs ys (length xs) (length xs)).
Proof.
  intros Hfuel Hct. apply (wp_loop (λ n cur h, ∃ i, (n + i = length xs)%nat ∧ cur = at_ xs i ∧
    copied_to h0 h xs ys (length xs) i)) with (n := length xs); [|exists 0%nat; split_and!; [lia|done..]|done].
  clear h Hct. intros n cur h (i & Hn & -> & Hct). unfold random_turn, at_.
  destruct (xs !! i) as [[x [v r]]|] eqn:Hi; simpl.
  2:{ apply lookup_ge_None in Hi. apply wp_ret. by replace (length xs) with i at 2 by lia. }
  pose proof (lookup_lt_Some _ _ _ Hi) as Hlt.
  destruct (lookup_lt_is_Some_2 ys i) as [y Hy]; [rewrite (ct_length _ _ _ _ _ _ Hct); lia|].
  destruct (ct_copy _ _ _ _ _ _ Hct i x v r y Hi Hy) as [Hx (r1 & Hr1 & Hnone)].
  rewrite (proj2 (Nat.ltb_ge _ _)) in Hnone by lia. subst r1.
  assert (x ≠ y) as Hxy by (eapply copy_not_node; [done..|by eapply list_elem_of_lookup_2]).
  apply wp_bind. eapply wp_field; [exact Hx|]. simpl. apply wp_bind, wp_when.
  - destruct r as [l|]; [intros _|done]. destruct Hlist as [_ Hl].
    assert (l ∈ xs.*1) as Hin by by eapply Hl.
    apply list_elem_of_fmap in Hin as ([x2 [v2 r2]] & -> & [j Hj]%list_elem_of_lookup). simpl in *.
    pose proof (lookup_lt_Some _ _ _ Hj). destruct (lookup_lt_is_Some_2 ys j) as [y2 Hy2];
      [rewrite (ct_length _ _ _ _ _ _ Hct); lia|].
    destruct (ct_copy _ _ _ _ _ _ Hct j x2 v2 r2 y2 Hj Hy2) as [Hx2 _].
    repeat heap_step. unfold set_random. simpl. exists (pred n). split; [lia|]. exists (S i). split_and!; [lia|done|].
    eapply random_next; [done..|]. exists j. unfold at_. by rewrite Hj, Hy2.
  - destruct r as [l|]; [done|intros _].
    repeat heap_step. exists (pred n). split; [lia|]. exists (S i). split_and!; [lia|done|].
    rewrite <- (insert_id h y _ Hr1) at 1. by eapply random_next.
Qed.
End proofs.

(** C24: the two loops of [copyRandomList] put a copy behind every node of the
    list, with the value of the node, the order of the list, and a random pointer
    to the copy of the node that the node's own points to; what is not on the
    list is as before. Then the function ends without returning the copies, so
    that on every list but the empty one it is undefined. *)
Theorem copyRandomList_copies `{Allocator} fuel h0 xs :
  is_list h0 xs → (length xs < fuel)%nat →
  wp (copy_nodes fuel (at_ xs 0)) h0 (λ _ h, ∃ ys,
    length ys = length xs ∧ NoDup (xs.*1 ++ ys) ∧ (∀ y, y ∈ ys → h0 !! y = None) ∧
    (∀ l, l ∉ xs.*1 → l ∉ ys → h !! l = h0 !! l) ∧
    ∀ i x v r, xs !! i = Some (x, (v, r)) → ∃ y r', ys !! i = Some y ∧ copied xs ys r r' ∧
      h !! x = Some (NodeObject v (Some y) r) ∧ h !! y = Some (NodeObject v (at_ xs (S i)) r')) ∧
  copyRandomList fuel (at_ xs 0) h0 = if decide (xs = []) then Done None h0 else Undef.
Proof.
  intros Hl Hfuel.
  assert (wp (copy_nodes fuel (at_ xs 0)) h0 (λ _ h, ∃ ys, copied_to h0 h xs ys (length xs) (length xs))) as Hw.
  { unfold copy_nodes. apply wp_bind. eapply wp_mono; [by apply wp_clone_loop|]. intros _ h (ys & Hc).
    eapply wp_mono; [by apply wp_random_loop|]. intros [] h' Hc'. by exists ys. }
  split.
  - eapply wp_mono; [apply Hw|]. intros _ h (ys & Hc). pose proof Hc as [Hf Hnd Hlen Hfr Hcp _]. exists ys. split_and!; try done.
    + apply NoDup_app. split_and!; [apply Hl| |done]. intros x Hx Hy.
      apply list_elem_of_fmap in Hx as ([x' [v r]] & -> & [i Hi]%list_elem_of_lookup). by eapply copy_not_node.
    + intros i x v r Hi. destruct (lookup_lt_is_Some_2 ys i) as [y Hy]; [apply lookup_lt_Some in Hi; lia|].
      destruct (Hcp i x v r y Hi Hy) as [Hx (r' & Hr' & Hco)]. exists y, r'.
      rewrite (proj2 (Nat.ltb_lt _ _)) in Hco by (by eapply lookup_lt_Some). by split_and!.
  - destruct xs as [|[x d] xs']; [done|]. rewrite decide_False by done.
    change (bind (copy_nodes fuel (at_ ((x, d) :: xs') 0)) (λ _, undef) h0 = @Undef (gmap loc Node) ptr).
    destruct (wp_elim _ _ _ Hw) as (u & h & Hd & _). by rewrite (bind_done _ _ _ _ _ Hd).
Qed.
