(* ===== verification/TinySTL.v ===== *)
(** Parts of a standard library: src/TinySTL, its allocator (alloc.h), objects
    in memory (construct.h) and utilities (util.h).
    The names that alloc.h uses without declaring them, [EFreeListNumber] and
    [M_align], are taken for [EFreeListsNumber] and [M_allin]. Then what they
    compute: the size classes of its allocator, its free lists, swapping of
    ranges, the order of pairs. The iterators (iterator.h) are left out: the
    file does not compile. *)
From stdpp Require Import gmap list.
From coqutil Require Import Datatypes.RecordSetters.
From S2P Require Import Prelude.
Export RecordSetters.DoubleBraceUpdate.
#[global] Open Scope Z_scope.

(** * alloc.h *)

Module Alloc.

(** [size_t] *)
Definition size_t (z : Z) : Z := z mod 2 ^ 64.
Definition EAlign128 : Z := 8.
Definition EAlign256 : Z := 16.
Definition EAlign512 : Z := 32.
Definition EAlign1024 : Z := 64.
Definition EAlign2048 : Z := 128.
Definition EAlign4096 : Z := 256.
Definition ESmallObjectBytes : Z := 4096.
Definition EFreeListsNumber : nat := 56.

Definition M_align (bytes : Z) : Z :=
  if bytes <=? 512 then
    if bytes <=? 256 then if bytes <=? 128 then EAlign128 else EAlign256 else EAlign512
  else
    if bytes <=? 2048 then if bytes <=? 1024 then EAlign1024 else EAlign2048 else EAlign4096.
Definition M_round_up (bytes : Z) : Z :=
  Z.land (size_t (size_t (bytes + M_align bytes) - 1)) (size_t (Z.lnot (size_t (M_align bytes - 1)))).
Definition M_freelist_index (bytes : Z) : Z :=
  if bytes <=? 512 then
    if bytes <=? 256 then
      if bytes <=? 128 then size_t (size_t (size_t (bytes + EAlign128) - 1) / EAlign128 - 1)
      else size_t (15 + size_t (size_t (bytes + EAlign256) - 129) / EAlign256)
    else size_t (23 + size_t (size_t (bytes + EAlign512) - 257) / EAlign512)
  else
    if bytes <=? 2048 then
      if bytes <=? 1024 then size_t (31 + size_t (size_t (bytes + EAlign1024) - 513) / EAlign1024)
      else size_t (39 + size_t (size_t (bytes + EAlign2048) - 1025) / EAlign2048)
    else size_t (47 + size_t (size_t (bytes + EAlign4096) - 2049) / EAlign4096).

(** The free lists, the pointer each small block starts with, and the large
    blocks that were given back. *)
Record alloc := AllocState {
  free_list : list ptr;
  next : gmap loc ptr;
  freed : list ptr
}.
Definition alloc_start (mem : gmap loc ptr) : alloc := AllocState (replicate EFreeListsNumber None) mem [].

(** [malloc], and [M_refill], which is declared but not defined. *)
Class Pool := {
  malloc : alloc → Z → ptr;
  M_refill : Z → M alloc ptr
}.

Section code.
Context `{Pool}.
(** [free_list[i]] *)
Definition list_at (i : Z) : M alloc ptr := l ← gets free_list; need (l !! Z.to_nat i).
Definition block_next (b : loc) : M alloc ptr := m ← gets next; need (m !! b).

(** [my_free_list] is a local variable: assigning to it changes no list. *)
Definition allocate (n : Z) : M alloc ptr :=
  if ESmallObjectBytes <? n then s ← gets id; ret (malloc s n) else
  result ← list_at (M_freelist_index n);
  match result with
  | None => M_refill (M_round_up n)
  | Some b => _ ← block_next b; ret result
  end.
Definition deallocate (p : ptr) (n : Z) : M alloc unit :=
  if ESmallObjectBytes <? n then modify (λ s, s{{freed := freed s ++ [p] }}) else
  my_free_list ← list_at (M_freelist_index n);
  q ← need p; _ ← block_next q;
  modify (λ s, s{{next := <[q:=my_free_list]> (next s)}}).
Definition reallocate (p : ptr) (old_size new_size : Z) : M alloc ptr :=
  deallocate p old_size;; allocate new_size.
End code.
End Alloc.

(** * Objects: util.h and construct.h *)

(** Memory holds objects at addresses, one address to an element of an array. *)
Abbreviation memory T := (gmap Z T).
(** What moving from an object leaves behind. *)
Class Movable (T : Type) := { moved : T → T }.

Section objects.
Context {T : Type} `{Movable T}.
Definition load (a : Z) : M (memory T) T := m ← gets id; need (m !! a).
(** Assigning to an object that is there. *)
Definition assign (a : Z) (v : T) : M (memory T) unit := load a;; modify (insert a v).
(** Moving out of an object. *)
Definition move (a : Z) : M (memory T) T := v ← load a; assign a (moved v);; ret v.
Definition swap (lhs rhs : Z) : M (memory T) unit :=
  tmp ← move lhs; v ← move rhs; assign lhs v;; assign rhs tmp.
Definition swap_range (fuel : nat) (first1 last1 first2 : Z) : M (memory T) Z :=
  loop fuel (λ '(first1, first2),
    if negb (first1 =? last1) then swap first1 first2;; ret (inl (first1 + 1, first2 + 1))
    else ret (inr first2)) (first1, first2).
(** Arrays of [n] elements. *)
Definition swap_array (fuel : nat) (n a b : Z) : M (memory T) unit := swap_range fuel a (a + n) b;; ret tt.

(** [pair]s as objects: [first] is at the address of the pair, [second] behind
    it. Assignment from a pair of the same type, and from any other. *)
Definition pair_swap (this other : Z) : M (memory T) unit :=
  whenM (negb (this =? other)) (swap this other;; swap (this + 1) (other + 1)).
Definition pair_copy_other (this other : Z) : M (memory T) unit :=
  v ← load other; assign this v;; w ← load (other + 1); assign (this + 1) w.
Definition pair_copy (this rhs : Z) : M (memory T) unit :=
  whenM (negb (this =? rhs)) (pair_copy_other this rhs).
Definition pair_move_other (this other : Z) : M (memory T) unit :=
  v ← move other; assign this v;; w ← move (other + 1); assign (this + 1) w.
Definition pair_move (this rhs : Z) : M (memory T) unit :=
  whenM (negb (this =? rhs)) (pair_move_other this rhs).

(** [construct(ptr, value)], [destroy] of one object and of a range; [trivial]
    says whether the destructor is trivial. *)
Definition construct (a : Z) (v : T) : M (memory T) unit := modify (insert a v).
Definition destroy_one (trivial : bool) (a : Z) : M (memory T) unit :=
  if trivial then ret tt else load a;; modify (delete a).
Definition destroy_range (trivial : bool) (fuel : nat) (first last : Z) : M (memory T) unit :=
  if trivial then ret tt else
  loop fuel (λ first,
    if negb (first =? last) then destroy_one trivial first;; ret (inl (first + 1)) else ret (inr tt)) first.
End objects.

(** [pair]: its comparisons. *)
Section comparisons.
Context {Ty1 Ty2 : Type} (eq1 lt1 : Ty1 → Ty1 → bool) (eq2 lt2 : Ty2 → Ty2 → bool).
Record pair := Pair { first : Ty1; second : Ty2 }.
Definition pair_eq (lhs rhs : pair) : bool := eq1 (first lhs) (first rhs) && eq2 (second lhs) (second rhs).
Definition pair_lt (lhs rhs : pair) : bool :=
  lt1 (first lhs) (first rhs) || eq1 (first lhs) (first rhs) && lt2 (second lhs) (second rhs).
Definition pair_ne (lhs rhs : pair) : bool := negb (pair_eq lhs rhs).
Definition pair_gt (lhs rhs : pair) : bool := pair_lt rhs lhs.
Definition pair_le (lhs rhs : pair) : bool := negb (pair_lt rhs lhs).
Definition pair_ge (lhs rhs : pair) : bool := negb (pair_lt lhs rhs).
End comparisons.
Arguments pair : clear implicits.
Definition make_pair {Ty1 Ty2} (a : Ty1) (b : Ty2) : pair Ty1 Ty2 := Pair a b.

(** [pair]: its constructors. Each comes twice, for members that convert
    implicitly and for those that do not; [enable_if] chooses by the types:
    [constructible] and [convertible] say which members can be made from the
    arguments, explicitly and implicitly. [direct] is [pair<...>(...)], which
    may use an explicit constructor; [None] is a call that no constructor
    fits. *)
Section constructors.
Context {Ty1 Ty2 : Type}.
Definition enable_implicit (constructible convertible : bool * bool) : bool :=
  constructible.1 && constructible.2 && convertible.1 && convertible.2.
Definition enable_explicit (constructible convertible : bool * bool) : bool :=
  constructible.1 && constructible.2 && (negb convertible.1 || negb convertible.2).
Definition pair_enabled (direct : bool) (constructible convertible : bool * bool) : bool :=
  enable_implicit constructible convertible || (direct && enable_explicit constructible convertible).
Definition pair_default (default_constructible : bool * bool) (d1 : Ty1) (d2 : Ty2) : option (pair Ty1 Ty2) :=
  if default_constructible.1 && default_constructible.2 then Some (Pair d1 d2) else None.
(** From two members of the types of the pair. *)
Definition pair_members (direct : bool) (copyable convertible : bool * bool) (a : Ty1) (b : Ty2) :
    option (pair Ty1 Ty2) :=
  if pair_enabled direct copyable convertible then Some (Pair a b) else None.
(** From two values of other types, and from a pair of them. *)
Context {Other1 Other2 : Type} (convert1 : Other1 → Ty1) (convert2 : Other2 → Ty2).
Definition pair_values (direct : bool) (constructible convertible : bool * bool) (a : Other1) (b : Other2) :
    option (pair Ty1 Ty2) :=
  if pair_enabled direct constructible convertible then Some (Pair (convert1 a) (convert2 b)) else None.
Definition pair_pair (direct : bool) (constructible convertible : bool * bool) (other : pair Other1 Other2) :
    option (pair Ty1 Ty2) :=
  if pair_enabled direct constructible convertible
  then Some (Pair (convert1 (first other)) (convert2 (second other))) else None.
End constructors.

(** Never do both constructors of a kind fit a call; a pair can be made explicitly whenever
    its members can, and implicitly whenever they can be converted, too. *)
Lemma pair_constructors direct constructible convertible :
  enable_implicit constructible convertible && enable_explicit constructible convertible = false ∧
  (pair_enabled direct constructible convertible = true ↔
    constructible = (true, true) ∧ (direct = true ∨ convertible = (true, true))).
Proof. destruct direct, constructible as [[] []], convertible as [[] []]; vm_compute; naive_solver. Qed.

(** * The allocator *)

Module AllocProps.
Import Alloc.

(** The sizes of the blocks: 16 up to 128 by steps of 8, then 8 for each
    doubling, up to 4096. *)
Definition steps (from step : Z) (count : nat) : list Z := (λ i, from + step * Z.of_nat i) <$> seq 1 count.
Definition class_sizes : list Z :=
  steps 0 8 16 ++ steps 128 16 8 ++ steps 256 32 8 ++ steps 512 64 8 ++ steps 1024 128 8 ++ steps 2048 256 8.
Definition class_size (i : Z) : Z := nth (Z.to_nat i) class_sizes 0.

(** All requests, by computation. *)
Definition request_ok (n : Z) : bool :=
  let i := M_freelist_index n in
  (0 <=? i) && (i <? 56) && (M_round_up n =? class_size i) && (n <=? class_size i) &&
  ((i =? 0) || (class_size (i - 1) <? n)).
Lemma requests_ok : forallb request_ok (Z.of_nat <$> seq 1 4096) = true.
Proof. vm_compute. reflexivity. Qed.
Lemma request_is_ok n : 1 ≤ n ≤ 4096 → request_ok n = true.
Proof.
  intros Hn. pose proof requests_ok as H. rewrite forallb_forall in H. apply H, list_elem_of_In, list_elem_of_fmap.
  exists (Z.to_nat n). split; [lia|]. apply elem_of_seq. lia.
Qed.
Lemma class_sizes_increase i j : 0 ≤ i → i < j → j < 56 → class_size i < class_size j.
Proof.
  intros Hi Hij Hj.
  assert (forallb (λ i, forallb (λ j, negb (i <? j) || (class_size i <? class_size j)) (Z.of_nat <$> seq 0 56))
    (Z.of_nat <$> seq 0 56) = true) as H by (vm_compute; reflexivity).
  rewrite forallb_forall in H. assert (∀ k, 0 ≤ k < 56 → In k (Z.of_nat <$> seq 0 56)) as Hin.
  { intros k Hk. apply list_elem_of_In, list_elem_of_fmap. exists (Z.to_nat k). split; [lia|]. apply elem_of_seq. lia. }
  specialize (H i (Hin i ltac:(lia))). rewrite forallb_forall in H. specialize (H j (Hin j ltac:(lia))).
  apply orb_true_iff in H as [H|H]; lia.
Qed.

(** C25: every small request has a free list: the list of the smallest of the 56
    block sizes that holds it, and the size it is rounded up to is that size. Two
    requests share a list exactly when they are rounded to the same size, and a
    larger request never has a smaller list. *)
Theorem size_classes n m :
  1 ≤ n ≤ ESmallObjectBytes → 1 ≤ m ≤ ESmallObjectBytes →
  let i := M_freelist_index n in
  0 ≤ i < Z.of_nat EFreeListsNumber ∧ n ≤ M_round_up n ∧
  M_round_up n = class_size i ∧ (∀ j, 0 ≤ j < i → class_size j < n) ∧
  (M_freelist_index n = M_freelist_index m ↔ M_round_up n = M_round_up m) ∧
  (n ≤ m → M_freelist_index n ≤ M_freelist_index m).
Proof.
  intros Hn Hm i. assert (∀ k, 1 ≤ k ≤ ESmallObjectBytes → 0 ≤ M_freelist_index k < 56 ∧
    M_round_up k = class_size (M_freelist_index k) ∧ k ≤ M_round_up k ∧
    ∀ j, 0 ≤ j < M_freelist_index k → class_size j < k) as Hall.
  { intros k Hk. pose proof (request_is_ok k Hk) as Hok. unfold request_ok in Hok.
    rewrite !andb_true_iff, orb_true_iff, !Z.leb_le, !Z.ltb_lt, !Z.eqb_eq in Hok.
    destruct Hok as ((((H1 & H2) & H3) & H4) & H5). split_and!; try done; [lia|].
    intros j Hj. destruct H5 as [H5|H5]; [lia|]. destruct (decide (j = M_freelist_index k - 1)) as [->|]; [done|].
    pose proof (class_sizes_increase j (M_freelist_index k - 1) ltac:(lia) ltac:(lia) ltac:(lia)). lia. }
  destruct (Hall n Hn) as (Hi & Hr & Hle & Hmin), (Hall m Hm) as (Hi' & Hr' & Hle' & Hmin'). fold i in Hi, Hr, Hmin.
  change (Z.of_nat EFreeListsNumber) with 56. split_and!; try done; try lia.
  - rewrite Hr, Hr'. split; [unfold i; by intros ->|]. intros He. fold i.
    destruct (Z.lt_trichotomy i (M_freelist_index m)) as [Hlt|[->|Hlt]]; [|done|].
    + pose proof (class_sizes_increase _ _ (proj1 Hi) Hlt (proj2 Hi')). lia.
    + pose proof (class_sizes_increase _ _ (proj1 Hi') Hlt (proj2 Hi)). lia.
  - intros Hnm. fold i. destruct (Z.le_gt_cases i (M_freelist_index m)) as [|Hgt]; [done|].
    specialize (Hmin (M_freelist_index m) ltac:(lia)). lia.
Qed.
(** A request of no bytes wraps around. *)
Lemma index_of_nothing : M_freelist_index 0 = 2 ^ 64 - 1.
Proof. reflexivity. Qed.

(** A block that is on a list is handed out again and again, and a block that
    is given back is put on no list. *)
Lemma allocate_again `{Pool} n b s :
  1 ≤ n ≤ ESmallObjectBytes → free_list s !! Z.to_nat (M_freelist_index n) = Some (Some b) →
  is_Some (next s !! b) → allocate n s = Done (Some b) s.
Proof.
  intros Hn Hb [p Hp]. unfold allocate. rewrite (proj2 (Z.ltb_ge _ _)) by lia.
  unfold list_at, block_next, bind, gets. rewrite Hb. simpl. by rewrite Hp.
Qed.
Lemma deallocate_keeps_lists `{Pool} p n s : match deallocate p n s with Done _ s' => free_list s' = free_list s | _ => True end.
Proof.
  unfold deallocate, list_at, block_next, bind, gets, modify. destruct (ESmallObjectBytes <? n); [done|].
  destruct (free_list s !! _); [|done]. destruct p as [q|]; [|done]. simpl. by destruct (next s !! q).
Qed.

End AllocProps.

(** * Swapping *)

Section memory.
Context {T : Type} `{Movable T}.
Implicit Types (m : gmap Z T).

Lemma wp_object a v m (Q : T → gmap Z T → Prop) : m !! a = Some v → Q v m → wp (load a) m Q.
Proof. intros Ha HQ. unfold wp, load, bind, gets, id. by rewrite Ha. Qed.
Lemma wp_assign a v w m (Q : unit → gmap Z T → Prop) : m !! a = Some w → Q tt (<[a:=v]> m) → wp (assign a v) m Q.
Proof. intros Ha HQ. apply wp_bind. eapply wp_object; [done|]. by apply wp_modify. Qed.
Lemma wp_swap a b v w m (Q : unit → gmap Z T → Prop) :
  m !! a = Some v → m !! b = Some w → Q tt (<[b:=v]> (<[a:=w]> m)) → wp (swap a b) m Q.
Proof.
  intros Ha Hb HQ. unfold swap, move. apply wp_bind, wp_bind. eapply wp_object; [done|].
  apply wp_bind. eapply wp_assign; [done|]. apply wp_ret, wp_bind, wp_bind.
  destruct (decide (a = b)) as [<-|Hab].
  - rewrite Ha in Hb. simplify_eq. eapply wp_object; [by apply lookup_insert_eq|].
    apply wp_bind. eapply wp_assign; [by apply lookup_insert_eq|]. apply wp_ret, wp_bind.
    eapply wp_assign; [by apply lookup_insert_eq|]. eapply wp_assign; [by apply lookup_insert_eq|].
    by rewrite !insert_insert_eq in *.
  - eapply wp_object; [by rewrite lookup_insert_ne|]. apply wp_bind. eapply wp_assign; [by rewrite lookup_insert_ne|].
    apply wp_ret, wp_bind. eapply wp_assign; [by rewrite lookup_insert_ne, lookup_insert_eq by done|].
    eapply wp_assign; [by rewrite lookup_insert_ne, lookup_insert_eq by done|].
    by rewrite (insert_insert_ne _ a b), insert_insert_eq, insert_insert_eq by done.
Qed.

(** The ranges of [k] objects at [a] and at [b], exchanged. *)
Definition exchanged (m : gmap Z T) (a b : Z) (k : nat) (m' : gmap Z T) : Prop :=
  (∀ i, 0 ≤ i < Z.of_nat k → m' !! (a + i) = m !! (b + i) ∧ m' !! (b + i) = m !! (a + i)) ∧
  ∀ x, (∀ i, 0 ≤ i < Z.of_nat k → x ≠ a + i ∧ x ≠ b + i) → m' !! x = m !! x.
Lemma exchanged_next m a b k m' v w :
  (∀ i j, 0 ≤ i ≤ Z.of_nat k → 0 ≤ j ≤ Z.of_nat k → a + i ≠ b + j) →
  exchanged m a b k m' → m !! (a + Z.of_nat k) = Some v → m !! (b + Z.of_nat k) = Some w →
  exchanged m a b (S k) (<[b + Z.of_nat k:=v]> (<[a + Z.of_nat k:=w]> m')).
Proof.
  intros Hd [He Hf] Hv Hw. split.
  - intros i Hi. destruct (decide (i = Z.of_nat k)) as [->|Hne].
    + rewrite lookup_insert_eq, lookup_insert_ne, lookup_insert_eq by (apply not_eq_sym, Hd; lia). done.
    + rewrite !lookup_insert_ne by first [lia|apply Hd; lia|apply not_eq_sym, Hd; lia]. apply He. lia.
  - intros x Hx. destruct (Hx (Z.of_nat k) ltac:(lia)). rewrite !lookup_insert_ne by done. apply Hf.
    intros i Hi. apply Hx. lia.
Qed.

(** [swap_range] exchanges two ranges that do not overlap, object by
    object, leaves all other objects alone, whatever moving from an object leaves
    behind, and returns the end of the second range. *)
Theorem swap_range_exchanges m a b k fuel :
  (k < fuel)%nat → (∀ i j, 0 ≤ i < Z.of_nat k → 0 ≤ j < Z.of_nat k → a + i ≠ b + j) →
  (∀ i, 0 ≤ i < Z.of_nat k → is_Some (m !! (a + i)) ∧ is_Some (m !! (b + i))) →
  wp (swap_range fuel a (a + Z.of_nat k) b) m (λ r m', r = b + Z.of_nat k ∧ exchanged m a b k m').
Proof.
  intros Hfuel Hd Hin.
  apply (wp_loop (λ n l m', ∃ i : nat, (n + i = k)%nat ∧ l = (a + Z.of_nat i, b + Z.of_nat i) ∧ exchanged m a b i m'))
    with (n := k); [|exists 0%nat; rewrite !Z.add_0_r; split_and!; [lia|done|by split; [lia|]]|done].
  intros n l m' (i & Hn & -> & He). destruct (Z.eqb_spec (a + Z.of_nat i) (a + Z.of_nat k)) as [Heq|Hne]; simpl.
  - apply wp_ret. assert (i = k) as -> by lia. done.
  - destruct (Hin (Z.of_nat i) ltac:(lia)) as [[v Hv] [w Hw]].
    assert (∀ x, (∀ j, 0 ≤ j < Z.of_nat i → x ≠ a + j ∧ x ≠ b + j) → m' !! x = m !! x) as Hsame by apply He.
    apply wp_bind. eapply (wp_swap _ _ v w).
    + rewrite Hsame; [done|]. intros j Hj. split; [lia|apply Hd; lia].
    + rewrite Hsame; [done|]. intros j Hj. split; [apply not_eq_sym, Hd; lia|lia].
    + apply wp_ret. exists (pred n). split; [lia|]. exists (S i). split_and!; [lia|f_equal; lia|].
      apply exchanged_next; [|done..]. intros i1 j1 Hi1 Hj1. apply Hd; lia.
Qed.

(** Pairs: swapping exchanges them, and assignment copies or moves the members,
    a pair with itself left alone. *)
Definition pair_at (m : gmap Z T) (a : Z) (v w : T) : Prop := m !! a = Some v ∧ m !! (a + 1) = Some w.
Lemma pair_swap_exchanges m a b v w v' w' :
  pair_at m a v w → pair_at m b v' w' → b = a ∨ 2 ≤ Z.abs (b - a) →
  wp (pair_swap a b) m (λ _ m', pair_at m' a v' w' ∧ pair_at m' b v w ∧
    ∀ x, (x < a ∨ a + 2 ≤ x) → (x < b ∨ b + 2 ≤ x) → m' !! x = m !! x).
Proof.
  intros [Hv Hw] [Hv' Hw'] Hab. unfold pair_swap. apply wp_when; [intros Hne%negb_true_iff%Z.eqb_neq|].
  - apply wp_bind. eapply wp_swap; [done..|]. eapply wp_swap; [by rewrite !lookup_insert_ne by lia..|].
    unfold pair_at. split_and!; intros; by repeat first
      [rewrite lookup_insert_eq by lia|rewrite lookup_insert_ne by lia].
  - intros ->%negb_false_iff%Z.eqb_eq. unfold pair_at. split_and!; congruence || done.
Qed.
Lemma pair_assigns m a b v w v' w' :
  pair_at m a v w → pair_at m b v' w' → b = a ∨ 2 ≤ Z.abs (b - a) →
  wp (pair_copy a b) m (λ _ m', pair_at m' a v' w' ∧ pair_at m' b v' w') ∧
  wp (pair_move a b) m (λ _ m', pair_at m' a v' w' ∧
    if b =? a then m' = m else pair_at m' b (moved v') (moved w')).
Proof.
  intros [Hv Hw] [Hv' Hw'] Hab. unfold pair_at. split; (apply wp_when; [intros Hne%negb_true_iff%Z.eqb_neq|]).
  - apply wp_bind. eapply wp_object; [done|]. apply wp_bind. eapply wp_assign; [done|].
    apply wp_bind. eapply wp_object; [by rewrite lookup_insert_ne by lia|].
    eapply wp_assign; [by rewrite lookup_insert_ne by lia|].
    split_and!; by repeat first [rewrite lookup_insert_eq by lia|rewrite lookup_insert_ne by lia].
  - intros ->%negb_false_iff%Z.eqb_eq. by split_and!.
  - rewrite (proj2 (Z.eqb_neq _ _)) by lia. unfold pair_move_other, move.
    apply wp_bind, wp_bind. eapply wp_object; [done|]. apply wp_bind. eapply wp_assign; [done|]. apply wp_ret, wp_bind.
    eapply wp_assign; [by rewrite lookup_insert_ne by lia|].
    apply wp_bind, wp_bind. eapply wp_object; [by rewrite !lookup_insert_ne by lia|].
    apply wp_bind. eapply wp_assign; [by rewrite !lookup_insert_ne by lia|]. apply wp_ret.
    eapply wp_assign; [by rewrite !lookup_insert_ne by lia|].
    split_and!; by repeat first [rewrite lookup_insert_eq by lia|rewrite lookup_insert_ne by lia].
  - intros ->%negb_false_iff%Z.eqb_eq. rewrite Z.eqb_refl. by split_and!.
Qed.

(** [destroy] of a range ends the lives of its objects. *)
Lemma destroy_range_ends m a k fuel :
  (k < fuel)%nat → (∀ i, 0 ≤ i < Z.of_nat k → is_Some (m !! (a + i))) →
  wp (destroy_range false fuel a (a + Z.of_nat k)) m (λ _ m', ∀ x,
    m' !! x = if decide (a ≤ x < a + Z.of_nat k) then None else m !! x).
Proof.
  intros Hfuel Hin. unfold destroy_range.
  apply (wp_loop (λ n l m', ∃ i : nat, (n + i = k)%nat ∧ l = a + Z.of_nat i ∧ ∀ x,
    m' !! x = if decide (a ≤ x < a + Z.of_nat i) then None else m !! x)) with (n := k);
    [|exists 0%nat; split_and!; [lia|lia|]; intros x; by rewrite decide_False by lia|done].
  intros n l m' (i & Hn & -> & Hm). destruct (Z.eqb_spec (a + Z.of_nat i) (a + Z.of_nat k)) as [Heq|Hne]; simpl.
  - apply wp_ret. assert (i = k) as <- by lia. done.
  - destruct (Hin (Z.of_nat i) ltac:(lia)) as [v Hv]. apply wp_bind, wp_bind. eapply wp_object.
    { rewrite Hm, decide_False by lia. done. }
    apply wp_modify, wp_ret. exists (pred n). split; [lia|]. exists (S i). split_and!; [lia|lia|].
    intros x. destruct (decide (x = a + Z.of_nat i)) as [->|Hx].
    + by rewrite lookup_delete_eq, decide_True by lia.
    + rewrite lookup_delete_ne by done. rewrite Hm. repeat case_decide; try done; lia.
Qed.
End memory.

(** * Pairs *)

(** The comparisons of pairs are those of the lexicographic order, if those of
    the parts are total orders. *)
Class Ordered {T : Type} (eq lt : T → T → bool) := {
  ordered_eq x y : eq x y = true ↔ x = y;
  ordered_irreflexive x : lt x x = false;
  ordered_transitive x y z : lt x y = true → lt y z = true → lt x z = true;
  ordered_total x y : lt x y = true ∨ x = y ∨ lt y x = true
}.
#[export, program] Instance pair_ordered {T U} (eq1 lt1 : T → T → bool) (eq2 lt2 : U → U → bool)
  `{!Ordered eq1 lt1, !Ordered eq2 lt2} : Ordered (pair_eq eq1 eq2) (pair_lt eq1 lt1 lt2).
Next Obligation.
  intros T U eq1 lt1 eq2 lt2 H1 H2 [a b] [c d]. unfold pair_eq. simpl.
  rewrite andb_true_iff, !ordered_eq. naive_solver.
Qed.
Next Obligation.
  intros T U eq1 lt1 eq2 lt2 H1 H2 [a b]. unfold pair_lt. simpl.
  by rewrite (@ordered_irreflexive _ _ _ H1 a), (@ordered_irreflexive _ _ _ H2 b), andb_false_r.
Qed.
Next Obligation.
  intros T U eq1 lt1 eq2 lt2 H1 H2 [a b] [c d] [e f]. unfold pair_lt. simpl.
  rewrite !orb_true_iff, !andb_true_iff, !ordered_eq.
  pose proof (@ordered_transitive _ _ _ H1 a c e). pose proof (@ordered_transitive _ _ _ H2 b d f). naive_solver.
Qed.
Next Obligation.
  intros T U eq1 lt1 eq2 lt2 H1 H2 [a b] [c d]. unfold pair_lt. simpl.
  rewrite !orb_true_iff, !andb_true_iff, !ordered_eq.
  destruct (@ordered_total _ _ _ H1 a c) as [?|[->|?]]; [naive_solver| |naive_solver].
  destruct (@ordered_total _ _ _ H2 b d) as [?|[->|?]]; naive_solver.
Qed.
