(* ===== verification/CppWitness.v ===== *)
(** The theorems on the C++ data structures and on the threads at concrete
    inputs. *)
From stdpp Require Import gmap list relations fin_sets.
From S2P Require Import Prelude CppHeap LRU Timer TimerProps Monitor BlockQueue RandomList TinySTL Threads ThreadPool ConnectionPool MultiThread.
(** The smallest address no object has. *)
#[local, program] Instance first_free : Allocator := {| alloc X := fresh X |}.
Next Obligation. intros X. apply is_fresh. Qed.

Lemma LRUCache_refines_witness :
  let os := [OpPut 1 10; OpPut 2 20; OpGet 1; OpPut 3 30; OpGet 2; OpGet 3] in
  2 < INT_MAX ∧ (Z.to_nat 2 + 2 < 5)%nat ∧
  ∃ s', lru_client 2 os 5 (LRU ∅ 0 0 None None ∅)
    = Done [None; None; Some 10; None; Some (-1); Some 30] s' ∧ lru_heap s' = ∅.
Proof.
  intros os. split; [unfold INT_MAX; lia|]. split; [simpl; lia|].
  apply (LRUCache_refines 2 os 5 (LRU ∅ 0 0 None None ∅)); [unfold INT_MAX; lia|simpl; lia].
Defined.

Lemma timers_expire_in_order_witness :
  let es := [Connect 0 4; Connect 7 5; Alarm 16; Connect 17 6; Alarm 40] in
  in_time 0 es ∧ ∃ s', (SortTimeLst_new;; evs_exec 6 es;; SortTimeLst_delete 6)
      (Timers None None ∅ ∅ 0 []) = Done tt s' ∧
    conn_calls s' = [EpollDel 4; CloseFd 4; EpollDel 5; CloseFd 5; EpollDel 6; CloseFd 6] ∧
    tl_heap s' = ∅.
Proof.
  intros es. split; [vm_compute; intuition discriminate|].
  apply (timers_expire_in_order 6 es 0 (Timers None None ∅ ∅ 0 []));
    [vm_compute; intuition discriminate|simpl; lia|unfold INT_MIN; simpl; lia|unfold INT_MAX; simpl; lia].
Defined.

(** Three connections, with timers at 1, 2 and 3. *)
Definition demo_timers : SortTimeLst :=
  Timers (Some 1%positive) (Some 3%positive)
    (<[1%positive := DNode (TimerData 15 4) None (Some 2%positive)]>
     (<[2%positive := DNode (TimerData 16 5) (Some 2%positive) (Some 3%positive)]>
      (<[3%positive := DNode (TimerData 17 6) (Some 3%positive) None]> ∅)))
    (<[4 := Client 4 (Some 1%positive)]> (<[5 := Client 5 (Some 2%positive)]>
      (<[6 := Client 6 (Some 3%positive)]> ∅))) 3 [].
Definition demo_list : list (loc * timer_data) :=
  [(1%positive, TimerData 15 4)] ++ (2%positive, TimerData 16 5) :: [(3%positive, TimerData 17 6)].
Lemma demo_timers_rep : tl_rep ∅ demo_timers demo_list.
Proof.
  constructor; try done.
  - simpl. split_and!; eauto.
  - by apply (bool_decide_unpack _); vm_compute.
  - intros l Hl. unfold demo_list in Hl. csimpl in Hl. nodup_flat. simpl. by rewrite !lookup_insert_ne by congruence.
  - intros y Hy. csimpl in Hy.
    apply elem_of_cons in Hy as [->|[->|[]%not_elem_of_nil]%elem_of_cons]; by eexists _, _.
Qed.
Lemma demo_clients_ok : clients_ok demo_timers demo_list.
Proof.
  intros x d Hx. unfold demo_list in Hx. simpl in Hx.
  apply elem_of_cons in Hx as [[= -> ->]|[[= -> ->]|[[= -> ->]|[]%not_elem_of_nil]%elem_of_cons]%elem_of_cons];
    by eexists.
Qed.
Lemma demo_expire e : e ∈ demo_list.*2 → t_expire e ≤ 5 + 3 * TIMESLOT.
Proof.
  intros He. unfold demo_list in He. csimpl in He. unfold TIMESLOT.
  apply elem_of_cons in He as [->|[->|[->|[]%not_elem_of_nil]%elem_of_cons]%elem_of_cons]; simpl; lia.
Qed.

Lemma adjust_timer_loses_witness :
  tl_rep ∅ demo_timers demo_list ∧
  ∃ s', (server_adjust_timer 9 5 (Some 2%positive);; tick 9 100) demo_timers = Done tt s' ∧
    tl_head s' = None ∧ conn_calls s' = [EpollDel 4; CloseFd 4; EpollDel 5; CloseFd 5] ∧
    ∀ y, y ∈ [3%positive] → is_Some (tl_heap s' !! y).
Proof.
  split; [apply demo_timers_rep|].
  apply (adjust_timer_loses ∅ demo_timers [(1%positive, TimerData 15 4)] 2%positive (TimerData 16 5)
    [(3%positive, TimerData 17 6)] 5 100 9); try done.
  - apply demo_timers_rep.
  - apply demo_clients_ok.
  - apply demo_expire.
  - simpl. lia.
Defined.

(** A consumer and a producer, and a [front] that returns what was popped. *)
Definition demo_queue : BlockQueue Z := BQ [0; 0] 0 2 (-1) (-1).
Definition demo_todos : list (list (bq_call Z)) := [[Pop; Front]; [Push 7; Push 8]].
Definition demo_sys : sys (BlockQueue Z) (bq_call Z) (bq_res Z) :=
  Sys (BQ [7; 8] 1 2 0 1) None [Thread Idle []; Thread Idle []]
    [(Push 7, RBool true); (Pop, RItem (Some 7)); (Push 8, RBool true); (Front, RItem (Some 7))].
Ltac bq_whole_call i := eapply rtc_l; [left; by eapply (step_call bq_cs _ _ _ _ i)|];
  eapply rtc_l; [left; by eapply (step_lock bq_cs _ _ _ i)|];
  eapply rtc_l; [left; eapply (step_return bq_cs _ _ _ _ i); [done|done|constructor]|]; simpl.
Lemma demo_reaches : rtc (any_step bq_cs) (start demo_queue demo_todos) demo_sys.
Proof. do 2 (bq_whole_call 1%nat; bq_whole_call 0%nat). apply rtc_refl. Qed.
(** A consumer that is about to wait. *)
Definition demo_waiting : sys (BlockQueue Z) (bq_call Z) (bq_res Z) :=
  Sys demo_queue None [Thread (Locking Pop) [Front]; Thread Idle [Push 7; Push 8]] [].
Lemma demo_waits : rtc (any_step bq_cs) (start demo_queue demo_todos) demo_waiting.
Proof. eapply rtc_l; [left; by eapply (step_call bq_cs _ _ _ _ 0%nat)|apply rtc_refl]. Qed.



Lemma BlockQueue_front_stale_witness :
  let q := BQ [7; 8] 2 2 (-1) 1 in
  bq_rep 2 q [7; 8] ∧ front q = Undef ∧
  ∃ q', pop_item q = Done (NoWake, Return (RItem (Some 7))) q' ∧ bq_rep 2 q' [8] ∧
    front q' = Done (NoWake, Return (RItem (Some 7))) q'.
Proof.
  intros q. assert (bq_rep 2 q [7; 8]) as Hr.
  { constructor; simpl; try done; try (unfold INT_MAX; lia). intros [|[|i]] x Hx; done. }
  split; [exact Hr|]. destruct (BlockQueue_front_stale 2 q [] 7 8 Hr) as [H1 H2].
  split; [by apply H1|exact H2].
Defined.

(** A list of three nodes: the first points to the last one, the last to itself. *)
Definition three_nodes : list (loc * (Z * ptr)) :=
  [(1%positive, (7, Some 3%positive)); (2%positive, (13, None)); (3%positive, (11, Some 3%positive))].
Definition three_heap : gmap loc Node :=
  {[1%positive := NodeObject 7 (Some 2%positive) (Some 3%positive);
    2%positive := NodeObject 13 (Some 3%positive) None;
    3%positive := NodeObject 11 None (Some 3%positive)]}.
Lemma three_is_list : is_list three_heap three_nodes.
Proof.
  split; [by apply (bool_decide_unpack _)|]. unfold three_nodes. intros [|[|[|i]]] x v r Hi; simplify_eq/=; split; try done;
    intros l [= <-]; by apply (bool_decide_unpack _).
Qed.
Lemma copyRandomList_copies_witness :
  wp (copy_nodes 4 (Some 1%positive)) three_heap (λ _ h, ∃ ys,
    length ys = 3%nat ∧ NoDup (three_nodes.*1 ++ ys) ∧ (∀ y, y ∈ ys → three_heap !! y = None) ∧
    (∀ l, l ∉ three_nodes.*1 → l ∉ ys → h !! l = three_heap !! l) ∧
    ∀ i x v r, three_nodes !! i = Some (x, (v, r)) → ∃ y r', ys !! i = Some y ∧ copied three_nodes ys r r' ∧
      h !! x = Some (NodeObject v (Some y) r) ∧ h !! y = Some (NodeObject v (at_ three_nodes (S i)) r')) ∧
  copyRandomList 4 (Some 1%positive) three_heap = Undef.
Proof. apply (copyRandomList_copies 4 three_heap three_nodes three_is_list). simpl. lia. Defined.

Lemma size_classes_witness :
  let i := Alloc.M_freelist_index 1000 in
  0 ≤ i < Z.of_nat Alloc.EFreeListsNumber ∧ 1000 ≤ Alloc.M_round_up 1000 ∧
  Alloc.M_round_up 1000 = AllocProps.class_size i ∧ (∀ j, 0 ≤ j < i → AllocProps.class_size j < 1000) ∧
  (Alloc.M_freelist_index 1000 = Alloc.M_freelist_index 4096 ↔ Alloc.M_round_up 1000 = Alloc.M_round_up 4096) ∧
  (1000 ≤ 4096 → Alloc.M_freelist_index 1000 ≤ Alloc.M_freelist_index 4096).
Proof. apply (AllocProps.size_classes 1000 4096); unfold Alloc.ESmallObjectBytes; lia. Defined.

(** * The thread pool *)

(** Reading always succeeds, writing never does. *)
#[local] Instance demo_task : Task :=
  {| task_reply _ _ c := match c with Read_once => true | _ => false end |}.

(** Two workers and a producer of two requests, one of them null, in a pool of
    the reactor mode; the producer has the lock. *)
Definition demo_pool : ThreadPool := Pool [] 10 1 {[1%positive := 0]} ∅ ∅ [] [] [].
Definition demo_workers : list pool_pc := [W_wait; W_wait].
Definition demo_calls : list (list pool_call) := [[AppendP (Some 1%positive); AppendP None]].
(** The producer makes both its calls; one worker takes the request and reads,
    the other takes the null pointer, and the first one goes on. *)
Definition demo_order : list nat :=
  [2; 2; 2; 2; 2; 2; 2; 2; 2; 2; 0; 0; 0; 1; 0; 1; 0; 0; 1; 1; 0; 0; 0; 1]%nat.
Definition demo_machine : machine ThreadPool pool_pc :=
  Machine (Pool [] 10 1 {[1%positive := 0]} {[1%positive := 1]} ∅ [Some 1%positive; None] [Some 1%positive; None]
      [(1%positive, Read_once, true); (1%positive, GetConnection, false); (1%positive, Process, false);
       (1%positive, ReleaseConnection, false)])
    0 None [W_wait; W_wait; P_next []].
Lemma demo_pool_steps : rtc (mstep pool_code) (pool_start demo_pool demo_workers demo_calls) demo_machine.
Proof. apply (turns_steps pool_code demo_order). vm_compute. reflexivity. Qed.


Lemma demo_stuck : stuck pool_code demo_machine.
Proof.
  intros s' Hs. inversion Hs as [q n o pcs i pc k Hp Hc|q n o pcs i pc k Hp Hc|q n pcs i pc k Hp Hc|
    q n pcs i pc k Hp Hc|q n o pcs i pc m k q' Hp Hc Hm]; subst; destruct i as [|[|[|i]]]; simplify_eq/=.
Qed.

(** * The connection pool *)

(** Every handle is new, and every connection can be made. *)
#[local] Instance demo_mysql : MySQL :=
  {| mysql_init i := if 0 <=? i then Some (Z.to_pos (i + 1)) else None; mysql_real_connect _ _ := true |}.

Definition demo_conns : ConnectionPool := ConnPool false 2 0 2 [1%positive; 2%positive] [] [].
(** One of two threads has seen that there are connections. *)
Definition demo_users : machine ConnectionPool conn_pc :=
  Machine demo_conns 2 None [C_sem 0; C_next 2].
Lemma demo_conn_steps : rtc (mstep conn_code) (conn_start demo_conns 2 [1; 2]%nat) demo_users.
Proof. by apply (turns_steps conn_code [0%nat]). Qed.

Lemma GetConnection_undefined_witness :
  init 2 ConnectionPool_new = Done 2 demo_conns ∧
  rtc (mstep conn_code) (conn_start demo_conns 2 [1; 2]%nat) demo_users ∧
  mcrashed conn_code demo_users.
Proof.
  split; [reflexivity|]. split; [apply demo_conn_steps|].
  destruct (GetConnection_undefined 2 2 demo_conns [1; 2]%nat demo_users)
    as (_ & _ & _ & H & _); [reflexivity|apply demo_conn_steps|].
  apply H; [lia|]. exists 0%nat. left.
Defined.

(** * Threads that add squares *)

Lemma concurrent_task_is_serial_witness :
  (∃ ranges, concurrent_ranges 20 3 10 0 = Done ranges 0 ∧ Z.of_nat (length ranges) = 3 ∧
    ∀ s, rtc (mstep concurrent_worker) (start_workers ranges 0) s →
      ¬ mcrashed concurrent_worker s ∧
      (∀ n s', nsteps (mstep concurrent_worker) n s s' → (n ≤ potential concurrent_worker s)%nat) ∧
      (stuck concurrent_worker s → joined s ∧ serial_task 20 10 0 = Done (mc_obj s) (mc_obj s) ∧
        6 * mc_obj s = 10 * (10 + 1) * (2 * 10 + 1))) ∧
  serial_task (Z.to_nat 3200000) MAX 0 = Undef.
Proof.
  split.
  - apply (concurrent_task_is_serial 3 10 0 20); try done. apply Nat.ltb_lt. reflexivity.
  - apply (concurrent_task_is_serial 3 10 0 (Z.to_nat 3200000)). rewrite Z2Nat.id; [reflexivity|done].
Defined.
