(* ===== verification/HttpModel.v ===== *)
(** The state of [HttpConn] (src/TinyWebServer/http/http_conn.h), the calls its
    methods make, with the answers left to an arbitrary system, and the
    functions of string.h and stdlib.h they use on their buffers. *)
From stdpp Require Import gmap list pretty.
From coqutil Require Import Datatypes.RecordSetters.
From S2P Require Import Prelude.
Export RecordSetters.DoubleBraceUpdate.
#[global] Open Scope Z_scope.

(** * Constants *)

Definition FILENAME_LEN : Z := 200.
Definition READ_BUFFER_SIZE : Z := 2048.
Definition WRITE_BUFFER_SIZE : Z := 1024.

Inductive METHOD := GET | POST | HEAD | PUT | DELETE | TRACE | OPTIONS | CONNECT | PATH.
Inductive CHECK_STATE := CHECK_STATE_REQUESTLINE | CHECK_STATE_HEADER | CHECK_STATE_CONTENT.
Inductive HTTP_CODE :=
| NO_REQUEST | GET_REQUEST | BAD_REQUEST | NO_RESOURCE | FORBIDDEN_REQUEST
| FILE_REQUEST | INTERNAL_ERROR | CLOSED_CONNECTION.
Inductive LINE_STATUS := LINE_OK | LINE_BAD | LINE_OPEN.
#[export] Instance check_state_eq_dec : EqDecision CHECK_STATE.
Proof. solve_decision. Defined.
#[export] Instance line_status_eq_dec : EqDecision LINE_STATUS.
Proof. solve_decision. Defined.
#[export] Instance http_code_eq_dec : EqDecision HTTP_CODE.
Proof. solve_decision. Defined.

Definition EPOLLIN : Z := 1.
Definition EPOLLOUT : Z := 4.
Definition EPOLLRDHUP : Z := 8192.
Definition EPOLLONESHOT : Z := 1073741824.
Definition EPOLLET : Z := 2147483648.
Definition EAGAIN : Z := 11.
Definition O_NONBLOCK : Z := 2048.
Definition S_IROTH : Z := 4.
Definition S_IFMT : Z := 61440.
Definition S_IFDIR : Z := 16384.

(** The bytes of a literal. *)
Definition bytes (s : string) : list Z :=
  (λ a, Z.of_N (Ascii.N_of_ascii a)) <$> String.list_ascii_of_string s.
Definition CR : Z := 13.
Definition LF : Z := 10.
Definition SP : Z := 32.
Definition TAB : Z := 9.
Definition SLASH : Z := 47.

(** * Calls *)

(** The calls the methods make; what is logged is kept with them. *)
Inductive hcall :=
| EpollCtlAdd (epfd fd events : Z) | EpollCtlDel (epfd fd : Z) | EpollCtlMod (epfd fd events : Z)
| FcntlGet (fd : Z) | FcntlSet (fd flags : Z)
| CloseFd (fd : Z) | Recv (fd n : Z) | Writev (fd : Z) (vecs : list (list Z))
| Stat (path : list Z) | OpenRead (path : list Z) | Mmap (fd size : Z) | Munmap (addr size : Z)
| MysqlQuery (conn : Z) (sql : list Z) | MysqlRows (conn : Z) | PrintClose (fd : Z)
| LogInfo (text : list Z) | LogError (text : list Z).

(** [struct stat], as far as it is used. *)
Record stat_t := StatT { st_mode : Z; st_size : Z }.

(** What a call gives back: its value, [errno], the bytes it delivers, the
    attributes of a file, the rows of a query. *)
Record hreply := HReply {
  h_ret : Z;
  h_errno : Z;
  h_data : list Z;
  h_stat : stat_t;
  h_rows : list (option (list Z) * option (list Z))
}.

(** The system, the database and the contents of mapped files: any function of
    what happened before. *)
Class HttpOS := {
  http_reply : list hcall → hcall → hreply;
  file_bytes : Z → Z → list Z
}.

(** * Buffers *)

(** What a pointer of an [iovec] points to: into [m_write_buf], or into a
    mapped file. *)
Inductive iov_base := IovNone | IovBuf (off : Z) | IovFile (addr off : Z).
Record iovec := Iovec { iov_at : iov_base; iov_len : Z }.

(** The members of [HttpConn] a request is parsed with. The pointers point
    into [m_read_buf]: an offset, or [None] for a null pointer. *)
Record request := Request {
  m_read_buf : list Z;
  m_read_idx : Z;
  m_checked_idx : Z;
  m_start_line : Z;
  m_check_state : CHECK_STATE;
  m_method : METHOD;
  m_url : option Z;
  m_version : option Z;
  m_host : option Z;
  m_content_length : Z;
  m_linger : bool;
  m_cgi : Z;
  m_string : option Z;
  m_close_log : Z;
  m_calls : list hcall
}.
Abbreviation Req := (M request).

(** The members a response is built in; [m_iovec_count] is [None] as long as
    nothing was stored in it. *)
Record response := Response {
  m_write_buf : list Z;
  m_write_idx : Z;
  m_real_file : list Z;
  m_file_address : option Z;
  m_file_stat : stat_t;
  m_iovec0 : iovec;
  m_iovec1 : iovec;
  m_iovec_count : option Z;
  m_bytes_to_send : Z;
  m_bytes_have_send : Z
}.

(** [HttpConn], with what its methods share with the other connections: the
    epoll table, the number of connections and the map of users. The constructor
    of an [HttpConn] stores nothing: [m_trig_mode], the one member that a
    connection reads before it has stored something in it, is [None] till then. *)
Record HttpConn := Conn {
  c_req : request;
  c_resp : response;
  m_sockfd : Z;
  m_address : list Z;
  m_mysql : option Z;
  m_trig_mode : option Z;
  m_doc_root : list Z;
  m_improv : Z;
  m_timer_flag : Z;
  m_state : Z;
  m_sql_user : list Z;
  m_sql_password : list Z;
  m_sql_name : list Z;
  m_epoll_fd : Z;
  m_user_count : Z;
  users : gmap (list Z) (list Z)
}.
Abbreviation Http := (M HttpConn).

(** Running what only concerns the request. *)
Definition on_req {A} (m : Req A) : Http A := λ c,
  match m (c_req c) with
  | Done a r => Done a c{{c_req := r}}
  | Undef => Undef
  | OutOfFuel r => OutOfFuel c{{c_req := r}}
  | Exited code r => Exited code c{{c_req := r}}
  end.

(** Making a call, and what it gives back. *)
Definition hsys `{HttpOS} (c : hcall) : Http hreply :=
  tr ← gets (λ s, m_calls (c_req s));
  modify (λ s, s{{c_req := (c_req s){{m_calls := tr ++ [c] }} }});;
  ret (http_reply tr c).
(** A call whose answer is not used. *)
Definition hdo (c : hcall) : Http unit :=
  modify (λ s, s{{c_req := (c_req s){{m_calls := m_calls (c_req s) ++ [c] }} }}).
Definition set_conn (f : HttpConn → HttpConn) : Http unit := modify f.
Definition set_resp (f : response → response) : Http unit :=
  modify (λ s, s{{c_resp := f (c_resp s)}}).

(** * string.h on the bytes from a pointer to the end of its array

    [None]: the function would read past the end. *)

(** The string: up to the first NUL. *)
Fixpoint c_string (s : list Z) : option (list Z) :=
  match s with
  | [] => None
  | c :: s => if c =? 0 then Some [] else (c ::.) <$> c_string s
  end.
(** [strpbrk]: the offset of the first byte of [accept]. *)
Fixpoint strpbrk (accept s : list Z) : option (option Z) :=
  match s with
  | [] => None
  | c :: s =>
      if c =? 0 then Some None
      else if bool_decide (c ∈ accept) then Some (Some 0)
      else option_map (Z.add 1) <$> strpbrk accept s
  end.
(** [strspn] *)
Fixpoint strspn (accept s : list Z) : option Z :=
  match s with
  | [] => None
  | c :: s => if bool_decide (c ∈ accept) then Z.add 1 <$> strspn accept s else Some 0
  end.
(** [strchr] of a byte that is not NUL, [strrchr] *)
Definition strchr (b : Z) (s : list Z) : option (option Z) := strpbrk [b] s.
Fixpoint last_at (b : Z) (s : list Z) : option Z :=
  match s with
  | [] => None
  | c :: s =>
      match last_at b s with
      | Some i => Some (1 + i)
      | None => if c =? b then Some 0 else None
      end
  end.
Definition strrchr (b : Z) (s : list Z) : option (option Z) := last_at b <$> c_string s.
(** [strcasecmp(s, t) == 0] and [strncasecmp(s, t, n) == 0] for a literal [t]. *)
Definition tolower (c : Z) : Z := if (65 <=? c) && (c <=? 90) then c + 32 else c.
Fixpoint strcasecmp0 (s t : list Z) : option bool :=
  match s, t with
  | [], _ => None
  | c :: _, [] => Some (c =? 0)
  | c :: s, d :: t => if tolower c =? tolower d then strcasecmp0 s t else Some false
  end.
Fixpoint strncasecmp0 (s t : list Z) (n : nat) : option bool :=
  match n, s, t with
  | O, _, _ => Some true
  | S n, [], _ => None
  | S n, c :: _, [] => Some (c =? 0)
  | S n, c :: s, d :: t => if tolower c =? tolower d then strncasecmp0 s t n else Some false
  end.
(** [atol]: white space, a sign, digits; [None] also when the value is no
    [long]. *)
Definition LONG_MAX : Z := 9223372036854775807.
Definition is_long (z : Z) : bool := (- LONG_MAX - 1 <=? z) && (z <=? LONG_MAX).
(** The value of a [long] expression. *)
Definition long {S} (z : Z) : M S Z := if is_long z then ret z else undef.
Fixpoint atol_digits (acc : Z) (s : list Z) : option Z :=
  match s with
  | [] => None
  | c :: s => if (48 <=? c) && (c <=? 57) then atol_digits (acc * 10 + (c - 48)) s else Some acc
  end.
Fixpoint atol_space (s : list Z) : list Z :=
  match s with
  | c :: s' => if (c =? 32) || ((9 <=? c) && (c <=? 13)) then atol_space s' else s
  | [] => []
  end.
Definition atol (s : list Z) : option Z :=
  let z := match atol_space s with
           | 45 :: s => Z.opp <$> atol_digits 0 s
           | 43 :: s => atol_digits 0 s
           | s => atol_digits 0 s
           end in
  match z with Some z => if is_long z then Some z else None | None => None end.
(** Storing [bs] at offset [i] of an array. *)
Definition put_bytes (b : list Z) (i : Z) (bs : list Z) : option (list Z) :=
  if (0 <=? i) && (i + Z.of_nat (length bs) <=? Z.of_nat (length b)) then
    Some (take (Z.to_nat i) b ++ bs ++ drop (Z.to_nat i + length bs) b)
  else None.
(** The bytes from offset [i] on; [i] may be one past the end. *)
Definition bytes_from (b : list Z) (i : Z) : option (list Z) :=
  if (0 <=? i) && (i <=? Z.of_nat (length b)) then Some (drop (Z.to_nat i) b) else None.
Definition byte_at (b : list Z) (i : Z) : option Z :=
  if 0 <=? i then b !! Z.to_nat i else None.
