(* ===== verification/HttpParse.v ===== *)
(** Parsing of requests: [parse_line], [parse_request_line], [parse_headers],
    [parse_content] and the loop of [process_read]
    (src/TinyWebServer/http/http_conn.cpp). *)
From stdpp Require Import gmap list.
From coqutil Require Import Datatypes.RecordSetters.
From S2P Require Import Prelude HttpModel.

(** * Through the pointers *)

Definition set_req (f : request → request) : Req unit := modify f.
(** The bytes from a pointer on, one byte, and a store. *)
Definition deref (p : option Z) : Req (list Z) :=
  i ← need p; b ← gets m_read_buf; need (bytes_from b i).
Definition char_at (p : option Z) (i : Z) : Req Z :=
  o ← need p; b ← gets m_read_buf; need (byte_at b (o + i)).
Definition write_bytes (p : option Z) (bs : list Z) : Req unit :=
  i ← need p; b ← gets m_read_buf; b ← need (put_bytes b i bs);
  set_req (λ r, r{{m_read_buf := b}}).
(** [p + n] *)
Definition advance (p : option Z) (n : Z) : option Z := (λ i, i + n) <$> p.

(** The functions of string.h on a pointer. *)
Definition find_any (accept : list Z) (p : option Z) : Req (option Z) :=
  s ← deref p; k ← need (strpbrk accept s);
  ret (match k with Some k => advance p k | None => None end).
Definition span_any (accept : list Z) (p : option Z) : Req Z :=
  s ← deref p; need (strspn accept s).
Definition equals_nocase (p : option Z) (t : string) : Req bool :=
  s ← deref p; need (strcasecmp0 s (bytes t)).
Definition starts_nocase (p : option Z) (t : string) (n : nat) : Req bool :=
  s ← deref p; need (strncasecmp0 s (bytes t) n).
Definition string_at (p : option Z) : Req (list Z) := s ← deref p; need (c_string s).
(** [strcat(p, t)] *)
Definition append_to (p : option Z) (t : string) : Req unit :=
  s ← string_at p; write_bytes (advance p (Z.of_nat (length s))) (bytes t ++ [0]).

(** [LOG_INFO(format, p)], when the log is on. *)
Definition log_info (format : string) (p : option Z) : Req unit :=
  off ← gets m_close_log;
  whenM (off =? 0)
    (s ← string_at p; set_req (λ r, r{{m_calls := m_calls r ++ [LogInfo (bytes format ++ s)] }})).

Definition blanks : list Z := [SP; TAB].

(** * Lines *)

(** [parse_line()]: the loop, from [m_checked_idx]. *)
Definition parse_line_step : Req (unit + LINE_STATUS) :=
  i ← gets m_checked_idx; n ← gets m_read_idx;
  if negb (i <? n) then ret (inr LINE_OPEN) else
  b ← gets m_read_buf;
  temp ← need (byte_at b i);
  if temp =? CR then
    if i + 1 =? n then ret (inr LINE_OPEN) else
    next ← need (byte_at b (i + 1));
    if next =? LF then
      write_bytes (Some i) [0];; write_bytes (Some (i + 1)) [0];;
      set_req (λ r, r{{m_checked_idx := i + 2}});;
      ret (inr LINE_OK)
    else ret (inr LINE_BAD)
  else if temp =? LF then
    (if i >? 1 then
       prev ← need (byte_at b (i - 1));
       if prev =? CR then
         write_bytes (Some (i - 1)) [0];; write_bytes (Some i) [0];;
         set_req (λ r, r{{m_checked_idx := i + 1}});;
         ret (inr LINE_OK)
       else ret (inr LINE_BAD)
     else ret (inr LINE_BAD))
  else
    set_req (λ r, r{{m_checked_idx := i + 1}});;
    ret (inl tt).
Definition parse_line (fuel : nat) : Req LINE_STATUS := loop fuel (λ _, parse_line_step) tt.

(** * The request line *)

(** The method, up to [return BAD_REQUEST] for an unknown one; the result says
    whether to go on. *)
Definition take_method (text : option Z) : Req bool :=
  url ← find_any blanks text; set_req (λ r, r{{m_url := url}});;
  if negb (bool_decide (is_Some url)) then ret false else
  write_bytes url [0];; set_req (λ r, r{{m_url := advance url 1}});;
  let method := text in
  is_get ← equals_nocase method "GET";
  if is_get : bool then set_req (λ r, r{{m_method := GET}});; ret true else
  is_post ← equals_nocase method "POSE";
  if is_post : bool then set_req (λ r, r{{m_method := POST; m_cgi := 1}});; ret true else
  ret false.

(** The end of the target and the version. *)
Definition take_version : Req bool :=
  url ← gets m_url; k ← span_any blanks url; set_req (λ r, r{{m_url := advance url k}});;
  url ← gets m_url;
  version ← find_any blanks url; set_req (λ r, r{{m_version := version}});;
  if negb (bool_decide (is_Some version)) then ret false else
  write_bytes version [0];; set_req (λ r, r{{m_version := advance version 1}});;
  version ← gets m_version;
  k ← span_any blanks version; set_req (λ r, r{{m_version := advance version k}});;
  version ← gets m_version;
  equals_nocase version "HTTP/1.1".

(** [if (strncasecmp(m_url, scheme, n) == 0) { m_url += n; m_url =
    strchr(m_url, '/'); }] *)
Definition skip_scheme (scheme : string) (n : nat) : Req unit :=
  url ← gets m_url;
  b ← starts_nocase url scheme n;
  whenM b (u ← find_any [SLASH] (advance url (Z.of_nat n)); set_req (λ r, r{{m_url := u}})).

(** The target itself. *)
Definition take_target : Req bool :=
  skip_scheme "http:://" 7;;
  skip_scheme "https:://" 8;;
  url ← gets m_url;
  slash ← (if bool_decide (is_Some url) then c ← char_at url 0; ret (c =? SLASH) else ret false);
  if negb slash then ret false else
  s ← string_at url;
  whenM (Z.of_nat (length s) =? 1) (append_to url "judge.html");;
  ret true.

Definition parse_request_line (text : option Z) : Req HTTP_CODE :=
  ok ← take_method text; if negb ok then ret BAD_REQUEST else
  ok ← take_version; if negb ok then ret BAD_REQUEST else
  ok ← take_target; if negb ok then ret BAD_REQUEST else
  set_req (λ r, r{{m_check_state := CHECK_STATE_HEADER}});;
  ret NO_REQUEST.

(** * Headers and content *)

Definition parse_headers (text : option Z) : Req HTTP_CODE :=
  c ← char_at text 0;
  if c =? 0 then
    len ← gets m_content_length;
    if negb (len =? 0) then
      set_req (λ r, r{{m_check_state := CHECK_STATE_CONTENT}});; ret NO_REQUEST
    else ret GET_REQUEST
  else
  connection ← starts_nocase text "Connection" 11;
  if connection : bool then
    let text := advance text 11 in
    k ← span_any blanks text; let text := advance text k in
    keep ← equals_nocase text "keep-alive";
    whenM keep (set_req (λ r, r{{m_linger := true}}));;
    ret NO_REQUEST
  else
  content_length ← starts_nocase text "Content-length:" 15;
  if content_length : bool then
    let text := advance text 15 in
    k ← span_any blanks text; let text := advance text k in
    s ← deref text; n ← need (atol s);
    set_req (λ r, r{{m_content_length := n}});;
    ret NO_REQUEST
  else
  host ← starts_nocase text "Host:" 5;
  if host : bool then
    let text := advance text 5 in
    k ← span_any blanks text; let text := advance text k in
    set_req (λ r, r{{m_host := text}});;
    ret NO_REQUEST
  else
    log_info "opp! unkown header: %s" text;;
    ret NO_REQUEST.

Definition parse_content (text : option Z) : Req HTTP_CODE :=
  n ← gets m_read_idx; len ← gets m_content_length; i ← gets m_checked_idx;
  end_ ← long (len + i);
  if end_ <=? n then
    write_bytes (advance text len) [0];;
    set_req (λ r, r{{m_string := text}});;
    ret GET_REQUEST
  else ret NO_REQUEST.

(** * The loop *)

(** How the loop of [process_read] ends: with a code, or with a request that
    [do_request] is to answer. *)
Inductive read_end := Code (c : HTTP_CODE) | Do_request.

(** [get_line()] *)
Definition get_line : Req (option Z) := i ← gets m_start_line; ret (Some i).

(** The condition of the loop, with its [==] for [=]: the second operand holds
    when [parse_line()] differs from [line_status]. *)
Definition read_condition (fuel : nat) (line_status : LINE_STATUS) : Req bool :=
  st ← gets m_check_state;
  if bool_decide (st = CHECK_STATE_CONTENT) && bool_decide (line_status = LINE_OK) then ret true
  else
    line ← parse_line fuel;
    let same := bool_decide (line_status = line) in
    ret (negb same).

(** One turn; [inr None]: the condition is false and the function ends without
    a value. *)
Definition process_read_step (fuel : nat) (line_status : LINE_STATUS) :
    Req (LINE_STATUS + option read_end) :=
  go ← read_condition fuel line_status;
  if negb go then ret (inr None) else
  text ← get_line;
  set_req (λ r, r{{m_start_line := m_checked_idx r}});;
  log_info "%s" text;;
  st ← gets m_check_state;
  match st with
  | CHECK_STATE_REQUESTLINE =>
      ret_ ← parse_request_line text;
      if bool_decide (ret_ = BAD_REQUEST) then ret (inr (Some (Code BAD_REQUEST)))
      else ret (inl line_status)
  | CHECK_STATE_HEADER =>
      ret_ ← parse_headers text;
      if bool_decide (ret_ = BAD_REQUEST) then ret (inr (Some (Code BAD_REQUEST)))
      else if bool_decide (ret_ = GET_REQUEST) then ret (inr (Some Do_request))
      else ret (inl line_status)
  | CHECK_STATE_CONTENT =>
      ret_ ← parse_content text;
      if bool_decide (ret_ = GET_REQUEST) then ret (inr (Some Do_request))
      else ret (inl LINE_OPEN)
  end.

(** [process_read()], up to the call of [do_request]; a function with a result
    that ends without [return] has undefined behaviour. *)
Definition read_request (fuel : nat) : Req read_end :=
  r ← loop fuel (process_read_step fuel) LINE_OK;
  need r.
