(* ===== verification/HttpResponse.v ===== *)
(** Reading, answering and writing: the rest of [HttpConn]
    (src/TinyWebServer/http/http_conn.cpp). *)
From stdpp Require Import gmap list pretty.
From coqutil Require Import Datatypes.RecordSetters.
From S2P Require Import Prelude HttpModel HttpParse.

(** Conversions to [int] and to [size_t]. *)
Definition to_int (z : Z) : Z := (z + 2 ^ 31) mod 2 ^ 32 - 2 ^ 31.
Definition to_size (z : Z) : Z := z mod 2 ^ 64.

(** The string in a local array, up to its first NUL. *)
Fixpoint until_nul (s : list Z) : list Z :=
  match s with
  | [] => []
  | c :: s => if c =? 0 then [] else c :: until_nul s
  end.
(** What [strncpy(p, s, n)] stores. *)
Definition strncpy_bytes (s : list Z) (n : Z) : list Z :=
  take (Z.to_nat n) (s ++ replicate (Z.to_nat n) 0).
(** [%d] *)
Definition decimal (z : Z) : list Z := bytes (pretty z).
Definition crlf : list Z := [CR; LF].

(** * The epoll table *)

Section epoll.
Context {OS : HttpOS}.

Definition set_nonblocking (fd : Z) : Http Z :=
  old ← hsys (FcntlGet fd);
  let old_option := h_ret old in
  let new_option := Z.lor old_option O_NONBLOCK in
  hdo (FcntlSet fd new_option);;
  ret old_option.

Definition addfd (epoll_fd fd : Z) (one_shot : bool) (trig_mode : Z) : Http unit :=
  let events := if trig_mode =? 1 then Z.lor (Z.lor EPOLLIN EPOLLET) EPOLLRDHUP
                else Z.lor EPOLLIN EPOLLRDHUP in
  let events := if one_shot then Z.lor events EPOLLONESHOT else events in
  hdo (EpollCtlAdd epoll_fd fd events);;
  _ ← set_nonblocking fd;
  ret tt.

Definition removefd (epoll_fd fd : Z) : Http unit :=
  hdo (EpollCtlDel epoll_fd fd);; hdo (CloseFd fd).

Definition modfd (epoll_fd fd events trig_mode : Z) : Http unit :=
  let ev := if trig_mode =? 1 then Z.lor (Z.lor (Z.lor events EPOLLET) EPOLLONESHOT) EPOLLRDHUP
            else Z.lor (Z.lor events EPOLLONESHOT) EPOLLRDHUP in
  hdo (EpollCtlMod epoll_fd fd ev).

(** [modfd(m_epoll_fd, m_sockfd, events, m_trig_mode)] *)
Definition rearm (events : Z) : Http unit :=
  ep ← gets m_epoll_fd; fd ← gets m_sockfd; mode ← gets m_trig_mode; mode ← need mode;
  modfd ep fd events mode.
End epoll.

(** * Opening and closing *)

Section connection.
Context {OS : HttpOS}.

Definition close_conn (real_close : bool) : Http unit :=
  fd ← gets m_sockfd;
  whenM (real_close && negb (fd =? -1))
    (hdo (PrintClose fd);;
     ep ← gets m_epoll_fd;
     removefd ep fd;;
     set_conn (λ s, s{{m_sockfd := -1}});;
     n ← gets m_user_count; n ← int (n - 1);
     set_conn (λ s, s{{m_user_count := n}})).

(** [init()] *)
Definition init_request (r : request) : request :=
  r{{m_read_buf := replicate (Z.to_nat READ_BUFFER_SIZE) 0; m_read_idx := 0; m_checked_idx := 0;
     m_start_line := 0; m_check_state := CHECK_STATE_REQUESTLINE; m_method := GET;
     m_url := None; m_version := None; m_host := None; m_content_length := 0;
     m_linger := false; m_cgi := 0}}.
Definition init_response (r : response) : response :=
  r{{m_write_buf := replicate (Z.to_nat WRITE_BUFFER_SIZE) 0; m_write_idx := 0;
     m_real_file := replicate (Z.to_nat FILENAME_LEN) 0;
     m_bytes_to_send := 0; m_bytes_have_send := 0}}.
Definition init : Http unit :=
  set_conn (λ s, s{{m_mysql := None; c_req := init_request (c_req s);
    c_resp := init_response (c_resp s); m_state := 0; m_timer_flag := 0; m_improv := 0}}).

Definition get_address : Http (list Z) := gets m_address.

(** [strcpy] of a string into an array of 100 bytes. *)
Definition fits100 (s : list Z) : Http (list Z) :=
  if Z.of_nat (length s) <? 100 then ret s else undef.
(** [init(sockfd, ...)] *)
Definition init_conn (sockfd : Z) (addr : list Z) (root : list Z) (trig_mode close_log : Z)
    (user password sql_name : list Z) : Http unit :=
  set_conn (λ s, s{{m_sockfd := sockfd; m_address := addr}});;
  ep ← gets m_epoll_fd; mode ← gets m_trig_mode; mode ← need mode;
  addfd ep sockfd true mode;;
  set_conn (λ s, s{{m_doc_root := root; m_trig_mode := Some trig_mode;
                    c_req := (c_req s){{m_close_log := close_log}} }});;
  u ← fits100 (until_nul user); p ← fits100 (until_nul password); n ← fits100 (until_nul sql_name);
  set_conn (λ s, s{{m_sql_user := u; m_sql_password := p; m_sql_name := n}});;
  init.

(** [users[name] = passwd] for the rows in their order; [std::string] of a null
    pointer is undefined. *)
Fixpoint store_rows (rows : list (option (list Z) * option (list Z))) : Http unit :=
  match rows with
  | [] => ret tt
  | (name, passwd) :: rows =>
      name ← need name; passwd ← need passwd;
      set_conn (λ s, s{{users := <[name := passwd]> (users s)}});;
      store_rows rows
  end.
(** [init_mysql_result], with the connection the pool gave. *)
Definition init_mysql_result (mysql : option Z) : Http unit :=
  conn ← need mysql;
  q ← hsys (MysqlQuery conn (bytes "SELECT username, password FROM user"));
  if negb (h_ret q =? 0) then
    off ← gets (λ s, m_close_log (c_req s));
    whenM (off =? 0) (hdo (LogError (bytes "SELECT error:")));;
    exit 1
  else
    rows ← hsys (MysqlRows conn);
    store_rows (h_rows rows).

(** * Receiving *)

(** [recv] at [m_read_buf + m_read_idx]. *)
Definition recv_chunk : Http hreply :=
  i ← gets (λ s, m_read_idx (c_req s)); fd ← gets m_sockfd;
  r ← hsys (Recv fd (READ_BUFFER_SIZE - i));
  on_req (write_bytes (Some i) (h_data r));;
  ret r.
Definition bump_read_idx (k : Z) : Http unit :=
  on_req (set_req (λ r, r{{m_read_idx := m_read_idx r + k}})).
Definition read_once (fuel : nat) : Http bool :=
  i ← gets (λ s, m_read_idx (c_req s));
  if i >=? READ_BUFFER_SIZE then ret false else
  mode ← gets m_trig_mode; mode ← need mode;
  if mode =? 0 then
    r ← recv_chunk;
    bump_read_idx (h_ret r);;
    ret (negb (h_ret r <=? 0))
  else
    loop fuel (λ _,
      r ← recv_chunk;
      if h_ret r =? -1 then ret (inr (h_errno r =? EAGAIN))
      else if h_ret r =? 0 then ret (inr false)
      else bump_read_idx (h_ret r);; ret (inl tt)) tt.
End connection.

(** * Answering a request *)

Section do_request.
Context {OS : HttpOS}.

(** Storing [bs] at [m_real_file + i]. *)
Definition put_file (i : Z) (bs : list Z) : Http unit :=
  f ← gets (λ s, m_real_file (c_resp s));
  f ← need (put_bytes f i bs);
  set_resp (λ r, r{{m_real_file := f}}).
Definition url_char (p : option Z) (i : Z) : Http Z := on_req (char_at p i).
(** [strcpy(m_url, s)] *)
Definition set_url (s : string) : Http unit :=
  url ← gets (λ s, m_url (c_req s)); on_req (write_bytes url (bytes s ++ [0])).
(** A string built by [strcpy]/[strcat] in [size] bytes. *)
Definition in_room (size : Z) (s : list Z) : Http (list Z) :=
  if Z.of_nat (length s) <? size then ret s else undef.

(** The copy loops [for (i = ...; m_string[i] != stop; ++ i) dst[...] = ...]
    into an array of [room] bytes, with its final NUL. *)
Fixpoint copy_until (stop : Z) (p : option Z) (i : Z) (room : nat) : Req (list Z) :=
  match room with
  | O => undef
  | S room =>
      c ← char_at p i;
      if c =? stop then ret [] else
      s ← copy_until stop p (i + 1) room; ret (c :: s)
  end.

(** [users.find(name) != users.end()] and [users[name] == password] *)
Definition known (name : list Z) : Http bool := us ← gets users; ret (bool_decide (is_Some (us !! name))).
Definition registered (name password : list Z) : Http bool :=
  us ← gets users; ret (bool_decide (us !! name = Some password)).

Definition sql_insert (name password : list Z) : list Z :=
  bytes "INSERT INTO user(username, password) VALUES(" ++ bytes "'" ++ name ++ bytes "', '"
  ++ password ++ bytes "')".

Definition CHAR (s : string) : Z := hd 0 (bytes s).

(** The name and the password of the body [user=...&password=...]. *)
Definition read_form : Req (list Z * list Z) :=
  str ← gets m_string;
  name ← copy_until (CHAR "&") str 5 100;
  password ← copy_until 0 str (5 + Z.of_nat (length name) + 10) 100;
  ret (until_nul name, password).

(** Registration: a new name is inserted, in the table and in [users]. *)
Definition do_register (name password : list Z) : Http unit :=
  sql ← in_room 200 (sql_insert name password);
  there ← known name;
  if there : bool then set_url "/registerError.html" else
  conn ← gets m_mysql; conn ← need conn;
  res ← hsys (MysqlQuery conn sql);
  set_conn (λ s, s{{users := <[name := password]> (users s)}});;
  if h_ret res =? 0 then set_url "/log.html" else set_url "/registerError.html".
(** The password check. *)
Definition do_login (name password : list Z) : Http unit :=
  ok ← registered name password;
  if ok : bool then set_url "/welcome.html" else set_url "/logError.html".

(** The branch of a form. *)
Definition do_cgi (p : option Z) (len : Z) : Http unit :=
  url ← gets (λ s, m_url (c_req s));
  flag ← url_char url 1;
  rest ← on_req (string_at (advance url 2));
  real ← in_room 200 (bytes "/" ++ rest);
  put_file len (strncpy_bytes real (FILENAME_LEN - len - 1));;
  form ← on_req read_form;
  let name := fst form in
  let password := snd form in
  k ← url_char p 1;
  if k =? CHAR "3" then do_register name password
  else if k =? CHAR "2" then do_login name password
  else ret tt.

(** The pages the digit after the last slash names: stored without a NUL. *)
Definition page_of (k : Z) : option string :=
  if k =? CHAR "0" then Some "/register.html"
  else if k =? CHAR "1" then Some "/log.html"
  else if k =? CHAR "5" then Some "/picture.html"
  else if k =? CHAR "6" then Some "/video.html"
  else if k =? CHAR "7" then Some "/fans.html"
  else None.

(** The attributes and the contents of [m_real_file]. *)
Definition map_file : Http HTTP_CODE :=
  f ← gets (λ s, m_real_file (c_resp s));
  path ← need (c_string f);
  st ← hsys (Stat path);
  if h_ret st <? 0 then ret NO_RESOURCE else
  set_resp (λ r, r{{m_file_stat := h_stat st}});;
  let mode := st_mode (h_stat st) in
  if Z.land mode S_IROTH =? 0 then ret FORBIDDEN_REQUEST else
  if Z.land mode S_IFMT =? S_IFDIR then ret BAD_REQUEST else
  fd ← hsys (OpenRead path);
  a ← hsys (Mmap (h_ret fd) (st_size (h_stat st)));
  set_resp (λ r, r{{m_file_address := if h_ret a =? 0 then None else Some (h_ret a)}});;
  hdo (CloseFd (h_ret fd));;
  ret FILE_REQUEST.

Definition do_request : Http HTTP_CODE :=
  root ← gets m_doc_root;
  put_file 0 (root ++ [0]);;
  let len := Z.of_nat (length root) in
  url ← gets (λ s, m_url (c_req s));
  s ← on_req (deref url); k ← need (strrchr SLASH s);
  let p := match k with Some k => advance url k | None => None end in
  cgi ← gets (λ s, m_cgi (c_req s));
  form ← (if cgi =? 1 then k ← url_char p 1; ret ((k =? CHAR "2") || (k =? CHAR "3"))
          else ret false);
  whenM form (do_cgi p len);;
  k ← url_char p 1;
  match page_of k with
  | Some page => put_file len (bytes page)
  | None =>
      url ← on_req (string_at url);
      put_file len (strncpy_bytes url (FILENAME_LEN - len - 1))
  end;;
  map_file.

(** [process_read()] *)
Definition process_read (fuel : nat) : Http HTTP_CODE :=
  e ← on_req (read_request fuel);
  match e with Code c => ret c | Do_request => do_request end.

Definition unmap : Http unit :=
  a ← gets (λ s, m_file_address (c_resp s));
  match a with
  | None => ret tt
  | Some a =>
      size ← gets (λ s, st_size (m_file_stat (c_resp s)));
      hdo (Munmap a size);;
      set_resp (λ r, r{{m_file_address := None}})
  end.
End do_request.
