(* ===== verification/HttpWrite.v ===== *)
(** Building and sending responses: [add_response] and the functions above it,
    [process_write], [write] and [process]
    (src/TinyWebServer/http/http_conn.cpp). *)
From stdpp Require Import gmap list pretty.
From coqutil Require Import Datatypes.RecordSetters.
From S2P Require Import Prelude HttpModel HttpParse HttpResponse.

Section writing.
Context {OS : HttpOS}.

(** * Texts *)

Definition ok_200_title := bytes "OK".
Definition error_403_title := bytes "Forbidden".
Definition error_403_form := bytes "You do not have permission to get file form this server." ++ [LF].
Definition error_404_title := bytes "Not Found".
Definition error_404_form := bytes "The requested file was not found on this server." ++ [LF].
Definition error_500_title := bytes "Internal Error".
Definition error_500_form := bytes "There was an unusual problem serving the request file." ++ [LF].
Definition ok_string := bytes "<html><body></body></html>".

(** * [add_response] and its uses *)

(** [text]: what the format and its arguments expand to. *)
Definition add_response (text : list Z) : Http bool :=
  idx ← gets (λ s, m_write_idx (c_resp s));
  if idx >=? WRITE_BUFFER_SIZE then ret false else
  let n := WRITE_BUFFER_SIZE - idx - 1 in
  let len := Z.of_nat (length text) in
  buf ← gets (λ s, m_write_buf (c_resp s));
  buf ← need (if 0 <? n then put_bytes buf idx (take (Z.to_nat (n - 1)) text ++ [0]) else Some buf);
  set_resp (λ r, r{{m_write_buf := buf}});;
  if len >=? n then ret false else
  set_resp (λ r, r{{m_write_idx := idx + len}});;
  off ← gets (λ s, m_close_log (c_req s));
  whenM (off =? 0) (all ← need (c_string buf); hdo (LogInfo (bytes "request: %s" ++ all)));;
  ret true.

Definition add_status_line (status : Z) (title : list Z) : Http bool :=
  add_response (bytes "HTTP/1.1" ++ [SP] ++ decimal status ++ [SP] ++ title ++ crlf).
Definition add_content_length (content_len : Z) : Http bool :=
  add_response (bytes "Content-Length:" ++ decimal content_len ++ crlf).
Definition add_content_type : Http bool :=
  add_response (bytes "Content-Type:" ++ bytes "text/html" ++ crlf).
Definition linger_text (linger : bool) : list Z :=
  bytes "Connection:" ++ (if linger then bytes "keep-alive" else bytes "close") ++ crlf.
Definition add_linger : Http bool :=
  linger ← gets (λ s, m_linger (c_req s)); add_response (linger_text linger).
Definition add_blank_line : Http bool := add_response crlf.
Definition add_content (content : list Z) : Http bool := add_response content.
(** [a && b && c] *)
Definition andM (a b : Http bool) : Http bool := x ← a; if x : bool then b else ret false.
Definition add_headers (content_len : Z) : Http bool :=
  andM (add_content_length content_len) (andM add_linger add_blank_line).

(** * [process_write] *)

Definition response_error (status : Z) (title form : list Z) : Http bool :=
  _ ← add_status_line status title;
  _ ← add_headers (Z.of_nat (length form));
  ok ← add_content form;
  if negb ok then ret false else
  set_resp (λ r, r{{m_iovec0 := Iovec (IovBuf 0) (m_write_idx r); m_iovec_count := Some 1;
                    m_bytes_to_send := m_write_idx r}});;
  ret true.

Definition file_base (a : option Z) : iov_base :=
  match a with Some a => IovFile a 0 | None => IovNone end.
Definition response_file : Http bool :=
  _ ← add_status_line 200 ok_200_title;
  size ← gets (λ s, st_size (m_file_stat (c_resp s)));
  if negb (size =? 0) then
    _ ← add_headers (to_int size);
    set_resp (λ r, r{{m_iovec0 := Iovec (IovBuf 0) (m_write_idx r);
                      m_iovec1 := Iovec (file_base (m_file_address r)) size;
                      m_bytes_to_send := to_int (m_write_idx r + size)}});;
    ret true
  else
    _ ← add_headers (Z.of_nat (length ok_string));
    _ ← add_content ok_string;
    ret false.

Definition process_write (code : HTTP_CODE) : Http bool :=
  match code with
  | INTERNAL_ERROR => response_error 500 error_500_title error_500_form
  | BAD_REQUEST => response_error 404 error_404_title error_404_form
  | FORBIDDEN_REQUEST => response_error 403 error_403_title error_403_form
  | FILE_REQUEST => response_file
  | _ => ret false
  end.

(** * [write] *)

(** The bytes an [iovec] stands for. *)
Definition iov_bytes (r : response) (v : iovec) : option (list Z) :=
  let slice (b : list Z) (off : Z) :=
    if (0 <=? off) && (0 <=? iov_len v) && (off + iov_len v <=? Z.of_nat (length b)) then
      Some (take (Z.to_nat (iov_len v)) (drop (Z.to_nat off) b))
    else None in
  match iov_at v with
  | IovNone => if iov_len v =? 0 then Some [] else None
  | IovBuf off => slice (m_write_buf r) off
  | IovFile a off => slice (file_bytes a (st_size (m_file_stat r))) off
  end.
(** The vectors [writev(m_sockfd, m_iovec, m_iovec_count)] gathers. *)
Definition gather (r : response) : option (list (list Z)) :=
  match m_iovec_count r with
  | Some 1 => b0 ← iov_bytes r (m_iovec0 r); Some [b0]
  | Some 2 => b0 ← iov_bytes r (m_iovec0 r); b1 ← iov_bytes r (m_iovec1 r); Some [b0; b1]
  | _ => None
  end%stdpp.

(** [m_file_address + d] *)
Definition file_at (a : option Z) (d : Z) : iov_base :=
  match a with Some a => IovFile a d | None => IovNone end.
(** The update of [m_iovec] after [temp] bytes. *)
Definition move_iovec (r : response) : response :=
  if to_size (m_bytes_to_send r) >=? iov_len (m_iovec0 r) then
    r{{m_iovec0 := Iovec (iov_at (m_iovec0 r)) 0;
       m_iovec1 := Iovec (file_at (m_file_address r) (m_bytes_have_send r - m_write_idx r))
                         (to_size (m_bytes_have_send r))}}
  else
    r{{m_iovec0 := Iovec (IovBuf (m_bytes_have_send r))
                         (to_size (iov_len (m_iovec0 r) - m_bytes_have_send r))}}.

Definition write_step : Http (unit + bool) :=
  fd ← gets m_sockfd;
  r ← gets c_resp;
  vecs ← need (gather r);
  w ← hsys (Writev fd vecs);
  let temp := h_ret w in
  if temp <? 0 then
    if h_errno w =? EAGAIN then rearm EPOLLOUT;; ret (inr true)
    else unmap;; ret (inr false)
  else
    have ← int (m_bytes_have_send r + temp);
    left ← int (m_bytes_to_send r - temp);
    set_resp (λ r, move_iovec (r{{m_bytes_have_send := have; m_bytes_to_send := left}}));;
    if left <=? 0 then
      unmap;;
      rearm EPOLLIN;;
      linger ← gets (λ s, m_linger (c_req s));
      if linger : bool then init;; ret (inr true) else ret (inr false)
    else ret (inl tt).
Definition write (fuel : nat) : Http bool :=
  n ← gets (λ s, m_bytes_to_send (c_resp s));
  if n =? 0 then rearm EPOLLIN;; init;; ret true
  else loop fuel (λ _, write_step) tt.

(** * [process] *)

Definition process (fuel : nat) : Http unit :=
  read_ret ← process_read fuel;
  if bool_decide (read_ret = NO_REQUEST) then rearm EPOLLIN else
  write_ret ← process_write read_ret;
  whenM (negb write_ret) (close_conn true);;
  rearm EPOLLOUT.
End writing.
