(* ===== verification/Decimal.v ===== *)
(** Decimal numbers as text: their length and their characters. *)
From stdpp Require Import gmap list pretty.
From S2P Require Import Prelude HttpModel HttpResponse.

Lemma bytes_cons a s : bytes (String a s) = Z.of_N (Ascii.N_of_ascii a) :: bytes s.
Proof. done. Qed.

Lemma pretty_go_bytes k x s :
  (x < 10 ^ N.of_nat k)%N → 0 ∉ bytes s →
  0 ∉ bytes (pretty_N_go x s) ∧ (length (bytes (pretty_N_go x s)) ≤ k + length (bytes s))%nat.
Proof.
  revert x s. induction k as [|k IH]; intros x s Hx Hs.
  all: destruct (decide (x = 0%N)) as [->|Hx0]; [rewrite pretty_N_go_0; split; [done|lia]|].
  { simpl in Hx. lia. }
  rewrite pretty_N_go_step by lia.
  destruct (IH (x `div` 10)%N (String (pretty_N_char (x `mod` 10)) s)) as [H1 H2].
  - apply N.Div0.div_lt_upper_bound. rewrite Nat2N.inj_succ, N.pow_succ_r' in Hx. done.
  - rewrite bytes_cons, not_elem_of_cons. split; [|done].
    unfold pretty_N_char. repeat case_match; done.
  - split; [done|]. rewrite bytes_cons in H2. simpl in H2. lia.
Qed.

(** A number below [10 ^ k] has at most [k] digits, none of them NUL. *)
Lemma decimal_bound k n :
  0 ≤ n < 10 ^ Z.of_nat k → (1 ≤ k)%nat → 0 ∉ decimal n ∧ (length (decimal n) ≤ k)%nat.
Proof.
  intros Hn Hk. unfold decimal, pretty, pretty_Z. destruct n as [|p|p]; [|simpl|lia].
  - change (bytes "0") with [48]. split; [|simpl; lia]. by intros [[=]|[]%not_elem_of_nil]%elem_of_cons.
  - unfold pretty, pretty_positive, pretty, pretty_N. case_decide; [lia|].
    destruct (pretty_go_bytes k (N.pos p) "") as [H1 H2]; [|by apply not_elem_of_nil|].
    + apply N2Z.inj_lt. rewrite N2Z.inj_pow, nat_N_Z. apply Hn.
    + split; [done|]. simpl in H2. lia.
Qed.
Lemma decimal_small n :
  0 ≤ n < 2 ^ 31 → 0 ∉ decimal n ∧ (length (decimal n) ≤ 10)%nat.
Proof. intros Hn. apply decimal_bound; [|lia]. change (10 ^ Z.of_nat 10) with 10000000000. lia. Qed.
