(* ===== verification/HttpParseProps.v ===== *)
(** Theorems on request parsing. *)
From stdpp Require Import gmap list.
From coqutil Require Import Datatypes.RecordSetters.
From S2P Require Import Prelude HttpModel HttpParse.

(** * Lines *)

(** A byte at which [parse_line] stops. *)
Definition stops (c : Z) : bool := (c =? CR) || (c =? LF).
Fixpoint run_length (s : list Z) : nat :=
  match s with [] => 0 | c :: s => if stops c then 0 else S (run_length s) end%nat.
(** The received bytes [parse_line] has not looked at. *)
Definition unread (r : request) : list Z :=
  drop (Z.to_nat (m_checked_idx r)) (take (Z.to_nat (m_read_idx r)) (m_read_buf r)).
(** What every method keeps: the indices are in order and in the buffer. *)
Definition req_ok (r : request) : Prop :=
  0 ≤ m_checked_idx r ≤ m_read_idx r ∧ m_read_idx r ≤ Z.of_nat (length (m_read_buf r)).

Definition line_finish : Req LINE_STATUS :=
  x ← parse_line_step; match x with inl _ => undef | inr y => ret y end.
Definition set_checked (j : Z) (r : request) : request := r{{m_checked_idx := j}}.

Lemma unread_cons r c s :
  req_ok r → unread r = c :: s →
  m_checked_idx r < m_read_idx r ∧ byte_at (m_read_buf r) (m_checked_idx r) = Some c ∧
  unread (set_checked (m_checked_idx r + 1) r) = s.
Proof.
  destruct r. unfold req_ok, unread, byte_at. simpl. intros Hok H.
  assert (take (Z.to_nat m_read_idx) m_read_buf !! Z.to_nat m_checked_idx = Some c) as Hl.
  { rewrite <- (Nat.add_0_r (Z.to_nat m_checked_idx)), <- lookup_drop, H. done. }
  erewrite drop_S in H by done. injection H as H.
  apply lookup_take_Some in Hl as [Hl ?].
  split; [lia|]. rewrite (proj2 (Z.leb_le _ _)) by lia. split; [done|].
  unfold constant. by replace (Z.to_nat (m_checked_idx + 1)) with (S (Z.to_nat m_checked_idx)) by lia.
Qed.

Lemma unread_nil r : req_ok r → unread r = [] → m_checked_idx r = m_read_idx r.
Proof.
  destruct r. unfold req_ok, unread. simpl. intros Hok H.
  apply (f_equal length) in H. rewrite length_drop, length_take in H. simpl in H. lia.
Qed.

Lemma step_skip r c s :
  req_ok r → unread r = c :: s → stops c = false →
  parse_line_step r = Done (inl tt) (set_checked (m_checked_idx r + 1) r).
Proof.
  intros Hok H Hc. destruct (unread_cons r c s Hok H) as (Hlt & Hb & _).
  apply orb_false_iff in Hc as [H1 H2].
  unfold parse_line_step, bind, gets, need. rewrite (proj2 (Z.ltb_lt _ _)) by done. simpl.
  rewrite Hb. unfold ret. rewrite H1, H2. done.
Qed.

Lemma step_stop r :
  req_ok r → (∀ c s, unread r = c :: s → stops c = true) →
  ∀ u r', parse_line_step r ≠ Done (inl u) r'.
Proof.
  intros Hok H u r' Hs. unfold parse_line_step, write_bytes, set_req in Hs.
  done_inv Hs.
  match goal with Hb : byte_at _ _ = Some ?c |- _ =>
    destruct (unread r) as [|c0 s] eqn:E';
    [apply unread_nil in E'; [|done]; apply negb_false_iff, Z.ltb_lt in E; lia|];
    destruct (unread_cons r c0 s Hok E') as (_ & Hb' & _);
    rewrite Hb' in Hb; injection Hb as <- end.
  specialize (H c0 s eq_refl). unfold stops in H. by rewrite E0, E1 in H.
Qed.

(** [parse_line] goes to the first stop and ends there. *)
Lemma parse_line_finish fuel r :
  req_ok r → (length (unread r) < fuel)%nat →
  parse_line fuel r = line_finish (set_checked (m_checked_idx r + Z.of_nat (run_length (unread r))) r).
Proof.
  remember (unread r) as s eqn:E. revert fuel r E.
  induction s as [|c s IH]; intros [|fuel] r E Hok Hf; simpl in Hf; try lia.
  - rewrite Z.add_0_r. replace (set_checked (m_checked_idx r) r) with r by by destruct r.
    unfold parse_line, line_finish. simpl. unfold bind.
    destruct (parse_line_step r) as [[u|x] r'| | |] eqn:S; try done.
    exfalso. eapply step_stop, S; [done|]. by rewrite <- E.
  - destruct (unread_cons r c s) as (Hlt & Hb & Hu); [done..|].
    cbn [run_length]. destruct (stops c) eqn:Hc.
    + rewrite Z.add_0_r. replace (set_checked (m_checked_idx r) r) with r by by destruct r.
      unfold parse_line, line_finish. simpl. unfold bind.
      destruct (parse_line_step r) as [[u|x] r'| | |] eqn:S; try done.
      exfalso. eapply step_stop, S; [done|]. rewrite <- E. naive_solver.
    + unfold parse_line. simpl. erewrite bind_done by (eapply step_skip; done). cbv beta iota.
      change (parse_line fuel (set_checked (m_checked_idx r + 1) r) =
        line_finish (set_checked (m_checked_idx r + Z.of_nat (S (run_length s))) r)).
      rewrite (IH fuel); [|by symmetry| |lia].
      * f_equal. destruct r. unfold set_checked. simpl. unfold constant. f_equal. lia.
      * destruct r. unfold req_ok in *. simpl in *. unfold constant. lia.
Qed.

Lemma unread_ge r : m_read_idx r ≤ m_checked_idx r → unread r = [].
Proof. intros. unfold unread. apply drop_ge. rewrite length_take. lia. Qed.

(** An unfinished line leaves everything alone: it stops at the end of what was
    received or at a last CR. *)
Lemma line_finish_open r r' :
  req_ok r → line_finish r = Done LINE_OPEN r' → r' = r ∧ (unread r = [] ∨ unread r = [CR]).
Proof.
  intros Hok H. unfold line_finish, parse_line_step, write_bytes, set_req in H.
  done_inv H; (split; [done|]).
  { left. apply unread_ge. apply negb_true_iff, Z.ltb_ge in E. lia. }
  destruct (unread r') as [|c s] eqn:Eu; [by left|right].
  destruct (unread_cons r' c s Hok Eu) as (_ & Hb & <-).
  match goal with Hx : byte_at _ _ = Some _ |- _ => rewrite Hx in Hb; injection Hb as <- end.
  apply Z.eqb_eq in E0 as ->, E1. f_equal. apply unread_ge. destruct r'. simpl in *.
  unfold constant. lia.
Qed.

(** What [recv] delivers: the buffer is the same up to [m_read_idx], which
    grows. *)
Definition receive (b : list Z) (n : Z) (r : request) : request := r{{m_read_buf := b; m_read_idx := n}}.
Definition extends (r : request) (b : list Z) (n : Z) : Prop :=
  m_read_idx r ≤ n ≤ Z.of_nat (length b) ∧
  take (Z.to_nat (m_read_idx r)) b = take (Z.to_nat (m_read_idx r)) (m_read_buf r).

Lemma unread_receive r b n :
  req_ok r → extends r b n → ∃ more, unread (receive b n r) = unread r ++ more.
Proof.
  destruct r. unfold req_ok, extends, unread, receive. simpl. unfold constant.
  intros Hok [Hn Ht]. exists (drop (Z.to_nat m_read_idx) (take (Z.to_nat n) b)).
  rewrite <- Ht. replace (take (Z.to_nat m_read_idx) b) with
    (take (Z.to_nat m_read_idx) (take (Z.to_nat n) b)) by (rewrite take_take; f_equal; lia).
  rewrite <- (take_drop (Z.to_nat m_read_idx) (take (Z.to_nat n) b)) at 1.
  rewrite drop_app_le; [done|]. rewrite !length_take. lia.
Qed.

Lemma run_length_app s1 s2 :
  run_length (s1 ++ s2)
  = (run_length s1 + match drop (run_length s1) s1 with [] => run_length s2 | _ => 0 end)%nat.
Proof.
  induction s1 as [|c s1 IH]; simpl; [done|]. destruct (stops c); simpl; [done|]. by rewrite IH.
Qed.
Lemma unread_set_checked r k :
  req_ok r → unread (set_checked (m_checked_idx r + Z.of_nat k) r) = drop k (unread r).
Proof.
  destruct r. unfold req_ok, unread, set_checked. simpl. unfold constant. intros Hok.
  rewrite drop_drop. f_equal. lia.
Qed.

(** C32: [parse_line] does not depend on how the request arrived: when a call
    finds no complete line and more bytes are received, the next call gives the
    same status and leaves the same state as one call on all the bytes would
    have done, for any fuel above the number of received bytes. *)
Theorem parse_line_resume f1 f2 f3 r r1 b n :
  req_ok r → (length (unread r) < f1)%nat →
  parse_line f1 r = Done LINE_OPEN r1 → extends r b n →
  (Z.to_nat n < f2)%nat → (Z.to_nat n < f3)%nat →
  parse_line f2 (receive b n r1) = parse_line f3 (receive b n r).
Proof.
  intros Hok Hf1 H1 Hext Hf2 Hf3. rewrite parse_line_finish in H1 by done.
  set (k := run_length (unread r)) in *.
  assert (Hk : (k ≤ length (unread r))%nat).
  { unfold k. clear. induction (unread r) as [|c s IH]; simpl; [lia|]. case_match; lia. }
  assert (Hlen : Z.of_nat (length (unread r)) = m_read_idx r - m_checked_idx r).
  { unfold unread. rewrite length_drop, length_take. unfold req_ok in Hok. lia. }
  assert (req_ok (set_checked (m_checked_idx r + Z.of_nat k) r)) as Hok1.
  { destruct r. unfold req_ok in *. simpl in *. unfold constant. lia. }
  apply line_finish_open in H1 as [-> Hu]; [|done]. rewrite unread_set_checked in Hu by done.
  destruct (unread_receive r b n Hok Hext) as [more Hmore].
  assert (req_ok (receive b n r)) as Hokr.
  { destruct r. unfold req_ok, extends in *. simpl in *. unfold constant. lia. }
  assert (receive b n (set_checked (m_checked_idx r + Z.of_nat k) r) =
    set_checked (m_checked_idx (receive b n r) + Z.of_nat k) (receive b n r)) as -> by by destruct r.
  assert (Hlr : (length (unread (receive b n r)) ≤ Z.to_nat n)%nat).
  { unfold unread. rewrite length_drop, length_take. destruct r. simpl. unfold constant. lia. }
  rewrite (parse_line_finish f3) by (done || lia).
  rewrite parse_line_finish, unread_set_checked; [|done| |].
  - f_equal. rewrite Hmore, run_length_app. fold k. destruct r.
    unfold set_checked, receive. simpl. unfold constant. f_equal.
    rewrite (drop_app_le (unread _)) by done.
    destruct Hu as [Hu|Hu]; rewrite Hu; simpl; lia.
  - destruct r. unfold req_ok, extends in *. simpl in *. unfold constant. lia.
  - rewrite unread_set_checked, length_drop by done. lia.
Qed.

(** ** Complete lines *)

Lemma run_length_line line s :
  (∀ c, c ∈ line → stops c = false) → run_length (line ++ s) = (length line + run_length s)%nat.
Proof.
  induction line as [|c line IH]; simpl; [done|]. intros H.
  rewrite (H c), IH by set_solver. done.
Qed.

(** The state after a line: CR and LF overwritten, the line passed. *)
Definition after_line (k : nat) (r : request) : request :=
  r{{m_read_buf := <[S (Z.to_nat (m_checked_idx r) + k) := 0]>
                   (<[(Z.to_nat (m_checked_idx r) + k)%nat := 0]> (m_read_buf r));
     m_checked_idx := m_checked_idx r + Z.of_nat k + 2}}.

Lemma put_byte b i v :
  (i < length b)%nat → put_bytes b (Z.of_nat i) [v] = Some (<[i := v]> b).
Proof.
  intros Hi. unfold put_bytes. simpl.
  rewrite (proj2 (Z.leb_le 0 _)), (proj2 (Z.leb_le _ (Z.of_nat (length b)))) by lia. simpl.
  rewrite Nat2Z.id. f_equal. rewrite insert_take_drop by done. f_equal. simpl. f_equal. f_equal. lia.
Qed.

Lemma line_finish_ok r rest :
  req_ok r → unread r = CR :: LF :: rest → line_finish r = Done LINE_OK (after_line 0 r).
Proof.
  intros Hok Hu. destruct (unread_cons _ _ _ Hok Hu) as (Hlt & Hb & Hu1).
  assert (req_ok (set_checked (m_checked_idx r + 1) r)) as Hok1.
  { destruct r. unfold req_ok in *. simpl in *. unfold constant in *. lia. }
  destruct (unread_cons _ _ _ Hok1 Hu1) as (Hlt2 & Hb2 & _). clear Hu Hu1.
  destruct r. unfold req_ok, set_checked in *. simpl in *. unfold constant in *.
  unfold line_finish, parse_line_step, write_bytes, set_req, bind, gets, modify. simpl.
  rewrite (proj2 (Z.ltb_lt _ _)) by done. simpl. rewrite Hb. simpl.
  rewrite (proj2 (Z.eqb_neq _ _)) by lia. simpl. rewrite Hb2. simpl.
  rewrite <- (Z2Nat.id m_checked_idx), put_byte by lia. simpl. unfold constant.
  replace (Z.of_nat (Z.to_nat m_checked_idx) + 1) with (Z.of_nat (S (Z.to_nat m_checked_idx))) by lia.
  rewrite put_byte by (rewrite length_insert; lia).
  unfold ret, after_line. simpl. unfold constant. rewrite Nat.add_0_r, Z.add_0_r. rewrite Nat2Z.id. done.
Qed.

Lemma parse_line_ok fuel r line rest :
  req_ok r → unread r = line ++ CR :: LF :: rest → (∀ c, c ∈ line → stops c = false) →
  (length (unread r) < fuel)%nat →
  parse_line fuel r = Done LINE_OK (after_line (length line) r).
Proof.
  intros Hok Hu Hline Hf. rewrite parse_line_finish by done.
  rewrite Hu, run_length_line by done. simpl run_length. rewrite Nat.add_0_r.
  assert (Z.of_nat (length (unread r)) = m_read_idx r - m_checked_idx r) as Hl.
  { unfold unread. rewrite length_drop, length_take. unfold req_ok in Hok. lia. }
  rewrite Hu, length_app in Hl. simpl in Hl.
  rewrite (line_finish_ok _ rest).
  - f_equal. unfold req_ok in Hok. destruct r. unfold after_line, set_checked. simpl in *.
    unfold constant. rewrite Nat.add_0_r, Z.add_0_r, Z2Nat.inj_add, Nat2Z.id by lia. done.
  - destruct r. unfold req_ok in *. simpl in *. unfold constant. lia.
  - by rewrite unread_set_checked, Hu, drop_app_length.
Qed.

(** ** The loop of [process_read] *)

(** With a complete line in the buffer the condition of the loop is false: the
    function ends without a value, so no request is answered by the code as it
    is written. *)
Lemma read_request_line fuel r line rest :
  req_ok r → m_check_state r ≠ CHECK_STATE_CONTENT →
  unread r = line ++ CR :: LF :: rest → (∀ c, c ∈ line → stops c = false) →
  (length (unread r) < fuel)%nat →
  read_request fuel r = Undef.
Proof.
  intros Hok Hst Hu Hline Hf. unfold read_request, bind.
  destruct fuel as [|fuel]; [lia|].
  replace (loop (S fuel) _ _ _) with (Done (@None read_end) (after_line (length line) r)); [done|].
  symmetry. simpl. erewrite (bind_done _ _ _ (inr None) (after_line (length line) r)); [done|].
  unfold process_read_step, read_condition, bind, gets.
  rewrite bool_decide_eq_false_2 by done. cbv beta iota delta [andb].
  by rewrite (parse_line_ok _ _ line rest).
Qed.
