(* ===== verification/HttpLineProps.v ===== *)
(** Theorems on the request line: [parse_request_line]. *)
From stdpp Require Import gmap list.
From coqutil Require Import Datatypes.RecordSetters.
From S2P Require Import Prelude HttpModel HttpParse.

(** * string.h on decomposed strings *)

Definition zlen (s : list Z) : Z := Z.of_nat (length s).
Definition is_blank (c : Z) : Prop := c ∈ blanks.
(** A word: neither NUL nor blanks. *)
Definition word (s : list Z) : Prop := ∀ c, c ∈ s → c ≠ 0 ∧ ¬ is_blank c.
(** Equal but for the case. *)
Definition same_nocase (s t : list Z) : bool := bool_decide (tolower <$> s = tolower <$> t).

Lemma zlen_app s t : zlen (s ++ t) = zlen s + zlen t.
Proof. unfold zlen. rewrite length_app. lia. Qed.
Lemma zlen_cons c s : zlen (c :: s) = 1 + zlen s.
Proof. unfold zlen. simpl. lia. Qed.

Lemma strpbrk_word m x rest :
  word m → is_blank x → strpbrk blanks (m ++ x :: rest) = Some (Some (zlen m)).
Proof.
  intros Hm Hx. induction m as [|c m IH]; simpl.
  - rewrite (bool_decide_eq_true_2 (x ∈ blanks)) by done.
    unfold is_blank, blanks, SP, TAB in Hx. by replace (x =? 0) with false by (set_unfold; lia).
  - destruct (Hm c) as [H1 H2]; [set_solver|].
    rewrite (proj2 (Z.eqb_neq _ _)), bool_decide_eq_false_2 by done.
    rewrite IH by (intros ??; apply Hm; set_solver). simpl. by rewrite zlen_cons.
Qed.

Lemma strspn_blanks sp s c rest :
  (∀ x, x ∈ sp → is_blank x) → s = c :: rest → ¬ is_blank c →
  strspn blanks (sp ++ s) = Some (zlen sp).
Proof.
  intros Hsp -> Hc. induction sp as [|x sp IH]; simpl.
  - by rewrite bool_decide_eq_false_2.
  - rewrite bool_decide_eq_true_2 by (apply Hsp; set_solver).
    rewrite IH by set_solver. simpl. by rewrite zlen_cons.
Qed.

Lemma strcasecmp0_string v t rest :
  0 ∉ v → Forall (λ c, tolower c ≠ 0) t → strcasecmp0 (v ++ 0 :: rest) t = Some (same_nocase v t).
Proof.
  intros Hv Ht. revert t Ht. induction v as [|c v IH]; intros [|d t] Ht; cbn [app strcasecmp0].
  - done.
  - apply Forall_cons in Ht as [Hd _]. change (tolower 0) with 0.
    rewrite (proj2 (Z.eqb_neq _ _)) by done. done.
  - rewrite (proj2 (Z.eqb_neq _ _)) by set_solver. done.
  - apply Forall_cons in Ht as [Hd Ht]. destruct (tolower c =? tolower d) eqn:E.
    + rewrite IH by (done || set_solver). unfold same_nocase. f_equal.
      apply bool_decide_ext. simpl. apply Z.eqb_eq in E. rewrite E.
      split; intros H; [f_equal; exact H|by injection H].
    + unfold same_nocase. rewrite bool_decide_eq_false_2; [done|].
      apply Z.eqb_neq in E. simpl. congruence.
Qed.

Lemma c_string_app v rest : 0 ∉ v → c_string (v ++ 0 :: rest) = Some v.
Proof.
  intros Hv. induction v as [|c v IH]; simpl; [done|].
  rewrite (proj2 (Z.eqb_neq _ _)), IH by set_solver. done.
Qed.

Lemma no_nul s : forallb (λ c, negb (c =? 0)) s = true → 0 ∉ s.
Proof.
  rewrite forallb_forall. intros H H0. specialize (H 0 (proj1 (list_elem_of_In _ _) H0)). done.
Qed.

Lemma word_no_nul s : word s → 0 ∉ s.
Proof. intros H H0. by destruct (H 0 H0). Qed.

(** * Through the pointers *)

(** [text_at r i pre s]: the pointer [i] is behind [pre] and before [s]. *)
Definition text_at (r : request) (i : Z) (pre s : list Z) : Prop :=
  m_read_buf r = pre ++ s ∧ i = zlen pre.

Lemma deref_at r i pre s : text_at r i pre s → deref (Some i) r = Done s r.
Proof.
  intros [Hb ->]. unfold deref, bind, gets, need, ret, bytes_from. rewrite Hb. unfold zlen.
  rewrite (proj2 (Z.leb_le 0 _)), (proj2 (Z.leb_le _ _)) by (try rewrite length_app; lia).
  simpl. by rewrite Nat2Z.id, drop_app_length.
Qed.

Lemma find_blank_at r i pre m x rest :
  text_at r i pre (m ++ x :: rest) → word m → is_blank x →
  find_any blanks (Some i) r = Done (Some (i + zlen m)) r.
Proof.
  intros Ht Hm Hx. unfold find_any. erewrite bind_done by by apply (deref_at _ _ pre).
  by rewrite strpbrk_word.
Qed.

Lemma span_blank_at r i pre sp c rest :
  text_at r i pre (sp ++ c :: rest) → (∀ x, x ∈ sp → is_blank x) → ¬ is_blank c →
  span_any blanks (Some i) r = Done (zlen sp) r.
Proof.
  intros Ht Hsp Hc. unfold span_any. erewrite bind_done by by apply (deref_at _ _ pre).
  by erewrite strspn_blanks.
Qed.

Lemma equals_at r i pre v rest (t : string) :
  text_at r i pre (v ++ 0 :: rest) → 0 ∉ v → Forall (λ c, tolower c ≠ 0) (bytes t) →
  equals_nocase (Some i) t r = Done (same_nocase v (bytes t)) r.
Proof.
  intros Ht Hv Hn. unfold equals_nocase. erewrite bind_done by by apply (deref_at _ _ pre).
  by rewrite strcasecmp0_string.
Qed.

Lemma string_at_at r i pre v rest :
  text_at r i pre (v ++ 0 :: rest) → 0 ∉ v → string_at (Some i) r = Done v r.
Proof.
  intros Ht Hv. unfold string_at. erewrite bind_done by by apply (deref_at _ _ pre).
  by rewrite c_string_app.
Qed.

Lemma starts_at r i pre s (t : string) n :
  text_at r i pre (SLASH :: s) → strncasecmp0 (SLASH :: s) (bytes t) n = Some false →
  starts_nocase (Some i) t n r = Done false r.
Proof.
  intros Ht Hn. unfold starts_nocase. erewrite bind_done by by apply (deref_at _ _ pre).
  by rewrite Hn.
Qed.

Lemma char_at_at r i pre c s : text_at r i pre (c :: s) → char_at (Some i) 0 r = Done c r.
Proof.
  intros [Hb ->]. unfold char_at, bind, gets, need, ret, byte_at, zlen. rewrite Hb, Z.add_0_r.
  rewrite (proj2 (Z.leb_le 0 _)), Nat2Z.id by lia. by rewrite list_lookup_middle.
Qed.

Definition with_buf (b : list Z) (r : request) : request := r{{m_read_buf := b}}.
Lemma write_byte_at r i pre c rest v :
  text_at r i pre (c :: rest) →
  write_bytes (Some i) [v] r = Done tt (with_buf (pre ++ v :: rest) r).
Proof.
  intros [Hb ->]. unfold write_bytes, bind, gets, need, ret, put_bytes. rewrite Hb. unfold zlen.
  simpl length.
  rewrite (proj2 (Z.leb_le 0 _)), (proj2 (Z.leb_le _ _)) by (try rewrite length_app; simpl; lia).
  simpl. rewrite Nat2Z.id, take_app_length. f_equal. unfold with_buf. f_equal. f_equal.
  rewrite <- drop_drop, drop_app_length. done.
Qed.

(** * Running [parse_request_line] *)

Lemma set_step {A} f (k : unit → Req A) r : bind (set_req f) k r = k tt (f r).
Proof. done. Qed.
Lemma gets_step {A B} (f : request → A) (k : A → Req B) r : bind (gets f) k r = k (f r) r.
Proof. done. Qed.

Ltac text_solve := split; [by rewrite <- ?app_assoc|rewrite ?zlen_app, ?zlen_cons; unfold zlen; simpl; lia].
Ltac req_step := first [rewrite set_step|rewrite gets_step]; cbv beta.

Lemma literal_ok t :
  forallb (λ c, negb (tolower c =? 0)) (bytes t) = true → Forall (λ c, tolower c ≠ 0) (bytes t).
Proof.
  intros H. apply Forall_forall. intros c Hc. rewrite forallb_forall in H.
  specialize (H c (proj1 (list_elem_of_In _ _) Hc)). by apply negb_true_iff, Z.eqb_neq in H.
Qed.

Ltac right_assoc := repeat (rewrite <- app_assoc || rewrite <- app_comm_cons).
Ltac line_at :=
  split; [cbn; unfold constant; right_assoc; (eassumption || reflexivity)
         |unfold zlen; repeat (rewrite length_app; cbn [length]); lia].
Ltac past_test := rewrite bool_decide_eq_true_2 by done; cbv beta iota delta [negb].

(** The method word ends at the first blank, which is overwritten. *)
Lemma take_method_at r pre m x rest :
  m_read_buf r = pre ++ m ++ x :: rest → word m → is_blank x →
  ∃ r' : request, m_read_buf r' = pre ++ m ++ 0 :: rest ∧
    m_url r' = Some (zlen (pre ++ m ++ [0])) ∧ m_cgi r' = m_cgi r ∧
    take_method (Some (zlen pre)) r =
      if same_nocase m (bytes "GET") then Done true (r'{{m_method := GET}})
      else if same_nocase m (bytes "POSE") then Done true (r'{{m_method := POST; m_cgi := 1}})
      else Done false r'.
Proof.
  intros Hb Hm Hx. unfold take_method.
  erewrite bind_done; [|eapply (find_blank_at _ _ pre m); [line_at|done..]].
  req_step. past_test.
  erewrite bind_done; [|eapply (write_byte_at _ _ (pre ++ m) x); line_at].
  req_step. eexists. do 3 (split; [shelve|]).
  { erewrite bind_done.
    2: { eapply (equals_at _ _ pre m); [line_at|by apply word_no_nul|by apply literal_ok]. }
    destruct (same_nocase m (bytes "GET")); [reflexivity|]. erewrite bind_done.
    2: { eapply (equals_at _ _ pre m); [line_at|by apply word_no_nul|by apply literal_ok]. }
    destruct (same_nocase m (bytes "POSE")); reflexivity. }
  Unshelve. all: cbn; unfold constant; try done.
  - by right_assoc.
  - rewrite !zlen_app. f_equal. unfold zlen. cbn. lia.
Qed.

(** The target ends at the next blank, and a version follows. *)
Lemma take_version_at r pre gap1 target x gap2 v rest :
  m_read_buf r = pre ++ gap1 ++ target ++ x :: gap2 ++ v ++ 0 :: rest →
  m_url r = Some (zlen pre) →
  (∀ c, c ∈ gap1 → is_blank c) → (∀ c, c ∈ gap2 → is_blank c) → is_blank x →
  word target → target ≠ [] → word v → v ≠ [] →
  ∃ r' : request, m_read_buf r' = pre ++ gap1 ++ target ++ 0 :: gap2 ++ v ++ 0 :: rest ∧
    m_url r' = Some (zlen (pre ++ gap1)) ∧ m_method r' = m_method r ∧ m_cgi r' = m_cgi r ∧
    m_version r' = Some (zlen (pre ++ gap1 ++ target ++ 0 :: gap2)) ∧
    take_version r = Done (same_nocase v (bytes "HTTP/1.1")) r'.
Proof.
  intros Hb Hurl Hg1 Hg2 Hx Ht Ht0 Hv Hv0. destruct target as [|t0 ts]; [done|].
  destruct v as [|v0 vs]; [done|]. unfold take_version. req_step. rewrite Hurl.
  erewrite bind_done.
  2: { eapply (span_blank_at _ _ pre gap1); [line_at|done|]. apply Ht. set_solver. }
  repeat req_step. erewrite bind_done.
  2: { eapply (find_blank_at _ _ (pre ++ gap1) (t0 :: ts)); [line_at|done..]. }
  req_step. past_test.
  erewrite bind_done; [|eapply (write_byte_at _ _ (pre ++ gap1 ++ t0 :: ts) x); line_at].
  repeat req_step. erewrite bind_done.
  2: { eapply (span_blank_at _ _ (pre ++ gap1 ++ t0 :: ts ++ [0]) gap2); [line_at|done|].
       apply Hv. set_solver. }
  repeat req_step. eexists. do 5 (split; [shelve|]).
  { eapply (equals_at _ _ (pre ++ gap1 ++ t0 :: ts ++ 0 :: gap2) (v0 :: vs));
       [line_at|by apply word_no_nul|by apply literal_ok]. }
  Unshelve. all: cbn; unfold constant; try done; try (by right_assoc); f_equal.
  all: unfold zlen; repeat (rewrite length_app; cbn [length]); lia.
Qed.

Lemma skip_scheme_path r pre s scheme n :
  m_read_buf r = pre ++ SLASH :: s → m_url r = Some (zlen pre) →
  strncasecmp0 (SLASH :: s) (bytes scheme) n = Some false →
  skip_scheme scheme n r = Done tt r.
Proof.
  intros Hb Hurl Hn. unfold skip_scheme. req_step. rewrite Hurl.
  by erewrite bind_done; [|by eapply (starts_at _ _ pre s)].
Qed.

(** A path as target. *)
Lemma take_target_at r pre path rest :
  m_read_buf r = pre ++ SLASH :: path ++ 0 :: rest → m_url r = Some (zlen pre) →
  word path → path ≠ [] →
  take_target r = Done true r.
Proof.
  intros Hb Hurl Hw Hp. unfold take_target.
  do 2 (erewrite bind_done; [|by eapply skip_scheme_path]).
  req_step. rewrite Hurl. past_test.
  erewrite bind_done.
  2: { erewrite bind_done; [|eapply (char_at_at _ _ pre SLASH); line_at]. reflexivity. }
  change (SLASH =? SLASH) with true. cbv iota. erewrite bind_done.
  2: { eapply (string_at_at _ _ pre (SLASH :: path)); [line_at|].
       apply not_elem_of_cons. split; [done|by apply word_no_nul]. }
  rewrite (proj2 (Z.eqb_neq _ 1)) by (destruct path; [done|cbn; lia]). reflexivity.
Qed.

(** * Request lines *)

(** A request line as a browser writes it: method, target, version, separated
    by blanks; the target is a path. *)
Record line_parts := LineParts {
  l_method : list Z; l_sep1 : Z; l_gap1 : list Z;
  l_target : list Z; l_sep2 : Z; l_gap2 : list Z; l_version : list Z
}.
Definition print_line (l : line_parts) : list Z :=
  l_method l ++ l_sep1 l :: l_gap1 l ++ l_target l ++ l_sep2 l :: l_gap2 l ++ l_version l.
Record line_ok (l : line_parts) : Prop := LineOk {
  lo_method : word (l_method l);
  lo_sep1 : is_blank (l_sep1 l);
  lo_gap1 : ∀ c, c ∈ l_gap1 l → is_blank c;
  lo_target : ∃ path, l_target l = SLASH :: path ∧ path ≠ [] ∧ word path;
  lo_sep2 : is_blank (l_sep2 l);
  lo_gap2 : ∀ c, c ∈ l_gap2 l → is_blank c;
  lo_word : word (l_version l);
  lo_version : same_nocase (l_version l) (bytes "HTTP/1.1") = true
}.
(** The string a member points to. *)
Definition string_of (f : request → option Z) : Req (list Z) := p ← gets f; string_at p.

(** C33: What was printed is parsed: a request line of a GET method, a path and
    HTTP/1.1, in any case and with any blanks between them, is accepted and
    leaves the parser in front of the headers, [m_url] and [m_version] pointing
    to the target and the version as they were written. *)
Theorem parse_request_line_get r pre l rest :
  m_read_buf r = pre ++ print_line l ++ 0 :: rest → line_ok l →
  same_nocase (l_method l) (bytes "GET") = true →
  ∃ r', parse_request_line (Some (zlen pre)) r = Done NO_REQUEST r' ∧
    m_check_state r' = CHECK_STATE_HEADER ∧ m_method r' = GET ∧ m_cgi r' = m_cgi r ∧
    string_of m_url r' = Done (l_target l) r' ∧ string_of m_version r' = Done (l_version l) r'.
Proof.
  destruct l as [m x gap1 target y gap2 v]. unfold print_line.
  cbn [l_method l_sep1 l_gap1 l_target l_sep2 l_gap2 l_version].
  intros Hb [Hm Hx Hg1 (path & Ht & Hp & Hw) Hy Hg2 Hv Hver] Hget.
  cbn [l_method l_sep1 l_gap1 l_target l_sep2 l_gap2 l_version] in *. subst target.
  assert (word (SLASH :: path)) as Hw'.
  { intros c [->|Hc]%elem_of_cons; [|by apply Hw]. unfold is_blank, blanks, SLASH, SP, TAB.
    set_unfold. lia. }
  assert (m_read_buf r = pre ++ m ++ x :: gap1 ++ (SLASH :: path) ++ y :: gap2 ++ v ++ 0 :: rest)
    as Hb0 by (rewrite Hb; by right_assoc). clear Hb.
  destruct (take_method_at r pre m x _ Hb0 Hm Hx) as (r1 & Hb1 & Hurl1 & Hc1 & Hrun1).
  rewrite Hget in Hrun1. unfold parse_request_line. rewrite (bind_done _ _ _ _ _ Hrun1).
  destruct (take_version_at (r1{{m_method := GET}}) (pre ++ m ++ [0]) gap1 (SLASH :: path) y gap2 v rest)
    as (r2 & Hb2 & Hurl2 & Hm2 & Hc2 & Hv2 & Hrun2);
    [etransitivity; [exact Hb1|by right_assoc]|done..|by destruct v|].
  cbv beta iota delta [negb]. rewrite (bind_done _ _ _ _ _ Hrun2), Hver. cbv beta iota delta [negb].
  erewrite bind_done; [|eapply (take_target_at _ ((pre ++ m ++ [0]) ++ gap1) path);
    [rewrite Hb2; by right_assoc|done..]].
  cbv beta iota delta [negb]. req_step. eexists. split; [reflexivity|].
  split; [done|]. split; [exact Hm2|]. split; [etransitivity; [exact Hc2|exact Hc1]|].
  unfold string_of. split.
  - req_step. etransitivity; [apply (f_equal (λ p, string_at p _) Hurl2)|].
    eapply (string_at_at _ _ (pre ++ m ++ 0 :: gap1) (SLASH :: path));
      [split; [etransitivity; [exact Hb2|by right_assoc]|f_equal; by right_assoc]|].
    by apply word_no_nul.
  - req_step. etransitivity; [apply (f_equal (λ p, string_at p _) Hv2)|].
    eapply (string_at_at _ _ (pre ++ m ++ 0 :: gap1 ++ SLASH :: path ++ 0 :: gap2) v);
      [split; [etransitivity; [exact Hb2|by right_assoc]|f_equal; by right_assoc]|].
    by apply word_no_nul.
Qed.

(** A request whose method word is neither GET nor POSE, in any case, is a
    bad request: the code compares with POSE where POST is meant, so that no
    form is ever accepted. *)
Theorem parse_request_line_method r pre m x rest :
  m_read_buf r = pre ++ m ++ x :: rest → word m → is_blank x →
  same_nocase m (bytes "GET") = false → same_nocase m (bytes "POSE") = false →
  ∃ r', parse_request_line (Some (zlen pre)) r = Done BAD_REQUEST r'.
Proof.
  intros Hb Hm Hx Hg Hp. destruct (take_method_at r pre m x rest Hb Hm Hx) as (r1 & _ & _ & _ & H).
  rewrite Hg, Hp in H. exists r1. unfold parse_request_line. by rewrite (bind_done _ _ _ _ _ H).
Qed.
