(* ===== verification/HttpRequestProps.v ===== *)
(** Theorems on receiving and on answering: [read_once], [do_request]. *)
From stdpp Require Import gmap list pretty.
From coqutil Require Import Datatypes.RecordSetters.
From S2P Require Import Prelude HttpModel HttpParse HttpResponse HttpParseProps HttpLineProps.

Section props.
Context {OS : HttpOS}.

Definition called (k : hcall) (c : HttpConn) : HttpConn :=
  c{{c_req := (c_req c){{m_calls := m_calls (c_req c) ++ [k] }} }}.

Lemma wp_hsys k c (Q : hreply → HttpConn → Prop) :
  Q (http_reply (m_calls (c_req c)) k) (called k c) → wp (hsys k) c Q.
Proof. intros H. unfold hsys. repeat wp_base. exact H. Qed.

Lemma wp_on_req {A} (m : Req A) c (Q : A → HttpConn → Prop) a r :
  m (c_req c) = Done a r → Q a c{{c_req := r}} → wp (on_req m) c Q.
Proof. unfold wp, on_req. by intros ->. Qed.

Lemma wp_on_req_same {A} (m : Req A) c (Q : A → HttpConn → Prop) a :
  m (c_req c) = Done a (c_req c) → Q a c → wp (on_req m) c Q.
Proof. unfold wp, on_req. intros ->. by destruct c. Qed.

(** * Files *)

(** The attributes decide the answer. *)
Definition file_answer (st : hreply) : HTTP_CODE :=
  if h_ret st <? 0 then NO_RESOURCE
  else if Z.land (st_mode (h_stat st)) S_IROTH =? 0 then FORBIDDEN_REQUEST
  else if Z.land (st_mode (h_stat st)) S_IFMT =? S_IFDIR then BAD_REQUEST
  else FILE_REQUEST.

(** The calls that answer a file request. *)
Definition file_calls (tr : list hcall) (path : list Z) : list hcall :=
  let st := http_reply tr (Stat path) in
  Stat path ::
    if bool_decide (file_answer st = FILE_REQUEST) then
      let fd := h_ret (http_reply (tr ++ [Stat path]) (OpenRead path)) in
      [OpenRead path; Mmap fd (st_size (h_stat st)); CloseFd fd]
    else [].

Lemma wp_map_file c path rest (Q : HTTP_CODE → HttpConn → Prop) :
  m_real_file (c_resp c) = path ++ 0 :: rest → 0 ∉ path →
  let tr := m_calls (c_req c) in
  (∀ c', m_calls (c_req c') = tr ++ file_calls tr path →
    Q (file_answer (http_reply tr (Stat path))) c') →
  wp map_file c Q.
Proof.
  intros Hf H0 tr HQ. unfold map_file, file_calls in *.
  set (st := http_reply tr (Stat path)) in *. unfold file_answer in *. wp_base. wp_base.
  rewrite Hf. wp_base. eapply wp_need; [by apply c_string_app|]. wp_base. apply wp_hsys.
  fold tr st.
  destruct (h_ret st <? 0); [wp_base; by apply HQ|].
  wp_base. unfold set_resp. wp_base.
  destruct (Z.land _ S_IROTH =? 0); [wp_base; by apply HQ|].
  destruct (Z.land _ S_IFMT =? S_IFDIR); [wp_base; by apply HQ|].
  wp_base. apply wp_hsys. wp_base. apply wp_hsys. unfold hdo. repeat wp_base.
  apply HQ. simpl. unfold constant. by rewrite <- !app_assoc.
Qed.

(** * Targets *)

Lemma put_zeros root t n m :
  (length t + m ≤ n)%nat →
  put_bytes (root ++ replicate n 0) (zlen root) (t ++ replicate m 0)
  = Some (root ++ t ++ replicate (n - length t) 0).
Proof.
  intros Hm. unfold put_bytes, zlen. rewrite !length_app, !length_replicate.
  rewrite (proj2 (Z.leb_le 0 _)), (proj2 (Z.leb_le _ _)) by lia. simpl.
  rewrite Nat2Z.id, take_app_length, drop_app_add, drop_replicate, <- app_assoc.
  rewrite <- replicate_add. do 4 f_equal. lia.
Qed.

Lemma zeros_tail (root t : list Z) n :
  (0 < n)%nat → root ++ t ++ replicate n 0 = (root ++ t) ++ 0 :: replicate (n - 1) 0.
Proof.
  intros Hn. rewrite <- app_assoc. do 2 f_equal. replace n with (S (n - 1)) at 1 by lia. done.
Qed.

Lemma wp_put_file root t n m c (Q : unit → HttpConn → Prop) :
  m_real_file (c_resp c) = root ++ replicate n 0 → (length t + m ≤ n)%nat →
  Q tt c{{c_resp := (c_resp c){{m_real_file := root ++ t ++ replicate (n - length t) 0}} }} →
  wp (put_file (zlen root) (t ++ replicate m 0)) c Q.
Proof.
  intros Hf Hm HQ. unfold put_file. wp_base. wp_base. rewrite Hf, put_zeros by done.
  wp_base. wp_base. unfold set_resp. by wp_base.
Qed.

Lemma last_at_app b dir name :
  b ∉ name → last_at b (dir ++ b :: name) = Some (zlen dir).
Proof.
  intros Hn. assert (last_at b name = None) as Hnone.
  { clear dir. induction name as [|c name IH]; simpl; [done|].
    rewrite IH by set_solver. by rewrite (proj2 (Z.eqb_neq _ _)) by set_solver. }
  induction dir as [|c dir IH]; simpl; [by rewrite Hnone, Z.eqb_refl|].
  rewrite IH. f_equal. unfold zlen. simpl. lia.
Qed.

Lemma char_after r pre s1 c s2 :
  m_read_buf r = pre ++ s1 ++ c :: s2 → char_at (Some (zlen pre)) (zlen s1) r = Done c r.
Proof.
  intros Hb. unfold char_at, bind, gets, need, ret, byte_at, zlen. rewrite Hb.
  rewrite (proj2 (Z.leb_le 0 _)) by lia. rewrite <- Nat2Z.inj_add, Nat2Z.id, <- length_app, app_assoc.
  by rewrite list_lookup_middle.
Qed.

(** The file a target names: the digit after the last slash stands for one of
    the site's pages. *)
Definition target_file (url name : list Z) : list Z :=
  match page_of (hd 0 name) with Some page => bytes page | None => url end.

Lemma page_small k page :
  page_of k = Some page → (length (bytes page) ≤ 14)%nat ∧ 0 ∉ bytes page.
Proof.
  unfold page_of. intros H. repeat case_match; simplify_eq/=.
  all: split; [vm_compute; lia|by apply no_nul].
Qed.

(** C34: A request without a form is answered from one file: the document root
    followed by the target, or by the site's page the digit after the target's
    last slash stands for. A file that cannot be found is NO_RESOURCE, one that
    others may not read FORBIDDEN_REQUEST, a directory BAD_REQUEST; any other is
    opened, mapped with its size and closed. Nothing in the target is refused,
    dots that lead out of the root included. The comment on the search for the
    slash (http_conn.cpp:483) speaks of the first slash; the code, [strrchr],
    finds the last, and so "/x/5" asks for the picture page. *)
Theorem do_request_static c root pre dir name rest :
  let url := dir ++ SLASH :: name in
  m_doc_root c = root → 0 ∉ root → m_cgi (c_req c) ≠ 1 →
  m_read_buf (c_req c) = pre ++ url ++ 0 :: rest → m_url (c_req c) = Some (zlen pre) →
  0 ∉ url → SLASH ∉ name →
  m_real_file (c_resp c) = replicate (Z.to_nat FILENAME_LEN) 0 →
  zlen root + Z.max (zlen url) 14 < FILENAME_LEN →
  let path := root ++ target_file url name in
  let tr := m_calls (c_req c) in
  wp do_request c (λ code c',
    code = file_answer (http_reply tr (Stat path)) ∧
    m_calls (c_req c') = tr ++ file_calls tr path).
Proof.
  intros url <- Hroot Hcgi Hb Hurl H0 Hslash Hf Hfit path tr. unfold do_request.
  wp_base. wp_base. wp_base. change 0 with (zlen []) at 1.
  apply (wp_put_file [] _ (Z.to_nat FILENAME_LEN) 1); [done|unfold zlen in *; simpl; lia|].
  cbn [app]. wp_base. wp_base. match goal with |- wp _ ?c' _ => set (c1 := c') end.
  assert (c_req c1 = c_req c) as Hc1 by done. rewrite Hc1, Hurl.
  wp_base. eapply wp_on_req_same.
  { rewrite Hc1. apply (deref_at _ _ pre (url ++ 0 :: rest)). done. }
  wp_base. eapply wp_need.
  { unfold strrchr. rewrite c_string_app by done. unfold url. simpl. by rewrite last_at_app. }
  cbv beta iota. wp_base. wp_base. rewrite Hc1, (proj2 (Z.eqb_neq _ 1)) by done.
  wp_base. wp_base. unfold whenM at 1. wp_base. wp_base.
  wp_base. eapply (wp_on_req_same _ _ _ (hd 0 (name ++ [0]))).
  { rewrite Hc1. unfold advance. simpl.
    replace (zlen pre + zlen dir) with (zlen (pre ++ dir)) by apply zlen_app.
    change 1 with (zlen [SLASH]). destruct name as [|k name]; simpl hd.
    - apply (char_after _ _ _ _ rest). rewrite Hb. unfold url. by rewrite <- !app_assoc.
    - apply (char_after _ _ _ _ (name ++ 0 :: rest)). rewrite Hb. unfold url.
      by rewrite <- !app_assoc. }
  replace (hd 0 (name ++ [0])) with (hd 0 name) by by destruct name.
  wp_base. eapply wp_mono with (P := λ _ c',
    (∃ rest', m_real_file (c_resp c') = path ++ 0 :: rest') ∧ m_calls (c_req c') = tr).
  2: { intros _ c' [[rest' Hf'] Htr]. unfold path in Hf'. eapply wp_map_file; [exact Hf'| |].
       - unfold target_file. destruct (page_of _) eqn:Hp; [|by rewrite not_elem_of_app].
         rewrite not_elem_of_app. split; [done|]. by eapply page_small.
       - rewrite Htr. intros c2 H2. done. }
  unfold path, target_file, zlen, FILENAME_LEN in *.
  destruct (page_of (hd 0 name)) as [page|] eqn:Hp.
  - destruct (page_small _ _ Hp) as [Hpl _]. rewrite <- (app_nil_r (bytes page)) at 1.
    apply (wp_put_file _ _ (Z.to_nat 200 - length (m_doc_root c)) 0); [done|lia|].
    split; [|done]. exists (replicate (Z.to_nat 200 - length (m_doc_root c) - length (bytes page) - 1) 0).
    apply zeros_tail. lia.
  - wp_base. eapply wp_on_req_same.
    { rewrite Hc1. by apply (string_at_at _ _ pre url rest). }
    unfold strncpy_bytes. rewrite take_app, take_replicate, take_ge by lia.
    apply (wp_put_file _ _ (Z.to_nat 200 - length (m_doc_root c))); [done|lia|].
    split; [|done]. exists (replicate (Z.to_nat 200 - length (m_doc_root c) - length url - 1) 0).
    apply zeros_tail. lia.
Qed.

(** * Receiving *)

(** [recv]: -1, or at most as many bytes as there is room for. *)
Definition recv_ok : Prop := ∀ tr fd n, 0 ≤ n →
  let r := http_reply tr (Recv fd n) in
  (h_ret r = -1 ∧ h_data r = []) ∨ (0 ≤ h_ret r ≤ n ∧ zlen (h_data r) = h_ret r).
Definition buffer_ok (r : request) : Prop :=
  zlen (m_read_buf r) = READ_BUFFER_SIZE ∧ 0 ≤ m_read_idx r ≤ READ_BUFFER_SIZE.
(** The connection with other contents of the buffer. *)
Definition received (b : list Z) (n : Z) (tr : list hcall) (c : HttpConn) : HttpConn :=
  c{{c_req := (receive b n (c_req c)){{m_calls := tr}} }}.

(** The next [recv], for the room behind what is there; what it gives; and the
    connection when its bytes are behind what was there, with [n] as the new
    [m_read_idx]. *)
Definition next_recv (c : HttpConn) : hcall := Recv (m_sockfd c) (READ_BUFFER_SIZE - m_read_idx (c_req c)).
Definition arrived (c : HttpConn) : hreply := http_reply (m_calls (c_req c)) (next_recv c).
Definition stored (n : Z) (c : HttpConn) : HttpConn :=
  let b := m_read_buf (c_req c) in let i := Z.to_nat (m_read_idx (c_req c)) in let d := h_data (arrived c) in
  received (take i b ++ d ++ drop (i + length d) b) n (m_calls (c_req c) ++ [next_recv c]) c.

(** Reading until there is nothing more: an error, which is none if it says so,
    the end of the connection, or some bytes and so on. *)
Inductive reads_all : HttpConn → bool → HttpConn → Prop :=
| reads_error c :
    h_ret (arrived c) = -1 →
    reads_all c (h_errno (arrived c) =? EAGAIN) (stored (m_read_idx (c_req c)) c)
| reads_end c : h_ret (arrived c) = 0 → reads_all c false (stored (m_read_idx (c_req c)) c)
| reads_more c ok c' :
    0 < h_ret (arrived c) → reads_all (stored (m_read_idx (c_req c) + h_ret (arrived c)) c) ok c' → reads_all c ok c'.

Lemma write_bytes_at r i bs b :
  put_bytes (m_read_buf r) i bs = Some b → write_bytes (Some i) bs r = Done tt (with_buf b r).
Proof. intros H. unfold write_bytes, bind, gets, need, ret. by rewrite H. Qed.

Lemma arrived_fits c : recv_ok → buffer_ok (c_req c) →
  let i := m_read_idx (c_req c) in let d := h_data (arrived c) in
  0 ≤ i ∧ i + zlen d ≤ zlen (m_read_buf (c_req c)) ∧
  ((h_ret (arrived c) = -1 ∧ d = []) ∨ 0 ≤ h_ret (arrived c) ≤ READ_BUFFER_SIZE - i).
Proof.
  intros Hos [Hb Hi] i d.
  destruct (Hos (m_calls (c_req c)) (m_sockfd c) (READ_BUFFER_SIZE - i) ltac:(lia)) as [[Hr Hd]|[Hr Hd]];
    change (http_reply _ _) with (arrived c) in Hr, Hd; fold d in Hd; (split; [lia|]).
  - rewrite Hd. change (zlen []) with 0. split; [lia|]. by left.
  - split; [lia|]. by right.
Qed.
(** The bytes that are stored leave the buffer as long as it was. *)
Lemma stored_ok c n : recv_ok → buffer_ok (c_req c) → 0 ≤ n ≤ READ_BUFFER_SIZE → buffer_ok (c_req (stored n c)).
Proof.
  intros Hos Hok Hn. destruct (arrived_fits c Hos Hok) as (Hi & Hfit & _), Hok as [Hb Hi']. unfold stored.
  set (d := h_data (arrived c)) in *. clearbody d. destruct c as [[] ?].
  unfold buffer_ok, zlen in *. simpl in *. unfold constant in *.
  rewrite !length_app, length_take, length_drop. lia.
Qed.

(** One [recv]: the bytes are stored behind what is there. *)
Lemma wp_recv_chunk c (Q : hreply → HttpConn → Prop) :
  recv_ok → buffer_ok (c_req c) → Q (arrived c) (stored (m_read_idx (c_req c)) c) → wp recv_chunk c Q.
Proof.
  intros Hos Hok HQ. destruct (arrived_fits c Hos Hok) as (Hi & Hfit & _).
  assert (put_bytes (m_read_buf (c_req c)) (m_read_idx (c_req c)) (h_data (arrived c)) =
    Some (m_read_buf (c_req (stored (m_read_idx (c_req c)) c)))) as Hput.
  { unfold put_bytes. rewrite (proj2 (Z.leb_le 0 _)), (proj2 (Z.leb_le _ _)) by (done || exact Hfit). by destruct c as [[] ?]. }
  unfold recv_chunk. do 5 wp_base. apply wp_hsys. fold (next_recv c) (arrived c). wp_base. eapply wp_on_req.
  { apply (write_bytes_at (c_req (called (next_recv c) c))). exact Hput. }
  wp_base. exact HQ.
Qed.

Lemma wp_bump_read_idx k n c (Q : unit → HttpConn → Prop) :
  Q tt (stored (n + k) c) → wp (bump_read_idx k) (stored n c) Q.
Proof. intros HQ. unfold bump_read_idx. by eapply wp_on_req. Qed.

(** C37: What [read_once] does, and that it returns. A full buffer is left alone,
    with the result false. In the level-triggered mode there is one [recv]; its
    bytes are stored behind those that are there, [m_read_idx] is moved by what
    it returned, and the result says whether that was positive: a [recv] that
    failed takes a byte back, from an empty buffer [m_read_idx] becomes -1. In
    the edge-triggered mode [recv] is repeated as long as it returns bytes, all
    are stored one after the other, and the result is true exactly when the last
    [recv] failed because there was nothing more; [m_read_idx] stays inside the
    buffer. *)
Theorem read_once_stores fuel c mode :
  recv_ok → buffer_ok (c_req c) → m_trig_mode c = Some mode →
  (Z.to_nat (READ_BUFFER_SIZE - m_read_idx (c_req c)) < fuel)%nat →
  wp (read_once fuel) c (λ ok c',
    let k := h_ret (arrived c) in
    if m_read_idx (c_req c) =? READ_BUFFER_SIZE then ok = false ∧ c' = c
    else if mode =? 0 then
      ok = (0 <? k) ∧ c' = stored (m_read_idx (c_req c) + k) c ∧
      (buffer_ok (c_req c') ∨ k = -1 ∧ m_read_idx (c_req c') = m_read_idx (c_req c) - 1)
    else reads_all c ok c' ∧ buffer_ok (c_req c')).
Proof.
  intros Hos Hok Hmode Hfuel. unfold read_once. wp_base. wp_base. rewrite Z.geb_leb.
  pose proof Hok as [_ Hi]. destruct (Z.leb_spec READ_BUFFER_SIZE (m_read_idx (c_req c))) as [Hfull|Hroom].
  { wp_base. by rewrite (proj2 (Z.eqb_eq _ _)) by lia. }
  rewrite (proj2 (Z.eqb_neq _ _)) by lia. do 3 wp_base. eapply wp_need; [exact Hmode|].
  destruct (mode =? 0).
  - wp_base. apply wp_recv_chunk; [done|done|]. wp_base. apply wp_bump_read_idx. wp_base.
    split; [by rewrite Z.leb_antisym, negb_involutive|]. split; [done|].
    destruct (arrived_fits c Hos Hok) as (_ & _ & [[Hr _]|Hr]).
    + right. rewrite Hr. split; [done|]. unfold stored. destruct c as [[] ?]. simpl. unfold constant. lia.
    + left. apply stored_ok; [done|done|lia].
  - eapply (wp_loop (λ n _ c', buffer_ok (c_req c') ∧ n = Z.to_nat (READ_BUFFER_SIZE - m_read_idx (c_req c')) ∧
      ∀ ok c'', reads_all c' ok c'' → reads_all c ok c'')); [|by split_and!|done].
    clear fuel Hfuel. intros n [] c1 (Hok1 & -> & Hall). destruct (arrived_fits c1 Hos Hok1) as (_ & _ & Hr).
    pose proof Hok1 as [_ Hi1]. wp_base. apply wp_recv_chunk; [done|done|].
    destruct (Z.eqb_spec (h_ret (arrived c1)) (-1)) as [E1|E1].
    { wp_base. split; [by apply Hall, reads_error|]. apply stored_ok; [done|done|lia]. }
    destruct (Z.eqb_spec (h_ret (arrived c1)) 0) as [E2|E2].
    { wp_base. split; [by apply Hall, reads_end|]. apply stored_ok; [done|done|lia]. }
    destruct Hr as [[Hr _]|Hr]; [done|].
    wp_base. apply wp_bump_read_idx. wp_base. eexists. split; [|split; [|split; [reflexivity|]]].
    + unfold stored. destruct c1 as [[] ?]. simpl in *. unfold constant. lia.
    + apply stored_ok; [done|done|lia].
    + intros ok c2 Hc2. apply Hall. apply reads_more; [lia|exact Hc2].
Qed.
End props.
