(* ===== verification/HttpWriteProps.v ===== *)
(** Theorems on responses: what [process_write] builds and what [write]
    sends. *)
From stdpp Require Import gmap list pretty.
From coqutil Require Import Datatypes.RecordSetters.
From S2P Require Import Prelude HttpModel HttpParse HttpResponse HttpWrite Decimal HttpParseProps HttpLineProps.

Section props.
Context {OS : HttpOS}.

(** * The response buffer *)

(** The first [m_write_idx] bytes of [m_write_buf] are [text]. *)
Definition holds (r : response) (text : list Z) : Prop :=
  Z.of_nat (length (m_write_buf r)) = WRITE_BUFFER_SIZE ∧
  m_write_idx r = Z.of_nat (length text) ∧
  take (length text) (m_write_buf r) = text ∧ 0 ∉ text.
(** What [add_response] may change. *)
Definition with_text (buf : list Z) (idx : Z) (calls : list hcall) (c : HttpConn) : HttpConn :=
  c{{c_resp := (c_resp c){{m_write_buf := buf; m_write_idx := idx}};
     c_req := (c_req c){{m_calls := calls}} }}.
Definition grown (text : list Z) (c c' : HttpConn) : Prop :=
  holds (c_resp c') text ∧ ∃ buf idx calls, c' = with_text buf idx calls c.

Lemma wp_add_response text more c (Q : bool → HttpConn → Prop) :
  holds (c_resp c) text → 0 ∉ more → Z.of_nat (length text + length more) < WRITE_BUFFER_SIZE - 1 →
  (∀ c', grown (text ++ more) c c' → Q true c') →
  wp (add_response more) c Q.
Proof.
  intros (Hlen & Hidx & Htake & H0) Hmore Hfit HQ. unfold add_response, WRITE_BUFFER_SIZE in *.
  wp_base. wp_base. rewrite Hidx.
  replace (Z.of_nat (length text) >=? 1024) with false by lia. wp_base. wp_base.
  replace (0 <? 1024 - Z.of_nat (length text) - 1) with true by lia.
  rewrite take_ge by lia.
  set (buf := text ++ more ++ 0 :: drop (length text + length more + 1) (m_write_buf (c_resp c))).
  assert (put_bytes (m_write_buf (c_resp c)) (Z.of_nat (length text)) (more ++ [0]) = Some buf) as ->.
  { unfold put_bytes. rewrite length_app. simpl length.
    rewrite (proj2 (Z.leb_le 0 _)), (proj2 (Z.leb_le _ _)) by lia. simpl.
    rewrite Nat2Z.id, Htake. unfold buf. rewrite <- app_assoc. f_equal. f_equal. f_equal.
    simpl. f_equal. f_equal. lia. }
  repeat wp_base.
  replace (Z.of_nat (length more) >=? 1024 - Z.of_nat (length text) - 1) with false by lia.
  unfold set_resp. repeat wp_base.
  assert (∀ calls c', c' = with_text buf (Z.of_nat (length text) + Z.of_nat (length more)) calls c →
    grown (text ++ more) c c') as Hg.
  { intros calls c' ->. split; [|by eauto]. destruct c as [? []]. unfold holds, with_text. simpl in *.
    unfold constant, buf, WRITE_BUFFER_SIZE in *. rewrite !length_app. simpl. rewrite length_drop. split_and!; [lia..| |].
    - rewrite app_assoc, <- (length_app text more), take_app_length. done.
    - rewrite not_elem_of_app. done. }
  apply wp_when; intros _.
  - wp_base. eapply wp_need.
    { unfold buf. rewrite app_assoc. apply c_string_app. rewrite not_elem_of_app. done. }
    unfold hdo. repeat wp_base. apply HQ. eapply Hg. by destruct c as [[] []].
  - repeat wp_base. apply HQ. eapply (Hg (m_calls (c_req c))). by destruct c as [[] []].
Qed.

Lemma grown_trans t t' c c1 c2 : grown t c c1 → grown t' c1 c2 → grown t' c c2.
Proof.
  intros [_ (b1 & i1 & k1 & ->)] [H (b2 & i2 & k2 & ->)]. split; [done|].
  exists b2, i2, k2. by destruct c as [[] []].
Qed.
Lemma grown_linger t c c' : grown t c c' → m_linger (c_req c') = m_linger (c_req c).
Proof. intros [_ (b & i & k & ->)]. by destruct c as [[] []]. Qed.
Lemma grown_stat t c c' : grown t c c' → m_file_stat (c_resp c') = m_file_stat (c_resp c).
Proof. intros [_ (b & i & k & ->)]. by destruct c as [[] []]. Qed.

(** * Responses *)

Definition status_text (status : Z) (title : list Z) : list Z :=
  bytes "HTTP/1.1" ++ [SP] ++ decimal status ++ [SP] ++ title ++ crlf.
Definition header_text (linger : bool) (n : Z) : list Z :=
  (bytes "Content-Length:" ++ decimal n ++ crlf) ++ linger_text linger ++ crlf.
(** A response with a body: status line, the length of the body, the kind of
    connection, an empty line, the body. *)
Definition response_text (status : Z) (title : list Z) (linger : bool) (body : list Z) : list Z :=
  status_text status title ++ header_text linger (Z.of_nat (length body)) ++ body.

Lemma linger_text_small linger : 0 ∉ linger_text linger ∧ (length (linger_text linger) ≤ 23)%nat.
Proof.
  destruct linger; (split; [by apply no_nul|vm_compute; lia]).
Qed.
Lemma header_text_small linger n :
  0 ≤ n < 2 ^ 31 → 0 ∉ header_text linger n ∧ (length (header_text linger n) ≤ 52)%nat.
Proof.
  intros Hn. destruct (decimal_small n Hn) as [H1 H2], (linger_text_small linger) as [H3 H4].
  unfold header_text. rewrite !length_app, !not_elem_of_app.
  change (length (bytes "Content-Length:")) with 15%nat. change (length crlf) with 2%nat.
  split; [|lia].
  split_and!; try done; by apply no_nul.
Qed.

Lemma status_text_small status title :
  0 ≤ status < 2 ^ 31 → 0 ∉ title →
  0 ∉ status_text status title ∧ (length (status_text status title) ≤ 22 + length title)%nat.
Proof.
  intros Hn Ht. destruct (decimal_small status Hn) as [H1 H2].
  unfold status_text. rewrite !length_app, !not_elem_of_app.
  change (length (bytes "HTTP/1.1")) with 8%nat. change (length crlf) with 2%nat.
  split; [|simpl length; lia]. split_and!; try done; by apply no_nul.
Qed.

Lemma wp_add_headers text n c (Q : bool → HttpConn → Prop) :
  holds (c_resp c) text → 0 ≤ n < 2 ^ 31 → Z.of_nat (length text) + 52 < WRITE_BUFFER_SIZE - 1 →
  (∀ c', grown (text ++ header_text (m_linger (c_req c)) n) c c' → Q true c') →
  wp (add_headers n) c Q.
Proof.
  intros Ht Hn Hfit HQ.
  destruct (header_text_small (m_linger (c_req c)) n Hn) as [H0 Hlen].
  unfold header_text in H0, Hlen. rewrite !not_elem_of_app in H0. rewrite !length_app in Hlen.
  destruct H0 as ((Ha & Hb & Hc) & Hd & _).
  unfold add_headers, andM, add_content_length, add_linger, add_blank_line.
  wp_base. eapply wp_add_response; [done|by rewrite !not_elem_of_app|rewrite !length_app; lia|].
  intros c1 H1. wp_base. wp_base. wp_base. rewrite (grown_linger _ _ _ H1).
  eapply wp_add_response; [apply H1|done|rewrite !length_app; lia|].
  intros c2 H2. eapply wp_add_response; [apply H2|done|rewrite !length_app; lia|].
  intros c3 H3. apply HQ. unfold header_text.
  rewrite <- !app_assoc in H3. rewrite <- !app_assoc.
  by eapply grown_trans, grown_trans.
Qed.

(** What [writev] is to be given after an error. *)
Definition ready (c : HttpConn) (text : list Z) : Prop :=
  holds (c_resp c) text ∧ m_iovec0 (c_resp c) = Iovec (IovBuf 0) (Z.of_nat (length text)) ∧
  m_iovec_count (c_resp c) = Some 1 ∧ m_bytes_to_send (c_resp c) = Z.of_nat (length text).
(** What building a response leaves alone. *)
Definition same_conn (c c' : HttpConn) : Prop :=
  m_linger (c_req c') = m_linger (c_req c) ∧
  m_bytes_have_send (c_resp c') = m_bytes_have_send (c_resp c) ∧
  m_file_address (c_resp c') = m_file_address (c_resp c) ∧
  m_sockfd c' = m_sockfd c ∧ m_epoll_fd c' = m_epoll_fd c ∧ m_trig_mode c' = m_trig_mode c.

Lemma wp_response_error status title body c (Q : bool → HttpConn → Prop) :
  holds (c_resp c) [] → 0 ≤ status < 2 ^ 31 → 0 ∉ title → 0 ∉ body →
  Z.of_nat (length title) + Z.of_nat (length body) < 900 →
  (∀ c', ready c' (response_text status title (m_linger (c_req c)) body) →
    same_conn c c' → Q true c') →
  wp (response_error status title body) c Q.
Proof.
  intros Ht Hs Htitle Hbody Hfit HQ.
  destruct (status_text_small status title Hs Htitle) as [H1 H2].
  destruct (header_text_small (m_linger (c_req c)) (Z.of_nat (length body))) as [H3 H4]; [lia|].
  unfold response_error, add_status_line, WRITE_BUFFER_SIZE in *. fold (status_text status title).
  set (st := status_text status title) in *.
  wp_base. eapply wp_add_response; [done..| |].
  { unfold WRITE_BUFFER_SIZE. cbn [length]. lia. }
  intros c1 G1. wp_base. eapply wp_add_headers; [apply G1|lia| |].
  { unfold WRITE_BUFFER_SIZE. cbn [app]. lia. }
  rewrite (grown_linger _ _ _ G1). intros c2 G2. wp_base.
  unfold add_content. eapply wp_add_response; [apply G2|done| |].
  { unfold WRITE_BUFFER_SIZE. rewrite !length_app. cbn [length]. lia. }
  intros c3 G3. cbv beta iota delta [negb]. unfold set_resp. repeat wp_base.
  pose proof (grown_trans _ _ _ _ _ G1 (grown_trans _ _ _ _ _ G2 G3)) as [Hh (b & i & k & ->)].
  rewrite <- app_assoc in Hh. apply HQ; [|by destruct c as [[] []]].
  unfold ready. destruct c as [[] []]. simpl in *. unfold constant in *.
  destruct Hh as (? & ? & ?). simpl in *. by subst.
Qed.

(** The responses to failures: 500, 403, and 404 for a bad request. *)
Definition failure (code : HTTP_CODE) : option (Z * list Z * list Z) :=
  match code with
  | INTERNAL_ERROR => Some (500, error_500_title, error_500_form)
  | BAD_REQUEST => Some (404, error_404_title, error_404_form)
  | FORBIDDEN_REQUEST => Some (403, error_403_title, error_403_form)
  | _ => None
  end.
Definition failure_text (f : Z * list Z * list Z) (linger : bool) : list Z :=
  response_text (f.1.1) (f.1.2) linger (f.2).

Lemma wp_process_write_failure code f c (Q : bool → HttpConn → Prop) :
  failure code = Some f → holds (c_resp c) [] →
  (∀ c', ready c' (failure_text f (m_linger (c_req c))) → same_conn c c' → Q true c') →
  wp (process_write code) c Q.
Proof.
  intros Hf Hh HQ. unfold failure in Hf. destruct code; simplify_eq Hf; intros <-.
  all: apply wp_response_error; [done|lia|by apply no_nul|by apply no_nul|by vm_compute|exact HQ].
Qed.

(** * Sending *)

(** A response of which [h] bytes were sent and [left] are left, the next call
    offering the [n] bytes from [off] on. *)
Definition pending (c : HttpConn) (text : list Z) (off n left h : Z) : Prop :=
  holds (c_resp c) text ∧ m_iovec0 (c_resp c) = Iovec (IovBuf off) n ∧
  m_iovec_count (c_resp c) = Some 1 ∧ m_bytes_to_send (c_resp c) = left ∧
  m_bytes_have_send (c_resp c) = h ∧ m_file_address (c_resp c) = None.
Definition piece (text : list Z) (off n : Z) : list Z := take (Z.to_nat n) (drop (Z.to_nat off) text).

Lemma gather_pending c text off n left h :
  pending c text off n left h → 0 ≤ off → 0 ≤ n → off + n ≤ Z.of_nat (length text) →
  gather (c_resp c) = Some [piece text off n].
Proof.
  intros ((Hlen & _ & Ht & _) & Hi & Hc & _) Hoff Hn Hfit.
  unfold gather. rewrite Hc. unfold iov_bytes. rewrite Hi. simpl.
  assert (length text ≤ length (m_write_buf (c_resp c)))%nat.
  { rewrite <- Ht, length_take. lia. }
  rewrite (proj2 (Z.leb_le 0 off)), (proj2 (Z.leb_le 0 n)), (proj2 (Z.leb_le _ _)) by lia. simpl.
  do 2 f_equal. unfold piece. rewrite <- Ht at 1. rewrite skipn_firstn_comm, take_take.
  f_equal. lia.
Qed.

(** The connection after [writev] took [k] bytes. *)
Definition took (k : Z) (vec : list Z) (c : HttpConn) : HttpConn :=
  c{{c_req := (c_req c){{m_calls := m_calls (c_req c) ++ [Writev (m_sockfd c) [vec] ] }};
     c_resp := move_iovec ((c_resp c){{m_bytes_have_send := m_bytes_have_send (c_resp c) + k;
                                       m_bytes_to_send := m_bytes_to_send (c_resp c) - k}}) }}.
Definition writev_ret (c : HttpConn) (vec : list Z) : Z :=
  h_ret (http_reply (m_calls (c_req c)) (Writev (m_sockfd c) [vec])).

Lemma wp_write_took c text off n left h (Q : unit + bool → HttpConn → Prop) :
  pending c text off n left h → 0 ≤ off → 0 ≤ n → off + n ≤ Z.of_nat (length text) →
  let k := writev_ret c (piece text off n) in
  0 ≤ k ≤ left → 0 ≤ h → h + left < 2 ^ 31 →
  wp (if left - k <=? 0 then
        unmap;; rearm EPOLLIN;; linger ← gets (λ s, m_linger (c_req s));
        if linger : bool then init;; ret (inr true) else ret (inr false)
      else ret (inl tt)) (took k (piece text off n) c) Q →
  wp write_step c Q.
Proof.
  intros Hp Hoff Hn Hfit k Hk Hh Hsum HQ. unfold write_step. do 4 wp_base.
  wp_base. rewrite (gather_pending _ _ _ _ _ _ Hp) by done. wp_base. wp_base.
  unfold hsys. repeat wp_base. fold (writev_ret c (piece text off n)). fold k.
  destruct Hp as (_ & _ & _ & Hleft & Hhave & _).
  rewrite (proj2 (Z.ltb_ge _ _)) by lia. wp_base. rewrite Hhave.
  apply wp_int; [unfold INT_MIN, INT_MAX; lia|]. wp_base. rewrite Hleft.
  apply wp_int; [unfold INT_MIN, INT_MAX; lia|]. unfold set_resp. wp_base. wp_base.
  unfold took in HQ. rewrite Hhave, Hleft in HQ. exact HQ.
Qed.

(** A part: the rest stays pending. *)
Lemma wp_write_part c text off n left h (Q : unit + bool → HttpConn → Prop) :
  pending c text off n left h → 0 ≤ off → off + n ≤ Z.of_nat (length text) →
  let k := writev_ret c (piece text off n) in
  0 < k < left → left - k < n < 2 ^ 31 → 0 ≤ h → h + k ≤ n → h + left < 2 ^ 31 →
  (pending (took k (piece text off n) c) text (h + k) (n - (h + k)) (left - k) (h + k) →
   Q (inl tt) (took k (piece text off n) c)) →
  wp write_step c Q.
Proof.
  intros Hp Hoff Hfit k Hk Hn Hh Hhk Hsum HQ.
  eapply wp_write_took; [done|done|lia|done|fold k; lia|done|done|]. fold k.
  rewrite (proj2 (Z.leb_gt _ _)) by lia. wp_base. apply HQ. clear HQ. clearbody k.
  destruct Hp as ((? & ? & ? & ?) & Hi & Hc & Hleft & Hhave & Ha). destruct c as [[] []].
  unfold pending, took, move_iovec, holds. simpl in *. unfold constant in *. simpl in *. subst.
  simpl. unfold to_size. rewrite Z.mod_small by lia.
  rewrite Z.geb_leb, (proj2 (Z.leb_gt _ _)) by lia. simpl. unfold constant. rewrite Z.mod_small by lia.
  done.
Qed.

Definition called (k : hcall) (c : HttpConn) : HttpConn :=
  c{{c_req := (c_req c){{m_calls := m_calls (c_req c) ++ [k] }} }}.
(** The events a connection waits for when it is to be read from. *)
Definition read_events (trig_mode : Z) : Z :=
  if trig_mode =? 1 then Z.lor (Z.lor (Z.lor EPOLLIN EPOLLET) EPOLLONESHOT) EPOLLRDHUP
  else Z.lor (Z.lor EPOLLIN EPOLLONESHOT) EPOLLRDHUP.

Lemma wp_rearm_read c mode (Q : unit → HttpConn → Prop) :
  m_trig_mode c = Some mode →
  Q tt (called (EpollCtlMod (m_epoll_fd c) (m_sockfd c) (read_events mode)) c) →
  wp (rearm EPOLLIN) c Q.
Proof.
  unfold rearm, modfd, hdo. intros Hm H. do 7 wp_base. eapply wp_need; [exact Hm|]. wp_base. exact H.
Qed.

Lemma wp_unmap_none c (Q : unit → HttpConn → Prop) :
  m_file_address (c_resp c) = None → Q tt c → wp unmap c Q.
Proof. intros Ha HQ. unfold unmap. wp_base. wp_base. rewrite Ha. by wp_base. Qed.

(** The last part: a connection that is kept is reset and waits for the next
    request; [false] asks for the other kind to be closed. *)
Lemma wp_write_last c mode text off n left h (Q : unit + bool → HttpConn → Prop) :
  m_trig_mode c = Some mode → pending c text off n left h → 0 ≤ off → 0 ≤ n → off + n ≤ Z.of_nat (length text) →
  writev_ret c (piece text off n) = left → 0 ≤ left → 0 ≤ h → h + left < 2 ^ 31 →
  (∀ c', m_calls (c_req c') = m_calls (c_req c) ++
      [Writev (m_sockfd c) [piece text off n];
       EpollCtlMod (m_epoll_fd c) (m_sockfd c) (read_events mode)] →
    (m_linger (c_req c) = true → holds (c_resp c') []) →
    Q (inr (m_linger (c_req c))) c') →
  wp write_step c Q.
Proof.
  intros Hmode Hp Hoff Hn Hfit Hk Hl Hh Hsum HQ.
  eapply wp_write_took; [done|done|lia|done|lia|done|done|]. rewrite Hk.
  rewrite (proj2 (Z.leb_le _ 0)) by lia.
  destruct Hp as (_ & _ & _ & _ & _ & Ha).
  wp_base. apply wp_unmap_none.
  { unfold took, move_iovec. simpl. by case_match. }
  wp_base. eapply wp_rearm_read; [exact Hmode|]. wp_base. wp_base.
  assert (∀ l, (m_calls (c_req (called l (took left (piece text off n) c)))) =
    m_calls (c_req c) ++ [Writev (m_sockfd c) [piece text off n]; l]) as Hcalls.
  { intros l. unfold called, took. simpl. unfold constant. by rewrite <- app_assoc. }
  match goal with |- context [m_linger (c_req (called ?l ?x))] =>
    change (m_linger (c_req (called l x))) with (m_linger (c_req c)) end.
  destruct (m_linger (c_req c)).
  - unfold init, set_conn. repeat wp_base. apply HQ; [by rewrite <- Hcalls|intros _].
    split_and!; [done..|apply not_elem_of_nil].
  - wp_base. apply HQ; [by rewrite <- Hcalls|done].
Qed.

Lemma ready_pending c text :
  ready c text → m_bytes_have_send (c_resp c) = 0 → m_file_address (c_resp c) = None →
  pending c text 0 (Z.of_nat (length text)) (Z.of_nat (length text)) 0.
Proof. unfold ready, pending. naive_solver. Qed.
Lemma piece_all text : piece text 0 (Z.of_nat (length text)) = text.
Proof. unfold piece. rewrite Nat2Z.id. by apply take_ge. Qed.
Lemma piece_rest text k :
  0 ≤ k → piece text k (Z.of_nat (length text) - k) = drop (Z.to_nat k) text.
Proof. intros. unfold piece. apply take_ge. rewrite length_drop. lia. Qed.

Lemma wp_write_loop fuel c (Q : bool → HttpConn → Prop) :
  m_bytes_to_send (c_resp c) ≠ 0 → wp (loop fuel (λ _, write_step) tt) c Q → wp (write fuel) c Q.
Proof.
  intros H HQ. unfold write. wp_base. wp_base. by rewrite (proj2 (Z.eqb_neq _ _)).
Qed.

(** With a third part the text is cut: what is offered after two parts of [k1]
    and [k2] bytes ends [k1] bytes before the end. *)
Lemma third_part c text k2 :
  pending c text 0 (Z.of_nat (length text)) (Z.of_nat (length text)) 0 →
  let k1 := writev_ret c text in
  let c1 := took k1 text c in
  0 < k1 → writev_ret c1 (drop (Z.to_nat k1) text) = k2 → 0 < k2 →
  2 * k1 + k2 < Z.of_nat (length text) →
  wp (write_step;; write_step) c (λ r c2,
    r = inl tt ∧
    m_calls (c_req c2) = m_calls (c_req c) ++ [Writev (m_sockfd c) [text]; Writev (m_sockfd c) [drop (Z.to_nat k1) text]] ∧
    gather (c_resp c2) = Some [piece text (k1 + k2) (Z.of_nat (length text) - 2 * k1 - k2)]).
Proof.
  intros Hp k1 c1 Hk1 Hk2 Hk2' Hsum.
  assert (Z.of_nat (length text) ≤ 1024) as Hsmall.
  { destruct Hp as ((Hl & _ & Ht & _) & _). unfold WRITE_BUFFER_SIZE in Hl.
    rewrite <- Hl, <- Ht, length_take. lia. }
  wp_base. eapply (wp_write_part _ _ _ _ _ _ _ Hp); rewrite ?piece_all; fold k1; try lia.
  rewrite !Z.add_0_l. intros Hp1. fold c1 in Hp1 |- *.
  assert (writev_ret c1 (piece text k1 (Z.of_nat (length text) - k1)) = k2) as Hk2p
    by (rewrite piece_rest by lia; done).
  eapply (wp_write_part _ _ _ _ _ _ _ Hp1); rewrite ?Hk2p; try lia.
  intros Hp2. split; [done|]. split; [rewrite piece_rest by lia; unfold c1, took; simpl; unfold constant; by rewrite <- app_assoc|].
  rewrite (gather_pending _ _ _ _ _ _ Hp2) by lia. do 3 f_equal; lia.
Qed.


(** * Files *)

Lemma to_int_small z : 0 ≤ z < 2 ^ 31 → to_int z = z.
Proof. intros. unfold to_int. rewrite Z.mod_small by lia. lia. Qed.

Definition file_head (linger : bool) (size : Z) : list Z :=
  status_text 200 ok_200_title ++ header_text linger size.

(** The head of a file's response announces the file's size, and [m_iovec]
    has the head and the mapped file; but [m_iovec_count] keeps the value it
    had: none on a new object, on which [write] then has undefined behaviour,
    or 1 after a failure, with which only the head is offered. No file is sent. *)
Theorem file_not_sent c :
  holds (c_resp c) [] →
  let size := st_size (m_file_stat (c_resp c)) in
  let head := file_head (m_linger (c_req c)) size in
  0 < size → size + 1024 < 2 ^ 31 →
  wp (process_write FILE_REQUEST) c (λ ok c1, ok = true ∧ holds (c_resp c1) head ∧
    m_iovec0 (c_resp c1) = Iovec (IovBuf 0) (Z.of_nat (length head)) ∧
    m_iovec1 (c_resp c1) = Iovec (file_base (m_file_address (c_resp c))) size ∧
    m_bytes_to_send (c_resp c1) = Z.of_nat (length head) + size ∧
    (m_iovec_count (c_resp c) = None → ∀ fuel, write (S fuel) c1 = Undef) ∧
    (m_iovec_count (c_resp c) = Some 1 → gather (c_resp c1) = Some [head])).
Proof.
  intros Hh size head Hpos Hsmall. unfold process_write, response_file, add_status_line.
  fold (status_text 200 ok_200_title).
  destruct (status_text_small 200 ok_200_title) as [H1 H2]; [lia|by apply no_nul|].
  destruct (header_text_small (m_linger (c_req c)) size) as [H3 H4]; [lia|].
  change (length ok_200_title) with 2%nat in H2.
  set (st := status_text 200 ok_200_title) in *.
  wp_base. eapply wp_add_response; [done..| |].
  { unfold WRITE_BUFFER_SIZE. cbn [length]. lia. }
  intros c1 G1. wp_base. wp_base. rewrite (grown_stat _ _ _ G1). fold size.
  rewrite (proj2 (Z.eqb_neq _ _)) by lia. cbv beta iota delta [negb].
  rewrite to_int_small by lia. wp_base. eapply wp_add_headers; [apply G1|lia| |].
  { unfold WRITE_BUFFER_SIZE. cbn [app]. lia. }
  rewrite (grown_linger _ _ _ G1). intros c2 G2. unfold set_resp. repeat wp_base.
  pose proof (grown_trans _ _ _ _ _ G1 G2) as [Hh2 (b & i & k & ->)].
  change (([] ++ st) ++ header_text (m_linger (c_req c)) size) with head in Hh2.
  assert (length head ≤ 76)%nat as Hhead by (unfold head, file_head; fold st; rewrite length_app; lia).
  clearbody head. clear G1 G2 H1 H2 H3 H4.
  destruct c as [? []]. unfold holds in *. simpl in *. unfold constant in *. simpl in *.
  destruct Hh2 as (Hb & Hi & Ht & H0). rewrite Hi, to_int_small by lia.
  split_and!; try done.
  - intros -> fuel. unfold write, bind. simpl. unfold constant.
    rewrite (proj2 (Z.eqb_neq _ _)) by lia. reflexivity.
  - intros ->. unfold gather, iov_bytes. simpl. unfold constant. simpl.
    pose proof (f_equal length Ht) as Hlt. rewrite length_take in Hlt.
    rewrite (proj2 (Z.leb_le 0 _)), (proj2 (Z.leb_le _ (Z.of_nat (length b)))) by lia. simpl.
    rewrite Nat2Z.id. change (drop (Z.to_nat 0) b) with b. by rewrite Ht.
Qed.

(** * [process] *)

Lemma process_line_undef fuel c line rest :
  req_ok (c_req c) → m_check_state (c_req c) ≠ CHECK_STATE_CONTENT →
  unread (c_req c) = line ++ CR :: LF :: rest → (∀ b, b ∈ line → stops b = false) →
  (length (unread (c_req c)) < fuel)%nat →
  process fuel c = Undef.
Proof.
  intros Hok Hst Hu Hline Hf. unfold process, process_read, on_req, bind.
  by rewrite (read_request_line _ _ line rest).
Qed.

(** A request whose next line has been received completely is never
    answered: outside the body, the condition of [process_read]'s loop, which
    compares where it should assign, is false exactly then, and the function
    ends without a value, which is undefined behaviour. *)
Theorem process_whole_line fuel c line rest :
  req_ok (c_req c) → m_check_state (c_req c) ≠ CHECK_STATE_CONTENT →
  unread (c_req c) = line ++ CR :: LF :: rest → (∀ b, b ∈ line → stops b = false) →
  (length (unread (c_req c)) < fuel)%nat →
  process fuel c = Undef.
Proof. apply process_line_undef. Qed.
End props.
