(* ===== verification/HttpFormProps.v ===== *)
(** Theorems on the forms: registration and the password check of
    [do_request]. *)
From stdpp Require Import gmap list pretty.
From coqutil Require Import Datatypes.RecordSetters.
From S2P Require Import Prelude HttpModel HttpParse HttpResponse HttpLineProps HttpRequestProps.

Section props.
Context {OS : HttpOS}.

(** Copying up to a byte. *)
Lemma copy_until_at r pre skip s stop rest room :
  m_read_buf r = pre ++ skip ++ s ++ stop :: rest → stop ∉ s → (length s < room)%nat →
  copy_until stop (Some (zlen pre)) (zlen skip) room r = Done s r.
Proof.
  intros Hb Hs Hroom. revert skip room Hb Hroom.
  induction s as [|c s IH]; intros skip [|room] Hb Hroom; simpl in Hroom; try lia; cbn [copy_until].
  - rewrite (bind_done _ _ _ stop r); [by rewrite Z.eqb_refl|]. by eapply char_after.
  - rewrite (bind_done _ _ _ c r); [|by eapply char_after].
    rewrite (proj2 (Z.eqb_neq _ _)) by set_solver.
    replace (zlen skip + 1) with (zlen (skip ++ [c])) by (rewrite zlen_app; done).
    erewrite bind_done; [done|]. apply IH; [set_solver| |lia].
    rewrite Hb. by rewrite <- !app_assoc.
Qed.

Lemma until_nul_id s : 0 ∉ s → until_nul s = s.
Proof.
  induction s as [|c s IH]; intros H; simpl; [done|].
  rewrite (proj2 (Z.eqb_neq _ _)), IH by set_solver. done.
Qed.

Lemma read_form_at r front name pw rest :
  m_read_buf r = front ++ (bytes "user=" ++ name ++ bytes "&password=" ++ pw) ++ 0 :: rest →
  m_string r = Some (zlen front) →
  0 ∉ name → CHAR "&" ∉ name → zlen name < 100 → 0 ∉ pw → zlen pw < 100 →
  read_form r = Done (name, pw) r.
Proof.
  intros Hb Hs Hn0 Hn Hnl Hp Hpl. unfold read_form. req_step. rewrite Hs. unfold zlen in Hnl, Hpl.
  assert (m_read_buf r = front ++ bytes "user=" ++ name ++
    CHAR "&" :: (bytes "password=" ++ pw ++ 0 :: rest)) as Hb1.
  { rewrite Hb. change (bytes "&password=") with (CHAR "&" :: bytes "password=").
    by rewrite <- !app_assoc. }
  erewrite bind_done; [|change 5 with (zlen (bytes "user=")); eapply copy_until_at; [done|done|lia]].
  erewrite bind_done.
  2: { replace (5 + Z.of_nat (length name) + 10) with (zlen (bytes "user=" ++ name ++ bytes "&password="))
         by (rewrite !zlen_app; unfold zlen; simpl; lia).
       eapply (copy_until_at _ _ _ pw); [|exact Hp|lia]. rewrite Hb. by rewrite <- !app_assoc. }
  by rewrite until_nul_id.
Qed.

(** The pages after a form, and the users. *)
Definition register_page (known inserted : bool) : string :=
  if known then "/registerError.html" else if inserted then "/log.html" else "/registerError.html".
Definition login_page (good : bool) : string :=
  if good then "/welcome.html" else "/logError.html".

(** The state in which a form is answered: the request's target behind [pre],
    the body behind it. *)
Record form_state (c : HttpConn) (pre dir : list Z) (k : Z) (tail mid name pw rest : list Z) : Prop := FormState {
  fs_buf : m_read_buf (c_req c) =
    pre ++ (dir ++ SLASH :: k :: tail) ++ 0 :: mid ++ (bytes "user=" ++ name ++ bytes "&password=" ++ pw) ++ 0 :: rest;
  fs_url : m_url (c_req c) = Some (zlen pre);
  fs_string : m_string (c_req c) = Some (zlen (pre ++ (dir ++ SLASH :: k :: tail) ++ 0 :: mid));
  fs_target : 0 ∉ dir ++ SLASH :: k :: tail;
  fs_short : zlen dir + zlen tail < 190;
  fs_name : name ≠ [] ∧ 0 ∉ name ∧ CHAR "&" ∉ name ∧ zlen name < 100;
  fs_pw : 0 ∉ pw ∧ zlen pw < 100;
  fs_sql : zlen (sql_insert name pw) < 200;
  fs_file : zlen (m_real_file (c_resp c)) = FILENAME_LEN
}.

Lemma wp_set_url c pre old rest (s : string) (Q : unit → HttpConn → Prop) :
  m_read_buf (c_req c) = pre ++ old ++ rest → m_url (c_req c) = Some (zlen pre) →
  zlen old = zlen (bytes s) + 1 →
  Q tt c{{c_req := with_buf (pre ++ (bytes s ++ [0]) ++ rest) (c_req c)}} →
  wp (set_url s) c Q.
Proof.
  intros Hb Hu Hl HQ. unfold set_url. wp_base. wp_base. rewrite Hu.
  eapply wp_on_req; [|exact HQ]. apply write_bytes_at. rewrite Hb.
  unfold put_bytes, zlen in *. rewrite !length_app. simpl length.
  rewrite (proj2 (Z.leb_le 0 _)), (proj2 (Z.leb_le _ _)) by lia. simpl.
  rewrite Nat2Z.id, take_app_length, drop_app_add. do 3 f_equal. f_equal.
  rewrite drop_app_length'; [done|]. lia.
Qed.

(** Going to another page, from any state whose buffer has room for its name. *)
Definition at_page (c : HttpConn) (s : string) : Prop :=
  string_of m_url (c_req c) = Done (bytes s) (c_req c).
Lemma wp_go_page c pre big (s : string) (Q : unit → HttpConn → Prop) :
  m_read_buf (c_req c) = pre ++ big → m_url (c_req c) = Some (zlen pre) →
  zlen (bytes s) + 1 ≤ zlen big → 0 ∉ bytes s →
  (∀ c', at_page c' s → users c' = users c → Q tt c') →
  wp (set_url s) c Q.
Proof.
  intros Hb Hu Hl H0 HQ. set (n := S (length (bytes s))).
  apply (wp_set_url c pre (take n big) (drop n big)); [by rewrite take_drop|done| |].
  { unfold zlen in *. rewrite length_take. lia. }
  apply HQ; [|done]. unfold at_page, string_of. req_step.
  change (m_url _) with (m_url (c_req c)). rewrite Hu.
  apply (string_at_at _ _ pre _ (drop n big)); [|done].
  split; [by rewrite <- !app_assoc|done].
Qed.

Lemma wp_put_any c i bs (Q : unit → HttpConn → Prop) :
  0 ≤ i ∧ i + zlen bs ≤ zlen (m_real_file (c_resp c)) →
  (∀ f, Q tt c{{c_resp := (c_resp c){{m_real_file := f}} }}) → wp (put_file i bs) c Q.
Proof.
  intros [Hi Hfit] HQ. unfold put_file. wp_base. wp_base. unfold zlen in *.
  unfold put_bytes. rewrite (proj2 (Z.leb_le 0 _)), (proj2 (Z.leb_le _ _)) by lia. simpl.
  repeat wp_base. unfold set_resp. wp_base. apply HQ.
Qed.

(** The steps both forms share: the name and the password are copied out of
    the body. *)
Lemma wp_do_cgi c pre dir k tail mid name pw rest len (Q : unit → HttpConn → Prop) :
  form_state c pre dir k tail mid name pw rest → 0 ≤ len < FILENAME_LEN →
  (∀ c', c_req c' = c_req c → users c' = users c → m_mysql c' = m_mysql c →
    wp (if k =? CHAR "3" then do_register name pw
        else if k =? CHAR "2" then do_login name pw else ret tt) c' Q) →
  wp (do_cgi (Some (zlen pre + zlen dir)) len) c Q.
Proof.
  intros [Hb Hu Hs Ht Hshort (_ & Hn0 & Hn & Hnl) (Hp & Hpl) _ Hf] Hlen HQ.
  set (url := dir ++ SLASH :: k :: tail) in *. unfold do_cgi.
  destruct url as [|u0 [|u1 utail]] eqn:Eurl.
  { by destruct dir. }
  { by destruct dir as [|? []]. }
  wp_base. wp_base. rewrite Hu. wp_base.
  eapply wp_on_req_same.
  { change 1 with (zlen [u0]). eapply (char_after _ _ [u0] u1). exact Hb. }
  wp_base. eapply wp_on_req_same.
  { eapply (string_at_at _ _ (pre ++ [u0; u1]) utail); [|set_solver].
    split; [rewrite Hb; by rewrite <- !app_assoc|rewrite zlen_app; done]. }
  assert (zlen utail = zlen dir + zlen tail) as Hul.
  { apply (f_equal length) in Eurl. unfold zlen, url in *. rewrite length_app in Eurl. simpl in Eurl. lia. }
  wp_base. unfold in_room at 1.
  rewrite (proj2 (Z.ltb_lt _ 200)) by (unfold zlen in *; rewrite length_app; simpl; lia).
  wp_base. wp_base. apply wp_put_any.
  { unfold strncpy_bytes, zlen. rewrite length_take. unfold zlen in Hf. lia. }
  intros f. set (c1 := c{{c_resp := _}}). assert (c_req c1 = c_req c) as Hc1 by done.
  wp_base. eapply wp_on_req_same.
  { rewrite Hc1. eapply (read_form_at _ (pre ++ (u0 :: u1 :: utail) ++ 0 :: mid) name pw rest); [|done..].
    rewrite Hb. by rewrite <- !app_assoc. }
  wp_base. eapply wp_on_req_same.
  { rewrite Hc1, <- zlen_app. change 1 with (zlen [SLASH]). eapply (char_after _ _ _ k).
    rewrite Hb, <- Eurl. unfold url. rewrite <- !app_assoc. simpl. done. }
  by apply HQ.
Qed.

Lemma form_room c pre dir k tail mid name pw rest :
  form_state c pre dir k tail mid name pw rest →
  ∃ big, m_read_buf (c_req c) = pre ++ big ∧ 20 ≤ zlen big.
Proof.
  intros H. destruct (fs_name _ _ _ _ _ _ _ _ _ H) as [Hn _]. eexists. split; [exact (fs_buf _ _ _ _ _ _ _ _ _ H)|].
  repeat (rewrite zlen_app || rewrite zlen_cons). change (zlen (bytes "user=")) with 5.
  change (zlen (bytes "&password=")) with 10. destruct name; [done|].
  repeat (rewrite zlen_app || rewrite zlen_cons). unfold zlen. lia.
Qed.

Lemma wp_register c pre dir tail mid name pw rest len conn (Q : unit → HttpConn → Prop) :
  form_state c pre dir (CHAR "3") tail mid name pw rest → 0 ≤ len < FILENAME_LEN →
  let old := bool_decide (is_Some (users c !! name)) in
  (old = false → m_mysql c = Some conn) →
  let inserted := h_ret (http_reply (m_calls (c_req c)) (MysqlQuery conn (sql_insert name pw))) =? 0 in
  (∀ c', at_page c' (register_page old inserted) →
    users c' = (if old then users c else <[name := pw]> (users c)) → Q tt c') →
  wp (do_cgi (Some (zlen pre + zlen dir)) len) c Q.
Proof.
  intros H Hlen old Hconn inserted HQ. destruct (form_room _ _ _ _ _ _ _ _ _ H) as (big & Hb & Hbig).
  eapply wp_do_cgi; [exact H|done|]. intros c1 Hr Hus Hm. cbn [CHAR]. change (CHAR "3" =? CHAR "3") with true.
  cbv iota. unfold do_register, in_room. wp_base.
  pose proof (fs_sql _ _ _ _ _ _ _ _ _ H) as Hsql. unfold zlen in Hsql.
  rewrite (proj2 (Z.ltb_lt _ 200)) by done. wp_base. unfold known. wp_base. wp_base. wp_base. wp_base.
  rewrite Hus. fold old. pose proof (fs_url _ _ _ _ _ _ _ _ _ H) as Hu.
  unfold register_page in HQ. destruct old.
  - eapply wp_go_page; [by rewrite Hr|by rewrite Hr| |by apply no_nul|].
    { change (zlen (bytes "/registerError.html")) with 19. lia. }
    intros c2 Hp Hu2. apply HQ; [done|by rewrite Hu2].
  - wp_base. wp_base. rewrite Hm, Hconn by done. wp_base. wp_base. wp_base. apply wp_hsys.
    wp_base. unfold set_conn. wp_base. rewrite Hr. fold inserted.
    destruct inserted.
    + eapply (wp_go_page _ pre big); [by rewrite <- Hb, <- Hr|by rewrite <- Hu, <- Hr| |by apply no_nul|].
      { change (zlen (bytes "/log.html")) with 9. lia. }
      intros c2 Hp Hu2. apply HQ; [done|]. rewrite Hu2. simpl. unfold constant. by rewrite <- Hus.
    + eapply (wp_go_page _ pre big); [by rewrite <- Hb, <- Hr|by rewrite <- Hu, <- Hr| |by apply no_nul|].
      { change (zlen (bytes "/registerError.html")) with 19. lia. }
      intros c2 Hp Hu2. apply HQ; [done|]. rewrite Hu2. simpl. unfold constant. by rewrite <- Hus.
Qed.

Lemma wp_login c pre dir tail mid name pw rest len (Q : unit → HttpConn → Prop) :
  form_state c pre dir (CHAR "2") tail mid name pw rest → 0 ≤ len < FILENAME_LEN →
  (∀ c', at_page c' (login_page (bool_decide (users c !! name = Some pw))) →
    users c' = users c → Q tt c') →
  wp (do_cgi (Some (zlen pre + zlen dir)) len) c Q.
Proof.
  intros H Hlen HQ. destruct (form_room _ _ _ _ _ _ _ _ _ H) as (big & Hb & Hbig).
  eapply wp_do_cgi; [exact H|done|]. intros c1 Hr Hus Hm. change (CHAR "2" =? CHAR "3") with false.
  change (CHAR "2" =? CHAR "2") with true. cbv iota. unfold do_login, registered.
  repeat wp_base. rewrite Hus. pose proof (fs_url _ _ _ _ _ _ _ _ _ H) as Hu.
  destruct (bool_decide _).
  - eapply wp_go_page; [by rewrite Hr|by rewrite Hr| |by apply no_nul|].
    { change (zlen (bytes "/welcome.html")) with 13. lia. }
    intros c2 Hp Hu2. apply HQ; [done|by rewrite Hu2].
  - eapply wp_go_page; [by rewrite Hr|by rewrite Hr| |by apply no_nul|].
    { change (zlen (bytes "/logError.html")) with 14. lia. }
    intros c2 Hp Hu2. apply HQ; [done|by rewrite Hu2].
Qed.

(** C35: Registering a new name leads to the login page when the database took
    the row and to the error page when it did not, and stores the password for
    the name in both cases; after it a login form with that name, on any
    connection, leads to the welcome page exactly when it has that password.
    The comment at http_conn.cpp:489 has 2 for registration and 3 for login; in
    the code, as here, a target with 3 registers and one with 2 logs in. *)
Theorem register_then_login c1 pre1 dir1 tail1 mid1 name pw1 rest1 len conn :
  form_state c1 pre1 dir1 (CHAR "3") tail1 mid1 name pw1 rest1 → 0 ≤ len < FILENAME_LEN →
  users c1 !! name = None → m_mysql c1 = Some conn →
  let inserted :=
    h_ret (http_reply (m_calls (c_req c1)) (MysqlQuery conn (sql_insert name pw1))) =? 0 in
  wp (do_cgi (Some (zlen pre1 + zlen dir1)) len) c1 (λ _ c1',
    at_page c1' (if inserted then "/log.html" else "/registerError.html") ∧
    users c1' = <[name := pw1]> (users c1) ∧
    ∀ c2 pre2 dir2 tail2 mid2 pw2 rest2, users c2 = users c1' →
      form_state c2 pre2 dir2 (CHAR "2") tail2 mid2 name pw2 rest2 →
      wp (do_cgi (Some (zlen pre2 + zlen dir2)) len) c2 (λ _ c2',
        at_page c2' (if bool_decide (pw2 = pw1) then "/welcome.html" else "/logError.html") ∧
        users c2' = users c2)).
Proof.
  intros H1 Hlen Hnew Hconn inserted.
  eapply wp_register; [exact H1|done|done|]. fold inserted.
  rewrite Hnew, bool_decide_eq_false_2 by apply is_Some_None. intros c1' Hp Hus.
  split; [exact Hp|]. split; [exact Hus|]. intros c2 pre2 dir2 tail2 mid2 pw2 rest2 Hc2 H2.
  eapply wp_login; [exact H2|done|]. rewrite Hc2, Hus, lookup_insert_eq, <- Hus, <- Hc2.
  intros c2' Hp2 Hus2.
  split; [|exact Hus2].
  rewrite (bool_decide_ext (pw2 = pw1) (Some pw1 = Some pw2)) by naive_solver. exact Hp2.
Qed.
End props.
