(* ===== verification/HttpWitness.v ===== *)
(** The theorems on [HttpConn] at concrete requests. *)
From stdpp Require Import gmap list pretty.
From coqutil Require Import Datatypes.RecordSetters.
From S2P Require Import Prelude HttpModel HttpParse HttpResponse HttpWrite.
From S2P Require Import HttpParseProps HttpLineProps HttpWriteProps HttpRequestProps HttpFormProps.

(** A system whose files are readable and have 100 bytes, that takes all the
    bytes it is offered, and from which two bytes can be read first. *)
Definition reply (z : Z) : hreply := HReply z EAGAIN [] (StatT (32768 + S_IROTH) 100) [].
#[local] Instance demo_os : HttpOS := {|
  http_reply tr k :=
    match k with
    | Writev _ vecs => reply (Z.of_nat (length (concat vecs)))
    | Recv _ n => if (length tr =? 0)%nat && (2 <=? n) then HReply 2 0 [71; 69] (StatT 0 0) [] else reply (-1)
    | OpenRead _ => reply 7
    | Mmap _ _ => reply 4096
    | _ => reply 0
    end;
  file_bytes _ n := replicate (Z.to_nat n) 65
|}.

(** A request with [text] in its buffer. *)
Definition request_of (text : list Z) : request :=
  Request (text ++ replicate (2048 - length text) 0) (zlen text) 0 0 CHECK_STATE_REQUESTLINE GET
    None None None 0 false 0 None 1 [].
Definition conn_of (r : request) : HttpConn :=
  Conn r (Response (replicate 1024 0) 0 (replicate 200 0) None (StatT 0 100) (Iovec IovNone 0)
            (Iovec IovNone 0) None 0 0)
    5 [] (Some 9) (Some 0) (bytes "/srv/root") 0 0 0 [] [] [] 3 1 ∅.

Definition get_line : list Z := bytes "GET /a.html HTTP/1.1".
Definition whole : list Z := get_line ++ [CR; LF].
Definition part : request := request_of (bytes "GET /a.h").

Lemma parse_line_resume_witness :
  let whole_buf := whole ++ replicate (2048 - length whole) 0 in
  let part1 := set_checked 8 part in
  req_ok part ∧ parse_line 9 part = Done LINE_OPEN part1 ∧ extends part whole_buf (zlen whole) ∧
  parse_line 23 (receive whole_buf (zlen whole) part1)
    = parse_line 30 (receive whole_buf (zlen whole) part).
Proof.
  intros wb part1. assert (req_ok part) as Hok by (vm_compute; intuition discriminate).
  assert (parse_line 9 part = Done LINE_OPEN part1) as H1 by by vm_compute.
  assert (extends part wb (zlen whole)) as Hext by (vm_compute; intuition discriminate).
  split; [exact Hok|]. split; [exact H1|]. split; [exact Hext|].
  apply (parse_line_resume 9 23 30 part part1 wb (zlen whole)); try done.
  - apply Nat.ltb_lt. by vm_compute.
  - apply Nat.ltb_lt. by vm_compute.
  - apply Nat.ltb_lt. by vm_compute.
Defined.

Lemma get_line_no_stop b : b ∈ get_line → stops b = false.
Proof.
  intros Hb. assert (forallb (λ b, negb (stops b)) get_line = true) as H by by vm_compute.
  rewrite forallb_forall in H. apply negb_true_iff, H, list_elem_of_In, Hb.
Qed.
Lemma process_whole_line_witness :
  let c := conn_of (request_of (whole ++ [CR; LF])) in
  req_ok (c_req c) ∧ unread (c_req c) = get_line ++ CR :: LF :: [CR; LF] ∧ process 30 c = Undef.
Proof.
  intros c. assert (req_ok (c_req c)) as Hok by (vm_compute; intuition discriminate).
  assert (unread (c_req c) = get_line ++ CR :: LF :: [CR; LF]) as Hu by by vm_compute.
  split; [exact Hok|]. split; [exact Hu|].
  apply (process_whole_line 30 c get_line [CR; LF]); [exact Hok|done|exact Hu| |].
  - apply get_line_no_stop.
  - rewrite Hu. apply Nat.ltb_lt. by vm_compute.
Defined.

(** Words, checked. *)
Lemma word_dec s : forallb (λ c, negb (c =? 0) && negb (c =? SP) && negb (c =? TAB)) s = true → word s.
Proof.
  rewrite forallb_forall. intros H c Hc. specialize (H c (proj1 (list_elem_of_In _ _) Hc)).
  rewrite !andb_true_iff, !negb_true_iff, !Z.eqb_neq in H. unfold is_blank, blanks.
  split; [tauto|]. intros [->|[->|[]%not_elem_of_nil]%elem_of_cons]%elem_of_cons; tauto.
Qed.
Lemma blank_sp : is_blank SP.
Proof. by left. Qed.

Definition demo_parts : line_parts := LineParts (bytes "get") SP [] (bytes "/a.html") SP [SP] (bytes "HTTP/1.1").
Lemma demo_parts_ok : line_ok demo_parts.
Proof.
  constructor; simpl.
  - by apply word_dec.
  - apply blank_sp.
  - by intros c ?%not_elem_of_nil.
  - exists (bytes "a.html"). split; [done|]. split; [done|by apply word_dec].
  - apply blank_sp.
  - intros c ->%list_elem_of_singleton. apply blank_sp.
  - by apply word_dec.
  - done.
Qed.
Lemma parse_request_line_get_witness :
  line_ok demo_parts ∧
  ∃ r', parse_request_line (Some 0) (request_of (print_line demo_parts)) = Done NO_REQUEST r' ∧
    m_check_state r' = CHECK_STATE_HEADER ∧ m_method r' = GET ∧ m_cgi r' = 0 ∧
    string_of m_url r' = Done (bytes "/a.html") r' ∧ string_of m_version r' = Done (bytes "HTTP/1.1") r'.
Proof.
  split; [apply demo_parts_ok|].
  apply (parse_request_line_get (request_of (print_line demo_parts)) [] demo_parts (replicate 2026 0));
    [by vm_compute|apply demo_parts_ok|done].
Defined.

Lemma parse_request_line_method_witness :
  word (bytes "POST") ∧
  ∃ r', parse_request_line (Some 0) (request_of (bytes "POST /3 HTTP/1.1")) = Done BAD_REQUEST r'.
Proof.
  split; [by apply word_dec|].
  apply (parse_request_line_method (request_of (bytes "POST /3 HTTP/1.1")) [] (bytes "POST") SP
    (bytes "/3 HTTP/1.1" ++ replicate 2032 0)); [by vm_compute|by apply word_dec|apply blank_sp|done|done].
Defined.

Definition demo_conn : HttpConn := conn_of (request_of []).
Lemma demo_conn_holds : holds (c_resp demo_conn) [].
Proof. split_and!; try done. apply not_elem_of_nil. Qed.


Lemma file_not_sent_witness :
  holds (c_resp demo_conn) [] ∧
  wp (process_write FILE_REQUEST) demo_conn (λ ok c1, ok = true ∧ write 5 c1 = Undef).
Proof.
  split; [apply demo_conn_holds|].
  eapply wp_mono; [apply (file_not_sent demo_conn demo_conn_holds); simpl; lia|].
  intros ok c1 (Hok & _ & _ & _ & _ & H & _). split; [exact Hok|]. by apply H.
Defined.

Definition asked (url : list Z) : HttpConn :=
  conn_of ((request_of (url ++ [0])){{m_url := Some 0}}).
Lemma do_request_static_witness :
  wp do_request (asked (bytes "/x/5")) (λ code c', code = FILE_REQUEST ∧
    m_calls (c_req c') = [Stat (bytes "/srv/root/picture.html"); OpenRead (bytes "/srv/root/picture.html");
      Mmap 7 100; CloseFd 7]).
Proof.
  eapply wp_mono; [apply (do_request_static (asked (bytes "/x/5")) (bytes "/srv/root") [] (bytes "/x") (bytes "5")
    (replicate 2043 0)); try done; try (by apply no_nul);
    intros H%list_elem_of_In; vm_compute in H; intuition discriminate|].
  intros code c' [Hc Hk]. split; [rewrite Hc; by vm_compute|rewrite Hk; by vm_compute].
Defined.

(** Two bytes are stored; in the edge-triggered mode the next [recv] says that
    there is no more. *)
Lemma read_once_stores_witness :
  recv_ok ∧ buffer_ok (c_req demo_conn) ∧
  wp (read_once 2049) demo_conn (λ ok c', ok = true ∧ m_read_idx (c_req c') = 2) ∧
  wp (read_once 2049) demo_conn{{m_trig_mode := Some 1}} (λ ok c', reads_all demo_conn{{m_trig_mode := Some 1}} ok c').
Proof.
  assert (recv_ok) as Hr.
  { intros tr fd n Hn. simpl. destruct (_ && _) eqn:E; [right|by left].
    apply andb_true_iff in E as [_ E%Z.leb_le]. split; [simpl; lia|done]. }
  assert (buffer_ok (c_req demo_conn)) as Hb by (by vm_compute).
  split; [exact Hr|]. split; [exact Hb|]. split.
  - eapply wp_mono; [apply (read_once_stores 2049 demo_conn 0); [exact Hr|exact Hb|reflexivity|apply Nat.ltb_lt; by vm_compute]|].
    intros ok c' (-> & -> & _). by vm_compute.
  - eapply wp_mono; [apply (read_once_stores 2049 demo_conn{{m_trig_mode := Some 1}} 1);
      [exact Hr|exact Hb|reflexivity|apply Nat.ltb_lt; by vm_compute]|].
    intros ok c' [Hall _]. exact Hall.
Defined.

(** A form for user Al with password pw. *)
Definition form (k : string) (us : gmap (list Z) (list Z)) : HttpConn :=
  let body := bytes "user=Al&password=pw" in
  let c := conn_of ((request_of ((bytes "/" ++ bytes k) ++ 0 :: [32] ++ body ++ [0])){{m_url := Some 0;
                     m_string := Some 4}}) in
  c{{users := us}}.
Lemma demo_form k us : (k = "2" ∨ k = "3")%string →
  form_state (form k us) [] [] (CHAR k) [] [32] (bytes "Al") (bytes "pw") (replicate 2024 0).
Proof.
  intros Hk. constructor.
  - by destruct Hk as [->| ->]; vm_compute.
  - done.
  - done.
  - by destruct Hk as [->| ->]; apply no_nul.
  - done.
  - split; [done|]. split; [by apply no_nul|]. split; [|done].
    intros H. apply list_elem_of_In in H. vm_compute in H. intuition discriminate.
  - split; [by apply no_nul|done].
  - done.
  - done.
Qed.
Lemma register_then_login_witness :
  form_state (form "3" ∅) [] [] (CHAR "3") [] [32] (bytes "Al") (bytes "pw") (replicate 2024 0) ∧
  wp (do_cgi (Some 0) 9) (form "3" ∅) (λ _ c1', at_page c1' "/log.html" ∧
    wp (do_cgi (Some 0) 9) (form "2" (users c1')) (λ _ c2', at_page c2' "/welcome.html")).
Proof.
  split; [apply demo_form; by right|].
  eapply wp_mono; [apply (register_then_login (form "3" ∅) [] [] [] [32] (bytes "Al") (bytes "pw")
    (replicate 2024 0) 9 9); [apply demo_form; by right|done|done|done]|].
  intros ? c1' (Hp & Hus & H). split; [exact Hp|].
  eapply wp_mono; [apply (H (form "2" (users c1')) [] [] [] [32] (bytes "pw") (replicate 2024 0));
    [done|apply demo_form; by left]|].
  intros ? c2' [Hp2 _]. rewrite bool_decide_eq_true_2 in Hp2 by done. exact Hp2.
Defined.
