(* ===== verification/WebServer.v ===== *)
(** The server of src/TinyWebServer: class [WebServer] (webserver.cpp), the
    system calls of [Utils] (timer/lst_timer.cpp), [Config] and [main]
    (config.cpp, main.cpp), put together from the models of the timers, the
    connections, the thread pool and the connection pool. *)
From stdpp Require Import gmap list pretty.
From coqutil Require Import Datatypes.RecordSetters.
From S2P Require Import Prelude CppHeap Timer HttpModel HttpParse HttpResponse HttpWrite.
From S2P Require Import Threads ThreadPool ConnectionPool.
Export RecordSetters.DoubleBraceUpdate.
#[global] Open Scope Z_scope.

Definition MAX_FD : Z := 65536.
Definition MAX_EVENT_NUMBER : Z := 10000.
Definition EPOLLERR : Z := 8.
Definition EPOLLHUP : Z := 16.
Definition EINTR : Z := 4.
Definition SIGPIPE : Z := 13.
Definition SIGALRM : Z := 14.
Definition SIGTERM : Z := 15.

(** The calls of the server: those of the connection in [users[i]], of the
    timers' callback, and its own. *)
Inductive scall :=
| ConnCall (i : Z) (c : hcall) | TimerCall (c : conn_call) | Sys (c : hcall)
| Getcwd (size : Z)
| Socket | SetLinger (fd onoff linger : Z) | SetReuseAddr (fd flag : Z) | Bind (fd port : Z)
| Listen (fd backlog : Z) | EpollCreate (size : Z) | SocketPair
| Sigaction (sig : Z) (ignore restart : bool) | AlarmIn (seconds : Z)
| Accept (fd : Z) | EpollWait (epfd n : Z) | RecvSignals (fd n : Z) | Time | Send (fd : Z) (text : list Z)
| Workers | LogInit (path : list Z) (close_log buf_size split_lines max_queue_size : Z).

(** What a call gives back: its value, [errno], the bytes it delivers, the
    events of [epoll_wait], the descriptors of [socketpair]. *)
Record sreply := SReply {
  s_ret : Z;
  s_errno : Z;
  s_bytes : list Z;
  s_events : list (Z * Z);
  s_pair : Z * Z
}.

(** The system, seen by the server and by its connections: any function of what
    happened before. What it answers to [Workers] is how many requests the
    worker threads finish at that moment. *)
Class ServerOS := {
  server_reply : list scall → scall → sreply;
  server_http : list scall → HttpOS
}.

(** [WebServer], with what the classes share: the static members of [HttpConn]
    and [Utils], and the calls made so far. *)
Record WebServer := Server {
  w_port : Z;
  w_root : list Z;
  w_log_write : Z;
  w_close_log : Z;
  w_actor_mode : Z;
  w_pipe_fd0 : Z;
  w_pipe_fd1 : Z;
  w_epoll_fd : Z;
  w_users : Z → HttpConn;
  w_names : gmap (list Z) (list Z);
  w_conn_pool : ConnectionPool;
  w_user : list Z;
  w_password : list Z;
  w_database_name : list Z;
  w_sql_num : Z;
  w_pool : option ThreadPool;
  w_thread_num : Z;
  w_listen_fd : Z;
  w_opt_linger : Z;
  w_trig_mode : Z;
  w_listen_trig_mode : Z;
  w_conn_trig_mode : Z;
  w_timers : SortTimeLst;
  w_timeslot : Z;
  w_trace : list scall
}.
Definition WM := M WebServer.
Definition set_server (f : WebServer → WebServer) : WM unit := modify f.
Definition trace_more (cs : list scall) (s : WebServer) : WebServer := s{{w_trace := w_trace s ++ cs}}.

(** A failed [assert], an exception that is not caught. *)
Definition abort_ {A} : WM A := exit 134.
Definition assert_ (b : bool) : WM unit := if b then ret tt else abort_.

Section calls.
Context `{ServerOS}.

Definition sys (c : scall) : WM sreply :=
  tr ← gets w_trace; modify (trace_more [c]);; ret (server_reply tr c).
Definition sdo (c : scall) : WM unit := modify (trace_more [c]).
(** [time(NULL)] *)
Definition time_now : WM Z := r ← sys Time; ret (s_ret r).
(** [LOG_INFO], [LOG_ERROR] *)
Definition slog (c : hcall) : WM unit :=
  off ← gets w_close_log; whenM (off =? 0) (sdo (Sys c)).

(** A method of [users[i]], which must be inside the array. The static members
    are those of the server. *)
Definition load_conn (s : WebServer) (i : Z) : HttpConn :=
  let c := w_users s i in
  c{{c_req := (c_req c){{m_calls := [] }} }}{{HttpModel.m_epoll_fd := w_epoll_fd s}}
   {{HttpModel.m_user_count := Timer.m_user_count (w_timers s)}}{{HttpModel.users := w_names s}}.
Definition set_user_count (n : Z) (t : SortTimeLst) : SortTimeLst :=
  Timers (tl_head t) (tl_tail t) (tl_heap t) (client_data t) n (conn_calls t).
Definition store_conn (s : WebServer) (i : Z) (c : HttpConn) : WebServer :=
  trace_more (ConnCall i <$> m_calls (c_req c))
    s{{w_users := λ j, if j =? i then c else w_users s j}}{{w_names := HttpModel.users c}}
     {{w_timers := set_user_count (HttpModel.m_user_count c) (w_timers s)}}.
Definition on_conn {A} (i : Z) (m : HttpOS → Http A) : WM A := λ s,
  if (0 <=? i) && (i <? MAX_FD) then
    match m (server_http (w_trace s)) (load_conn s i) with
    | Done a c => Done a (store_conn s i c)
    | Undef => Undef
    | OutOfFuel c => OutOfFuel (store_conn s i c)
    | Exited code c => Exited code (store_conn s i c)
    end
  else Undef.

(** A method of [utils.m_timer_lst]. *)
Definition store_timers (s : WebServer) (t : SortTimeLst) : WebServer :=
  trace_more (TimerCall <$> drop (length (conn_calls (w_timers s))) (conn_calls t)) s{{w_timers := t}}.
Definition on_timers {A} (m : TM A) : WM A := λ s,
  match m (w_timers s) with
  | Done a t => Done a (store_timers s t)
  | Undef => Undef
  | OutOfFuel t => OutOfFuel (store_timers s t)
  | Exited code t => Exited code (store_timers s t)
  end.

(** The part of a method of [m_pool] or of [m_conn_pool] that holds its lock. *)
Definition on_pool {A} (m : PM A) : WM A := λ s,
  match w_pool s with
  | None => Undef
  | Some p =>
      match m p with
      | Done a p => Done a s{{w_pool := Some p}}
      | Undef => Undef
      | OutOfFuel p => OutOfFuel s{{w_pool := Some p}}
      | Exited code p => Exited code s{{w_pool := Some p}}
      end
  end.
Definition on_conn_pool {A} (m : CM A) : WM A := λ s,
  match m (w_conn_pool s) with
  | Done a p => Done a s{{w_conn_pool := p}}
  | Undef => Undef
  | OutOfFuel p => OutOfFuel s{{w_conn_pool := p}}
  | Exited code p => Exited code s{{w_conn_pool := p}}
  end.
End calls.

(** * [Utils] *)

Section utils.
Context `{ServerOS}.

Definition utils_set_nonblocking (fd : Z) : WM Z :=
  old ← sys (Sys (FcntlGet fd));
  let old_option := s_ret old in
  let new_option := Z.lor old_option O_NONBLOCK in
  sdo (Sys (FcntlSet fd new_option));;
  ret old_option.

Definition utils_addfd (epoll_fd fd : Z) (one_shot : bool) (trig_mode : Z) : WM unit :=
  let events := if trig_mode =? 1 then Z.lor (Z.lor EPOLLIN EPOLLET) EPOLLRDHUP
                else Z.lor EPOLLIN EPOLLRDHUP in
  let events := if one_shot then Z.lor events EPOLLONESHOT else events in
  sdo (Sys (EpollCtlAdd epoll_fd fd events));;
  _ ← utils_set_nonblocking fd;
  ret tt.

(** [sig_handler(sig)] sends the signal's low byte through the pipe. *)
Definition sig_handler (sig : Z) : WM unit :=
  fd ← gets w_pipe_fd1; sdo (Send fd [sig mod 256]).

Definition addsig (sig : Z) (ignore restart : bool) : WM unit :=
  r ← sys (Sigaction sig ignore restart); assert_ (negb (s_ret r =? -1)).

Definition time_handler (fuel : nat) : WM unit :=
  cur ← time_now; on_timers (tick fuel cur);;
  t ← gets w_timeslot; sdo (AlarmIn t).

Definition show_error (conn_fd : Z) (info : list Z) : WM unit :=
  sdo (Send conn_fd info);; sdo (Sys (HttpModel.CloseFd conn_fd)).
End utils.

(** * [WebServer]: set up *)

Section setup.
Context `{ServerOS, MySQL}.

(** [WebServer()]: what was there before stays in the members it does not set;
    the [HttpConn]s of [new HttpConn[MAX_FD]] have no value for [m_trig_mode];
    [getcwd] into 200 bytes. *)
Definition WebServer_new : WM unit :=
  set_server (λ s, s{{w_users := λ i, (w_users s i){{m_trig_mode := None}} }});;
  r ← sys (Getcwd 200);
  if Z.of_nat (length (s_bytes r)) <? 200 then
    set_server (λ s, s{{w_root := s_bytes r ++ bytes "/root"}});;
    on_timers SortTimeLst_new;;
    set_server (λ s, s{{w_conn_pool := ConnectionPool_new}}{{w_pool := None}})
  else undef.

(** [~WebServer()] *)
Definition WebServer_delete (fuel : nat) : WM unit :=
  ep ← gets w_epoll_fd; sdo (Sys (HttpModel.CloseFd ep));;
  lf ← gets w_listen_fd; sdo (Sys (HttpModel.CloseFd lf));;
  p1 ← gets w_pipe_fd1; sdo (Sys (HttpModel.CloseFd p1));;
  p0 ← gets w_pipe_fd0; sdo (Sys (HttpModel.CloseFd p0));;
  set_server (λ s, s{{w_pool := None}});;
  on_timers (SortTimeLst_delete fuel).

Definition server_init (port : Z) (user password database_name : list Z)
    (log_write opt_linger trig_mode sql_num thread_num close_log actor_mode : Z) : WM unit :=
  set_server (λ s, s{{w_port := port; w_opt_linger := opt_linger; w_trig_mode := trig_mode;
    w_actor_mode := actor_mode; w_user := user; w_password := password;
    w_database_name := database_name; w_sql_num := sql_num; w_thread_num := thread_num;
    w_log_write := log_write; w_close_log := close_log}}).

(** C's division and remainder. *)
Definition trig_mode : WM unit :=
  set_server (λ s, s{{w_listen_trig_mode := Z.quot (w_trig_mode s) 2;
                      w_conn_trig_mode := Z.rem (w_trig_mode s) 2}}).

Definition log_write : WM unit :=
  off ← gets w_close_log;
  whenM (off =? 0)
    (lw ← gets w_log_write;
     if lw =? 1 then sdo (LogInit (bytes "./ServerLog") off 2000 800000 800)
     else sdo (LogInit (bytes "./ServerLog") off 2000 800000 0)).

(** A [ConnectionRAII] and its scope, in one thread; a connection is its
    address. *)
Definition with_connection {A} (body : option Z → WM A) : WM A :=
  pc ← on_conn_pool (check_size 0);
  match pc with
  | C_sem _ =>
      _ ← on_conn_pool (use_reserve (C_wait 0));
      pc ← on_conn_pool (take_conn 0);
      match pc with
      | C_unlock conn _ =>
          a ← body (Some (Zpos conn)); _ ← on_conn_pool (put_conn conn 0);
          _ ← on_conn_pool (use_reserve (C_post 0)); ret a
      | _ => undef
      end
  | _ => body None
  end.

Definition sql_pool : WM unit :=
  n ← gets w_sql_num;
  _ ← on_conn_pool (ConnectionPool.init n);
  with_connection (λ mysql, on_conn 0 (λ OS, init_mysql_result mysql)).

Definition thread_pool : WM unit :=
  n ← gets w_thread_num;
  slog (LogInfo (bytes "ThreadPool<HttpConn>(m_thread_num: " ++ decimal n ++ bytes ")"));;
  a ← gets w_actor_mode;
  match ThreadPool_new a n 10 ∅ with
  | inl (p, _) => set_server (λ s, s{{w_pool := Some p}})
  | inr _ => abort_
  end.

Definition event_listen : WM unit :=
  r ← sys Socket; set_server (λ s, s{{w_listen_fd := s_ret r}});;
  fd ← gets w_listen_fd; assert_ (fd >=? 0);;
  l ← gets w_opt_linger;
  (if l =? 0 then sdo (SetLinger fd 0 1) else whenM (l =? 1) (sdo (SetLinger fd 1 1)));;
  sdo (SetReuseAddr fd 1);;
  port ← gets w_port;
  r ← sys (Bind fd port); assert_ (s_ret r >=? 0);;
  r ← sys (Listen fd 5); assert_ (s_ret r >=? 0);;
  set_server (λ s, s{{w_timeslot := TIMESLOT}});;
  r ← sys (EpollCreate 5); set_server (λ s, s{{w_epoll_fd := s_ret r}});;
  ep ← gets w_epoll_fd; assert_ (negb (ep =? -1));;
  mode ← gets w_listen_trig_mode; utils_addfd ep fd false mode;;
  r ← sys SocketPair; assert_ (negb (s_ret r =? -1));;
  set_server (λ s, s{{w_pipe_fd0 := (s_pair r).1; w_pipe_fd1 := (s_pair r).2}});;
  p1 ← gets w_pipe_fd1; _ ← utils_set_nonblocking p1;
  p0 ← gets w_pipe_fd0; utils_addfd ep p0 false 0;;
  addsig SIGPIPE true true;;
  addsig SIGALRM false false;;
  addsig SIGTERM false false;;
  sdo (AlarmIn TIMESLOT).
End setup.

(** * [WebServer]: the timers and the requests *)

Section serving.
Context `{ServerOS, Allocator}.

(** [timer(conn_fd, client_address)] *)
Definition server_conn_timer (fuel : nat) (conn_fd : Z) (client_address : list Z) : WM unit :=
  s ← gets id;
  on_conn conn_fd (λ OS, init_conn conn_fd client_address (w_root s) (w_conn_trig_mode s)
    (w_close_log s) (w_user s) (w_password s) (w_database_name s));;
  cur ← time_now;
  on_timers (server_timer fuel cur conn_fd).

Definition adjust_conn_timer (fuel : nat) (timer : ptr) : WM unit :=
  cur ← time_now;
  on_timers (server_adjust_timer fuel cur timer);;
  slog (LogInfo (bytes "adjust timer")).

Definition del_conn_timer (timer : ptr) (fd : Z) : WM unit :=
  on_timers (server_del_timer timer fd);;
  c ← gets (λ s, client_data (w_timers s) !! fd); c ← need c;
  slog (LogInfo (bytes "close fd " ++ decimal (Timer.sockfd c))).

(** The address of [users[fd]], and back. *)
Definition conn_ptr (fd : Z) : ptr := Some (Z.to_pos (fd + 1)).
Definition conn_index (l : loc) : Z := Zpos l - 1.

(** [m_pool->append_p(users + fd)] and [m_pool->append(users + fd, state)],
    which ends without a value when it did append. *)
Definition pool_append_p (fd : Z) : WM bool :=
  pc ← on_pool (push_request (AppendP (conn_ptr fd)) []);
  ret (match pc with P_unlock_full _ => false | _ => true end).
Definition pool_append (fd state : Z) : WM bool :=
  pc ← on_pool (push_request (Append (conn_ptr fd) state) []);
  match pc with
  | P_unlock_full _ => ret false
  | _ => on_conn fd (λ OS, set_conn (λ c, c{{HttpModel.m_state := state}}));; undef
  end.

(** One request of the queue, in a worker of the pool: [ThreadPool::run] for
    the connections, between two waits for the semaphore. *)
Definition set_conn_improv (fd v : Z) : WM unit :=
  on_conn fd (λ OS, set_conn (λ c, c{{HttpModel.m_improv := v}})).
Definition set_conn_timer_flag (fd v : Z) : WM unit :=
  on_conn fd (λ OS, set_conn (λ c, c{{HttpModel.m_timer_flag := v}})).
Definition process_conn (fuel : nat) (fd : Z) : WM unit :=
  with_connection (λ mysql,
    on_conn fd (λ OS, set_conn (λ c, c{{m_mysql := mysql}}));;
    on_conn fd (λ OS, process fuel)).
Definition run_conn (fuel : nat) (fd : Z) : WM unit :=
  a ← gets w_actor_mode;
  if a =? 1 then
    st ← on_conn fd (λ OS, gets HttpModel.m_state);
    if st =? 0 then
      ok ← on_conn fd (λ OS, read_once fuel);
      if ok : bool then set_conn_improv fd 1;; process_conn fuel fd
      else set_conn_improv fd 1;; set_conn_timer_flag fd 1
    else
      ok ← on_conn fd (λ OS, write fuel);
      if ok : bool then set_conn_improv fd 1
      else set_conn_improv fd 1;; set_conn_timer_flag fd 1
  else process_conn fuel fd.
Definition worker_step (fuel : nat) : WM unit :=
  pc ← on_pool take_request;
  match pc with
  | W_unlock (Some l) => run_conn fuel (conn_index l)
  | _ => ret tt
  end.
Fixpoint worker_steps (fuel : nat) (n : nat) : WM unit :=
  match n with
  | O => ret tt
  | S n => worker_step fuel;; worker_steps fuel n
  end.
(** The workers finish some requests. *)
Definition workers (fuel : nat) : WM unit :=
  r ← sys Workers; worker_steps fuel (Z.to_nat (s_ret r)).

(** * [WebServer]: the events *)

(** What is common to the two ways to accept: [inl] goes on. *)
Definition busy (conn_fd : Z) : WM unit :=
  show_error conn_fd (bytes "Internal server busy");;
  slog (LogError (bytes "Internal server busy")).
Definition user_count : WM Z := gets (λ s, Timer.m_user_count (w_timers s)).

Definition deal_client_data (fuel : nat) : WM bool :=
  mode ← gets w_listen_trig_mode; lf ← gets w_listen_fd;
  if mode =? 0 then
    r ← sys (Accept lf);
    let conn_fd := s_ret r in
    if conn_fd <? 0 then
      slog (LogError (bytes "accept error:errno is:" ++ decimal (s_errno r)));; ret false
    else
    n ← user_count;
    if n >=? MAX_FD then busy conn_fd;; ret false else
    server_conn_timer fuel conn_fd (s_bytes r);;
    ret true
  else
    loop fuel (λ _,
      r ← sys (Accept lf);
      let conn_fd := s_ret r in
      if conn_fd =? -1 then
        if s_errno r =? EAGAIN then ret (inr false)
        else slog (LogError (bytes "Accept error: "));; ret (inr false)
      else
      n ← user_count;
      if n >=? MAX_FD then busy conn_fd;; ret (inr false) else
      server_conn_timer fuel conn_fd (s_bytes r);;
      ret (inl tt)) tt.

(** The flags [timeout] and [stop_server] after the signals that were received. *)
Fixpoint signal_flags (sigs : list Z) (flags : bool * bool) : bool * bool :=
  match sigs with
  | [] => flags
  | sig :: sigs =>
      signal_flags sigs (if sig =? SIGALRM then (true, flags.2)
                         else if sig =? SIGTERM then (flags.1, true) else flags)
  end.
Definition deal_with_signal (flags : bool * bool) : WM (bool * (bool * bool)) :=
  p0 ← gets w_pipe_fd0;
  r ← sys (RecvSignals p0 1024);
  if (s_ret r =? -1) || (s_ret r =? 0) then ret (false, flags)
  else ret (true, signal_flags (s_bytes r) flags).

Definition timer_of (fd : Z) : WM ptr :=
  c ← gets (λ s, client_data (w_timers s) !! fd); c ← need c; ret (Timer.timer c).

Definition deal_with_read (fuel : nat) (fd : Z) : WM unit :=
  timer ← timer_of fd;
  a ← gets w_actor_mode;
  if a =? 1 then
    whenM (non_null timer) (adjust_conn_timer fuel timer);;
    _ ← pool_append fd 0;
    loop fuel (λ _,
      workers fuel;;
      v ← on_conn fd (λ OS, gets HttpModel.m_improv);
      if v =? 1 then
        flag ← on_conn fd (λ OS, gets HttpModel.m_timer_flag);
        if flag =? 1 then del_conn_timer timer fd;; set_conn_timer_flag fd 0;; ret (inl tt)
        else set_conn_improv fd 0;; ret (inr tt)
      else ret (inl tt)) tt
  else
    ok ← on_conn fd (λ OS, read_once fuel);
    if ok : bool then
      addr ← on_conn fd (λ OS, get_address);
      slog (LogInfo (bytes "deal with the client(" ++ addr ++ bytes ")"));;
      _ ← pool_append_p fd;
      whenM (non_null timer) (adjust_conn_timer fuel timer)
    else del_conn_timer timer fd.

(** What follows the comment [proactor] is in no [else]. *)
Definition deal_with_write (fuel : nat) (fd : Z) : WM unit :=
  timer ← timer_of fd;
  a ← gets w_actor_mode;
  whenM (a =? 1)
    (whenM (non_null timer) (adjust_conn_timer fuel timer);;
     _ ← pool_append fd 1;
     loop fuel (λ _,
       workers fuel;;
       v ← on_conn fd (λ OS, gets HttpModel.m_improv);
       if v =? 1 then
         flag ← on_conn fd (λ OS, gets HttpModel.m_timer_flag);
         whenM (negb (flag =? 0)) (del_conn_timer timer fd;; set_conn_timer_flag fd 0);;
         set_conn_improv fd 0;; ret (inr tt)
       else ret (inl tt)) tt);;
  ok ← on_conn fd (λ OS, write fuel);
  if ok : bool then
    addr ← on_conn fd (λ OS, get_address);
    slog (LogInfo (bytes "send data to the client(" ++ addr ++ bytes ")"));;
    whenM (non_null timer) (adjust_conn_timer fuel timer)
  else del_conn_timer timer fd.

Definition has (mask bits : Z) : bool := negb (Z.land mask bits =? 0).
(** The body of the loop over the events. *)
Definition deal_event (fuel : nat) (fd mask : Z) (flags : bool * bool) : WM (bool * bool) :=
  lf ← gets w_listen_fd; p0 ← gets w_pipe_fd0;
  if fd =? lf then _ ← deal_client_data fuel; ret flags
  else if has mask (Z.lor (Z.lor EPOLLRDHUP EPOLLHUP) EPOLLERR) then
    timer ← timer_of fd; del_conn_timer timer fd;; ret flags
  else if (fd =? p0) && has mask EPOLLIN then
    '(ok, flags) ← deal_with_signal flags;
    whenM (negb ok) (slog (LogError (bytes "dealclientdata failure")));;
    ret flags
  else if has mask EPOLLIN then deal_with_read fuel fd;; ret flags
  else if has mask EPOLLOUT then deal_with_write fuel fd;; ret flags
  else ret flags.
Fixpoint deal_events (fuel : nat) (events : list (Z * Z)) (flags : bool * bool) : WM (bool * bool) :=
  match events with
  | [] => ret flags
  | (fd, mask) :: events => flags ← deal_event fuel fd mask flags; deal_events fuel events flags
  end.

(** The body of [event_loop]: [timeout] and [stop_server] are carried round. *)
Definition event_round (fuel : nat) (flags : bool * bool) : WM ((bool * bool) + unit) :=
  if flags.2 : bool then ret (inr tt) else
  workers fuel;;
  ep ← gets w_epoll_fd;
  r ← sys (EpollWait ep MAX_EVENT_NUMBER);
  if (s_ret r <? 0) && negb (s_errno r =? EINTR) then
    slog (LogError (bytes "epoll failure"));; ret (inr tt)
  else
  flags ← deal_events fuel (if s_ret r <? 0 then [] else s_events r) flags;
  if flags.1 : bool then
    time_handler fuel;; slog (LogInfo (bytes "timer tick"));; ret (inl (false, flags.2))
  else ret (inl flags).
(** [rounds]: of the event loop; [fuel]: of the loops inside it. *)
Definition event_loop (rounds fuel : nat) : WM unit :=
  loop rounds (event_round fuel) (false, false).
End serving.

(** * [Config] and [main] *)

Record Config := Conf {
  f_port : Z; f_log_write : Z; f_trig_mode : Z; f_listen_trig_mode : Z; f_conn_trig_mode : Z;
  f_opt_linger : Z; f_sql_num : Z; f_thread_num : Z; f_close_log : Z; f_actor_mode : Z
}.
Definition Config_new : Config := Conf 9006 0 0 0 0 0 8 8 0 0.

(** One option, with its argument's bytes and their NUL; [atoi] is [strtol] and a
    conversion. *)
Definition parse_opt (opt : Z) (optarg : list Z) (c : Config) : option Config :=
  let num (f : Z → Config) := (λ z, f (to_int z)) <$> atol optarg in
  if opt =? CHAR "p" then num (λ z, c{{f_port := z}})
  else if opt =? CHAR "l" then num (λ z, c{{f_log_write := z}})
  else if opt =? CHAR "m" then num (λ z, c{{f_trig_mode := z}})
  else if opt =? CHAR "o" then num (λ z, c{{f_opt_linger := z}})
  else if opt =? CHAR "s" then num (λ z, c{{f_sql_num := z}})
  else if opt =? CHAR "t" then num (λ z, c{{f_thread_num := z}})
  else if opt =? CHAR "c" then num (λ z, c{{f_close_log := z}})
  else if opt =? CHAR "a" then num (λ z, c{{f_actor_mode := z}})
  else Some c.
(** The options that [getopt] finds, in turn. *)
Fixpoint parse_arg (opts : list (Z * list Z)) (c : Config) : option Config :=
  match opts with
  | [] => Some c
  | (opt, optarg) :: opts => c ← parse_opt opt optarg c; parse_arg opts c
  end%stdpp.

Definition web_main `{ServerOS, Allocator, MySQL} (rounds fuel : nat) (opts : list (Z * list Z)) : WM Z :=
  config ← need (parse_arg opts Config_new);
  WebServer_new;;
  server_init (f_port config) (bytes "wh") (bytes "The_Beat1es") (bytes "userdb") (f_log_write config)
    (f_opt_linger config) (f_trig_mode config) (f_sql_num config) (f_thread_num config)
    (f_close_log config) (f_actor_mode config);;
  log_write;;
  sql_pool;;
  thread_pool;;
  trig_mode;;
  event_listen;;
  event_loop rounds fuel;;
  WebServer_delete fuel;;
  ret 0.
