(* ===== verification/WebServerProps.v ===== *)
(** The event loop of the server, with the components it puts together. *)
From stdpp Require Import gmap list.
From coqutil Require Import Datatypes.RecordSetters.
From S2P Require Import Prelude CppHeap Timer TimerProps HttpModel HttpParse HttpResponse HttpWrite.
From S2P Require Import HttpParseProps HttpWriteProps Threads ThreadPool ConnectionPool WebServer.

Section server.
Context {SOS : ServerOS} {AL : Allocator}.

(** * Rules for the calls and for the components *)

(** The trace is all a call changes. *)
Definition traced (cs : list scall) (s : WebServer) : WebServer := trace_more cs s.

Lemma wp_server_sys c s (Q : sreply → WebServer → Prop) :
  Q (server_reply (w_trace s) c) (trace_more [c] s) → wp (sys c) s Q.
Proof. intros HQ. exact HQ. Qed.
Lemma wp_sdo c s (Q : unit → WebServer → Prop) : Q tt (trace_more [c] s) → wp (sdo c) s Q.
Proof. intros HQ. exact HQ. Qed.
Lemma wp_slog c s (Q : unit → WebServer → Prop) :
  (∀ cs, cs = [] ∨ cs = [Sys c] → Q tt (trace_more cs s)) → wp (slog c) s Q.
Proof.
  intros HQ. unfold slog. repeat wp_base. apply wp_when; intros _.
  - apply wp_sdo. apply HQ. by right.
  - enough (s = trace_more [] s) as ->; [apply HQ; by left|].
    destruct s. unfold trace_more. simpl. by rewrite app_nil_r.
Qed.

Lemma wp_on_conn {A} i (m : HttpOS → Http A) s (Q : A → WebServer → Prop) :
  0 ≤ i < MAX_FD →
  wp (m (server_http (w_trace s))) (load_conn s i) (λ a c, Q a (store_conn s i c)) →
  wp (on_conn i m) s Q.
Proof.
  intros [H1%Z.leb_le H2%Z.ltb_lt] Hm. unfold on_conn, wp in *. rewrite H1, H2. simpl.
  by destruct (m _ _).
Qed.
Lemma wp_on_timers {A} (m : TM A) s (Q : A → WebServer → Prop) :
  wp m (w_timers s) (λ a t, Q a (store_timers s t)) → wp (on_timers m) s Q.
Proof. unfold on_timers, wp. by destruct (m _). Qed.
Lemma wp_on_pool {A} (m : PM A) p s (Q : A → WebServer → Prop) :
  w_pool s = Some p → wp m p (λ a p', Q a s{{w_pool := Some p'}}) → wp (on_pool m) s Q.
Proof. unfold on_pool, wp. intros ->. by destruct (m p). Qed.

(** * Closing a connection *)

Lemma del_conn_timer_undef timer fd s : del_conn_timer timer fd s = Undef.
Proof. unfold del_conn_timer, bind, on_timers. by rewrite server_del_timer_undef. Qed.

Lemma timer_of_cases fd s : timer_of fd s = Undef ∨ ∃ timer, timer_of fd s = Done timer s.
Proof.
  unfold timer_of, bind, gets. destruct (client_data (w_timers s) !! fd) as [c|]; [right|by left].
  by exists (Timer.timer c).
Qed.

(** * Clients that only connect *)

(** What has happened: the calls, the connection that was accepted but has no
    timer yet, and the arrivals and alarms with the times at which the server
    noticed them. *)
Definition hist : Type := list scall * option Z * list t_event.
Definition hist_step (h : hist) (c : scall) : hist :=
  let '(pre, pending, es) := h in
  let r := s_ret (server_reply pre c) in
  match c with
  | Accept _ => (pre ++ [c], if r <? 0 then None else Some r, es)
  | Time =>
      (pre ++ [c], None, es ++ [match pending with Some fd => Connect r fd | None => Alarm r end])
  | _ => (pre ++ [c], pending, es)
  end.
Definition history (pre tr : list scall) : hist := fold_left hist_step tr (pre, None, []).

Definition quiet (c : scall) : bool := match c with Accept _ | Time => false | _ => true end.
Lemma hist_quiet cs h :
  Forall quiet cs → fold_left hist_step cs h = (h.1.1 ++ cs, h.1.2, h.2).
Proof.
  intros Hq. revert h. induction Hq as [|c cs Hc _ IH]; intros [[pre pend] es]; simpl.
  { by rewrite app_nil_r. }
  rewrite IH. destruct c; try done; simpl; by rewrite <- app_assoc.
Qed.
Lemma history_app pre tr tr' : history pre (tr ++ tr') = fold_left hist_step tr' (history pre tr).
Proof. apply fold_left_app. Qed.

(** The system: the time does not go back, descriptors fit the arrays, and the
    only events are arrivals and signals. *)
Record idle_clients (lf p0 : Z) : Prop := {
  ic_time tr tr' : s_ret (server_reply tr Time) ≤ s_ret (server_reply (tr ++ tr') Time);
  ic_accept tr : s_ret (server_reply tr (Accept lf)) < MAX_FD;
  ic_events tr ep : Forall (λ '(fd, mask), fd = lf ∨
      (fd = p0 ∧ has mask (Z.lor (Z.lor EPOLLRDHUP EPOLLHUP) EPOLLERR) = false ∧ has mask EPOLLIN = true))
    (s_events (server_reply tr (EpollWait ep MAX_EVENT_NUMBER)));
  ic_number tr ep :
    Z.of_nat (length (s_events (server_reply tr (EpollWait ep MAX_EVENT_NUMBER)))) ≤ MAX_EVENT_NUMBER
}.

Lemma evs_spec_snoc es e l :
  evs_spec (es ++ [e]) l =
  ((evs_spec es l).1 ++ (ev_spec e (evs_spec es l).2).1, (ev_spec e (evs_spec es l).2).2).
Proof.
  revert l. induction es as [|e' es IH]; intros l.
  - simpl. destruct (ev_spec e l) as [c l1]. simpl. by rewrite app_nil_r.
  - cbn [app evs_spec]. destruct (ev_spec e' l) as [c l1]. rewrite IH.
    destruct (evs_spec es l1) as [cs l2]. simpl. by rewrite app_assoc.
Qed.
Lemma evs_spec_total es l :
  (length (evs_spec es l).1 + length (evs_spec es l).2 ≤ length l + length es)%nat.
Proof.
  revert l. induction es as [|e es IH]; intros l; cbn [evs_spec]; [simpl; lia|].
  pose proof (ev_spec_length e l) as Hlen. destruct (ev_spec e l) as [c l1]. specialize (IH l1).
  destruct (evs_spec es l1) as [cs l2]. simpl in *. rewrite length_app. lia.
Qed.

(** Every connection object has a value in [m_trig_mode]. *)
Definition modes_set (s : WebServer) : Prop := ∀ fd, is_Some (m_trig_mode (w_users s fd)).
(** The members of the server that the event loop does not change. *)
Definition same_setup (s0 s : WebServer) : Prop :=
  w_listen_fd s = w_listen_fd s0 ∧ w_pipe_fd0 s = w_pipe_fd0 s0 ∧
  w_listen_trig_mode s = w_listen_trig_mode s0 ∧ w_user s = w_user s0 ∧
  w_password s = w_password s0 ∧ w_database_name s = w_database_name s0 ∧ w_pool s = w_pool s0 ∧
  (modes_set s0 → modes_set s).

(** The server since [s0], with what [history] says: the timers are those of
    the connections that wait, and the closed ones are closed. *)
Record lives (s0 s : WebServer) (pending : option Z) (es : list t_event) : Prop := {
  lv_setup : same_setup s0 s;
  lv_hist : ∃ tr, w_trace s = w_trace s0 ++ tr ∧ history (w_trace s0) tr = (w_trace s, pending, es);
  lv_timers : ∃ now, t_inv (tl_heap (w_timers s0)) now (w_timers s) (evs_spec es []).2 ∧
    ∀ tr, now ≤ s_ret (server_reply (w_trace s ++ tr) Time);
  lv_count : Timer.m_user_count (w_timers s) = - Z.of_nat (length (evs_spec es []).1);
  lv_calls : conn_calls (w_timers s) = closes (evs_spec es []).1
}.

Lemma same_setup_trans s0 s s' : same_setup s0 s → same_setup s s' → same_setup s0 s'.
Proof. unfold same_setup. intros. naive_solver congruence. Qed.

(** What does not touch the timers. *)
Lemma lives_quiet s0 s s' pending es cs :
  lives s0 s pending es → same_setup s s' → w_timers s' = w_timers s →
  w_trace s' = w_trace s ++ cs → Forall quiet cs → lives s0 s' pending es.
Proof.
  intros [Hs (tr & Htr & Hh) (now & Hi & Hnow) Hc Hcc] Hs' Ht Htr' Hq.
  constructor; [by eapply same_setup_trans| | |by rewrite Ht|by rewrite Ht].
  - exists (tr ++ cs). rewrite Htr', Htr, app_assoc. split; [done|].
    by rewrite history_app, Hh, hist_quiet, Htr.
  - exists now. rewrite Ht. split; [done|]. intros tr'. rewrite Htr', <- app_assoc. apply Hnow.
Qed.
Lemma lives_more s0 s pending es cs :
  lives s0 s pending es → Forall quiet cs → lives s0 (trace_more cs s) pending es.
Proof. intros Hl Hq. by eapply lives_quiet. Qed.

(** A step of the timers, at the time [cur] that was read last. *)
Lemma lives_event s0 s es t e pre cs :
  (∃ tr, w_trace s = w_trace s0 ++ tr ∧ history (w_trace s0) tr = (w_trace s, None, es ++ [e])) →
  same_setup s0 s → t_inv (tl_heap (w_timers s0)) (ev_time e) t (ev_spec e (evs_spec es []).2).2 →
  (∀ tr, ev_time e ≤ s_ret (server_reply (pre ++ tr) Time)) → w_trace s = pre ++ cs →
  Timer.m_user_count t = - Z.of_nat (length (evs_spec es []).1) - Z.of_nat (length (ev_spec e (evs_spec es []).2).1) →
  conn_calls (w_timers s) = closes (evs_spec es []).1 →
  conn_calls t = conn_calls (w_timers s) ++ closes (ev_spec e (evs_spec es []).2).1 →
  lives s0 (store_timers s t) None (es ++ [e]).
Proof.
  intros (tr & Htr & Hh) Hs Hi Htime Hpre Hc Hcc0 Hcc.
  assert (w_trace (store_timers s t) = w_trace s ++ (TimerCall <$> closes (ev_spec e (evs_spec es []).2).1))
    as Hst by (unfold store_timers; by rewrite Hcc, drop_app_length).
  set (ds := TimerCall <$> _) in Hst.
  assert (Forall quiet ds) as Hq by (apply Forall_fmap, Forall_forall; done).
  constructor.
  - done.
  - exists (tr ++ ds). rewrite Hst, Htr, app_assoc. split; [done|].
    by rewrite history_app, Hh, hist_quiet, Htr.
  - exists (ev_time e). rewrite evs_spec_snoc. split; [done|]. intros tr'.
    rewrite Hst, Hpre, <- !app_assoc. apply Htime.
  - rewrite evs_spec_snoc. cbn [fst]. rewrite length_app.
    change (w_timers (store_timers s t)) with t. lia.
  - rewrite evs_spec_snoc. cbn [fst]. change (w_timers (store_timers s t)) with t.
    rewrite Hcc, Hcc0. unfold closes. by rewrite bind_app.
Qed.

(** * The handlers when clients only connect *)

(** The strings fit their arrays. *)
Definition short (s : list Z) : Prop := Z.of_nat (length (until_nul s)) < 100.

Lemma wp_init_conn {OS : HttpOS} fd addr root tm cl u p d c (Q : unit → HttpConn → Prop) :
  short u → short p → short d → is_Some (m_trig_mode c) →
  (∀ c', HttpModel.m_user_count c' = HttpModel.m_user_count c → users c' = users c →
    m_trig_mode c' = Some tm → Q tt c') →
  wp (init_conn fd addr root tm cl u p d) c Q.
Proof.
  unfold short. intros Hu%Z.ltb_lt Hp%Z.ltb_lt Hd%Z.ltb_lt [mode Hmode] HQ.
  unfold init_conn, addfd, set_nonblocking, hsys, hdo, set_conn, fits100, init. rewrite Hu, Hp, Hd.
  do 7 wp_base. eapply wp_need; [exact Hmode|].
  repeat wp_base. apply HQ; by destruct c as [[] []].
Qed.

Definition setup_ok (s : WebServer) : Prop :=
  w_listen_trig_mode s = 0 ∧ short (w_user s) ∧ short (w_password s) ∧ short (w_database_name s) ∧
  modes_set s ∧ ∃ p, w_pool s = Some p ∧ m_work_queue p = [].
Lemma setup_ok_same s s' : same_setup s s' → setup_ok s → setup_ok s'.
Proof. unfold same_setup, setup_ok. intros (_ & _ & -> & -> & -> & -> & -> & Hm). naive_solver. Qed.

Lemma set_user_count_id t : set_user_count (Timer.m_user_count t) t = t.
Proof. by destruct t. Qed.

Lemma wp_server_conn_timer s0 s fd addr es fuel (Q : unit → WebServer → Prop) :
  idle_clients (w_listen_fd s0) (w_pipe_fd0 s0) →
  setup_ok s → 0 ≤ fd < MAX_FD → lives s0 s (Some fd) es → (length es < fuel)%nat →
  (∀ s' e, lives s0 s' None (es ++ [e]) → Q tt s') →
  wp (server_conn_timer fuel fd addr) s Q.
Proof.
  intros Hidle (_ & Hu & Hp & Hd & Hmodes & _) Hfd Hl Hfuel HQ. unfold server_conn_timer.
  repeat wp_base. unfold id. apply wp_on_conn; [done|]. apply wp_init_conn; [done..|exact (Hmodes fd)|].
  intros c Hcu Hcn Hcm. set (s1 := store_conn s fd c).
  assert (w_timers s1 = w_timers s) as Ht1.
  { change (w_timers s1) with (set_user_count (HttpModel.m_user_count c) (w_timers s)).
    rewrite Hcu. apply set_user_count_id. }
  assert (w_trace s1 = w_trace s ++ (ConnCall fd <$> m_calls (c_req c))) as Htr1 by done.
  assert (lives s0 s1 (Some fd) es) as Hl1.
  { eapply lives_quiet; [done| |done|done|]; [|apply Forall_fmap, Forall_forall; done].
    repeat (split; [done|]). intros Hms i. change (w_users s1 i) with (if i =? fd then c else w_users s i).
    destruct (i =? fd); [by eexists|apply Hms]. }
  clearbody s1. unfold time_now. repeat wp_base. apply wp_server_sys. repeat wp_base. apply wp_on_timers.
  set (cur := s_ret (server_reply (w_trace s1) Time)).
  destruct Hl1 as [Hs (tr & Htr & Hh) (now & Hi & Hnow) Hc Hcc].
  pose proof (evs_spec_total es []) as Htot. simpl in Htot.
  eapply wp_mono; [eapply (wp_connect _ fuel now cur fd)|].
  - exact Hi.
  - unfold cur. rewrite <- (app_nil_r (w_trace s1)). apply Hnow.
  - lia.
  - intros [] t (Hi' & Hu' & Hc'). eapply HQ. eapply (lives_event _ _ _ _ (Connect cur fd) (w_trace s1) [Time]).
    + exists (tr ++ [Time]). change (w_trace (trace_more [Time] s1)) with (w_trace s1 ++ [Time]).
      rewrite Htr, app_assoc. split; [done|]. rewrite history_app, Hh. simpl. by rewrite <- Htr.
    + exact Hs.
    + exact Hi'.
    + intros tr'. apply (ic_time _ _ Hidle (w_trace s1) tr').
    + done.
    + rewrite Hu'. change (w_timers (trace_more [Time] s1)) with (w_timers s1). rewrite Hc. simpl. lia.
    + exact Hcc.
    + rewrite Hc'. simpl. by rewrite app_nil_r.
Qed.

Lemma wp_time_handler s0 s es fuel (Q : unit → WebServer → Prop) :
  idle_clients (w_listen_fd s0) (w_pipe_fd0 s0) →
  lives s0 s None es → (length es < fuel)%nat → Z.of_nat (length es) < 2 ^ 31 →
  (∀ s' e, lives s0 s' None (es ++ [e]) → Q tt s') →
  wp (time_handler fuel) s Q.
Proof.
  intros Hidle Hl Hfuel Hint HQ. unfold time_handler, time_now. repeat wp_base. apply wp_server_sys.
  repeat wp_base. apply wp_on_timers. set (cur := s_ret (server_reply (w_trace s) Time)).
  destruct Hl as [Hs (tr & Htr & Hh) (now & Hi & Hnow) Hc Hcc].
  pose proof (evs_spec_total es []) as Htot. simpl in Htot.
  change (w_timers (trace_more [Time] s)) with (w_timers s).
  eapply wp_mono; [eapply (wp_alarm _ fuel now cur)|].
  - exact Hi.
  - unfold cur. rewrite <- (app_nil_r (w_trace s)). apply Hnow.
  - lia.
  - rewrite Hc. unfold INT_MIN. lia.
  - rewrite Hc. unfold INT_MAX. lia.
  - intros [] t (Hi' & Hu' & Hc'). repeat wp_base. apply wp_sdo.
    apply (HQ _ (Alarm cur)). apply lives_more; [|by repeat constructor].
    eapply (lives_event _ _ _ _ (Alarm cur) (w_trace s) [Time]).
    + exists (tr ++ [Time]). change (w_trace (trace_more [Time] s)) with (w_trace s ++ [Time]).
      rewrite Htr, app_assoc. split; [done|]. rewrite history_app, Hh. simpl. by rewrite <- Htr.
    + exact Hs.
    + exact Hi'.
    + intros tr'. apply (ic_time _ _ Hidle (w_trace s) tr').
    + done.
    + rewrite Hu', Hc. done.
    + exact Hcc.
    + exact Hc'.
Qed.

(** The workers find nothing to do. *)
Lemma wp_worker_steps s0 s pending es fuel n (Q : unit → WebServer → Prop) :
  setup_ok s → lives s0 s pending es →
  (∀ s', lives s0 s' pending es → setup_ok s' → Q tt s') → wp (worker_steps fuel n) s Q.
Proof.
  revert s. induction n as [|n IH]; intros s Hok Hl HQ; simpl.
  { by apply wp_ret, HQ. }
  pose proof Hok as (_ & _ & _ & _ & _ & p & Hp & Hq).
  apply wp_bind. unfold worker_step. apply wp_bind. apply (wp_on_pool _ p); [done|].
  unfold take_request. do 2 wp_base. rewrite Hq. do 2 wp_base.
  assert (same_setup s s{{w_pool := Some p}}) as Hs by done.
  apply IH; [by eapply setup_ok_same| |done]. eapply (lives_quiet _ _ _ _ _ []); try done.
  by rewrite app_nil_r.
Qed.
Lemma wp_workers s0 s pending es fuel (Q : unit → WebServer → Prop) :
  setup_ok s → lives s0 s pending es →
  (∀ s', lives s0 s' pending es → Q tt s') → wp (workers fuel) s Q.
Proof.
  intros Hok Hl HQ. unfold workers. wp_base. apply wp_server_sys.
  eapply wp_worker_steps; [|by apply lives_more; [done|repeat constructor]|auto]. done.
Qed.

Lemma wp_deal_client_data s0 s es fuel (Q : bool → WebServer → Prop) :
  idle_clients (w_listen_fd s0) (w_pipe_fd0 s0) → setup_ok s0 →
  lives s0 s None es → (length es < fuel)%nat →
  (∀ b s' es', lives s0 s' None es' → (length es' ≤ S (length es))%nat → Q b s') →
  wp (deal_client_data fuel) s Q.
Proof.
  intros Hidle Hok Hl Hfuel HQ.
  assert (setup_ok s) as Hoks by (eapply setup_ok_same; [apply Hl|done]).
  unfold deal_client_data. do 4 wp_base. destruct Hoks as [Hmode Hoks]. rewrite Hmode. simpl.
  wp_base. apply wp_server_sys. set (r := server_reply _ _).
  pose proof (lv_setup _ _ _ _ Hl) as (Hlf & _).
  assert (lives s0 (trace_more [Accept (w_listen_fd s)] s)
    (if s_ret r <? 0 then None else Some (s_ret r)) es) as Hl1.
  { destruct Hl as [Hs (tr & Htr & Hh) (now & Hi & Hnow) Hc Hcc]. constructor; [done| | |done..].
    - exists (tr ++ [Accept (w_listen_fd s)]).
      change (w_trace (trace_more _ s)) with (w_trace s ++ [Accept (w_listen_fd s)]).
      rewrite Htr, app_assoc. split; [done|]. rewrite history_app, Hh. simpl. by rewrite <- Htr.
    - exists now. split; [exact Hi|]. intros tr'. change (w_trace (trace_more _ s)) with
        (w_trace s ++ [Accept (w_listen_fd s)]). rewrite <- app_assoc. apply Hnow. }
  destruct (Z.ltb_spec (s_ret r) 0) as [Hneg|Hpos].
  - wp_base. apply wp_slog. intros cs Hcs. wp_base. eapply HQ; [|by apply Nat.le_succ_diag_r].
    apply lives_more; [done|]. by destruct Hcs as [->| ->]; repeat constructor.
  - unfold user_count. do 2 wp_base. rewrite (lv_count _ _ _ _ Hl1), Z.geb_leb.
    rewrite (proj2 (Z.leb_gt _ _)) by (unfold MAX_FD; lia).
    wp_base. eapply (wp_server_conn_timer s0); try done.
    + split; [done|]. pose proof (ic_accept _ _ Hidle (w_trace s)) as Ha.
      rewrite <- Hlf in Ha. exact Ha.
    + intros s' e Hl'. apply wp_ret. eapply HQ; [done|]. rewrite length_app. simpl. lia.
Qed.

Lemma wp_deal_event s0 s es fuel fd mask flags (Q : bool * bool → WebServer → Prop) :
  idle_clients (w_listen_fd s0) (w_pipe_fd0 s0) → setup_ok s0 →
  fd = w_listen_fd s0 ∨ (fd = w_pipe_fd0 s0 ∧
    has mask (Z.lor (Z.lor EPOLLRDHUP EPOLLHUP) EPOLLERR) = false ∧ has mask EPOLLIN = true) →
  lives s0 s None es → (length es < fuel)%nat →
  (∀ fl s' es', lives s0 s' None es' → (length es' ≤ S (length es))%nat → Q fl s') →
  wp (deal_event fuel fd mask flags) s Q.
Proof.
  intros Hidle Hok Hev Hl Hfuel HQ. pose proof (lv_setup _ _ _ _ Hl) as (Hlf & Hp0 & _).
  unfold deal_event. do 4 wp_base. rewrite Hlf, Hp0. destruct (Z.eqb_spec fd (w_listen_fd s0)) as [->|Hne].
  { wp_base. eapply wp_deal_client_data; try done. intros b s' es' Hl' Hlen. apply wp_ret. eauto. }
  destruct Hev as [?|(-> & Hm1 & Hm2)]; [done|]. rewrite Hm1, Hm2, Z.eqb_refl. simpl.
  unfold deal_with_signal. do 4 wp_base. apply wp_server_sys.
  set (s1 := trace_more _ s). assert (lives s0 s1 None es) as Hl1 by (apply lives_more; [done|repeat constructor]).
  clearbody s1. destruct (_ || _); wp_base; simpl.
  - wp_base. apply wp_slog. intros cs Hcs. wp_base. eapply HQ; [|by apply Nat.le_succ_diag_r].
    apply lives_more; [done|]. by destruct Hcs as [->| ->]; repeat constructor.
  - do 2 wp_base. eapply HQ; [done|lia].
Qed.
Lemma wp_deal_events s0 s es fuel events flags (Q : bool * bool → WebServer → Prop) :
  idle_clients (w_listen_fd s0) (w_pipe_fd0 s0) → setup_ok s0 →
  Forall (λ '(fd, mask), fd = w_listen_fd s0 ∨ (fd = w_pipe_fd0 s0 ∧
    has mask (Z.lor (Z.lor EPOLLRDHUP EPOLLHUP) EPOLLERR) = false ∧ has mask EPOLLIN = true)) events →
  lives s0 s None es → (length es + length events < fuel)%nat →
  (∀ fl s' es', lives s0 s' None es' → (length es' ≤ length es + length events)%nat → Q fl s') →
  wp (deal_events fuel events flags) s Q.
Proof.
  intros Hidle Hok. revert s es flags. induction events as [|[fd mask] events IH]; intros s es flags Hev Hl Hfuel HQ; simpl.
  { apply wp_ret. eapply HQ; [done|simpl; lia]. }
  apply Forall_cons in Hev as [He Hev]. simpl in Hfuel. apply wp_bind.
  eapply (wp_deal_event s0); try done; [lia|]. intros fl s' es' Hl' Hlen.
  eapply IH; try done; [lia|]. intros fl' s'' es'' Hl'' Hlen'. eapply HQ; [done|]. simpl. lia.
Qed.

(** One round of the event loop notices at most as many things. *)
Definition per_round : nat := Z.to_nat (MAX_EVENT_NUMBER + 1).
Lemma per_round_eq : Z.of_nat per_round = 10001.
Proof. done. Qed.
Lemma wp_event_round s0 s es fuel flags :
  idle_clients (w_listen_fd s0) (w_pipe_fd0 s0) → setup_ok s0 →
  lives s0 s None es → (length es + per_round ≤ fuel)%nat → Z.of_nat (length es + per_round) < 2 ^ 31 →
  wp (event_round fuel flags) s (λ _ s', ∃ es', lives s0 s' None es' ∧
    (length es' ≤ length es + per_round)%nat).
Proof.
  intros Hidle Hok Hl Hfuel Hint. unfold event_round. destruct flags.2.
  { apply wp_ret. exists es. split; [done|lia]. }
  wp_base. eapply (wp_workers s0); [by eapply setup_ok_same; [apply Hl|]|done|]. intros s1 Hl1.
  do 3 wp_base. apply wp_server_sys. set (r := server_reply _ _). set (s2 := trace_more _ s1).
  assert (lives s0 s2 None es) as Hl2 by (apply lives_more; [done|repeat constructor]).
  clearbody s2. assert (Z.of_nat (length (s_events r)) ≤ 10000) as Hn by apply (ic_number _ _ Hidle).
  destruct (_ && _).
  { wp_base. apply wp_slog. intros cs Hcs. apply wp_ret. exists es. split; [|lia].
    apply lives_more; [done|]. by destruct Hcs as [->| ->]; repeat constructor. }
  assert (∀ b : bool, Z.of_nat (length (if b then [] else s_events r)) ≤ 10000) as Hn'
    by (intros []; cbn [length]; lia).
  pose proof per_round_eq as Hper.
  wp_base. eapply (wp_deal_events s0); try done.
  { destruct (s_ret r <? 0); [constructor|]. apply (ic_events _ _ Hidle). }
  { specialize (Hn' (s_ret r <? 0)). lia. }
  intros fl s3 es' Hl3 Hlen. specialize (Hn' (s_ret r <? 0)).
  destruct fl.1; [|apply wp_ret; exists es'; split; [done|lia]].
  wp_base. eapply wp_time_handler; [done|done|lia|lia|]. intros s4 e Hl4.
  wp_base. apply wp_slog. intros cs Hcs. apply wp_ret. exists (es' ++ [e]).
  split; [apply lives_more; [done|]; by destruct Hcs as [->| ->]; repeat constructor|].
  rewrite length_app. simpl. lia.
Qed.

(** * A connection that sends a line *)

(** The next line of the connection [fd] has been received. *)
Definition line_ready (fuel : nat) (r : request) : Prop :=
  req_ok r ∧ m_check_state r ≠ CHECK_STATE_CONTENT ∧
  ∃ line rest, unread r = line ++ CR :: LF :: rest ∧ (∀ b, b ∈ line → stops b = false) ∧
    (length (unread r) < fuel)%nat.
Lemma line_ready_calls fuel r cs : line_ready fuel r → line_ready fuel r{{m_calls := cs}}.
Proof. by destruct r. Qed.
Lemma line_ready_load fuel s fd :
  line_ready fuel (c_req (w_users s fd)) → line_ready fuel (c_req (load_conn s fd)).
Proof.
  intros Hl. change (c_req (load_conn s fd)) with ((c_req (w_users s fd)){{m_calls := [] }}).
  by apply line_ready_calls.
Qed.
Lemma users_store s i c : w_users (store_conn s i c) i = c.
Proof. change (w_users (store_conn s i c) i) with (if i =? i then c else w_users s i). by rewrite Z.eqb_refl. Qed.
Lemma process_ready `{HttpOS} fuel c : line_ready fuel (c_req c) → process fuel c = Undef.
Proof. intros (? & ? & line & rest & ? & ? & ?). by eapply process_line_undef. Qed.

(** A worker that takes the connection. *)
Lemma on_conn_undef {A} i (m : HttpOS → Http A) s :
  m (server_http (w_trace s)) (load_conn s i) = Undef → on_conn i m s = Undef.
Proof. intros Hm. unfold on_conn. destruct (_ && _); [by rewrite Hm|done]. Qed.
Lemma process_conn_undef fuel fd s :
  line_ready fuel (c_req (w_users s fd)) → process_conn fuel fd s = Undef.
Proof.
  intros Hl.
  assert (∀ mysql s1, w_users s1 = w_users s →
    (on_conn fd (λ OS, set_conn (λ c, c{{m_mysql := mysql}}));; on_conn fd (λ OS, process fuel)) s1 = Undef)
    as Hbody.
  { intros mysql s1 Hs1. unfold bind. unfold on_conn at 1. destruct (_ && _); [|done].
    unfold set_conn, modify. apply on_conn_undef, process_ready, line_ready_load.
    rewrite users_store. rewrite <- Hs1 in Hl. exact (line_ready_load _ _ _ Hl). }
  unfold process_conn, with_connection. unfold on_conn_pool at 1. unfold bind at 1.
  rewrite check_size_eq. case_decide as Hnil; [by apply Hbody|].
  unfold bind at 1. unfold on_conn_pool at 1. rewrite use_reserve_eq.
  change (w_conn_pool s{{w_conn_pool := w_conn_pool s}}) with (w_conn_pool s).
  destruct (reserve_usable (w_conn_pool s)); [|done]. unfold bind at 1. unfold on_conn_pool at 1.
  change (w_conn_pool s{{w_conn_pool := w_conn_pool s}}{{w_conn_pool := w_conn_pool s}}) with (w_conn_pool s).
  destruct (take_conn 0 (w_conn_pool s)) as [pc q| |q|x q] eqn:E; [|done|exfalso..].
  - unfold take_conn, bind, gets, modify, ret, undef in E. destruct (conn_list _); [done|]. injection E as <- <-.
    unfold bind at 1. by rewrite Hbody.
  - unfold take_conn, bind, gets, modify, ret, undef in E. by destruct (conn_list _).
  - unfold take_conn, bind, gets, modify, ret, undef in E. by destruct (conn_list _).
Qed.

Lemma worker_step_undef fuel fd s p :
  w_pool s = Some p → m_work_queue p = [conn_ptr fd] → w_actor_mode s ≠ 1 → 0 ≤ fd →
  line_ready fuel (c_req (w_users s fd)) → worker_step fuel s = Undef.
Proof.
  intros Hp Hq Ha%Z.eqb_neq Hfd Hl. unfold worker_step, bind, on_pool. rewrite Hp, take_request_eq, Hq.
  unfold conn_ptr. cbv beta iota. unfold run_conn, bind, gets.
  replace (conn_index (Z.to_pos (fd + 1))) with fd by (unfold conn_index; lia).
  change (w_actor_mode s{{w_pool := _}}) with (w_actor_mode s). rewrite Ha.
  apply process_conn_undef. exact Hl.
Qed.

Lemma wp_adjust_last fuel cur t nd tm :
  tl_heap tm !! t = Some nd → n_next nd = None →
  wp (server_adjust_timer fuel cur (Some t)) tm (λ _ _, True).
Proof.
  intros Ht Hn. unfold server_adjust_timer, adjust_timer. simpl. repeat heap_step.
  destruct (_ && _); [by apply wp_ret|]. repeat heap_step. rewrite Hn. simpl. by apply wp_ret.
Qed.

(** * The theorems *)

(** A server that has been set up, before its first event: the strings that its
    connections copy fit, no request is queued and no client has a timer. *)
Definition fresh_server (s : WebServer) : Prop :=
  short (w_user s) ∧ short (w_password s) ∧ short (w_database_name s) ∧
  (∃ p, w_pool s = Some p ∧ m_work_queue p = []) ∧
  tl_rep (tl_heap (w_timers s)) (w_timers s) [] ∧
  Timer.m_user_count (w_timers s) = 0 ∧ conn_calls (w_timers s) = [].

(** C22: The server cannot close a connection: an event that says that the peer
    closed or failed has no defined behaviour, nor has a read that fails, in the
    mode in which the server reads itself. *)
Theorem server_cannot_close fuel fd s :
  (∀ mask flags, fd ≠ w_listen_fd s →
    has mask (Z.lor (Z.lor EPOLLRDHUP EPOLLHUP) EPOLLERR) = true →
    deal_event fuel fd mask flags s = Undef) ∧
  (∀ c, w_actor_mode s ≠ 1 →
    (let _ := server_http (w_trace s) in read_once fuel) (load_conn s fd) = Done false c →
    deal_with_read fuel fd s = Undef).
Proof.
  split.
  - intros mask flags Hne%Z.eqb_neq Hm. unfold deal_event, bind at 1 2, gets. rewrite Hne, Hm.
    unfold bind. destruct (timer_of_cases fd s) as [->|[timer ->]]; [done|]. by rewrite del_conn_timer_undef.
  - intros c Ha%Z.eqb_neq Hr. unfold deal_with_read, bind at 1.
    destruct (timer_of_cases fd s) as [->|[timer ->]]; [done|]. unfold bind, gets. rewrite Ha.
    unfold on_conn at 1. destruct (_ && _); [|done]. simpl in Hr. rewrite Hr. apply del_conn_timer_undef.
Qed.

(** C21: The first complete line that a client sends ends the server: when the
    server has read it and a worker takes the connection, [process] is undefined. *)
Theorem request_ends_server fuel fd s c p timer t nd :
  w_actor_mode s ≠ 1 → 0 ≤ fd < MAX_FD →
  w_pool s = Some p → m_work_queue p = [] → 0 < m_max_requests p →
  client_data (w_timers s) !! fd = Some (Client timer (Some t)) →
  tl_heap (w_timers s) !! t = Some nd → n_next nd = None →
  (let _ := server_http (w_trace s) in read_once fuel) (load_conn s fd) = Done true c →
  line_ready fuel (c_req c) →
  (deal_with_read fuel fd;; worker_step fuel) s = Undef.
Proof.
  intros Ha%Z.eqb_neq Hfd Hp Hq Hmax Ht Hnd Hlast Hr Hline.
  enough (wp (deal_with_read fuel fd) s (λ _ s', worker_step fuel s' = Undef)) as Hw.
  { destruct (wp_elim _ _ _ Hw) as ([] & s' & Hd & Hu). unfold bind. by rewrite Hd. }
  unfold deal_with_read, timer_of. do 4 wp_base. eapply wp_need; [exact Ht|]. do 3 wp_base. rewrite Ha.
  wp_base. apply wp_on_conn; [done|]. eapply wp_intro; [exact Hr|]. set (s1 := store_conn s fd c).
  assert (line_ready fuel (c_req (w_users s1 fd))) as Hl1.
  { unfold s1. by rewrite users_store. }
  assert (w_pool s1 = Some p ∧ w_actor_mode s1 = w_actor_mode s ∧
    tl_heap (w_timers s1) = tl_heap (w_timers s)) as (Hp1 & Ha1 & Hh1) by done.
  clearbody s1. wp_base. apply wp_on_conn; [done|]. unfold get_address. wp_base.
  set (s2 := store_conn s1 fd _).
  assert (line_ready fuel (c_req (w_users s2 fd))) as Hl2.
  { unfold s2. rewrite users_store. by apply line_ready_load. }
  assert (w_pool s2 = Some p ∧ w_actor_mode s2 = w_actor_mode s ∧
    tl_heap (w_timers s2) = tl_heap (w_timers s)) as (Hp2 & Ha2 & Hh2) by done.
  clearbody s2. wp_base. apply wp_slog. intros cs _. wp_base. unfold pool_append_p. wp_base.
  apply (wp_on_pool _ p); [exact Hp2|]. unfold push_request. do 4 wp_base. rewrite Hq. simpl.
  rewrite Z.geb_leb, (proj2 (Z.leb_gt _ _)) by lia. unfold set_queue, log_appended. do 8 wp_base.
  lazymatch goal with |- wp _ ?x _ => set (s3 := x) end.
  assert (w_users s3 = w_users s2 ∧ w_actor_mode s3 = w_actor_mode s2 ∧ w_timers s3 = w_timers s2)
    as (Hu3 & Ha3 & Ht3) by done.
  assert (∃ p', w_pool s3 = Some p' ∧ m_work_queue p' = [conn_ptr fd]) as (p' & Hp3 & Hq3)
    by (eexists; by split).
  clearbody s3. unfold adjust_conn_timer, time_now. do 2 wp_base. apply wp_server_sys. wp_base. wp_base.
  apply wp_on_timers. change (w_timers (trace_more [Time] s3)) with (w_timers s3). rewrite Ht3.
  eapply wp_mono; [eapply wp_adjust_last; [rewrite Hh2; exact Hnd|exact Hlast]|].
  intros _ tm _. apply wp_slog. intros cs' _. apply (worker_step_undef fuel fd _ p'); try done.
  - change (w_actor_mode s3 ≠ 1). rewrite Ha3, Ha2. by apply Z.eqb_neq.
  - apply Hfd.
  - change (line_ready fuel (c_req (w_users s3 fd))). by rewrite Hu3.
Qed.

(** C18: The event loop implements the life of its timers: as long as clients
    connect and send nothing, the connections the server has closed are exactly
    those whose three slots were over at an alarm, in the order of their arrival,
    and nothing undefined happens; the arrivals and alarms are read off the calls
    the server made. This is under conditions: the listening socket is
    level-triggered; the clock does not go back, and what [accept] gives fits the
    arrays; there are so few rounds, of at most 10001 events, that the counter of
    connections cannot overflow; and every connection object has a value in
    [m_trig_mode], which is not so in a server as its constructor leaves it
    ([first_client_undefined]). *)
Theorem event_loop_closes_idle s rounds fuel :
  idle_clients (w_listen_fd s) (w_pipe_fd0 s) → fresh_server s →
  w_listen_trig_mode s = 0 → modes_set s →
  (rounds * per_round ≤ fuel)%nat → Z.of_nat (rounds * per_round) < 2 ^ 31 →
  let closed s' := ∃ tr pending es, w_trace s' = w_trace s ++ tr ∧
    history (w_trace s) tr = (w_trace s', pending, es) ∧
    conn_calls (w_timers s') = closes (evs_spec es []).1 in
  wpx (event_loop rounds fuel) s (λ _ _, False) closed (λ _, closed).
Proof.
  intros Hidle (Hu & Hp & Hd & Hpool & Hrep & Hcount & Hcalls) Hlt Hmodes Hfuel Hint closed.
  assert (setup_ok s) as Hok by done.
  assert (∀ s' es, lives s s' None es → closed s') as Hclosed.
  { intros s' es [_ (tr & Htr & Hh) _ _ Hc]. by exists tr, None, es. }
  unfold event_loop.
  apply (wpx_loop_count _ _ (λ k _ s', ∃ es, lives s s' None es ∧ (length es ≤ k * per_round)%nat)).
  - intros k flags s1 Hk (es & Hl & Hlen).
    assert ((length es + per_round ≤ rounds * per_round)%nat) as Hle by nia.
    apply wpx_of_wp. eapply wp_mono; [eapply (wp_event_round s); try done; lia|].
    intros [fl|[]] s2 (es' & Hl' & Hlen'); [|by eauto]. exists es'. split; [done|]. lia.
  - intros _ s1 (es & Hl & _). eauto.
  - exists []. split; [|done]. constructor; [by repeat split| | |by rewrite Hcount|done].
    + exists []. split; [by rewrite app_nil_r|done].
    + exists (s_ret (server_reply (w_trace s) Time)). split; [|apply (ic_time _ _ Hidle)].
      constructor; [|constructor|by intros w Hw%not_elem_of_nil].
      exists []. split_and!; [done|by intros ? ? ?%not_elem_of_nil|done].
Qed.

(** A client whose connection object has no value in [m_trig_mode]. *)
Lemma conn_timer_undefined fuel fd addr s :
  m_trig_mode (w_users s fd) = None → server_conn_timer fuel fd addr s = Undef.
Proof.
  intros Hm. unfold server_conn_timer, bind at 1, gets, id. unfold bind, on_conn.
  destruct (_ && _); [|done]. unfold init_conn, set_conn, bind, modify, gets, need.
  change (m_trig_mode (load_conn s fd){{m_sockfd := fd}}{{m_address := addr}}) with (m_trig_mode (w_users s fd)).
  by rewrite Hm.
Qed.

Lemma WebServer_new_modes s :
  match WebServer_new s with
  | Done _ s' => w_conn_pool s' = ConnectionPool_new ∧ ∀ fd, m_trig_mode (w_users s' fd) = None
  | Undef => True
  | _ => False
  end.
Proof.
  cbv beta iota delta [WebServer_new set_server bind modify sys gets ret undef].
  destruct (Z.of_nat _ <? 200); [|done]. by split.
Qed.

(** C19: The first client ends the server, in both modes of the listening socket:
    [WebServer()] leaves no connection object with a value in [m_trig_mode]; and
    when the listening socket is ready and [accept] gives a descriptor whose
    object has none, accepting it is undefined, because [init] passes
    [m_trig_mode] to [addfd] before it stores a value in it. *)
Theorem first_client_undefined :
  (∀ s s', WebServer_new s = Done tt s' → ∀ fd, m_trig_mode (w_users s' fd) = None) ∧
  ∀ fuel s mask flags,
    let fd := s_ret (server_reply (w_trace s) (Accept (w_listen_fd s))) in
    0 ≤ fd → m_trig_mode (w_users s fd) = None → Timer.m_user_count (w_timers s) < MAX_FD → (0 < fuel)%nat →
    deal_event fuel (w_listen_fd s) mask flags s = Undef.
Proof.
  split.
  - intros s s' Hd. pose proof (WebServer_new_modes s) as Hw. rewrite Hd in Hw. apply Hw.
  - intros [|fuel] s mask flags fd Hfd Hm Hcount Hf; [lia|]. unfold deal_event, bind at 1 2, gets.
    rewrite Z.eqb_refl. unfold bind. enough (deal_client_data (S fuel) s = Undef) as -> by done.
    unfold deal_client_data. unfold bind at 1 2, gets. cbn [loop].
    destruct (w_listen_trig_mode s =? 0); unfold sys, user_count, bind, gets, modify, ret;
      change (s_ret (server_reply (w_trace s) (Accept (w_listen_fd s)))) with fd.
    1: rewrite (proj2 (Z.ltb_ge _ _)) by done. 2: rewrite (proj2 (Z.eqb_neq _ _)) by lia.
    all: change (Timer.m_user_count (w_timers (trace_more [Accept (w_listen_fd s)] s)))
        with (Timer.m_user_count (w_timers s));
      rewrite Z.geb_leb, (proj2 (Z.leb_gt _ _)) by done; by rewrite conn_timer_undefined.
Qed.
End server.

(** * Starting the program *)

Section start.
Context {SOS : ServerOS} {AL : Allocator} {SQL : MySQL}.

(** Undefined, or the process ends with code 1. *)
Definition never_returns {S A} (m : M S A) (s : S) : Prop := m s = Undef ∨ ∃ s', m s = Exited 1 s'.
Lemma never_bind {S A B} (m : M S A) (f : A → M S B) s : never_returns m s → never_returns (bind m f) s.
Proof. unfold never_returns, bind. intros [->|[s' ->]]; eauto. Qed.

Lemma never_after {S A B} (m : M S A) (f : A → M S B) s a s1 :
  m s = Done a s1 → never_returns (f a) s1 → never_returns (bind m f) s.
Proof. unfold never_returns, bind. by intros ->. Qed.

(** The connections to the database are made, or the process ends; then
    [GetConnection] is undefined, or it gives no connection, which
    [mysql_query] cannot be called with. *)
Lemma init_cases n :
  match ConnectionPool.init n ConnectionPool_new with
  | Done _ p => reserve_usable p = false
  | Exited code _ => code = 1
  | _ => False
  end.
Proof.
  unfold ConnectionPool.init, bind, gets, modify, ret.
  pose proof (init_from_eq 0 (Z.to_nat n) ConnectionPool_new) as Hi.
  destruct (handles 0 _) as [cs|]; [destruct Hi as (p & -> & _)|destruct Hi as [p ->] ]; done.
Qed.
Lemma with_connection_undefined s :
  reserve_usable (w_conn_pool s) = false →
  with_connection (λ mysql, on_conn 0 (λ OS, init_mysql_result mysql)) s = Undef.
Proof.
  intros Hr. unfold with_connection, bind. unfold on_conn_pool at 1. rewrite check_size_eq.
  case_decide; [by unfold on_conn|]. unfold on_conn_pool at 1. rewrite use_reserve_eq.
  change (w_conn_pool s{{w_conn_pool := w_conn_pool s}}) with (w_conn_pool s). by rewrite Hr.
Qed.
Lemma sql_pool_never_returns s : w_conn_pool s = ConnectionPool_new → never_returns sql_pool s.
Proof.
  intros Hp. unfold sql_pool. unfold never_returns, bind at 1 2 3 4, gets, on_conn_pool at 1 2. rewrite Hp.
  pose proof (init_cases (w_sql_num s)) as Hi. destruct (ConnectionPool.init _ _) as [r p| |q|code q]; try done.
  - left. by apply with_connection_undefined.
  - subst code. eauto.
Qed.
Lemma log_write_pool s : ∃ s', log_write s = Done tt s' ∧ w_conn_pool s' = w_conn_pool s.
Proof.
  unfold log_write, whenM, bind, gets, ret, sdo, modify. destruct (w_close_log s =? 0); [|by eexists].
  destruct (w_log_write s =? 1); by eexists.
Qed.

End start.
