(* ===== verification/WebWitness.v ===== *)
(** The theorems on the server at concrete inputs. *)
From stdpp Require Import gmap list fin_sets.
From coqutil Require Import Datatypes.RecordSetters.
From S2P Require Import Prelude CppHeap Timer TimerProps HttpModel HttpParse HttpResponse HttpWrite.
From S2P Require Import HttpParseProps HttpWriteProps Threads ThreadPool ConnectionPool WebServer WebServerProps.

(** The smallest address no object has. *)
#[local, program] Instance smallest_free : Allocator := {| alloc X := fresh X |}.
Next Obligation. intros X. apply is_fresh. Qed.

(** A client that connects in every round and sends one line, and an alarm. *)
Definition request_text : list Z := bytes "GET / HTTP/1.1" ++ [CR; LF; CR; LF].
#[local] Instance demo_system : ServerOS := {|
  server_reply tr c :=
    match c with
    | Time => SReply (Z.of_nat (length tr)) 0 [] [] (0, 0)
    | Getcwd _ => SReply 0 0 (bytes "/srv") [] (0, 0)
    | Socket => SReply 3 0 [] [] (0, 0)
    | EpollCreate _ => SReply 4 0 [] [] (0, 0)
    | SocketPair => SReply 0 0 [] [] (5, 6)
    | Accept _ => SReply 7 0 [1; 2; 3; 4] [] (0, 0)
    | EpollWait _ _ => SReply 2 0 [] [(3, EPOLLIN); (5, EPOLLIN)] (0, 0)
    | RecvSignals _ _ => SReply 1 0 [SIGALRM] [] (0, 0)
    | _ => SReply 0 0 [] [] (0, 0)
    end;
  server_http tr := {|
    http_reply tr c :=
      match c with
      | Recv _ _ => HReply (Z.of_nat (length request_text)) 0 request_text (StatT 0 0) []
      | _ => HReply 0 0 [] (StatT 0 0) []
      end;
    file_bytes _ _ := [] |}
|}.

(** The members before anything was stored in them. *)
Definition blank_conn : HttpConn :=
  Conn (Request [] 0 0 0 CHECK_STATE_REQUESTLINE GET None None None 0 false 0 None 0 [])
    (Response [] 0 [] None (StatT 0 0) (Iovec IovNone 0) (Iovec IovNone 0) None 0 0)
    0 [] None None [] 0 0 0 [] [] [] 0 0 ∅.
Definition blank_server : WebServer :=
  Server 0 [] 0 0 0 0 0 0 (λ _, blank_conn) ∅ ConnectionPool_new [] [] [] 0 None 0 0 0 0 0 0
    (Timers None None ∅ ∅ 0 []) 0 [].
(** Set up as [main] does it, but without a database. *)
Definition demo_setup : WM unit :=
  WebServer_new;;
  server_init 9006 (bytes "wh") (bytes "pw") (bytes "userdb") 0 0 0 8 8 0 0;;
  log_write;; thread_pool;; trig_mode;; event_listen.
Definition after {A} (m : WM A) (s : WebServer) : WebServer := match m s with Done _ s' => s' | _ => s end.
Definition new_server : WebServer := Eval vm_compute in after demo_setup blank_server.
(** The same server, if its connection objects had a value in [m_trig_mode]. *)
Definition used_conn : HttpConn := Eval vm_compute in blank_conn{{m_trig_mode := Some 0}}.
Definition demo_server : WebServer :=
  Eval vm_compute in new_server{{w_users := λ _, used_conn}}.
(** With one connection. *)
Definition demo_connected : WebServer := Eval vm_compute in after (server_conn_timer 3 7 [1; 2; 3; 4]) demo_server.
Definition demo_request : HttpConn :=
  match (let _ := server_http (w_trace demo_connected) in read_once 100) (load_conn demo_connected 7) with
  | Done _ c => c
  | _ => blank_conn
  end.

Lemma demo_idle : idle_clients (w_listen_fd demo_server) (w_pipe_fd0 demo_server).
Proof.
  constructor.
  - intros tr tr'. simpl. rewrite length_app. lia.
  - intros tr. done.
  - intros tr ep. apply Forall_cons. split; [by left|]. apply Forall_cons. split; [right|constructor].
    by vm_compute.
  - intros tr ep. done.
Qed.
Lemma demo_server_fresh : fresh_server demo_server.
Proof.
  repeat (split; [done|]). split; [|split; [|split]].
  - eexists. split; reflexivity.
  - constructor; try done; [constructor|..]; intros l Hl; by apply not_elem_of_nil in Hl.
  - done.
  - done.
Qed.

Lemma demo_modes : modes_set demo_server.
Proof. intros fd. by eexists. Qed.

Lemma event_loop_closes_idle_witness :
  idle_clients (w_listen_fd demo_server) (w_pipe_fd0 demo_server) ∧ fresh_server demo_server ∧
  wpx (event_loop 3 (3 * per_round)) demo_server (λ _ _, False)
    (λ s', ∃ fds, conn_calls (w_timers s') = closes fds) (λ _ _, True).
Proof.
  split; [apply demo_idle|]. split; [apply demo_server_fresh|].
  eapply wpx_conseq; [apply (event_loop_closes_idle demo_server 3 (3 * per_round) demo_idle demo_server_fresh eq_refl demo_modes)|..].
  - done.
  - pose proof per_round_eq. lia.
  - done.
  - intros s (tr & pending & es & _ & _ & Hc). by exists (evs_spec es []).1.
  - done.
Defined.

Lemma server_cannot_close_witness :
  7 ≠ w_listen_fd demo_connected ∧
  deal_event 3 7 EPOLLHUP (false, false) demo_connected = Undef.
Proof.
  split; [done|]. by apply (server_cannot_close 3 7 demo_connected).
Defined.

Definition demo_pool : ThreadPool := Pool [] 10 0 ∅ ∅ ∅ [] [] [].
Lemma demo_line_ready : line_ready 100 (c_req demo_request).
Proof.
  split; [by vm_compute|]. split; [by vm_compute|].
  exists (bytes "GET / HTTP/1.1"), [CR; LF]. split; [by vm_compute|]. split; [|by vm_compute; lia].
  apply Forall_forall. by repeat constructor.
Qed.
Lemma request_ends_server_witness :
  line_ready 100 (c_req demo_request) ∧
  (deal_with_read 100 7;; worker_step 100) demo_connected = Undef.
Proof.
  split; [apply demo_line_ready|].
  apply (request_ends_server 100 7 demo_connected demo_request demo_pool 7 1%positive
    (DNode (TimerData 40 7) None None)).
  - vm_compute. discriminate.
  - vm_compute. by split.
  - vm_compute. reflexivity.
  - reflexivity.
  - reflexivity.
  - vm_compute. reflexivity.
  - vm_compute. reflexivity.
  - reflexivity.
  - vm_compute. reflexivity.
  - apply demo_line_ready.
Defined.

Lemma first_client_undefined_witness :
  w_listen_fd new_server = 3 ∧ deal_event 1 3 EPOLLIN (false, false) new_server = Undef.
Proof. split; [done|]. apply (proj2 first_client_undefined 1%nat new_server EPOLLIN (false, false)); by vm_compute. Defined.
