(* ===== verification/Log.v ===== *)
(** The log of src/TinyWebServer/log (log.h, log.cpp): building the name of the
    file, cutting the log by day and by number of lines, formatting a line in
    the shared buffer, and handing it to the writer thread or to the file. The
    calls to stdio are recorded in the order they are made. *)
From stdpp Require Import gmap list pretty.
From coqutil Require Import Datatypes.RecordSetters.
From S2P Require Import Prelude Monitor BlockQueue HttpModel HttpResponse.
Export RecordSetters.DoubleBraceUpdate.
#[global] Open Scope Z_scope.

(** Calls on a stream are recorded with the name it was opened with. *)
Inductive log_call :=
| Fopen (name : list Z) | Fputs (name text : list Z) | Fflush (name : list Z) | Fclose (name : list Z)
| PthreadCreate.

(** Whether [fopen] succeeds, after what happened so far. *)
Class LogOS := { fopen_ok : list log_call → list Z → bool }.

(** [struct tm] and [tv_usec], as [gettimeofday] and [localtime] give them. *)
Record clock := Clock {
  tm_year : Z; tm_mon : Z; tm_mday : Z; tm_hour : Z; tm_min : Z; tm_sec : Z; tv_usec : Z
}.

Record Log := LogObject {
  dir_name : list Z;
  log_name : list Z;
  m_split_lines : Z;
  m_log_buf_size : Z;
  m_count : Z;
  m_today : Z;
  m_fp : option (list Z);
  m_buf : list Z;
  m_log_queue : option (BlockQueue (list Z));
  m_is_async : bool;
  m_close_log : Z;
  log_calls : list log_call
}.
Abbreviation LM := (M Log).

(** The instance of [get_instance()]: static, so zeroed, then constructed. *)
Definition Log_new : Log := LogObject (replicate 128 0) (replicate 128 0) 0 0 0 0 None [] None false 0 [].

Definition lcall (c : log_call) : LM unit := modify (λ l, l{{log_calls := log_calls l ++ [c] }}).
Definition fopen_append (name : list Z) `{LogOS} : LM unit :=
  h ← gets log_calls; lcall (Fopen name);;
  modify (λ l, l{{m_fp := if fopen_ok h name then Some name else None}}).
(** [fflush(NULL)] flushes every stream; [fclose(NULL)] and [fputs(s, NULL)]
    are undefined. *)
Definition fflush_fp : LM unit :=
  fp ← gets m_fp; match fp with Some name => lcall (Fflush name) | None => ret tt end.
Definition fclose_fp : LM unit := fp ← gets m_fp; name ← need fp; lcall (Fclose name).
Definition fputs_fp (text : list Z) : LM unit := fp ← gets m_fp; name ← need fp; lcall (Fputs name text).

(** A member of the log's that is an array holding a string. *)
Definition str_of (f : Log → list Z) : LM (list Z) := b ← gets f; need (c_string b).

(** [%0wd] *)
Definition zero_pad (w : Z) (z : Z) : list Z :=
  let sign := if z <? 0 then [45] else [] in
  let ds := decimal (Z.abs z) in
  sign ++ replicate (Z.to_nat (w - Z.of_nat (length sign) - Z.of_nat (length ds))) 48 ++ ds.
(** What [snprintf(buf, size, ...)] leaves in [buf], without its NUL. *)
Definition snprintf_text (size : nat) (text : list Z) : list Z := take (size - 1) text.

(** ["%d_%02d_%02d_"] *)
Definition date_text (now : clock) : list Z :=
  decimal (tm_year now + 1900) ++ [95] ++ zero_pad 2 (tm_mon now + 1) ++ [95] ++ zero_pad 2 (tm_mday now) ++ [95].
(** ["%d-%02d-%02d %02d:%02d:%02d.%06ld %s "] *)
Definition level_text (level : Z) : list Z :=
  if level =? 0 then bytes "[debug]:"
  else if level =? 1 then bytes "[info]:"
  else if level =? 2 then bytes "[warn]:"
  else if level =? 3 then bytes "[erro]:"
  else bytes "[info]:".
Definition stamp_text (now : clock) (level : Z) : list Z :=
  decimal (tm_year now + 1900) ++ [45] ++ zero_pad 2 (tm_mon now + 1) ++ [45] ++ zero_pad 2 (tm_mday now) ++ [32] ++
  zero_pad 2 (tm_hour now) ++ [58] ++ zero_pad 2 (tm_min now) ++ [58] ++ zero_pad 2 (tm_sec now) ++ [46] ++
  zero_pad 6 (tv_usec now) ++ [32] ++ level_text level ++ [32].

(** [m_log_queue->...] *)
Definition on_queue {A} (m : BQM A) : LM A := λ l,
  match m_log_queue l with
  | None => Undef
  | Some q =>
      match m q with
      | Done a q' => Done a l{{m_log_queue := Some q'}}
      | Undef => Undef
      | OutOfFuel q' => OutOfFuel l{{m_log_queue := Some q'}}
      | Exited c q' => Exited c l{{m_log_queue := Some q'}}
      end
  end.

(** A call that is still to be made: the time it reads, its level and what its
    format prints. *)
Abbreviation log_entry := (clock * Z * list Z)%type.

Section code.
Context `{LogOS}.

(** [Log::init] at the time [now]; the calls of [strcpy] and [strncpy] are
    undefined when they leave the array. *)
Definition init (now : clock) (file_name : list Z) (close_log log_buf_size split_lines max_queue_size : Z) : LM bool :=
  (if max_queue_size >? 0 then
     match BlockQueue_new [] max_queue_size (BQ [] 0 0 0 0) with
     | Done _ q => modify (λ l, l{{m_is_async := true}}{{m_log_queue := Some q}});; lcall PthreadCreate
     | _ => undef
     end
   else ret tt);;
  modify (λ l, l{{m_close_log := close_log}}{{m_log_buf_size := log_buf_size}});;
  (if log_buf_size <? 0 then exit 134 else ret tt);;
  modify (λ l, l{{m_buf := replicate (Z.to_nat log_buf_size) 0}}{{m_split_lines := split_lines}});;
  p ← need (strrchr SLASH (file_name ++ [0]));
  full_name ← (match p with
    | None => ret (snprintf_text 255 (date_text now ++ file_name))
    | Some i =>
        b ← gets log_name; b ← need (put_bytes b 0 (drop (Z.to_nat (i + 1)) file_name ++ [0]));
        modify (λ l, l{{log_name := b}});;
        b ← gets dir_name; b ← need (put_bytes b 0 (take (Z.to_nat (i + 1)) file_name));
        modify (λ l, l{{dir_name := b}});;
        dir ← str_of dir_name; name ← str_of log_name;
        ret (snprintf_text 255 (dir ++ date_text now ++ name))
    end);
  modify (λ l, l{{m_today := tm_mday now}});;
  fopen_append full_name;;
  fp ← gets m_fp;
  ret (match fp with Some _ => true | None => false end).

(** The first critical section of [write_log]: the line is counted, and the
    file changed at the first line of a day and at every [m_split_lines]-th
    line. *)
Definition count_line (now : clock) : LM unit :=
  c ← gets m_count; c ← long (c + 1); modify (λ l, l{{m_count := c}});;
  today ← gets m_today; count ← gets m_count; split ← gets m_split_lines;
  cut ← (if negb (today =? tm_mday now) then ret true else
         if split =? 0 then undef else ret (Z.rem count split =? 0));
  if cut : bool then
    fflush_fp;; fclose_fp;;
    let tail := snprintf_text 16 (date_text now) in
    new_log ← (if negb (today =? tm_mday now) then
        dir ← str_of dir_name; name ← str_of log_name;
        modify (λ l, l{{m_today := tm_mday now}}{{m_count := 0}});;
        ret (snprintf_text 255 (dir ++ tail ++ name))
      else
        dir ← str_of dir_name; name ← str_of log_name;
        if split =? 0 then undef else
        ret (snprintf_text 255 (dir ++ tail ++ name ++ [46] ++ decimal (Z.quot count split))));
    fopen_append new_log
  else ret tt.

(** The second one: [msg] is what [format] and its arguments print. *)
Definition buf_put (i : Z) (bs : list Z) : LM unit :=
  b ← gets m_buf; b ← need (put_bytes b i bs); modify (λ l, l{{m_buf := b}}).
Definition format_line (now : clock) (level : Z) (msg : list Z) : LM (list Z) :=
  let stamp := stamp_text now level in
  let n := Z.of_nat (length stamp) in
  buf_put 0 (snprintf_text 48 stamp ++ [0]);;
  size ← gets m_log_buf_size; room ← int (size - n); room ← int (room - 1);
  (if to_size room =? 0 then ret tt
   else buf_put n (take (Z.to_nat (to_size room - 1)) msg ++ [0]));;
  m ← int (Z.of_nat (length msg));
  i ← int (n + m); buf_put i [10];;
  i ← int (n + m); i ← int (i + 1); buf_put i [0];;
  str_of m_buf.

(** [m_log_queue->full()] and [m_log_queue->push(log_str)], whose result is not
    used. *)
Definition queue_full : LM bool :=
  r ← on_queue full;
  match r with (_, Return (RBool b)) => ret b | _ => undef end.
Definition queue_push (line : list Z) : LM unit := _ ← on_queue (push line); ret tt.

(** [write_log] by one thread. *)
Definition write_log (now : clock) (level : Z) (msg : list Z) : LM unit :=
  count_line now;;
  line ← format_line now level msg;
  async ← gets m_is_async;
  room ← (if async : bool then f ← queue_full; ret (negb f) else ret false);
  if room : bool then queue_push line else fputs_fp line.

Definition flush : LM unit := fflush_fp.

(** [LOG_DEBUG], [LOG_INFO], [LOG_WARN], [LOG_ERROR]: [close_log] is the member
    of the class that uses the macro. *)
Definition LOG (close_log level : Z) (now : clock) (msg : list Z) : LM unit :=
  if close_log =? 0 then write_log now level msg;; flush else ret tt.

(** One turn of [async_write_log], once there is a line: what [pop] returns, and
    the critical section that writes it. *)
Definition take_line : LM (option (list Z)) :=
  r ← on_queue (pop None);
  match r with (_, Return (RItem x)) => ret x | _ => ret None end.

(** * The threads of the log

    What is under [m_mutex] or inside a method of the queue is one step; the
    callers of [write_log] and the writer thread take steps in any order. *)
Inductive caller :=
| Outside
| Counted (now : clock) (level : Z) (msg : list Z)
| Formatted (line : list Z)
| Pushing (line : list Z)
| Putting (line : list Z).
Record log_thread := LogThread { lt_at : caller; lt_todo : list log_entry }.

Definition caller_step (t : log_thread) : option (LM log_thread) :=
  match lt_at t with
  | Outside =>
      match lt_todo t with
      | [] => None
      | (now, level, msg) :: todo => Some (count_line now;; ret (LogThread (Counted now level msg) todo))
      end
  | Counted now level msg =>
      Some (line ← format_line now level msg; ret (LogThread (Formatted line) (lt_todo t)))
  | Formatted line =>
      Some (async ← gets m_is_async;
            room ← (if async : bool then f ← queue_full; ret (negb f) else ret false);
            ret (LogThread (if room : bool then Pushing line else Putting line) (lt_todo t)))
  | Pushing line => Some (queue_push line;; ret (LogThread Outside (lt_todo t)))
  | Putting line => Some (fputs_fp line;; ret (LogThread Outside (lt_todo t)))
  end.

(** [ls_held]: the line [async_write_log] has taken and not written. *)
Record log_system := LogSystem {
  ls_log : Log; ls_callers : list log_thread; ls_held : option (list Z)
}.
Inductive lstep : log_system → log_system → Prop :=
| lstep_caller l ts w i t m t' l' :
    ts !! i = Some t → caller_step t = Some m → m l = Done t' l' →
    lstep (LogSystem l ts w) (LogSystem l' (<[i:=t']> ts) w)
| lstep_take l ts line l' :
    take_line l = Done (Some line) l' →
    lstep (LogSystem l ts None) (LogSystem l' ts (Some line))
| lstep_write l ts line l' :
    fputs_fp line l = Done tt l' →
    lstep (LogSystem l ts (Some line)) (LogSystem l' ts None).
(** A caller or the writer does something undefined next. *)
Definition lcrashed (s : log_system) : Prop :=
  (∃ t m, t ∈ ls_callers s ∧ caller_step t = Some m ∧ ∀ t' l', m (ls_log s) ≠ Done t' l') ∨
  (∃ line, ls_held s = Some line ∧ fputs_fp line (ls_log s) = Undef).

(** [~Log] *)
Definition Log_delete : LM unit :=
  fp ← gets m_fp; match fp with Some _ => fclose_fp | None => ret tt end.
End code.
