(* ===== verification/LogProps.v ===== *)
(** The log: the bounds of its buffer, the files its lines go to, and what the
    writer thread does with them. *)
From stdpp Require Import gmap list pretty relations.
From coqutil Require Import Datatypes.RecordSetters.
From S2P Require Import Prelude Monitor BlockQueue HttpModel HttpResponse Decimal HttpLineProps Log.

(** * The buffer *)

Lemma put_bytes_at b i pre rest bs :
  b = pre ++ rest → i = Z.of_nat (length pre) → (length bs ≤ length rest)%nat →
  put_bytes b i bs = Some (pre ++ bs ++ drop (length bs) rest).
Proof.
  intros -> -> Hl. unfold put_bytes. rewrite length_app.
  rewrite (proj2 (Z.leb_le _ _)), (proj2 (Z.leb_le _ _)) by lia. simpl. rewrite Nat2Z.id, take_app_length.
  by rewrite drop_app, (drop_ge pre), Nat.add_comm, Nat.add_sub by lia.
Qed.
Lemma put_bytes_length b i bs b' : put_bytes b i bs = Some b' → length b' = length b.
Proof.
  unfold put_bytes. case_match eqn:E; [|done]. apply andb_true_iff in E as [E1%Z.leb_le E2%Z.leb_le].
  intros [= <-]. rewrite !length_app, length_take, length_drop. lia.
Qed.
Lemma put_bytes_out b i bs : Z.of_nat (length b) < i + Z.of_nat (length bs) → put_bytes b i bs = None.
Proof. intros Hi. unfold put_bytes. rewrite (proj2 (Z.leb_gt (i + _) _)) by done. by rewrite andb_false_r. Qed.
Lemma put_bytes_in b i bs : 0 ≤ i → i + Z.of_nat (length bs) ≤ Z.of_nat (length b) → is_Some (put_bytes b i bs).
Proof. intros H1 H2. unfold put_bytes. rewrite (proj2 (Z.leb_le _ _)), (proj2 (Z.leb_le _ _)) by done. by eexists. Qed.

Lemma wp_buf_put l i bs b' (Q : unit → Log → Prop) :
  put_bytes (m_buf l) i bs = Some b' → Q tt l{{m_buf := b'}} → wp (buf_put i bs) l Q.
Proof. intros Hb HQ. unfold buf_put. repeat wp_base. eapply wp_need; [exact Hb|]. by wp_base. Qed.
Lemma buf_put_undef {A} l i bs (k : unit → LM A) : put_bytes (m_buf l) i bs = None → bind (buf_put i bs) k l = Undef.
Proof. intros Hb. unfold buf_put, bind, gets, need. by rewrite Hb. Qed.

(** The line that [write_log] makes. *)
Definition line_text (now : clock) (level : Z) (msg : list Z) : list Z := stamp_text now level ++ msg ++ [10].
(** It fits in the buffer. *)
Definition fits (l : Log) (now : clock) (level : Z) (msg : list Z) : Prop :=
  Z.of_nat (length (line_text now level msg)) < m_log_buf_size l.
Definition buffer_ok (l : Log) : Prop :=
  Z.of_nat (length (m_buf l)) = m_log_buf_size l ∧ 48 ≤ m_log_buf_size l ≤ INT_MAX.
(** A time as the clock gives it, before the year 10000. *)
Definition clock_ok (now : clock) : Prop :=
  0 ≤ tm_year now + 1900 ≤ 9999 ∧ 0 ≤ tm_mon now ≤ 11 ∧ 1 ≤ tm_mday now ≤ 31 ∧ 0 ≤ tm_hour now ≤ 23 ∧
  0 ≤ tm_min now ≤ 59 ∧ 0 ≤ tm_sec now ≤ 60 ∧ 0 ≤ tv_usec now ≤ 999999.
Lemma zero_pad_ok w z : 0 ≤ z < 10 ^ w → 0 < w → 0 ∉ zero_pad w z ∧ Z.of_nat (length (zero_pad w z)) = w.
Proof.
  intros Hz Hw. unfold zero_pad. rewrite (proj2 (Z.ltb_ge z 0)), Z.abs_eq by lia.
  destruct (decimal_bound (Z.to_nat w) z) as [H1 H2]; [by rewrite Z2Nat.id by lia|lia|]. split.
  - simpl. rewrite not_elem_of_app. split; [|done]. by intros [[=] _]%elem_of_replicate.
  - rewrite !length_app, length_replicate. simpl. lia.
Qed.
Lemma clock_text now level : clock_ok now →
  0 ∉ stamp_text now level ∧ (length (stamp_text now level) ≤ 47)%nat ∧ (length (date_text now) ≤ 15)%nat.
Proof.
  intros (Hy & Hmo & Hd & Hh & Hmi & Hs & Hu).
  destruct (decimal_bound 4 (tm_year now + 1900)) as [Y1 Y2]; [change (10 ^ Z.of_nat 4) with 10000; lia|lia|].
  destruct (zero_pad_ok 2 (tm_mon now + 1)) as [M1 M2]; [lia|lia|].
  destruct (zero_pad_ok 2 (tm_mday now)) as [D1 D2]; [lia|lia|].
  destruct (zero_pad_ok 2 (tm_hour now)) as [H1 H2]; [lia|lia|].
  destruct (zero_pad_ok 2 (tm_min now)) as [I1 I2]; [lia|lia|].
  destruct (zero_pad_ok 2 (tm_sec now)) as [S1 S2]; [lia|lia|].
  destruct (zero_pad_ok 6 (tv_usec now)) as [U1 U2]; [lia|lia|].
  assert (0 ∉ level_text level ∧ (length (level_text level) ≤ 8)%nat) as [L1 L2].
  { unfold level_text. repeat case_match; (split; [apply (bool_decide_unpack _); by vm_compute|vm_compute; lia]). }
  unfold stamp_text, date_text. split_and!.
  - rewrite !elem_of_app, !list_elem_of_singleton. naive_solver.
  - rewrite !length_app. simpl. lia.
  - rewrite !length_app. simpl. lia.
Qed.

Definition text_ok (now : clock) (msg : list Z) : Prop := clock_ok now ∧ 0 ∉ msg.

Lemma line_length now level msg :
  Z.of_nat (length (line_text now level msg)) = Z.of_nat (length (stamp_text now level)) + Z.of_nat (length msg) + 1.
Proof. unfold line_text. rewrite !length_app. simpl. lia. Qed.

Lemma stamp_whole now level : (length (stamp_text now level) ≤ 47)%nat → snprintf_text 48 (stamp_text now level) = stamp_text now level.
Proof. intros H. unfold snprintf_text. apply take_ge. simpl. lia. Qed.

Lemma to_size_id z : 0 ≤ z ≤ INT_MAX → to_size z = z.
Proof. intros Hz. unfold to_size, INT_MAX in *. apply Z.mod_small. lia. Qed.

Ltac log_simpl := simpl; unfold constant; cbv beta.
Tactic Notation "log_simpl" "in" hyp(H) := simpl in H; unfold constant in H; cbv beta in H.
Ltac log_int := wp_base; apply wp_int; [unfold INT_MIN, INT_MAX in *; lia|].

Lemma wp_format_line l now level msg (Q : list Z → Log → Prop) :
  buffer_ok l → text_ok now msg → fits l now level msg →
  (∀ b, length b = length (m_buf l) → Q (line_text now level msg) l{{m_buf := b}}) →
  wp (format_line now level msg) l Q.
Proof.
  intros [Hb Hsz] [Hck Hm0] Hfit HQ. destruct (clock_text now level Hck) as (Hs0 & Hst & _). unfold fits in Hfit. rewrite line_length in Hfit.
  unfold format_line, line_text in *. rewrite stamp_whole by done.
  set (stamp := stamp_text now level) in *. set (n := length stamp) in *.
  destruct l as [dn ln sl sz ct td fp buf qu asy cl calls]. simpl in *.
  wp_base. eapply wp_buf_put; [apply (put_bytes_at _ _ [] buf); [done|done|]|].
  { rewrite length_app. simpl. lia. }
  do 2 wp_base. log_simpl. log_int. log_int. rewrite to_size_id by lia.
  destruct (Z.eqb_spec (sz - Z.of_nat n - 1) 0); [lia|].
  rewrite (take_ge msg) by lia. rewrite <- (app_assoc stamp). wp_base.
  eapply wp_buf_put; [apply (put_bytes_at _ _ stamp ([0] ++ drop (length (stamp ++ [0])) buf)); [done|done|]|].
  { clear - Hb Hfit. simpl. rewrite length_drop, !length_app. simpl. lia. }
  log_int. log_int. wp_base. log_simpl.
  set (rest := drop (length (msg ++ [0])) (0 :: drop (length (stamp ++ [0])) buf)).
  assert (Z.of_nat (length rest) = sz - Z.of_nat n - Z.of_nat (length msg) - 1) as Hrest.
  { unfold rest. rewrite length_drop. simpl. rewrite length_drop, !length_app. simpl. lia. }
  eapply wp_buf_put; [apply (put_bytes_at _ _ (stamp ++ msg) ([0] ++ rest)); simpl|].
  { by rewrite <- !(app_assoc _). }
  { rewrite length_app. lia. }
  { lia. }
  log_int. log_int. wp_base. log_simpl.
  eapply wp_buf_put; [apply (put_bytes_at _ _ (stamp ++ msg ++ [10]) rest); simpl|].
  { by rewrite drop_0, <- !(app_assoc _). }
  { rewrite !length_app. simpl. lia. }
  { lia. }
  log_simpl. unfold str_of. repeat wp_base. simpl. eapply wp_need.
  { apply c_string_app. rewrite !elem_of_app, list_elem_of_singleton. naive_solver. }
  eapply HQ. rewrite !length_app. simpl. rewrite length_drop. unfold n in *. lia.
Qed.

Lemma bind_int_undef {S A} z (k : Z → M S A) s : k z s = Undef → bind (int z) k s = Undef.
Proof. intros Hk. unfold bind, int. by destruct (is_int z). Qed.
Lemma buf_put_done {A} l i bs b' (k : unit → LM A) :
  put_bytes (m_buf l) i bs = Some b' → bind (buf_put i bs) k l = k tt l{{m_buf := b'}}.
Proof. intros Hb. unfold buf_put, bind, gets, need. by rewrite Hb. Qed.

Lemma format_line_undef l now level msg :
  buffer_ok l → text_ok now msg → ¬ fits l now level msg → format_line now level msg l = Undef.
Proof.
  intros [Hb Hsz] [Hck _] Hfit. destruct (clock_text now level Hck) as (_ & Hst & _). unfold fits in Hfit. rewrite line_length in Hfit.
  unfold format_line. rewrite stamp_whole by done.
  set (stamp := stamp_text now level) in *. set (n := length stamp) in *.
  assert (∀ b m, (length b = length (m_buf l)) → m = Z.of_nat (length msg) →
    ∀ k2 : unit → LM (list Z), bind (int (Z.of_nat n + m)) (λ i, buf_put i [10];;
      i ← int (Z.of_nat n + m); i ← int (i + 1); bind (buf_put i [0]) k2) l{{m_buf := b}} = Undef) as Hend.
  { intros b m Hlen -> k2. apply bind_int_undef. destruct l. simpl in *.
    destruct (put_bytes b (Z.of_nat n + Z.of_nat (length msg)) [10]) as [b1|] eqn:E1.
    - erewrite buf_put_done by exact E1. do 2 apply bind_int_undef. apply buf_put_undef. simpl. unfold constant.
      apply put_bytes_out. apply put_bytes_length in E1. simpl. lia.
    - by apply buf_put_undef. }
  destruct (put_bytes_in (m_buf l) 0 (stamp ++ [0])) as [b1 E1]; [done|rewrite length_app; simpl; lia|].
  erewrite buf_put_done by exact E1. apply put_bytes_length in E1.
  change (bind (gets m_log_buf_size) ?k ?s) with (k (m_log_buf_size s) s). cbv beta. simpl m_log_buf_size.
  do 2 apply bind_int_undef. rewrite to_size_id by (unfold INT_MAX in *; destruct l; simpl in *; lia).
  assert (∀ (r : LM unit) k, (∃ b, length b = length (m_buf l) ∧ r l{{m_buf := b1}} = Done tt l{{m_buf := b}}) →
    (∀ b, length b = length (m_buf l) → k tt l{{m_buf := b}} = Undef) → bind r k l{{m_buf := b1}} = @Undef _ (list Z)) as Hseq.
  { intros r k (b & Hlen & Hr) Hk. rewrite (bind_done _ _ _ _ _ Hr). by apply Hk. }
  apply Hseq; [|intros b Hlen; apply bind_int_undef; by eapply Hend].
  destruct l as [dn ln sl sz ct td fp buf qu asy cl calls]. simpl in *. unfold constant in *.
  destruct (Z.eqb_spec (sz - Z.of_nat n - 1) 0); [by exists b1|].
  destruct (put_bytes_in b1 (Z.of_nat n) (take (Z.to_nat (sz - Z.of_nat n - 1 - 1)) msg ++ [0])) as [b2 E2]; [lia| |].
  { rewrite length_app, length_take. simpl. lia. }
  exists b2. split; [by rewrite <- E1; apply put_bytes_length in E2|].
  unfold buf_put, bind, gets, need. simpl. unfold constant. by rewrite E2.
Qed.

(** * Files *)

Definition puts_of (calls : list log_call) : list (list Z * list Z) :=
  omap (λ c, match c with Fputs name text => Some (name, text) | _ => None end) calls.

(** The [k]-th file of a day, 0 being the first. *)
Definition file_text (dir name : list Z) (now : clock) (k : Z) : list Z :=
  snprintf_text 255 (dir ++ snprintf_text 16 (date_text now) ++ name ++ if k =? 0 then [] else 46 :: decimal k).

(** The log is open, [d] being the time of its last line. *)
Record log_ok (dir name : list Z) (d : clock) (l : Log) : Prop := {
  lo_dir : c_string (dir_name l) = Some dir;
  lo_name : c_string (log_name l) = Some name;
  lo_buffer : buffer_ok l;
  lo_split : 0 < m_split_lines l;
  lo_count : 0 ≤ m_count l;
  lo_today : m_today l = tm_mday d;
  lo_fp : m_fp l = Some (file_text dir name d (m_count l / m_split_lines l))
}.

(** The number of a line in its day, after [count] of the day [today]. *)
Definition next_number (today count : Z) (now : clock) : Z := if today =? tm_mday now then count + 1 else 0.

Lemma div_same c n : 0 ≤ c → 0 < n → (c + 1) mod n ≠ 0 → (c + 1) / n = c / n.
Proof.
  intros Hc Hn Hm. pose proof (Z.div_mod c n). pose proof (Z.div_mod (c + 1) n).
  pose proof (Z.mod_pos_bound c n Hn). pose proof (Z.mod_pos_bound (c + 1) n Hn).
  assert ((c + 1) / n = c / n ∨ (c + 1) / n < c / n ∨ c / n < (c + 1) / n) as [|[|]] by lia; [done|nia|nia].
Qed.

Lemma wp_long {S} z (s : S) Q : - LONG_MAX - 1 ≤ z ≤ LONG_MAX → Q z s → wp (long z) s Q.
Proof.
  intros Hz HQ. unfold long, is_long. rewrite (proj2 (Z.leb_le _ _)), (proj2 (Z.leb_le _ _)) by lia. done.
Qed.

Section files.
Context `{LogOS} (Hopen : ∀ h name, fopen_ok h name = true) (dir name : list Z).

(** What the first critical section leaves alone. *)
Definition same_rest (l l' : Log) : Prop :=
  dir_name l' = dir_name l ∧ log_name l' = log_name l ∧ m_split_lines l' = m_split_lines l ∧
  m_log_buf_size l' = m_log_buf_size l ∧ m_buf l' = m_buf l ∧ m_log_queue l' = m_log_queue l ∧
  m_is_async l' = m_is_async l ∧ puts_of (log_calls l') = puts_of (log_calls l).

Lemma puts_of_app a b : puts_of (a ++ b) = puts_of a ++ puts_of b.
Proof. apply omap_app. Qed.

Lemma wp_str_of l (f : Log → list Z) t (Q : list Z → Log → Prop) : c_string (f l) = Some t → Q t l → wp (str_of f) l Q.
Proof. intros Ht HQ. unfold str_of. repeat wp_base. by eapply wp_need. Qed.
(** Closing the file and opening another. *)
Lemma wp_reopen l f (k : LM (list Z)) (Q : unit → Log → Prop) :
  m_fp l = Some f →
  wp k l{{log_calls := log_calls l ++ [Fflush f; Fclose f] }} (λ new l1,
    Q tt l1{{log_calls := log_calls l1 ++ [Fopen new] }}{{m_fp := Some new}}) →
  wp (fflush_fp;; fclose_fp;; new ← k; fopen_append new) l Q.
Proof using Hopen.
  destruct l as [dn ln sl sz ct td fp buf qu asy cl calls]. simpl. intros -> Hk.
  unfold fflush_fp, fclose_fp, lcall. do 4 (repeat wp_base; log_simpl). log_simpl in Hk.
  rewrite <- (app_assoc calls). eapply wp_mono; [exact Hk|].
  intros new l1 HQ. unfold fopen_append, lcall. repeat wp_base. rewrite Hopen. done.
Qed.

Lemma wp_count_line l d now (Q : unit → Log → Prop) :
  log_ok dir name d l → m_count l < LONG_MAX →
  (tm_mday now = tm_mday d → date_text now = date_text d) →
  (∀ l', log_ok dir name now l' → m_count l' = next_number (m_today l) (m_count l) now → same_rest l l' → Q tt l') →
  wp (count_line now) l Q.
Proof using Hopen.
  intros [Hdir Hname Hbuf Hsplit Hcount Htoday Hfp] Hmax Hdate HQ. unfold count_line.
  destruct l as [dn ln sl sz ct td fp buf qu asy cl calls]. unfold buffer_ok in *. simpl in *.
  do 3 wp_base. simpl. apply wp_long; [unfold LONG_MAX in *; lia|]. repeat wp_base. log_simpl. unfold next_number in *.
  destruct (Z.eqb_spec td (tm_mday now)) as [Et|Et]; simpl.
  - rewrite (proj2 (Z.eqb_neq sl 0)) by lia. rewrite Z.rem_mod_nonneg by lia. wp_base.
    destruct (Z.eqb_spec ((ct + 1) mod sl) 0) as [Em|Em].
    + eapply wp_reopen; [done|]. wp_base. eapply wp_str_of; [exact Hdir|]. wp_base.
      eapply wp_str_of; [exact Hname|]. repeat wp_base. log_simpl.
      rewrite Z.quot_div_nonneg by lia. pose proof (Z.div_mod (ct + 1) sl) as Hdm.
      apply HQ; [|done|by unfold same_rest; simpl; rewrite !puts_of_app, !app_nil_r].
      constructor; simpl; try done; [lia|]. unfold file_text. rewrite (proj2 (Z.eqb_neq _ 0)) by nia. done.
    + wp_base. apply HQ; [|done|done]. constructor; simpl; try done; [lia|].
      rewrite div_same by done. rewrite Hfp. unfold file_text. rewrite Hdate by congruence. done.
  - wp_base. eapply wp_reopen; [done|]. wp_base. eapply wp_str_of; [exact Hdir|]. wp_base.
    eapply wp_str_of; [exact Hname|]. repeat wp_base. log_simpl.
    apply HQ; [|done|by unfold same_rest; simpl; rewrite !puts_of_app, !app_nil_r].
    constructor; simpl; try done. rewrite Z.div_0_l by lia. unfold file_text. by rewrite app_nil_r.
Qed.
(** One call of [write_log] of a synchronous log. *)
Lemma wp_write_log l d now level msg (Q : unit → Log → Prop) :
  log_ok dir name d l → m_is_async l = false → m_count l < LONG_MAX →
  (tm_mday now = tm_mday d → date_text now = date_text d) →
  text_ok now msg → fits l now level msg →
  (∀ l', log_ok dir name now l' → m_count l' = next_number (m_today l) (m_count l) now →
    m_is_async l' = false → m_split_lines l' = m_split_lines l → m_log_buf_size l' = m_log_buf_size l →
    puts_of (log_calls l') = puts_of (log_calls l) ++
      [(file_text dir name now (next_number (m_today l) (m_count l) now / m_split_lines l), line_text now level msg)] →
    Q tt l') →
  wp (write_log now level msg) l Q.
Proof using Hopen.
  intros Hok Hasync Hmax Hdate Htext Hfit HQ. unfold write_log. wp_base.
  eapply wp_count_line; [done|done|done|]. intros l1 Hok1 Hct (Hd & Hn & Hsp & Hsz & Hb & Hq & Has & Hp).
  wp_base. eapply wp_format_line; [apply Hok1|done|by unfold fits in *; rewrite Hsz|]. intros b Hlen.
  destruct Hok1 as [Hdir Hname Hbuf Hsplit Hcount Htoday Hfp]. rewrite Hsp, Hct in *.
  destruct l1 as [dn ln sl sz ct td fp buf qu asy cl calls]. simpl in *. subst asy.
  repeat wp_base. simpl. rewrite Hasync. repeat wp_base. unfold fputs_fp. repeat wp_base. simpl. rewrite Hfp.
  repeat wp_base. log_simpl. apply HQ; simpl; try done.
  - constructor; simpl; try done; [|by rewrite Hsp|by rewrite Hct|by rewrite Hsp, Hct].
    destruct Hbuf as [Hb1 Hb2]. split; simpl in *; [lia|done].
  - unfold constant. rewrite puts_of_app. simpl. by rewrite Hp.
Qed.

(** What the lines of a log go to: each to the file of its day and of its number
    in the day. *)
Fixpoint log_spec (split today count : Z) (es : list log_entry) : list (list Z * list Z) :=
  match es with
  | [] => []
  | (now, level, msg) :: es =>
      let count := next_number today count now in
      (file_text dir name now (count / split), line_text now level msg) :: log_spec split (tm_mday now) count es
  end.
(** Days in a row are told apart by the day of the month. *)
Fixpoint days_differ (d : clock) (es : list log_entry) : Prop :=
  match es with
  | [] => True
  | (now, _, _) :: es => (tm_mday now = tm_mday d → date_text now = date_text d) ∧ days_differ now es
  end.
Definition entry_ok (size : Z) (e : log_entry) : Prop :=
  let '(now, level, msg) := e in
  text_ok now msg ∧ Z.of_nat (length (line_text now level msg)) < size.

Fixpoint write_all (es : list log_entry) : LM unit :=
  match es with
  | [] => ret tt
  | (now, level, msg) :: es => write_log now level msg;; write_all es
  end.

Lemma wp_write_all es l d :
  log_ok dir name d l → m_is_async l = false → m_count l + Z.of_nat (length es) ≤ LONG_MAX →
  days_differ d es → Forall (entry_ok (m_log_buf_size l)) es →
  wp (write_all es) l (λ _ l', puts_of (log_calls l') = puts_of (log_calls l) ++
    log_spec (m_split_lines l) (m_today l) (m_count l) es).
Proof using Hopen.
  revert l d. induction es as [|[[now level] msg] es IH]; intros l d Hok Hasync Hmax Hdays Hes.
  { apply wp_ret. by rewrite app_nil_r. }
  destruct Hdays as [Hd Hdays]. apply Forall_cons in Hes as [[Htext Hfit] Hes]. simpl length in Hmax.
  simpl. wp_base. eapply wp_write_log; [done|done|lia|done|done|done|].
  intros l1 Hok1 Hct Has1 Hsp Hsz Hp. eapply wp_mono; [eapply IH; [done|done| |done|by rewrite Hsz]|].
  - rewrite Hct. unfold next_number. pose proof (lo_count _ _ _ _ Hok). case_match; lia.
  - intros _ l2 ->. rewrite Hp, <- (app_assoc _). simpl. rewrite Hsp, Hct. by rewrite (lo_today _ _ _ _ Hok1).
Qed.
End files.

(** * Starting *)
Lemma last_at_split b x y : b ∉ y → last_at b (x ++ b :: y) = Some (Z.of_nat (length x)).
Proof.
  intros Hy. induction x as [|c x IH]; simpl.
  - assert (last_at b y = None) as ->; [|by rewrite Z.eqb_refl].
    induction y as [|c y IHy]; simpl; [done|]. rewrite IHy by set_solver.
    rewrite (proj2 (Z.eqb_neq _ _)); [done|set_solver].
  - rewrite IH. f_equal. lia.
Qed.

Definition path_ok (dir name : list Z) : Prop :=
  (∃ d0, dir = d0 ++ [SLASH]) ∧ SLASH ∉ name ∧ 0 ∉ dir ∧ 0 ∉ name ∧ (length dir ≤ 127)%nat ∧ (length name ≤ 127)%nat.

(** Storing a string in an array of zeros. *)
Lemma put_in_zeros n s e : (length s < n)%nat → 0 ∉ s → e = [] ∨ e = [0] →
  ∃ b, put_bytes (replicate n 0) 0 (s ++ e) = Some b ∧ c_string b = Some s.
Proof.
  intros Hl Hs He. eexists. split; [apply (put_bytes_at _ _ [] (replicate n 0)); [done|done|]|].
  { rewrite length_app, length_replicate. destruct He as [->| ->]; simpl; lia. }
  simpl. rewrite drop_replicate, length_app. destruct He as [->| ->]; simpl.
  - rewrite app_nil_r. replace (n - (length s + 0))%nat with (S (n - S (length s))) by lia. by apply c_string_app.
  - rewrite <- app_assoc. by apply c_string_app.
Qed.

(** [init] with room for [max] lines in the queue; none if it is 0. *)
Definition started dir name now size split max (l : Log) : Prop :=
  log_ok dir name now l ∧ m_is_async l = (max >? 0) ∧ m_count l = 0 ∧ m_split_lines l = split ∧
  m_log_buf_size l = size ∧ puts_of (log_calls l) = [] ∧
  (0 < max → ∃ q, m_log_queue l = Some q ∧ bq_rep max q []).

Lemma wp_init `{LogOS} (Hopen : ∀ h name, fopen_ok h name = true) dir name now close size split max :
  path_ok dir name → clock_ok now → 48 ≤ size ≤ INT_MAX → 0 < split → 0 ≤ max ≤ INT_MAX →
  wp (init now (dir ++ name) close size split max) Log_new (λ r l, r = true ∧ started dir name now size split max l).
Proof.
  intros ([d0 ->] & Hsl & Hd0 & Hn0 & Hdl & Hnl) Hck Hsize Hsplit Hmax. unfold init, Log_new.
  destruct (clock_text now 0 Hck) as (_ & _ & Hdate).
  destruct (put_in_zeros 128 (d0 ++ [SLASH]) []) as (bd & Ebd & Hbd); [lia|done|by left|].
  destruct (put_in_zeros 128 name [0]) as (bn & Ebn & Hbn); [lia|done|by right|].
  revert Ebd Ebn. generalize (replicate 128 0). intros zs Ebd Ebn. rewrite app_nil_r in Ebd.
  rewrite (proj2 (Z.ltb_ge size 0)) by lia.
  assert (strrchr SLASH (((d0 ++ [SLASH]) ++ name) ++ [0]) = Some (Some (Z.of_nat (length d0)))) as ->.
  { unfold strrchr. rewrite c_string_app by (rewrite elem_of_app; naive_solver). simpl.
    rewrite <- (app_assoc d0). simpl. by rewrite last_at_split. }
  assert (Z.to_nat (Z.of_nat (length d0) + 1) = length (d0 ++ [SLASH])) as Hi by (rewrite length_app; simpl; lia).
  wp_base. eapply wp_mono with (P := λ _ l, ∃ qu calls, puts_of calls = [] ∧
    (0 < max → ∃ q, qu = Some q ∧ bq_rep max q []) ∧
    l = LogObject zs zs 0 0 0 0 None [] qu (max >? 0) 0 calls).
  { rewrite Z.gtb_ltb. destruct (Z.ltb_spec 0 max) as [Hpos|Hpos].
    - destruct (wp_elim _ _ _ (wp_BlockQueue_new (T:=list Z) [] max (BQ [] 0 0 0 0) (conj Hpos (proj2 Hmax)))) as ([] & q & -> & [Hq _]).
      unfold lcall. repeat wp_base. log_simpl. eexists (Some q), _. split_and!; [|by eauto|done]. done.
    - wp_base. eexists None, _. split_and!; [|lia|done]. done. }
  intros [] l (qu & calls & Hcalls & Hqu & ->).
  do 4 (repeat wp_base; log_simpl). rewrite Hi, take_app_length, drop_app_length. eapply wp_need; [exact Ebn|].
  do 4 (repeat wp_base; log_simpl).
  eapply wp_need; [exact Ebd|]. do 2 (repeat wp_base; log_simpl). eapply wp_str_of; [exact Hbd|].
  wp_base. eapply wp_str_of; [exact Hbn|]. repeat wp_base. log_simpl. unfold fopen_append, lcall.
  do 4 (repeat wp_base; log_simpl). rewrite Hopen. split; [done|].
  split_and!; simpl; try done; [|by rewrite puts_of_app, Hcalls]. constructor; simpl; try done.
  - split; simpl; [|done]. rewrite length_replicate. lia.
  - rewrite Z.div_0_l by lia. unfold file_text.
    assert (snprintf_text 16 (date_text now) = date_text now) as -> by (apply take_ge; simpl; lia).
    simpl. by rewrite app_nil_r.
Qed.

(** C17: A line that [write_log] formats is the time stamp, the level, the message
    and a newline when these and a final NUL fit in [m_buf]; otherwise, although
    [vsnprintf] was told how much room there is, the newline or the NUL is
    written behind the buffer, because [vsnprintf] returns the length the
    message would have had. *)
Theorem format_line_bounds l now level msg :
  buffer_ok l → text_ok now msg →
  if Z.of_nat (length (line_text now level msg)) <? m_log_buf_size l
  then ∃ b, length b = length (m_buf l) ∧ format_line now level msg l = Done (line_text now level msg) l{{m_buf := b}}
  else format_line now level msg l = Undef.
Proof.
  intros Hb Ht. destruct (Z.ltb_spec (Z.of_nat (length (line_text now level msg))) (m_log_buf_size l)) as [Hf|Hf].
  - assert (wp (format_line now level msg) l (λ r l', r = line_text now level msg ∧
      ∃ b, length b = length (m_buf l) ∧ l' = l{{m_buf := b}})) as Hw by (apply wp_format_line; eauto).
    destruct (wp_elim _ _ _ Hw) as (r & l' & -> & -> & b & Hlen & ->). eauto.
  - apply format_line_undef; [done|done|]. unfold fits. lia.
Qed.

(** C15: A log that writes its lines itself, opened with [init] and used by one
    thread, sends the [c]-th line of a day, with the right stamp, to the file of
    that day with the suffix [.k], where [k] is [c / split_lines], and to the
    file without suffix while that is 0. The lines of the day of [init] count
    from 1, those of later days from 0, so the very first file holds one line
    less than the others. *)
Theorem Log_splits_files `{LogOS} dir name now0 close size split es :
  (∀ h n, fopen_ok h n = true) →
  path_ok dir name → clock_ok now0 → 48 ≤ size ≤ INT_MAX → 0 < split →
  days_differ now0 es → Forall (entry_ok size) es → Z.of_nat (length es) ≤ LONG_MAX →
  ∃ l l', init now0 (dir ++ name) close size split 0 Log_new = Done true l ∧
    write_all es l = Done tt l' ∧
    puts_of (log_calls l') = log_spec dir name split (tm_mday now0) 0 es.
Proof.
  intros Hopen Hp Hd Hs Hsp Hdays Hes Hmax.
  destruct (wp_elim _ _ _ (wp_init Hopen dir name now0 close size split 0 Hp Hd Hs Hsp ltac:(unfold INT_MAX; lia)))
    as (r & l & Hinit & -> & Hok & Has & Hc & Hspl & Hsz & Hcalls & _).
  destruct (wp_elim _ _ _ (wp_write_all Hopen dir name es l now0 Hok Has ltac:(rewrite Hc; lia) Hdays ltac:(by rewrite Hsz)))
    as ([] & l' & Hw & Hputs).
  exists l, l'. split_and!; [done|done|]. rewrite Hputs, Hcalls, Hspl, Hc. by rewrite (lo_today _ _ _ _ Hok).
Qed.
