(* ===== verification/LogThreads.v ===== *)
(** The log with its writer thread: what one calling thread logs is never lost,
    what two log at once may be. *)
From stdpp Require Import gmap list relations.
From coqutil Require Import Datatypes.RecordSetters.
From S2P Require Import Prelude Monitor BlockQueue HttpModel HttpResponse Log LogProps.

Definition entry_line (e : log_entry) : list Z := let '(now, level, msg) := e in line_text now level msg.
(** The lines that reached a file. *)
Definition written (l : Log) : list (list Z) := (puts_of (log_calls l)).*2.

Section one_caller.
Context `{LogOS} (Hopen : ∀ h name, fopen_ok h name = true) (dir name : list Z) (n : Z) (es : list log_entry).

(** Where the caller is with the entries [es]: those before are [past]. *)
Definition caller_at (t : log_thread) (l : Log) (qs : list (list Z)) (past : list log_entry) : Prop :=
  match lt_at t with
  | Outside => past ++ lt_todo t = es
  | Counted now level msg =>
      past ++ (now, level, msg) :: lt_todo t = es ∧ text_ok now msg ∧ fits l now level msg
  | Formatted line | Putting line => ∃ e, past ++ e :: lt_todo t = es ∧ line = entry_line e
  | Pushing line => ∃ e, past ++ e :: lt_todo t = es ∧ line = entry_line e ∧ Z.of_nat (length qs) < n
  end.
Definition held_lines (w : option (list Z)) : list (list Z) := match w with Some line => [line] | None => [] end.
Record log_inv (s : log_system) (t : log_thread) (d : clock) (q : BlockQueue (list Z)) (qs : list (list Z))
    (past : list log_entry) : Prop := {
  li_callers : ls_callers s = [t];
  li_log : log_ok dir name d (ls_log s);
  li_async : m_is_async (ls_log s) = true;
  li_queue : m_log_queue (ls_log s) = Some q;
  li_rep : bq_rep n q qs;
  li_at : caller_at t (ls_log s) qs past;
  li_count : m_count (ls_log s) + Z.of_nat (length (lt_todo t)) ≤ LONG_MAX;
  li_days : days_differ d (lt_todo t);
  li_todo : Forall (entry_ok (m_log_buf_size (ls_log s))) (lt_todo t);
  li_lines : written (ls_log s) ++ held_lines (ls_held s) ++ qs ≡ₚ entry_line <$> past
}.
Definition log_good (s : log_system) : Prop := ∃ t d q qs past, log_inv s t d q qs past.

(** The steps left: six for an entry, those of the writer included. *)
Definition caller_left (t : log_thread) : nat :=
  6 * length (lt_todo t) +
  match lt_at t with Outside => 0 | Counted _ _ _ => 5 | Formatted _ => 4 | Pushing _ | Putting _ => 3 end.
Definition queued (l : Log) : nat := match m_log_queue l with Some q => Z.to_nat (m_size q) | None => 0 end.
Definition log_left (s : log_system) : nat :=
  (sum_list (caller_left <$> ls_callers s) + 2 * queued (ls_log s) + length (held_lines (ls_held s)))%nat.

Lemma queued_length s t d q qs past : log_inv s t d q qs past → queued (ls_log s) = length qs.
Proof. intros []. unfold queued. rewrite li_queue0, (br_size _ _ _ li_rep0). lia. Qed.

Lemma wp_on_queue {A} (m : BQM A) l q (Q : A → Log → Prop) :
  m_log_queue l = Some q → wp m q (λ a q', Q a l{{m_log_queue := Some q'}}) → wp (on_queue m) l Q.
Proof. intros Hq. unfold wp, on_queue. rewrite Hq. by destruct (m q). Qed.
Lemma wp_fputs l f text (Q : unit → Log → Prop) :
  m_fp l = Some f → Q tt l{{log_calls := log_calls l ++ [Fputs f text] }} → wp (fputs_fp text) l Q.
Proof. intros Hf HQ. unfold fputs_fp, lcall. repeat wp_base. rewrite Hf. by repeat wp_base. Qed.
Lemma wp_queue_full l q qs (Q : bool → Log → Prop) :
  m_log_queue l = Some q → bq_rep n q qs → Q (n <=? Z.of_nat (length qs)) l → wp queue_full l Q.
Proof.
  intros Hq Hr HQ. unfold queue_full. wp_base. eapply wp_on_queue; [done|]. unfold full, returns. repeat wp_base.
  rewrite (br_max _ _ _ Hr), (br_size _ _ _ Hr).
  assert (l{{m_log_queue := Some q}} = l) as Hl by (destruct l; simpl in *; unfold constant; by subst).
  destruct (n <=? Z.of_nat (length qs)); repeat wp_base; by rewrite Hl.
Qed.
Lemma written_app l f text :
  written l{{log_calls := log_calls l ++ [Fputs f text] }} = written l ++ [text].
Proof. unfold written. destruct l; simpl. unfold constant. by rewrite puts_of_app, fmap_app. Qed.

(** A step of the caller. *)
Lemma wp_caller s t d q qs past m :
  log_inv s t d q qs past → caller_step t = Some m →
  wp m (ls_log s) (λ t' l', log_good (LogSystem l' [t'] (ls_held s)) ∧
    (log_left (LogSystem l' [t'] (ls_held s)) < log_left s)%nat).
Proof using Hopen.
  intros Hi Hm. pose proof (queued_length _ _ _ _ _ _ Hi) as Hql.
  destruct s as [l ts w]. destruct t as [at_ todo]. destruct Hi as [Hts Hlog Has Hq Hr Hat Hcnt Hd Htd Hl]. simpl in *.
  subst ts. unfold log_left, caller_left. simpl. destruct at_ as [|now level msg|line|line|line]; simpl in *.
  - destruct todo as [|[[now level] msg] todo]; [done|]. injection Hm as <-. simpl in *.
    apply Forall_cons in Htd as [[Htext Hfit] Htd]. wp_base.
    eapply (wp_count_line Hopen dir name); [done|lia|apply Hd|].
    intros l' Hlog' Hc' (Hdn & Hln & Hsp & Hsz & Hb & Hq' & Has' & Hp). wp_base. split.
    + exists (LogThread (Counted now level msg) todo), now, q, qs, past. constructor; simpl; try congruence; try done.
      * split_and!; [done|done|]. unfold fits. by rewrite Hsz.
      * rewrite Hc'. unfold next_number. pose proof (lo_count _ _ _ _ Hlog). case_match; lia.
      * apply Hd.
      * unfold written in *. by rewrite Hp.
    + unfold queued. rewrite Hq'. simpl. lia.
  - injection Hm as <-. destruct Hat as (Hes & Htext & Hfit). wp_base.
    eapply wp_format_line; [apply Hlog|done|done|]. intros b Hb. wp_base. split.
    + exists (LogThread (Formatted (line_text now level msg)) todo), d, q, qs, past.
      destruct Hlog as [Hdir Hname [Hbuf Hbuf'] Hsplit Hcount Htoday Hfp].
      destruct l. simpl in *. unfold constant in *. constructor; simpl; try done; [|by eexists (_, _, _)].
      constructor; simpl; try done. split; simpl; [by rewrite Hb|done].
    + unfold queued. destruct l. simpl in *. lia.
  - injection Hm as <-. destruct Hat as (e & Hes & ->). repeat wp_base. rewrite Has. wp_base.
    eapply wp_queue_full; [done|done|]. repeat wp_base. split.
    + eexists _, d, q, qs, past. constructor; simpl; try done.
      destruct (Z.leb_spec n (Z.of_nat (length qs))); simpl; by exists e.
    + destruct (n <=? Z.of_nat (length qs)); simpl; lia.
  - injection Hm as <-. destruct Hat as (e & Hes & -> & Hroom). unfold queue_push. do 2 wp_base.
    eapply wp_on_queue; [done|]. eapply wp_mono; [by apply wp_push|]. intros r q' Hpost.
    rewrite (proj2 (Z.ltb_lt _ _)) in Hpost by done. destruct Hpost as [-> Hr']. repeat wp_base. split.
    + exists (LogThread Outside todo), d, q', (qs ++ [entry_line e]), (past ++ [e]).
      destruct Hlog as [Hdir Hname [Hbuf Hbuf'] Hsplit Hcount Htoday Hfp].
      destruct l. simpl in *. unfold constant in *. constructor; simpl; try done.
      * unfold caller_at. simpl. by rewrite <- app_assoc.
      * rewrite fmap_app. unfold written in *. simpl in *. rewrite <- Hl. by rewrite !app_assoc.
    + unfold queued in *. destruct l. simpl in *. rewrite (br_size _ _ _ Hr'). rewrite Hq in *.
      rewrite length_app. simpl. lia.
  - injection Hm as <-. destruct Hat as (e & Hes & ->). wp_base.
    eapply wp_fputs; [apply Hlog|]. wp_base. split.
    + exists (LogThread Outside todo), d, q, qs, (past ++ [e]).
      pose proof (written_app l) as Hw.
      destruct Hlog as [Hdir Hname [Hbuf Hbuf'] Hsplit Hcount Htoday Hfp].
      destruct l. simpl in *. unfold constant in *. constructor; simpl; try done.
      * unfold caller_at. simpl. by rewrite <- app_assoc.
      * rewrite Hw, fmap_app. simpl. rewrite <- Hl. rewrite <- !app_assoc. apply Permutation_app_head.
        simpl. by rewrite app_assoc, <- Permutation_cons_append.
    + unfold queued. destruct l. simpl in *. lia.
Qed.
(** A step of the writer. *)
Lemma wp_take_line s t d q qs past :
  log_inv s t d q qs past → ls_held s = None →
  wp take_line (ls_log s) (λ r l', match r with
    | None => qs = []
    | Some line => log_good (LogSystem l' (ls_callers s) (Some line)) ∧
        (log_left (LogSystem l' (ls_callers s) (Some line)) < log_left s)%nat ∧ qs ≠ []
    end).
Proof.
  intros Hi Hw. pose proof (queued_length _ _ _ _ _ _ Hi) as Hql.
  destruct s as [l ts w]. destruct Hi as [Hts Hlog Has Hq Hr Hat Hcnt Hd Htd Hl]. simpl in *. subst ts w.
  unfold take_line. wp_base. eapply wp_on_queue; [done|]. unfold pop. simpl. repeat wp_base.
  rewrite (size_empty _ _ _ Hr). destruct qs as [|line qs]; simpl; [by do 2 wp_base|].
  eapply wp_mono; [by apply wp_pop_item|]. intros r q' [-> Hr']. wp_base. split_and!; [| |done].
  - exists t, d, q', qs, past.
    destruct Hlog as [Hdir Hname [Hbuf Hbuf'] Hsplit Hcount Htoday Hfp].
    destruct l. simpl in *. unfold constant in *. constructor; simpl; try done.
    destruct t as [[] todo]; try done. unfold caller_at in *. simpl in *. naive_solver lia.
  - unfold log_left. simpl. unfold queued in *. rewrite Hq in *. destruct l. simpl in *.
    rewrite (br_size _ _ _ Hr'). rewrite (br_size _ _ _ Hr) in *. simpl in *. lia.
Qed.
Lemma wp_writer_puts s t d q qs past line :
  log_inv s t d q qs past → ls_held s = Some line →
  wp (fputs_fp line) (ls_log s) (λ _ l', log_good (LogSystem l' (ls_callers s) None) ∧
    (log_left (LogSystem l' (ls_callers s) None) < log_left s)%nat).
Proof.
  intros Hi Hw. destruct s as [l ts w]. destruct Hi as [Hts Hlog Has Hq Hr Hat Hcnt Hd Htd Hl]. simpl in *. subst ts w.
  eapply wp_fputs; [apply Hlog|]. split.
  - exists t, d, q, qs, past. pose proof (written_app l) as Hwr.
    destruct Hlog as [Hdir Hname [Hbuf Hbuf'] Hsplit Hcount Htoday Hfp].
    destruct l. simpl in *. unfold constant in *. constructor; simpl; try done.
    rewrite Hwr. by rewrite <- app_assoc.
  - unfold log_left, queued. destruct l. simpl. lia.
Qed.

Lemma done_of_wp {S A} (m : M S A) s a s' Q : wp m s Q → m s = Done a s' → Q a s'.
Proof. unfold wp. intros Hw Hd. by rewrite Hd in Hw. Qed.

Lemma lstep_good s s' : log_good s → lstep s s' → log_good s' ∧ (log_left s' < log_left s)%nat.
Proof using Hopen.
  intros (t & d & q & qs & past & Hi) Hs. pose proof (li_callers _ _ _ _ _ _ Hi) as Hts.
  destruct Hs as [l ts w i t0 m t' l' Hti Hm Hd'|l ts line l' Hd'|l ts line l' Hd']; simpl in *; subst ts.
  - destruct i as [|i]; [|done]. injection Hti as ->. simpl.
    by apply (done_of_wp _ _ _ _ _ (wp_caller _ _ _ _ _ _ _ Hi Hm)).
  - apply (done_of_wp _ _ _ _ _ (wp_take_line _ _ _ _ _ _ Hi eq_refl)) in Hd'. by destruct Hd' as (H1 & H2 & _).
  - by apply (done_of_wp _ _ _ _ _ (wp_writer_puts _ _ _ _ _ _ line Hi eq_refl)) in Hd'.
Qed.
Lemma log_good_steps s s' : log_good s → rtc lstep s s' → log_good s'.
Proof using Hopen. intros Hg Hs. induction Hs as [|s s1 s' H1 _ IH]; [done|]. apply IH. by eapply lstep_good. Qed.
Lemma log_good_bound k s s' : log_good s → nsteps lstep k s s' → (k ≤ log_left s)%nat.
Proof using Hopen.
  intros Hg Hs. induction Hs as [|k s s1 s' H1 _ IH]; [lia|].
  destruct (lstep_good _ _ Hg H1) as [Hg1 Hlt]. specialize (IH Hg1). lia.
Qed.
Lemma log_good_safe s : log_good s → ¬ lcrashed s.
Proof using Hopen.
  intros (t & d & q & qs & past & Hi) [(t0 & m & Ht0 & Hm & Hn)|(line & Hw & Hu)].
  - rewrite (li_callers _ _ _ _ _ _ Hi) in Ht0. apply list_elem_of_singleton in Ht0 as ->.
    destruct (wp_elim _ _ _ (wp_caller _ _ _ _ _ _ _ Hi Hm)) as (t' & l' & Hd & _). by apply (Hn t' l').
  - destruct (wp_elim _ _ _ (wp_writer_puts _ _ _ _ _ _ line Hi Hw)) as (? & ? & Hd & _). congruence.
Qed.
Lemma log_good_end s : log_good s → (∀ s', ¬ lstep s s') → written (ls_log s) ≡ₚ entry_line <$> es.
Proof using Hopen.
  intros (t & d & q & qs & past & Hi) Hn. destruct (caller_step t) as [m|] eqn:Hm.
  { destruct (wp_elim _ _ _ (wp_caller _ _ _ _ _ _ _ Hi Hm)) as (t' & l' & Hd & _).
    destruct s as [l ts w]. pose proof (li_callers _ _ _ _ _ _ Hi) as Hts.
    simpl in *. subst ts. destruct (Hn (LogSystem l' (<[0%nat:=t']> [t]) w)). by eapply lstep_caller. }
  destruct s as [l ts w]. destruct w as [line|].
  { destruct (wp_elim _ _ _ (wp_writer_puts _ _ _ _ _ _ line Hi eq_refl)) as ([] & l' & Hd & _).
    destruct (Hn _ (lstep_write _ _ _ _ Hd)). }
  destruct (wp_elim _ _ _ (wp_take_line _ _ _ _ _ _ Hi eq_refl)) as ([line|] & l' & Hd & Hpost).
  { destruct (Hn _ (lstep_take _ _ _ _ Hd)). }
  subst qs. destruct Hi as [_ _ _ _ _ Hat _ _ _ Hl]. simpl in *. rewrite app_nil_r in Hl. rewrite Hl.
  destruct t as [[] [|e todo]]; try done; [|by destruct e as [[]]]. unfold caller_at in Hat. simpl in Hat.
  by rewrite app_nil_r in Hat; subst.
Qed.
End one_caller.

(** C16: One thread that logs through the queue, while the writer thread runs:
    however their steps interleave, nothing undefined is executed, the threads
    stop after a bounded number of steps, and they stop only when every line
    has been written to a file once. (The order may change: a line that finds
    the queue full is written at once, before those that wait in it.) *)
Theorem Log_one_caller_loses_nothing `{LogOS} dir name now0 close size split max es :
  (∀ h n, fopen_ok h n = true) →
  path_ok dir name → clock_ok now0 → 48 ≤ size ≤ INT_MAX → 0 < split → 0 < max ≤ INT_MAX →
  days_differ now0 es → Forall (entry_ok size) es → Z.of_nat (length es) ≤ LONG_MAX →
  ∃ l, init now0 (dir ++ name) close size split max Log_new = Done true l ∧
    ∀ s, rtc lstep (LogSystem l [LogThread Outside es] None) s →
      ¬ lcrashed s ∧
      (∀ k s', nsteps lstep k s s' → (k ≤ log_left s)%nat) ∧
      ((∀ s', ¬ lstep s s') → written (ls_log s) ≡ₚ entry_line <$> es).
Proof.
  intros Hopen Hp Hd Hs Hsp Hm Hdays Hes Hmax.
  destruct (wp_elim _ _ _ (wp_init Hopen dir name now0 close size split max Hp Hd Hs Hsp ltac:(lia)))
    as (r & l & Hinit & -> & Hok & Has & Hc & Hspl & Hsz & Hcalls & Hq).
  exists l. split; [done|]. intros s Hsteps. destruct Hq as (q & Hq & Hr); [lia|].
  assert (log_good dir name max es (LogSystem l [LogThread Outside es] None)) as Hg.
  { exists (LogThread Outside es), now0, q, [], []. constructor; simpl; try done.
    - rewrite Has, Z.gtb_ltb. apply Z.ltb_lt. lia.
    - lia.
    - by rewrite Hsz.
    - unfold written. by rewrite Hcalls. }
  pose proof (log_good_steps Hopen _ _ _ _ _ _ Hg Hsteps) as Hg'. split_and!.
  - by eapply log_good_safe.
  - intros k s' Hk. by eapply log_good_bound.
  - intros Hn. by eapply log_good_end.
Qed.
