(* ===== verification/LogWitness.v ===== *)
(** The log at concrete times and lines; two threads that log at once. *)
From stdpp Require Import gmap list relations.
From coqutil Require Import Datatypes.RecordSetters.
From S2P Require Import Prelude Monitor BlockQueue HttpModel HttpResponse HttpLineProps Log LogProps LogThreads.

#[local] Instance log_os : LogOS := {| fopen_ok _ _ := true |}.

Definition demo_dir : list Z := bytes "./".
Definition demo_name : list Z := bytes "ServerLog".
Definition demo_time (day sec : Z) : clock := Clock 124 4 day 13 5 sec 42.
Definition demo_entries : list log_entry :=
  [(demo_time 17 1, 1, bytes "a"); (demo_time 17 2, 3, bytes "b"); (demo_time 17 3, 1, bytes "c");
   (demo_time 18 0, 0, bytes "d"); (demo_time 18 1, 2, bytes "e"); (demo_time 18 2, 7, bytes "f")].

Lemma demo_path : path_ok demo_dir demo_name.
Proof.
  split_and!; [by exists [46]|..]; try (apply (bool_decide_unpack _); by vm_compute).
  all: vm_compute; lia.
Qed.
Lemma demo_clock : clock_ok (demo_time 17 0).
Proof. unfold clock_ok. simpl. lia. Qed.
Lemma demo_entries_ok : Forall (entry_ok 64) demo_entries.
Proof.
  repeat constructor; simpl; try lia.
  all: first [apply (bool_decide_unpack _); by vm_compute|by vm_compute].
Qed.
Lemma demo_days : days_differ (demo_time 17 0) demo_entries.
Proof. simpl. split_and!; intros; done. Qed.

(** A message of 27 characters is the longest that fits in 64 bytes. *)
Definition demo_log : Log :=
  (Log_new){{m_buf := replicate 64 0}}{{m_log_buf_size := 64}}.
Lemma format_line_bounds_witness :
  (∃ b, length b = 64%nat ∧ format_line (demo_time 17 1) 1 (replicate 27 120) demo_log =
    Done (bytes "2024-05-17 13:05:01.000042 [info]: xxxxxxxxxxxxxxxxxxxxxxxxxxx" ++ [10]) demo_log{{m_buf := b}}) ∧
  format_line (demo_time 17 1) 1 (replicate 28 120) demo_log = Undef.
Proof.
  assert (buffer_ok demo_log) as Hb by (split; vm_compute; split; congruence).
  assert (∀ k, text_ok (demo_time 17 1) (replicate k 120)) as Ht.
  { intros k. split; [unfold clock_ok; simpl; lia|]. by intros [[=] _]%elem_of_replicate. }
  split.
  - exact (format_line_bounds demo_log (demo_time 17 1) 1 (replicate 27 120) Hb (Ht _)).
  - exact (format_line_bounds demo_log (demo_time 17 1) 1 (replicate 28 120) Hb (Ht _)).
Defined.

Lemma Log_splits_files_witness :
  ∃ l l', init (demo_time 17 0) (bytes "./ServerLog") 0 64 2 0 Log_new = Done true l ∧
    write_all demo_entries l = Done tt l' ∧
    (puts_of (log_calls l')).*1 =
      [bytes "./2024_05_17_ServerLog"; bytes "./2024_05_17_ServerLog.1"; bytes "./2024_05_17_ServerLog.1";
       bytes "./2024_05_18_ServerLog"; bytes "./2024_05_18_ServerLog"; bytes "./2024_05_18_ServerLog.1"].
Proof.
  destruct (Log_splits_files demo_dir demo_name (demo_time 17 0) 0 64 2 demo_entries) as (l & l' & H1 & H2 & H3).
  - done.
  - exact demo_path.
  - exact demo_clock.
  - unfold INT_MAX. lia.
  - lia.
  - exact demo_days.
  - exact demo_entries_ok.
  - vm_compute. congruence.
  - exists l, l'. split; [exact H1|]. split; [exact H2|]. rewrite H3. by vm_compute.
Defined.

Lemma Log_one_caller_loses_nothing_witness :
  ∃ l, init (demo_time 17 0) (bytes "./ServerLog") 0 64 2 1 Log_new = Done true l ∧
    ∀ s, rtc lstep (LogSystem l [LogThread Outside demo_entries] None) s →
      ¬ lcrashed s ∧
      (∀ k s', nsteps lstep k s s' → (k ≤ log_left s)%nat) ∧
      ((∀ s', ¬ lstep s s') → written (ls_log s) ≡ₚ entry_line <$> demo_entries).
Proof.
  apply (Log_one_caller_loses_nothing demo_dir demo_name (demo_time 17 0) 0 64 2 1 demo_entries).
  - done.
  - exact demo_path.
  - exact demo_clock.
  - unfold INT_MAX. lia.
  - lia.
  - unfold INT_MAX. lia.
  - exact demo_days.
  - exact demo_entries_ok.
  - vm_compute. congruence.
Defined.

(** Without a slash in the name that [init] gets, [log_name] stays empty, and
    the files of later days are named by their date alone. *)
Lemma Log_plain_name_forgotten :
  ∃ l l', init (demo_time 17 0) (bytes "app.log") 0 64 9 0 Log_new = Done true l ∧
    write_all [(demo_time 17 1, 1, bytes "a"); (demo_time 18 1, 1, bytes "b")] l = Done tt l' ∧
    (puts_of (log_calls l')).*1 = [bytes "2024_05_17_app.log"; bytes "2024_05_18_"].
Proof.
  destruct (init (demo_time 17 0) (bytes "app.log") 0 64 9 0 Log_new) as [b l| | |] eqn:Ei; [|by vm_compute in Ei..].
  vm_compute in Ei. injection Ei as <- <-.
  eexists _, _. split; [reflexivity|]. split; [vm_compute; reflexivity|by vm_compute].
Qed.
(** When the file cannot be opened, [init] returns false, and the first line is
    undefined. *)
Lemma Log_unopened_undefined :
  let os := {| fopen_ok _ _ := false |} in
  ∃ l, @init os (demo_time 17 0) (bytes "./ServerLog") 0 64 9 0 Log_new = Done false l ∧
    @write_log os (demo_time 17 1) 1 (bytes "a") l = Undef.
Proof.
  intros os. destruct (@init os (demo_time 17 0) (bytes "./ServerLog") 0 64 9 0 Log_new) as [b l| | |] eqn:Ei; [|by vm_compute in Ei..].
  vm_compute in Ei. injection Ei as <- <-. eexists. split; [reflexivity|]. by vm_compute.
Qed.

(** * Two callers *)

(** Who moves next. *)
Inductive turn := Caller (i : nat) | WriterTakes | WriterWrites.
Definition take_turn (c : turn) (s : log_system) : option log_system :=
  match c with
  | Caller i =>
      match ls_callers s !! i with
      | Some t =>
          match caller_step t with
          | Some m =>
              match m (ls_log s) with
              | Done t' l' => Some (LogSystem l' (<[i:=t']> (ls_callers s)) (ls_held s))
              | _ => None
              end
          | None => None
          end
      | None => None
      end
  | WriterTakes =>
      match ls_held s, take_line (ls_log s) with
      | None, Done (Some line) l' => Some (LogSystem l' (ls_callers s) (Some line))
      | _, _ => None
      end
  | WriterWrites =>
      match ls_held s with
      | Some line =>
          match fputs_fp line (ls_log s) with
          | Done tt l' => Some (LogSystem l' (ls_callers s) None)
          | _ => None
          end
      | None => None
      end
  end.
Fixpoint take_turns (cs : list turn) (s : log_system) : option log_system :=
  match cs with
  | [] => Some s
  | c :: cs => match take_turn c s with Some s' => take_turns cs s' | None => None end
  end.
Lemma take_turn_step c s s' : take_turn c s = Some s' → lstep s s'.
Proof.
  destruct s as [l ts w]. destruct c as [i| |]; simpl.
  - repeat case_match; intros; simplify_eq. by eapply lstep_caller.
  - repeat case_match; intros; simplify_eq. by apply lstep_take.
  - repeat case_match; intros; simplify_eq. by apply lstep_write.
Qed.
Lemma take_turns_steps cs s s' : take_turns cs s = Some s' → rtc lstep s s'.
Proof.
  revert s. induction cs as [|c cs IH]; simpl; intros s; [by intros [= ->]|].
  destruct (take_turn c s) eqn:E; [|done]. intros Hs. eapply rtc_l; [by eapply take_turn_step|by apply IH].
Qed.

(** Two threads that both find room for one line: the second [push] fails, and
    its result is not looked at. *)
Theorem Log_race_loses_line :
  ∃ l s, init (demo_time 17 0) (bytes "./ServerLog") 0 64 9 1 Log_new = Done true l ∧
    rtc lstep (LogSystem l [LogThread Outside [(demo_time 17 1, 1, bytes "a")];
                            LogThread Outside [(demo_time 17 1, 1, bytes "b")]] None) s ∧
    (∀ s', ¬ lstep s s') ∧ ¬ lcrashed s ∧
    written (ls_log s) = [line_text (demo_time 17 1) 1 (bytes "a")].
Proof.
  set (schedule := [Caller 0; Caller 0; Caller 0; Caller 1; Caller 1; Caller 1; Caller 0; Caller 1; WriterTakes; WriterWrites]).
  destruct (init (demo_time 17 0) (bytes "./ServerLog") 0 64 9 1 Log_new) as [b l| | |] eqn:Ei; [|by vm_compute in Ei..].
  vm_compute in Ei. injection Ei as <- <-.
  eexists _, _. split; [reflexivity|]. split.
  { apply (take_turns_steps schedule). vm_compute. reflexivity. }
  split_and!.
  - intros s' Hs. inversion Hs as [l ts w i t m t' l' Hti Hm Hd|l ts line l' Hd|]; subst.
    + destruct i as [|[|i]]; simpl in Hti; simplify_eq; done.
    + by vm_compute in Hd.
  - intros [(t & m & Ht & Hm & _)|(line & [=] & _)].
    simpl in Ht. apply elem_of_cons in Ht as [->|[->|[]%not_elem_of_nil]%elem_of_cons]; done.
  - by vm_compute.
Qed.
