(* ===== verification/RBCode.v ===== *)
(** The red-black tree macros of src/kvstore/NtyCo/core/nty_tree.h, as
    programs over a heap of tree entries: one definition per macro or
    generated function, with its null checks, its pointer writes in their
    order and its loops. *)
From S2P Require Import Prelude.

Definition RB_BLACK : Z := 0.
Definition RB_RED : Z := 1.
Definition RB_NEGINF : Z := -1.
Definition RB_INF : Z := 1.

(** [RB_ENTRY(type)] *)
Record rb_entry := RBE {
  rbe_left : ptr;
  rbe_right : ptr;
  rbe_parent : ptr;
  rbe_color : Z
}.

(** [RB_HEAD(name, type)] together with the entries of the elements: an
    element is known by its address, its [RB_ENTRY] field is in [rb_heap]. *)
Record rb_state := RBS {
  rbh_root : ptr;
  rb_heap : gmap loc rb_entry
}.

Abbreviation RB := (M rb_state).

Definition set_left (v : ptr) (e : rb_entry) : rb_entry :=
  RBE v (rbe_right e) (rbe_parent e) (rbe_color e).
Definition set_right (v : ptr) (e : rb_entry) : rb_entry :=
  RBE (rbe_left e) v (rbe_parent e) (rbe_color e).
Definition set_parent (v : ptr) (e : rb_entry) : rb_entry :=
  RBE (rbe_left e) (rbe_right e) v (rbe_color e).
Definition set_color (c : Z) (e : rb_entry) : rb_entry :=
  RBE (rbe_left e) (rbe_right e) (rbe_parent e) c.

(** [(elm)->field]: undefined when [elm] is NULL or points to no element. *)
Definition rb_get (p : ptr) : RB rb_entry :=
  x ← need p;
  h ← gets rb_heap;
  need (h !! x).
Definition rb_put (p : ptr) (e : rb_entry) : RB unit :=
  x ← need p;
  h ← gets rb_heap;
  need (h !! x);;
  modify (λ s, RBS (rbh_root s) (<[x:=e]> (rb_heap s))).
Definition rb_upd (p : ptr) (f : rb_entry → rb_entry) : RB unit :=
  e ← rb_get p;
  rb_put p (f e).

(** [RB_LEFT], [RB_RIGHT], [RB_PARENT], [RB_COLOR] as values and as targets of
    assignments. *)
Definition RB_LEFT (p : ptr) : RB ptr := e ← rb_get p; ret (rbe_left e).
Definition RB_RIGHT (p : ptr) : RB ptr := e ← rb_get p; ret (rbe_right e).
Definition RB_PARENT (p : ptr) : RB ptr := e ← rb_get p; ret (rbe_parent e).
Definition RB_COLOR (p : ptr) : RB Z := e ← rb_get p; ret (rbe_color e).
Definition put_LEFT (p v : ptr) : RB unit := rb_upd p (set_left v).
Definition put_RIGHT (p v : ptr) : RB unit := rb_upd p (set_right v).
Definition put_PARENT (p v : ptr) : RB unit := rb_upd p (set_parent v).
Definition put_COLOR (p : ptr) (c : Z) : RB unit := rb_upd p (set_color c).

Definition RB_ROOT : RB ptr := gets rbh_root.
Definition put_ROOT (v : ptr) : RB unit := modify (λ s, RBS v (rb_heap s)).
Definition RB_EMPTY : RB bool := r ← RB_ROOT; ret (negb (non_null r)).
Definition RB_INIT : RB unit := put_ROOT None.

Definition ptr_eqb (p q : ptr) : bool := bool_decide (p = q).

(** [#ifndef RB_AUGMENT]: the default, which does nothing. *)
Definition RB_AUGMENT (p : ptr) : RB unit := ret tt.

Definition RB_SET (elm parent : ptr) : RB unit :=
  put_PARENT elm parent;;
  put_RIGHT elm None;; put_LEFT elm None;;
  put_COLOR elm RB_RED.

Definition RB_SET_BLACKRED (black red : ptr) : RB unit :=
  put_COLOR black RB_BLACK;;
  put_COLOR red RB_RED.

(** The rotation macros assign their [tmp] argument: it is the result. *)
Definition RB_ROTATE_LEFT (elm : ptr) : RB ptr :=
  tmp ← RB_RIGHT elm;
  tl ← RB_LEFT tmp;
  put_RIGHT elm tl;;
  whenM (non_null tl) (l ← RB_LEFT tmp; put_PARENT l elm);;
  RB_AUGMENT elm;;
  ep ← RB_PARENT elm;
  put_PARENT tmp ep;;
  (if non_null ep then
     pl ← RB_LEFT ep;
     if ptr_eqb elm pl then p ← RB_PARENT elm; put_LEFT p tmp
     else p ← RB_PARENT elm; put_RIGHT p tmp
   else put_ROOT tmp);;
  put_LEFT tmp elm;;
  put_PARENT elm tmp;;
  RB_AUGMENT tmp;;
  tp ← RB_PARENT tmp;
  whenM (non_null tp) (RB_AUGMENT tp);;
  ret tmp.

Definition RB_ROTATE_RIGHT (elm : ptr) : RB ptr :=
  tmp ← RB_LEFT elm;
  tr ← RB_RIGHT tmp;
  put_LEFT elm tr;;
  whenM (non_null tr) (r ← RB_RIGHT tmp; put_PARENT r elm);;
  RB_AUGMENT elm;;
  ep ← RB_PARENT elm;
  put_PARENT tmp ep;;
  (if non_null ep then
     pl ← RB_LEFT ep;
     if ptr_eqb elm pl then p ← RB_PARENT elm; put_LEFT p tmp
     else p ← RB_PARENT elm; put_RIGHT p tmp
   else put_ROOT tmp);;
  put_RIGHT tmp elm;;
  put_PARENT elm tmp;;
  RB_AUGMENT tmp;;
  tp ← RB_PARENT tmp;
  whenM (non_null tp) (RB_AUGMENT tp);;
  ret tmp.

(** [tmp && RB_COLOR(tmp, field) == RB_RED] *)
Definition is_red (p : ptr) : RB bool :=
  if non_null p then c ← RB_COLOR p; ret (Z.eqb c RB_RED) else ret false.
(** [p == NULL || RB_COLOR(p, field) == RB_BLACK] *)
Definition null_or_black (p : ptr) : RB bool :=
  if non_null p then c ← RB_COLOR p; ret (Z.eqb c RB_BLACK) else ret true.

(** One turn of the loop of [name##_RB_INSERT_COLOR]. *)
Definition INSERT_COLOR_step (elm : ptr) : RB (ptr + unit) :=
  parent ← RB_PARENT elm;
  red ← is_red parent;
  if negb red then ret (inr tt) else
  gparent ← RB_PARENT parent;
  gl ← RB_LEFT gparent;
  if ptr_eqb parent gl then
    tmp ← RB_RIGHT gparent;
    tred ← is_red tmp;
    if tred then
      put_COLOR tmp RB_BLACK;;
      RB_SET_BLACKRED parent gparent;;
      ret (inl gparent)
    else
      pr ← RB_RIGHT parent;
      '(parent, elm) ← (if ptr_eqb pr elm
                        then RB_ROTATE_LEFT parent;; ret (elm, parent)
                        else ret (parent, elm));
      RB_SET_BLACKRED parent gparent;;
      RB_ROTATE_RIGHT gparent;;
      ret (inl elm)
  else
    tmp ← RB_LEFT gparent;
    tred ← is_red tmp;
    if tred then
      put_COLOR tmp RB_BLACK;;
      RB_SET_BLACKRED parent gparent;;
      ret (inl gparent)
    else
      pl ← RB_LEFT parent;
      '(parent, elm) ← (if ptr_eqb pl elm
                        then RB_ROTATE_RIGHT parent;; ret (elm, parent)
                        else ret (parent, elm));
      RB_SET_BLACKRED parent gparent;;
      RB_ROTATE_LEFT gparent;;
      ret (inl elm).

Definition RB_INSERT_COLOR (fuel : nat) (elm : ptr) : RB unit :=
  loop fuel INSERT_COLOR_step elm;;
  r ← RB_ROOT;
  put_COLOR r RB_BLACK.

(** [name##_RB_REMOVE_COLOR] once the sibling [tmp] of the doubly black
    position is black: [tmp] is the right child of [parent] ... *)
Definition black_sibling_right (parent tmp : ptr) : RB (ptr * ptr + ptr) :=
  tl ← RB_LEFT tmp;
  lb ← null_or_black tl;
  both ← (if lb then tr ← RB_RIGHT tmp; null_or_black tr else ret false);
  if both then
    put_COLOR tmp RB_RED;;
    pp ← RB_PARENT parent;
    ret (inl (pp, parent))
  else
    tr ← RB_RIGHT tmp;
    rb ← null_or_black tr;
    tmp ← (if rb then
             oleft ← RB_LEFT tmp;
             whenM (non_null oleft) (put_COLOR oleft RB_BLACK);;
             put_COLOR tmp RB_RED;;
             RB_ROTATE_RIGHT tmp;;
             RB_RIGHT parent
           else ret tmp);
    pc ← RB_COLOR parent;
    put_COLOR tmp pc;;
    put_COLOR parent RB_BLACK;;
    tr ← RB_RIGHT tmp;
    whenM (non_null tr) (put_COLOR tr RB_BLACK);;
    RB_ROTATE_LEFT parent;;
    r ← RB_ROOT;
    ret (inr r).

(** ... and the mirror image, [tmp] the left child. *)
Definition black_sibling_left (parent tmp : ptr) : RB (ptr * ptr + ptr) :=
  tl ← RB_LEFT tmp;
  lb ← null_or_black tl;
  both ← (if lb then tr ← RB_RIGHT tmp; null_or_black tr else ret false);
  if both then
    put_COLOR tmp RB_RED;;
    pp ← RB_PARENT parent;
    ret (inl (pp, parent))
  else
    tl ← RB_LEFT tmp;
    lb ← null_or_black tl;
    tmp ← (if lb then
             oright ← RB_RIGHT tmp;
             whenM (non_null oright) (put_COLOR oright RB_BLACK);;
             put_COLOR tmp RB_RED;;
             RB_ROTATE_LEFT tmp;;
             RB_LEFT parent
           else ret tmp);
    pc ← RB_COLOR parent;
    put_COLOR tmp pc;;
    put_COLOR parent RB_BLACK;;
    tl ← RB_LEFT tmp;
    whenM (non_null tl) (put_COLOR tl RB_BLACK);;
    RB_ROTATE_RIGHT parent;;
    r ← RB_ROOT;
    ret (inr r).

(** One turn of the loop of [name##_RB_REMOVE_COLOR]; the locals are
    [(parent, elm)], the loop leaves with [elm]. *)
Definition REMOVE_COLOR_step (loc : ptr * ptr) : RB (ptr * ptr + ptr) :=
  let '(parent, elm) := loc in
  blk ← null_or_black elm;
  root ← RB_ROOT;
  if negb (blk && negb (ptr_eqb elm root)) then ret (inr elm) else
  pl ← RB_LEFT parent;
  if ptr_eqb pl elm then
    tmp ← RB_RIGHT parent;
    c ← RB_COLOR tmp;
    tmp ← (if Z.eqb c RB_RED then
             RB_SET_BLACKRED tmp parent;;
             RB_ROTATE_LEFT parent;;
             RB_RIGHT parent
           else ret tmp);
    black_sibling_right parent tmp
  else
    tmp ← RB_LEFT parent;
    c ← RB_COLOR tmp;
    tmp ← (if Z.eqb c RB_RED then
             RB_SET_BLACKRED tmp parent;;
             RB_ROTATE_RIGHT parent;;
             RB_LEFT parent
           else ret tmp);
    black_sibling_left parent tmp.

Definition RB_REMOVE_COLOR (fuel : nat) (parent elm : ptr) : RB unit :=
  elm ← loop fuel REMOVE_COLOR_step (parent, elm);
  whenM (non_null elm) (put_COLOR elm RB_BLACK).

(** The new element [elm] is coloured, cleared and linked below [parent], on
    the side of the last comparison. *)
Definition attach (elm parent : ptr) (comp : Z) : RB unit :=
  RB_SET elm parent;;
  (if non_null parent then
     (if Z.ltb comp 0 then put_LEFT parent elm else put_RIGHT parent elm);;
     RB_AUGMENT parent
   else put_ROOT elm).

(** The link of [parent] (or of the head) to [elm] is redirected to [child]. *)
Definition relink (parent elm child : ptr) : RB unit :=
  if non_null parent then
    pl ← RB_LEFT parent;
    (if ptr_eqb pl elm then put_LEFT parent child else put_RIGHT parent child);;
    RB_AUGMENT parent
  else put_ROOT child.

(** The unlinking statements both branches of [name##_RB_REMOVE] share:
    [child] takes the place of [elm] below [parent]. *)
Definition splice (elm child parent : ptr) : RB unit :=
  whenM (non_null child) (put_PARENT child parent);;
  relink parent elm child.

(** [elm] takes the place of [old]: its entry, its parent's link and its
    children's parent links. *)
Definition transplant (old elm : ptr) : RB unit :=
  oe ← rb_get old;
  rb_put elm oe;;
  op ← RB_PARENT old;
  relink op old elm;;
  ol ← RB_LEFT old;
  put_PARENT ol elm;;
  or ← RB_RIGHT old;
  whenM (non_null or) (put_PARENT or elm).

(** The successor [elm] of [old] leaves its own place to [child] and takes the
    place of [old]; the result is the local variable [parent]. *)
Definition take_place (old elm child parent : ptr) : RB ptr :=
  splice elm child parent;;
  ep ← RB_PARENT elm;
  let parent := if ptr_eqb ep old then elm else parent in
  transplant old elm;;
  ret parent.

(** [while ((left = RB_LEFT(elm)) != NULL) elm = left;] *)
Definition descend_left (fuel : nat) (elm : ptr) : RB ptr :=
  loop fuel (λ elm,
    left ← RB_LEFT elm;
    if non_null left then ret (inl left) else ret (inr elm)) elm.
Definition descend_right (fuel : nat) (elm : ptr) : RB ptr :=
  loop fuel (λ elm,
    right ← RB_RIGHT elm;
    if non_null right then ret (inl right) else ret (inr elm)) elm.

(** [do { RB_AUGMENT(left); } while ((left = RB_PARENT(left)) != NULL);] *)
Definition augment_up (fuel : nat) (left : ptr) : RB unit :=
  loop fuel (λ left,
    RB_AUGMENT left;;
    left ← RB_PARENT left;
    if non_null left then ret (inl left) else ret (inr tt)) left.

Definition RB_REMOVE (fuel : nat) (elm : ptr) : RB ptr :=
  let old := elm in
  l ← RB_LEFT elm;
  r ← RB_RIGHT elm;
  '(parent, child, color) ←
    (if non_null l && non_null r then
       elm ← descend_left fuel r;
       child ← RB_RIGHT elm;
       parent ← RB_PARENT elm;
       color ← RB_COLOR elm;
       parent ← take_place old elm child parent;
       whenM (non_null parent) (augment_up fuel parent);;
       ret (parent, child, color)
     else
       let child := if non_null l then l else r in
       parent ← RB_PARENT elm;
       color ← RB_COLOR elm;
       splice elm child parent;;
       ret (parent, child, color));
  whenM (Z.eqb color RB_BLACK) (RB_REMOVE_COLOR fuel parent child);;
  ret old.

Section keyed.
(** The macro parameter [cmp]. *)
Variable cmp : loc → loc → Z.

Definition cmpM (p q : ptr) : RB Z :=
  x ← need p; y ← need q; ret (cmp x y).

(** The search loop of [name##_RB_INSERT]: leaves with the element found,
    or with the last parent and comparison. *)
Definition INSERT_search_step (elm : ptr) (loc : ptr * ptr * Z)
    : RB (ptr * ptr * Z + (ptr + ptr * Z)) :=
  let '(tmp, parent, comp) := loc in
  if negb (non_null tmp) then ret (inr (inr (parent, comp))) else
  let parent := tmp in
  comp ← cmpM elm parent;
  if Z.ltb comp 0 then tmp ← RB_LEFT tmp; ret (inl (tmp, parent, comp))
  else if Z.gtb comp 0 then tmp ← RB_RIGHT tmp; ret (inl (tmp, parent, comp))
  else ret (inr (inl tmp)).

Definition RB_INSERT (fuel : nat) (elm : ptr) : RB ptr :=
  root ← RB_ROOT;
  found ← loop fuel (INSERT_search_step elm) (root, None, 0%Z);
  match found with
  | inl tmp => ret tmp
  | inr (parent, comp) =>
      attach elm parent comp;;
      RB_INSERT_COLOR fuel elm;;
      ret None
  end.

Definition RB_FIND (fuel : nat) (elm : ptr) : RB ptr :=
  root ← RB_ROOT;
  loop fuel (λ tmp,
    if negb (non_null tmp) then ret (inr None) else
    comp ← cmpM elm tmp;
    if Z.ltb comp 0 then tmp ← RB_LEFT tmp; ret (inl tmp)
    else if Z.gtb comp 0 then tmp ← RB_RIGHT tmp; ret (inl tmp)
    else ret (inr tmp)) root.

Definition RB_NFIND (fuel : nat) (elm : ptr) : RB ptr :=
  root ← RB_ROOT;
  loop fuel (λ '(tmp, res),
    if negb (non_null tmp) then ret (inr res) else
    comp ← cmpM elm tmp;
    if Z.ltb comp 0 then let res := tmp in tmp ← RB_LEFT tmp; ret (inl (tmp, res))
    else if Z.gtb comp 0 then tmp ← RB_RIGHT tmp; ret (inl (tmp, res))
    else ret (inr tmp)) (root, None).
End keyed.

(** [while (RB_PARENT(elm) && elm == RB_RIGHT(RB_PARENT(elm)))
       elm = RB_PARENT(elm);] *)
Definition climb_right (fuel : nat) (elm : ptr) : RB ptr :=
  loop fuel (λ elm,
    p ← RB_PARENT elm;
    if non_null p then
      pr ← RB_RIGHT p;
      if ptr_eqb elm pr then ret (inl p) else ret (inr elm)
    else ret (inr elm)) elm.
Definition climb_left (fuel : nat) (elm : ptr) : RB ptr :=
  loop fuel (λ elm,
    p ← RB_PARENT elm;
    if non_null p then
      pl ← RB_LEFT p;
      if ptr_eqb elm pl then ret (inl p) else ret (inr elm)
    else ret (inr elm)) elm.

Definition RB_NEXT (fuel : nat) (elm : ptr) : RB ptr :=
  r ← RB_RIGHT elm;
  if non_null r then descend_left fuel r
  else
    p ← RB_PARENT elm;
    onleft ← (if non_null p then pl ← RB_LEFT p; ret (ptr_eqb elm pl) else ret false);
    if onleft then RB_PARENT elm
    else elm ← climb_right fuel elm; RB_PARENT elm.

Definition RB_PREV (fuel : nat) (elm : ptr) : RB ptr :=
  l ← RB_LEFT elm;
  if non_null l then descend_right fuel l
  else
    p ← RB_PARENT elm;
    onright ← (if non_null p then pr ← RB_RIGHT p; ret (ptr_eqb elm pr) else ret false);
    if onright then RB_PARENT elm
    else elm ← climb_left fuel elm; RB_PARENT elm.

Definition RB_MINMAX (fuel : nat) (val : Z) : RB ptr :=
  root ← RB_ROOT;
  loop fuel (λ '(tmp, parent),
    if negb (non_null tmp) then ret (inr parent) else
    let parent := tmp in
    tmp ← (if Z.ltb val 0 then RB_LEFT tmp else RB_RIGHT tmp);
    ret (inl (tmp, parent))) (root, None).

Definition RB_MIN (fuel : nat) : RB ptr := RB_MINMAX fuel RB_NEGINF.
Definition RB_MAX (fuel : nat) : RB ptr := RB_MINMAX fuel RB_INF.

(** The [RB_FOREACH] loops, for a loop body [body]; the result lists the
    elements the body was run on. The plain loops step after the body, the
    [_FROM] and [_SAFE] loops compute the next element before it. *)
Definition foreach (fuel : nat) (next : ptr → RB ptr) (body : ptr → RB unit)
    (first : ptr) : RB (list loc) :=
  loop fuel (λ '(x, seen),
    match x with
    | None => ret (inr seen)
    | Some a => body x;; x ← next x; ret (inl (x, seen ++ [a]))
    end) (first, []).
Definition foreach_safe (fuel : nat) (next : ptr → RB ptr) (body : ptr → RB unit)
    (first : ptr) : RB (list loc) :=
  loop fuel (λ '(x, seen),
    match x with
    | None => ret (inr seen)
    | Some a => y ← next x; body x;; ret (inl (y, seen ++ [a]))
    end) (first, []).

Definition RB_FOREACH (fuel : nat) (body : ptr → RB unit) : RB (list loc) :=
  x ← RB_MIN fuel; foreach fuel (RB_NEXT fuel) body x.
Definition RB_FOREACH_FROM (fuel : nat) (y : ptr) (body : ptr → RB unit) : RB (list loc) :=
  foreach_safe fuel (RB_NEXT fuel) body y.
Definition RB_FOREACH_SAFE (fuel : nat) (body : ptr → RB unit) : RB (list loc) :=
  x ← RB_MIN fuel; foreach_safe fuel (RB_NEXT fuel) body x.
Definition RB_FOREACH_REVERSE (fuel : nat) (body : ptr → RB unit) : RB (list loc) :=
  x ← RB_MAX fuel; foreach fuel (RB_PREV fuel) body x.
Definition RB_FOREACH_REVERSE_FROM (fuel : nat) (y : ptr) (body : ptr → RB unit)
    : RB (list loc) :=
  foreach_safe fuel (RB_PREV fuel) body y.
Definition RB_FOREACH_REVERSE_SAFE (fuel : nat) (body : ptr → RB unit)
    : RB (list loc) :=
  x ← RB_MAX fuel; foreach_safe fuel (RB_PREV fuel) body x.
