(* ===== verification/RBTree.v ===== *)
(** Red-black trees as a data type, their contexts (zippers), their colour
    invariant, and the relation between a tree and the heap that holds it. *)
From S2P Require Import Prelude RBCode.

Inductive color := Red | Black.

(** A node carries the address of its element. *)
Inductive tree := Leaf | Node (c : color) (l : tree) (x : loc) (r : tree).

(** A tree with a hole: [InL c x r k] is the hole at the left child of [x],
    whose right subtree is [r] and whose own place is [k]. *)
Inductive ctx :=
| Top
| InL (c : color) (x : loc) (r : tree) (k : ctx)
| InR (c : color) (l : tree) (x : loc) (k : ctx).

Fixpoint plug (k : ctx) (t : tree) : tree :=
  match k with
  | Top => t
  | InL c x r k => plug k (Node c t x r)
  | InR c l x k => plug k (Node c l x t)
  end.

Fixpoint inorder (t : tree) : list loc :=
  match t with
  | Leaf => []
  | Node _ l x r => inorder l ++ x :: inorder r
  end.

(** The elements before and after the hole, in order. *)
Fixpoint before (k : ctx) : list loc :=
  match k with
  | Top => []
  | InL _ _ _ k => before k
  | InR _ l x k => before k ++ inorder l ++ [x]
  end.
Fixpoint after (k : ctx) : list loc :=
  match k with
  | Top => []
  | InL _ x r k => x :: inorder r ++ after k
  | InR _ _ _ k => after k
  end.

Fixpoint depth (k : ctx) : nat :=
  match k with Top => 0 | InL _ _ _ k | InR _ _ _ k => S (depth k) end.
Fixpoint height (t : tree) : nat :=
  match t with Leaf => 0 | Node _ l _ r => S (Nat.max (height l) (height r)) end.

Definition rootp (t : tree) : ptr :=
  match t with Leaf => None | Node _ _ x _ => Some x end.
Definition kparent (k : ctx) : ptr :=
  match k with Top => None | InL _ x _ _ | InR _ _ x _ => Some x end.
Definition cz (c : color) : Z :=
  match c with Red => RB_RED | Black => RB_BLACK end.
Definition tree_color (t : tree) : color :=
  match t with Leaf => Black | Node c _ _ _ => c end.
Definition blacken (t : tree) : tree :=
  match t with Leaf => Leaf | Node _ l x r => Node Black l x r end.

#[export] Instance color_eq_dec : EqDecision color.
Proof. solve_decision. Defined.
#[export] Instance tree_eq_dec : EqDecision tree.
Proof. solve_decision. Defined.

Lemma inorder_plug k t : inorder (plug k t) = before k ++ inorder t ++ after k.
Proof.
  revert t. induction k as [|c x r k IH|c l x k IH]; intros t; simpl;
    rewrite ?app_nil_r, ?IH; simpl; by rewrite <-?(assoc_L (++)).
Qed.

Lemma depth_le_before_after k : depth k ≤ length (before k) + length (after k).
Proof. induction k; simpl; rewrite ?length_app; simpl; rewrite ?length_app; lia. Qed.

Lemma height_le_inorder t : height t ≤ length (inorder t).
Proof. induction t; simpl; rewrite ?length_app; simpl; lia. Qed.

(** * The colour invariant

    [rbt c n t]: no red node of [t] has a red child, every path from the root
    to a leaf has [n] black nodes, and the root has colour [c]. *)
Inductive rbt : color → nat → tree → Prop :=
| rbt_leaf : rbt Black 0 Leaf
| rbt_red n l x r : rbt Black n l → rbt Black n r → rbt Red n (Node Red l x r)
| rbt_black n c1 c2 l x r :
    rbt c1 n l → rbt c2 n r → rbt Black (S n) (Node Black l x r).

(** [krbt c n k]: plugging a tree with root colour [c] and [n] black nodes on
    its paths into [k] gives a red-black tree whose root is black. *)
Inductive krbt : color → nat → ctx → Prop :=
| krbt_top n : krbt Black n Top
| krbt_blackL c c' n x r k :
    krbt Black (S n) k → rbt c' n r → krbt c n (InL Black x r k)
| krbt_blackR c c' n l x k :
    krbt Black (S n) k → rbt c' n l → krbt c n (InR Black l x k)
| krbt_redL n x r k :
    krbt Red n k → rbt Black n r → krbt Black n (InL Red x r k)
| krbt_redR n l x k :
    krbt Red n k → rbt Black n l → krbt Black n (InR Red l x k).

(** A valid tree: the tree of an [RB_HEAD] between two operations. *)
Definition rb_valid (t : tree) : Prop := ∃ n, rbt Black n t.

#[export] Hint Constructors rbt krbt : cmodel.

Lemma rbt_plug c n k t : krbt c n k → rbt c n t → rb_valid (plug k t).
Proof.
  intros Hk. revert t. induction Hk; intros t Ht; simpl; [by exists n|..];
    apply IHHk; eauto with cmodel.
Qed.

(** The context of a subtree of a valid tree expects what the subtree has. *)
Lemma rbt_unplug k t m :
  rbt Black m (plug k t) → ∃ c n, rbt c n t ∧ krbt c n k.
Proof.
  revert t. induction k as [|c x r k IH|c l x k IH]; intros t Ht; simpl in Ht.
  - exists Black, m. eauto with cmodel.
  - apply IH in Ht as (c' & n & Hn & Hk). inversion Hn; subst; eauto with cmodel.
  - apply IH in Ht as (c' & n & Hn & Hk). inversion Hn; subst; eauto with cmodel.
Qed.

Lemma krbt_weaken c n k : krbt Red n k → krbt c n k.
Proof. inversion 1; subst; eauto with cmodel. Qed.

Lemma rbt_color c n t : rbt c n t → tree_color t = c.
Proof. by destruct 1. Qed.

Lemma rbt_blacken c n t : rbt c n t → ∃ m, rbt Black m (blacken t).
Proof. destruct 1; simpl; eauto with cmodel. Qed.

Lemma rb_valid_blacken t : rb_valid t → blacken t = t.
Proof. intros [n H]. by inversion H. Qed.

Lemma plug_node k c l x r : plug k (Node c l x r) ≠ Leaf.
Proof. revert c l x r. induction k; simpl; auto. Qed.

(** Height of a red-black tree: at most twice the black height, plus one. *)
Lemma rbt_height c n t :
  rbt c n t → height t ≤ 2 * n + match c with Red => 1 | Black => 0 end.
Proof. induction 1; simpl; try destruct c1; try destruct c2; lia. Qed.

Lemma rbt_size c n t : rbt c n t → 2 ^ n ≤ S (length (inorder t)).
Proof.
  induction 1; simpl; rewrite ?length_app; simpl; lia.
Qed.

(** * Trees in the heap *)

Fixpoint repr (h : gmap loc rb_entry) (par : ptr) (t : tree) : Prop :=
  match t with
  | Leaf => True
  | Node c l x r =>
      h !! x = Some (RBE (rootp l) (rootp r) par (cz c)) ∧
      repr h (Some x) l ∧ repr h (Some x) r
  end.

(** The context in the heap: [hole] is the pointer its parent holds. *)
Fixpoint krepr (root : ptr) (h : gmap loc rb_entry) (hole : ptr) (k : ctx) : Prop :=
  match k with
  | Top => root = hole
  | InL c x r k =>
      h !! x = Some (RBE hole (rootp r) (kparent k) (cz c)) ∧
      repr h (Some x) r ∧ krepr root h (Some x) k
  | InR c l x k =>
      h !! x = Some (RBE (rootp l) hole (kparent k) (cz c)) ∧
      repr h (Some x) l ∧ krepr root h (Some x) k
  end.

(** The head and the heap hold the tree [t]; its elements are distinct. *)
Definition rep (s : rb_state) (t : tree) : Prop :=
  rbh_root s = rootp t ∧ repr (rb_heap s) None t ∧ NoDup (inorder t).

Definition zrep (s : rb_state) (k : ctx) (t : tree) : Prop :=
  krepr (rbh_root s) (rb_heap s) (rootp t) k ∧
  repr (rb_heap s) (kparent k) t ∧
  NoDup (before k ++ inorder t ++ after k).

Lemma rep_plug s k t : rep s (plug k t) ↔ zrep s k t.
Proof.
  unfold rep, zrep. rewrite inorder_plug.
  enough (∀ t, rbh_root s = rootp (plug k t) ∧ repr (rb_heap s) None (plug k t) ↔
    krepr (rbh_root s) (rb_heap s) (rootp t) k ∧ repr (rb_heap s) (kparent k) t)
    by naive_solver.
  clear t. induction k as [|c x r k IH|c l x k IH]; intros t; simpl; [done|..];
    rewrite IH; simpl; tauto.
Qed.

Lemma rep_zrep s t : rep s t ↔ zrep s Top t.
Proof. apply (rep_plug s Top t). Qed.

(** ** Frames *)

Lemma repr_insert h par t x e :
  x ∉ inorder t → repr h par t → repr (<[x:=e]> h) par t.
Proof.
  revert par. induction t as [|c l IHl y r IHr]; intros par; simpl; [done|].
  intros Hx (Hy & Hl & Hr). rewrite not_elem_of_app, not_elem_of_cons in Hx.
  rewrite lookup_insert_ne by naive_solver. naive_solver.
Qed.

Lemma krepr_insert root h hole k x e :
  x ∉ before k → x ∉ after k → krepr root h hole k →
  krepr root (<[x:=e]> h) hole k.
Proof.
  revert hole. induction k as [|c y r k IH|c l y k IH]; intros hole; simpl; [done|..].
  - rewrite not_elem_of_cons, not_elem_of_app. intros Hb [Hne [Hr Ha]] (Hy & Ht & Hk).
    rewrite lookup_insert_ne by done. auto using repr_insert.
  - rewrite !not_elem_of_app, not_elem_of_cons.
    intros [Hb [Hl [Hne _]]] Ha (Hy & Ht & Hk).
    rewrite lookup_insert_ne by done. auto using repr_insert.
Qed.

(** Freshness facts from one [NoDup]. *)
Lemma nodup_ne {A} (l : list A) x y : NoDup l → [x; y] ⊆+ l → x ≠ y.
Proof.
  intros Hl [k Hk]%submseteq_Permutation ->. rewrite Hk in Hl.
  apply NoDup_cons in Hl as [Hx _]. apply Hx. simpl. left.
Qed.

Lemma nodup_notin {A} (l l' : list A) x : NoDup l → x :: l' ⊆+ l → x ∉ l'.
Proof.
  intros Hl [k Hk]%submseteq_Permutation. rewrite Hk in Hl. simpl in Hl.
  apply NoDup_cons in Hl as [Hx _]. rewrite elem_of_app in Hx. naive_solver.
Qed.

Lemma ptr_eqb_refl p : ptr_eqb p p = true.
Proof. by apply bool_decide_eq_true. Qed.
Lemma ptr_eqb_ne p q : p ≠ q → ptr_eqb p q = false.
Proof. by apply bool_decide_eq_false. Qed.
Lemma ptr_eqb_root_l x t : x ∉ inorder t → ptr_eqb (rootp t) (Some x) = false.
Proof.
  intros Hx. apply ptr_eqb_ne. destruct t as [|c l y r]; simpl; [done|].
  intros [= ->]. apply Hx. simpl. set_solver.
Qed.
Lemma ptr_eqb_root_r x t : x ∉ inorder t → ptr_eqb (Some x) (rootp t) = false.
Proof.
  intros Hx. apply ptr_eqb_ne. destruct t as [|c l y r]; simpl; [done|].
  intros [= ->]. apply Hx. simpl. set_solver.
Qed.

Lemma ptr_eqb_some_ne x y : x ≠ y → ptr_eqb (Some x) (Some y) = false.
Proof. intros Hne. apply ptr_eqb_ne. congruence. Qed.
Lemma ptr_eqb_null_l x : ptr_eqb None (Some x) = false.
Proof. done. Qed.
Lemma ptr_eqb_null_r x : ptr_eqb (Some x) None = false.
Proof. done. Qed.

(** * Composing contexts *)

(** [kapp k1 k2]: the context [k1] inside the hole of [k2]. *)
Fixpoint kapp (k1 k2 : ctx) : ctx :=
  match k1 with
  | Top => k2
  | InL c x r k => InL c x r (kapp k k2)
  | InR c l x k => InR c l x (kapp k k2)
  end.

Lemma plug_kapp k1 k2 t : plug (kapp k1 k2) t = plug k2 (plug k1 t).
Proof. revert t. induction k1; intros t; simpl; auto. Qed.
Lemma before_kapp k1 k2 : before (kapp k1 k2) = before k2 ++ before k1.
Proof.
  induction k1 as [|c x r k IH|c l x k IH]; simpl; rewrite ?app_nil_r; [done|done|].
  by rewrite IH, <-(assoc_L (++)).
Qed.
Lemma after_kapp k1 k2 : after (kapp k1 k2) = after k1 ++ after k2.
Proof.
  induction k1 as [|c x r k IH|c l x k IH]; simpl; [done| |done].
  by rewrite IH, <-(assoc_L (++)).
Qed.
Lemma depth_kapp k1 k2 : depth (kapp k1 k2) = depth k1 + depth k2.
Proof. induction k1; simpl; lia. Qed.
Lemma kparent_kapp k1 k2 :
  kparent (kapp k1 k2) = match k1 with Top => kparent k2 | _ => kparent k1 end.
Proof. by destruct k1. Qed.

(** The labels of a context do not matter to its colours. *)
Lemma krbt_relabel c n k1 cx l x y k2 :
  krbt c n (kapp k1 (InR cx l x k2)) → krbt c n (kapp k1 (InR cx l y k2)).
Proof.
  revert c n. induction k1 as [|c' z r k IH|c' l' z k IH]; intros c n; simpl;
    inversion 1; subst; eauto with cmodel.
Qed.

(** Every element is at some focus; the leftmost one has nothing before it. *)
Lemma focus_on T x : x ∈ inorder T → ∃ k c l r, T = plug k (Node c l x r).
Proof.
  induction T as [|c l IHl y r IHr]; simpl; [by intros ?%elem_of_nil|].
  rewrite elem_of_app, elem_of_cons. intros [H|[->|H]].
  - destruct (IHl H) as (k & c' & l' & r' & ->).
    exists (kapp k (InL c y r Top)), c', l', r'. by rewrite plug_kapp.
  - by exists Top, c, l, r.
  - destruct (IHr H) as (k & c' & l' & r' & ->).
    exists (kapp k (InR c l y Top)), c', l', r'. by rewrite plug_kapp.
Qed.

Lemma inorder_focus T l1 x l2 :
  NoDup (inorder T) → inorder T = l1 ++ x :: l2 →
  ∃ k c l r, T = plug k (Node c l x r) ∧
    l1 = before k ++ inorder l ∧ l2 = inorder r ++ after k.
Proof.
  intros Hnd HT. destruct (focus_on T x) as (k & c & l & r & ->);
    [rewrite HT; set_solver|].
  exists k, c, l, r. split; [done|]. rewrite inorder_plug in *. simpl in *.
  rewrite <-(assoc_L (++)), <-app_comm_cons, (assoc_L (++)) in *.
  rewrite HT in Hnd. clear -Hnd HT.
  revert HT. generalize (before k ++ inorder l), (inorder r ++ after k).
  induction l1 as [|y l1 IH]; intros m1 m2 HT.
  - destruct m1 as [|z m1]; simpl in HT; [by injection HT as ->|].
    injection HT as -> HT. apply NoDup_cons in Hnd as [Hx _]. subst. set_solver.
  - simpl in Hnd. apply NoDup_cons in Hnd as [Hy Hnd].
    destruct m1 as [|z m1]; simpl in HT; injection HT as -> HT; [set_solver|].
    destruct (IH Hnd m1 m2 HT) as [-> ->]. done.
Qed.
