(* ===== verification/RBSpec.v ===== *)
(** What a red-black tree promises to its clients: a finite sequence of
    elements in strictly increasing order of [cmp], with the operations on it
    written as functions on lists. *)
From stdpp Require Import sorting.
From S2P Require Import Prelude RBCode RBTree.

(** The macro parameter [cmp] is a three-way comparison of a total preorder
    (elements with equal keys compare as 0). *)
Class CmpOrder (cmp : loc → loc → Z) : Prop := {
  cmp_flip x y : (cmp x y < 0 ↔ cmp y x > 0)%Z;
  cmp_le_trans x y z : (cmp x y ≤ 0 → cmp y z ≤ 0 → cmp x z ≤ 0)%Z
}.

(** The usual way to write such a [cmp]: the difference of an integer key. *)
Definition key_cmp (key : loc → Z) (x y : loc) : Z := (key x - key y)%Z.
#[export] Instance key_cmp_order key : CmpOrder (key_cmp key).
Proof. unfold key_cmp. split; intros; lia. Qed.

Definition spec_remove (x : loc) (l : list loc) : list loc :=
  List.filter (λ y, negb (bool_decide (y = x))) l.

Lemma spec_remove_split x l1 l2 :
  NoDup (l1 ++ x :: l2) → spec_remove x (l1 ++ x :: l2) = l1 ++ l2.
Proof.
  intros (H1 & Hx & H2)%NoDup_app. apply NoDup_cons in H2 as [H2 _].
  unfold spec_remove. rewrite List.filter_app. simpl.
  rewrite bool_decide_true by done. simpl.
  rewrite !filter_all; [done|..]; intros y Hy; rewrite bool_decide_false; set_solver.
Qed.

(** Turns that suffice for one descent of a tree of [n] elements. *)
Definition rb_fuel (n : nat) : nat := S (2 * Nat.log2 (S n)).

(** A red-black tree of [n] nodes has logarithmic height. *)
Lemma rb_valid_height t : rb_valid t → height t < rb_fuel (length (inorder t)).
Proof.
  intros [n Hn]. pose proof (rbt_height _ _ _ Hn) as Hh.
  pose proof (rbt_size _ _ _ Hn) as Hs. unfold rb_fuel.
  apply Nat.log2_le_mono in Hs. rewrite Nat.log2_pow2 in Hs by lia.
  simpl in Hh. lia.
Qed.

Fixpoint spec_next (x : loc) (l : list loc) : ptr :=
  match l with
  | [] => None
  | y :: l => if bool_decide (y = x) then head l else spec_next x l
  end.
Definition spec_prev (x : loc) (l : list loc) : ptr := spec_next x (reverse l).

Lemma spec_next_split x l1 l2 :
  x ∉ l1 → spec_next x (l1 ++ x :: l2) = head l2.
Proof.
  intros Hx. induction l1 as [|y l1 IH]; simpl; [by rewrite bool_decide_true|].
  rewrite bool_decide_false by set_solver. apply IH. set_solver.
Qed.

Lemma spec_prev_split x l1 l2 :
  x ∉ l2 → spec_prev x (l1 ++ x :: l2) = last l1.
Proof.
  intros Hx. unfold spec_prev. rewrite reverse_app, reverse_cons, <-(assoc_L (++)).
  simpl. rewrite spec_next_split by by rewrite elem_of_reverse.
  by rewrite head_reverse.
Qed.


Section spec.
Context (cmp : loc → loc → Z) `{!CmpOrder cmp}.

Definition clt (x y : loc) : Prop := (cmp x y < 0)%Z.
Definition increasing (l : list loc) : Prop := StronglySorted clt l.

(** The operations on the sequence. *)
Definition spec_find (x : loc) (l : list loc) : ptr :=
  List.find (λ y, cmp x y =? 0)%Z l.
Definition spec_nfind (x : loc) (l : list loc) : ptr :=
  List.find (λ y, cmp x y <=? 0)%Z l.
Definition spec_insert (x : loc) (l : list loc) : ptr * list loc :=
  match spec_find x l with
  | Some y => (Some y, l)
  | None =>
      (None, List.filter (λ y, cmp x y >? 0)%Z l ++
             x :: List.filter (λ y, cmp x y <? 0)%Z l)
  end.
Lemma clt_trans x y z : clt x y → clt y z → clt x z.
Proof.
  unfold clt. intros H1 H2.
  pose proof (cmp_le_trans x y z). pose proof (cmp_le_trans z x y).
  pose proof (cmp_flip x y). pose proof (cmp_flip y z).
  pose proof (cmp_flip x z). pose proof (cmp_flip z x). pose proof (cmp_flip z y).
  lia.
Qed.

Lemma clt_eq_l x y z : (cmp x y = 0)%Z → clt y z → clt x z.
Proof.
  unfold clt. intros H1 H2.
  pose proof (cmp_le_trans x y z). pose proof (cmp_le_trans z x y).
  pose proof (cmp_flip y z). pose proof (cmp_flip z y).
  pose proof (cmp_flip x z). pose proof (cmp_flip z x). lia.
Qed.

Lemma clt_eq_gt x y z : (cmp x y = 0)%Z → clt z y → (cmp x z > 0)%Z.
Proof.
  unfold clt. intros H1 H2.
  pose proof (cmp_le_trans y x z). pose proof (cmp_flip z y).
  pose proof (cmp_flip x y). pose proof (cmp_flip y x). lia.
Qed.

(** ** Searching a sequence that is split around the key *)

(** [x] falls between [l1] and [l2]. *)
Definition splits (x : loc) (l1 l2 : list loc) : Prop :=
  (∀ y, y ∈ l1 → cmp x y > 0)%Z ∧ (∀ y, y ∈ l2 → cmp x y < 0)%Z.

Lemma splits_left x l1 y l l2 :
  (cmp x y < 0)%Z → increasing (y :: l) → splits x l1 l2 → splits x l1 (y :: l ++ l2).
Proof.
  intros Hy Hl [H1 H2]. split; [done|]. intros z.
  rewrite elem_of_cons, elem_of_app. intros [->|[Hz|Hz]]; [done| |auto].
  apply StronglySorted_inv in Hl as [_ Hl]. rewrite List.Forall_forall in Hl.
  apply (clt_trans x y z); [done|]. apply Hl. by apply list_elem_of_In.
Qed.

Lemma splits_right x l1 l y l2 :
  (cmp x y > 0)%Z → (∀ z, z ∈ l → clt z y) → splits x l1 l2 →
  splits x (l1 ++ l ++ [y]) l2.
Proof.
  intros Hy Hl [H1 H2]. split; [|done]. intros z.
  rewrite !elem_of_app, list_elem_of_singleton.
  intros [?|[Hz| ->]]; [auto| |done].
  pose proof (clt_trans z y x (Hl z Hz)). unfold clt in *.
  pose proof (cmp_flip y x). pose proof (cmp_flip z x). lia.
Qed.

Lemma spec_find_splits x l1 l2 : splits x l1 l2 → spec_find x (l1 ++ l2) = None.
Proof.
  intros [H1 H2]. apply find_none_all. intros y [Hy|Hy]%elem_of_app;
    [apply H1 in Hy|apply H2 in Hy]; lia.
Qed.

Lemma spec_nfind_splits x l1 l2 : splits x l1 l2 → spec_nfind x (l1 ++ l2) = head l2.
Proof.
  intros [H1 H2]. unfold spec_nfind. rewrite find_app.
  - destruct l2 as [|y l2]; simpl; [done|].
    specialize (H2 y). destruct (Z.leb_spec (cmp x y) 0); [done|]. set_solver by lia.
  - intros y Hy%H1. lia.
Qed.

Lemma spec_insert_splits x l1 l2 :
  splits x l1 l2 → spec_insert x (l1 ++ l2) = (None, l1 ++ x :: l2).
Proof.
  intros Hs. unfold spec_insert. rewrite spec_find_splits by done.
  destruct Hs as [H1 H2]. rewrite !List.filter_app.
  rewrite (filter_all _ l1), (filter_none _ l2), (filter_none _ l1), (filter_all _ l2);
    rewrite ?app_nil_r; try done; intros y Hy;
    first [apply H1 in Hy|apply H2 in Hy]; lia.
Qed.

Lemma spec_find_hit x l1 y l2 :
  (∀ z, z ∈ l1 → cmp x z > 0)%Z → (cmp x y = 0)%Z →
  spec_find x (l1 ++ y :: l2) = Some y.
Proof.
  intros H1 Hy. unfold spec_find. rewrite find_app.
  - simpl. by rewrite Hy.
  - intros z Hz%H1. lia.
Qed.

Lemma spec_nfind_hit x l1 y l2 :
  (∀ z, z ∈ l1 → cmp x z > 0)%Z → (cmp x y ≤ 0)%Z →
  spec_nfind x (l1 ++ y :: l2) = Some y.
Proof.
  intros H1 Hy. unfold spec_nfind. rewrite find_app.
  - simpl. by destruct (Z.leb_spec (cmp x y) 0); [|lia].
  - intros z Hz%H1. lia.
Qed.

Lemma increasing_remove l1 x l2 : increasing (l1 ++ x :: l2) → increasing (l1 ++ l2).
Proof.
  unfold increasing. rewrite !StronglySorted_app, StronglySorted_cons.
  intros (H12 & H1 & _ & H2). split_and!; try done. set_solver.
Qed.

Lemma increasing_insert x l1 l2 :
  increasing (l1 ++ l2) → splits x l1 l2 → increasing (l1 ++ x :: l2).
Proof.
  unfold increasing. rewrite !StronglySorted_app, StronglySorted_cons.
  intros (H12 & H1 & H2) [Hl1 Hl2]. split_and!; try done.
  - intros y z Hy [->|Hz]%elem_of_cons; [|by apply H12].
    specialize (Hl1 y Hy). unfold clt. pose proof (cmp_flip y x). lia.
  - apply Forall_forall. exact Hl2.
Qed.

Lemma spec_insert_length x l r l' :
  spec_insert x l = (r, l') → (length l' ≤ S (length l))%nat.
Proof.
  unfold spec_insert. destruct (spec_find x l); intros [= <- <-]; [lia|].
  rewrite length_app. simpl.
  enough (length (List.filter (λ y, cmp x y >? 0)%Z l) +
    length (List.filter (λ y, cmp x y <? 0)%Z l) ≤ length l)%nat by lia.
  clear. induction l as [|y l IH]; simpl; [lia|].
  destruct (Z.gtb_spec (cmp x y) 0), (Z.ltb_spec (cmp x y) 0); simpl; lia.
Qed.

(** ** The abstraction relation *)

Definition rb_model (s : rb_state) (l : list loc) : Prop :=
  ∃ t, rep s t ∧ rb_valid t ∧ inorder t = l ∧ increasing l.

End spec.

Lemma depth_le_height k t : depth k + height t ≤ height (plug k t).
Proof.
  revert t. induction k as [|c x r k IH|c l x k IH]; intros t; simpl; [lia|..].
  - specialize (IH (Node c t x r)). simpl in IH. lia.
  - specialize (IH (Node c l x t)). simpl in IH. lia.
Qed.
