(* ===== verification/RBSteps.v ===== *)
(** What each pointer-level step of the red-black tree code does to the tree
    the heap holds: field reads at the focus of a zipper, recolouring, the two
    rotations, attaching a new leaf, splicing a node out and replacing one
    node by another. *)
From S2P Require Import Prelude RBCode RBTree.

(** * Field accesses on an explicit heap *)

Section fields.
Context (root : ptr) (h : gmap loc rb_entry) (x : loc) (e : rb_entry).
Hypothesis Hx : h !! x = Some e.
Let s := RBS root h.

Lemma wp_rb_get Q : Q e s → wp (rb_get (Some x)) s Q.
Proof. unfold wp, rb_get, bind, need, gets; simpl. by rewrite Hx. Qed.
Lemma wp_rb_put e' Q : Q tt (RBS root (<[x:=e']> h)) → wp (rb_put (Some x) e') s Q.
Proof. unfold wp, rb_put, bind, need, gets; simpl. by rewrite Hx. Qed.
Lemma wp_rb_upd f Q :
  Q tt (RBS root (<[x:=f e]> h)) → wp (rb_upd (Some x) f) s Q.
Proof. intros HQ. apply wp_bind, wp_rb_get, wp_rb_put, HQ. Qed.
Lemma wp_RB_LEFT Q : Q (rbe_left e) s → wp (RB_LEFT (Some x)) s Q.
Proof. intros HQ. by apply wp_bind, wp_rb_get. Qed.
Lemma wp_RB_RIGHT Q : Q (rbe_right e) s → wp (RB_RIGHT (Some x)) s Q.
Proof. intros HQ. by apply wp_bind, wp_rb_get. Qed.
Lemma wp_RB_PARENT Q : Q (rbe_parent e) s → wp (RB_PARENT (Some x)) s Q.
Proof. intros HQ. by apply wp_bind, wp_rb_get. Qed.
Lemma wp_RB_COLOR Q : Q (rbe_color e) s → wp (RB_COLOR (Some x)) s Q.
Proof. intros HQ. by apply wp_bind, wp_rb_get. Qed.
End fields.

(** Freshness from the [NoDup] in the context. *)
Ltac rb_fresh :=
  match goal with
  | H : ?x ∉ _ |- ?x ∉ _ => exact H
  | H : ?x ≠ ?y |- ?x ≠ ?y => exact H
  | H : ?x ≠ ?y |- ?y ≠ ?x => exact (not_eq_sym H)
  | H : NoDup ?L |- ?x ≠ ?y => apply (nodup_ne L x y H); solve_submseteq
  | H : NoDup ?L |- ?x ∉ ?l => apply (nodup_notin L l x H); solve_submseteq
  end.

Ltac rb_lookup :=
  cbn [rb_heap rbh_root];
  repeat first
    [ apply lookup_insert_eq | eassumption
    | rewrite lookup_insert_ne by rb_fresh ].

Ltac rb_cbn :=
  change (Z.eqb (cz Red) RB_RED) with true;
  change (Z.eqb (cz Black) RB_RED) with false;
  change (Z.eqb (cz Red) RB_BLACK) with false;
  change (Z.eqb (cz Black) RB_BLACK) with true;
  cbn [set_left set_right set_parent set_color rbe_left rbe_right rbe_parent
       rbe_color non_null rootp kparent whenM negb andb orb rb_heap rbh_root].

(** One step of symbolic execution of tree code whose state is explicit:
    [rb_read] runs the steps that leave the heap alone, [rb_step] also the
    writes. *)
Ltac rb_read :=
  rb_cbn;
  lazymatch goal with
  | |- wp (bind _ _) _ _ => apply wp_bind
  | |- wp (ret _) _ _ => apply wp_ret
  | |- wp (RB_LEFT (Some _)) _ _ => eapply wp_RB_LEFT; [by rb_lookup|]
  | |- wp (RB_RIGHT (Some _)) _ _ => eapply wp_RB_RIGHT; [by rb_lookup|]
  | |- wp (RB_PARENT (Some _)) _ _ => eapply wp_RB_PARENT; [by rb_lookup|]
  | |- wp (RB_COLOR (Some _)) _ _ => eapply wp_RB_COLOR; [by rb_lookup|]
  | |- wp (rb_get (Some _)) _ _ => eapply wp_rb_get; [by rb_lookup|]
  | |- wp (is_red _) _ _ => unfold is_red
  | |- wp (null_or_black _) _ _ => unfold null_or_black
  | |- wp (RB_AUGMENT _) _ _ => apply wp_ret
  | |- wp RB_ROOT _ _ => apply wp_gets
  end; cbv beta; rb_cbn.
Ltac rb_write :=
  rb_cbn;
  lazymatch goal with
  | |- wp (rb_put (Some _) _) _ _ => eapply wp_rb_put; [by rb_lookup|]
  | |- wp (rb_upd (Some _) _) _ _ => eapply wp_rb_upd; [by rb_lookup|]
  | |- wp (put_LEFT _ _) _ _ => unfold put_LEFT
  | |- wp (put_RIGHT _ _) _ _ => unfold put_RIGHT
  | |- wp (put_PARENT _ _) _ _ => unfold put_PARENT
  | |- wp (put_COLOR _ _) _ _ => unfold put_COLOR
  | |- wp (put_ROOT _) _ _ => apply wp_modify
  end; cbv beta; rb_cbn.
Ltac rb_step := first [rb_read | rb_write].

(** The goal [repr]/[krepr]/lookup of an updated heap. *)
Ltac rb_frame :=
  cbn [repr krepr rootp kparent rb_heap rbh_root];
  repeat match goal with
  | |- _ ∧ _ => split
  | |- repr (<[_:=_]> _) _ _ => apply repr_insert; [rb_fresh|]
  | |- krepr _ (<[_:=_]> _) _ _ => apply krepr_insert; [rb_fresh|rb_fresh|]
  | |- _ !! _ = Some _ => by rb_lookup
  | |- True => exact I
  | |- ?x = ?x => reflexivity
  end; try eassumption.

Lemma nodup_sub {A} (l l' : list A) : NoDup l → l' ⊆+ l → NoDup l'.
Proof.
  intros Hl [k Hk]%submseteq_Permutation. rewrite Hk in Hl.
  by apply NoDup_app in Hl as [? _].
Qed.

(** A [NoDup] up to the order of the elements. *)
Ltac rb_nodup H :=
  revert H; apply NoDup_Permutation_proper; simpl; solve_Permutation.

(** Decide the comparison of a node with the root of a disjoint subtree. *)
Ltac rb_ptrs :=
  repeat first
    [ rewrite ptr_eqb_refl | rewrite ptr_eqb_null_l | rewrite ptr_eqb_null_r
    | rewrite ptr_eqb_some_ne by rb_fresh
    | rewrite ptr_eqb_root_r by rb_fresh
    | rewrite ptr_eqb_root_l by rb_fresh ].

(** * Reading at the focus *)

Lemma zrep_entry s k c l x r :
  zrep s k (Node c l x r) →
  rb_heap s !! x = Some (RBE (rootp l) (rootp r) (kparent k) (cz c)).
Proof. intros (_ & Hr & _). apply Hr. Qed.

Section reads.
Context (s : rb_state) (k : ctx) (c : color) (l : tree) (x : loc) (r : tree).
Hypothesis Hz : zrep s k (Node c l x r).
Implicit Types Q : ptr → rb_state → Prop.

Lemma wp_LEFT_z Q : Q (rootp l) s → wp (RB_LEFT (Some x)) s Q.
Proof. destruct s. intros. by eapply wp_RB_LEFT; [by eapply (zrep_entry _ _ _ _ _ _ Hz)|]. Qed.
Lemma wp_RIGHT_z Q : Q (rootp r) s → wp (RB_RIGHT (Some x)) s Q.
Proof. destruct s. intros. by eapply wp_RB_RIGHT; [by eapply (zrep_entry _ _ _ _ _ _ Hz)|]. Qed.
Lemma wp_PARENT_z Q : Q (kparent k) s → wp (RB_PARENT (Some x)) s Q.
Proof. destruct s. intros. by eapply wp_RB_PARENT; [by eapply (zrep_entry _ _ _ _ _ _ Hz)|]. Qed.
Lemma wp_COLOR_z (Q : Z → rb_state → Prop) :
  Q (cz c) s → wp (RB_COLOR (Some x)) s Q.
Proof. destruct s. intros. by eapply wp_RB_COLOR; [by eapply (zrep_entry _ _ _ _ _ _ Hz)|]. Qed.
End reads.

Lemma cz_red c : Z.eqb (cz c) RB_RED = bool_decide (c = Red).
Proof. by destruct c. Qed.
Lemma cz_black c : Z.eqb (cz c) RB_BLACK = bool_decide (c = Black).
Proof. by destruct c. Qed.

Lemma wp_is_red s k t Q :
  zrep s k t → Q (bool_decide (tree_color t = Red)) s → wp (is_red (rootp t)) s Q.
Proof.
  destruct t as [|c l x r]; intros Hz HQ; unfold is_red; simpl; [done|].
  apply wp_bind. eapply wp_COLOR_z; [done|]. apply wp_ret. by rewrite cz_red.
Qed.

Lemma wp_null_or_black s k t Q :
  zrep s k t → Q (bool_decide (tree_color t = Black)) s →
  wp (null_or_black (rootp t)) s Q.
Proof.
  destruct t as [|c l x r]; intros Hz HQ; unfold null_or_black; simpl; [done|].
  apply wp_bind. eapply wp_COLOR_z; [done|]. apply wp_ret. by rewrite cz_black.
Qed.

(** * Frames: which entries an operation leaves alone *)

Definition frame (L : list loc) (s s' : rb_state) : Prop :=
  ∀ y, y ∉ L → rb_heap s' !! y = rb_heap s !! y.

#[export] Instance frame_preorder L : PreOrder (frame L).
Proof. split; [done|]. intros s1 s2 s3 H1 H2 y Hy. by rewrite H2, H1. Qed.

Lemma frame_weaken L L' s s' : L ⊆ L' → frame L s s' → frame L' s s'.
Proof. intros HL H y Hy. apply H. set_solver. Qed.

Ltac frame_solve :=
  let y := fresh "y" in let Hy := fresh "Hy" in
  intros y Hy; cbn [rb_heap inorder plug before after] in Hy |- *;
  repeat first [rewrite not_elem_of_app in Hy | rewrite not_elem_of_cons in Hy];
  destruct_and?;
  repeat (rewrite lookup_insert_ne by congruence); reflexivity.

(** The elements of the tree a zipper stands for. *)
Abbreviation elems k t := (before k ++ inorder t ++ after k).

(** * Recolouring *)

Lemma wp_put_COLOR_z s k c l x r c' Q :
  zrep s k (Node c l x r) →
  (∀ s', zrep s' k (Node c' l x r) → frame (elems k (Node c l x r)) s s' → Q tt s') →
  wp (put_COLOR (Some x) (cz c')) s Q.
Proof.
  destruct s as [root h]. intros (Hk & Hr & Hnd) HQ. simpl in *.
  destruct Hr as (Hx & Hl & Hrr).
  rb_step. rb_step. apply HQ; [|frame_solve].
  split; [|split]; [rb_frame..|done].
Qed.

(** * Rotations *)

Lemma wp_ROTATE_LEFT_z s k c l x c' b y d Q :
  zrep s k (Node c l x (Node c' b y d)) →
  (∀ s', zrep s' k (Node c' (Node c l x b) y d) →
     frame (elems k (Node c l x (Node c' b y d))) s s' → Q (Some y) s') →
  wp (RB_ROTATE_LEFT (Some x)) s Q.
Proof.
  destruct s as [root h]. intros (Hk & Hr & Hnd) HQ. simpl in *.
  destruct Hr as (Hx & Hl & Hy & Hb & Hd).
  unfold RB_ROTATE_LEFT.
  destruct b as [|cb bl z br]; destruct k as [|kc p kr k|kc kl p k]; simpl in *;
    destruct_and?; repeat (rb_step; rb_ptrs).
  all: apply HQ; [|frame_solve].
  all: split; [|split]; [rb_frame..|].
  all: rb_nodup Hnd.
Qed.

Lemma wp_ROTATE_RIGHT_z s k c r x c' a y b Q :
  zrep s k (Node c (Node c' a y b) x r) →
  (∀ s', zrep s' k (Node c' a y (Node c b x r)) →
     frame (elems k (Node c (Node c' a y b) x r)) s s' → Q (Some y) s') →
  wp (RB_ROTATE_RIGHT (Some x)) s Q.
Proof.
  destruct s as [root h]. intros (Hk & Hr & Hnd) HQ. simpl in *.
  destruct Hr as (Hx & (Hy & Ha & Hb) & Hr).
  unfold RB_ROTATE_RIGHT.
  destruct b as [|cb bl z br]; destruct k as [|kc p kr k|kc kl p k]; simpl in *;
    destruct_and?; repeat (rb_step; rb_ptrs).
  all: apply HQ; [|frame_solve].
  all: split; [|split]; [rb_frame..|].
  all: rb_nodup Hnd.
Qed.

(** * Attaching a new leaf: [RB_SET] and the link to its parent *)

(** The side of the hole that the last comparison asks for. *)
Definition comp_side (k : ctx) (comp : Z) : Prop :=
  match k with
  | Top => True
  | InL _ _ _ _ => (comp < 0)%Z
  | InR _ _ _ _ => (comp > 0)%Z
  end.

Lemma wp_attach s k x comp Q :
  zrep s k Leaf → x ∉ before k ++ after k → is_Some (rb_heap s !! x) →
  comp_side k comp →
  (∀ s', zrep s' k (Node Red Leaf x Leaf) →
     frame (elems k (Node Red Leaf x Leaf)) s s' → Q tt s') →
  wp (attach (Some x) (kparent k) comp) s Q.
Proof.
  destruct s as [root h]. intros (Hk & _ & Hnd) Hx [e He] Hcomp HQ. simpl in *.
  assert (NoDup (x :: before k ++ after k)) as Hndx by by constructor.
  assert (NoDup (before k ++ [x] ++ after k)) as Hnd'.
  { rb_nodup Hndx. }
  clear Hnd Hx. unfold attach, RB_SET.
  destruct k as [|kc p kr k|kc kl p k]; simpl in *; destruct_and?;
    [|destruct (Z.ltb_spec comp 0); [|lia]|destruct (Z.ltb_spec comp 0); [lia|]];
    repeat (rb_step; rb_ptrs).
  all: apply HQ; [|frame_solve].
  all: split; [|split]; [rb_frame..|done].
Qed.

(** * Splicing out a node with at most one child *)

Lemma wp_splice s k c l x r t Q :
  zrep s k (Node c l x r) →
  (l = Leaf ∧ t = r) ∨ (r = Leaf ∧ t = l) →
  (∀ s', zrep s' k t → rb_heap s' !! x = rb_heap s !! x →
     frame (before k ++ inorder t ++ after k) s s' → Q tt s') →
  wp (splice (Some x) (rootp t) (kparent k)) s Q.
Proof.
  destruct s as [root h]. intros (Hk & Hr & Hnd) Hcase HQ. simpl in *.
  destruct Hr as (Hx & Hl & Hr).
  assert (NoDup (x :: before k ++ inorder t ++ after k) ∧ repr h (Some x) t)
    as [Hnd' Ht].
  { destruct Hcase as [[-> ->]|[-> ->]]; simpl in *; split; try done; rb_nodup Hnd. }
  clear Hnd Hcase Hl Hr. unfold splice, relink.
  destruct t as [|ct tl y tr]; destruct k as [|kc p kr k|kc kl p k]; simpl in *;
    destruct_and?; repeat (rb_step; rb_ptrs).
  all: apply HQ; [|rb_cbn; rewrite ?lookup_insert_ne by rb_fresh; done|frame_solve].
  all: split; [|split]; [rb_frame..|simpl; by apply NoDup_cons in Hnd' as [_ ?]].
Qed.

(** * Replacing a node by a fresh one *)

Lemma wp_transplant s k c l x r m Q :
  zrep s k (Node c l x r) → l ≠ Leaf → m ∉ elems k (Node c l x r) →
  is_Some (rb_heap s !! m) →
  (∀ s', zrep s' k (Node c l m r) → rb_heap s' !! x = rb_heap s !! x →
     frame (elems k (Node c l m r)) s s' → Q tt s') →
  wp (transplant (Some x) (Some m)) s Q.
Proof.
  destruct s as [root h]. intros (Hk & Hr & Hnd) Hl Hm [em Hem] HQ. simpl in *.
  destruct Hr as (Hx & Hrl & Hr).
  assert (NoDup (m :: before k ++ (inorder l ++ x :: inorder r) ++ after k))
    as Hnd' by by constructor.
  clear Hnd Hm. unfold transplant, relink.
  destruct l as [|cl ll y lr]; [done|].
  destruct r as [|cr rl z rr]; destruct k as [|kc p kr k|kc kl p k]; simpl in *;
    destruct_and?; repeat (rb_step; rb_ptrs).
  all: apply HQ; [|rb_cbn; rewrite ?lookup_insert_ne by rb_fresh; done|frame_solve].
  all: split; [|split]; [rb_frame..|].
  all: eapply (nodup_sub _ _ Hnd'); simpl; solve_submseteq.
Qed.

(** * Steps that keep the elements of the tree

    [tin L s0 s t]: the heap holds [t], whose elements in order are [L], and
    since [s0] no entry outside [L] has changed. *)
Definition tin (L : list loc) (s0 s : rb_state) (t : tree) : Prop :=
  rep s t ∧ inorder t = L ∧ frame L s0 s.

Section same_elements.
Context (L : list loc) (s0 : rb_state).
Implicit Types (s : rb_state) (k : ctx) (t : tree).

Lemma tin_zrep s k t : tin L s0 s (plug k t) → zrep s k t.
Proof. intros [Hr _]. by apply rep_plug. Qed.

Lemma tin_step s s' k t t' :
  tin L s0 s (plug k t) → inorder t' = inorder t → zrep s' k t' →
  frame (elems k t) s s' → tin L s0 s' (plug k t').
Proof.
  intros (_ & HL & Hf) Ht Hz Hf'. rewrite inorder_plug in HL.
  split; [by apply rep_plug|]. rewrite inorder_plug, Ht. split; [done|].
  etrans; [done|]. by rewrite <-HL.
Qed.

Lemma wp_color s k c l x r c' Q :
  tin L s0 s (plug k (Node c l x r)) →
  (∀ s', tin L s0 s' (plug k (Node c' l x r)) → Q tt s') →
  wp (put_COLOR (Some x) (cz c')) s Q.
Proof.
  intros Ht HQ. eapply wp_put_COLOR_z; [by apply tin_zrep|].
  intros s' Hz Hf. by eapply HQ, tin_step.
Qed.

Lemma wp_black s k c l x r Q :
  tin L s0 s (plug k (Node c l x r)) →
  (∀ s', tin L s0 s' (plug k (Node Black l x r)) → Q tt s') →
  wp (put_COLOR (Some x) RB_BLACK) s Q.
Proof. apply (wp_color s k c l x r Black). Qed.
Lemma wp_red s k c l x r Q :
  tin L s0 s (plug k (Node c l x r)) →
  (∀ s', tin L s0 s' (plug k (Node Red l x r)) → Q tt s') →
  wp (put_COLOR (Some x) RB_RED) s Q.
Proof. apply (wp_color s k c l x r Red). Qed.

Lemma wp_rotate_left s k c l x c' b y d Q :
  tin L s0 s (plug k (Node c l x (Node c' b y d))) →
  (∀ s', tin L s0 s' (plug k (Node c' (Node c l x b) y d)) → Q (Some y) s') →
  wp (RB_ROTATE_LEFT (Some x)) s Q.
Proof.
  intros Ht HQ. eapply wp_ROTATE_LEFT_z; [by apply tin_zrep|].
  intros s' Hz Hf. eapply HQ, tin_step; [done| |done..].
  simpl. by rewrite <-(assoc_L (++)).
Qed.

Lemma wp_rotate_right s k c r x c' a y b Q :
  tin L s0 s (plug k (Node c (Node c' a y b) x r)) →
  (∀ s', tin L s0 s' (plug k (Node c' a y (Node c b x r))) → Q (Some y) s') →
  wp (RB_ROTATE_RIGHT (Some x)) s Q.
Proof.
  intros Ht HQ. eapply wp_ROTATE_RIGHT_z; [by apply tin_zrep|].
  intros s' Hz Hf. eapply HQ, tin_step; [done| |done..].
  simpl. by rewrite <-(assoc_L (++)).
Qed.

(** The two writes of [RB_SET_BLACKRED] on a parent and its child. *)
Lemma wp_blackred_L s k cg cp a p b g u Q :
  tin L s0 s (plug k (Node cg (Node cp a p b) g u)) →
  (∀ s', tin L s0 s' (plug k (Node Red (Node Black a p b) g u)) → Q tt s') →
  wp (RB_SET_BLACKRED (Some p) (Some g)) s Q.
Proof.
  intros Ht HQ. apply wp_bind.
  apply (wp_black _ (InL cg g u k) cp a p b); [done|]. intros s1 H1.
  by apply (wp_red _ k cg (Node Black a p b) g u).
Qed.

Lemma wp_blackred_R s k cg cp a p b g u Q :
  tin L s0 s (plug k (Node cg u g (Node cp a p b))) →
  (∀ s', tin L s0 s' (plug k (Node Red u g (Node Black a p b))) → Q tt s') →
  wp (RB_SET_BLACKRED (Some p) (Some g)) s Q.
Proof.
  intros Ht HQ. apply wp_bind.
  apply (wp_black _ (InR cg u g k) cp a p b); [done|]. intros s1 H1.
  by apply (wp_red _ k cg u g (Node Black a p b)).
Qed.
End same_elements.

(** * Tactics for programs over a tree in the heap *)

(** Make the entries of the nodes around the focus explicit and run the reads
    at the head of the program. *)
Ltac z_open H :=
  let Hz := fresh "Hz" in let Hk := fresh "Hk" in
  let Hr := fresh "Hr" in let Hnd := fresh "Hnd" in
  lazymatch type of H with
  | tin _ _ ?s (plug ?k ?t) =>
      pose proof (tin_zrep _ _ s k t H) as Hz;
      tryif is_var s then destruct s as [?root ?h] else idtac;
      destruct Hz as (Hk & Hr & Hnd);
      cbn [krepr repr rootp kparent rb_heap rbh_root before after inorder]
        in Hk, Hr, Hnd;
      destruct_and?
  end.
Ltac z_close :=
  repeat match goal with
  | H : _ !! _ = Some (RBE _ _ _ _) |- _ => clear H
  | H : repr _ _ _ |- _ => clear H
  | H : krepr _ _ _ _ |- _ => clear H
  | H : NoDup _ |- _ => clear H
  end.
Ltac z_reads H := z_open H; repeat (rb_read; rb_ptrs); z_close.

(** One write at the focus [k] of the tree of [H]. *)
Tactic Notation "z_do" constr(lem) uconstr(k) hyp(H) :=
  lazymatch goal with |- wp (bind _ _) _ _ => apply wp_bind | _ => idtac end;
  eapply (lem _ _ _ k); [exact H|]; clear H; intros ? H; rb_cbn.

(** Move the focus of [H] to the parent. *)
Ltac z_up H :=
  lazymatch type of H with
  | tin ?L ?s0 ?s (plug (InL ?c ?x ?r ?k) ?t) =>
      change (tin L s0 s (plug k (Node c t x r))) in H
  | tin ?L ?s0 ?s (plug (InR ?c ?l ?x ?k) ?t) =>
      change (tin L s0 s (plug k (Node c l x t))) in H
  end.
Ltac z_at H k t :=
  lazymatch type of H with
  | tin ?L ?s0 ?s _ => change (tin L s0 s (plug k t)) in H
  end.

(** * Walking down and up *)

(** The leftmost node below the focus. *)
Lemma wp_descend_left fuel s k c l x r :
  zrep s k (Node c l x r) → height l < fuel →
  wp (descend_left fuel (Some x)) s (λ p s', s' = s ∧ ∃ kl c' m r',
    p = Some m ∧ Node c l x r = plug kl (Node c' Leaf m r') ∧ before kl = []).
Proof.
  intros Hz Hfuel.
  eapply wp_loop with (n := height l) (I := λ n p s', s' = s ∧ ∃ kl c' l' m r',
    p = Some m ∧ Node c l x r = plug kl (Node c' l' m r') ∧ before kl = [] ∧
    n = height l'); [| |done].
  2: { split; [done|]. by exists Top, c, l, x, r. }
  clear Hfuel. intros n p s' (-> & kl & c' & l' & m & r' & -> & Heq & Hb & ->).
  assert (zrep s (kapp kl k) (Node c' l' m r')) as Hz'.
  { apply rep_plug. rewrite plug_kapp, <-Heq. by apply rep_plug. }
  apply wp_bind. eapply wp_LEFT_z; [exact Hz'|].
  destruct l' as [|c2 l2 y r2]; simpl; apply wp_ret.
  - split; [done|]. by exists kl, c', m, r'.
  - exists (height l2). split; [lia|]. split; [done|].
    by exists (InL c' m r' kl), c2, l2, y, r2.
Qed.

Lemma wp_augment_up fuel s k c l x r Q :
  zrep s k (Node c l x r) → depth k < fuel → Q tt s →
  wp (augment_up fuel (Some x)) s Q.
Proof.
  intros Hz Hfuel HQ. eapply wp_mono with (P := λ _ s', s' = s); [|by intros [] ? ->].
  eapply wp_loop with (n := depth k) (I := λ n p s', s' = s ∧ ∃ k' c' l' y r',
    p = Some y ∧ zrep s k' (Node c' l' y r') ∧ n = depth k'); [| |done].
  2: { split; [done|]. by exists k, c, l, x, r. }
  clear. intros n p s' (-> & k' & c' & l' & y & r' & -> & Hz & ->).
  apply wp_bind, wp_ret, wp_bind. eapply wp_PARENT_z; [exact Hz|].
  destruct k' as [|c2 z r2 k'|c2 l2 z k']; simpl; apply wp_ret; [done|..].
  - exists (depth k'). split; [lia|]. split; [done|].
    exists k', c2, (Node c' l' y r'), z, r2. split_and!; try done.
    apply rep_plug. by apply rep_plug in Hz.
  - exists (depth k'). split; [lia|]. split; [done|].
    exists k', c2, l2, z, (Node c' l' y r'). split_and!; try done.
    apply rep_plug. by apply rep_plug in Hz.
Qed.

Lemma wp_augment_from fuel s k t Q :
  zrep s k t → depth k ≤ fuel → Q tt s →
  wp (whenM (non_null (kparent k)) (augment_up fuel (kparent k))) s Q.
Proof.
  intros Hz Hfuel HQ. destruct k as [|c x r k|c l x k]; simpl in *; [by apply wp_ret|..].
  - eapply (wp_augment_up _ _ k c t x r); [|lia|done].
    apply rep_plug. by apply rep_plug in Hz.
  - eapply (wp_augment_up _ _ k c l x t); [|lia|done].
    apply rep_plug. by apply rep_plug in Hz.
Qed.
