(* ===== verification/RBSearch.v ===== *)
(** Searching and walking the red-black tree: [name##_RB_FIND],
    [name##_RB_NFIND], [name##_RB_MINMAX], [name##_RB_NEXT], [name##_RB_PREV]
    and the [RB_FOREACH] loops. *)
From stdpp Require Import sorting.
From S2P Require Import Prelude RBCode RBTree RBSteps RBSpec.

Section search.
Context (cmp : loc → loc → Z) `{!CmpOrder cmp}.

Lemma wp_cmpM x y s Q : Q (cmp x y) s → wp (cmpM cmp (Some x) (Some y)) s Q.
Proof. done. Qed.

(** ** The descent every search shares

    The pointer [tmp] is at a subtree [t] of the whole tree [T], and the key
    of [x] falls between the elements before and after it. *)
Definition descent (T : tree) (s0 : rb_state) (x : loc) (k : ctx) (t : tree)
    (s : rb_state) : Prop :=
  s = s0 ∧ T = plug k t ∧ rep s0 T ∧ increasing cmp (inorder T) ∧
  splits cmp x (before k) (after k).

Lemma descent_start T s x :
  rep s T → increasing cmp (inorder T) → descent T s x Top T s.
Proof. intros. split_and!; try done. split; intros y Hy; by apply elem_of_nil in Hy. Qed.

Lemma descent_entry T s0 x k c l y r s :
  descent T s0 x k (Node c l y r) s →
  rb_heap s !! y = Some (RBE (rootp l) (rootp r) (kparent k) (cz c)).
Proof.
  intros (-> & -> & Hrep & _). apply rep_plug in Hrep. by eapply zrep_entry.
Qed.

Lemma descent_sorted T s0 x k c l y r s :
  descent T s0 x k (Node c l y r) s →
  increasing cmp (y :: inorder r) ∧ ∀ z, z ∈ inorder l → clt cmp z y.
Proof.
  intros (_ & -> & _ & Hs & _). unfold increasing in *.
  rewrite inorder_plug in Hs. simpl in Hs.
  apply StronglySorted_app_1_r, StronglySorted_app_1_l in Hs.
  split; [by apply StronglySorted_app_1_r in Hs|].
  intros z Hz. apply (StronglySorted_app_1_elem_of _ _ _ _ _ Hs); set_solver.
Qed.

Lemma descent_left T s0 x k c l y r s :
  descent T s0 x k (Node c l y r) s → (cmp x y < 0)%Z →
  descent T s0 x (InL c y r k) l s.
Proof.
  intros Hd Hc. destruct (descent_sorted _ _ _ _ _ _ _ _ _ Hd) as [Hr _].
  destruct Hd as (-> & HT & Hrep & Hs & Hsp).
  split_and!; [done..|]. by apply splits_left.
Qed.

Lemma descent_right T s0 x k c l y r s :
  descent T s0 x k (Node c l y r) s → (cmp x y > 0)%Z →
  descent T s0 x (InR c l y k) r s.
Proof.
  intros Hd Hc. destruct (descent_sorted _ _ _ _ _ _ _ _ _ Hd) as [_ Hl].
  destruct Hd as (-> & HT & Hrep & Hs & Hsp).
  split_and!; [done..|]. by apply splits_right.
Qed.

(** All elements left of a node the key is not below come before the key. *)
Lemma descent_hit T s0 x k c l y r s :
  descent T s0 x k (Node c l y r) s → (cmp x y = 0)%Z →
  ∃ l1 l2, inorder T = l1 ++ y :: l2 ∧ ∀ z, z ∈ l1 → (cmp x z > 0)%Z.
Proof.
  intros Hd Hc. destruct (descent_sorted _ _ _ _ _ _ _ _ _ Hd) as [_ Hl].
  destruct Hd as (_ & -> & _ & _ & Hsp & _).
  exists (before k ++ inorder l), (inorder r ++ after k).
  rewrite inorder_plug. simpl. rewrite <-!(assoc_L (++)). split; [done|].
  intros z [Hz|Hz]%elem_of_app; [by apply Hsp|].
  by apply (clt_eq_gt cmp x y), Hl.
Qed.


(** ** [RB_FIND] and [RB_NFIND] *)

Lemma wp_RB_FIND fuel s l x :
  rb_model cmp s l → rb_fuel (length l) ≤ fuel →
  wp (RB_FIND cmp fuel (Some x)) s (λ res s', res = spec_find cmp x l ∧ s' = s).
Proof.
  intros (T & Hrep & Hv & <- & Hs) Hfuel.
  pose proof (rb_valid_height T Hv) as Hh.
  apply wp_bind, wp_gets. rewrite (proj1 Hrep).
  eapply wp_loop with (n := height T) (I := λ n tmp s',
    ∃ k t, descent T s x k t s' ∧ tmp = rootp t ∧ n = height t); [| |lia].
  2: { exists Top, T. split_and!; try done. by apply descent_start. }
  clear Hh Hfuel Hv. intros n tmp s' (k & t & Hd & -> & ->).
  destruct t as [|c tl y tr].
  { simpl. apply wp_ret. destruct Hd as (-> & -> & _ & _ & Hsp).
    rewrite inorder_plug. by rewrite spec_find_splits. }
  pose proof (descent_entry _ _ _ _ _ _ _ _ _ Hd) as He. destruct s' as [root h].
  cbn [rootp non_null negb]. apply wp_bind, wp_cmpM.
  destruct (Z.ltb_spec (cmp x y) 0); [|destruct (Z.gtb_spec (cmp x y) 0)].
  - apply wp_bind. eapply wp_RB_LEFT; [done|]. apply wp_ret.
    exists (height tl). split; [simpl; lia|].
    exists (InL c y tr k), tl. split_and!; try done. by apply descent_left.
  - apply wp_bind. eapply wp_RB_RIGHT; [done|]. apply wp_ret.
    exists (height tr). split; [simpl; lia|].
    exists (InR c tl y k), tr. split_and!; try done. apply descent_right; [done|lia].
  - apply wp_ret. assert (cmp x y = 0)%Z as Hxy by lia.
    destruct (descent_hit _ _ _ _ _ _ _ _ _ Hd Hxy) as (l1 & l2 & -> & Hl1).
    destruct Hd as [-> _]. by rewrite spec_find_hit.
Qed.

Lemma wp_RB_NFIND fuel s l x :
  rb_model cmp s l → rb_fuel (length l) ≤ fuel →
  wp (RB_NFIND cmp fuel (Some x)) s (λ res s', res = spec_nfind cmp x l ∧ s' = s).
Proof.
  intros (T & Hrep & Hv & <- & Hs) Hfuel.
  pose proof (rb_valid_height T Hv) as Hh.
  apply wp_bind, wp_gets. rewrite (proj1 Hrep).
  eapply wp_loop with (n := height T) (I := λ n '(tmp, res) s',
    ∃ k t, descent T s x k t s' ∧ tmp = rootp t ∧ res = head (after k) ∧
      n = height t); [| |lia].
  2: { exists Top, T. split_and!; try done. by apply descent_start. }
  clear Hh Hfuel Hv. intros n [tmp res] s' (k & t & Hd & -> & -> & ->).
  destruct t as [|c tl y tr].
  { simpl. apply wp_ret. destruct Hd as (-> & -> & _ & _ & Hsp).
    rewrite inorder_plug. by rewrite spec_nfind_splits. }
  pose proof (descent_entry _ _ _ _ _ _ _ _ _ Hd) as He. destruct s' as [root h].
  cbn [rootp non_null negb]. apply wp_bind, wp_cmpM.
  destruct (Z.ltb_spec (cmp x y) 0); [|destruct (Z.gtb_spec (cmp x y) 0)].
  - apply wp_bind. eapply wp_RB_LEFT; [done|]. apply wp_ret.
    exists (height tl). split; [simpl; lia|].
    exists (InL c y tr k), tl. split_and!; try done. by apply descent_left.
  - apply wp_bind. eapply wp_RB_RIGHT; [done|]. apply wp_ret.
    exists (height tr). split; [simpl; lia|].
    exists (InR c tl y k), tr. split_and!; try done. apply descent_right; [done|lia].
  - apply wp_ret. assert (cmp x y = 0)%Z as Hxy by lia.
    destruct (descent_hit _ _ _ _ _ _ _ _ _ Hd Hxy) as (l1 & l2 & -> & Hl1).
    destruct Hd as [-> _]. rewrite spec_nfind_hit; [done|done|lia].
Qed.

(** ** [RB_MINMAX] *)

Lemma wp_RB_MINMAX fuel s l val :
  rb_model cmp s l → rb_fuel (length l) ≤ fuel →
  wp (RB_MINMAX fuel val) s (λ res s',
    res = (if Z.ltb val 0 then head l else last l) ∧ s' = s).
Proof.
  intros (T & Hrep & Hv & <- & Hs) Hfuel.
  pose proof (rb_valid_height T Hv) as Hh.
  apply wp_bind, wp_gets. rewrite (proj1 Hrep).
  eapply wp_loop with (n := height T) (I := λ n '(tmp, parent) s',
    s' = s ∧ ∃ k t, T = plug k t ∧ tmp = rootp t ∧ n = height t ∧
      if Z.ltb val 0 then before k = [] ∧ parent = head (after k)
      else after k = [] ∧ parent = last (before k)); [| |lia].
  2: { split; [done|]. exists Top, T. by destruct (Z.ltb val 0). }
  clear Hh Hfuel Hv Hs. intros n [tmp parent] s' (-> & k & t & -> & -> & -> & Hk).
  rewrite inorder_plug. destruct t as [|c tl y tr].
  { simpl. apply wp_ret.
    destruct (Z.ltb val 0), Hk as [Hk1 Hk2]; rewrite Hk1, ?app_nil_r; done. }
  cbn [rootp non_null negb]. apply rep_plug in Hrep.
  destruct (Z.ltb val 0); destruct Hk as [Hk1 Hk2]; apply wp_bind.
  - eapply wp_LEFT_z; [done|]. apply wp_ret. exists (height tl).
    split; [simpl; lia|]. split; [done|]. by exists (InL c y tr k), tl.
  - eapply wp_RIGHT_z; [done|]. apply wp_ret. exists (height tr).
    split; [simpl; lia|]. split; [done|]. exists (InR c tl y k), tr.
    split_and!; try done. simpl. by rewrite (assoc_L (++)), last_snoc.
Qed.
End search.
