(* ===== verification/RBInsert.v ===== *)
(** Insertion into the red-black tree: the recolouring loop of
    [name##_RB_INSERT_COLOR] and [name##_RB_INSERT] itself. *)
From stdpp Require Import sorting.
From S2P Require Import Prelude RBCode RBTree RBSteps RBSpec RBSearch.

Section insert_color.
Context (L : list loc) (s0 : rb_state).

(** Between two turns: a red node [x] roots a red-black subtree that fits its
    context but for its colour. *)
Definition fixing (n : nat) (elm : ptr) (s : rb_state) : Prop :=
  ∃ k m l x r, elm = Some x ∧ depth k = n ∧
    tin L s0 s (plug k (Node Red l x r)) ∧
    rbt Red m (Node Red l x r) ∧ krbt Black m k.

(** When the loop is left, blackening the root makes the tree valid. *)
Definition fixed (s : rb_state) : Prop :=
  ∃ t, tin L s0 s t ∧ t ≠ Leaf ∧ rb_valid (blacken t).

Lemma fixed_top s l x r m :
  tin L s0 s (Node Red l x r) → rbt Red m (Node Red l x r) → fixed s.
Proof.
  intros Ht Hr. eexists. split; [done|]. split; [done|].
  inversion Hr; subst. exists (S m). simpl. eauto with cmodel.
Qed.

Lemma fixed_black s k l x r m :
  tin L s0 s (plug k (Node Red l x r)) → rbt Red m (Node Red l x r) →
  krbt Red m k → fixed s.
Proof.
  intros Ht Hr Hk. eexists. split; [done|]. split; [apply plug_node|].
  rewrite rb_valid_blacken; by eapply rbt_plug.
Qed.

Definition step_post (n : nat) (r : ptr + unit) (s : rb_state) : Prop :=
  match r with
  | inl elm => ∃ n', n' < n ∧ fixing n' elm s
  | inr _ => fixed s
  end.

Lemma post_again k m l x r n s :
  tin L s0 s (plug k (Node Red l x r)) → rbt Red m (Node Red l x r) →
  krbt Black m k → depth k < n → step_post n (inl (Some x)) s.
Proof. intros. exists (depth k). split; [done|]. by exists k, m, l, x, r. Qed.

(** A turn with a red uncle [u]: recolour and go on from the grandparent. *)
Ltac uncle_red ku lem k Ht := z_do wp_black ku Ht; z_do lem k Ht; apply wp_ret.

(** Parent on the left of the grandparent, node on its left. *)
Lemma step_LL k m g p x l r b u c s :
  tin L s0 s (plug k (Node Black (Node Red (Node Red l x r) p b) g u)) →
  rbt Red m (Node Red l x r) → rbt Black m b → rbt c m u → krbt Black (S m) k →
  wp (INSERT_COLOR_step (Some x)) s (step_post (S (S (depth k)))).
Proof.
  intros Ht Hr Hb Hu Hk. unfold INSERT_COLOR_step.
  destruct u as [|[] ul xu ur]; z_reads Ht; inversion Hu; subst.
  2: { uncle_red (InR Black (Node Red (Node Red l x r) p b) g k) wp_blackred_L k Ht.
       eapply (post_again k (S m)); eauto with cmodel. }
  all: z_do wp_blackred_L k Ht; z_do wp_rotate_right k Ht; apply wp_ret.
  all: eapply (post_again (InL Black p (Node Red b g _) k)); eauto with cmodel.
Qed.

(** Parent on the left, node on its right: the loop goes on with [p]. *)
Lemma step_LR k m g p x l r a u c s :
  tin L s0 s (plug k (Node Black (Node Red a p (Node Red l x r)) g u)) →
  rbt Red m (Node Red l x r) → rbt Black m a → rbt c m u → krbt Black (S m) k →
  wp (INSERT_COLOR_step (Some x)) s (step_post (S (S (depth k)))).
Proof.
  intros Ht Hr Ha Hu Hk. unfold INSERT_COLOR_step. inversion Hr; subst.
  destruct u as [|[] ul xu ur]; z_reads Ht; inversion Hu; subst.
  2: { uncle_red (InR Black (Node Red a p (Node Red l x r)) g k) wp_blackred_L k Ht.
       eapply (post_again k (S m)); eauto with cmodel. }
  all: z_do wp_rotate_left (InL Black g _ k) Ht; apply wp_ret.
  all: z_do wp_blackred_L k Ht; z_do wp_rotate_right k Ht; apply wp_ret.
  all: eapply (post_again (InL Black x (Node Red r g _) k)); eauto with cmodel.
Qed.

Lemma step_RR k m g p x l r b u c s :
  tin L s0 s (plug k (Node Black u g (Node Red b p (Node Red l x r)))) →
  rbt Red m (Node Red l x r) → rbt Black m b → rbt c m u → krbt Black (S m) k →
  wp (INSERT_COLOR_step (Some x)) s (step_post (S (S (depth k)))).
Proof.
  intros Ht Hr Hb Hu Hk. unfold INSERT_COLOR_step.
  destruct u as [|[] ul xu ur]; z_reads Ht; inversion Hu; subst.
  2: { uncle_red (InL Black g (Node Red b p (Node Red l x r)) k) wp_blackred_R k Ht.
       eapply (post_again k (S m)); eauto with cmodel. }
  all: z_do wp_blackred_R k Ht; z_do wp_rotate_left k Ht; apply wp_ret.
  all: eapply (post_again (InR Black (Node Red _ g b) p k)); eauto with cmodel.
Qed.

Lemma step_RL k m g p x l r a u c s :
  tin L s0 s (plug k (Node Black u g (Node Red (Node Red l x r) p a))) →
  rbt Red m (Node Red l x r) → rbt Black m a → rbt c m u → krbt Black (S m) k →
  wp (INSERT_COLOR_step (Some x)) s (step_post (S (S (depth k)))).
Proof.
  intros Ht Hr Ha Hu Hk. unfold INSERT_COLOR_step. inversion Hr; subst.
  destruct u as [|[] ul xu ur]; z_reads Ht; inversion Hu; subst.
  2: { uncle_red (InL Black g (Node Red (Node Red l x r) p a) k) wp_blackred_R k Ht.
       eapply (post_again k (S m)); eauto with cmodel. }
  all: z_do wp_rotate_right (InR Black _ g k) Ht; apply wp_ret.
  all: z_do wp_blackred_R k Ht; z_do wp_rotate_left k Ht; apply wp_ret.
  all: eapply (post_again (InR Black (Node Red _ g l) x k)); eauto with cmodel.
Qed.

(** The loop is left at the root and below a black parent. *)
Lemma step_exit k m l x r s :
  tin L s0 s (plug k (Node Red l x r)) → rbt Red m (Node Red l x r) →
  (k = Top ∨ krbt Red m k) →
  wp (INSERT_COLOR_step (Some x)) s (step_post (depth k)).
Proof.
  intros Ht Hr Hk. unfold INSERT_COLOR_step. destruct Hk as [->|Hk].
  - z_reads Ht. by eapply fixed_top.
  - inversion Hk; subst; z_reads Ht; by eapply fixed_black.
Qed.

Lemma insert_color_step n elm s :
  fixing n elm s → wp (INSERT_COLOR_step elm) s (step_post n).
Proof.
  intros (k & m & l & x & r & -> & <- & Ht & Hr & Hk).
  destruct Hk as [|c c' m y sib k Hk Hs|c c' m sib y k Hk Hs
                 |m p sib k Hk Hs|m sib p k Hk Hs].
  - eapply step_exit; [done|done|by left].
  - eapply step_exit; [done..|]. right. eauto with cmodel.
  - eapply step_exit; [done..|]. right. eauto with cmodel.
  - inversion Hk; subst; [by eapply step_LL|by eapply step_RL].
  - inversion Hk; subst; [by eapply step_LR|by eapply step_RR].
Qed.

Lemma wp_INSERT_COLOR fuel n elm s Q :
  fixing n elm s → n < fuel →
  (∀ s' t, tin L s0 s' t → rb_valid t → Q tt s') →
  wp (RB_INSERT_COLOR fuel elm) s Q.
Proof.
  intros Hfix Hfuel HQ. apply wp_bind.
  eapply wp_mono with (P := λ _, fixed).
  { eapply wp_loop; [|done..].
    intros n' l s' Hl. eapply wp_mono; [by apply insert_color_step|].
    intros [e|[]] s'' H; [|done]. destruct H as (n'' & ? & ?). by exists n''. }
  intros [] s1 (t & Ht & Hne & Hval). destruct t as [|c l x r]; [done|].
  change (tin L s0 s1 (plug Top (Node c l x r))) in Ht. z_reads Ht. subst root.
  z_do wp_black Top Ht. eapply HQ; [exact Ht|exact Hval].
Qed.
End insert_color.

Section insert.
Context (cmp : loc → loc → Z) `{!CmpOrder cmp}.

Lemma wp_INSERT_search fuel T s x :
  rep s T → increasing cmp (inorder T) → height T < fuel →
  wp (loop fuel (INSERT_search_step cmp (Some x)) (rootp T, None, 0%Z)) s (λ r s',
    s' = s ∧
    match r with
    | inl p => ∃ y, p = Some y ∧ (cmp x y = 0)%Z ∧ spec_find cmp x (inorder T) = Some y
    | inr (parent, comp) =>
        ∃ k, T = plug k Leaf ∧ parent = kparent k ∧ comp_side k comp ∧
          splits cmp x (before k) (after k)
    end).
Proof.
  intros Hrep Hs Hfuel.
  eapply wp_loop with (I := λ n '(tmp, parent, comp) s',
    ∃ k t, descent cmp T s x k t s' ∧ tmp = rootp t ∧ parent = kparent k ∧
      comp_side k comp ∧ n = height t); [| |exact Hfuel].
  2: { exists Top, T. split_and!; try done. by apply descent_start. }
  clear Hfuel. intros n [[tmp parent] comp] s' (k & t & Hd & -> & -> & Hc & ->).
  unfold INSERT_search_step. destruct t as [|c l y r].
  { simpl. apply wp_ret. destruct Hd as (-> & HT & _ & _ & Hsp). eauto 6. }
  pose proof (descent_entry cmp _ _ _ _ _ _ _ _ _ Hd) as He. destruct s' as [root h].
  simpl negb. cbv iota. apply wp_bind, wp_cmpM.
  destruct (Z.ltb_spec (cmp x y) 0); [|destruct (Z.gtb_spec (cmp x y) 0)].
  - apply wp_bind. eapply wp_RB_LEFT; [done|]. apply wp_ret.
    exists (height l). split; [simpl; lia|].
    exists (InL c y r k), l. split_and!; try done. by apply descent_left.
  - apply wp_bind. eapply wp_RB_RIGHT; [done|]. apply wp_ret.
    exists (height r). split; [simpl; lia|].
    exists (InR c l y k), r. split_and!; try done; [|simpl; lia].
    apply descent_right; [done..|lia].
  - apply wp_ret. pose proof Hd as [-> _]. split; [done|]. exists y.
    assert (cmp x y = 0)%Z as Hxy by lia. split_and!; [done..|].
    destruct (descent_hit cmp _ _ _ _ _ _ _ _ _ Hd Hxy) as (l1 & l2 & -> & Hl1).
    by apply spec_find_hit.
Qed.

(** [RB_INSERT] on a valid tree: it returns the element that compares equal
    and changes nothing, or links the new element in its place, restores the
    colour invariant and returns NULL. *)
Lemma wp_RB_INSERT fuel s l x :
  rb_model cmp s l → x ∉ l → is_Some (rb_heap s !! x) →
  rb_fuel (length l) ≤ fuel →
  wp (RB_INSERT cmp fuel (Some x)) s (λ res s', ∃ l',
    spec_insert cmp x l = (res, l') ∧ rb_model cmp s' l' ∧ frame (x :: l) s s' ∧
    (res ≠ None → s' = s)).
Proof.
  intros (T & Hrep & Hv & <- & Hs) Hx Hsome Hfuel.
  pose proof (rb_valid_height T Hv) as Hh.
  apply wp_bind, wp_gets. rewrite (proj1 Hrep). apply wp_bind.
  eapply wp_mono; [apply (wp_INSERT_search fuel T); [done..|lia]|].
  intros [p|[parent comp]] s' [-> H].
  { destruct H as (y & -> & Hxy & Hf). apply wp_ret.
    exists (inorder T). unfold spec_insert. rewrite Hf. split_and!; [done| |done..].
    by exists T. }
  destruct H as (k & -> & -> & Hc & Hsp). rewrite inorder_plug in *. simpl in *.
  pose proof (depth_le_height k Leaf) as Hd.
  apply rep_plug in Hrep. apply wp_bind.
  eapply wp_attach; [done|done|done|done|]. intros s1 Hz1 Hf1.
  assert (tin (before k ++ x :: after k) s1 s1 (plug k (Node Red Leaf x Leaf))) as Ht1.
  { split; [by apply rep_plug|]. by rewrite inorder_plug. }
  destruct Hv as [n Hv]. apply rbt_unplug in Hv as (c & m & Hm & Hk).
  inversion Hm; subst.
  apply wp_bind. eapply (wp_INSERT_COLOR _ s1 _ (depth k)).
  { exists k, 0, Leaf, x, Leaf. split_and!; try done. eauto with cmodel. }
  { lia. }
  intros s2 T' (Hrep2 & HT' & Hf2) Hv2. apply wp_ret.
  exists (before k ++ x :: after k). split_and!.
  - by apply spec_insert_splits.
  - exists T'. split_and!; try done. by apply increasing_insert.
  - intros y Hy. rewrite Hf2, Hf1; [done|set_solver..].
  - done.
Qed.
End insert.
