(* ===== verification/RBRemove.v ===== *)
(** Removal from the red-black tree: the rebalancing loop of
    [name##_RB_REMOVE_COLOR], unlinking, the replacement of a node with two
    children by its successor, and [name##_RB_REMOVE] itself. *)
From stdpp Require Import sorting.
From S2P Require Import Prelude RBCode RBTree RBSteps RBSpec.

Section remove_color.
Context (L : list loc) (s0 : rb_state).

(** A subtree that lacks one black node in a context that expects [S m]:
    black with [m], or red and worth [S m] once blackened. *)
Definition lacking (m : nat) (t : tree) : Prop :=
  rbt Black m t ∨ (tree_color t = Red ∧ rbt Black (S m) (blacken t)).

Definition black_weight (t : tree) : nat :=
  match tree_color t with Red => 0 | Black => 1 end.

Definition rebalancing (n : nat) (loc : ptr * ptr) (s : rb_state) : Prop :=
  ∃ k m t, loc = (kparent k, rootp t) ∧ n = depth k + black_weight t ∧
    tin L s0 s (plug k t) ∧ lacking m t ∧ krbt Black (S m) k.

(** The loop is left with an element that only needs to be black. *)
Definition rebalanced (elm : ptr) (s : rb_state) : Prop :=
  ∃ k t, elm = rootp t ∧ tin L s0 s (plug k t) ∧ rb_valid (plug k (blacken t)).

Definition rm_post (n : nat) (r : ptr * ptr + ptr) (s : rb_state) : Prop :=
  match r with
  | inl loc => ∃ n', n' < n ∧ rebalancing n' loc s
  | inr elm => rebalanced elm s
  end.

Lemma rm_post_root n t s k :
  tin L s0 s (plug k t) → rb_valid (plug k t) →
  rm_post n (inr (rbh_root s)) s.
Proof.
  intros Ht Hv. exists Top, (plug k t). split; [apply Ht|]. split; [done|].
  simpl. destruct Hv as [m Hm]. destruct Hm; simpl; by eexists; eauto with cmodel.
Qed.

Lemma rm_post_up n m k t s :
  tin L s0 s (plug k t) → lacking m t → krbt Black (S m) k →
  depth k + black_weight t < n → rm_post n (inl (kparent k, rootp t)) s.
Proof. intros. eexists. split; [done|]. by exists k, m, t. Qed.

(** The black nodes a context asks of the subtree of [p], by its colour. *)
Definition level (c : color) (m : nat) : nat :=
  match c with Red => S m | Black => S (S m) end.

Lemma krbt_InL_inv c m p w k :
  krbt Black (S m) (InL c p w k) → ∃ cw, rbt cw (S m) w ∧ krbt c (level c m) k ∧
    (c = Red → cw = Black).
Proof. inversion 1; subst; eexists; split_and!; done. Qed.
Lemma krbt_InR_inv c m p w k :
  krbt Black (S m) (InR c w p k) → ∃ cw, rbt cw (S m) w ∧ krbt c (level c m) k ∧
    (c = Red → cw = Black).
Proof. inversion 1; subst; eexists; split_and!; done. Qed.

Lemma rbt_node c m c1 c2 l x r :
  rbt c1 (S m) l → rbt c2 (S m) r → (c = Red → c1 = Black ∧ c2 = Black) →
  rbt c (level c m) (Node c l x r).
Proof. destruct c; simpl; [|eauto with cmodel]. intros ?? [-> ->]; eauto with cmodel. Qed.

(** ** The sibling [y] is black and on the right *)

Lemma sibling_right_both k m c t p a y b s n :
  tin L s0 s (plug k (Node c t p (Node Black a y b))) →
  tree_color a = Black → tree_color b = Black →
  rbt Black m t → rbt Black m a → rbt Black m b → krbt c (level c m) k →
  depth k + match c with Red => 0 | Black => 1 end < n →
  wp (black_sibling_right (Some p) (Some y)) s (rm_post n).
Proof.
  intros Ht Ha Hb Hm Hra Hrb Hk Hn. unfold black_sibling_right.
  destruct a as [|[] al xa ar], b as [|[] bl xb br]; try done; z_reads Ht.
  all: z_do wp_red (InR c t p k) Ht; z_up Ht; z_reads Ht.
  all: eapply (rm_post_up _ (match c with Red => m | Black => S m end) k _ _ Ht);
    [destruct c; [right|left]; simpl; eauto with cmodel| |done].
  all: destruct c; simpl in *; eauto using krbt_weaken.
Qed.

Lemma sibling_right_far k m c t p a y bl xb br ca s n :
  tin L s0 s (plug k (Node c t p (Node Black a y (Node Red bl xb br)))) →
  rbt Black m t → rbt ca m a → rbt Red m (Node Red bl xb br) →
  krbt c (level c m) k →
  wp (black_sibling_right (Some p) (Some y)) s (rm_post n).
Proof.
  intros Ht Hm Hra Hrb Hk. unfold black_sibling_right. inversion Hrb; subst.
  destruct a as [|[] al xa ar]; z_reads Ht.
  all: z_do wp_color (InR c t p k) Ht; z_up Ht.
  all: z_do wp_black k Ht; z_reads Ht.
  all: z_do wp_black (InR c _ y (InR Black t p k)) Ht; do 2 z_up Ht.
  all: z_do wp_rotate_left k Ht; apply wp_bind, wp_gets, wp_ret.
  all: eapply rm_post_root; [exact Ht|]; eapply rbt_plug; [exact Hk|].
  all: eapply rbt_node; eauto with cmodel.
Qed.

Lemma sibling_right_near k m c t p al xa ar y b s n :
  tin L s0 s (plug k (Node c t p (Node Black (Node Red al xa ar) y b))) →
  tree_color b = Black →
  rbt Black m t → rbt Red m (Node Red al xa ar) → rbt Black m b →
  krbt c (level c m) k →
  wp (black_sibling_right (Some p) (Some y)) s (rm_post n).
Proof.
  intros Ht Hb Hm Hra Hrb Hk. unfold black_sibling_right. inversion Hra; subst.
  destruct b as [|[] bl xb br]; try done; z_reads Ht.
  all: z_do wp_black (InL Black y _ (InR c t p k)) Ht; z_up Ht.
  all: z_do wp_red (InR c t p k) Ht.
  all: z_do wp_rotate_right (InR c t p k) Ht; z_up Ht; z_reads Ht.
  all: z_do wp_color (InR c t p k) Ht; z_up Ht.
  all: z_do wp_black k Ht; z_reads Ht.
  all: z_do wp_black (InR c al xa (InR Black t p k)) Ht; do 2 z_up Ht.
  all: z_do wp_rotate_left k Ht; apply wp_bind, wp_gets, wp_ret.
  all: eapply rm_post_root; [exact Ht|]; eapply rbt_plug; [exact Hk|].
  all: eapply rbt_node; eauto with cmodel.
Qed.

(** ** The sibling [y] is black and on the left *)

Lemma sibling_left_both k m c t p a y b s n :
  tin L s0 s (plug k (Node c (Node Black a y b) p t)) →
  tree_color a = Black → tree_color b = Black →
  rbt Black m t → rbt Black m a → rbt Black m b → krbt c (level c m) k →
  depth k + match c with Red => 0 | Black => 1 end < n →
  wp (black_sibling_left (Some p) (Some y)) s (rm_post n).
Proof.
  intros Ht Ha Hb Hm Hra Hrb Hk Hn. unfold black_sibling_left.
  destruct a as [|[] al xa ar], b as [|[] bl xb br]; try done; z_reads Ht.
  all: z_do wp_red (InL c p t k) Ht; z_up Ht; z_reads Ht.
  all: eapply (rm_post_up _ (match c with Red => m | Black => S m end) k _ _ Ht);
    [destruct c; [right|left]; simpl; eauto with cmodel| |done].
  all: destruct c; simpl in *; eauto using krbt_weaken.
Qed.

Lemma sibling_left_far k m c t p al xa ar y b cb s n :
  tin L s0 s (plug k (Node c (Node Black (Node Red al xa ar) y b) p t)) →
  rbt Black m t → rbt cb m b → rbt Red m (Node Red al xa ar) →
  krbt c (level c m) k →
  wp (black_sibling_left (Some p) (Some y)) s (rm_post n).
Proof.
  intros Ht Hm Hrb Hra Hk. unfold black_sibling_left. inversion Hra; subst.
  destruct b as [|[] bl xb br]; z_reads Ht.
  all: z_do wp_color (InL c p t k) Ht; z_up Ht.
  all: z_do wp_black k Ht; z_reads Ht.
  all: z_do wp_black (InL c y _ (InL Black p t k)) Ht; do 2 z_up Ht.
  all: z_do wp_rotate_right k Ht; apply wp_bind, wp_gets, wp_ret.
  all: eapply rm_post_root; [exact Ht|]; eapply rbt_plug; [exact Hk|].
  all: eapply rbt_node; eauto with cmodel.
Qed.

Lemma sibling_left_near k m c t p a y bl xb br s n :
  tin L s0 s (plug k (Node c (Node Black a y (Node Red bl xb br)) p t)) →
  tree_color a = Black →
  rbt Black m t → rbt Red m (Node Red bl xb br) → rbt Black m a →
  krbt c (level c m) k →
  wp (black_sibling_left (Some p) (Some y)) s (rm_post n).
Proof.
  intros Ht Ha Hm Hrb Hra Hk. unfold black_sibling_left. inversion Hrb; subst.
  destruct a as [|[] al xa ar]; try done; z_reads Ht.
  all: z_do wp_black (InR Black _ y (InL c p t k)) Ht; z_up Ht.
  all: z_do wp_red (InL c p t k) Ht.
  all: z_do wp_rotate_left (InL c p t k) Ht; z_up Ht; z_reads Ht.
  all: z_do wp_color (InL c p t k) Ht; z_up Ht.
  all: z_do wp_black k Ht; z_reads Ht.
  all: z_do wp_black (InL c xb br (InL Black p t k)) Ht; do 2 z_up Ht.
  all: z_do wp_rotate_right k Ht; apply wp_bind, wp_gets, wp_ret.
  all: eapply rm_post_root; [exact Ht|]; eapply rbt_plug; [exact Hk|].
  all: eapply rbt_node; eauto with cmodel.
Qed.

Lemma color_of c m t : rbt c m t → tree_color t = Black → rbt Black m t.
Proof. intros H Hc. by rewrite (rbt_color _ _ _ H) in Hc; subst. Qed.
Lemma red_node c m t : rbt c m t → tree_color t ≠ Black →
  ∃ l x r, t = Node Red l x r ∧ rbt Red m t.
Proof. intros H Hc. destruct H; simpl in Hc; try done. eauto 6 with cmodel. Qed.

Lemma sibling_right k m c t p a y b s n :
  tin L s0 s (plug k (Node c t p (Node Black a y b))) →
  rbt Black m t → rbt Black (S m) (Node Black a y b) → krbt c (level c m) k →
  depth k + match c with Red => 0 | Black => 1 end < n →
  wp (black_sibling_right (Some p) (Some y)) s (rm_post n).
Proof.
  intros Ht Hm Hy Hk Hn. inversion Hy as [| |? ca cb ??? Ha Hb]; subst.
  destruct (decide (tree_color b = Black)) as [Hcb|Hcb].
  - pose proof (color_of _ _ _ Hb Hcb).
    destruct (decide (tree_color a = Black)) as [Hca|Hca].
    + eapply sibling_right_both; eauto using color_of.
    + destruct (red_node _ _ _ Ha Hca) as (?&?&?&->&?). by eapply sibling_right_near.
  - destruct (red_node _ _ _ Hb Hcb) as (?&?&?&->&?). by eapply sibling_right_far.
Qed.

Lemma sibling_left k m c t p a y b s n :
  tin L s0 s (plug k (Node c (Node Black a y b) p t)) →
  rbt Black m t → rbt Black (S m) (Node Black a y b) → krbt c (level c m) k →
  depth k + match c with Red => 0 | Black => 1 end < n →
  wp (black_sibling_left (Some p) (Some y)) s (rm_post n).
Proof.
  intros Ht Hm Hy Hk Hn. inversion Hy as [| |? ca cb ??? Ha Hb]; subst.
  destruct (decide (tree_color a = Black)) as [Hca|Hca].
  - pose proof (color_of _ _ _ Ha Hca).
    destruct (decide (tree_color b = Black)) as [Hcb|Hcb].
    + eapply sibling_left_both; eauto using color_of.
    + destruct (red_node _ _ _ Hb Hcb) as (?&?&?&->&?). by eapply sibling_left_near.
  - destruct (red_node _ _ _ Ha Hca) as (?&?&?&->&?). by eapply sibling_left_far.
Qed.

(** ** The loop *)

Lemma root_of_ctx k c l x r :
  ∃ y, rootp (plug k (Node c l x r)) = Some y ∧ (y = x ∨ y ∈ before k ++ after k).
Proof.
  revert c l x r. induction k as [|c x r k IH|c l x k IH]; intros c' l' x' r'; simpl.
  - eauto.
  - destruct (IH c (Node c' l' x' r') x r) as (y & -> & Hy). exists y. set_solver.
  - destruct (IH c l x (Node c' l' x' r')) as (y & -> & Hy). exists y. set_solver.
Qed.

(** Below the top of the tree, the focus is not at the root. *)
Lemma not_root s k c p (onleft : bool) t w :
  tin L s0 s (plug k (if onleft then Node c t p w else Node c w p t)) →
  ptr_eqb (rootp t) (rbh_root s) = false.
Proof.
  intros Ht. pose proof (tin_zrep _ _ _ _ _ Ht) as (_ & _ & Hnd).
  destruct Ht as ((-> & _) & _).
  assert (∃ y, rootp (plug k (if onleft then Node c t p w else Node c w p t)) = Some y
    ∧ (y = p ∨ y ∈ before k ++ after k)) as (y & -> & Hy)
    by (destruct onleft; apply root_of_ctx).
  apply ptr_eqb_root_l. intros Hin. destruct Hy as [->|Hy].
  - revert Hin. change (p ∉ inorder t). destruct onleft; simpl in Hnd; rb_fresh.
  - assert (NoDup (inorder t ++ before k ++ after k)) as Hnd'.
    { eapply nodup_sub; [exact Hnd|]. destruct onleft; simpl; solve_submseteq. }
    apply NoDup_app in Hnd' as (_ & Hdis & _). by apply (Hdis y).
Qed.

Lemma step_red k m t n s :
  tin L s0 s (plug k t) → tree_color t = Red → lacking m t → krbt Black (S m) k →
  wp (REMOVE_COLOR_step (kparent k, rootp t)) s (rm_post n).
Proof.
  intros Ht Hc Hl Hk. unfold REMOVE_COLOR_step. apply wp_bind.
  eapply wp_null_or_black; [by eapply tin_zrep|]. rewrite Hc.
  apply wp_bind, wp_gets, wp_ret. exists k, t. split_and!; [done..|].
  destruct Hl as [Hl|[_ Hl]]; [by rewrite (rbt_color _ _ _ Hl) in Hc|].
  by eapply rbt_plug.
Qed.

Lemma step_top m t n s :
  tin L s0 s (plug Top t) → rbt Black m t →
  wp (REMOVE_COLOR_step (None, rootp t)) s (rm_post n).
Proof.
  intros Ht Hm. unfold REMOVE_COLOR_step. apply wp_bind.
  eapply wp_null_or_black; [by eapply (tin_zrep _ _ _ Top)|].
  rewrite (rbt_color _ _ _ Hm). apply wp_bind, wp_gets.
  rewrite (proj1 (proj1 Ht)). simpl. rewrite ptr_eqb_refl. apply wp_ret.
  exists Top, t. split; [done|]. split; [exact Ht|].
  simpl. rewrite rb_valid_blacken; by exists m.
Qed.

Lemma step_right k m c p t w s :
  tin L s0 s (plug k (Node c t p w)) → rbt Black m t →
  krbt Black (S m) (InL c p w k) →
  wp (REMOVE_COLOR_step (Some p, rootp t)) s (rm_post (S (depth k) + 1)).
Proof.
  intros Ht Hm Hk. unfold REMOVE_COLOR_step. apply wp_bind.
  eapply wp_null_or_black; [by eapply (tin_zrep _ _ _ (InL c p w k))|].
  rewrite (rbt_color _ _ _ Hm). apply wp_bind, wp_gets.
  rewrite (not_root s k c p true t w Ht), bool_decide_true by done.
  cbn [negb andb].
  apply krbt_InL_inv in Hk as (cw & Hw & Hk & Hcw).
  destruct w as [|cw' a y b]; [by inversion Hw|].
  destruct cw'; z_reads Ht.
  - destruct c; [by inversion Hw; subst; specialize (Hcw eq_refl)|].
    inversion Hw as [|???? Ha Hb|]; subst.
    z_do wp_blackred_R k Ht. z_do wp_rotate_left k Ht.
    z_at Ht (InL Black y b k) (Node Red t p a).
    inversion Ha; subst. z_reads Ht.
    eapply sibling_right; [exact Ht|done..| |].
    + simpl. eauto with cmodel.
    + simpl. lia.
  - inversion Hw; subst. eapply sibling_right; [exact Ht|done..|].
    destruct c; lia.
Qed.

Lemma step_left k m c p t w s :
  tin L s0 s (plug k (Node c w p t)) → rbt Black m t →
  krbt Black (S m) (InR c w p k) →
  wp (REMOVE_COLOR_step (Some p, rootp t)) s (rm_post (S (depth k) + 1)).
Proof.
  intros Ht Hm Hk. unfold REMOVE_COLOR_step. apply wp_bind.
  eapply wp_null_or_black; [by eapply (tin_zrep _ _ _ (InR c w p k))|].
  rewrite (rbt_color _ _ _ Hm). apply wp_bind, wp_gets.
  rewrite (not_root s k c p false t w Ht), bool_decide_true by done.
  cbn [negb andb].
  apply krbt_InR_inv in Hk as (cw & Hw & Hk & Hcw).
  destruct w as [|cw' a y b]; [by inversion Hw|].
  destruct cw'; z_reads Ht.
  - destruct c; [by inversion Hw; subst; specialize (Hcw eq_refl)|].
    inversion Hw as [|???? Ha Hb|]; subst.
    z_do wp_blackred_L k Ht. z_do wp_rotate_right k Ht.
    z_at Ht (InR Black a y k) (Node Red b p t).
    inversion Hb; subst. z_reads Ht.
    eapply sibling_left; [exact Ht|done..| |].
    + simpl. eauto with cmodel.
    + simpl. lia.
  - inversion Hw; subst. eapply sibling_left; [exact Ht|done..|].
    destruct c; lia.
Qed.

Lemma remove_color_step n loc s :
  rebalancing n loc s → wp (REMOVE_COLOR_step loc) s (rm_post n).
Proof.
  intros (k & m & t & -> & -> & Ht & Hl & Hk).
  destruct (decide (tree_color t = Red)) as [Hc|Hc]; [by eapply step_red|].
  destruct Hl as [Hm|[? _]]; [|done]. unfold black_weight.
  rewrite (rbt_color _ _ _ Hm).
  destruct k as [|c p w k|c w p k]; [by eapply step_top|..].
  - by eapply step_right.
  - by eapply step_left.
Qed.

Lemma wp_REMOVE_COLOR fuel k m t s Q :
  tin L s0 s (plug k t) → lacking m t → krbt Black (S m) k →
  S (depth k) < fuel →
  (∀ s' t', tin L s0 s' t' → rb_valid t' → Q tt s') →
  wp (RB_REMOVE_COLOR fuel (kparent k) (rootp t)) s Q.
Proof.
  intros Ht Hl Hk Hfuel HQ. apply wp_bind.
  eapply wp_mono with (P := rebalanced).
  { eapply wp_loop with (n := depth k + black_weight t).
    - intros n loc s' H. eapply wp_mono; [by apply remove_color_step|].
      intros [loc'|e] s'' H'; [|done]. exact H'.
    - by exists k, m, t.
    - unfold black_weight. destruct (tree_color t); lia. }
  clear Ht Hl Hk. intros elm s1 (k1 & t1 & -> & Ht & Hv).
  destruct t1 as [|c l x r]; [by apply wp_ret; eapply HQ|]. simpl.
  z_do wp_black k1 Ht. by eapply HQ.
Qed.
End remove_color.

Section remove.
Context (cmp : loc → loc → Z) `{!CmpOrder cmp}.

Lemma lacking_child c m t : rbt c m t → lacking m t.
Proof.
  destruct 1; [by left; constructor| |by left; econstructor; eauto].
  right. simpl. eauto with cmodel.
Qed.

(** The end of both branches of [RB_REMOVE]: the subtree [t] has taken the
    place of a node of colour [c]. *)
Lemma wp_recolour fuel s k c n c' t Q :
  zrep s k t → krbt c (match c with Red => n | Black => S n end) k →
  rbt c' n t → (c = Red → c' = Black) → S (depth k) < fuel →
  (∀ s' t', rep s' t' → rb_valid t' → inorder t' = inorder (plug k t) →
     frame (inorder (plug k t)) s s' → Q tt s') →
  wp (whenM (Z.eqb (cz c) RB_BLACK) (RB_REMOVE_COLOR fuel (kparent k) (rootp t)))
    s Q.
Proof.
  intros Hz Hk Ht Hc Hfuel HQ. apply rep_plug in Hz. destruct c; simpl.
  - apply wp_ret. rewrite (Hc eq_refl) in Ht. eapply HQ; [done| |done..].
    eapply rbt_plug; [by apply krbt_weaken|done].
  - eapply (wp_REMOVE_COLOR (inorder (plug k t)) s _ k n t).
    + split; [done|]. by split.
    + by eapply lacking_child.
    + exact Hk.
    + exact Hfuel.
    + intros s' t' (Hr & HL & Hf) Hv. by eapply HQ.
Qed.

(** Colours around a node [x] that is about to be unlinked. *)
Lemma unlink_colors k c l x r t :
  rb_valid (plug k (Node c l x r)) → (l = Leaf ∧ t = r) ∨ (r = Leaf ∧ t = l) →
  ∃ n c', krbt c (match c with Red => n | Black => S n end) k ∧ rbt c' n t ∧
    (c = Red → c' = Black).
Proof.
  intros [m Hm] Ht. apply rbt_unplug in Hm as (c0 & n & Hn & Hk).
  inversion Hn; subst; destruct Ht as [[-> ->]|[-> ->]];
    eexists _, _; split_and!; done.
Qed.

(** What [RB_REMOVE] leaves. *)
Definition removed (x : loc) (l1 l2 : list loc) (s : rb_state)
    (res : ptr) (s' : rb_state) : Prop :=
  res = Some x ∧ (∃ T, rep s' T ∧ rb_valid T ∧ inorder T = l1 ++ l2) ∧
  is_Some (rb_heap s' !! x) ∧ frame (l1 ++ x :: l2) s s'.

(** At most one child. *)
Lemma remove_one fuel s k c l x r t :
  zrep s k (Node c l x r) → rb_valid (plug k (Node c l x r)) →
  (l = Leaf ∧ t = r) ∨ (r = Leaf ∧ t = l) → S (depth k) < fuel →
  wp (RB_REMOVE fuel (Some x)) s
    (removed x (before k ++ inorder l) (inorder r ++ after k) s).
Proof.
  intros Hz Hv Hcase Hfuel. unfold RB_REMOVE.
  apply wp_bind. eapply wp_LEFT_z; [exact Hz|].
  apply wp_bind. eapply wp_RIGHT_z; [exact Hz|].
  assert (non_null (rootp l) && non_null (rootp r) = false ∧
    (if non_null (rootp l) then rootp l else rootp r) = rootp t) as [-> ->].
  { destruct Hcase as [[-> ->]|[-> ->]]; [done|]. by destruct l. }
  do 2 apply wp_bind. eapply wp_PARENT_z; [exact Hz|].
  apply wp_bind. eapply wp_COLOR_z; [exact Hz|].
  apply wp_bind. eapply wp_splice; [exact Hz|exact Hcase|].
  intros s1 Hz1 Hx Hf1. apply wp_ret.
  destruct (unlink_colors _ _ _ _ _ _ Hv Hcase) as (n & c' & Hk & Hn & Hc).
  apply wp_bind. eapply wp_recolour; [exact Hz1|exact Hk|exact Hn|done|done|].
  intros s2 T HT HvT HiT Hf2. apply wp_ret.
  rewrite inorder_plug in HiT, Hf2.
  assert ((before k ++ inorder l) ++ inorder r ++ after k =
    before k ++ inorder t ++ after k) as Hlist.
  { rewrite <-(assoc_L (++)).
    destruct Hcase as [[-> ->]|[-> ->]]; simpl; done. }
  destruct Hz as (_ & (Hxe & _) & Hnd).
  assert (x ∉ before k ++ inorder t ++ after k) as Hxn.
  { rewrite <-Hlist. simpl in Hnd.
    eapply nodup_notin; [exact Hnd|]. solve_submseteq. }
  split_and!; [done| | |].
  - exists T. by rewrite Hlist.
  - rewrite Hf2 by done. rewrite Hx, Hxe. eauto.
  - intros y Hy. assert (y ∉ before k ++ inorder t ++ after k) as Hy'.
    { rewrite <-Hlist. set_solver. }
    by rewrite Hf2, Hf1.
Qed.

(** ** Two children *)

(** The context of the successor [m], at the end of a spine of left children
    [kl] below the node [x], before and after [m] takes the place of [x]. *)
Lemma successor_parent s kl c l x m k cm r2 :
  zrep s (kapp kl (InR c l x k)) (Node cm Leaf m r2) → before kl = [] →
  (if ptr_eqb (kparent (kapp kl (InR c l x k))) (Some x) then Some m
   else kparent (kapp kl (InR c l x k))) = kparent (kapp kl (InR c l m k)).
Proof.
  intros (_ & _ & Hnd) Hb. destruct kl as [|c' z rz kl|c' lz z kl]; simpl in *.
  - by rewrite ptr_eqb_refl.
  - rewrite ptr_eqb_some_ne; [done|].
    rewrite before_kapp, after_kapp in Hnd. simpl in Hnd. rb_fresh.
  - destruct (before kl), (inorder lz); done.
Qed.

Lemma inorder_successor kl c l x k t :
  before kl = [] →
  inorder (plug (kapp kl (InR c l x k)) t) =
    (before k ++ inorder l) ++ x :: (inorder t ++ after kl) ++ after k.
Proof.
  intros Hb. rewrite inorder_plug, before_kapp, after_kapp, Hb. simpl.
  by rewrite app_nil_r, <-!(assoc_L (++)).
Qed.

(** The pointer surgery of the two-children branch: the successor is spliced
    out and takes the place of [x]. *)
Lemma wp_surgery s kl c l x m k cm r2 Q :
  let ks := kapp kl (InR c l x k) in
  zrep s ks (Node cm Leaf m r2) → before kl = [] → l ≠ Leaf →
  (∀ s', zrep s' (kapp kl (InR c l m k)) r2 → is_Some (rb_heap s' !! x) →
     frame (inorder (plug ks (Node cm Leaf m r2))) s s' →
     Q (kparent (kapp kl (InR c l m k))) s') →
  wp (take_place (Some x) (Some m) (rootp r2) (kparent ks)) s Q.
Proof.
  intros ks Hzm Hb Hl HQ. pose proof (successor_parent _ _ _ _ _ _ _ _ _ Hzm Hb) as Hpar.
  pose proof (inorder_successor kl c l x k (Node cm Leaf m r2) Hb) as Hin.
  assert (NoDup (inorder (plug ks (Node cm Leaf m r2)))) as Hnd.
  { rewrite inorder_plug. apply Hzm. }
  unfold ks in *. rewrite Hin in *.
  pose proof (zrep_entry _ _ _ _ _ _ Hzm) as Hm.
  apply wp_bind. eapply wp_splice; [exact Hzm|by left|]. intros s1 Hz1 Hm1 Hf1.
  rewrite Hm in Hm1. simpl in Hm1.
  apply wp_bind. destruct s1 as [root1 h1]. eapply wp_RB_PARENT; [exact Hm1|].
  simpl rbe_parent. rewrite Hpar.
  assert (zrep (RBS root1 h1) k (Node c l x (plug kl r2))) as Hz1'.
  { apply rep_plug. apply rep_plug in Hz1. by rewrite plug_kapp in Hz1. }
  apply wp_bind. eapply wp_transplant; [exact Hz1'|done| |by eauto|].
  { simpl. rewrite inorder_plug, Hb. simpl in Hnd. simpl.
    eapply nodup_notin; [exact Hnd|]. simpl. solve_submseteq. }
  intros s2 Hz2 Hx2 Hf2. apply wp_ret, HQ.
  - apply rep_plug. rewrite plug_kapp. by apply rep_plug in Hz2.
  - rewrite Hx2. rewrite (zrep_entry _ _ _ _ _ _ Hz1'). eauto.
  - intros y Hy. rewrite Hf2, Hf1; [done|..].
    + rewrite before_kapp, after_kapp, Hb. simpl. set_solver.
    + simpl. rewrite inorder_plug, Hb. set_solver.
Qed.

Lemma remove_two fuel s k c l x r :
  zrep s k (Node c l x r) → rb_valid (plug k (Node c l x r)) →
  l ≠ Leaf → r ≠ Leaf → S (height (plug k (Node c l x r))) < fuel →
  wp (RB_REMOVE fuel (Some x)) s
    (removed x (before k ++ inorder l) (inorder r ++ after k) s).
Proof.
  intros Hz Hv Hl Hr Hfuel. unfold RB_REMOVE.
  pose proof (depth_le_height k (Node c l x r)) as Hdep. simpl in Hdep.
  apply wp_bind. eapply wp_LEFT_z; [exact Hz|].
  apply wp_bind. eapply wp_RIGHT_z; [exact Hz|].
  assert (non_null (rootp l) = true) as -> by by destruct l.
  destruct r as [|cr rl y rr]; [done|]. cbn [rootp non_null andb].
  do 2 apply wp_bind. eapply wp_mono.
  { eapply (wp_descend_left fuel s (InR c l x k));
      [apply rep_plug; apply rep_plug in Hz; exact Hz|simpl in *; lia]. }
  intros p s' (-> & kl & cm & m & r2 & -> & Hr2 & Hkl). rewrite Hr2 in *.
  change (plug k (Node c l x (plug kl (Node cm Leaf m r2))))
    with (plug (InR c l x k) (plug kl (Node cm Leaf m r2))) in *.
  rewrite <-plug_kapp in *.
  assert (zrep s (kapp kl (InR c l x k)) (Node cm Leaf m r2)) as Hzm.
  { apply rep_plug. rewrite plug_kapp. by apply rep_plug in Hz. }
  apply wp_bind. eapply wp_RIGHT_z; [exact Hzm|].
  apply wp_bind. eapply wp_PARENT_z; [exact Hzm|].
  apply wp_bind. eapply wp_COLOR_z; [exact Hzm|].
  apply wp_bind. eapply wp_surgery; [exact Hzm|exact Hkl|exact Hl|].
  intros s2 Hz2 Hx2 Hf2.
  pose proof (depth_le_height (kapp kl (InR c l x k)) (Node cm Leaf m r2)) as Hd.
  rewrite depth_kapp in Hd. simpl in Hd.
  apply wp_bind. eapply wp_augment_from; [exact Hz2|rewrite depth_kapp; simpl; lia|].
  apply wp_ret.
  destruct (unlink_colors _ _ _ _ _ r2 Hv (or_introl (conj eq_refl eq_refl)))
    as (n & c' & Hk & Hn & Hc).
  apply wp_bind. eapply wp_recolour; [exact Hz2| |exact Hn|exact Hc| |].
  { by eapply krbt_relabel. }
  { rewrite depth_kapp. simpl. lia. }
  intros s3 T HT HvT HiT Hf3. apply wp_ret.
  rewrite inorder_successor in Hf2, HiT, Hf3 by done. simpl in Hf2.
  rewrite inorder_plug, Hkl. simpl.
  assert (NoDup (before k ++ inorder l ++ x :: m :: (inorder r2 ++ after kl) ++ after k))
    as Hnd.
  { destruct Hzm as (_ & _ & Hnd). rewrite before_kapp, after_kapp, Hkl in Hnd.
    simpl in Hnd. revert Hnd. apply NoDup_Permutation_proper. solve_Permutation. }
  assert (x ∉ (before k ++ inorder l) ++ m :: (inorder r2 ++ after kl) ++ after k) as Hxn.
  { eapply nodup_notin; [exact Hnd|]. solve_submseteq. }
  split_and!; [done| | |].
  - by exists T.
  - by rewrite Hf3.
  - intros y' Hy'. rewrite Hf3, Hf2; [done|..]; set_solver.
Qed.

(** [RB_REMOVE] of an element of a valid tree: it returns the element, the
    tree holds the others, stays valid, and the entries outside of it are
    untouched. *)
Lemma wp_RB_REMOVE fuel s l x :
  rb_model cmp s l → x ∈ l → S (rb_fuel (length l)) ≤ fuel →
  wp (RB_REMOVE fuel (Some x)) s (λ res s', res = Some x ∧
    rb_model cmp s' (spec_remove x l) ∧ is_Some (rb_heap s' !! x) ∧ frame l s s').
Proof.
  intros (T & Hrep & Hv & HT & Hs) Hx Hfuel.
  pose proof (rb_valid_height T Hv) as Hh. rewrite HT in Hh.
  apply list_elem_of_split in Hx as (l1 & l2 & ->).
  pose proof (proj2 (proj2 Hrep)) as Hnd.
  destruct (inorder_focus T l1 x l2) as (k & c & tl & tr & -> & -> & ->); [done..|].
  rewrite spec_remove_split by by rewrite <-HT.
  pose proof (depth_le_height k (Node c tl x tr)) as Hd. simpl in Hd.
  assert (zrep s k (Node c tl x tr)) as Hz by by apply rep_plug.
  eapply wp_mono with (P := removed x (before k ++ inorder tl) (inorder tr ++ after k) s).
  - destruct tl as [|cl ll y lr] eqn:Etl; [|destruct tr as [|cr rl z rr] eqn:Etr].
    + eapply remove_one; [done..|by left|lia].
    + eapply remove_one; [done..|by right|lia].
    + eapply remove_two; [done..|lia].
  - intros res s' (-> & (T' & ? & ? & ?) & ? & ?). split_and!; try done.
    exists T'. split_and!; try done. by eapply increasing_remove.
Qed.
End remove.
