(* ===== verification/RBWalk.v ===== *)
(** Walking the red-black tree: [name##_RB_NEXT], [name##_RB_PREV] and the
    [RB_FOREACH] loops. *)
From stdpp Require Import sorting.
From S2P Require Import Prelude RBCode RBTree RBSteps RBSpec RBSearch RBRemove.

(** The rightmost node below the focus. *)
Lemma wp_descend_right fuel s k c l x r :
  zrep s k (Node c l x r) → height r < fuel →
  wp (descend_right fuel (Some x)) s (λ p s', s' = s ∧ ∃ kr c' l' m,
    p = Some m ∧ Node c l x r = plug kr (Node c' l' m Leaf) ∧ after kr = []).
Proof.
  intros Hz Hfuel.
  eapply wp_loop with (n := height r) (I := λ n p s', s' = s ∧ ∃ kr c' l' m r',
    p = Some m ∧ Node c l x r = plug kr (Node c' l' m r') ∧ after kr = [] ∧
    n = height r'); [| |done].
  2: { split; [done|]. by exists Top, c, l, x, r. }
  clear Hfuel. intros n p s' (-> & kr & c' & l' & m & r' & -> & Heq & Hb & ->).
  assert (zrep s (kapp kr k) (Node c' l' m r')) as Hz'.
  { apply rep_plug. rewrite plug_kapp, <-Heq. by apply rep_plug. }
  apply wp_bind. eapply wp_RIGHT_z; [exact Hz'|].
  destruct r' as [|c2 l2 y r2]; simpl; apply wp_ret.
  - split; [done|]. by exists kr, c', l', m.
  - exists (height r2). split; [lia|]. split; [done|].
    by exists (InR c' l' m kr), c2, l2, y, r2.
Qed.

Definition left_turn (k : ctx) : bool :=
  match k with InR _ _ _ _ => false | _ => true end.
Definition right_turn (k : ctx) : bool :=
  match k with InL _ _ _ _ => false | _ => true end.

Lemma zrep_up_L s k c y sib t : zrep s (InL c y sib k) t → zrep s k (Node c t y sib).
Proof. by rewrite <-!rep_plug. Qed.
Lemma zrep_up_R s k c y sib t : zrep s (InR c sib y k) t → zrep s k (Node c sib y t).
Proof. by rewrite <-!rep_plug. Qed.
Lemma zrep_down_L s k c y sib t : zrep s k (Node c t y sib) → zrep s (InL c y sib k) t.
Proof. by rewrite <-!rep_plug. Qed.
Lemma zrep_down_R s k c y sib t : zrep s k (Node c sib y t) → zrep s (InR c sib y k) t.
Proof. by rewrite <-!rep_plug. Qed.

(** The node and the root of its sibling subtree differ. *)
Lemma sibling_ne_L s k c y sib cx l x r :
  zrep s (InL c y sib k) (Node cx l x r) → ptr_eqb (Some x) (rootp sib) = false.
Proof. intros (_ & _ & Hnd). simpl in Hnd. apply ptr_eqb_root_r. rb_fresh. Qed.
Lemma sibling_ne_R s k c y sib cx l x r :
  zrep s (InR c sib y k) (Node cx l x r) → ptr_eqb (Some x) (rootp sib) = false.
Proof. intros (_ & _ & Hnd). simpl in Hnd. apply ptr_eqb_root_r. rb_fresh. Qed.

Lemma wp_climb_right fuel s k c l x r :
  zrep s k (Node c l x r) → depth k < fuel →
  wp (climb_right fuel (Some x)) s (λ p s', s' = s ∧ ∃ k' c' l' y r',
    p = Some y ∧ zrep s k' (Node c' l' y r') ∧ after k' = after k ∧
    left_turn k' = true).
Proof.
  intros Hz Hfuel.
  eapply wp_loop with (n := depth k) (I := λ n p s', s' = s ∧ ∃ k' c' l' y r',
    p = Some y ∧ zrep s k' (Node c' l' y r') ∧ after k' = after k ∧ n = depth k');
    [| |done].
  2: { split; [done|]. by exists k, c, l, x, r. }
  clear Hz Hfuel c l x r. intros n p s' (-> & k' & c & l & x & r & -> & Hz & Ha & ->).
  apply wp_bind. eapply wp_PARENT_z; [exact Hz|].
  destruct k' as [|c' y sib k'|c' sib y k']; cbn [kparent non_null].
  - apply wp_ret. split; [done|]. by exists Top, c, l, x, r.
  - apply wp_bind. eapply wp_RIGHT_z; [exact (zrep_up_L _ _ _ _ _ _ Hz)|].
    rewrite (sibling_ne_L _ _ _ _ _ _ _ _ _ Hz). apply wp_ret.
    split; [done|]. by exists (InL c' y sib k'), c, l, x, r.
  - apply wp_bind. eapply wp_RIGHT_z; [exact (zrep_up_R _ _ _ _ _ _ Hz)|].
    cbn [rootp]. rewrite ptr_eqb_refl. apply wp_ret.
    exists (depth k'). split; [simpl; lia|]. split; [done|].
    exists k', c', sib, y, (Node c l x r). split_and!; try done. by apply zrep_up_R.
Qed.

Lemma wp_climb_left fuel s k c l x r :
  zrep s k (Node c l x r) → depth k < fuel →
  wp (climb_left fuel (Some x)) s (λ p s', s' = s ∧ ∃ k' c' l' y r',
    p = Some y ∧ zrep s k' (Node c' l' y r') ∧ before k' = before k ∧
    right_turn k' = true).
Proof.
  intros Hz Hfuel.
  eapply wp_loop with (n := depth k) (I := λ n p s', s' = s ∧ ∃ k' c' l' y r',
    p = Some y ∧ zrep s k' (Node c' l' y r') ∧ before k' = before k ∧ n = depth k');
    [| |done].
  2: { split; [done|]. by exists k, c, l, x, r. }
  clear Hz Hfuel c l x r. intros n p s' (-> & k' & c & l & x & r & -> & Hz & Ha & ->).
  apply wp_bind. eapply wp_PARENT_z; [exact Hz|].
  destruct k' as [|c' y sib k'|c' sib y k']; cbn [kparent non_null].
  - apply wp_ret. split; [done|]. by exists Top, c, l, x, r.
  - apply wp_bind. eapply wp_LEFT_z; [exact (zrep_up_L _ _ _ _ _ _ Hz)|].
    cbn [rootp]. rewrite ptr_eqb_refl. apply wp_ret.
    exists (depth k'). split; [simpl; lia|]. split; [done|].
    exists k', c', (Node c l x r), y, sib. split_and!; try done. by apply zrep_up_L.
  - apply wp_bind. eapply wp_LEFT_z; [exact (zrep_up_R _ _ _ _ _ _ Hz)|].
    rewrite (sibling_ne_R _ _ _ _ _ _ _ _ _ Hz). apply wp_ret.
    split; [done|]. by exists (InR c' sib y k'), c, l, x, r.
Qed.

Lemma wp_NEXT_z fuel s k c l x r :
  zrep s k (Node c l x r) → height (plug k (Node c l x r)) < fuel →
  wp (RB_NEXT fuel (Some x)) s (λ res s', res = head (inorder r ++ after k) ∧ s' = s).
Proof.
  intros Hz Hfuel. pose proof (depth_le_height k (Node c l x r)) as Hd. simpl in Hd.
  apply wp_bind. eapply wp_RIGHT_z; [exact Hz|].
  destruct r as [|cr rl y rr]; cbn [rootp non_null].
  - apply wp_bind. eapply wp_PARENT_z; [exact Hz|].
    apply wp_bind. eapply wp_mono with
      (P := λ b s', s' = s ∧ b = match k with InL _ _ _ _ => true | _ => false end).
    { destruct k as [|c' y sib k|c' sib y k]; cbn [kparent non_null]; [by apply wp_ret|..];
        apply wp_bind.
      - eapply wp_LEFT_z; [exact (zrep_up_L _ _ _ _ _ _ Hz)|]. apply wp_ret. cbn [rootp].
        by rewrite ptr_eqb_refl.
      - eapply wp_LEFT_z; [exact (zrep_up_R _ _ _ _ _ _ Hz)|]. apply wp_ret.
        by rewrite (sibling_ne_R _ _ _ _ _ _ _ _ _ Hz). }
    intros b s' [-> ->]. destruct k as [|c' y sib k|c' sib y k];
      [|by eapply wp_PARENT_z; [exact Hz|]|].
    all: apply wp_bind; eapply wp_mono; [by apply (wp_climb_right _ _ _ _ _ _ _ Hz); lia|].
    all: intros p s' (-> & k' & c2 & l2 & z & r2 & -> & Hz' & Ha & Ht).
    all: eapply wp_PARENT_z; [exact Hz'|]; split; [|done].
    all: cbn [inorder app after] in Ha |- *; rewrite <-Ha; by destruct k'.
  - eapply wp_mono; [apply (wp_descend_left fuel s (InR c l x k));
      [by apply zrep_down_R|simpl in *; lia]|].
    intros p s' (-> & kl & c' & m & r' & -> & -> & Hb). split; [|done].
    rewrite inorder_plug, Hb. done.
Qed.

Lemma wp_PREV_z fuel s k c l x r :
  zrep s k (Node c l x r) → height (plug k (Node c l x r)) < fuel →
  wp (RB_PREV fuel (Some x)) s (λ res s', res = last (before k ++ inorder l) ∧ s' = s).
Proof.
  intros Hz Hfuel. pose proof (depth_le_height k (Node c l x r)) as Hd. simpl in Hd.
  apply wp_bind. eapply wp_LEFT_z; [exact Hz|].
  destruct l as [|cl ll y lr]; cbn [rootp non_null].
  - apply wp_bind. eapply wp_PARENT_z; [exact Hz|].
    apply wp_bind. eapply wp_mono with
      (P := λ b s', s' = s ∧ b = match k with InR _ _ _ _ => true | _ => false end).
    { destruct k as [|c' y sib k|c' sib y k]; cbn [kparent non_null]; [by apply wp_ret|..];
        apply wp_bind.
      - eapply wp_RIGHT_z; [exact (zrep_up_L _ _ _ _ _ _ Hz)|]. apply wp_ret.
        by rewrite (sibling_ne_L _ _ _ _ _ _ _ _ _ Hz).
      - eapply wp_RIGHT_z; [exact (zrep_up_R _ _ _ _ _ _ Hz)|]. apply wp_ret. cbn [rootp].
        by rewrite ptr_eqb_refl. }
    intros b s' [-> ->]. cbn [inorder]. rewrite app_nil_r.
    destruct k as [|c' y sib k|c' sib y k].
    3: { eapply wp_PARENT_z; [exact Hz|]. simpl. by rewrite (assoc_L (++)), last_snoc. }
    all: apply wp_bind; eapply wp_mono; [by apply (wp_climb_left _ _ _ _ _ _ _ Hz); lia|].
    all: intros p s' (-> & k' & c2 & l2 & z & r2 & -> & Hz' & Ha & Ht).
    all: eapply wp_PARENT_z; [exact Hz'|]; split; [|done].
    all: cbn [inorder app before] in Ha |- *; rewrite <-Ha.
    all: destruct k' as [|? ? ? k'|? ? ? k']; simpl in *; try done.
    all: by rewrite (assoc_L (++)), last_snoc.
  - eapply wp_mono; [apply (wp_descend_right fuel s (InL c x r k));
      [by apply zrep_down_L|simpl in *; lia]|].
    intros p s' (-> & kr & c' & l' & m & -> & -> & Ha). split; [|done].
    rewrite inorder_plug, Ha. simpl. by rewrite app_nil_r, !(assoc_L (++)), last_snoc.
Qed.

Section walk.
Context (cmp : loc → loc → Z) `{!CmpOrder cmp}.

Lemma rb_model_focus s l1 x l2 :
  rb_model cmp s (l1 ++ x :: l2) → ∃ k c l r,
    zrep s k (Node c l x r) ∧ l1 = before k ++ inorder l ∧ l2 = inorder r ++ after k ∧
    height (plug k (Node c l x r)) < rb_fuel (length (l1 ++ x :: l2)).
Proof.
  intros (T & Hrep & Hv & HT & _). pose proof (rb_valid_height T Hv) as Hh.
  rewrite HT in Hh. pose proof (proj2 (proj2 Hrep)) as Hnd.
  destruct (inorder_focus T l1 x l2) as (k & c & l & r & -> & -> & ->); [done..|].
  exists k, c, l, r. split_and!; try done. by apply rep_plug.
Qed.

Lemma wp_RB_NEXT fuel s l1 x l2 :
  rb_model cmp s (l1 ++ x :: l2) → rb_fuel (length (l1 ++ x :: l2)) ≤ fuel →
  wp (RB_NEXT fuel (Some x)) s (λ res s', res = head l2 ∧ s' = s).
Proof.
  intros (k & c & l & r & Hz & -> & -> & Hh)%rb_model_focus Hfuel.
  eapply wp_NEXT_z; [exact Hz|lia].
Qed.

Lemma wp_RB_PREV fuel s l1 x l2 :
  rb_model cmp s (l1 ++ x :: l2) → rb_fuel (length (l1 ++ x :: l2)) ≤ fuel →
  wp (RB_PREV fuel (Some x)) s (λ res s', res = last l1 ∧ s' = s).
Proof.
  intros (k & c & l & r & Hz & -> & -> & Hh)%rb_model_focus Hfuel.
  eapply wp_PREV_z; [exact Hz|lia].
Qed.

(** ** The loops *)

(** [RB_FOREACH] with a body that leaves the tree alone runs it on every
    element, in order. *)
Lemma wp_foreach_next fuel (n : nat) s l1 l2 :
  rb_model cmp s (l1 ++ l2) → rb_fuel (length (l1 ++ l2)) ≤ n → length l2 < fuel →
  wp (foreach fuel (RB_NEXT n) (λ _, ret tt) (head l2)) s
    (λ seen s', seen = l2 ∧ s' = s).
Proof.
  intros Hm Hn Hfuel.
  eapply wp_loop with (n := length l2) (I := λ k '(x, seen) s',
    s' = s ∧ ∃ l3, l2 = seen ++ l3 ∧ x = head l3 ∧ k = length l3); [| |lia].
  2: { split; [done|]. by exists l2. }
  clear Hfuel. intros k [x seen] s' (-> & [|y l3] & -> & -> & ->); simpl.
  { apply wp_ret. by rewrite app_nil_r. }
  apply wp_bind, wp_ret, wp_bind. rewrite (assoc_L (++)) in Hm, Hn.
  eapply wp_mono; [by eapply wp_RB_NEXT|]. intros p s' [-> ->]. apply wp_ret.
  exists (length l3). split; [lia|]. split; [done|]. exists l3.
  by rewrite <-(assoc_L (++)).
Qed.

Lemma wp_foreach_prev fuel (n : nat) s l1 l2 :
  rb_model cmp s (l1 ++ l2) → rb_fuel (length (l1 ++ l2)) ≤ n → length l1 < fuel →
  wp (foreach fuel (RB_PREV n) (λ _, ret tt) (last l1)) s
    (λ seen s', seen = reverse l1 ∧ s' = s).
Proof.
  intros Hm Hn Hfuel.
  eapply wp_loop with (n := length l1) (I := λ k '(x, seen) s',
    s' = s ∧ ∃ l3, reverse l1 = seen ++ reverse l3 ∧ x = last l3 ∧ k = length l3 ∧
      ∃ l4, l1 = l3 ++ l4); [| |lia].
  2: { split; [done|]. exists l1. split_and!; try done. exists []. by rewrite app_nil_r. }
  clear Hfuel. intros k [x seen] s' (-> & l3 & Hl & -> & -> & l4 & ->).
  destruct l3 as [|y l3 _] using rev_ind; simpl.
  { apply wp_ret. split; [|done]. simpl in Hl. by rewrite Hl, reverse_nil, app_nil_r. }
  rewrite last_snoc. apply wp_bind, wp_ret, wp_bind.
  rewrite <-!(assoc_L (++)) in Hm, Hn.
  eapply wp_mono; [by eapply wp_RB_PREV|]. intros p s' [-> ->]. apply wp_ret.
  exists (length l3). split; [rewrite length_app; simpl; lia|]. split; [done|].
  exists l3. split_and!; try done.
  - rewrite Hl, reverse_snoc. by rewrite <-(assoc_L (++)).
  - exists (y :: l4). by rewrite <-(assoc_L (++)).
Qed.

(** Removing every element while walking: [RB_FOREACH_SAFE] has computed the
    next element before the body unlinks the current one. *)
Lemma wp_drain fuel (n : nat) s l :
  rb_model cmp s l → S (rb_fuel (length l)) ≤ n → length l < fuel →
  wp (foreach_safe fuel (RB_NEXT n) (λ x, RB_REMOVE n x;; ret tt) (head l)) s
    (λ seen s', seen = l ∧ rb_model cmp s' []).
Proof.
  intros Hm Hn Hfuel.
  eapply wp_loop with (n := length l) (I := λ k '(x, seen) s',
    ∃ l3, l = seen ++ l3 ∧ x = head l3 ∧ k = length l3 ∧ rb_model cmp s' l3);
    [| |lia].
  2: { by exists l. }
  clear Hfuel Hm. intros k [x seen] s' ([|y l3] & -> & -> & -> & Hm); simpl.
  { apply wp_ret. by rewrite app_nil_r. }
  assert (rb_fuel (length (y :: l3)) ≤ rb_fuel (length (seen ++ y :: l3))) as Hle.
  { unfold rb_fuel. rewrite length_app.
    pose proof (Nat.log2_le_mono (S (length (y :: l3)))
      (S (length seen + length (y :: l3)))). lia. }
  apply wp_bind. eapply wp_mono; [eapply (wp_RB_NEXT _ _ []); [done|simpl in *; lia]|].
  intros p s1 [-> ->]. apply wp_bind, wp_bind.
  eapply wp_mono; [eapply (wp_RB_REMOVE cmp n s' _ y Hm); [set_solver|lia]|].
  intros res s2 (_ & Hm2 & _). apply wp_ret, wp_ret.
  exists (length l3). split; [lia|]. exists l3.
  rewrite <-(assoc_L (++)). split_and!; try done.
  change (y :: l3) with ([] ++ y :: l3) in Hm2.
  rewrite spec_remove_split in Hm2; [done|].
  destruct Hm as (T & (_ & _ & Hnd) & _ & <- & _). done.
Qed.
End walk.
