(* ===== verification/RBProps.v ===== *)
(** The properties of the red-black tree: each operation refines its function
    on sorted sequences, for any fuel above the logarithmic bound [rb_fuel],
    and so does every program made of them. *)
From stdpp Require Import sorting.
From S2P Require Import Prelude RBCode RBTree RBSteps RBSpec RBSearch RBInsert RBRemove RBWalk.

(** * Clients: sequences of operations on one tree *)

Inductive rb_op :=
| OpInsert (x : loc) | OpRemove (x : loc) | OpFind (x : loc) | OpNFind (x : loc)
| OpMin | OpMax | OpNext (x : loc) | OpPrev (x : loc).

Section clients.
Context (cmp : loc → loc → Z).

Definition exec_op (fuel : nat) (o : rb_op) : RB ptr :=
  match o with
  | OpInsert x => RB_INSERT cmp fuel (Some x)
  | OpRemove x => RB_REMOVE fuel (Some x)
  | OpFind x => RB_FIND cmp fuel (Some x)
  | OpNFind x => RB_NFIND cmp fuel (Some x)
  | OpMin => RB_MIN fuel
  | OpMax => RB_MAX fuel
  | OpNext x => RB_NEXT fuel (Some x)
  | OpPrev x => RB_PREV fuel (Some x)
  end.

(** The same operation on the sequence. A client may insert only an element
    that is not in the tree, and remove or step from only one that is. *)
Definition spec_op (o : rb_op) (l : list loc) : option (ptr * list loc) :=
  match o with
  | OpInsert x => if decide (x ∈ l) then None else Some (spec_insert cmp x l)
  | OpRemove x => if decide (x ∈ l) then Some (Some x, spec_remove x l) else None
  | OpFind x => Some (spec_find cmp x l, l)
  | OpNFind x => Some (spec_nfind cmp x l, l)
  | OpMin => Some (head l, l)
  | OpMax => Some (last l, l)
  | OpNext x => if decide (x ∈ l) then Some (spec_next x l, l) else None
  | OpPrev x => if decide (x ∈ l) then Some (spec_prev x l, l) else None
  end.

Fixpoint exec_ops (fuel : nat) (os : list rb_op) : RB (list ptr) :=
  match os with
  | [] => ret []
  | o :: os => r ← exec_op fuel o; rs ← exec_ops fuel os; ret (r :: rs)
  end.

Fixpoint spec_ops (os : list rb_op) (l : list loc) : option (list ptr * list loc) :=
  match os with
  | [] => Some ([], l)
  | o :: os =>
      match spec_op o l with
      | None => None
      | Some (r, l1) =>
          match spec_ops os l1 with
          | None => None
          | Some (rs, l2) => Some (r :: rs, l2)
          end
      end
  end.

Definition op_elem (o : rb_op) : list loc :=
  match o with OpInsert x => [x] | _ => [] end.
Definition allocated (s : rb_state) (x : loc) : Prop := is_Some (rb_heap s !! x).
End clients.

Section simulation.
Context (cmp : loc → loc → Z) `{!CmpOrder cmp}.

Lemma repr_alloc h par t y : repr h par t → y ∈ inorder t → is_Some (h !! y).
Proof.
  revert par. induction t as [|c l IHl x r IHr]; intros par; simpl; [set_solver|].
  intros (Hx & Hl & Hr). rewrite elem_of_app, elem_of_cons.
  intros [?|[->|?]]; [by eapply IHl|by rewrite Hx|by eapply IHr].
Qed.

Lemma rb_model_alloc s l y : rb_model cmp s l → y ∈ l → allocated s y.
Proof. intros (T & (_ & Hr & _) & _ & <- & _). by eapply repr_alloc. Qed.

Lemma rb_model_nodup s l : rb_model cmp s l → NoDup l.
Proof. by intros (T & (_ & _ & ?) & _ & <- & _). Qed.

Lemma spec_insert_elems x l l' :
  spec_insert cmp x l = (None, l') → ∀ y, y ∈ x :: l → y ∈ l'.
Proof.
  unfold spec_insert. destruct (spec_find cmp x l) eqn:Ef; [done|]. intros [= <-] y.
  rewrite elem_of_app, !elem_of_cons, !list_elem_of_In, !List.filter_In.
  intros [->|Hy]; [by right; left|].
  unfold spec_find in Ef. pose proof (List.find_none _ _ Ef y Hy) as Hz.
  simpl in Hz. apply Z.eqb_neq in Hz.
  destruct (Z.ltb_spec (cmp x y) 0); [by right; right|].
  left. split; [done|]. lia.
Qed.

Lemma spec_remove_elem x y l : y ∈ l → y ≠ x → y ∈ spec_remove x l.
Proof.
  unfold spec_remove. rewrite !list_elem_of_In, List.filter_In.
  intros ? ?. by rewrite bool_decide_false.
Qed.

Lemma rb_fuel_mono n m : n ≤ m → rb_fuel n ≤ rb_fuel m.
Proof.
  intros. unfold rb_fuel. pose proof (Nat.log2_le_mono (S n) (S m)). lia.
Qed.

(** One operation, with the entries it needs kept allocated. *)
Lemma wp_exec_op fuel o s l r l' :
  rb_model cmp s l → (∀ x, x ∈ op_elem o → allocated s x) →
  spec_op cmp o l = Some (r, l') → S (rb_fuel (length l)) ≤ fuel →
  wp (exec_op cmp fuel o) s (λ r' s',
    r' = r ∧ rb_model cmp s' l' ∧ ∀ x, allocated s x → allocated s' x).
Proof.
  intros Hm Hal Ho Hfuel. destruct o as [x|x|x|x| | |x|x]; simpl in *.
  - case_decide; [done|]. eapply wp_mono; [apply (wp_RB_INSERT cmp fuel s l x);
      [done|done|apply Hal; set_solver|lia]|].
    intros r' s' (l2 & Heq & Hm' & Hf & Hsame). rewrite Heq in Ho.
    injection Ho as -> ->. split_and!; try done. intros y Hy.
    destruct (decide (y ∈ l')) as [?|Hn]; [by eapply rb_model_alloc|].
    destruct r as [z|]; [by rewrite Hsame|].
    unfold allocated. rewrite Hf; [done|]. intros Hin.
    by apply Hn, (spec_insert_elems _ _ _ Heq).
  - case_decide; [|done]. injection Ho as <- <-.
    eapply wp_mono; [by apply (wp_RB_REMOVE cmp fuel s l x)|].
    intros r' s' (-> & Hm' & Hx & Hf). split_and!; try done. intros y Hy.
    destruct (decide (y = x)) as [->|Hyx]; [done|].
    destruct (decide (y ∈ l)) as [Hyl|Hn]; [|unfold allocated; by rewrite Hf].
    eapply rb_model_alloc; [done|]. by apply spec_remove_elem.
  - injection Ho as <- <-. eapply wp_mono; [apply (wp_RB_FIND cmp fuel s l x Hm); lia|].
    by intros r' s' [-> ->].
  - injection Ho as <- <-. eapply wp_mono; [apply (wp_RB_NFIND cmp fuel s l x Hm); lia|].
    by intros r' s' [-> ->].
  - injection Ho as <- <-.
    eapply wp_mono; [apply (wp_RB_MINMAX cmp fuel s l RB_NEGINF Hm); lia|].
    by intros r' s' [-> ->].
  - injection Ho as <- <-.
    eapply wp_mono; [apply (wp_RB_MINMAX cmp fuel s l RB_INF Hm); lia|].
    by intros r' s' [-> ->].
  - case_decide as Hx; [|done]. injection Ho as <- <-.
    pose proof (rb_model_nodup _ _ Hm) as Hnd.
    apply list_elem_of_split in Hx as (l1 & l2 & ->). apply NoDup_app in Hnd as Hnd'.
    eapply wp_mono; [apply (wp_RB_NEXT cmp fuel s l1 x l2 Hm); lia|].
    intros r' s' [-> ->]. split_and!; try done. symmetry. apply spec_next_split.
    set_solver.
  - case_decide as Hx; [|done]. injection Ho as <- <-.
    pose proof (rb_model_nodup _ _ Hm) as Hnd.
    apply list_elem_of_split in Hx as (l1 & l2 & ->).
    apply NoDup_app in Hnd as (_ & _ & Hnd%NoDup_cons).
    eapply wp_mono; [apply (wp_RB_PREV cmp fuel s l1 x l2 Hm); lia|].
    intros r' s' [-> ->]. split_and!; try done. symmetry. apply spec_prev_split.
    apply Hnd.
Qed.

Lemma spec_op_length o l r l' :
  spec_op cmp o l = Some (r, l') → length l' ≤ S (length l).
Proof.
  destruct o; simpl; intros Ho; repeat case_decide; simplify_eq; try lia.
  - by eapply spec_insert_length.
  - etrans; [apply List.filter_length_le|lia].
Qed.

Lemma wp_exec_ops fuel os s l rs l' :
  rb_model cmp s l → (∀ x, x ∈ os ≫= op_elem → allocated s x) →
  spec_ops cmp os l = Some (rs, l') → S (rb_fuel (length l + length os)) ≤ fuel →
  wp (exec_ops cmp fuel os) s (λ rs' s', rs' = rs ∧ rb_model cmp s' l').
Proof.
  revert s l rs l'. induction os as [|o os IH]; intros s l rs l' Hm Hal Ho Hfuel.
  { injection Ho as <- <-. by apply wp_ret. }
  simpl in *. destruct (spec_op cmp o l) as [[r l1]|] eqn:Eo; [|done].
  destruct (spec_ops cmp os l1) as [[rs2 l2]|] eqn:Eos; [|done].
  injection Ho as <- <-. pose proof (spec_op_length _ _ _ _ Eo) as Hlen.
  pose proof (rb_fuel_mono (length l) (length l + S (length os))).
  pose proof (rb_fuel_mono (length l1 + length os) (length l + S (length os))).
  apply wp_bind. eapply wp_mono.
  { eapply (wp_exec_op fuel o); [done| |done|lia]. intros x Hx. apply Hal. set_solver. }
  intros r' s1 (-> & Hm1 & Hal1). apply wp_bind. eapply wp_mono.
  { eapply IH; [done| |done|lia]. intros x Hx. apply Hal1, Hal. set_solver. }
  intros rs' s2 [-> Hm2]. by apply wp_ret.
Qed.
End simulation.

(** * The properties *)

(** C1: every program of insertions, removals, searches and steps on a valid
    red-black tree computes exactly the results of the same operations on a
    strictly increasing sequence, never dereferences NULL or an element outside
    the heap, stays within logarithmic loop bounds and leaves a valid tree of
    the resulting sequence. *)
Theorem RB_program_refines cmp `{!CmpOrder cmp} fuel os s l rs l' :
  rb_model cmp s l → (∀ x, x ∈ os ≫= op_elem → allocated s x) →
  spec_ops cmp os l = Some (rs, l') → S (rb_fuel (length l + length os)) ≤ fuel →
  ∃ s', exec_ops cmp fuel os s = Done rs s' ∧ rb_model cmp s' l'.
Proof.
  intros Hm Hal Hs Hf. destruct (wp_elim _ _ _ (wp_exec_ops cmp fuel os s l rs l' Hm Hal Hs Hf))
    as (rs' & s' & -> & -> & Hm'). eauto.
Qed.

(** [RB_INSERT] on a valid tree returns the element that compares equal and
    changes nothing, or inserts the new element at its place in the order,
    rebalances, and returns NULL; entries of other elements are untouched. *)
Theorem RB_INSERT_correct cmp `{!CmpOrder cmp} fuel s l x :
  rb_model cmp s l → x ∉ l → allocated s x → rb_fuel (length l) ≤ fuel →
  ∃ res s' l', RB_INSERT cmp fuel (Some x) s = Done res s' ∧
    spec_insert cmp x l = (res, l') ∧ rb_model cmp s' l' ∧ frame (x :: l) s s' ∧
    (res ≠ None → s' = s).
Proof.
  intros Hm Hx Hal Hf.
  destruct (wp_elim _ _ _ (wp_RB_INSERT cmp fuel s l x Hm Hx Hal Hf)) as (r & s' & ? & l' & ?).
  eauto.
Qed.

(** [RB_REMOVE] of an element of a valid tree, with at most one child or
    with two, returns it and leaves a valid tree of the other elements. *)
Theorem RB_REMOVE_correct cmp `{!CmpOrder cmp} fuel s l x :
  rb_model cmp s l → x ∈ l → S (rb_fuel (length l)) ≤ fuel →
  ∃ s', RB_REMOVE fuel (Some x) s = Done (Some x) s' ∧
    rb_model cmp s' (spec_remove x l) ∧ allocated s' x ∧ frame l s s'.
Proof.
  intros Hm Hx Hf.
  destruct (wp_elim _ _ _ (wp_RB_REMOVE cmp fuel s l x Hm Hx Hf)) as (r & s' & -> & -> & ?).
  eauto.
Qed.

(** [RB_FIND] returns the element of the tree that compares equal, or NULL
    when there is none, and leaves the tree alone. *)
Theorem RB_FIND_correct cmp `{!CmpOrder cmp} fuel s l x :
  rb_model cmp s l → rb_fuel (length l) ≤ fuel →
  RB_FIND cmp fuel (Some x) s = Done (spec_find cmp x l) s.
Proof.
  intros Hm Hf. by destruct (wp_elim _ _ _ (wp_RB_FIND cmp fuel s l x Hm Hf))
    as (r & s' & -> & -> & ->).
Qed.

(** [RB_NFIND] returns the least element that is not less than the key. *)
Theorem RB_NFIND_correct cmp `{!CmpOrder cmp} fuel s l x :
  rb_model cmp s l → rb_fuel (length l) ≤ fuel →
  RB_NFIND cmp fuel (Some x) s = Done (spec_nfind cmp x l) s.
Proof.
  intros Hm Hf. by destruct (wp_elim _ _ _ (wp_RB_NFIND cmp fuel s l x Hm Hf))
    as (r & s' & -> & -> & ->).
Qed.

(** [RB_NEXT] and [RB_PREV] of an element return its successor and its
    predecessor in the order, NULL at the ends; [RB_MIN] and [RB_MAX] return the
    first and the last element. *)
Theorem RB_neighbours_correct cmp `{!CmpOrder cmp} fuel s l1 x l2 :
  rb_model cmp s (l1 ++ x :: l2) → rb_fuel (length (l1 ++ x :: l2)) ≤ fuel →
  RB_NEXT fuel (Some x) s = Done (head l2) s ∧
  RB_PREV fuel (Some x) s = Done (last l1) s ∧
  RB_MIN fuel s = Done (head (l1 ++ x :: l2)) s ∧
  RB_MAX fuel s = Done (last (l1 ++ x :: l2)) s.
Proof.
  intros Hm Hf. split_and!.
  - by destruct (wp_elim _ _ _ (wp_RB_NEXT cmp fuel s l1 x l2 Hm Hf)) as (? & ? & -> & -> & ->).
  - by destruct (wp_elim _ _ _ (wp_RB_PREV cmp fuel s l1 x l2 Hm Hf)) as (? & ? & -> & -> & ->).
  - by destruct (wp_elim _ _ _ (wp_RB_MINMAX cmp fuel s _ RB_NEGINF Hm Hf))
      as (? & ? & Hr & -> & ->).
  - by destruct (wp_elim _ _ _ (wp_RB_MINMAX cmp fuel s _ RB_INF Hm Hf))
      as (? & ? & Hr & -> & ->).
Qed.

(** [RB_FOREACH] and [RB_FOREACH_REVERSE] visit every element once, in
    order and in reverse order. *)
Theorem RB_FOREACH_visits cmp `{!CmpOrder cmp} fuel s l :
  rb_model cmp s l → rb_fuel (length l) + length l ≤ fuel →
  RB_FOREACH fuel (λ _, ret tt) s = Done l s ∧
  RB_FOREACH_REVERSE fuel (λ _, ret tt) s = Done (reverse l) s.
Proof.
  intros Hm Hf. assert (length l < fuel) as Hf' by (unfold rb_fuel in Hf; lia). split.
  - eassert (wp (RB_FOREACH fuel _) s (λ r s', r = l ∧ s' = s)) as Hw.
    { apply wp_bind. eapply wp_mono; [apply (wp_RB_MINMAX cmp fuel s l RB_NEGINF Hm); lia|].
      intros r s' [-> ->]. apply (wp_foreach_next cmp fuel fuel s [] l Hm); simpl; lia. }
    by destruct (wp_elim _ _ _ Hw) as (? & ? & -> & -> & ->).
  - eassert (wp (RB_FOREACH_REVERSE fuel _) s (λ r s', r = reverse l ∧ s' = s)) as Hw.
    { apply wp_bind. eapply wp_mono; [apply (wp_RB_MINMAX cmp fuel s l RB_INF Hm); lia|].
      intros r s' [-> ->]. apply (wp_foreach_prev cmp fuel fuel s l []);
        rewrite ?app_nil_r; [done|lia|done]. }
    by destruct (wp_elim _ _ _ Hw) as (? & ? & -> & -> & ->).
Qed.

(** C2: [RB_FOREACH_SAFE] may remove the element it is on: removing every
    element this way visits them all in order and leaves the empty tree. *)
Theorem RB_FOREACH_SAFE_drains cmp `{!CmpOrder cmp} fuel s l :
  rb_model cmp s l → S (rb_fuel (length l) + length l) ≤ fuel →
  ∃ s', RB_FOREACH_SAFE fuel (λ x, RB_REMOVE fuel x;; ret tt) s = Done l s' ∧
    rb_model cmp s' [] ∧ rbh_root s' = None.
Proof.
  intros Hm Hf. assert (length l < fuel) as Hf' by (unfold rb_fuel in Hf; lia).
  eassert (wp (RB_FOREACH_SAFE fuel _) s (λ r s', r = l ∧ rb_model cmp s' [])) as Hw.
  { apply wp_bind. eapply wp_mono; [apply (wp_RB_MINMAX cmp fuel s l RB_NEGINF Hm); lia|].
    intros r s' [-> ->]. apply (wp_drain cmp fuel fuel s l Hm); simpl; lia. }
  destruct (wp_elim _ _ _ Hw) as (? & s' & -> & -> & Hm'). exists s'. split_and!; try done.
  destruct Hm' as (T & (Hr & _) & _ & HT & _). rewrite Hr.
  destruct T as [|c tl y tr]; [done|]. simpl in HT. by destruct (inorder tl).
Qed.

(** a valid tree of [n] elements is no higher than [2 * log2 (n + 1)]. *)
Theorem RB_height_bound cmp s l :
  rb_model cmp s l →
  ∃ t, rep s t ∧ inorder t = l ∧ height t ≤ 2 * Nat.log2 (S (length l)).
Proof.
  intros (t & Hr & Hv & <- & _). pose proof (rb_valid_height t Hv) as Hh.
  unfold rb_fuel in Hh. exists t. split_and!; [done|done|lia].
Qed.

(** ** A concrete tree *)

Definition demo_cmp : loc → loc → Z := key_cmp Z.pos.
Definition demo_tree : tree :=
  Node Black (Node Red Leaf 2 Leaf) 4 (Node Red Leaf 6 Leaf).
Definition demo_state : rb_state := RBS (Some 4%positive) (list_to_map
  [(4, RBE (Some 2) (Some 6) None 0); (2, RBE None None (Some 4) 1);
   (6, RBE None None (Some 4) 1); (5, RBE None None None 7)])%positive.

Lemma demo_model : rb_model demo_cmp demo_state [2; 4; 6]%positive.
Proof.
  exists demo_tree. split_and!; [split_and!|..].
  - reflexivity.
  - cbn [repr demo_tree]. split_and!; first [exact I|vm_compute; reflexivity].
  - apply (bool_decide_unpack _). by vm_compute.
  - exists 1. unfold demo_tree. eauto with cmodel.
  - reflexivity.
  - repeat constructor; vm_compute; reflexivity.
Qed.

Lemma demo_alloc : allocated demo_state 5.
Proof. eexists. vm_compute. reflexivity. Qed.

Lemma RB_program_refines_witness :
  ∃ s', exec_ops demo_cmp 10 [OpInsert 5; OpRemove 4; OpNext 2; OpMax]%positive demo_state
    = Done [None; Some 4; Some 5; Some 6]%positive s' ∧
    rb_model demo_cmp s' [2; 5; 6]%positive.
Proof.
  apply (RB_program_refines demo_cmp 10 _ demo_state [2; 4; 6]%positive).
  - exact demo_model.
  - intros x Hx. assert (x = 5%positive) as -> by set_solver. exact demo_alloc.
  - vm_compute. reflexivity.
  - vm_compute. lia.
Defined.

Lemma RB_INSERT_correct_witness :
  ∃ res s' l', RB_INSERT demo_cmp 10 (Some 5%positive) demo_state = Done res s' ∧
    spec_insert demo_cmp 5 [2; 4; 6]%positive = (res, l') ∧ rb_model demo_cmp s' l' ∧
    frame [5; 2; 4; 6]%positive demo_state s' ∧ (res ≠ None → s' = demo_state).
Proof.
  apply (RB_INSERT_correct demo_cmp 10 demo_state [2; 4; 6]%positive).
  - exact demo_model.
  - set_solver.
  - exact demo_alloc.
  - vm_compute. lia.
Defined.

Lemma RB_REMOVE_correct_witness :
  ∃ s', RB_REMOVE 10 (Some 4%positive) demo_state = Done (Some 4%positive) s' ∧
    rb_model demo_cmp s' [2; 6]%positive ∧ allocated s' 4 ∧
    frame [2; 4; 6]%positive demo_state s'.
Proof.
  apply (RB_REMOVE_correct demo_cmp 10 demo_state [2; 4; 6]%positive).
  - exact demo_model.
  - set_solver.
  - vm_compute. lia.
Defined.

Lemma RB_FIND_correct_witness :
  RB_FIND demo_cmp 10 (Some 6%positive) demo_state = Done (Some 6%positive) demo_state.
Proof.
  apply (RB_FIND_correct demo_cmp 10 demo_state [2; 4; 6]%positive);
    [exact demo_model|vm_compute; lia].
Defined.

Lemma RB_NFIND_correct_witness :
  RB_NFIND demo_cmp 10 (Some 5%positive) demo_state = Done (Some 6%positive) demo_state.
Proof.
  apply (RB_NFIND_correct demo_cmp 10 demo_state [2; 4; 6]%positive);
    [exact demo_model|vm_compute; lia].
Defined.

Lemma RB_neighbours_correct_witness :
  RB_NEXT 10 (Some 4%positive) demo_state = Done (Some 6%positive) demo_state ∧
  RB_PREV 10 (Some 4%positive) demo_state = Done (Some 2%positive) demo_state ∧
  RB_MIN 10 demo_state = Done (Some 2%positive) demo_state ∧
  RB_MAX 10 demo_state = Done (Some 6%positive) demo_state.
Proof.
  apply (RB_neighbours_correct demo_cmp 10 demo_state [2%positive] 4 [6%positive]);
    [exact demo_model|vm_compute; lia].
Defined.

Lemma RB_FOREACH_visits_witness :
  RB_FOREACH 20 (λ _, ret tt) demo_state = Done [2; 4; 6]%positive demo_state ∧
  RB_FOREACH_REVERSE 20 (λ _, ret tt) demo_state = Done [6; 4; 2]%positive demo_state.
Proof.
  apply (RB_FOREACH_visits demo_cmp 20 demo_state [2; 4; 6]%positive);
    [exact demo_model|vm_compute; lia].
Defined.

Lemma RB_FOREACH_SAFE_drains_witness :
  ∃ s', RB_FOREACH_SAFE 20 (λ x, RB_REMOVE 20 x;; ret tt) demo_state
      = Done [2; 4; 6]%positive s' ∧
    rb_model demo_cmp s' [] ∧ rbh_root s' = None.
Proof.
  apply (RB_FOREACH_SAFE_drains demo_cmp 20 demo_state [2; 4; 6]%positive);
    [exact demo_model|vm_compute; lia].
Defined.

Lemma RB_height_bound_witness :
  ∃ t, rep demo_state t ∧ inorder t = [2; 4; 6]%positive ∧ height t ≤ 4.
Proof. apply (RB_height_bound demo_cmp demo_state _ demo_model). Defined.
