(* ===== verification/SplayCode.v ===== *)
(** The splay tree macros of src/kvstore/NtyCo/core/nty_tree.h, as programs
    over a heap of tree entries: one definition per macro or generated
    function. The local [__node] of the splay functions is an object that lives
    in the heap while they run. *)
From S2P Require Import Prelude CppHeap.
#[global] Open Scope Z_scope.

(** [SPLAY_ENTRY(type)] *)
Record spl_entry := SPE { spe_left : ptr; spe_right : ptr }.

(** [SPLAY_HEAD(name, type)] together with the entries of the elements. *)
Record spl_state := SPS { sph_root : ptr; spl_heap : gmap loc spl_entry }.

#[export, program] Instance spl_has_heap : HasHeap spl_state spl_entry := {|
  heap_of := spl_heap;
  with_heap h s := SPS (sph_root s) h
|}.
Solve Obligations with (intros; simpl; try by destruct s).

Abbreviation SP := (M spl_state).

Definition set_left (v : ptr) (e : spl_entry) : spl_entry := SPE v (spe_right e).
Definition set_right (v : ptr) (e : spl_entry) : spl_entry := SPE (spe_left e) v.

Definition SPLAY_LEFT (p : ptr) : SP ptr := field spe_left p.
Definition SPLAY_RIGHT (p : ptr) : SP ptr := field spe_right p.
Definition put_LEFT (p v : ptr) : SP unit := store p (set_left v).
Definition put_RIGHT (p v : ptr) : SP unit := store p (set_right v).
Definition SPLAY_ROOT : SP ptr := gets sph_root.
Definition put_ROOT (p : ptr) : SP unit := modify (λ s, SPS p (spl_heap s)).
Definition SPLAY_EMPTY : SP bool := r ← SPLAY_ROOT; ret (negb (non_null r)).
Definition SPLAY_INIT : SP unit := put_ROOT None.

Definition SPLAY_ROTATE_RIGHT (tmp : ptr) : SP unit :=
  root ← SPLAY_ROOT; v ← SPLAY_RIGHT tmp; put_LEFT root v;;
  root ← SPLAY_ROOT; put_RIGHT tmp root;;
  put_ROOT tmp.
Definition SPLAY_ROTATE_LEFT (tmp : ptr) : SP unit :=
  root ← SPLAY_ROOT; v ← SPLAY_LEFT tmp; put_RIGHT root v;;
  root ← SPLAY_ROOT; put_LEFT tmp root;;
  put_ROOT tmp.

(** The new value of [tmp]. *)
Definition SPLAY_LINKLEFT (tmp : ptr) : SP ptr :=
  root ← SPLAY_ROOT; put_LEFT tmp root;;
  tmp ← SPLAY_ROOT;
  root ← SPLAY_ROOT; v ← SPLAY_LEFT root; put_ROOT v;;
  ret tmp.
Definition SPLAY_LINKRIGHT (tmp : ptr) : SP ptr :=
  root ← SPLAY_ROOT; put_RIGHT tmp root;;
  tmp ← SPLAY_ROOT;
  root ← SPLAY_ROOT; v ← SPLAY_RIGHT root; put_ROOT v;;
  ret tmp.

Definition SPLAY_ASSEMBLE (node left right : ptr) : SP unit :=
  root ← SPLAY_ROOT; v ← SPLAY_LEFT root; put_RIGHT left v;;
  root ← SPLAY_ROOT; v ← SPLAY_RIGHT root; put_LEFT right v;;
  root ← SPLAY_ROOT; v ← SPLAY_RIGHT node; put_LEFT root v;;
  root ← SPLAY_ROOT; v ← SPLAY_LEFT node; put_RIGHT root v.

Definition SPLAY_NEGINF : Z := -1.
Definition SPLAY_INF : Z := 1.

Section generate.
Context {AL : Allocator} (cmp : loc → loc → Z).

(** [(cmp)(a, b)], which looks at both elements. *)
Definition cmpM (a b : ptr) : SP Z := x ← need a; y ← need b; ret (cmp x y).

(** The body of the loops of [name##_SPLAY] and [name##_SPLAY_MINMAX] after
    [__comp] is known; [test] is what decides whether to rotate. The variables
    [__left] and [__right] are carried round. *)
Definition SPLAY_step (test : ptr → SP Z) (comp : Z) (lr : ptr * ptr) : SP ((ptr * ptr) + (ptr * ptr)) :=
  let '(lft, rgt) := lr in
  if comp <? 0 then
    root ← SPLAY_ROOT; tmp ← SPLAY_LEFT root;
    if negb (non_null tmp) then ret (inr lr) else
    t ← test tmp;
    stop ← (if t <? 0 then
              SPLAY_ROTATE_RIGHT tmp;;
              root ← SPLAY_ROOT; l ← SPLAY_LEFT root; ret (negb (non_null l))
            else ret false);
    if stop : bool then ret (inr lr) else
    rgt ← SPLAY_LINKLEFT rgt;
    ret (inl (lft, rgt))
  else if comp >? 0 then
    root ← SPLAY_ROOT; tmp ← SPLAY_RIGHT root;
    if negb (non_null tmp) then ret (inr lr) else
    t ← test tmp;
    stop ← (if t >? 0 then
              SPLAY_ROTATE_LEFT tmp;;
              root ← SPLAY_ROOT; r ← SPLAY_RIGHT root; ret (negb (non_null r))
            else ret false);
    if stop : bool then ret (inr lr) else
    lft ← SPLAY_LINKRIGHT lft;
    ret (inl (lft, rgt))
  else ret (inl lr).

Definition SPLAY (fuel : nat) (elm : ptr) : SP unit :=
  node ← new (SPE None None);
  '(lft, rgt) ← loop fuel (λ lr,
    root ← SPLAY_ROOT; comp ← cmpM elm root;
    if comp =? 0 then ret (inr lr) else SPLAY_step (cmpM elm) comp lr) (node, node);
  SPLAY_ASSEMBLE node lft rgt;;
  delete_ node.

Definition SPLAY_MINMAX (fuel : nat) (comp : Z) : SP unit :=
  node ← new (SPE None None);
  '(lft, rgt) ← loop fuel (SPLAY_step (λ _, ret comp) comp) (node, node);
  SPLAY_ASSEMBLE node lft rgt;;
  delete_ node.

Definition SPLAY_FIND (fuel : nat) (elm : ptr) : SP ptr :=
  empty ← SPLAY_EMPTY;
  if empty : bool then ret None else
  SPLAY fuel elm;;
  root ← SPLAY_ROOT; c ← cmpM elm root;
  if c =? 0 then SPLAY_ROOT else ret None.

(** [while (SPLAY_LEFT(elm, field) != NULL) elm = SPLAY_LEFT(elm, field);] *)
Definition leftmost (fuel : nat) (elm : ptr) : SP ptr :=
  loop fuel (λ elm,
    l ← SPLAY_LEFT elm;
    if negb (non_null l) then ret (inr elm) else ret (inl l)) elm.
Definition SPLAY_NEXT (fuel : nat) (elm : ptr) : SP ptr :=
  SPLAY fuel elm;;
  r ← SPLAY_RIGHT elm;
  if negb (non_null r) then ret None else
  elm ← SPLAY_RIGHT elm; leftmost fuel elm.

Definition SPLAY_MIN_MAX (fuel : nat) (val : Z) : SP ptr :=
  SPLAY_MINMAX fuel val;; SPLAY_ROOT.
Definition SPLAY_MIN (fuel : nat) : SP ptr :=
  empty ← SPLAY_EMPTY; if empty : bool then ret None else SPLAY_MIN_MAX fuel SPLAY_NEGINF.
Definition SPLAY_MAX (fuel : nat) : SP ptr :=
  empty ← SPLAY_EMPTY; if empty : bool then ret None else SPLAY_MIN_MAX fuel SPLAY_INF.

Definition SPLAY_INSERT (fuel : nat) (elm : ptr) : SP ptr :=
  empty ← SPLAY_EMPTY;
  found ← (if empty : bool then
      put_RIGHT elm None;; put_LEFT elm None;; ret None
    else
      SPLAY fuel elm;;
      root ← SPLAY_ROOT; comp ← cmpM elm root;
      if comp <? 0 then
        root ← SPLAY_ROOT; v ← SPLAY_LEFT root; put_LEFT elm v;;
        root ← SPLAY_ROOT; put_RIGHT elm root;;
        root ← SPLAY_ROOT; put_LEFT root None;;
        ret None
      else if comp >? 0 then
        root ← SPLAY_ROOT; v ← SPLAY_RIGHT root; put_RIGHT elm v;;
        root ← SPLAY_ROOT; put_LEFT elm root;;
        root ← SPLAY_ROOT; put_RIGHT root None;;
        ret None
      else SPLAY_ROOT);
  if non_null found then ret found else
  put_ROOT elm;; ret None.

Definition SPLAY_REMOVE (fuel : nat) (elm : ptr) : SP ptr :=
  empty ← SPLAY_EMPTY;
  if empty : bool then ret None else
  SPLAY fuel elm;;
  root ← SPLAY_ROOT; c ← cmpM elm root;
  if c =? 0 then
    root ← SPLAY_ROOT; l ← SPLAY_LEFT root;
    (if negb (non_null l) then
       root ← SPLAY_ROOT; r ← SPLAY_RIGHT root; put_ROOT r
     else
       root ← SPLAY_ROOT; tmp ← SPLAY_RIGHT root;
       root ← SPLAY_ROOT; l ← SPLAY_LEFT root; put_ROOT l;;
       SPLAY fuel elm;;
       root ← SPLAY_ROOT; put_RIGHT root tmp);;
    ret elm
  else ret None.

(** [SPLAY_FOREACH(x, name, head) body], with the elements it visited. *)
Definition SPLAY_FOREACH (fuel : nat) (body : ptr → SP unit) : SP (list ptr) :=
  x ← SPLAY_MIN fuel;
  loop fuel (λ '(x, seen),
    if negb (non_null x) then ret (inr seen) else
    body x;; next ← SPLAY_NEXT fuel x; ret (inl (next, seen ++ [x]))) (x, []).
End generate.
