(* ===== verification/SplayTree.v ===== *)
(** Trees in the heap of the splay macros, the spines the top-down splay hangs
    its two side trees on, and what each pointer operation does to them. The two
    directions are one parameter: [true] is right. *)
From stdpp Require Import gmap list.
From S2P Require Import Prelude CppHeap SplayCode.

Inductive stree := SLeaf | SNode (l : stree) (x : loc) (r : stree).
Fixpoint sin (t : stree) : list loc :=
  match t with SLeaf => [] | SNode l x r => sin l ++ x :: sin r end.
Fixpoint srep (h : gmap loc spl_entry) (p : ptr) (t : stree) : Prop :=
  match t with
  | SLeaf => p = None
  | SNode l x r => p = Some x ∧ ∃ pl pr, h !! x = Some (SPE pl pr) ∧ srep h pl l ∧ srep h pr r
  end.

(** The child in a direction, and a node by its two children: [i] in direction
    [d], [o] on the other side. *)
Definition child (d : bool) (e : spl_entry) : ptr := if d then spe_right e else spe_left e.
Definition set_child (d : bool) (v : ptr) (e : spl_entry) : spl_entry :=
  if d then set_right v e else set_left v e.
Definition mk (d : bool) (i : stree) (x : loc) (o : stree) : stree :=
  if d then SNode o x i else SNode i x o.
Definition get (d : bool) (p : ptr) : SP ptr := field (child d) p.
Definition put (d : bool) (p v : ptr) : SP unit := store p (set_child d v).

Lemma child_set d v e : child d (set_child d v e) = v.
Proof. by destruct d. Qed.
Lemma child_set_ne d v e : child (negb d) (set_child d v e) = child (negb d) e.
Proof. by destruct d. Qed.
Lemma child_set_ne' d v e : child d (set_child (negb d) v e) = child d e.
Proof. by destruct d. Qed.

Lemma sin_mk d i x o : sin (mk d i x o) ≡ₚ x :: sin i ++ sin o.
Proof. destruct d; simpl; rewrite <- Permutation_middle; [by rewrite (comm (++))|done]. Qed.
Lemma sin_mk_length d i x o : length (sin (mk d i x o)) = S (length (sin i) + length (sin o)).
Proof. rewrite sin_mk. simpl. by rewrite length_app. Qed.

Lemma srep_mk h p d i x o :
  srep h p (mk d i x o) ↔ p = Some x ∧ ∃ e, h !! x = Some e ∧ srep h (child d e) i ∧ srep h (child (negb d) e) o.
Proof.
  destruct d; simpl; split; intros (-> & H); (split; [done|]).
  - destruct H as (pl & pr & Hx & Hl & Hr). by exists (SPE pl pr).
  - destruct H as ([pl pr] & Hx & Hl & Hr). by exists pl, pr.
  - destruct H as (pl & pr & Hx & Hl & Hr). by exists (SPE pl pr).
  - destruct H as ([pl pr] & Hx & Hl & Hr). by exists pl, pr.
Qed.
Lemma srep_null h t : srep h None t → t = SLeaf.
Proof. destruct t; [done|]. by intros [[=] _]. Qed.
Lemma srep_some h x t : srep h (Some x) t → ∃ l r, t = SNode l x r.
Proof. destruct t as [|l y r]; [done|]. intros [[= <-] _]. eauto. Qed.
Lemma srep_some_mk d h x t : srep h (Some x) t → ∃ i o, t = mk d i x o.
Proof. intros (l & r & ->)%srep_some. destruct d; [by exists r, l|by exists l, r]. Qed.

(** Writes elsewhere. *)
Lemma srep_insert h p t x e : x ∉ sin t → srep h p t → srep (<[x:=e]> h) p t.
Proof.
  revert p. induction t as [|l IHl y r IHr]; intros p Hx; [done|].
  simpl in Hx. rewrite elem_of_app, elem_of_cons in Hx.
  intros (-> & pl & pr & Hy & Hl & Hr). split; [done|]. exists pl, pr.
  rewrite lookup_insert_ne by (intros ->; tauto). naive_solver.
Qed.
Lemma srep_delete h p t x : x ∉ sin t → srep h p t → srep (delete x h) p t.
Proof.
  revert p. induction t as [|l IHl y r IHr]; intros p Hx; [done|].
  simpl in Hx. rewrite elem_of_app, elem_of_cons in Hx.
  intros (-> & pl & pr & Hy & Hl & Hr). split; [done|]. exists pl, pr.
  rewrite lookup_delete_ne by (intros ->; tauto). naive_solver.
Qed.
Lemma srep_dom h p t x : srep h p t → x ∈ sin t → is_Some (h !! x).
Proof.
  revert p. induction t as [|l IHl y r IHr]; intros p; simpl; [by intros _ ?%not_elem_of_nil|].
  intros (_ & pl & pr & Hy & Hl & Hr). rewrite elem_of_app, elem_of_cons.
  intros [?|[->|?]]; [by eapply IHl|by eexists|by eapply IHr].
Qed.

(** * Spines *)

(** The nodes hung below [p] along direction [d], each with its other
    subtree; the last one's link in direction [d] is still open. *)
Definition spine := list (loc * stree).
Definition elems (ls : spine) : list loc := ls ≫= (λ '(x, t), x :: sin t).
Fixpoint links (d : bool) (h : gmap loc spl_entry) (p : loc) (ls : spine) : Prop :=
  match ls with
  | [] => True
  | (x, t) :: ls =>
      (∃ e, h !! p = Some e ∧ child d e = Some x) ∧
      (∃ e, h !! x = Some e ∧ srep h (child (negb d) e) t) ∧ links d h x ls
  end.
Fixpoint end_of (p : loc) (ls : spine) : loc :=
  match ls with [] => p | (x, _) :: ls => end_of x ls end.
(** The tree a spine makes when its open link gets the tree [t]. *)
Fixpoint build (d : bool) (ls : spine) (t : stree) : stree :=
  match ls with [] => t | (x, o) :: ls => mk d (build d ls t) x o end.
Fixpoint sinS (d : bool) (ls : spine) : list loc :=
  match ls with
  | [] => []
  | (x, o) :: ls => if d then (sin o ++ [x]) ++ sinS d ls else sinS d ls ++ x :: sin o
  end.

Lemma sin_build d ls t :
  sin (build d ls t) = if d then sinS d ls ++ sin t else sin t ++ sinS d ls.
Proof.
  induction ls as [|[x o] ls IH]; simpl; [destruct d; by rewrite ?app_nil_r|].
  destruct d; simpl; rewrite IH; by rewrite <- ?app_assoc.
Qed.
Lemma sinS_snoc d ls x o :
  sinS d (ls ++ [(x, o)]) = if d then sinS d ls ++ sin o ++ [x] else (x :: sin o) ++ sinS d ls.
Proof.
  induction ls as [|[y q] ls IH]; simpl; [destruct d; by rewrite ?app_nil_r|].
  rewrite IH. destruct d; by rewrite <- ?app_assoc.
Qed.
Lemma elems_sinS d ls : elems ls ≡ₚ sinS d ls.
Proof.
  induction ls as [|[x o] ls IH]; simpl; [done|]. destruct d; rewrite IH.
  - by rewrite <- Permutation_cons_append.
  - by rewrite (comm (++) _ (x :: _)).
Qed.
Lemma end_of_elem p ls : end_of p ls ∈ p :: elems ls.
Proof.
  revert p. induction ls as [|[x o] ls IH]; intros p; simpl; [by left|].
  right. specialize (IH x). rewrite elem_of_cons in IH. simpl. set_solver.
Qed.
Lemma end_of_snoc p ls x o : end_of p (ls ++ [(x, o)]) = x.
Proof. revert p. by induction ls as [|[y q] ls IH]; intros p; simpl. Qed.

Lemma links_insert d h p ls x e :
  x ∉ p :: elems ls → links d h p ls → links d (<[x:=e]> h) p ls.
Proof.
  revert p. induction ls as [|[y o] ls IH]; intros p Hx; [done|]. simpl in *.
  rewrite !elem_of_cons, elem_of_app in Hx.
  intros ((e1 & H1 & H1') & (e2 & H2 & H2') & H3). split; [|split].
  - exists e1. rewrite lookup_insert_ne by (intros ->; tauto). done.
  - exists e2. rewrite lookup_insert_ne by (intros ->; tauto). split; [done|].
    apply srep_insert; [tauto|done].
  - apply IH; [|done]. rewrite elem_of_cons. tauto.
Qed.
(** Writing the other link of the node the spine hangs from. *)
Lemma links_other d h p ls v e :
  p ∉ elems ls → h !! p = Some e → links d h p ls → links d (<[p:=set_child (negb d) v e]> h) p ls.
Proof.
  destruct ls as [|[y o] ls]; intros Hp He; [done|]. simpl in *.
  rewrite !elem_of_cons, elem_of_app in Hp.
  intros ((e1 & H1 & H1') & (e2 & H2 & H2') & H3). split; [|split].
  - exists (set_child (negb d) v e). rewrite lookup_insert_eq. split; [done|].
    rewrite child_set_ne'. congruence.
  - exists e2. rewrite lookup_insert_ne by (intros ->; tauto). split; [done|].
    apply srep_insert; [tauto|done].
  - apply links_insert; [|done]. rewrite elem_of_cons. tauto.
Qed.
(** Writing the open link. *)
Lemma links_open d h p ls v e :
  NoDup (p :: elems ls) → h !! end_of p ls = Some e → links d h p ls →
  links d (<[end_of p ls:=set_child d v e]> h) p ls.
Proof.
  revert p. induction ls as [|[y o] ls IH]; intros p Hnd He; [done|]. simpl in *.
  apply NoDup_cons in Hnd as [Hp Hnd]. pose proof Hnd as Hnd'.
  apply NoDup_cons in Hnd' as [Hy (Ho & Hdis & Hls)%NoDup_app].
  pose proof (end_of_elem y ls) as Hend.
  intros ((e1 & H1 & H1') & (e2 & H2 & H2') & H3). split; [|split].
  - exists e1. rewrite lookup_insert_ne; [done|]. intros <-. set_solver.
  - assert (end_of y ls ∉ sin o) as Hno.
    { intros Hin. apply elem_of_cons in Hend as [Heq|Hend]; [rewrite Heq in Hin; set_solver|].
      by apply (Hdis _ Hin). }
    destruct (decide (y = end_of y ls)) as [Heq|Hne].
    + exists (set_child d v e). rewrite <- Heq, lookup_insert_eq. split; [done|].
      rewrite child_set_ne. rewrite <- Heq in He. rewrite He in H2. injection H2 as ->.
      apply srep_insert; [|done]. by rewrite <- Heq in Hno.
    + exists e2. rewrite lookup_insert_ne by done. split; [done|]. by apply srep_insert.
  - apply IH; [|done|done]. constructor; [set_solver|done].
Qed.
Lemma links_snoc d h p ls x o e ex :
  links d h p ls → h !! end_of p ls = Some e → child d e = Some x →
  h !! x = Some ex → srep h (child (negb d) ex) o → links d h p (ls ++ [(x, o)]).
Proof.
  revert p. induction ls as [|[y q] ls IH]; intros p; simpl; [by eauto 10|].
  intros (H1 & H2 & H3) He Hc Hx Ho. split; [done|]. split; [done|]. by apply IH.
Qed.
(** Closing a spine with a tree. *)
Lemma links_build d h p ls e t :
  links d h p ls → h !! end_of p ls = Some e → srep h (child d e) t →
  ∃ e', h !! p = Some e' ∧ srep h (child d e') (build d ls t).
Proof.
  revert p. induction ls as [|[y q] ls IH]; intros p; simpl; [by eauto|].
  intros ((e1 & H1 & H1') & (e2 & H2 & H2') & H3) He Ht.
  exists e1. split; [done|]. rewrite H1'. apply srep_mk. split; [done|].
  destruct (IH y H3 He Ht) as (e' & He' & Hb). rewrite H2 in He'. injection He' as <-.
  by exists e2.
Qed.
Lemma links_delete d h p ls x :
  x ∉ p :: elems ls → links d h p ls → links d (delete x h) p ls.
Proof.
  revert p. induction ls as [|[y o] ls IH]; intros p Hx; [done|]. simpl in *.
  rewrite !elem_of_cons, elem_of_app in Hx.
  intros ((e1 & H1 & H1') & (e2 & H2 & H2') & H3). split; [|split].
  - exists e1. rewrite lookup_delete_ne by (intros ->; tauto). done.
  - exists e2. rewrite lookup_delete_ne by (intros ->; tauto). split; [done|].
    apply srep_delete; [tauto|done].
  - apply IH; [|done]. rewrite elem_of_cons. tauto.
Qed.
Lemma links_end d h p ls : is_Some (h !! p) → links d h p ls → is_Some (h !! end_of p ls).
Proof.
  revert p. induction ls as [|[y q] ls IH]; intros p Hp; simpl; [done|].
  intros (_ & (e & He & _) & H3). apply IH; [by eexists|done].
Qed.
