(* ===== verification/SplayStep.v ===== *)
(** The loop of the splay functions: what is on the spines and in the middle
    tree always makes up the sequence, and the spines hold what is beyond the
    key. *)
From stdpp Require Import gmap list.
From S2P Require Import Prelude CppHeap SplayCode SplayTree.

(** The operations of one direction, for both: [false] is the branch for
    [__comp < 0]. *)
Definition ROTATE (d : bool) (tmp : ptr) : SP unit :=
  root ← SPLAY_ROOT; v ← get (negb d) tmp; put d root v;;
  root ← SPLAY_ROOT; put (negb d) tmp root;;
  put_ROOT tmp.
Definition LINK (d : bool) (tmp : ptr) : SP ptr :=
  root ← SPLAY_ROOT; put d tmp root;;
  tmp ← SPLAY_ROOT;
  root ← SPLAY_ROOT; v ← get d root; put_ROOT v;;
  ret tmp.
Definition pick (d : bool) (lr : ptr * ptr) : ptr := if d then lr.1 else lr.2.
Definition set_pick (d : bool) (v : ptr) (lr : ptr * ptr) : ptr * ptr :=
  if d then (v, lr.2) else (lr.1, v).
Definition toward (d : bool) (c : Z) : bool := if d then c >? 0 else c <? 0.
Definition side_step (d : bool) (test : ptr → SP Z) (lr : ptr * ptr) : SP ((ptr * ptr) + (ptr * ptr)) :=
  root ← SPLAY_ROOT; tmp ← get d root;
  if negb (non_null tmp) then ret (inr lr) else
  t ← test tmp;
  stop ← (if toward d t then
            ROTATE d tmp;;
            root ← SPLAY_ROOT; c ← get d root; ret (negb (non_null c))
          else ret false);
  if stop : bool then ret (inr lr) else
  v ← LINK d (pick d lr);
  ret (inl (set_pick d v lr)).

Lemma SPLAY_step_sides test comp lr s :
  SPLAY_step test comp lr s =
  (if comp <? 0 then side_step false test lr else
   if comp >? 0 then side_step true test lr else ret (inl lr)) s.
Proof.
  destruct lr as [lft rgt]. unfold SPLAY_step. destruct (comp <? 0); [done|]. by destruct (comp >? 0).
Qed.

Section loop.
(** The sign that stands for a comparison of the key with an element. *)
Context (sg : loc → Z).

Definition beyond (d : bool) (y : loc) : Prop := if d then sg y > 0 else sg y < 0.
(** The signs fall along the sequence, strictly around 0. *)
Definition falling (l0 : list loc) : Prop := ∀ l1 y l2, l0 = l1 ++ y :: l2 →
  (sg y ≤ 0 → ∀ z, z ∈ l2 → sg z < 0) ∧ (0 ≤ sg y → ∀ z, z ∈ l1 → sg z > 0).

Record sp_inv (h0 : gmap loc spl_entry) (nd : loc) (l0 : list loc) (s : spl_state)
    (sp : bool → spine) (t : stree) : Prop := {
  si_nd : is_Some (spl_heap s !! nd);
  si_links d : links d (spl_heap s) nd (sp d);
  si_rep : srep (spl_heap s) (sph_root s) t;
  si_seq : sinS true (sp true) ++ sin t ++ sinS false (sp false) = l0;
  si_beyond d y : y ∈ sinS d (sp d) → beyond d y;
  si_frame y : y ∉ nd :: l0 → spl_heap s !! y = h0 !! y
}.

(** The two spines and the tree, apart. *)
Lemma si_nodup h0 nd l0 s sp t d :
  NoDup (nd :: l0) → sp_inv h0 nd l0 s sp t →
  NoDup (nd :: elems (sp d) ++ elems (sp (negb d)) ++ sin t).
Proof.
  intros Hnd Hi. assert (nd :: l0 ≡ₚ nd :: elems (sp d) ++ elems (sp (negb d)) ++ sin t) as <-; [|done].
  rewrite <- (si_seq _ _ _ _ _ _ Hi). f_equiv.
  destruct d; simpl; rewrite (elems_sinS true (sp true)), (elems_sinS false (sp false)).
  - f_equiv. apply Permutation_app_comm.
  - rewrite (Permutation_app_comm (sinS false _)), <- !(assoc_L (++)). done.
Qed.

(** What is beyond an element in its direction. *)
Lemma beyond_outer h0 nd l0 s sp d i x o y :
  falling l0 → sp_inv h0 nd l0 s sp (mk d i x o) → beyond d x → y ∈ x :: sin o → beyond d y.
Proof.
  intros Hf Hi Hx [->|Hy]%elem_of_cons; [done|].
  pose proof (si_seq _ _ _ _ _ _ Hi) as Hseq.
  destruct d; simpl in *.
  - destruct (Hf (sinS true (sp true) ++ sin o) x (sin i ++ sinS false (sp false))) as [_ Hg].
    { by rewrite <- Hseq, <- !(assoc_L (++)). }
    apply Hg; [lia|]. set_solver.
  - destruct (Hf (sinS true (sp true) ++ sin i) x (sin o ++ sinS false (sp false))) as [Hg _].
    { by rewrite <- Hseq, <- !(assoc_L (++)). }
    apply Hg; [lia|]. set_solver.
Qed.

Lemma wp_ROTATE h0 nd l0 s sp d i x o y m (Q : unit → spl_state → Prop) :
  NoDup (nd :: l0) → sp_inv h0 nd l0 s sp (mk d (mk d i y m) x o) →
  (∀ s', sp_inv h0 nd l0 s' sp (mk d i y (mk d m x o)) → Q tt s') →
  wp (ROTATE d (Some y)) s Q.
Proof.
  intros Hnd Hi HQ.
  assert (∀ d', x ∉ nd :: elems (sp d') ∧ y ∉ nd :: elems (sp d')) as Hout.
  { intros d'. pose proof (si_nodup _ _ _ _ _ _ d' Hnd Hi) as Hd.
    rewrite app_assoc, app_comm_cons in Hd. apply NoDup_app in Hd as (_ & Hd & _).
    rewrite app_comm_cons in Hd. setoid_rewrite elem_of_app in Hd. setoid_rewrite sin_mk in Hd.
    setoid_rewrite sin_mk in Hd. split; intros Hin; eapply Hd; [by left|set_solver|by left|set_solver]. }
  pose proof (si_nodup _ _ _ _ _ _ d Hnd Hi) as Ht.
  rewrite app_assoc, app_comm_cons in Ht. apply NoDup_app in Ht as (_ & _ & Ht).
  rewrite sin_mk in Ht. setoid_rewrite sin_mk in Ht.
  destruct Hi as [Hnd' Hl Hr Hseq Hb Hfr].
  apply srep_mk in Hr as (Hroot & ex & Hx & Hi' & Ho).
  apply srep_mk in Hi' as (Hc & ey & Hy & Hii & Hm).
  apply NoDup_cons in Ht as [Hxn Ht]. apply NoDup_app in Ht as (Ht1 & Hdis & Hno).
  apply NoDup_cons in Ht1 as [Hyn Ht1]. apply NoDup_app in Ht1 as (Hni & Hdis' & Hnm).
  assert (x ≠ y) as Hxy by set_solver.
  unfold ROTATE, SPLAY_ROOT, get, put, put_ROOT. repeat wp_base. rewrite Hroot.
  repeat heap_step. rewrite Hroot. repeat heap_step. apply HQ.
  constructor; simpl.
  - destruct (decide (y = nd)) as [->|]; [rewrite lookup_insert_eq; by eexists|].
    rewrite lookup_insert_ne by done.
    destruct (decide (x = nd)) as [->|]; [rewrite lookup_insert_eq; by eexists|]. by rewrite lookup_insert_ne.
  - intros d'. destruct (Hout d') as [H1 H2]. apply links_insert; [done|]. by apply links_insert.
  - apply srep_mk. split; [done|]. eexists. split; [apply lookup_insert_eq|].
    rewrite child_set_ne'. split.
    + apply srep_insert; [set_solver|]. apply srep_insert; [set_solver|done].
    + rewrite child_set. apply srep_mk. split; [done|]. eexists.
      split; [rewrite lookup_insert_ne by done; apply lookup_insert_eq|].
      rewrite child_set, child_set_ne. split.
      * apply srep_insert; [set_solver|]. apply srep_insert; [set_solver|done].
      * apply srep_insert; [set_solver|]. apply srep_insert; [set_solver|done].
  - rewrite <- Hseq. destruct d; simpl; repeat (rewrite <- (assoc_L (++)); simpl); done.
  - done.
  - intros z Hz. assert (x ∈ l0 ∧ y ∈ l0) as [Hxl Hyl].
    { rewrite <- Hseq. split; rewrite !elem_of_app; right; left; rewrite sin_mk; [by left|].
      right. apply elem_of_app. left. rewrite sin_mk. by left. }
    rewrite !lookup_insert_ne by set_solver. by apply Hfr.
Qed.

(** One more node on the spine of direction [d]. *)
Definition grow (d : bool) (x : loc) (o : stree) (sp : bool → spine) : bool → spine :=
  λ d', if Bool.eqb d d' then sp d' ++ [(x, o)] else sp d'.
Definition open_ends (nd : loc) (sp : bool → spine) : ptr * ptr :=
  (Some (end_of nd (sp true)), Some (end_of nd (sp false))).
Lemma grow_same d x o sp : grow d x o sp d = sp d ++ [(x, o)].
Proof. unfold grow. by rewrite Bool.eqb_reflx. Qed.
Lemma grow_other d x o sp : grow d x o sp (negb d) = sp (negb d).
Proof. by destruct d. Qed.
Lemma set_pick_grow d nd x o sp :
  set_pick d (Some x) (open_ends nd sp) = open_ends nd (grow d x o sp).
Proof. destruct d; unfold open_ends, grow; simpl; by rewrite end_of_snoc. Qed.

Lemma wp_LINK h0 nd l0 s sp d i x o (Q : ptr → spl_state → Prop) :
  NoDup (nd :: l0) → falling l0 → sp_inv h0 nd l0 s sp (mk d i x o) → beyond d x →
  (∀ s', sp_inv h0 nd l0 s' (grow d x o sp) i → Q (Some x) s') →
  wp (LINK d (pick d (open_ends nd sp))) s Q.
Proof.
  intros Hnd Hfall Hi Hbx HQ.
  pose proof (si_nodup _ _ _ _ _ _ d Hnd Hi) as Hd.
  pose proof (λ y, beyond_outer h0 nd l0 s sp d i x o y Hfall Hi Hbx) as Hbo.
  destruct Hi as [Hnd' Hl Hr Hseq Hb Hfr].
  apply srep_mk in Hr as (Hroot & ex & Hx & Hii & Ho).
  destruct (links_end d _ _ _ Hnd' (Hl d)) as [eq Heq]. set (q := end_of nd (sp d)) in *.
  assert (pick d (open_ends nd sp) = Some q) as -> by (unfold q; by destruct d).
  setoid_rewrite sin_mk in Hd.
  assert (q ∈ nd :: elems (sp d)) as Hq by apply end_of_elem.
  pose proof Hd as Hd'. rewrite app_comm_cons in Hd. apply NoDup_app in Hd as (Hd1 & Hdis1 & Hd2).
  apply NoDup_app in Hd2 as (_ & Hdis2 & Hd3).
  apply NoDup_cons in Hd3 as [Hxn Hd3].
  assert (x ≠ q) as Hxq by (intros ->; apply (Hdis1 q Hq); set_solver).
  assert (q ∉ sin i ∧ q ∉ sin o) as [Hqi Hqo] by (split; intros ?; apply (Hdis1 q Hq); set_solver).
  unfold LINK, SPLAY_ROOT, get, put, put_ROOT. repeat wp_base. rewrite Hroot.
  repeat heap_step. rewrite Hroot. repeat heap_step. apply HQ.
  constructor; simpl.
  - destruct (decide (q = nd)) as [Hqn|]; [rewrite Hqn, lookup_insert_eq; by eexists|]. by rewrite lookup_insert_ne.
  - intros d'. unfold grow. destruct (Bool.eqb_spec d d') as [<-|Hdd].
    + eapply links_snoc; [by apply links_open| | | |].
      * apply lookup_insert_eq.
      * apply child_set.
      * rewrite lookup_insert_ne by done. exact Hx.
      * apply srep_insert; [done|exact Ho].
    + assert (d' = negb d) as -> by (by destruct d, d').
      destruct (decide (q = nd)) as [->|Hqn].
      * replace (set_child d (Some x) eq) with (set_child (negb (negb d)) (Some x) eq) by (by rewrite negb_involutive).
        apply links_other; [|done|apply Hl]. apply NoDup_cons in Hd' as [Hd' _]. set_solver.
      * apply links_insert; [|apply Hl]. intros [?|Hin]%elem_of_cons; [done|].
        apply (Hdis1 q Hq). set_solver.
  - apply srep_insert; done.
  - rewrite <- Hseq. unfold grow. destruct d; simpl; rewrite sinS_snoc; repeat (rewrite <- (assoc_L (++)); simpl); done.
  - intros d' y. unfold grow. destruct (Bool.eqb_spec d d') as [<-|]; [|apply Hb].
    rewrite sinS_snoc. intros Hy. assert (y ∈ sinS d (sp d) ∨ y ∈ x :: sin o) as [?|?]
      by (destruct d; set_solver); [by apply Hb|by apply Hbo].
  - intros z Hz. rewrite lookup_insert_ne; [by apply Hfr|]. intros <-. apply Hz.
    apply elem_of_cons in Hq as [->|Hq]; [by left|right].
    rewrite <- Hseq. rewrite elems_sinS in Hq. destruct d; set_solver.
Qed.

(** The step in one direction: it goes on with a smaller tree, or stops at an
    element with nothing more in that direction. *)
Lemma wp_side_step h0 nd l0 s sp d i x o test :
  NoDup (nd :: l0) → falling l0 → sp_inv h0 nd l0 s sp (mk d i x o) → beyond d x →
  (∀ y s', test (Some y) s' = Done (sg y) s') →
  wp (side_step d test (open_ends nd sp)) s (λ r s', ∃ sp' t',
    sp_inv h0 nd l0 s' sp' t' ∧
    match r with
    | inl lr => lr = open_ends nd sp' ∧ t' ≠ SLeaf ∧ (length (sin t') < length (sin (mk d i x o)))%nat
    | inr lr => lr = open_ends nd sp' ∧ ∃ x' o', t' = mk d SLeaf x' o' ∧ beyond d x'
    end).
Proof.
  intros Hnd Hfall Hi Hbx Htest. pose proof Hi as [_ _ Hr _ _ _].
  apply srep_mk in Hr as (Hroot & ex & Hx & Hii & _).
  unfold side_step, SPLAY_ROOT at 1, get at 1. repeat wp_base. rewrite Hroot. heap_step.
  destruct (child d ex) as [y|] eqn:Hc; simpl.
  2:{ apply srep_null in Hii as ->. apply wp_ret. exists sp, (mk d SLeaf x o). eauto 10. }
  apply (srep_some_mk d) in Hii as (i' & m & ->).
  wp_base. eapply wp_intro; [apply Htest|]. wp_base.
  assert (∀ s1 i1 x1 o1, sp_inv h0 nd l0 s1 sp (mk d i1 x1 o1) → beyond d x1 → i1 ≠ SLeaf →
    (length (sin i1) < length (sin (mk d (mk d i' y m) x o)))%nat →
    wp (v ← LINK d (pick d (open_ends nd sp)); ret (inl (set_pick d v (open_ends nd sp)))) s1
      (λ (r : (ptr * ptr) + (ptr * ptr)) s', ∃ sp' t', sp_inv h0 nd l0 s' sp' t' ∧
        match r with
        | inl lr => lr = open_ends nd sp' ∧ t' ≠ SLeaf ∧ (length (sin t') < length (sin (mk d (mk d i' y m) x o)))%nat
        | inr lr => lr = open_ends nd sp' ∧ ∃ x' o', t' = mk d SLeaf x' o' ∧ beyond d x'
        end)) as Hlink.
  { intros s1 i1 x1 o1 Hi1 Hb1 Hne Hlen. wp_base. eapply wp_LINK; [done|done|done|done|].
    intros s2 Hi2. apply wp_ret. exists (grow d x1 o1 sp), i1. split; [done|].
    split; [apply set_pick_grow|done]. }
  destruct (toward d (sg y)) eqn:Hty.
  - assert (beyond d y) as Hby by (destruct d; simpl in *; lia).
    wp_base. eapply wp_ROTATE; [done|done|]. intros s1 Hi1.
    pose proof Hi1 as [_ _ Hr1 _ _ _]. apply srep_mk in Hr1 as (Hroot1 & ey & Hy & Hii1 & _).
    unfold SPLAY_ROOT, get. repeat wp_base. rewrite Hroot1. heap_step. wp_base.
    destruct (child d ey) as [z|] eqn:Hcz; simpl.
    + eapply Hlink; [done|done| |].
      * apply (srep_some_mk d) in Hii1 as (i2 & o2 & ->). by destruct d.
      * rewrite !sin_mk_length. lia.
    + apply srep_null in Hii1 as ->. apply wp_ret. exists sp, (mk d SLeaf y (mk d m x o)). eauto 10.
  - wp_base. eapply Hlink; [done|done|by destruct d|]. rewrite (sin_mk_length d (mk d i' y m)). lia.
Qed.

(** [p]'s link in direction [d] holds a tree. *)
Definition hangs (d : bool) (h : gmap loc spl_entry) (p : loc) (t : stree) : Prop :=
  ∃ e, h !! p = Some e ∧ srep h (child d e) t.
Lemma hangs_insert d h p t y e : y ∉ p :: sin t → hangs d h p t → hangs d (<[y:=e]> h) p t.
Proof.
  intros Hy (e' & He & Ht). exists e'. rewrite elem_of_cons in Hy.
  rewrite lookup_insert_ne by (intros ->; tauto). split; [done|]. apply srep_insert; [tauto|done].
Qed.
Lemma hangs_other d h p t v e :
  p ∉ sin t → h !! p = Some e → hangs d h p t → hangs d (<[p:=set_child (negb d) v e]> h) p t.
Proof.
  intros Hp He (e' & He' & Ht). simplify_eq. exists (set_child (negb d) v e).
  rewrite lookup_insert_eq, child_set_ne'. split; [done|]. by apply srep_insert.
Qed.

(** Closing the spine of direction [d] with a tree, which leaves what hangs in
    the other direction. *)
Lemma close_spine d h p ls v t e :
  NoDup (p :: elems ls) → end_of p ls ∉ sin t → links d h p ls → h !! end_of p ls = Some e →
  srep h v t → hangs d (<[end_of p ls:=set_child d v e]> h) p (build d ls t).
Proof.
  intros Hnd Ht Hl He Hv. eapply links_build; [by apply links_open|apply lookup_insert_eq|].
  rewrite child_set. by apply srep_insert.
Qed.

(** The node, the two spines, the root and its two subtrees, apart. *)
Record apart (nd : loc) (A B C : list loc) (x : loc) (D : list loc) : Prop := {
  ap_A : NoDup (nd :: A);
  ap_B : NoDup (nd :: B);
  ap_qA q : q ∈ nd :: A → q ∉ C ∧ q ∉ D ∧ q ≠ x;
  ap_qB q : q ∈ nd :: B → q ∉ C ∧ q ∉ D ∧ q ≠ x;
  ap_AB q : q ∈ A → q ∉ nd :: B;
  ap_x : x ∉ C ∧ x ∉ D
}.
Lemma apart_intro nd A B C x D : NoDup (nd :: A ++ B ++ C ++ x :: D) → apart nd A B C x D.
Proof.
  rewrite !NoDup_cons, !NoDup_app, NoDup_cons, !not_elem_of_app, not_elem_of_cons.
  intros ((HnA & HnB & HnC & Hnx & HnD) & HA & HAr & HB & HBr & HC & HCr & HxD & HD).
  assert (∀ q, q ∈ A → q ∉ B ∧ q ∉ C ∧ q ≠ x ∧ q ∉ D) as HA'.
  { intros q Hq. specialize (HAr q Hq). by rewrite !not_elem_of_app, not_elem_of_cons in HAr. }
  assert (∀ q, q ∈ B → q ∉ C ∧ q ≠ x ∧ q ∉ D) as HB'.
  { intros q Hq. specialize (HBr q Hq). by rewrite !not_elem_of_app, not_elem_of_cons in HBr. }
  clear HAr HBr. constructor.
  - by constructor.
  - by constructor.
  - intros q [->|Hq]%elem_of_cons; [done|]. naive_solver.
  - intros q [->|Hq]%elem_of_cons; [done|]. naive_solver.
  - intros q Hq. apply not_elem_of_cons. split; [by intros ->|]. by apply HA'.
  - split; [|done]. intros Hx. apply (HCr x Hx). by left.
Qed.

(** The tree that is left when the spines are closed. *)
Definition assembled (sp : bool → spine) (l : stree) (x : loc) (r : stree) : stree :=
  SNode (build true (sp true) l) x (build false (sp false) r).
Lemma sin_assembled h0 nd l0 s sp l x r :
  sp_inv h0 nd l0 s sp (SNode l x r) → sin (assembled sp l x r) = l0.
Proof.
  intros Hi. rewrite <- (si_seq _ _ _ _ _ _ Hi). simpl. rewrite !sin_build.
  repeat (rewrite <- (assoc_L (++)); simpl). done.
Qed.

Lemma elem_build d ls t y : y ∈ sin (build d ls t) ↔ y ∈ elems ls ∨ y ∈ sin t.
Proof. rewrite sin_build, (elems_sinS d). destruct d; rewrite elem_of_app; tauto. Qed.

(** Closing both spines, in the order of the code: what hangs on the node
    then, while the root is as it was. *)
Lemma close_both nd h sp l x r pl pr :
  (∀ d, links d h nd (sp d)) → is_Some (h !! nd) → h !! x = Some (SPE pl pr) →
  srep h pl l → srep h pr r → apart nd (elems (sp true)) (elems (sp false)) (sin l) x (sin r) →
  let qL := end_of nd (sp true) in let qR := end_of nd (sp false) in
  ∃ eL eR, h !! qL = Some eL ∧
    let h1 := <[qL:=set_child true pl eL]> h in h1 !! qR = Some eR ∧ h1 !! x = Some (SPE pl pr) ∧
    let h2 := <[qR:=set_child false pr eR]> h1 in h2 !! x = Some (SPE pl pr) ∧
    ∃ e, h2 !! nd = Some e ∧ srep h2 (child true e) (build true (sp true) l) ∧
      srep h2 (child false e) (build false (sp false) r) ∧ ∀ y, y ≠ qL → y ≠ qR → h2 !! y = h !! y.
Proof.
  intros Hl Hsn Hx Hrl Hrr [HA HB HqA HqB HAB [HxC HxD]] qL qR.
  destruct (links_end true _ _ _ Hsn (Hl true)) as [eL HeL]. fold qL in HeL.
  pose proof (end_of_elem nd (sp true)) as HqL. pose proof (end_of_elem nd (sp false)) as HqR.
  fold qL in HqL. fold qR in HqR.
  destruct (HqA qL HqL) as (HqLC & HqLD & HqLx). destruct (HqB qR HqR) as (HqRC & HqRD & HqRx).
  set (h1 := <[qL:=set_child true pl eL]> h).
  assert (hangs true h1 nd (build true (sp true) l)) as H1 by (by apply close_spine).
  assert (links false h1 nd (sp false)) as Hl1.
  { unfold h1. destruct (decide (qL = nd)) as [Hq|Hq].
    - rewrite Hq in *. change (set_child true) with (set_child (negb false)).
      apply links_other; [by apply NoDup_cons in HB as []|done|apply Hl].
    - apply links_insert; [|apply Hl]. apply HAB. by apply elem_of_cons in HqL as [?|?]. }
  assert (is_Some (h1 !! nd)) as Hsn1 by (destruct H1 as (e & He & _); by eexists).
  destruct (links_end false _ _ _ Hsn1 Hl1) as [eR HeR]. fold qR in HeR.
  assert (h1 !! x = Some (SPE pl pr)) as Hx1 by (unfold h1; by rewrite lookup_insert_ne).
  assert (srep h1 pr r) as Hrr1 by (by apply srep_insert).
  exists eL, eR. split; [done|]. split; [done|]. split; [done|].
  set (h2 := <[qR:=set_child false pr eR]> h1).
  assert (hangs false h2 nd (build false (sp false) r)) as (e & He & Hb2) by (by apply close_spine).
  assert (hangs true h2 nd (build true (sp true) l)) as (e' & He' & Hb1).
  { unfold h2. destruct (decide (qR = nd)) as [Hq|Hq].
    - rewrite Hq in *. change (set_child false) with (set_child (negb true)).
      apply hangs_other; [|done|done]. rewrite elem_build. apply NoDup_cons in HA as [HnA _]. tauto.
    - apply hangs_insert; [|done]. rewrite elem_of_cons, elem_build.
      intros [?|[Hin|?]]; [done| |done]. by apply HAB in Hin. }
  simplify_eq. split; [unfold h2; by rewrite lookup_insert_ne|]. exists e.
  split_and!; [done..|]. intros y HyL HyR. unfold h2, h1. by rewrite !lookup_insert_ne.
Qed.

Lemma wp_ASSEMBLE h0 nd l0 s sp l x r (Q : unit → spl_state → Prop) :
  NoDup (nd :: l0) → sp_inv h0 nd l0 s sp (SNode l x r) →
  (∀ s', srep (spl_heap s') (sph_root s') (assembled sp l x r) →
    spl_heap s' !! nd = None → (∀ y, y ∉ nd :: l0 → spl_heap s' !! y = h0 !! y) → Q tt s') →
  wp (SPLAY_ASSEMBLE (Some nd) (Some (end_of nd (sp true))) (Some (end_of nd (sp false)));; delete_ (Some nd)) s Q.
Proof.
  intros Hnd Hi HQ. pose proof (sin_assembled _ _ _ _ _ _ _ _ Hi) as Hsin.
  pose proof (si_nodup _ _ _ _ _ _ true Hnd Hi) as Hd. simpl in Hd.
  destruct Hi as [Hsn Hl Hr Hseq _ Hfr]. destruct Hr as (Hroot & pl & pr & Hx & Hrl & Hrr).
  apply apart_intro in Hd.
  destruct (close_both nd (spl_heap s) sp l x r pl pr Hl Hsn Hx Hrl Hrr Hd)
    as (eL & eR & HeL & HeR & Hx1 & Hx2 & e & He & Hb1 & Hb2 & Hfr2).
  subst l0. destruct Hd as [HA HB HqA HqB _ [HxC HxD]]. destruct (HqA nd ltac:(by left)) as (HnC & HnD & Hnx).
  pose proof (end_of_elem nd (sp true)) as HqL. pose proof (end_of_elem nd (sp false)) as HqR.
  set (qL := end_of nd (sp true)) in *. set (qR := end_of nd (sp false)) in *.
  unfold SPLAY_ASSEMBLE, SPLAY_ROOT, SPLAY_LEFT, SPLAY_RIGHT, put_LEFT, put_RIGHT.
  repeat wp_base. rewrite Hroot. heap_step. wp_base. eapply wp_store; [exact HeL|].
  set (h1 := <[qL:=_]> (heap_of _)). change (with_heap _ s) with (SPS (sph_root s) h1).
  do 2 wp_base. simpl. rewrite Hroot. wp_base. eapply wp_field; [exact Hx1|]. wp_base.
  eapply wp_store; [exact HeR|]. set (h2 := <[qR:=_]> (heap_of _)). change (with_heap _ _) with (SPS (Some x) h2).
  change (h2 !! x = Some (SPE pl pr)) in Hx2. change (h2 !! nd = Some e) in He.
  change (srep h2 (child true e) (build true (sp true) l)) in Hb1.
  change (srep h2 (child false e) (build false (sp false) r)) in Hb2.
  change (∀ y, y ≠ qL → y ≠ qR → h2 !! y = spl_heap s !! y) in Hfr2.
  clearbody h2.
  do 2 wp_base. wp_base. eapply wp_field; [exact He|]. wp_base. eapply wp_store; [exact Hx2|].
  set (h3 := <[x:=_]> (heap_of _)). change (with_heap _ _) with (SPS (Some x) h3).
  assert (h3 !! nd = Some e) as He3 by (unfold h3; by rewrite lookup_insert_ne).
  assert (h3 !! x = Some (SPE (child true e) pr)) as Hx3 by apply lookup_insert_eq.
  do 2 wp_base. wp_base. eapply wp_field; [exact He3|]. eapply wp_store; [exact Hx3|].
  set (h4 := <[x:=_]> (heap_of _)). change (with_heap _ _) with (SPS (Some x) h4).
  assert (h4 !! nd = Some e) as He4 by (unfold h4; simpl; by rewrite lookup_insert_ne).
  wp_base. eapply wp_load; [exact He4|]. wp_base. lazymatch goal with |- Q tt ?s' => change s' with (SPS (Some x) (delete nd h4)) end.
  assert (x ∉ sin (build true (sp true) l) ∧ x ∉ sin (build false (sp false) r)) as [HxbL HxbR].
  { rewrite !elem_build. split; intros [Hin|Hin]; try done.
    - by destruct (HqA x ltac:(by right)) as (_ & _ & ?).
    - by destruct (HqB x ltac:(by right)) as (_ & _ & ?). }
  apply HQ; simpl.
  - split; [done|]. exists (spe_right e), (spe_left e).
    rewrite lookup_delete_ne by done. split; [apply lookup_insert_eq|].
    apply NoDup_cons in HA as [HnA _]. apply NoDup_cons in HB as [HnB _].
    split; (apply srep_delete; [rewrite elem_build; tauto|]); apply srep_insert; [done| |done|];
      by apply srep_insert.
  - apply lookup_delete_eq.
  - intros y Hy. rewrite not_elem_of_cons in Hy. destruct Hy as [Hyn Hy].
    simpl in Hy. rewrite !not_elem_of_app, not_elem_of_cons in Hy.
    rewrite lookup_delete_ne by done. unfold h4, h3. simpl. rewrite !lookup_insert_ne by naive_solver.
    rewrite Hfr2; [apply Hfr; simpl; rewrite not_elem_of_cons, !not_elem_of_app, not_elem_of_cons; tauto|..].
    + intros Hyq. apply elem_of_cons in HqL as [?|HqL]; [congruence|].
      rewrite (elems_sinS true), <- Hyq in HqL. tauto.
    + intros Hyq. apply elem_of_cons in HqR as [?|HqR]; [congruence|].
      rewrite (elems_sinS false), <- Hyq in HqR. tauto.
Qed.
End loop.
