(* ===== verification/SplayProps.v ===== *)
(** The splay tree implements the operations of a sorted sequence. *)
From stdpp Require Import gmap list sorting.
From S2P Require Import Prelude CppHeap RBSpec SplayCode SplayTree SplayStep.

(** * Splaying *)

(** The root after splaying for the signs [sg]: what is left of it is beyond
    the key on the left, what is right of it on the right. *)
Definition splayed (sg : loc → Z) (l0 : list loc) (s s' : spl_state) : Prop :=
  ∃ l x r, srep (spl_heap s') (sph_root s') (SNode l x r) ∧ sin l ++ x :: sin r = l0 ∧
    (∀ y, y ∈ sin l → sg y > 0) ∧ (∀ y, y ∈ sin r → sg y < 0) ∧
    ∀ y, y ∉ l0 → spl_heap s' !! y = spl_heap s !! y.

Section splaying.
Context {AL : Allocator}.

(** The loops of [name##_SPLAY] and [name##_SPLAY_MINMAX] are alike but for how
    they find the sign of an element. *)
Definition finished (sg : loc → Z) (h0 : gmap loc spl_entry) nd l0 lr (s : spl_state) : Prop :=
  ∃ sp l x r, sp_inv sg h0 nd l0 s sp (SNode l x r) ∧ lr = open_ends nd sp ∧
    (∀ y, y ∈ sin l → sg y > 0) ∧ (∀ y, y ∈ sin r → sg y < 0).
Definition good_body (sg : loc → Z) (l0 : list loc) (body : ptr * ptr → SP ((ptr * ptr) + (ptr * ptr))) : Prop :=
  ∀ h0 nd s sp t, NoDup (nd :: l0) → sp_inv sg h0 nd l0 s sp t → t ≠ SLeaf →
    wp (body (open_ends nd sp)) s (λ r s',
      match r with
      | inl lr => ∃ sp' t', sp_inv sg h0 nd l0 s' sp' t' ∧ lr = open_ends nd sp' ∧ t' ≠ SLeaf ∧
          (length (sin t') < length (sin t))%nat
      | inr lr => finished sg h0 nd l0 lr s'
      end).

Lemma wp_splaying sg l0 body fuel s t :
  good_body sg l0 body → srep (spl_heap s) (sph_root s) t → sin t = l0 → l0 ≠ [] → NoDup l0 →
  (length l0 < fuel)%nat →
  wp (node ← new (SPE None None);
      '(lft, rgt) ← loop fuel body (node, node);
      SPLAY_ASSEMBLE node lft rgt;; delete_ node) s (λ _ s', splayed sg l0 s s').
Proof.
  intros Hbody Hr Ht Hne Hnd Hfuel. apply wp_bind, wp_new. intros nd Hfresh. simpl in *.
  assert (nd ∉ l0) as Hn.
  { intros Hin. subst l0. destruct (srep_dom _ _ _ _ Hr Hin). congruence. }
  assert (NoDup (nd :: l0)) as Hnd' by (by constructor).
  set (s1 := SPS _ _). apply wp_bind.
  apply (wp_loop (λ n lr s', ∃ sp t', sp_inv sg (spl_heap s) nd l0 s' sp t' ∧ lr = open_ends nd sp ∧
    t' ≠ SLeaf ∧ n = length (sin t')) body) with (n := length l0); [| |done].
  - intros n lr s2 (sp & t' & Hi & -> & Ht' & ->).
    eapply wp_mono; [eapply Hbody; done|]. intros [lr'|lr'] s3; simpl.
    + intros (sp' & t2 & Hi2 & -> & Ht2 & Hlt). eauto 10.
    + intros (sp' & l & x & r & Hi2 & -> & Hl & Hrr). unfold open_ends.
      eapply wp_ASSEMBLE; [done|done|]. intros s4 Hr4 Hn4 Hfr4.
      pose proof (sin_assembled _ _ _ _ _ _ _ _ _ Hi2) as Hsin. simpl in Hsin. destruct Hi2.
      eexists _, x, _. split; [exact Hr4|]. split; [exact Hsin|]. split; [|split].
      * intros y. rewrite sin_build, elem_of_app. intros [Hy|Hy]; [|by apply Hl].
        by apply (si_beyond true).
      * intros y. rewrite sin_build, elem_of_app. intros [Hy|Hy]; [by apply Hrr|].
        by apply (si_beyond false).
      * intros y Hy. destruct (decide (y = nd)) as [->|]; [by rewrite Hn4|]. apply Hfr4. by apply not_elem_of_cons.
  - exists (λ _, []), t. split; [|split; [done|split; [by intros ->|by rewrite Ht]]].
    constructor; simpl.
    + rewrite lookup_insert_eq. by eexists.
    + done.
    + apply srep_insert; [by rewrite Ht|done].
    + by rewrite app_nil_r.
    + by intros [] y ?%not_elem_of_nil.
    + intros y [Hy _]%not_elem_of_cons. by rewrite lookup_insert_ne.
Qed.

(** One turn, once the sign of the root is known not to be 0. *)
Lemma wp_turn sg h0 nd l0 s sp l x r test :
  NoDup (nd :: l0) → falling sg l0 → sp_inv sg h0 nd l0 s sp (SNode l x r) → sg x ≠ 0 →
  (∀ y s', test (Some y) s' = Done (sg y) s') →
  wp (SPLAY_step test (sg x) (open_ends nd sp)) s (λ q s',
      match q with
      | inl lr => ∃ sp' t', sp_inv sg h0 nd l0 s' sp' t' ∧ lr = open_ends nd sp' ∧ t' ≠ SLeaf ∧
          (length (sin t') < length (sin (SNode l x r)))%nat
      | inr lr => finished sg h0 nd l0 lr s'
      end).
Proof.
  intros Hnd Hfall Hi Hx Htest.
  assert (∀ d i o, SNode l x r = mk d i x o → beyond sg d x →
    wp (side_step d test (open_ends nd sp)) s (λ q s',
      match q with
      | inl lr => ∃ sp' t', sp_inv sg h0 nd l0 s' sp' t' ∧ lr = open_ends nd sp' ∧ t' ≠ SLeaf ∧
          (length (sin t') < length (sin (SNode l x r)))%nat
      | inr lr => finished sg h0 nd l0 lr s'
      end)) as Hside.
  { intros d i o Hmk Hb. rewrite Hmk in *. eapply wp_mono; [by eapply wp_side_step|].
    intros [lr|lr] s' (sp' & t' & Hi' & Hq); [by exists sp', t'|].
    destruct Hq as (-> & x' & o' & -> & Hb').
    pose proof (λ y Hy, beyond_outer sg _ _ _ _ _ _ _ _ _ y Hfall Hi' Hb' (list_elem_of_further y x' _ Hy)) as Ho.
    destruct d; simpl in *.
    - exists sp', o', x', SLeaf. split_and!; [done|done|exact Ho|]. by intros y ?%not_elem_of_nil.
    - exists sp', SLeaf, x', o'. split_and!; [done|done| |exact Ho]. by intros y ?%not_elem_of_nil. }
  unfold wp in *. rewrite SPLAY_step_sides.
  destruct (Z.ltb_spec (sg x) 0) as [Hlt|Hge]; [by apply (Hside false l r)|].
  rewrite Z.gtb_ltb, (proj2 (Z.ltb_lt _ _)) by lia. apply (Hside true r l); [done|simpl; lia].
Qed.

Lemma sin_nonempty t : t ≠ SLeaf → sin t ≠ [].
Proof. destruct t; [done|]. by intros _ [_ [=]]%app_eq_nil. Qed.
Lemma srep_root h p t : srep h p t → t ≠ SLeaf → ∃ l x r, t = SNode l x r ∧ p = Some x.
Proof. destruct t as [|l x r]; [done|]. intros [-> _] _. eauto. Qed.

Section ordered.
Context (cmp : loc → loc → Z) `{!CmpOrder cmp}.

Lemma cmp_refl x : cmp x x = 0.
Proof using CmpOrder0. pose proof (cmp_flip x x). lia. Qed.
Lemma falling_cmp x l0 : increasing cmp l0 → falling (cmp x) l0.
Proof using CmpOrder0.
  intros Hs l1 y l2 ->. unfold increasing in Hs. apply StronglySorted_app in Hs as (H1 & _ & Hs).
  apply StronglySorted_inv in Hs as [_ Hs]. rewrite List.Forall_forall in Hs. split.
  - intros Hy z Hz%list_elem_of_In%Hs. destruct (decide (cmp x y = 0)).
    + by apply (clt_eq_l cmp x y z).
    + apply (clt_trans cmp x y z); [unfold clt; lia|done].
  - intros Hy z Hz. assert (clt cmp z y) as Hzy by (apply H1; [done|by left]).
    destruct (decide (cmp x y = 0)); [by apply (clt_eq_gt cmp x y z)|].
    apply cmp_flip. apply (clt_trans cmp z y x); [done|]. apply cmp_flip. lia.
Qed.

(** The sequence that a head holds. *)
Definition spl_model (s : spl_state) (l : list loc) : Prop :=
  ∃ t, srep (spl_heap s) (sph_root s) t ∧ sin t = l ∧ increasing cmp l.

Lemma increasing_nodup l : increasing cmp l → NoDup l.
Proof using CmpOrder0.
  induction l as [|x l IH]; [constructor|]. intros [Hs Hx]%StronglySorted_inv.
  constructor; [|by apply IH]. intros Hin%list_elem_of_In. rewrite List.Forall_forall in Hx.
  apply Hx in Hin. unfold clt in Hin. pose proof (cmp_refl x). lia.
Qed.

Lemma wp_SPLAY fuel x s t :
  srep (spl_heap s) (sph_root s) t → t ≠ SLeaf → increasing cmp (sin t) → (length (sin t) < fuel)%nat →
  wp (SPLAY cmp fuel (Some x)) s (λ _ s', splayed (cmp x) (sin t) s s').
Proof using CmpOrder0.
  intros Hr Ht Hs Hfuel. apply (wp_splaying _ (sin t) _ _ _ t); try done.
  - intros h0 nd s1 sp t1 Hnd Hi Ht1. pose proof Hi as [_ _ Hr1 _ _ _].
    destruct (srep_root _ _ _ Hr1 Ht1) as (l & y & r & -> & Hroot).
    unfold SPLAY_ROOT. repeat wp_base. rewrite Hroot. unfold cmpM. repeat wp_base.
    destruct (Z.eqb_spec (cmp x y) 0) as [E|E].
    + apply wp_ret. exists sp, l, y, r. split; [done|]. split; [done|].
      pose proof (si_seq _ _ _ _ _ _ _ Hi) as Hseq. simpl in Hseq.
      destruct (falling_cmp x (sin t) Hs (sinS true (sp true) ++ sin l) y (sin r ++ sinS false (sp false)))
        as [H1 H2]; [rewrite <- Hseq; by repeat (rewrite <- (assoc_L (++)); simpl)|].
      split; intros z Hz; [apply H2|apply H1]; try lia; apply elem_of_app; [by right|by left].
    + eapply (wp_turn (cmp x)); try done. by apply falling_cmp.
  - by apply sin_nonempty.
  - by apply increasing_nodup.
Qed.

Lemma wp_SPLAY_MINMAX fuel c s t :
  c ≠ 0 → srep (spl_heap s) (sph_root s) t → t ≠ SLeaf → increasing cmp (sin t) → (length (sin t) < fuel)%nat →
  wp (SPLAY_MINMAX fuel c) s (λ _ s', splayed (λ _, c) (sin t) s s').
Proof using CmpOrder0.
  intros Hc Hr Ht Hs Hfuel. apply (wp_splaying _ (sin t) _ _ _ t); try done.
  - intros h0 nd s1 sp t1 Hnd Hi Ht1. pose proof Hi as [_ _ Hr1 _ _ _].
    destruct (srep_root _ _ _ Hr1 Ht1) as (l & y & r & -> & Hroot).
    eapply (wp_turn (λ _, c)); try done. intros l1 z l2 _. split; intros; lia.
  - by apply sin_nonempty.
  - by apply increasing_nodup.
Qed.

(** Splaying a sequence that is not empty. *)
Lemma splayed_model sg l s s' : increasing cmp l → splayed sg l s s' → spl_model s' l.
Proof. intros Hl (a & x & b & Hr & Hs & _). by exists (SNode a x b). Qed.
Lemma model_empty s l : spl_model s l → (sph_root s = None ↔ l = []).
Proof.
  intros (t & Hr & <- & _). split.
  - intros Hn. rewrite Hn in Hr. by apply srep_null in Hr as ->.
  - intros Ht. destruct t; [done|]. by apply app_eq_nil in Ht as [_ [=]].
Qed.
Lemma wp_EMPTY s l (Q : bool → spl_state → Prop) :
  spl_model s l → Q (bool_decide (l = [])) s → wp SPLAY_EMPTY s Q.
Proof.
  intros Hm HQ. unfold SPLAY_EMPTY, SPLAY_ROOT. repeat wp_base.
  pose proof (model_empty _ _ Hm) as Hn. destruct (sph_root s) as [x|]; simpl.
  - rewrite bool_decide_false in HQ; [done|]. by intros Hl%Hn.
  - rewrite bool_decide_true in HQ; [done|]. by apply Hn.
Qed.
End ordered.
End splaying.
