(* ===== verification/SplayOps.v ===== *)
(** What the functions of a splay tree do to the sequence it holds. *)
From stdpp Require Import gmap list sorting.
From S2P Require Import Prelude CppHeap RBSpec SplayCode SplayTree SplayStep SplayProps.

(** Nothing that was allocated goes away. *)
Definition keeps (s s' : spl_state) : Prop :=
  ∀ y, is_Some (spl_heap s !! y) → is_Some (spl_heap s' !! y).
Lemma keeps_refl s : keeps s s.
Proof. by intros y. Qed.
Lemma keeps_trans s1 s2 s3 : keeps s1 s2 → keeps s2 s3 → keeps s1 s3.
Proof. unfold keeps. auto. Qed.
Ltac grows := intros ? ?; simpl; repeat (apply lookup_insert_is_Some'; right); done.

Lemma srep_frame h h' p t : srep h p t → (∀ y, y ∈ sin t → h' !! y = h !! y) → srep h' p t.
Proof.
  revert p. induction t as [|l IHl x r IHr]; intros p; [done|].
  intros (-> & pl & pr & Hx & Hl & Hr) Hf. simpl in Hf. setoid_rewrite elem_of_app in Hf.
  setoid_rewrite elem_of_cons in Hf. split; [done|]. exists pl, pr. split_and!.
  - rewrite Hf; [done|auto].
  - apply IHl; [done|]. auto.
  - apply IHr; [done|]. auto.
Qed.

Section ops.
Context {AL : Allocator} (cmp : loc → loc → Z) `{!CmpOrder cmp}.
Implicit Types s : spl_state.
Implicit Types l : list loc.

(** The root after splaying for [x]. *)
Record at_root (x : loc) l s s' (a : stree) (y : loc) (b : stree) (pl pr : ptr) : Prop := {
  ar_root : sph_root s' = Some y;
  ar_node : spl_heap s' !! y = Some (SPE pl pr);
  ar_left : srep (spl_heap s') pl a;
  ar_right : srep (spl_heap s') pr b;
  ar_seq : l = sin a ++ y :: sin b;
  ar_before : ∀ z, z ∈ sin a → cmp x z > 0;
  ar_after : ∀ z, z ∈ sin b → cmp x z < 0;
  ar_keeps : keeps s s';
  ar_frame : ∀ z, z ∉ l → spl_heap s' !! z = spl_heap s !! z
}.

Lemma splayed_keeps sg l s s' : splayed sg l s s' → keeps s s'.
Proof.
  intros (a & y & b & Hr & <- & _ & _ & Hf) z Hz.
  destruct (decide (z ∈ sin a ++ y :: sin b)) as [Hin|Hin]; [|by rewrite Hf].
  by apply (srep_dom _ _ (SNode a y b) z) in Hr.
Qed.
Lemma at_root_model x l s s' a y b pl pr :
  increasing cmp l → at_root x l s s' a y b pl pr → spl_model cmp s' l.
Proof.
  intros Hl []. exists (SNode a y b). split; [|by subst]. split; [done|]. eauto.
Qed.
Lemma at_root_find x l s s' a y b pl pr :
  at_root x l s s' a y b pl pr → spec_find cmp x l = if cmp x y =? 0 then Some y else None.
Proof.
  intros []. subst. destruct (Z.eqb_spec (cmp x y) 0) as [E|E]; [by apply spec_find_hit|].
  apply find_none_all. intros z. rewrite elem_of_app, elem_of_cons.
  intros [Hz|[->|Hz]]; apply Z.eqb_neq; [apply ar_before0 in Hz|..|apply ar_after0 in Hz]; lia.
Qed.

Lemma wp_SPLAY_at fuel x s l (Q : unit → spl_state → Prop) :
  spl_model cmp s l → l ≠ [] → (length l < fuel)%nat →
  (∀ a y b pl pr s', at_root x l s s' a y b pl pr → Q tt s') →
  wp (SPLAY cmp fuel (Some x)) s Q.
Proof.
  intros (t & Hr & <- & Hl) Hne Hfuel HQ. eapply wp_mono.
  { apply wp_SPLAY with (t := t); try done. by intros ->. }
  intros [] s' Hsp. pose proof (splayed_keeps _ _ _ _ Hsp) as Hk.
  destruct Hsp as (a & y & b & (Hroot & pl & pr & Hn & Ha & Hb) & Hs & H1 & H2 & Hf).
  by apply (HQ a y b pl pr).
Qed.
Lemma not_nil l s : spl_model cmp s l → bool_decide (l = []) = false → l ≠ [].
Proof. by intros _ ?%bool_decide_eq_false. Qed.
Lemma model_nil_root s l : spl_model cmp s l → l = [] → sph_root s = None.
Proof. intros Hm Hl. by apply (model_empty cmp _ _ Hm). Qed.
Lemma model_increasing s l : spl_model cmp s l → increasing cmp l.
Proof. by intros (t & _ & <- & Hl). Qed.

(** Looking at the root and comparing with it. *)
Lemma wp_at_root {A} (k : Z → SP A) x y s Q :
  sph_root s = Some y → wp (k (cmp x y)) s Q →
  wp (root ← SPLAY_ROOT; c ← cmpM cmp (Some x) root; k c) s Q.
Proof. intros Hr Hk. unfold SPLAY_ROOT, cmpM. repeat wp_base. rewrite Hr. by repeat wp_base. Qed.
Lemma wp_root {A} (k : ptr → SP A) p s Q : sph_root s = p → wp (k p) s Q → wp (root ← SPLAY_ROOT; k root) s Q.
Proof. intros <- Hk. unfold SPLAY_ROOT. by repeat wp_base. Qed.

Lemma wp_SPLAY_FIND fuel x s l :
  spl_model cmp s l → (length l < fuel)%nat →
  wp (SPLAY_FIND cmp fuel (Some x)) s (λ r s', r = spec_find cmp x l ∧ spl_model cmp s' l ∧ keeps s s').
Proof using CmpOrder0.
  intros Hm Hfuel. unfold SPLAY_FIND. wp_base. eapply (wp_EMPTY cmp); [done|].
  case_bool_decide as El; [subst; wp_base; split_and!; [done|done|apply keeps_refl]|].
  wp_base. eapply wp_SPLAY_at; [done|done|done|]. intros a y b pl pr s' Har.
  eapply wp_at_root; [apply Har|]. rewrite (at_root_find _ _ _ _ _ _ _ _ _ Har).
  pose proof (at_root_model _ _ _ _ _ _ _ _ _ (model_increasing _ _ Hm) Har) as Hm'.
  destruct (cmp x y =? 0); unfold SPLAY_ROOT; wp_base; split_and!; try done; apply Har.
Qed.

(** * The least and the greatest element, and the next one *)
Lemma wp_leftmost fuel s p t :
  srep (spl_heap s) p t → t ≠ SLeaf → (length (sin t) < fuel)%nat →
  wp (leftmost fuel p) s (λ r s', r = head (sin t) ∧ s' = s).
Proof.
  revert p t. induction fuel as [|f IH]; intros p t Hr Ht Hfuel; [lia|].
  destruct (srep_root _ _ _ Hr Ht) as (l & x & r & -> & ->).
  destruct Hr as (_ & pl & pr & Hx & Hl & Hrr). unfold leftmost. simpl. wp_base. wp_base.
  eapply wp_field; [exact Hx|]. simpl. destruct l as [|l1 y l2].
  - rewrite Hl. repeat wp_base. done.
  - pose proof Hl as [-> _]. apply wp_ret.
    change (wp (leftmost f (Some y)) s (λ q s', q = head (sin (SNode (SNode l1 y l2) x r)) ∧ s' = s)).
    eapply wp_mono; [apply (IH _ (SNode l1 y l2))|]; try done.
    + simpl in *. rewrite !length_app in *. simpl in *. rewrite ?length_app in *. simpl in *. lia.
    + intros q s' [-> ->]. split; [|done]. simpl. by destruct (sin l1).
Qed.

Lemma in_seq x l s s' a y b pl pr :
  at_root x l s s' a y b pl pr → x ∈ l → x = y.
Proof using CmpOrder0.
  intros [] Hx. subst. apply elem_of_app in Hx as [Hx|[->|Hx]%elem_of_cons]; [|done|].
  - apply ar_before0 in Hx. rewrite (cmp_refl cmp) in Hx. lia.
  - apply ar_after0 in Hx. rewrite (cmp_refl cmp) in Hx. lia.
Qed.

Lemma wp_SPLAY_NEXT fuel x s l :
  spl_model cmp s l → x ∈ l → (length l < fuel)%nat →
  wp (SPLAY_NEXT cmp fuel (Some x)) s (λ r s', r = spec_next x l ∧ spl_model cmp s' l ∧ keeps s s').
Proof using CmpOrder0.
  intros Hm Hx Hfuel. unfold SPLAY_NEXT. wp_base.
  eapply wp_SPLAY_at; [done|by intros ->; apply not_elem_of_nil in Hx|done|]. intros a y b pl pr s' Har.
  pose proof (in_seq _ _ _ _ _ _ _ _ _ Har Hx) as <-.
  pose proof (at_root_model _ _ _ _ _ _ _ _ _ (model_increasing _ _ Hm) Har) as Hm'.
  pose proof (increasing_nodup cmp _ (model_increasing _ _ Hm)) as Hnd.
  destruct Har as [Hroot Hn Ha Hb Hs H1 H2 Hk _]. subst l.
  rewrite spec_next_split by (apply NoDup_app in Hnd; set_solver).
  wp_base. eapply wp_field; [exact Hn|]. simpl. destruct b as [|b1 z b2].
  - rewrite Hb. by repeat wp_base.
  - pose proof Hb as [-> _]. simpl. wp_base. eapply wp_field; [exact Hn|]. simpl.
    eapply wp_mono; [eapply (wp_leftmost _ _ _ (SNode b1 z b2)); [done|done|]|].
    + rewrite length_app in Hfuel. simpl in *. lia.
    + by intros q s2 [-> ->].
Qed.

Lemma wp_minmax fuel c s l :
  c ≠ 0 → spl_model cmp s l → (length l < fuel)%nat →
  wp (empty ← SPLAY_EMPTY; if empty : bool then ret None else SPLAY_MIN_MAX fuel c) s
    (λ r s', r = (if c <? 0 then head l else last l) ∧ spl_model cmp s' l ∧ keeps s s').
Proof using CmpOrder0.
  intros Hc Hm Hfuel. wp_base. eapply (wp_EMPTY cmp); [done|].
  case_bool_decide as El; [subst; wp_base; split_and!; [by destruct (c <? 0)|done|apply keeps_refl]|].
  destruct Hm as (t & Hr & <- & Hl). unfold SPLAY_MIN_MAX. wp_base. eapply wp_mono.
  { apply (wp_SPLAY_MINMAX cmp) with (t := t); try done. by intros ->. }
  intros [] s' Hsp. unfold SPLAY_ROOT. wp_base. split; [|split].
  - destruct Hsp as (a & y & b & [Hroot _] & <- & H1 & H2 & _). rewrite Hroot.
    destruct (Z.ltb_spec c 0).
    + destruct (sin a) as [|z a']; [done|]. specialize (H1 z). set_solver by lia.
    + destruct (sin b) as [|z b'] eqn:Eb; [by rewrite last_snoc|]. specialize (H2 z). set_solver by lia.
  - by eapply splayed_model.
  - by eapply splayed_keeps.
Qed.
(** * Insertion *)
Lemma at_root_splits x l s s' a y b pl pr :
  at_root x l s s' a y b pl pr → cmp x y ≠ 0 →
  ∃ l1 l2, l = l1 ++ l2 ∧ splits cmp x l1 l2 ∧
    (cmp x y < 0 → l1 = sin a ∧ l2 = y :: sin b) ∧ (cmp x y > 0 → l1 = sin a ++ [y] ∧ l2 = sin b).
Proof.
  intros [] Hne. subst. destruct (Z.lt_trichotomy (cmp x y) 0) as [E|[E|E]]; [|done|].
  - exists (sin a), (y :: sin b). split_and!; [done| |done|lia]. split; [done|].
    intros z [->|Hz]%elem_of_cons; auto.
  - exists (sin a ++ [y]), (sin b). split_and!; [by rewrite <- (assoc_L (++))| |lia|done]. split; [|done].
    intros z [Hz| ->%list_elem_of_singleton]%elem_of_app; [auto|lia].
Qed.
Lemma splits_notin x l1 l2 : splits cmp x l1 l2 → x ∉ l1 ++ l2.
Proof using CmpOrder0.
  intros [H1 H2] [Hx|Hx]%elem_of_app; [apply H1 in Hx|apply H2 in Hx]; rewrite (cmp_refl cmp) in Hx; lia.
Qed.

(** The element becomes the root above the tree that was splayed: the root's
    subtree in direction [d] moves to it. *)
Definition hang (d : bool) (elm : ptr) : SP ptr :=
  root ← SPLAY_ROOT; v ← get d root; put d elm v;;
  root ← SPLAY_ROOT; put (negb d) elm root;;
  root ← SPLAY_ROOT; put d root None;;
  ret None.
Lemma wp_hang d x s i y o (Q : ptr → spl_state → Prop) :
  sph_root s = Some y → srep (spl_heap s) (Some y) (mk d i y o) →
  x ∉ y :: sin i ++ sin o → NoDup (y :: sin i ++ sin o) → is_Some (spl_heap s !! x) →
  (∀ s', srep (spl_heap s') (Some x) (mk d i x (mk d SLeaf y o)) → keeps s s' → Q None s') →
  wp (hang d (Some x)) s Q.
Proof.
  intros Hroot Hr [Hxy Hx]%not_elem_of_cons [Hy Hnd]%NoDup_cons [ex Hex] HQ.
  apply srep_mk in Hr as (_ & ey & Hey & Hi & Ho).
  rewrite not_elem_of_app in Hx, Hy. destruct s as [p h]. simpl in *. subst p.
  unfold hang, SPLAY_ROOT, get, put. repeat heap_step.
  apply HQ.
  - apply srep_mk. split; [done|]. eexists. simpl.
    split; [rewrite lookup_insert_ne by congruence; apply lookup_insert_eq|].
    rewrite child_set_ne', child_set, child_set. split.
    + do 3 (apply srep_insert; [tauto|]). done.
    + apply srep_mk. split; [done|]. eexists. split; [apply lookup_insert_eq|].
      rewrite child_set, child_set_ne. split; [done|]. do 3 (apply srep_insert; [tauto|]). done.
  - grows.
Qed.

Lemma wp_insert_at d x l l1 l2 s s' a y b pl pr i o :
  at_root x l s s' a y b pl pr → SNode a y b = mk d i y o → increasing cmp l →
  l = l1 ++ l2 → splits cmp x l1 l2 → sin (mk d i x (mk d SLeaf y o)) = l1 ++ x :: l2 →
  is_Some (spl_heap s !! x) →
  wp (hang d (Some x)) s' (λ found s2,
    wp (if non_null found then ret found else put_ROOT (Some x);; ret None) s2
      (λ r s3, r = (spec_insert cmp x l).1 ∧ spl_model cmp s3 (spec_insert cmp x l).2 ∧ keeps s s3)).
Proof using CmpOrder0.
  intros Har Hmk Hinc Hl Hs Hsin Hx. pose proof (increasing_nodup cmp _ Hinc) as Hnd.
  pose proof (splits_notin _ _ _ Hs) as Hn. rewrite <- Hl in Hn.
  destruct Har as [Hroot Hy Ha Hb Hseq _ _ Hk _].
  assert (l ≡ₚ y :: sin i ++ sin o) as Hp by (rewrite <- (sin_mk d), <- Hmk; by rewrite Hseq).
  rewrite Hp in Hn, Hnd. eapply (wp_hang d x s' i y o); [done| |done|done|by apply Hk|].
  { rewrite <- Hmk. split; [done|]. eauto. }
  intros s2 Hr2 Hk2. unfold put_ROOT. simpl. repeat wp_base.
  rewrite Hl, (spec_insert_splits cmp) by done. split_and!; [done| |intros z Hz; by apply Hk2, Hk].
  eexists. split_and!; [exact Hr2|done|]. apply (increasing_insert cmp); [by rewrite <- Hl|done].
Qed.

Lemma wp_SPLAY_INSERT fuel x s l :
  spl_model cmp s l → is_Some (spl_heap s !! x) → (length l < fuel)%nat →
  wp (SPLAY_INSERT cmp fuel (Some x)) s
    (λ r s', r = (spec_insert cmp x l).1 ∧ spl_model cmp s' (spec_insert cmp x l).2 ∧ keeps s s').
Proof using CmpOrder0.
  intros Hm Hx Hfuel. pose proof (model_increasing _ _ Hm) as Hinc.
  unfold SPLAY_INSERT. wp_base. eapply (wp_EMPTY cmp); [done|]. case_bool_decide as El.
  - subst. destruct Hx as [ex Hex]. destruct s as [p h]. unfold put_RIGHT, put_LEFT, put_ROOT.
    repeat heap_step. split_and!; [done| |grows].
    exists (SNode SLeaf x SLeaf). split_and!; [|done|repeat constructor].
    split; [done|]. eexists _, _. by split; [apply lookup_insert_eq|].
  - do 2 wp_base. eapply wp_SPLAY_at; [done|done|done|]. intros a y b pl pr s' Har.
    eapply wp_at_root; [apply Har|]. destruct (decide (cmp x y = 0)) as [E|E].
    + rewrite E. simpl. unfold SPLAY_ROOT. wp_base. rewrite (ar_root _ _ _ _ _ _ _ _ _ Har). simpl. wp_base.
      pose proof (at_root_find _ _ _ _ _ _ _ _ _ Har) as Hfind. rewrite E in Hfind. simpl in Hfind.
      unfold spec_insert. rewrite Hfind. split_and!; [done|by eapply at_root_model|apply Har].
    + destruct (at_root_splits _ _ _ _ _ _ _ _ _ Har E) as (l1 & l2 & Hl & Hs & Hlt & Hgt).
      destruct (Z.ltb_spec (cmp x y) 0) as [E'|E'].
      * destruct (Hlt E') as [-> ->]. by apply (wp_insert_at false x l (sin a) (y :: sin b) s s' a y b pl pr a b).
      * rewrite Z.gtb_ltb, (proj2 (Z.ltb_lt _ _)) by lia. destruct Hgt as [-> ->]; [lia|].
        apply (wp_insert_at true x l (sin a ++ [y]) (sin b) s s' a y b pl pr b a); done.
Qed.

(** * Removal *)
Lemma srep_dom_not h p t x : srep h p t → x ∈ sin t → h !! x ≠ None.
Proof. intros Hr Hx Hn. destruct (srep_dom _ _ _ _ Hr Hx). congruence. Qed.

(** Joining the two subtrees of a root that goes: the left one is splayed again
    for the same element, which brings its greatest element up. *)
Lemma wp_join fuel x s pl a b pr (Q : unit → spl_state → Prop) :
  srep (spl_heap s) (Some pl) a → srep (spl_heap s) pr b → sph_root s = Some pl →
  increasing cmp (sin a ++ sin b) → (∀ z, z ∈ sin a → cmp x z > 0) → (length (sin a) < fuel)%nat →
  (∀ s', spl_model cmp s' (sin a ++ sin b) → keeps s s' → Q tt s') →
  wp (SPLAY cmp fuel (Some x);; root ← SPLAY_ROOT; put_RIGHT root pr) s Q.
Proof using CmpOrder0.
  intros Ha Hb Hroot Hinc Hbef Hfuel HQ. pose proof (increasing_nodup cmp _ Hinc) as Hnd.
  wp_base. eapply (wp_SPLAY_at _ _ _ (sin a)); [|intros Hn|done|].
  { exists a. rewrite Hroot. split_and!; [done|done|].
    unfold increasing in *. rewrite StronglySorted_app in Hinc. tauto. }
  { apply srep_some in Ha as (? & ? & ->). by apply app_eq_nil in Hn as [_ [=]]. }
  intros a1 y b1 pl1 pr1 s' [Hroot' Hy Ha1 Hb1 Hseq _ Haf Hk Hf].
  assert (b1 = SLeaf) as ->.
  { destruct b1 as [|b2 z b3]; [done|]. exfalso. assert (z ∈ sin (SNode b2 z b3)) as Hz by set_solver.
    pose proof (Haf z Hz). enough (cmp x z > 0) by lia. apply Hbef. rewrite Hseq. set_solver. }
  simpl in Hseq. rewrite Hseq in Hnd, HQ. apply NoDup_app in Hnd as (Hnd1 & Hdis & _).
  apply NoDup_app in Hnd1 as (_ & Hya & _).
  assert (srep (spl_heap s') pr b) as Hb'.
  { eapply srep_frame; [done|]. intros z Hz. apply Hf. intros Hza. rewrite Hseq in Hza. by apply (Hdis z). }
  unfold SPLAY_ROOT, put_RIGHT. repeat wp_base. rewrite Hroot'. repeat heap_step. apply HQ.
  - exists (SNode a1 y b). split_and!; [|by simpl; rewrite <- (assoc_L (++))|by rewrite <- Hseq].
    split; [done|]. eexists _, _. split; [apply lookup_insert_eq|]. simpl.
    split; (apply srep_insert; [|done]); [set_solver|]. apply Hdis. set_solver.
  - intros z Hz. simpl. apply lookup_insert_is_Some'. right. by apply Hk.
Qed.

Definition spec_take (x : loc) (l : list loc) : ptr * list loc :=
  match spec_find cmp x l with Some y => (Some x, spec_remove y l) | None => (None, l) end.

Lemma wp_SPLAY_REMOVE fuel x s l :
  spl_model cmp s l → (length l < fuel)%nat →
  wp (SPLAY_REMOVE cmp fuel (Some x)) s
    (λ r s', r = (spec_take x l).1 ∧ spl_model cmp s' (spec_take x l).2 ∧ keeps s s').
Proof using CmpOrder0.
  intros Hm Hfuel. pose proof (model_increasing _ _ Hm) as Hinc. unfold SPLAY_REMOVE.
  wp_base. eapply (wp_EMPTY cmp); [done|].
  case_bool_decide as El; [subst; wp_base; split_and!; [done|done|apply keeps_refl]|].
  wp_base. eapply wp_SPLAY_at; [done|done|done|]. intros a y b pl pr s' Har.
  eapply wp_at_root; [apply Har|]. unfold spec_take. rewrite (at_root_find _ _ _ _ _ _ _ _ _ Har).
  destruct (Z.eqb_spec (cmp x y) 0) as [E|E].
  2:{ wp_base. split_and!; [done|by eapply at_root_model|apply Har]. }
  pose proof (increasing_nodup cmp _ Hinc) as Hnd.
  destruct Har as [Hroot Hy Ha Hb -> Hbef _ Hk _]. rewrite spec_remove_split by done. simpl.
  assert (increasing cmp (sin a ++ sin b)) as Hinc' by by eapply increasing_remove.
  eapply wp_root; [done|]. wp_base. eapply wp_field; [exact Hy|]. simpl. wp_base.
  assert (∀ (m : SP unit), (∀ Q : unit → spl_state → Prop, (∀ s2, spl_model cmp s2 (sin a ++ sin b) → keeps s' s2 → Q tt s2) → wp m s' Q) →
    wp m s' (λ _ s2, wp (ret (Some x)) s2 (λ r s3, r = Some x ∧ spl_model cmp s3 (sin a ++ sin b) ∧ keeps s s3))) as Hfin.
  { intros m Hq. apply Hq. intros s2 Hm2 Hk2. wp_base. split_and!; [done|done|]. by eapply keeps_trans. }
  destruct pl as [p|]; simpl; apply Hfin; intros Q HQ.
  - eapply wp_root; [done|]. wp_base. eapply wp_field; [exact Hy|]. simpl.
    eapply wp_root; [done|]. wp_base. eapply wp_field; [exact Hy|]. simpl. wp_base. unfold put_ROOT. wp_base.
    eapply (wp_join _ _ _ p a b pr); try done. simpl. rewrite length_app in Hfuel. lia.
  - apply srep_null in Ha as ->. eapply wp_root; [done|]. wp_base. eapply wp_field; [exact Hy|]. simpl.
    unfold put_ROOT. wp_base. apply HQ; [by exists b|by intros z].
Qed.

(** * Walking *)
Lemma wp_SPLAY_FOREACH fuel body s l :
  spl_model cmp s l → (length l < fuel)%nat →
  (∀ x s1, spl_model cmp s1 l → wp (body (Some x)) s1 (λ _ s2, spl_model cmp s2 l ∧ keeps s1 s2)) →
  wp (SPLAY_FOREACH cmp fuel body) s (λ seen s', seen = Some <$> l ∧ spl_model cmp s' l ∧ keeps s s').
Proof using CmpOrder0.
  intros Hm Hfuel Hbody. pose proof (increasing_nodup cmp _ (model_increasing _ _ Hm)) as Hnd.
  unfold SPLAY_FOREACH. wp_base. eapply wp_mono; [by apply wp_minmax|]. intros r s1 (-> & Hm1 & Hk1). simpl.
  apply (wp_loop (λ n '(x, seen) s2, ∃ l1 l2, l = l1 ++ l2 ∧ x = head l2 ∧ seen = Some <$> l1 ∧
    n = length l2 ∧ spl_model cmp s2 l ∧ keeps s s2)) with (n := length l); [|by exists [], l|done].
  intros n [x seen] s2 (l1 & l2 & Hl & -> & -> & -> & Hm2 & Hk2).
  destruct l2 as [|x l2]; simpl.
  { rewrite app_nil_r in Hl. subst l1. by wp_base. }
  wp_base. eapply wp_mono; [by apply Hbody|]. intros _ s3 [Hm3 Hk3].
  wp_base. eapply wp_mono; [apply wp_SPLAY_NEXT; [done| |done]|].
  { rewrite Hl. set_solver. }
  intros r s4 (-> & Hm4 & Hk4). wp_base. exists (length l2). split; [lia|].
  exists (l1 ++ [x]), l2. split_and!; [by rewrite <- (assoc_L (++))| |by rewrite fmap_app|done|done|].
  - rewrite Hl, spec_next_split; [done|]. rewrite Hl in Hnd. apply NoDup_app in Hnd. set_solver.
  - eapply keeps_trans; [|done]. by eapply keeps_trans.
Qed.

End ops.
