(* ===== verification/SplayProgram.v ===== *)
(** Programs that use a splay tree: every sequence of its operations computes
    what the same operations on a sorted sequence do. *)
From stdpp Require Import gmap list sorting.
From S2P Require Import Prelude CppHeap RBSpec SplayCode SplayTree SplayStep SplayProps SplayOps.

Inductive spl_op :=
| SplInsert (x : loc) | SplRemove (x : loc) | SplFind (x : loc)
| SplMin | SplMax | SplNext (x : loc) | SplForeach.

Section programs.
Context {AL : Allocator} (cmp : loc → loc → Z).

(** The pointer an operation returns, or those a walk visits. *)
Definition spl_exec (fuel : nat) (o : spl_op) : SP (list ptr) :=
  match o with
  | SplInsert x => r ← SPLAY_INSERT cmp fuel (Some x); ret [r]
  | SplRemove x => r ← SPLAY_REMOVE cmp fuel (Some x); ret [r]
  | SplFind x => r ← SPLAY_FIND cmp fuel (Some x); ret [r]
  | SplMin => r ← SPLAY_MIN fuel; ret [r]
  | SplMax => r ← SPLAY_MAX fuel; ret [r]
  | SplNext x => r ← SPLAY_NEXT cmp fuel (Some x); ret [r]
  | SplForeach => SPLAY_FOREACH cmp fuel (λ _, ret tt)
  end.
(** The same on the sequence. A client may step only from an element of the
    tree; it may insert, look for or remove any element. *)
Definition spl_spec (o : spl_op) (l : list loc) : option (list ptr * list loc) :=
  match o with
  | SplInsert x => let '(r, l') := spec_insert cmp x l in Some ([r], l')
  | SplRemove x => let '(r, l') := spec_take cmp x l in Some ([r], l')
  | SplFind x => Some ([spec_find cmp x l], l)
  | SplMin => Some ([head l], l)
  | SplMax => Some ([last l], l)
  | SplNext x => if decide (x ∈ l) then Some ([spec_next x l], l) else None
  | SplForeach => Some (Some <$> l, l)
  end.
Fixpoint spl_run (fuel : nat) (os : list spl_op) : SP (list (list ptr)) :=
  match os with
  | [] => ret []
  | o :: os => r ← spl_exec fuel o; rs ← spl_run fuel os; ret (r :: rs)
  end.
Fixpoint spl_spec_run (os : list spl_op) (l : list loc) : option (list (list ptr) * list loc) :=
  match os with
  | [] => Some ([], l)
  | o :: os =>
      '(r, l1) ← spl_spec o l; '(rs, l2) ← spl_spec_run os l1; Some (r :: rs, l2)
  end%stdpp.
Definition spl_elem (o : spl_op) : list loc := match o with SplInsert x => [x] | _ => [] end.
Definition spl_allocated (s : spl_state) (x : loc) : Prop := is_Some (spl_heap s !! x).

Context `{!CmpOrder cmp}.

Lemma spec_remove_length x l : (length (spec_remove x l) ≤ length l)%nat.
Proof. apply List.filter_length_le. Qed.
Lemma wp_spl_exec fuel o s l rs l' :
  spl_model cmp s l → (∀ x, x ∈ spl_elem o → spl_allocated s x) → (length l < fuel)%nat →
  spl_spec o l = Some (rs, l') →
  (length l' ≤ length l + length (spl_elem o))%nat ∧
  wp (spl_exec fuel o) s (λ r s', r = rs ∧ spl_model cmp s' l' ∧ keeps s s').
Proof.
  intros Hm Hal Hf Hs. destruct o as [x|x|x| | |x|]; simpl in *.
  - pose proof (spec_insert_length cmp x l) as Hlen. pose proof (wp_SPLAY_INSERT cmp fuel x s l Hm) as Hw.
    destruct (spec_insert cmp x l) as [r l1]. specialize (Hlen r l1 eq_refl). simplify_eq. simpl in *. split; [lia|]. wp_base.
    eapply wp_mono; [apply Hw; [apply Hal; by left|done]|]. intros q s' (-> & ? & ?). by wp_base.
  - pose proof (wp_SPLAY_REMOVE cmp fuel x s l Hm Hf) as Hw.
    assert (length (spec_take cmp x l).2 ≤ length l)%nat as Hlen.
    { unfold spec_take. destruct (spec_find cmp x l); [apply spec_remove_length|done]. }
    destruct (spec_take cmp x l) as [r l1]. simplify_eq. simpl in *. split; [lia|]. wp_base.
    eapply wp_mono; [exact Hw|]. intros q s' (-> & ? & ?). by wp_base.
  - simplify_eq. split; [lia|]. wp_base. eapply wp_mono; [by apply wp_SPLAY_FIND|].
    intros q s' (-> & ? & ?). by wp_base.
  - simplify_eq. split; [lia|]. wp_base. eapply wp_mono; [by apply (wp_minmax cmp)|].
    intros q s' (-> & ? & ?). by wp_base.
  - simplify_eq. split; [lia|]. wp_base. eapply wp_mono; [by apply (wp_minmax cmp)|].
    intros q s' (-> & ? & ?). by wp_base.
  - case_decide; simplify_eq. split; [lia|]. wp_base. eapply wp_mono; [by apply wp_SPLAY_NEXT|].
    intros q s' (-> & ? & ?). by wp_base.
  - simplify_eq. split; [lia|]. apply wp_SPLAY_FOREACH; try done. intros x s1 Hs1. wp_base.
    split; [done|apply keeps_refl].
Qed.

Lemma wp_spl_run fuel os s l rs l' :
  spl_model cmp s l → (∀ x, x ∈ os ≫= spl_elem → spl_allocated s x) →
  spl_spec_run os l = Some (rs, l') → (length l + length (os ≫= spl_elem) < fuel)%nat →
  wp (spl_run fuel os) s (λ r s', r = rs ∧ spl_model cmp s' l').
Proof.
  revert s l rs. induction os as [|o os IH]; intros s l rs Hm Hal Hs Hf; simpl in *; [by simplify_eq|].
  destruct (spl_spec o l) as [[r l1]|] eqn:E1; simpl in Hs; [|done].
  destruct (spl_spec_run os l1) as [[rs1 l2]|] eqn:E2; simplify_eq/=. rewrite length_app in Hf.
  change (list_bind spl_op loc spl_elem os) with (os ≫= spl_elem) in *.
  destruct (wp_spl_exec fuel o s l r l1 Hm) as [Hlen Hw]; [intros x Hx; apply Hal; set_solver|lia|done|].
  wp_base. eapply wp_mono; [exact Hw|]. intros r' s1 (-> & Hm1 & Hk1). wp_base.
  eapply wp_mono; [apply (IH s1 l1 rs1); [done| |done|lia]|].
  { intros x Hx. apply Hk1, Hal. set_solver. }
  intros rs2 s2 [-> Hm2]. by wp_base.
Qed.
End programs.

(** C3: A program of insertions, removals, searches, minimum, maximum, successor
    and whole walks on a splay tree computes exactly the results of the same
    operations on a strictly increasing sequence: every splay of one operation
    keeps all elements in order, the temporary node is gone, no pointer
    outside the tree is followed and no loop takes more turns than the tree has
    elements. *)
Theorem SPLAY_program_refines `{Allocator} cmp `{!CmpOrder cmp} fuel os s l rs l' :
  spl_model cmp s l → (∀ x, x ∈ os ≫= spl_elem → spl_allocated s x) →
  spl_spec_run cmp os l = Some (rs, l') → (length l + length (os ≫= spl_elem) < fuel)%nat →
  ∃ s', spl_run cmp fuel os s = Done rs s' ∧ spl_model cmp s' l'.
Proof.
  intros Hm Hal Hs Hf.
  destruct (wp_elim _ _ _ (wp_spl_run cmp fuel os s l rs l' Hm Hal Hs Hf)) as (rs' & s' & -> & -> & Hm').
  eauto.
Qed.

#[local, program] Instance lowest_free : Allocator := {| alloc X := fresh X |}.
Next Obligation. intros X. apply is_fresh. Qed.

(** Elements 1 to 6, whose keys are their numbers, and an empty head. *)
Definition spl_demo_cmp : loc → loc → Z := key_cmp Zpos.
Definition spl_demo : spl_state :=
  Eval vm_compute in
  SPS None (list_to_map ((λ x, (x, SPE None None)) <$> [1; 2; 3; 4; 5; 6]%positive)).
Definition spl_demo_ops : list spl_op :=
  [SplInsert 4; SplInsert 2; SplInsert 6; SplInsert 1; SplInsert 2; SplNext 4; SplRemove 4;
   SplFind 4; SplMax; SplForeach]%positive.

Lemma SPLAY_program_refines_witness :
  ∃ s', spl_run spl_demo_cmp 10 spl_demo_ops spl_demo =
    Done [[None]; [None]; [None]; [None]; [Some 2]; [Some 6]; [Some 4]; [None]; [Some 6];
          [Some 1; Some 2; Some 6]]%positive s' ∧
    spl_model spl_demo_cmp s' [1; 2; 6]%positive.
Proof.
  apply (SPLAY_program_refines spl_demo_cmp 10 _ spl_demo []).
  - exists SLeaf. split_and!; [done|done|constructor].
  - intros x Hx. change (x ∈ [4; 2; 6; 1; 2]%positive) in Hx.
    repeat (apply elem_of_cons in Hx as [->|Hx]; [by eexists; vm_compute|]). by apply not_elem_of_nil in Hx.
  - vm_compute. reflexivity.
  - vm_compute. lia.
Defined.
