(* ===== verification/QueueCode.v ===== *)
(** The list macros of src/kvstore/NtyCo/core/nty_queue.h (singly-linked
    lists, singly-linked tail queues, lists and tail queues), as programs over
    a heap that keeps the words of the heads and of the entries. *)
From S2P Require Import Prelude.

(** The address of a word of type [struct type *]: the first word of a head or
    of the entry embedded in an element. *)
Inductive slot :=
| FirstOf (head : loc)
| NextOf (elm : loc).
#[export] Instance slot_eq_dec : EqDecision slot.
Proof. solve_decision. Defined.
#[export] Instance slot_countable : Countable slot.
Proof.
  refine (inj_countable' (λ s, match s with FirstOf h => inl h | NextOf e => inr e end)
    (λ s, match s with inl h => FirstOf h | inr e => NextOf e end) _).
  by intros [].
Defined.

(** [q_ptr]: the words [slh_first], [stqh_first], [lh_first], [tqh_first] and
    [sle_next], [stqe_next], [le_next], [tqe_next]. [q_adr]: the second words
    [stqh_last], [tqh_last], [le_prev], [tqe_prev], each the address of a
    first word ([None]: an address never set); a structure without a second
    word has no binding there. A second word is named by the address of the
    first word of its structure, the address the structure itself has: this is
    what the casts of [TAILQ_LAST] and [TAILQ_PREV] rely on. *)
Record q_state := QS {
  q_ptr : gmap slot ptr;
  q_adr : gmap slot (option slot)
}.

Abbreviation Q := (M q_state).

Definition ld_ptr (s : slot) : Q ptr := m ← gets q_ptr; need (m !! s).
Definition ld_adr (s : slot) : Q slot :=
  m ← gets q_adr; o ← need (m !! s); need o.
Definition st_ptr (s : slot) (v : ptr) : Q unit :=
  m ← gets q_ptr; need (m !! s);; modify (λ st, QS (<[s:=v]> (q_ptr st)) (q_adr st)).
Definition st_adr (s t : slot) : Q unit :=
  m ← gets q_adr; need (m !! s);;
  modify (λ st, QS (q_ptr st) (<[s:=Some t]> (q_adr st))).

(** [&(elm)->field]: defined for a pointer to an element. *)
Definition entry (elm : ptr) : Q slot := x ← need elm; ret (NextOf x).

(** The word [*_NEXT((elm), field)] and the word after it. *)
Definition ld_next (elm : ptr) : Q ptr := e ← entry elm; ld_ptr e.
Definition st_next (elm v : ptr) : Q unit := e ← entry elm; st_ptr e v.
Definition ld_prev (elm : ptr) : Q slot := e ← entry elm; ld_adr e.
Definition st_prev (elm : ptr) (t : slot) : Q unit := e ← entry elm; st_adr e t.
(** The words of a head. *)
Definition ld_first (head : loc) : Q ptr := ld_ptr (FirstOf head).
Definition st_first (head : loc) (v : ptr) : Q unit := st_ptr (FirstOf head) v.
Definition ld_last (head : loc) : Q slot := ld_adr (FirstOf head).
Definition st_last (head : loc) (t : slot) : Q unit := st_adr (FirstOf head) t.

Definition is_null (p : ptr) : bool := negb (non_null p).
Definition same (p q : ptr) : bool := bool_decide (p = q).

(** [TRASHIT], [QMD_TRACE_*] and [QMD_*_CHECK_*] expand to nothing unless
    [QUEUE_MACRO_DEBUG] or [_KERNEL] and [INVARIANTS] are defined. *)
Definition TRASHIT : Q unit := ret tt.

(** The traversal loops, for a loop body; the result lists the elements the
    body was run on. *)
Definition foreach (fuel : nat) (next : ptr → Q ptr) (body : ptr → Q unit)
    (first : ptr) : Q (list loc) :=
  loop fuel (λ '(var, seen),
    match var with
    | None => ret (inr seen)
    | Some a => body var;; var ← next var; ret (inl (var, seen ++ [a]))
    end) (first, []).
Definition foreach_safe (fuel : nat) (next : ptr → Q ptr) (body : ptr → Q unit)
    (first : ptr) : Q (list loc) :=
  loop fuel (λ '(var, seen),
    match var with
    | None => ret (inr seen)
    | Some a => tvar ← next var; body var;; ret (inl (tvar, seen ++ [a]))
    end) (first, []).
(** [curelm = FIRST(head); while (NEXT(curelm) != (elm)) curelm = NEXT(curelm);] *)
Definition find_prev (fuel : nat) (first elm : ptr) : Q ptr :=
  loop fuel (λ curelm,
    n ← ld_next curelm;
    if same n elm then ret (inr curelm)
    else n ← ld_next curelm; ret (inl n)) first.

(** * Singly-linked lists *)

Definition SLIST_EMPTY (head : loc) : Q bool := f ← ld_first head; ret (is_null f).
Definition SLIST_FIRST (head : loc) : Q ptr := ld_first head.
Definition SLIST_NEXT (elm : ptr) : Q ptr := ld_next elm.
Definition SLIST_FOREACH (fuel : nat) (head : loc) (body : ptr → Q unit) : Q (list loc) :=
  var ← SLIST_FIRST head; foreach fuel SLIST_NEXT body var.
Definition SLIST_FOREACH_SAFE (fuel : nat) (head : loc) (body : ptr → Q unit)
    : Q (list loc) :=
  var ← SLIST_FIRST head; foreach_safe fuel SLIST_NEXT body var.
(** The body gets the element and the address of the word that points to it. *)
Definition SLIST_FOREACH_PREVPTR (fuel : nat) (head : loc)
    (body : ptr → slot → Q unit) : Q (list (loc * slot)) :=
  loop fuel (λ '(varp, seen),
    var ← ld_ptr varp;
    match var with
    | None => ret (inr seen)
    | Some a =>
        body var varp;;
        varp' ← entry var;
        ret (inl (varp', seen ++ [(a, varp)]))
    end) (FirstOf head, []).
Definition SLIST_INIT (head : loc) : Q unit := st_first head None.
Definition SLIST_INSERT_AFTER (slistelm elm : ptr) : Q unit :=
  n ← SLIST_NEXT slistelm; st_next elm n;;
  st_next slistelm elm.
Definition SLIST_INSERT_HEAD (head : loc) (elm : ptr) : Q unit :=
  f ← SLIST_FIRST head; st_next elm f;;
  st_first head elm.
Definition SLIST_REMOVE_AFTER (elm : ptr) : Q unit :=
  n ← SLIST_NEXT elm; nn ← SLIST_NEXT n; st_next elm nn.
Definition SLIST_REMOVE_HEAD (head : loc) : Q unit :=
  f ← SLIST_FIRST head; n ← SLIST_NEXT f; st_first head n.
Definition SLIST_REMOVE (fuel : nat) (head : loc) (elm : ptr) : Q unit :=
  f ← SLIST_FIRST head;
  (if same f elm then SLIST_REMOVE_HEAD head
   else
     curelm ← SLIST_FIRST head;
     curelm ← find_prev fuel curelm elm;
     SLIST_REMOVE_AFTER curelm);;
  TRASHIT.

(** * Singly-linked tail queues *)

Definition STAILQ_EMPTY (head : loc) : Q bool := f ← ld_first head; ret (is_null f).
Definition STAILQ_FIRST (head : loc) : Q ptr := ld_first head.
Definition STAILQ_NEXT (elm : ptr) : Q ptr := ld_next elm.
Definition STAILQ_INIT (head : loc) : Q unit :=
  st_first head None;;
  st_last head (FirstOf head).
Definition STAILQ_CONCAT (head1 head2 : loc) : Q unit :=
  e ← STAILQ_EMPTY head2;
  whenM (negb e) (
    l ← ld_last head1; f ← ld_first head2; st_ptr l f;;
    l2 ← ld_last head2; st_last head1 l2;;
    STAILQ_INIT head2).
Definition STAILQ_FOREACH (fuel : nat) (head : loc) (body : ptr → Q unit)
    : Q (list loc) :=
  var ← STAILQ_FIRST head; foreach fuel STAILQ_NEXT body var.
Definition STAILQ_FOREACH_SAFE (fuel : nat) (head : loc) (body : ptr → Q unit)
    : Q (list loc) :=
  var ← STAILQ_FIRST head; foreach_safe fuel STAILQ_NEXT body var.
Definition STAILQ_INSERT_AFTER (head : loc) (tqelm elm : ptr) : Q unit :=
  n ← STAILQ_NEXT tqelm; st_next elm n;;
  whenM (is_null n) (e ← entry elm; st_last head e);;
  st_next tqelm elm.
Definition STAILQ_INSERT_HEAD (head : loc) (elm : ptr) : Q unit :=
  f ← STAILQ_FIRST head; st_next elm f;;
  whenM (is_null f) (e ← entry elm; st_last head e);;
  st_first head elm.
Definition STAILQ_INSERT_TAIL (head : loc) (elm : ptr) : Q unit :=
  st_next elm None;;
  l ← ld_last head; st_ptr l elm;;
  e ← entry elm; st_last head e.
(** [stqh_last] less the offset of the entry: the element whose entry it is,
    nothing defined when it is the address of a head. *)
Definition STAILQ_LAST (head : loc) : Q ptr :=
  e ← STAILQ_EMPTY head;
  if e then ret None else
  l ← ld_last head;
  match l with
  | NextOf x => ret (Some x)
  | FirstOf _ => undef
  end.
Definition STAILQ_REMOVE_HEAD (head : loc) : Q unit :=
  f ← STAILQ_FIRST head; n ← STAILQ_NEXT f; st_first head n;;
  whenM (is_null n) (st_last head (FirstOf head)).
Definition STAILQ_REMOVE_AFTER (head : loc) (elm : ptr) : Q unit :=
  n ← STAILQ_NEXT elm; nn ← STAILQ_NEXT n; st_next elm nn;;
  whenM (is_null nn) (e ← entry elm; st_last head e).
Definition STAILQ_REMOVE (fuel : nat) (head : loc) (elm : ptr) : Q unit :=
  f ← STAILQ_FIRST head;
  (if same f elm then STAILQ_REMOVE_HEAD head
   else
     curelm ← STAILQ_FIRST head;
     curelm ← find_prev fuel curelm elm;
     STAILQ_REMOVE_AFTER head curelm);;
  TRASHIT.
Definition STAILQ_SWAP (head1 head2 : loc) : Q unit :=
  swap_first ← STAILQ_FIRST head1;
  swap_last ← ld_last head1;
  f2 ← STAILQ_FIRST head2; st_first head1 f2;;
  l2 ← ld_last head2; st_last head1 l2;;
  st_first head2 swap_first;;
  st_last head2 swap_last;;
  e1 ← STAILQ_EMPTY head1;
  whenM e1 (st_last head1 (FirstOf head1));;
  e2 ← STAILQ_EMPTY head2;
  whenM e2 (st_last head2 (FirstOf head2)).

(** * Lists *)

Definition LIST_EMPTY (head : loc) : Q bool := f ← ld_first head; ret (is_null f).
Definition LIST_FIRST (head : loc) : Q ptr := ld_first head.
Definition LIST_NEXT (elm : ptr) : Q ptr := ld_next elm.
Definition LIST_FOREACH (fuel : nat) (head : loc) (body : ptr → Q unit) : Q (list loc) :=
  var ← LIST_FIRST head; foreach fuel LIST_NEXT body var.
Definition LIST_FOREACH_SAFE (fuel : nat) (head : loc) (body : ptr → Q unit)
    : Q (list loc) :=
  var ← LIST_FIRST head; foreach_safe fuel LIST_NEXT body var.
Definition LIST_INIT (head : loc) : Q unit := st_first head None.
Definition LIST_INSERT_AFTER (listelm elm : ptr) : Q unit :=
  n ← LIST_NEXT listelm; st_next elm n;;
  whenM (non_null n) (n ← LIST_NEXT listelm; e ← entry elm; st_prev n e);;
  st_next listelm elm;;
  e ← entry listelm; st_prev elm e.
Definition LIST_INSERT_BEFORE (listelm elm : ptr) : Q unit :=
  p ← ld_prev listelm; st_prev elm p;;
  st_next elm listelm;;
  p ← ld_prev listelm; st_ptr p elm;;
  e ← entry elm; st_prev listelm e.
Definition LIST_INSERT_HEAD (head : loc) (elm : ptr) : Q unit :=
  f ← LIST_FIRST head; st_next elm f;;
  whenM (non_null f) (f ← LIST_FIRST head; e ← entry elm; st_prev f e);;
  st_first head elm;;
  st_prev elm (FirstOf head).
Definition LIST_REMOVE (elm : ptr) : Q unit :=
  n ← LIST_NEXT elm;
  whenM (non_null n) (n ← LIST_NEXT elm; p ← ld_prev elm; st_prev n p);;
  p ← ld_prev elm; n ← LIST_NEXT elm; st_ptr p n;;
  TRASHIT;; TRASHIT.
Definition LIST_SWAP (head1 head2 : loc) : Q unit :=
  swap_tmp ← LIST_FIRST head1;
  f2 ← LIST_FIRST head2; st_first head1 f2;;
  st_first head2 swap_tmp;;
  swap_tmp ← LIST_FIRST head1;
  whenM (non_null swap_tmp) (st_prev swap_tmp (FirstOf head1));;
  swap_tmp ← LIST_FIRST head2;
  whenM (non_null swap_tmp) (st_prev swap_tmp (FirstOf head2)).

(** * Tail queues *)

Definition TAILQ_EMPTY (head : loc) : Q bool := f ← ld_first head; ret (is_null f).
Definition TAILQ_FIRST (head : loc) : Q ptr := ld_first head.
Definition TAILQ_NEXT (elm : ptr) : Q ptr := ld_next elm.
Definition TAILQ_INIT (head : loc) : Q unit :=
  st_first head None;;
  st_last head (FirstOf head).
(** The second word of the structure the last, or the previous, link lies in,
    dereferenced. *)
Definition TAILQ_LAST (head : loc) : Q ptr :=
  l ← ld_last head; ll ← ld_adr l; ld_ptr ll.
Definition TAILQ_PREV (elm : ptr) : Q ptr :=
  p ← ld_prev elm; pp ← ld_adr p; ld_ptr pp.
Definition TAILQ_CONCAT (head1 head2 : loc) : Q unit :=
  e ← TAILQ_EMPTY head2;
  whenM (negb e) (
    l ← ld_last head1; f ← ld_first head2; st_ptr l f;;
    f ← ld_first head2; l ← ld_last head1; st_prev f l;;
    l2 ← ld_last head2; st_last head1 l2;;
    TAILQ_INIT head2).
Definition TAILQ_FOREACH (fuel : nat) (head : loc) (body : ptr → Q unit) : Q (list loc) :=
  var ← TAILQ_FIRST head; foreach fuel TAILQ_NEXT body var.
Definition TAILQ_FOREACH_SAFE (fuel : nat) (head : loc) (body : ptr → Q unit)
    : Q (list loc) :=
  var ← TAILQ_FIRST head; foreach_safe fuel TAILQ_NEXT body var.
Definition TAILQ_FOREACH_REVERSE (fuel : nat) (head : loc) (body : ptr → Q unit)
    : Q (list loc) :=
  var ← TAILQ_LAST head; foreach fuel TAILQ_PREV body var.
Definition TAILQ_FOREACH_REVERSE_SAFE (fuel : nat) (head : loc) (body : ptr → Q unit)
    : Q (list loc) :=
  var ← TAILQ_LAST head; foreach_safe fuel TAILQ_PREV body var.
Definition TAILQ_INSERT_AFTER (head : loc) (listelm elm : ptr) : Q unit :=
  n ← TAILQ_NEXT listelm; st_next elm n;;
  (if non_null n then n ← TAILQ_NEXT elm; e ← entry elm; st_prev n e
   else e ← entry elm; st_last head e);;
  st_next listelm elm;;
  e ← entry listelm; st_prev elm e.
Definition TAILQ_INSERT_BEFORE (listelm elm : ptr) : Q unit :=
  p ← ld_prev listelm; st_prev elm p;;
  st_next elm listelm;;
  p ← ld_prev listelm; st_ptr p elm;;
  e ← entry elm; st_prev listelm e.
Definition TAILQ_INSERT_HEAD (head : loc) (elm : ptr) : Q unit :=
  f ← TAILQ_FIRST head; st_next elm f;;
  (if non_null f then f ← TAILQ_FIRST head; e ← entry elm; st_prev f e
   else e ← entry elm; st_last head e);;
  st_first head elm;;
  st_prev elm (FirstOf head).
Definition TAILQ_INSERT_TAIL (head : loc) (elm : ptr) : Q unit :=
  st_next elm None;;
  l ← ld_last head; st_prev elm l;;
  l ← ld_last head; st_ptr l elm;;
  e ← entry elm; st_last head e.
Definition TAILQ_REMOVE (head : loc) (elm : ptr) : Q unit :=
  n ← TAILQ_NEXT elm;
  (if non_null n then n ← TAILQ_NEXT elm; p ← ld_prev elm; st_prev n p
   else p ← ld_prev elm; st_last head p);;
  p ← ld_prev elm; n ← TAILQ_NEXT elm; st_ptr p n;;
  TRASHIT;; TRASHIT.
Definition TAILQ_SWAP (head1 head2 : loc) : Q unit :=
  swap_first ← ld_first head1;
  swap_last ← ld_last head1;
  f2 ← ld_first head2; st_first head1 f2;;
  l2 ← ld_last head2; st_last head1 l2;;
  st_first head2 swap_first;;
  st_last head2 swap_last;;
  swap_first ← ld_first head1;
  (if non_null swap_first then st_prev swap_first (FirstOf head1)
   else st_last head1 (FirstOf head1));;
  swap_first ← ld_first head2;
  (if non_null swap_first then st_prev swap_first (FirstOf head2)
   else st_last head2 (FirstOf head2)).
