(* ===== verification/QueueRep.v ===== *)
(** What the heap of queue words holds: the representation of a list by a head
    and the entries of its elements, common to the four families of macros,
    with the lemmas that execute the loads and stores against it. *)
From S2P Require Import Prelude QueueCode.

(** Which structures of a family have a second word: heads ([stqh_last],
    [tqh_last]) and entries ([le_prev], [tqe_prev]). *)
Record layout := Layout { head_adr : bool; elm_adr : bool }.
Definition SLIST_layout : layout := Layout false false.
Definition STAILQ_layout : layout := Layout true false.
Definition LIST_layout : layout := Layout false true.
Definition TAILQ_layout : layout := Layout true true.

(** The slot the last element's successor is stored in. *)
Definition last_slot (s : slot) (l : list loc) : slot := foldl (λ _ x, NextOf x) s l.
Arguments last_slot : simpl never.

(** The elements [l] are linked one after the other from slot [s], backwards
    as well when the entries have a second word. *)
Fixpoint seg (bk : bool) (P : gmap slot ptr) (A : gmap slot (option slot))
    (s : slot) (l : list loc) : Prop :=
  match l with
  | [] => True
  | x :: l =>
      P !! s = Some (Some x) ∧
      (bk = true → A !! NextOf x = Some (Some s)) ∧
      seg bk P A (NextOf x) l
  end.

(** The queue of head [h] holds exactly [l]. *)
Definition queue (lay : layout) (st : q_state) (h : loc) (l : list loc) : Prop :=
  seg (elm_adr lay) (q_ptr st) (q_adr st) (FirstOf h) l ∧
  q_ptr st !! last_slot (FirstOf h) l = Some None ∧
  (head_adr lay = true →
   q_adr st !! FirstOf h = Some (Some (last_slot (FirstOf h) l))).

(** The words of the structures at [s] exist. *)
Definition has_words (b : bool) (st : q_state) (s : slot) : Prop :=
  is_Some (q_ptr st !! s) ∧ (b = true → is_Some (q_adr st !! s)).

Section segments.
Context (bk : bool).
Implicit Types P : gmap slot ptr.
Implicit Types A : gmap slot (option slot).

Lemma last_slot_app s l1 l2 : last_slot s (l1 ++ l2) = last_slot (last_slot s l1) l2.
Proof. apply foldl_app. Qed.
Lemma last_slot_nil s : last_slot s [] = s.
Proof. done. Qed.
Lemma last_slot_cons s x l : last_slot s (x :: l) = last_slot (NextOf x) l.
Proof. done. Qed.

Lemma last_slot_cases s l :
  (l = [] ∧ last_slot s l = s) ∨ ∃ y, y ∈ l ∧ last_slot s l = NextOf y.
Proof.
  induction l as [|y l _] using rev_ind; [by left|right].
  exists y. rewrite last_slot_app. split; [set_solver|done].
Qed.

Lemma last_slot_ne s e l : s ≠ NextOf e → e ∉ l → last_slot s l ≠ NextOf e.
Proof.
  intros ??. destruct (last_slot_cases s l) as [[_ ->]|(y & Hy & ->)]; [done|].
  intros [= ->]. done.
Qed.
Lemma last_slot_ne_head e h l : last_slot (NextOf e) l ≠ FirstOf h.
Proof. destruct (last_slot_cases (NextOf e) l) as [[_ ->]|(y & Hy & ->)]; done. Qed.
Lemma last_slot_ne_heads h1 h2 l : h1 ≠ h2 → last_slot (FirstOf h1) l ≠ FirstOf h2.
Proof.
  intros. destruct (last_slot_cases (FirstOf h1) l) as [[_ ->]|(y & Hy & ->)]; [|done].
  by intros [= ?].
Qed.

Lemma last_slot_disjoint h y l1 l2 :
  y ∉ l1 → (∀ x, x ∈ l1 → x ∉ l2) → last_slot (FirstOf h) l1 ≠ last_slot (NextOf y) l2.
Proof.
  intros Hy Hd. destruct (last_slot_cases (FirstOf h) l1) as [[_ ->]|(z & Hz & ->)].
  { apply not_eq_sym, last_slot_ne_head. }
  destruct (last_slot_cases (NextOf y) l2) as [[_ ->]|(w & Hw & ->)].
  - by intros [= ->].
  - intros [= ->]. by eapply Hd.
Qed.

Lemma seg_app P A s l1 l2 :
  seg bk P A s (l1 ++ l2) ↔ seg bk P A s l1 ∧ seg bk P A (last_slot s l1) l2.
Proof.
  revert s. induction l1 as [|x l1 IH]; intros s; simpl; [tauto|].
  rewrite IH, last_slot_cons. tauto.
Qed.

(** Words a segment does not read may change. *)
Lemma seg_change P P' A A' s l :
  (∀ t, t = s ∨ (∃ y, y ∈ l ∧ t = NextOf y) → t ≠ last_slot s l → P' !! t = P !! t) →
  (∀ y, y ∈ l → A' !! NextOf y = A !! NextOf y) →
  NoDup l → (∀ y, y ∈ l → s ≠ NextOf y) →
  seg bk P A s l → seg bk P' A' s l.
Proof.
  revert s. induction l as [|x l IH]; intros s HP HA Hnd Hs; [done|].
  apply NoDup_cons in Hnd as [Hx Hnd]. intros (H1 & H2 & H3). simpl.
  rewrite last_slot_cons in HP. split_and!.
  - rewrite HP; [done|by left|]. intros Heq.
    destruct (last_slot_cases (NextOf x) l) as [[-> E]|(y & Hy & E)].
    + eapply (Hs x); [set_solver|]. by rewrite Heq, E.
    + eapply (Hs y); [set_solver|]. by rewrite Heq, E.
  - rewrite HA by set_solver. done.
  - apply IH; try done.
    + intros t Ht. apply HP. right. destruct Ht as [->|(y & ? & ->)]; set_solver.
    + set_solver.
    + intros y Hy [= ->]. done.
Qed.

Lemma seg_ptr_ne P A s l t v :
  t ≠ s → (∀ y, y ∈ l → t ≠ NextOf y) → seg bk P A s l → seg bk (<[t:=v]> P) A s l.
Proof.
  revert s. induction l as [|x l IH]; intros s Hs Hl; simpl; [done|].
  intros (H1 & H2 & H3). rewrite lookup_insert_ne by done. split_and!; [done..|].
  apply IH; [set_solver..|done].
Qed.
Lemma seg_adr_ne P A s l t v :
  (∀ y, y ∈ l → t ≠ NextOf y) → seg bk P A s l → seg bk P (<[t:=v]> A) s l.
Proof.
  revert s. induction l as [|x l IH]; intros s Hl; simpl; [done|].
  intros (H1 & H2 & H3). rewrite lookup_insert_ne by set_solver. split_and!; [done..|].
  apply IH; [set_solver|done].
Qed.

(** Storing over the last link of a segment leaves the segment. *)
Lemma seg_ptr_last P A h l v :
  NoDup l → seg bk P A (FirstOf h) l →
  seg bk (<[last_slot (FirstOf h) l:=v]> P) A (FirstOf h) l.
Proof.
  intros Hnd. apply seg_change; try done. intros t _ Ht. by rewrite lookup_insert_ne.
Qed.
End segments.

(** * Executing the loads and stores *)

Section words.
Implicit Types st : q_state.

Lemma wp_ld_ptr s st Q v : q_ptr st !! s = Some v → Q v st → wp (ld_ptr s) st Q.
Proof.
  intros. unfold ld_ptr. apply wp_bind, wp_gets. by eapply wp_need.
Qed.
Lemma wp_ld_adr s st Q t : q_adr st !! s = Some (Some t) → Q t st → wp (ld_adr s) st Q.
Proof.
  intros. unfold ld_adr. apply wp_bind, wp_gets, wp_bind.
  eapply wp_need; [done|]. by eapply wp_need.
Qed.
Lemma wp_st_ptr s v st (Q : unit → q_state → Prop) :
  is_Some (q_ptr st !! s) → Q tt (QS (<[s:=v]> (q_ptr st)) (q_adr st)) →
  wp (st_ptr s v) st Q.
Proof.
  intros [w Hw] ?. unfold st_ptr. apply wp_bind, wp_gets, wp_bind.
  eapply wp_need; [done|]. by apply wp_modify.
Qed.
Lemma wp_st_adr s t st (Q : unit → q_state → Prop) :
  is_Some (q_adr st !! s) → Q tt (QS (q_ptr st) (<[s:=Some t]> (q_adr st))) →
  wp (st_adr s t) st Q.
Proof.
  intros [w Hw] ?. unfold st_adr. apply wp_bind, wp_gets, wp_bind.
  eapply wp_need; [done|]. by apply wp_modify.
Qed.
Lemma wp_entry x st Q : Q (NextOf x) st → wp (entry (Some x)) st Q.
Proof. intros. by repeat wp_base. Qed.

Lemma is_Some_insert {A} (m : gmap slot A) s t v :
  is_Some (m !! t) → is_Some (<[s:=v]> m !! t).
Proof.
  destruct (decide (s = t)) as [->|]; [by rewrite lookup_insert_eq|].
  by rewrite lookup_insert_ne.
Qed.
Lemma is_Some_of {A} (m : gmap slot A) s v : m !! s = Some v → is_Some (m !! s).
Proof. eauto. Qed.
End words.

#[export] Hint Resolve is_Some_insert is_Some_of : cmodel.
#[export] Hint Resolve last_slot_ne last_slot_ne_head last_slot_ne_heads : cmodel.

(** Duplicate-free lists cut at an element. *)
Lemma NoDup_cut {A} (l1 l2 : list A) x :
  NoDup (l1 ++ x :: l2) ↔ (x ∉ l1) ∧ (x ∉ l2) ∧ NoDup (l1 ++ l2).
Proof. rewrite <-Permutation_middle, NoDup_cons, not_elem_of_app. tauto. Qed.

(** Absence from a list, from the facts about the lists. *)
Ltac q_notin :=
  first
  [ assumption
  | match goal with
    | H : ∀ x, x ∈ ?l1 → x ∉ ?l2 |- _ ∉ ?l1 => intros ?; solve [eapply H; eassumption]
    | H : ∀ x, x ∈ ?l1 → x ∉ ?l2 |- _ ∉ ?l2 => solve [eapply H; eassumption]
    end ].
(** Disequalities of slots and elements. *)
Ltac q_ne :=
  first
  [ discriminate
  | congruence
  | intros [= ?]; subst; solve [auto | match goal with
      | H : ∀ x, x ∈ _ → x ∉ _ |- False => eapply H; eassumption end]
  | apply last_slot_ne; [solve [discriminate | congruence]|q_notin]
  | apply not_eq_sym, last_slot_ne; [solve [discriminate | congruence]|q_notin]
  | apply last_slot_ne_head
  | apply not_eq_sym, last_slot_ne_head
  | apply last_slot_ne_heads; congruence
  | apply last_slot_disjoint; [q_notin|assumption]
  | apply not_eq_sym, last_slot_ne_heads; congruence ].
(** A lookup in a heap some words of which were stored to. *)
Ltac q_look :=
  simpl;
  repeat first [ rewrite lookup_insert_eq | rewrite lookup_insert_ne by q_ne ];
  first [ reflexivity | eassumption | done ].
Ltac q_alloc := simpl; eauto 20 with cmodel.
Ltac q_step :=
  lazymatch goal with
  | |- wp (bind _ _) _ _ => apply wp_bind
  | |- wp (ret _) _ _ => apply wp_ret
  | |- wp (entry (Some _)) _ _ => apply wp_entry
  | |- wp (ld_ptr _) _ _ => eapply wp_ld_ptr; [q_look|]
  | |- wp (ld_adr _) _ _ => eapply wp_ld_adr; [q_look|]
  | |- wp (st_ptr _ _) _ _ => apply wp_st_ptr; [q_alloc|]
  | |- wp (st_adr _ _) _ _ => apply wp_st_adr; [q_alloc|]
  | |- wp (whenM _ _) _ _ => unfold whenM
  | |- wp ?m _ _ =>
      progress unfold TAILQ_NEXT, TAILQ_FIRST, TAILQ_EMPTY, TAILQ_INIT,
        LIST_NEXT, LIST_FIRST, LIST_EMPTY, LIST_INIT,
        STAILQ_NEXT, STAILQ_FIRST, STAILQ_EMPTY, STAILQ_INIT,
        SLIST_NEXT, SLIST_FIRST, SLIST_EMPTY, SLIST_INIT,
        ld_next, st_next, ld_prev, st_prev, ld_first, st_first, ld_last, st_last,
        TRASHIT
  end; cbn [q_ptr q_adr non_null is_null negb].

(** * Frames *)

(** The structures an operation on the heads [hs] and the elements [es] may
    store to. *)
Definition touched (hs es : list loc) (s : slot) : Prop :=
  match s with FirstOf h => h ∈ hs | NextOf e => e ∈ es end.
(** The others are unchanged, and none is freed. *)
Definition frame (hs es : list loc) (st st' : q_state) : Prop :=
  (∀ s, ¬ touched hs es s → q_ptr st' !! s = q_ptr st !! s ∧ q_adr st' !! s = q_adr st !! s) ∧
  (∀ b s, has_words b st s → has_words b st' s).

Section frames.
Context (hs es : list loc).
Implicit Types st : q_state.

Lemma frame_refl st : frame hs es st st.
Proof. done. Qed.
Lemma frame_ptr st P A s v :
  frame hs es st (QS P A) → touched hs es s → frame hs es st (QS (<[s:=v]> P) A).
Proof.
  intros [H1 H2] Hs. split; simpl.
  - intros t Ht. rewrite lookup_insert_ne by (intros ->; done). by apply H1.
  - intros b t [??]%H2. split; [by apply is_Some_insert|done].
Qed.
Lemma frame_adr st P A s v :
  frame hs es st (QS P A) → touched hs es s → frame hs es st (QS P (<[s:=v]> A)).
Proof.
  intros [H1 H2] Hs. split; simpl.
  - intros t Ht. rewrite lookup_insert_ne by (intros ->; done). by apply H1.
  - intros b t [? Hb]%H2. split; [done|]. intros E. by apply is_Some_insert, Hb.
Qed.
Lemma touched_last h l : h ∈ hs → l ⊆ es → touched hs es (last_slot (FirstOf h) l).
Proof.
  intros Hh Hl. destruct (last_slot_cases (FirstOf h) l) as [[_ ->]|(y & Hy & ->)]; [done|].
  by apply Hl.
Qed.
Lemma touched_last_next x l : x ∈ es → l ⊆ es → touched hs es (last_slot (NextOf x) l).
Proof.
  intros Hh Hl. destruct (last_slot_cases (NextOf x) l) as [[_ ->]|(y & Hy & ->)]; [done|].
  by apply Hl.
Qed.

(** A queue whose structures are not touched is the queue it was. *)
Lemma queue_frame lay st st' h l :
  frame hs es st st' → h ∉ hs → (∀ x, x ∈ l → x ∉ es) → NoDup l →
  queue lay st h l → queue lay st' h l.
Proof.
  intros [Hf _] Hh Hl Hnd (H1 & H2 & H3).
  assert (∀ y, y ∈ l → ¬ touched hs es (NextOf y)) as Ht by (intros y ?; by apply Hl).
  split_and!.
  - eapply seg_change, H1; [|by intros y Hy; apply Hf, Ht|done|done].
    intros t [->|(y & Hy & ->)] _; apply Hf; [done|by apply Ht].
  - destruct (last_slot_cases (FirstOf h) l) as [[_ E]|(y & Hy & E)]; rewrite E in *.
    + destruct (Hf (FirstOf h)) as [-> _]; [done|done].
    + destruct (Hf (NextOf y)) as [-> _]; [by apply Ht|done].
  - intros E. destruct (Hf (FirstOf h)) as [_ ->]; [done|]. by apply H3.
Qed.
End frames.

(** * Tactics for one macro *)

(** Break the representation of a queue, at the places its list is cut. *)
Ltac q_split :=
  repeat match goal with
  | H : queue _ _ _ _ |- _ => unfold queue in H; simpl in H
  | H : context [last_slot _ (_ ++ _)] |- _ => rewrite last_slot_app in H
  | H : context [last_slot _ (_ :: _)] |- _ => rewrite last_slot_cons in H
  | H : context [last_slot _ []] |- _ => rewrite last_slot_nil in H
  | H : seg _ _ _ _ (_ ++ _) |- _ => apply seg_app in H
  | H : seg _ _ _ _ (_ :: _) |- _ => simpl in H
  | H : has_words _ _ _ |- _ => unfold has_words in H
  | H : _ ∧ _ |- _ => destruct H
  | H : true = true → _ |- _ => specialize (H eq_refl)
  | H : false = true → _ |- _ => clear H
  | H : NoDup (_ ++ _ :: _) |- _ => apply NoDup_cut in H
  | H : NoDup (_ :: _) |- _ => apply NoDup_cons in H
  | H : NoDup (_ ++ []) |- _ => rewrite app_nil_r in H
  | H : NoDup (_ ++ _) |- _ => apply NoDup_app in H
  | H : _ ∉ _ :: _ |- _ => apply not_elem_of_cons in H
  | H : _ ∉ _ ++ _ |- _ => apply not_elem_of_app in H
  end.
(** The segments left between the stores. *)
Ltac q_seg :=
  repeat first
  [ done
  | eassumption
  | apply seg_ptr_last; [done|]
  | apply seg_ptr_ne; [q_ne|intros; q_ne|]
  | apply seg_adr_ne; [intros; q_ne|] ].
Ltac q_touched :=
  clear; first [ apply touched_last; set_solver | apply touched_last_next; set_solver
               | simpl; set_solver ].
Ltac q_frame :=
  repeat first [ apply frame_refl | apply frame_ptr; [|q_touched]
               | apply frame_adr; [|q_touched] ].
Ltac q_queue :=
  unfold queue; cbn [q_ptr q_adr head_adr elm_adr TAILQ_layout LIST_layout STAILQ_layout SLIST_layout];
  rewrite ?seg_app, ?last_slot_app, ?last_slot_cons, ?last_slot_nil;
  cbn [seg]; split_and!;
  first [ exact I | q_look | intros _; q_look | solve [q_seg] ].
Ltac q_run := repeat q_step.
