(* ===== verification/TailQueue.v ===== *)
(** The tail queue macros ([TAILQ_*]) against the lists they hold: each
    operation, on every branch. *)
From S2P Require Import Prelude QueueCode QueueRep.

Section tailq.
Context (h : loc) (st : q_state).
Abbreviation tq := (queue TAILQ_layout).

Lemma TAILQ_INIT_ok :
  has_words true st (FirstOf h) →
  wp (TAILQ_INIT h) st (λ _ st', tq st' h [] ∧ frame [h] [] st st').
Proof. intros. destruct st as [P A]. q_split. q_run. split; [q_queue|q_frame]. Qed.

Lemma TAILQ_INSERT_HEAD_ok l e :
  NoDup l → e ∉ l → has_words true st (NextOf e) → tq st h l →
  wp (TAILQ_INSERT_HEAD h (Some e)) st (λ _ st',
    tq st' h (e :: l) ∧ frame [h] (e :: l) st st').
Proof.
  intros. destruct st as [P A]. unfold TAILQ_INSERT_HEAD.
  destruct l as [|y l]; q_split; q_run; (split; [q_queue|q_frame]).
Qed.

Lemma TAILQ_INSERT_TAIL_ok l e :
  NoDup l → e ∉ l → has_words true st (NextOf e) → tq st h l →
  wp (TAILQ_INSERT_TAIL h (Some e)) st (λ _ st',
    tq st' h (l ++ [e]) ∧ frame [h] (e :: l) st st').
Proof.
  intros. destruct st as [P A]. unfold TAILQ_INSERT_TAIL.
  q_split; q_run; (split; [q_queue|q_frame]).
Qed.

Lemma TAILQ_INSERT_AFTER_ok l1 p l2 e :
  NoDup (l1 ++ p :: l2) → e ∉ l1 ++ p :: l2 → has_words true st (NextOf e) →
  tq st h (l1 ++ p :: l2) →
  wp (TAILQ_INSERT_AFTER h (Some p) (Some e)) st (λ _ st',
    tq st' h (l1 ++ p :: e :: l2) ∧ frame [h] (e :: l1 ++ p :: l2) st st').
Proof.
  intros. destruct st as [P A]. unfold TAILQ_INSERT_AFTER.
  destruct l2 as [|y l2]; q_split; q_run; (split; [q_queue|q_frame]).
Qed.

Lemma TAILQ_INSERT_BEFORE_ok l1 p l2 e :
  NoDup (l1 ++ p :: l2) → e ∉ l1 ++ p :: l2 → has_words true st (NextOf e) →
  tq st h (l1 ++ p :: l2) →
  wp (TAILQ_INSERT_BEFORE (Some p) (Some e)) st (λ _ st',
    tq st' h (l1 ++ e :: p :: l2) ∧ frame [h] (e :: l1 ++ p :: l2) st st').
Proof.
  intros. destruct st as [P A]. unfold TAILQ_INSERT_BEFORE.
  q_split; q_run; (split; [q_queue|q_frame]).
Qed.

Lemma TAILQ_REMOVE_ok l1 e l2 :
  NoDup (l1 ++ e :: l2) → tq st h (l1 ++ e :: l2) →
  wp (TAILQ_REMOVE h (Some e)) st (λ _ st',
    tq st' h (l1 ++ l2) ∧ frame [h] (l1 ++ e :: l2) st st').
Proof.
  intros. destruct st as [P A]. unfold TAILQ_REMOVE.
  destruct l2 as [|y l2]; q_split; q_run; (split; [q_queue|q_frame]).
Qed.

Lemma TAILQ_LAST_ok l :
  tq st h l → wp (TAILQ_LAST h) st (λ r st', r = last l ∧ st' = st).
Proof.
  intros. unfold TAILQ_LAST. destruct st as [P A].
  destruct l as [|y l _] using rev_ind; q_split; q_run; [done|].
  by rewrite last_snoc.
Qed.

Lemma TAILQ_PREV_ok l1 e l2 :
  tq st h (l1 ++ e :: l2) →
  wp (TAILQ_PREV (Some e)) st (λ r st', r = last l1 ∧ st' = st).
Proof.
  intros. unfold TAILQ_PREV. destruct st as [P A].
  destruct l1 as [|y l1 _] using rev_ind; simpl in *; q_split; q_run; [done|].
  by rewrite last_snoc.
Qed.
End tailq.

Section two_tailqs.
Context (h1 h2 : loc) (Hne : h1 ≠ h2) (st : q_state).
Abbreviation tq := (queue TAILQ_layout).

Lemma TAILQ_CONCAT_ok l1 l2 :
  NoDup (l1 ++ l2) → tq st h1 l1 → tq st h2 l2 →
  wp (TAILQ_CONCAT h1 h2) st (λ _ st',
    tq st' h1 (l1 ++ l2) ∧ tq st' h2 [] ∧ frame [h1; h2] (l1 ++ l2) st st').
Proof.
  intros. destruct st as [P A]. unfold TAILQ_CONCAT.
  destruct l2 as [|y l2]; q_split; q_run.
  - rewrite app_nil_r. split_and!; [q_queue..|q_frame].
  - split_and!; [q_queue..|q_frame].
Qed.

Lemma TAILQ_SWAP_ok l1 l2 :
  NoDup (l1 ++ l2) → tq st h1 l1 → tq st h2 l2 →
  wp (TAILQ_SWAP h1 h2) st (λ _ st',
    tq st' h1 l2 ∧ tq st' h2 l1 ∧ frame [h1; h2] (l1 ++ l2) st st').
Proof.
  intros. destruct st as [P A]. unfold TAILQ_SWAP.
  destruct l1 as [|x l1], l2 as [|y l2]; simpl app in *; q_split; q_run;
    (split_and!; [q_queue..|q_frame]).
Qed.
End two_tailqs.
