(* ===== verification/QueueLoops.v ===== *)
(** The loops of the list macros: traversals, traversals whose body may unlink
    the current element, and the search for a predecessor. *)
From S2P Require Import Prelude QueueCode QueueRep.

Section loops.
Context (l : list loc) (next : ptr → Q ptr) (body : ptr → Q unit).
Context (I : list loc → q_state → Prop).

(** A traversal runs its body on every element once, in order, when [next]
    steps along [l] after each run of the body. *)
Lemma wp_foreach fuel st :
  (∀ l1 x l2 st, l = l1 ++ x :: l2 → I l1 st →
     wp (body (Some x)) st (λ _ st', I (l1 ++ [x]) st' ∧
       wp (next (Some x)) st' (λ r st'', r = head l2 ∧ st'' = st'))) →
  I [] st → length l < fuel →
  wp (foreach fuel next body (head l)) st (λ r st', r = l ∧ I l st').
Proof.
  intros Hbody HI Hf. unfold foreach.
  eapply (wp_loop (λ n '(var, seen) st, ∃ l2, l = seen ++ l2 ∧ var = head l2 ∧
    n = length l2 ∧ I seen st)); [|by exists l|done].
  intros n [var seen] s (l2 & Hl & -> & -> & Hs). destruct l2 as [|x l2]; simpl.
  { apply wp_ret. rewrite app_nil_r in Hl. by rewrite Hl. }
  apply wp_bind. eapply wp_mono; [by apply (Hbody _ _ _ s Hl)|].
  intros [] s1 [HI1 Hn]. apply wp_bind. eapply wp_mono; [exact Hn|].
  intros r s2 [-> ->]. apply wp_ret. exists (length l2). split; [lia|].
  exists l2. by rewrite <-app_assoc.
Qed.

(** The same when the successor is read before the body runs. *)
Lemma wp_foreach_safe fuel st :
  (∀ l1 x l2 st, l = l1 ++ x :: l2 → I l1 st →
     wp (next (Some x)) st (λ r st', r = head l2 ∧ st' = st ∧
       wp (body (Some x)) st (λ _ st', I (l1 ++ [x]) st'))) →
  I [] st → length l < fuel →
  wp (foreach_safe fuel next body (head l)) st (λ r st', r = l ∧ I l st').
Proof.
  intros Hbody HI Hf. unfold foreach_safe.
  eapply (wp_loop (λ n '(var, seen) st, ∃ l2, l = seen ++ l2 ∧ var = head l2 ∧
    n = length l2 ∧ I seen st)); [|by exists l|done].
  intros n [var seen] s (l2 & Hl & -> & -> & Hs). destruct l2 as [|x l2]; simpl.
  { apply wp_ret. rewrite app_nil_r in Hl. by rewrite Hl. }
  apply wp_bind. eapply wp_mono; [by apply (Hbody _ _ _ s Hl)|].
  intros r s1 (-> & -> & Hb). apply wp_bind. eapply wp_mono; [exact Hb|].
  intros [] s2 HI2. apply wp_ret. exists (length l2). split; [lia|].
  exists l2. by rewrite <-app_assoc.
Qed.
End loops.

Section reads.
Context (lay : layout) (h : loc) (st : q_state).

Lemma wp_ld_first l :
  queue lay st h l → wp (ld_first h) st (λ r st', r = head l ∧ st' = st).
Proof. intros. destruct st as [P A]. destruct l; q_split; by q_run. Qed.

Lemma wp_ld_next l1 x l2 :
  queue lay st h (l1 ++ x :: l2) →
  wp (ld_next (Some x)) st (λ r st', r = head l2 ∧ st' = st).
Proof. intros. destruct st as [P A]. destruct l2; q_split; by q_run. Qed.

(** The element before [e], searched from the first one. *)
Lemma wp_find_prev fuel l1 p e l2 :
  NoDup (l1 ++ p :: e :: l2) → queue lay st h (l1 ++ p :: e :: l2) →
  length l1 + 1 < fuel →
  wp (find_prev fuel (head (l1 ++ p :: e :: l2)) (Some e)) st
    (λ r st', r = Some p ∧ st' = st).
Proof.
  intros Hnd Hq Hf. unfold find_prev.
  eapply (wp_loop (λ n cur s, s = st ∧ ∃ k1 k2, l1 ++ [p] = k1 ++ k2 ∧ k2 ≠ [] ∧
    cur = head k2 ∧ n = length k2)); [|split; [done|exists [], (l1 ++ [p])]|].
  2:{ split_and!; [done|by destruct l1|by destruct l1|done]. }
  2:{ rewrite length_app. simpl. lia. }
  intros n cur s (-> & k1 & k2 & Hk & Hne & -> & ->).
  destruct k2 as [|x k2]; [done|]. simpl head.
  assert (l1 ++ p :: e :: l2 = k1 ++ x :: (k2 ++ e :: l2)) as Hl.
  { change (p :: e :: l2) with ([p] ++ e :: l2). rewrite app_assoc, Hk, <-app_assoc. done. }
  rewrite Hl in Hq, Hnd. apply wp_bind. eapply wp_mono; [by eapply wp_ld_next|].
  intros r s [-> ->]. destruct k2 as [|y k2]; simpl.
  - unfold same. rewrite bool_decide_true by done. apply wp_ret.
    by apply app_inj_tail in Hk as [_ ->].
  - unfold same. rewrite bool_decide_false.
    2:{ intros [= ->]. apply NoDup_cut in Hnd as (_ & _ & Hnd).
        simpl in Hnd. apply NoDup_cut in Hnd as (_ & Hnd & _). set_solver. }
    apply wp_bind. eapply wp_mono; [by eapply wp_ld_next|]. intros r s [-> ->].
    apply wp_ret. exists (length (y :: k2)). split; [simpl; lia|].
    split; [done|]. exists (k1 ++ [x]), (y :: k2). by rewrite <-app_assoc.
Qed.
End reads.
