(* ===== verification/ListQueue.v ===== *)
(** The macros [SLIST_*], [STAILQ_*] and [LIST_*] against the lists they hold:
    each operation, on every branch. *)
From S2P Require Import Prelude QueueCode QueueRep QueueLoops.

Ltac q_open := intros; match goal with st : q_state |- _ => destruct st as [P A] end.
Ltac q_finish := q_split; q_run; (split_and!; [q_queue..|q_frame]).

Section slist.
Context (h : loc) (st : q_state).
Abbreviation sl := (queue SLIST_layout).

Lemma SLIST_INIT_ok :
  has_words false st (FirstOf h) →
  wp (SLIST_INIT h) st (λ _ st', sl st' h [] ∧ frame [h] [] st st').
Proof. q_open. q_finish. Qed.

Lemma SLIST_INSERT_HEAD_ok l e :
  NoDup l → e ∉ l → has_words false st (NextOf e) → sl st h l →
  wp (SLIST_INSERT_HEAD h (Some e)) st (λ _ st',
    sl st' h (e :: l) ∧ frame [h] (e :: l) st st').
Proof. q_open. unfold SLIST_INSERT_HEAD. destruct l as [|y l]; q_finish. Qed.

Lemma SLIST_INSERT_AFTER_ok l1 p l2 e :
  NoDup (l1 ++ p :: l2) → e ∉ l1 ++ p :: l2 → has_words false st (NextOf e) →
  sl st h (l1 ++ p :: l2) →
  wp (SLIST_INSERT_AFTER (Some p) (Some e)) st (λ _ st',
    sl st' h (l1 ++ p :: e :: l2) ∧ frame [h] (e :: l1 ++ p :: l2) st st').
Proof. q_open. unfold SLIST_INSERT_AFTER. destruct l2 as [|y l2]; q_finish. Qed.

Lemma SLIST_REMOVE_HEAD_ok e l :
  NoDup (e :: l) → sl st h (e :: l) →
  wp (SLIST_REMOVE_HEAD h) st (λ _ st', sl st' h l ∧ frame [h] (e :: l) st st').
Proof. q_open. unfold SLIST_REMOVE_HEAD. destruct l as [|y l]; q_finish. Qed.

Lemma SLIST_REMOVE_AFTER_ok l1 p e l2 :
  NoDup (l1 ++ p :: e :: l2) → sl st h (l1 ++ p :: e :: l2) →
  wp (SLIST_REMOVE_AFTER (Some p)) st (λ _ st',
    sl st' h (l1 ++ p :: l2) ∧ frame [h] (l1 ++ p :: e :: l2) st st').
Proof. q_open. unfold SLIST_REMOVE_AFTER. destruct l2 as [|y l2]; q_finish. Qed.
End slist.

Section stailq.
Context (h : loc) (st : q_state).
Abbreviation sq := (queue STAILQ_layout).

Lemma STAILQ_INIT_ok :
  has_words true st (FirstOf h) →
  wp (STAILQ_INIT h) st (λ _ st', sq st' h [] ∧ frame [h] [] st st').
Proof. q_open. q_finish. Qed.

Lemma STAILQ_INSERT_HEAD_ok l e :
  NoDup l → e ∉ l → has_words false st (NextOf e) → sq st h l →
  wp (STAILQ_INSERT_HEAD h (Some e)) st (λ _ st',
    sq st' h (e :: l) ∧ frame [h] (e :: l) st st').
Proof. q_open. unfold STAILQ_INSERT_HEAD. destruct l as [|y l]; q_finish. Qed.

Lemma STAILQ_INSERT_TAIL_ok l e :
  NoDup l → e ∉ l → has_words false st (NextOf e) → sq st h l →
  wp (STAILQ_INSERT_TAIL h (Some e)) st (λ _ st',
    sq st' h (l ++ [e]) ∧ frame [h] (e :: l) st st').
Proof. q_open. unfold STAILQ_INSERT_TAIL. q_finish. Qed.

Lemma STAILQ_INSERT_AFTER_ok l1 p l2 e :
  NoDup (l1 ++ p :: l2) → e ∉ l1 ++ p :: l2 → has_words false st (NextOf e) →
  sq st h (l1 ++ p :: l2) →
  wp (STAILQ_INSERT_AFTER h (Some p) (Some e)) st (λ _ st',
    sq st' h (l1 ++ p :: e :: l2) ∧ frame [h] (e :: l1 ++ p :: l2) st st').
Proof. q_open. unfold STAILQ_INSERT_AFTER. destruct l2 as [|y l2]; q_finish. Qed.

Lemma STAILQ_REMOVE_HEAD_ok e l :
  NoDup (e :: l) → sq st h (e :: l) →
  wp (STAILQ_REMOVE_HEAD h) st (λ _ st', sq st' h l ∧ frame [h] (e :: l) st st').
Proof. q_open. unfold STAILQ_REMOVE_HEAD. destruct l as [|y l]; q_finish. Qed.

Lemma STAILQ_REMOVE_AFTER_ok l1 p e l2 :
  NoDup (l1 ++ p :: e :: l2) → sq st h (l1 ++ p :: e :: l2) →
  wp (STAILQ_REMOVE_AFTER h (Some p)) st (λ _ st',
    sq st' h (l1 ++ p :: l2) ∧ frame [h] (l1 ++ p :: e :: l2) st st').
Proof. q_open. unfold STAILQ_REMOVE_AFTER. destruct l2 as [|y l2]; q_finish. Qed.

Lemma STAILQ_LAST_ok l :
  sq st h l → wp (STAILQ_LAST h) st (λ r st', r = last l ∧ st' = st).
Proof.
  q_open. unfold STAILQ_LAST.
  destruct l as [|y l _] using rev_ind; [q_split; by q_run|].
  rewrite last_snoc. destruct l as [|z l]; simpl in *; q_split; by q_run.
Qed.
End stailq.

Section two_stailqs.
Context (h1 h2 : loc) (Hne : h1 ≠ h2) (st : q_state).
Abbreviation sq := (queue STAILQ_layout).

Lemma STAILQ_CONCAT_ok l1 l2 :
  NoDup (l1 ++ l2) → sq st h1 l1 → sq st h2 l2 →
  wp (STAILQ_CONCAT h1 h2) st (λ _ st',
    sq st' h1 (l1 ++ l2) ∧ sq st' h2 [] ∧ frame [h1; h2] (l1 ++ l2) st st').
Proof.
  q_open. unfold STAILQ_CONCAT.
  destruct l2 as [|y l2]; [rewrite app_nil_r in *|]; q_finish.
Qed.

Lemma STAILQ_SWAP_ok l1 l2 :
  NoDup (l1 ++ l2) → sq st h1 l1 → sq st h2 l2 →
  wp (STAILQ_SWAP h1 h2) st (λ _ st',
    sq st' h1 l2 ∧ sq st' h2 l1 ∧ frame [h1; h2] (l1 ++ l2) st st').
Proof.
  q_open. unfold STAILQ_SWAP.
  destruct l1 as [|x l1], l2 as [|y l2]; simpl app in *; q_finish.
Qed.
End two_stailqs.

Section list_macros.
Context (h : loc) (st : q_state).
Abbreviation lq := (queue LIST_layout).

Lemma LIST_INIT_ok :
  has_words false st (FirstOf h) →
  wp (LIST_INIT h) st (λ _ st', lq st' h [] ∧ frame [h] [] st st').
Proof. q_open. q_finish. Qed.

Lemma LIST_INSERT_HEAD_ok l e :
  NoDup l → e ∉ l → has_words true st (NextOf e) → lq st h l →
  wp (LIST_INSERT_HEAD h (Some e)) st (λ _ st',
    lq st' h (e :: l) ∧ frame [h] (e :: l) st st').
Proof. q_open. unfold LIST_INSERT_HEAD. destruct l as [|y l]; q_finish. Qed.

Lemma LIST_INSERT_AFTER_ok l1 p l2 e :
  NoDup (l1 ++ p :: l2) → e ∉ l1 ++ p :: l2 → has_words true st (NextOf e) →
  lq st h (l1 ++ p :: l2) →
  wp (LIST_INSERT_AFTER (Some p) (Some e)) st (λ _ st',
    lq st' h (l1 ++ p :: e :: l2) ∧ frame [h] (e :: l1 ++ p :: l2) st st').
Proof. q_open. unfold LIST_INSERT_AFTER. destruct l2 as [|y l2]; q_finish. Qed.

Lemma LIST_INSERT_BEFORE_ok l1 p l2 e :
  NoDup (l1 ++ p :: l2) → e ∉ l1 ++ p :: l2 → has_words true st (NextOf e) →
  lq st h (l1 ++ p :: l2) →
  wp (LIST_INSERT_BEFORE (Some p) (Some e)) st (λ _ st',
    lq st' h (l1 ++ e :: p :: l2) ∧ frame [h] (e :: l1 ++ p :: l2) st st').
Proof. q_open. unfold LIST_INSERT_BEFORE. q_finish. Qed.

Lemma LIST_REMOVE_ok l1 e l2 :
  NoDup (l1 ++ e :: l2) → lq st h (l1 ++ e :: l2) →
  wp (LIST_REMOVE (Some e)) st (λ _ st',
    lq st' h (l1 ++ l2) ∧ frame [h] (l1 ++ e :: l2) st st').
Proof. q_open. unfold LIST_REMOVE. destruct l2 as [|y l2]; q_finish. Qed.
End list_macros.

Lemma LIST_SWAP_ok h1 h2 st l1 l2 :
  h1 ≠ h2 → NoDup (l1 ++ l2) → queue LIST_layout st h1 l1 → queue LIST_layout st h2 l2 →
  wp (LIST_SWAP h1 h2) st (λ _ st',
    queue LIST_layout st' h1 l2 ∧ queue LIST_layout st' h2 l1 ∧
    frame [h1; h2] (l1 ++ l2) st st').
Proof.
  q_open. unfold LIST_SWAP.
  destruct l1 as [|x l1], l2 as [|y l2]; simpl app in *; q_finish.
Qed.

(** [SLIST_REMOVE] and [STAILQ_REMOVE] search the predecessor first. *)
Lemma wp_remove lay h st fuel l1 e l2 (rm_head : Q unit) (rm_after : ptr → Q unit)
    (R : q_state → Prop) :
  NoDup (l1 ++ e :: l2) → queue lay st h (l1 ++ e :: l2) → length l1 < fuel →
  (l1 = [] → wp rm_head st (λ _, R)) →
  (∀ k p, l1 = k ++ [p] → wp (rm_after (Some p)) st (λ _, R)) →
  wp (f ← ld_first h;
      (if same f (Some e) then rm_head
       else cur ← ld_first h; cur ← find_prev fuel cur (Some e); rm_after cur);;
      TRASHIT) st (λ _, R).
Proof.
  intros Hnd Hq Hf Hh Ha. apply wp_bind.
  eapply wp_mono; [by eapply wp_ld_first|]. intros f s [-> ->].
  apply wp_bind. eapply (wp_mono _ _ (λ _, R)); [|intros [] s ?; by apply wp_ret].
  destruct l1 as [|p l1 _] using rev_ind; simpl.
  - unfold same. rewrite bool_decide_true by done. by apply Hh.
  - assert (length l1 + 1 < fuel) by (rewrite length_app in Hf; simpl in Hf; lia).
    unfold same. rewrite bool_decide_false.
    2:{ destruct l1; simpl in *; intros [= ->]; nodup_flat; set_solver. }
    rewrite <-app_assoc in *. simpl in *.
    apply wp_bind. eapply wp_mono; [by eapply wp_ld_first|]. intros f s [-> ->].
    apply wp_bind. eapply wp_mono; [by eapply wp_find_prev|]. intros c s [-> ->].
    by eapply Ha.
Qed.

Lemma SLIST_REMOVE_ok h st fuel l1 e l2 :
  NoDup (l1 ++ e :: l2) → queue SLIST_layout st h (l1 ++ e :: l2) → length l1 < fuel →
  wp (SLIST_REMOVE fuel h (Some e)) st (λ _ st',
    queue SLIST_layout st' h (l1 ++ l2) ∧ frame [h] (l1 ++ e :: l2) st st').
Proof.
  intros. eapply wp_remove; [done..| |].
  - intros ->. by apply SLIST_REMOVE_HEAD_ok.
  - intros k p ->. rewrite <-!app_assoc in *. by apply SLIST_REMOVE_AFTER_ok.
Qed.

Lemma STAILQ_REMOVE_ok h st fuel l1 e l2 :
  NoDup (l1 ++ e :: l2) → queue STAILQ_layout st h (l1 ++ e :: l2) → length l1 < fuel →
  wp (STAILQ_REMOVE fuel h (Some e)) st (λ _ st',
    queue STAILQ_layout st' h (l1 ++ l2) ∧ frame [h] (l1 ++ e :: l2) st st').
Proof.
  intros. eapply wp_remove; [done..| |].
  - intros ->. by apply STAILQ_REMOVE_HEAD_ok.
  - intros k p ->. rewrite <-!app_assoc in *. by apply STAILQ_REMOVE_AFTER_ok.
Qed.
