(* ===== verification/QueueSpec.v ===== *)
(** The contract of the four families of list macros: a client owns a set of
    heads and a set of elements, and each macro acts on the finite map from
    heads to the lists they hold. *)
From S2P Require Import Prelude QueueCode QueueRep.

(** One use of a macro. [FOREACH] stands for a traversal whose body leaves the
    queue alone, [DRAIN] for a [_SAFE] traversal whose body removes the current
    element. *)
Inductive q_op :=
| INIT (h : loc) | EMPTY (h : loc) | FIRST (h : loc) | LAST (h : loc)
| NEXT (h e : loc) | PREV (h e : loc)
| INSERT_HEAD (h e : loc) | INSERT_TAIL (h e : loc)
| INSERT_AFTER (h p e : loc) | INSERT_BEFORE (h p e : loc)
| REMOVE (h e : loc) | REMOVE_HEAD (h : loc) | REMOVE_AFTER (h p : loc)
| CONCAT (h1 h2 : loc) | SWAP (h1 h2 : loc)
| FOREACH (h : loc) | FOREACH_REVERSE (h : loc) | DRAIN (h : loc) | DRAIN_REVERSE (h : loc).

Inductive q_res := RUnit | RBool (b : bool) | RPtr (p : ptr) | RList (l : list loc).

Abbreviation queues := (gmap loc (list loc)).

(** The list around one of its elements. *)
Fixpoint cut (x : loc) (l : list loc) : option (list loc * list loc) :=
  match l with
  | [] => None
  | y :: l => if decide (x = y) then Some ([], l) else
      match cut x l with Some (l1, l2) => Some (y :: l1, l2) | None => None end
  end.

Definition unqueued (q : queues) (e : loc) : Prop := map_Forall (λ _ l, e ∉ l) q.

Section spec.
Context (H E : gset loc).

Definition fresh (q : queues) (e : loc) : Prop := e ∈ E ∧ unqueued q e.
#[local] Instance fresh_dec q e : Decision (fresh q e).
Proof. unfold fresh, unqueued. apply _. Defined.

(** What each macro does to the lists, and its result; [None] when the client
    may not use it: an unknown head, an element already in a queue inserted
    again, an element that is not in the queue it is looked for in. *)
Definition q_spec (op : q_op) (q : queues) : option (q_res * queues) :=
  let at_ h e (k : list loc → list loc → option (q_res * queues)) :=
    match q !! h with
    | Some l => match cut e l with Some (l1, l2) => k l1 l2 | None => None end
    | None => None
    end in
  let on h k := match q !! h with Some l => k l | None => None end in
  match op with
  | INIT h => if decide (h ∈ H) then Some (RUnit, <[h:=[]]> q) else None
  | EMPTY h => on h (λ l, Some (RBool (bool_decide (l = [])), q))
  | FIRST h => on h (λ l, Some (RPtr (head l), q))
  | LAST h => on h (λ l, Some (RPtr (last l), q))
  | NEXT h e => at_ h e (λ _ l2, Some (RPtr (head l2), q))
  | PREV h e => at_ h e (λ l1 _, Some (RPtr (last l1), q))
  | INSERT_HEAD h e => on h (λ l,
      if decide (fresh q e) then Some (RUnit, <[h:=e :: l]> q) else None)
  | INSERT_TAIL h e => on h (λ l,
      if decide (fresh q e) then Some (RUnit, <[h:=l ++ [e]]> q) else None)
  | INSERT_AFTER h p e => at_ h p (λ l1 l2,
      if decide (fresh q e) then Some (RUnit, <[h:=l1 ++ p :: e :: l2]> q) else None)
  | INSERT_BEFORE h p e => at_ h p (λ l1 l2,
      if decide (fresh q e) then Some (RUnit, <[h:=l1 ++ e :: p :: l2]> q) else None)
  | REMOVE h e => at_ h e (λ l1 l2, Some (RUnit, <[h:=l1 ++ l2]> q))
  | REMOVE_HEAD h => on h (λ l,
      match l with [] => None | _ :: l' => Some (RUnit, <[h:=l']> q) end)
  | REMOVE_AFTER h p => at_ h p (λ l1 l2,
      match l2 with [] => None | _ :: l2' => Some (RUnit, <[h:=l1 ++ p :: l2']> q) end)
  | CONCAT h1 h2 => on h1 (λ l1, on h2 (λ l2,
      if decide (h1 = h2) then None else
      Some (RUnit, <[h1:=l1 ++ l2]> (<[h2:=[]]> q))))
  | SWAP h1 h2 => on h1 (λ l1, on h2 (λ l2,
      if decide (h1 = h2) then None else
      Some (RUnit, <[h1:=l2]> (<[h2:=l1]> q))))
  | FOREACH h => on h (λ l, Some (RList l, q))
  | FOREACH_REVERSE h => on h (λ l, Some (RList (rev l), q))
  | DRAIN h => on h (λ l, Some (RList l, <[h:=[]]> q))
  | DRAIN_REVERSE h => on h (λ l, Some (RList (rev l), <[h:=[]]> q))
  end.

Fixpoint q_specs (ops : list q_op) (q : queues) : option (list q_res * queues) :=
  match ops with
  | [] => Some ([], q)
  | op :: ops =>
      match q_spec op q with
      | None => None
      | Some (r, q1) =>
          match q_specs ops q1 with
          | None => None
          | Some (rs, q2) => Some (r :: rs, q2)
          end
      end
  end.

(** The queues are disjoint lists of the client's elements. *)
Record queues_wf (q : queues) : Prop := {
  wf_heads : ∀ h l, q !! h = Some l → h ∈ H;
  wf_elms : ∀ h l x, q !! h = Some l → x ∈ l → x ∈ E;
  wf_nodup : ∀ h l, q !! h = Some l → NoDup l;
  wf_disjoint : ∀ h1 h2 l1 l2 x,
    q !! h1 = Some l1 → q !! h2 = Some l2 → x ∈ l1 → x ∈ l2 → h1 = h2
}.

(** The heap holds these queues, in the client's structures. *)
Record holds (lay : layout) (st : q_state) (q : queues) : Prop := {
  holds_wf : queues_wf q;
  holds_heads : ∀ h, h ∈ H → has_words (head_adr lay) st (FirstOf h);
  holds_elms : ∀ e, e ∈ E → has_words (elm_adr lay) st (NextOf e);
  holds_queue : ∀ h l, q !! h = Some l → queue lay st h l
}.
End spec.

(** A family of macros: the program of each macro it has, and the promise that
    the program does what [q_spec] says. *)
Class QueueFamily (lay : layout) (exec : nat → q_op → option (Q q_res)) : Prop :=
  family_ok H E fuel op m st q r q' :
    exec fuel op = Some m → q_spec H E op q = Some (r, q') →
    holds H E lay st q → size E < fuel →
    wp m st (λ r' st', r' = r ∧ holds H E lay st' q').

Section clients.
Context (exec : nat → q_op → option (Q q_res)).

Fixpoint exec_all (fuel : nat) (ops : list q_op) : option (Q (list q_res)) :=
  match ops with
  | [] => Some (ret [])
  | op :: ops =>
      match exec fuel op, exec_all fuel ops with
      | Some m, Some ms => Some (r ← m; rs ← ms; ret (r :: rs))
      | _, _ => None
      end
  end.

(** A client program: any sequence of macros of the family. *)
Lemma exec_all_ok lay `{!QueueFamily lay exec} H E fuel ops m st q rs q' :
  exec_all fuel ops = Some m → q_specs H E ops q = Some (rs, q') →
  holds H E lay st q → size E < fuel →
  wp m st (λ rs' st', rs' = rs ∧ holds H E lay st' q').
Proof.
  revert m st q rs. induction ops as [|op ops IH]; intros m st q rs; simpl.
  { intros [= <-] [= <- <-] ? ?. by apply wp_ret. }
  destruct (exec fuel op) as [m1|] eqn:E1; [|done].
  destruct (exec_all fuel ops) as [ms|]; [|done]. intros [= <-].
  destruct (q_spec H E op q) as [[r q1]|] eqn:E2; [|done].
  destruct (q_specs H E ops q1) as [[rs1 q2]|] eqn:E3; [|done]. intros [= <- <-] Hh Hf.
  apply wp_bind. eapply wp_mono; [by eapply family_ok|]. intros r' s [-> Hs].
  apply wp_bind. eapply wp_mono; [by eapply IH|]. intros rs' s' [-> Hs'].
  by apply wp_ret.
Qed.
End clients.
