(* ===== verification/QueueProps.v ===== *)
(** The four families of list macros implement their contract, and so does
    every client program made of them. *)
From S2P Require Import Prelude QueueCode QueueRep TailQueue QueueLoops ListQueue QueueSpec.

Lemma cut_app x l l1 l2 : cut x l = Some (l1, l2) → l = l1 ++ x :: l2.
Proof.
  revert l1 l2. induction l as [|y l IH]; intros l1 l2; simpl; [done|].
  destruct (decide (x = y)) as [->|]; [by intros [= <- <-]|].
  destruct (cut x l) as [[k1 k2]|]; [|done]. intros [= <- <-]. by rewrite (IH k1 k2).
Qed.

Lemma frame_trans hs es st1 st2 st3 :
  frame hs es st1 st2 → frame hs es st2 st3 → frame hs es st1 st3.
Proof.
  intros [H1 H2] [H3 H4]. split; [|by eauto].
  intros s Hs. destruct (H1 s Hs) as [<- <-]. by apply H3.
Qed.
Lemma frame_mono hs es es' st st' : es ⊆ es' → frame hs es st st' → frame hs es' st st'.
Proof.
  intros Hes [H1 H2]. split; [|done]. intros s Hs. apply H1. intros Ht. apply Hs.
  destruct s; [done|by apply Hes].
Qed.

Section steps.
Context (H E : gset loc) (lay : layout).
Implicit Types q : queues.

Lemma wf_insert q h l' :
  queues_wf H E q → h ∈ H → NoDup l' →
  (∀ x, x ∈ l' → (∃ l, q !! h = Some l ∧ x ∈ l) ∨ fresh E q x) →
  queues_wf H E (<[h:=l']> q).
Proof.
  intros [W1 W2 W3 W4] Hh Hnd Hl.
  assert (∀ h2 l2 x, q !! h2 = Some l2 → x ∈ l2 → x ∈ l' → h2 = h) as Hother.
  { intros h2 l2 x E2 Hx Hx'. destruct (Hl x Hx') as [(l & E1 & Hxl)|[_ Hf]].
    - by eapply W4.
    - by destruct (Hf h2 l2 E2). }
  split.
  - intros h2 l2 [[<- <-]|[? ?]]%lookup_insert_Some; [done|by eapply W1].
  - intros h2 l2 x [[<- <-]|[? ?]]%lookup_insert_Some Hx; [|by eapply W2].
    destruct (Hl x Hx) as [(l & E1 & Hxl)|[? _]]; [by eapply W2|done].
  - intros h2 l2 [[<- <-]|[? ?]]%lookup_insert_Some; [done|by eapply W3].
  - intros h1 h2 l1 l2 x [[<- <-]|[? E1]]%lookup_insert_Some
      [[<- <-]|[? E2]]%lookup_insert_Some Hx1 Hx2; [done|..].
    + symmetry. by eapply Hother.
    + by eapply Hother.
    + by eapply W4.
Qed.

Lemma wf_insert2 q h1 h2 l1 l2 l1' l2' :
  queues_wf H E q → h1 ≠ h2 → q !! h1 = Some l1 → q !! h2 = Some l2 →
  l1' ++ l2' ≡ₚ l1 ++ l2 → queues_wf H E (<[h1:=l1']> (<[h2:=l2']> q)).
Proof.
  intros [W1 W2 W3 W4] Hne E1 E2 Hp.
  assert (NoDup (l1 ++ l2)) as Hnd.
  { apply NoDup_app. split_and!; [by eapply W3| |by eapply W3].
    intros x Hx1 Hx2. by destruct (W4 h1 h2 l1 l2 x). }
  rewrite <-Hp in Hnd. apply NoDup_app in Hnd as (Hn1 & Hdis & Hn2).
  assert (∀ x, x ∈ l1' ∨ x ∈ l2' → x ∈ l1 ∨ x ∈ l2) as Hin.
  { intros x. by rewrite <-!elem_of_app, Hp. }
  assert (∀ h k x, q !! h = Some k → x ∈ k → x ∈ l1' ∨ x ∈ l2' → h = h1 ∨ h = h2) as Ho.
  { intros h k x Ek Hx [?|?]%Hin; [left|right]; by eapply W4. }
  split.
  - intros h l [[<- <-]|[? [[<- <-]|[? ?]]%lookup_insert_Some]]%lookup_insert_Some;
      by eapply W1.
  - intros h l x [[<- <-]|[? [[<- <-]|[? ?]]%lookup_insert_Some]]%lookup_insert_Some Hx;
      [..|by eapply W2]; destruct (Hin x) as [?|?]; eauto.
  - intros h l [[<- <-]|[? [[<- <-]|[? ?]]%lookup_insert_Some]]%lookup_insert_Some;
      [done|done|by eapply W3].
  - intros h k la lb x
      [[<- <-]|[? [[<- <-]|[? Ea]]%lookup_insert_Some]]%lookup_insert_Some
      [[<- <-]|[? [[<- <-]|[? Eb]]%lookup_insert_Some]]%lookup_insert_Some Hxa Hxb;
      try done; try (by destruct (Hdis x)); try (by eapply W4).
    + destruct (Ho k lb x); auto; congruence.
    + destruct (Ho k lb x); auto; congruence.
    + destruct (Ho h la x); auto; congruence.
    + destruct (Ho h la x); auto; congruence.
Qed.

(** The queues no operation touched are still held. *)
Lemma holds_step q q' hs es st st' :
  holds H E lay st q → queues_wf H E q' → frame hs es st st' →
  (∀ h l, q' !! h = Some l → h ∈ hs → queue lay st' h l) →
  (∀ h, h ∉ hs → q' !! h = q !! h) →
  (∀ h l x, q !! h = Some l → h ∉ hs → x ∈ l → x ∉ es) →
  holds H E lay st' q'.
Proof.
  intros [Hwf Hh He Hq] Hwf' Hf Hin Hsame Hdis.
  split; [done|..].
  - intros h ?. by apply Hf, Hh.
  - intros e ?. by apply Hf, He.
  - intros h l El. destruct (decide (h ∈ hs)) as [|Hn]; [by apply Hin|].
    rewrite Hsame in El by done.
    eapply (queue_frame hs es); [done|done|by intros x; apply (Hdis h l)| |by apply Hq].
    by eapply (wf_nodup _ _ q Hwf).
Qed.

Lemma wp_one q h l' es st (m : Q unit) :
  holds H E lay st q → h ∈ H → NoDup l' →
  (∀ x, x ∈ l' → (∃ l, q !! h = Some l ∧ x ∈ l) ∨ fresh E q x) →
  (∀ x, x ∈ es → (∃ l, q !! h = Some l ∧ x ∈ l) ∨ fresh E q x) →
  wp m st (λ _ st', queue lay st' h l' ∧ frame [h] es st st') →
  wp (m;; ret RUnit) st (λ r st', r = RUnit ∧ holds H E lay st' (<[h:=l']> q)).
Proof.
  intros Hq Hh Hnd Hl Hes Hm. apply wp_bind. eapply wp_mono; [exact Hm|].
  intros [] st' [Hq' Hf]. apply wp_ret. split; [done|].
  assert (queues_wf H E q) as Hwf by apply Hq.
  eapply holds_step; [done|by apply wf_insert|done|..].
  - intros h2 l2 El ->%list_elem_of_singleton. rewrite lookup_insert_eq in El. by simplify_eq.
  - intros h2 Hn. rewrite lookup_insert_ne; [done|]. set_solver.
  - intros h2 l2 x El Hn Hx Hxe. destruct (Hes x Hxe) as [(l & El' & Hxl)|[_ Hfr]].
    + assert (h2 = h) as -> by (by eapply (wf_disjoint _ _ q Hwf)). set_solver.
    + by destruct (Hfr h2 l2 El).
Qed.

Lemma wp_two q h1 h2 l1 l2 l1' l2' st (m : Q unit) :
  holds H E lay st q → h1 ≠ h2 → q !! h1 = Some l1 → q !! h2 = Some l2 →
  l1' ++ l2' ≡ₚ l1 ++ l2 →
  (NoDup (l1 ++ l2) → wp m st (λ _ st', queue lay st' h1 l1' ∧ queue lay st' h2 l2' ∧
    frame [h1; h2] (l1 ++ l2) st st')) →
  wp (m;; ret RUnit) st (λ r st',
    r = RUnit ∧ holds H E lay st' (<[h1:=l1']> (<[h2:=l2']> q))).
Proof.
  intros Hq Hne E1 E2 Hp Hm. assert (queues_wf H E q) as Hwf by apply Hq.
  assert (NoDup (l1 ++ l2)) as Hnd.
  { apply NoDup_app. split_and!; [by eapply wf_nodup| |by eapply wf_nodup].
    intros x Hx1 Hx2. by destruct (wf_disjoint _ _ q Hwf h1 h2 l1 l2 x). }
  apply wp_bind. eapply wp_mono; [exact (Hm Hnd)|].
  intros [] st' (Hq1 & Hq2 & Hf). apply wp_ret. split; [done|].
  eapply holds_step; [done|by eapply wf_insert2|done|..].
  - intros h l [[<- <-]|[? [[<- <-]|[? ?]]%lookup_insert_Some]]%lookup_insert_Some Hin;
      [done|done|set_solver].
  - intros h Hn. rewrite !lookup_insert_ne by set_solver. done.
  - intros h l x El Hn Hx [Hxe|Hxe]%elem_of_app.
    + assert (h = h1) as -> by (by eapply (wf_disjoint _ _ q Hwf)). set_solver.
    + assert (h = h2) as -> by (by eapply (wf_disjoint _ _ q Hwf)). set_solver.
Qed.

Lemma wp_read {A} q st (m : Q A) v (f : A → q_res) :
  holds H E lay st q → wp m st (λ r st', r = v ∧ st' = st) →
  wp (r ← m; ret (f r)) st (λ r st', r = f v ∧ holds H E lay st' q).
Proof.
  intros Hq Hm. apply wp_bind. eapply wp_mono; [exact Hm|]. by intros r s [-> ->].
Qed.

Lemma length_size q st h l :
  holds H E lay st q → q !! h = Some l → length l ≤ size E.
Proof.
  intros Hq El. assert (queues_wf H E q) as Hwf by apply Hq.
  rewrite <-(size_list_to_set (C:=gset loc)) by (by eapply wf_nodup).
  apply subseteq_size. intros x. rewrite elem_of_list_to_set. by eapply wf_elms.
Qed.
End steps.

Section loops.
Context (lay : layout) (h : loc).

(** A traversal whose body leaves the queue alone. *)
Lemma wp_visit fuel st l :
  queue lay st h l → length l < fuel →
  wp (foreach fuel ld_next (λ _, ret tt) (head l)) st (λ r st', r = l ∧ st' = st).
Proof.
  intros Hq Hf. apply (wp_foreach l ld_next _ (λ _ st', st' = st)); [|done|done].
  intros l1 x l2 s -> ->. apply wp_ret. split; [done|]. by eapply wp_ld_next.
Qed.

(** A safe traversal whose body removes the element it is run on, from the
    first element on and from the last one on. *)
Lemma wp_queue_drain (rm : ptr → Q unit) fuel st l :
  (∀ x l2 st, NoDup (x :: l2) → queue lay st h (x :: l2) → x ∈ l →
    wp (rm (Some x)) st (λ _ st', queue lay st' h l2 ∧ frame [h] (x :: l2) st st')) →
  NoDup l → queue lay st h l → length l < fuel →
  wp (foreach_safe fuel ld_next rm (head l)) st (λ r st', r = l ∧
    queue lay st' h [] ∧ frame [h] l st st').
Proof.
  intros Hrm Hnd Hq Hf.
  eapply wp_mono; [apply (wp_foreach_safe l ld_next rm (λ seen st', ∃ l2, l = seen ++ l2 ∧
    queue lay st' h l2 ∧ frame [h] l st st')); [|by exists l|done]|].
  - intros l1 x l2 s Hl (k & Hk & Hqk & Hfr). rewrite Hk in Hl.
    apply app_inv_head in Hl. subst k.
    eapply wp_mono; [by apply (wp_ld_next lay h s [] x l2)|].
    intros r s' [-> ->]. split_and!; [done..|].
    eapply wp_mono; [apply (Hrm x l2 s); [|done|set_solver]|].
    { rewrite Hk in Hnd. by apply NoDup_app in Hnd as (_ & _ & ?). }
    intros [] s2 [Hq2 Hf2]. exists l2. rewrite <-app_assoc. split_and!; [done..|].
    eapply frame_trans; [done|]. eapply frame_mono; [|done]. set_solver.
  - intros r s [-> (l2 & Hl & Hq2 & Hf2)]. rewrite <-(app_nil_r l) in Hl at 1.
    apply app_inv_head in Hl. by subst l2.
Qed.

Lemma last_rev {A} (k : list A) : last (rev k) = head k.
Proof. destruct k as [|y k]; [done|]. simpl. by rewrite last_snoc. Qed.

Lemma wp_drain_reverse prev (rm : ptr → Q unit) fuel st k :
  (∀ l1 x st, NoDup (l1 ++ [x]) → queue lay st h (l1 ++ [x]) → x ∈ k →
    wp (prev (Some x)) st (λ r st', r = last l1 ∧ st' = st) ∧
    wp (rm (Some x)) st (λ _ st', queue lay st' h l1 ∧ frame [h] (l1 ++ [x]) st st')) →
  NoDup k → queue lay st h (rev k) → length k < fuel →
  wp (foreach_safe fuel prev rm (last (rev k))) st (λ r st', r = k ∧
    queue lay st' h [] ∧ frame [h] k st st').
Proof.
  intros Hrm Hnd Hq Hf. rewrite last_rev.
  eapply wp_mono; [apply (wp_foreach_safe k prev rm (λ seen st', ∃ k2, k = seen ++ k2 ∧
    queue lay st' h (rev k2) ∧ frame [h] k st st')); [|by exists k|done]|].
  - intros l1 x l2 s Hl (k2 & Hk & Hqk & Hfr). rewrite Hk in Hl.
    apply app_inv_head in Hl. subst k2. simpl in Hqk.
    assert (x ∈ k) by (rewrite Hk; set_solver).
    assert (NoDup (rev l2 ++ [x])) as Hnd2.
    { change (NoDup (rev (x :: l2))). rewrite <-(Permutation_rev (x :: l2)). rewrite Hk in Hnd.
      by apply NoDup_app in Hnd as (_ & _ & ?). }
    destruct (Hrm (rev l2) x s) as [Hp Hr]; [done..|].
    eapply wp_mono; [exact Hp|]. intros r s' [-> ->].
    split_and!; [apply last_rev|done|].
    eapply wp_mono; [exact Hr|]. intros [] s2 [Hq2 Hf2]. exists l2.
    rewrite <-app_assoc. split_and!; [done..|]. eapply frame_trans; [done|].
    eapply frame_mono; [|done]. intros y Hy. rewrite Hk.
    apply elem_of_app in Hy as [Hy|Hy]; [|set_solver].
    rewrite <-(Permutation_rev l2) in Hy. set_solver.
  - intros r s [-> (l2 & Hl & Hq2 & Hf2)]. rewrite <-(app_nil_r k) in Hl at 1.
    apply app_inv_head in Hl. by subst l2.
Qed.
End loops.
