(* ===== verification/QueueFamilies.v ===== *)
(** The macros of each family as instances of [QueueFamily]. *)
From S2P Require Import Prelude QueueCode QueueRep TailQueue QueueLoops ListQueue QueueSpec QueueProps.

(** * The program of each macro *)

Definition unit_res (m : Q unit) : option (Q q_res) := Some (m;; ret RUnit).
Definition bool_res (m : Q bool) : option (Q q_res) := Some (b ← m; ret (RBool b)).
Definition ptr_res (m : Q ptr) : option (Q q_res) := Some (p ← m; ret (RPtr p)).
Definition list_res (m : Q (list loc)) : option (Q q_res) := Some (l ← m; ret (RList l)).
Definition drain_res (m : Q (list loc)) : option (Q q_res) := Some (l ← m; ret (RList l)).

Definition tailq_exec (fuel : nat) (op : q_op) : option (Q q_res) :=
  match op with
  | INIT h => unit_res (TAILQ_INIT h)
  | EMPTY h => bool_res (TAILQ_EMPTY h)
  | FIRST h => ptr_res (TAILQ_FIRST h)
  | LAST h => ptr_res (TAILQ_LAST h)
  | NEXT _ e => ptr_res (TAILQ_NEXT (Some e))
  | PREV _ e => ptr_res (TAILQ_PREV (Some e))
  | INSERT_HEAD h e => unit_res (TAILQ_INSERT_HEAD h (Some e))
  | INSERT_TAIL h e => unit_res (TAILQ_INSERT_TAIL h (Some e))
  | INSERT_AFTER h p e => unit_res (TAILQ_INSERT_AFTER h (Some p) (Some e))
  | INSERT_BEFORE h p e => unit_res (TAILQ_INSERT_BEFORE (Some p) (Some e))
  | REMOVE h e => unit_res (TAILQ_REMOVE h (Some e))
  | CONCAT h1 h2 => unit_res (TAILQ_CONCAT h1 h2)
  | SWAP h1 h2 => unit_res (TAILQ_SWAP h1 h2)
  | FOREACH h => list_res (TAILQ_FOREACH fuel h (λ _, ret tt))
  | FOREACH_REVERSE h => list_res (TAILQ_FOREACH_REVERSE fuel h (λ _, ret tt))
  | DRAIN h => drain_res (TAILQ_FOREACH_SAFE fuel h (TAILQ_REMOVE h))
  | DRAIN_REVERSE h => drain_res (TAILQ_FOREACH_REVERSE_SAFE fuel h (TAILQ_REMOVE h))
  | REMOVE_HEAD _ | REMOVE_AFTER _ _ => None
  end.

Definition list_exec (fuel : nat) (op : q_op) : option (Q q_res) :=
  match op with
  | INIT h => unit_res (LIST_INIT h)
  | EMPTY h => bool_res (LIST_EMPTY h)
  | FIRST h => ptr_res (LIST_FIRST h)
  | NEXT _ e => ptr_res (LIST_NEXT (Some e))
  | INSERT_HEAD h e => unit_res (LIST_INSERT_HEAD h (Some e))
  | INSERT_AFTER h p e => unit_res (LIST_INSERT_AFTER (Some p) (Some e))
  | INSERT_BEFORE h p e => unit_res (LIST_INSERT_BEFORE (Some p) (Some e))
  | REMOVE h e => unit_res (LIST_REMOVE (Some e))
  | SWAP h1 h2 => unit_res (LIST_SWAP h1 h2)
  | FOREACH h => list_res (LIST_FOREACH fuel h (λ _, ret tt))
  | DRAIN h => drain_res (LIST_FOREACH_SAFE fuel h LIST_REMOVE)
  | _ => None
  end.

Definition stailq_exec (fuel : nat) (op : q_op) : option (Q q_res) :=
  match op with
  | INIT h => unit_res (STAILQ_INIT h)
  | EMPTY h => bool_res (STAILQ_EMPTY h)
  | FIRST h => ptr_res (STAILQ_FIRST h)
  | LAST h => ptr_res (STAILQ_LAST h)
  | NEXT _ e => ptr_res (STAILQ_NEXT (Some e))
  | INSERT_HEAD h e => unit_res (STAILQ_INSERT_HEAD h (Some e))
  | INSERT_TAIL h e => unit_res (STAILQ_INSERT_TAIL h (Some e))
  | INSERT_AFTER h p e => unit_res (STAILQ_INSERT_AFTER h (Some p) (Some e))
  | REMOVE h e => unit_res (STAILQ_REMOVE fuel h (Some e))
  | REMOVE_HEAD h => unit_res (STAILQ_REMOVE_HEAD h)
  | REMOVE_AFTER h p => unit_res (STAILQ_REMOVE_AFTER h (Some p))
  | CONCAT h1 h2 => unit_res (STAILQ_CONCAT h1 h2)
  | SWAP h1 h2 => unit_res (STAILQ_SWAP h1 h2)
  | FOREACH h => list_res (STAILQ_FOREACH fuel h (λ _, ret tt))
  | DRAIN h => drain_res (STAILQ_FOREACH_SAFE fuel h (STAILQ_REMOVE fuel h))
  | _ => None
  end.

Definition slist_exec (fuel : nat) (op : q_op) : option (Q q_res) :=
  match op with
  | INIT h => unit_res (SLIST_INIT h)
  | EMPTY h => bool_res (SLIST_EMPTY h)
  | FIRST h => ptr_res (SLIST_FIRST h)
  | NEXT _ e => ptr_res (SLIST_NEXT (Some e))
  | INSERT_HEAD h e => unit_res (SLIST_INSERT_HEAD h (Some e))
  | INSERT_AFTER h p e => unit_res (SLIST_INSERT_AFTER (Some p) (Some e))
  | REMOVE h e => unit_res (SLIST_REMOVE fuel h (Some e))
  | REMOVE_HEAD h => unit_res (SLIST_REMOVE_HEAD h)
  | REMOVE_AFTER h p => unit_res (SLIST_REMOVE_AFTER (Some p))
  | FOREACH h => list_res (SLIST_FOREACH fuel h (λ _, ret tt))
  | DRAIN h => drain_res (SLIST_FOREACH_SAFE fuel h (SLIST_REMOVE fuel h))
  | _ => None
  end.

(** * The promise of each family *)

Section promises.
Context (H E : gset loc) (lay : layout).
Context (st : q_state) (q : queues) (Hq : holds H E lay st q) (fuel : nat) (Hf : size E < fuel).

Lemma in_heads h l : q !! h = Some l → h ∈ H.
Proof. intros. eapply wf_heads; [by apply Hq|done]. Qed.
Lemma queue_nodup h l : q !! h = Some l → NoDup l.
Proof. intros. eapply wf_nodup; [by apply Hq|done]. Qed.
Lemma queue_at h l : q !! h = Some l → queue lay st h l.
Proof. intros. by eapply holds_queue. Qed.
Lemma queue_length h l : q !! h = Some l → length l < fuel.
Proof. intros. pose proof (length_size H E lay q st h l). naive_solver lia. Qed.
Lemma fresh_notin h l e : fresh E q e → q !! h = Some l → e ∉ l.
Proof. intros [_ Hu] El. by eapply (Hu h l). Qed.
Lemma fresh_words e : fresh E q e → has_words (elm_adr lay) st (NextOf e).
Proof. intros [He _]. by eapply holds_elms. Qed.

(** The first element's word, and an element's. *)
Lemma first_ok h l : q !! h = Some l →
  wp (ld_first h) st (λ r st', r = head l ∧ st' = st).
Proof. intros. by eapply wp_ld_first, queue_at. Qed.
Lemma empty_ok h l : q !! h = Some l →
  wp (f ← ld_first h; ret (is_null f)) st (λ r st', r = bool_decide (l = []) ∧ st' = st).
Proof.
  intros. apply wp_bind. eapply wp_mono; [by eapply first_ok|]. intros r s [-> ->].
  apply wp_ret. by destruct l.
Qed.
Lemma next_ok h l1 e l2 : q !! h = Some (l1 ++ e :: l2) →
  wp (ld_next (Some e)) st (λ r st', r = head l2 ∧ st' = st).
Proof. intros. by eapply wp_ld_next, queue_at. Qed.
Lemma foreach_ok h l : q !! h = Some l →
  wp (var ← ld_first h; foreach fuel ld_next (λ _, ret tt) var) st
    (λ r st', r = l ∧ st' = st).
Proof.
  intros. apply wp_bind. eapply wp_mono; [by eapply first_ok|]. intros r s [-> ->].
  eapply wp_visit; [by apply queue_at|by eapply queue_length].
Qed.

(** A loop that unlinks every element. *)
Lemma drain_ok h l r (m : Q (list loc)) :
  q !! h = Some l → r ≡ₚ l →
  wp m st (λ r' st', r' = r ∧ queue lay st' h [] ∧ frame [h] l st st') →
  wp (l ← m; ret (RList l)) st
    (λ r' st', r' = RList r ∧ holds H E lay st' (<[h:=[]]> q)).
Proof.
  intros El Hp Hm. apply wp_bind. eapply wp_mono; [exact Hm|].
  intros l' st' (-> & Hq' & Hfr). apply wp_ret. split; [done|].
  assert (queues_wf H E q) as Hwf by apply Hq.
  eapply (holds_step H E lay q _ [h] l); [done| |done|..].
  - apply wf_insert; [done|by eapply in_heads|constructor|set_solver].
  - intros h2 l2 E2 ->%list_elem_of_singleton. rewrite lookup_insert_eq in E2. by simplify_eq.
  - intros h2 Hn. rewrite lookup_insert_ne by set_solver. done.
  - intros h2 l2 x E2 Hn Hx Hxl. apply Hn, list_elem_of_singleton.
    by eapply (wf_disjoint _ _ q Hwf).
Qed.
Lemma drain_forward_ok h l (rm : ptr → Q unit) :
  q !! h = Some l →
  (∀ x l2 st, NoDup (x :: l2) → queue lay st h (x :: l2) →
    wp (rm (Some x)) st (λ _ st', queue lay st' h l2 ∧ frame [h] (x :: l2) st st')) →
  wp (l ← (var ← ld_first h; foreach_safe fuel ld_next rm var); ret (RList l)) st
    (λ r' st', r' = RList l ∧ holds H E lay st' (<[h:=[]]> q)).
Proof.
  intros El Hrm. apply (drain_ok h l); [done|done|].
  apply wp_bind. eapply wp_mono; [by eapply first_ok|]. intros r s [-> ->].
  apply wp_queue_drain; [by auto|by eapply queue_nodup|by apply queue_at|by eapply queue_length].
Qed.

(** One element more, or one less. *)
Lemma insert_ok h l l' e (m : Q unit) :
  q !! h = Some l → fresh E q e → l' ≡ₚ e :: l →
  (NoDup l → e ∉ l → has_words (elm_adr lay) st (NextOf e) → queue lay st h l →
   wp m st (λ _ st', queue lay st' h l' ∧ frame [h] (e :: l) st st')) →
  wp (m;; ret RUnit) st (λ r st', r = RUnit ∧ holds H E lay st' (<[h:=l']> q)).
Proof.
  intros El He Hp Hm. pose proof (fresh_notin h l e He El) as Hn.
  pose proof (queue_nodup h l El) as Hnd.
  assert (∀ x, x ∈ e :: l → (∃ l, q !! h = Some l ∧ x ∈ l) ∨ fresh E q x) as Hin.
  { intros x [->|?]%elem_of_cons; [by right|left; eauto]. }
  apply (wp_one H E lay q h l' (e :: l)); [done|by eapply in_heads| | |done|].
  - rewrite Hp. by constructor.
  - intros x. rewrite Hp. apply Hin.
  - apply Hm; [done|done|by apply fresh_words|by apply queue_at].
Qed.
Lemma remove_ok h l l' e (m : Q unit) :
  q !! h = Some l → l ≡ₚ e :: l' →
  (NoDup l → queue lay st h l → length l < fuel →
   wp m st (λ _ st', queue lay st' h l' ∧ frame [h] l st st')) →
  wp (m;; ret RUnit) st (λ r st', r = RUnit ∧ holds H E lay st' (<[h:=l']> q)).
Proof.
  intros El Hp Hm. pose proof (queue_nodup h l El) as Hnd.
  assert (∀ x, x ∈ l → (∃ l, q !! h = Some l ∧ x ∈ l) ∨ fresh E q x) as Hin by eauto.
  apply (wp_one H E lay q h l' l); [done|by eapply in_heads| | |done|].
  - rewrite Hp in Hnd. by apply NoDup_cons in Hnd as [_ ?].
  - intros x Hx. apply Hin. rewrite Hp. by right.
  - apply Hm; [done|by apply queue_at|by eapply queue_length].
Qed.
Lemma init_ok h (m : Q unit) :
  h ∈ H →
  (has_words (head_adr lay) st (FirstOf h) →
   wp m st (λ _ st', queue lay st' h [] ∧ frame [h] [] st st')) →
  wp (m;; ret RUnit) st (λ r st', r = RUnit ∧ holds H E lay st' (<[h:=[]]> q)).
Proof.
  intros Hh Hm. apply (wp_one H E lay q h [] []); [done|done|constructor|set_solver..|].
  apply Hm. by eapply holds_heads.
Qed.
End promises.

(** The backward loops of the tail queues. *)
Section backwards.
Context (H E : gset loc) (st : q_state) (q : queues).
Context (Hq : holds H E TAILQ_layout st q) (fuel : nat) (Hf : size E < fuel).

Lemma foreach_reverse_ok h l : q !! h = Some l →
  wp (TAILQ_FOREACH_REVERSE fuel h (λ _, ret tt)) st (λ r st', r = rev l ∧ st' = st).
Proof.
  intros El. pose proof (queue_at H E _ st q Hq h l El) as Hql. apply wp_bind.
  eapply wp_mono; [by apply TAILQ_LAST_ok|]. intros r s [-> ->].
  rewrite <-(rev_involutive l) at 1. rewrite last_rev.
  apply (wp_foreach (rev l) _ _ (λ _ st', st' = st)); [|done|].
  - intros l1 x l2 s Hl ->. apply wp_ret. split; [done|]. rewrite <-last_rev.
    apply (f_equal (@rev _)) in Hl. rewrite rev_involutive, rev_app_distr in Hl.
    simpl in Hl. rewrite <-app_assoc in Hl. subst l. by eapply TAILQ_PREV_ok.
  - rewrite length_rev. by eapply (queue_length H E _ st q Hq fuel).
Qed.

Lemma drain_reverse_ok h l : q !! h = Some l →
  wp (l ← TAILQ_FOREACH_REVERSE_SAFE fuel h (TAILQ_REMOVE h); ret (RList l)) st
    (λ r' st', r' = RList (rev l) ∧ holds H E TAILQ_layout st' (<[h:=[]]> q)).
Proof.
  intros El. pose proof (queue_at H E _ st q Hq h l El) as Hql.
  pose proof (queue_nodup H E _ st q Hq h l El) as Hnd.
  eapply (drain_ok H E _ st q Hq fuel Hf h l (rev l)); [done|symmetry; apply Permutation_rev|].
  apply wp_bind. eapply wp_mono; [by apply TAILQ_LAST_ok|]. intros r s [-> ->].
  rewrite <-(rev_involutive l) in Hql |- * at 1.
  eapply wp_mono; [apply (wp_drain_reverse TAILQ_layout h)|].
  - intros l1 x s Hnd1 Hq1 _. split; [by eapply TAILQ_PREV_ok|].
    eapply wp_mono; [by apply TAILQ_REMOVE_ok|]. by rewrite app_nil_r.
  - by rewrite <-Permutation_rev.
  - done.
  - rewrite length_rev. by eapply (queue_length H E _ st q Hq fuel).
  - intros r s (-> & ? & ?). split_and!; [done..|]. eapply frame_mono; [|done].
    intros y Hy. by rewrite <-Permutation_rev in Hy.
Qed.
End backwards.

(** The lists a macro's precondition names. *)
Ltac spec_cases :=
  repeat match goal with
  | H : context [match ?q !! ?h with _ => _ end] |- _ => destruct (q !! h) as [?|] eqn:?; [|done]
  | H : context [match cut ?e ?l with _ => _ end] |- _ =>
      let E := fresh "Hcut" in
      destruct (cut e l) as [[??]|] eqn:E; [apply cut_app in E; subst l|done]
  | H : context [decide _] |- _ => case_decide; [|done]
  | H : context [decide _] |- _ => case_decide; [done|]
  | H : match ?l with _ => _ end = _ |- _ => destruct l; [done|]
  end.
Ltac perm := rewrite ?app_nil_r; solve_Permutation.
(** A bound on the length of a list that is cut. *)
Ltac len :=
  match goal with H : length (_ ++ _) < _ |- _ => rewrite length_app in H; simpl in H; lia end.
Ltac insert_by lem := eapply insert_ok; [eassumption..|perm|intros; by apply lem].
Ltac remove_by lem :=
  eapply remove_ok; [eassumption..|perm|intros; apply lem; try done; len].
Ltac remove_after_by lem :=
  match goal with El : _ !! _ = Some (_ ++ _ :: ?x :: _) |- _ =>
    eapply remove_ok with (e := x); [eassumption..|perm|intros; by apply lem] end.
Ltac two_by lem := eapply wp_two; [eassumption..|perm|intros; apply lem; eauto using queue_at].
Ltac read_by tac := apply wp_read; [done|tac].

#[export] Instance tailq_family : QueueFamily TAILQ_layout tailq_exec.
Proof.
  intros H E fuel op m st q r q' Hm Hs Hq Hf.
  destruct op; simpl in Hm; try discriminate Hm; injection Hm as <-; simpl in Hs; spec_cases;
    injection Hs as <- <-.
  - eapply init_ok; [eassumption..|apply TAILQ_INIT_ok].
  - read_by ltac:(by eapply empty_ok).
  - read_by ltac:(by eapply first_ok).
  - read_by ltac:(by eapply TAILQ_LAST_ok, queue_at).
  - read_by ltac:(by eapply next_ok).
  - read_by ltac:(by eapply TAILQ_PREV_ok, queue_at).
  - insert_by TAILQ_INSERT_HEAD_ok.
  - insert_by TAILQ_INSERT_TAIL_ok.
  - insert_by TAILQ_INSERT_AFTER_ok.
  - insert_by TAILQ_INSERT_BEFORE_ok.
  - remove_by TAILQ_REMOVE_ok.
  - two_by TAILQ_CONCAT_ok.
  - two_by TAILQ_SWAP_ok.
  - read_by ltac:(by eapply foreach_ok).
  - read_by ltac:(by eapply foreach_reverse_ok).
  - eapply drain_forward_ok; [done..|]. intros x l2 s ??. by apply (TAILQ_REMOVE_ok h s []).
  - by eapply drain_reverse_ok.
Qed.

#[export] Instance list_family : QueueFamily LIST_layout list_exec.
Proof.
  intros H E fuel op m st q r q' Hm Hs Hq Hf.
  destruct op; simpl in Hm; try discriminate Hm; injection Hm as <-; simpl in Hs; spec_cases;
    injection Hs as <- <-.
  - eapply init_ok; [eassumption..|apply LIST_INIT_ok].
  - read_by ltac:(by eapply empty_ok).
  - read_by ltac:(by eapply first_ok).
  - read_by ltac:(by eapply next_ok).
  - insert_by LIST_INSERT_HEAD_ok.
  - insert_by LIST_INSERT_AFTER_ok.
  - insert_by LIST_INSERT_BEFORE_ok.
  - remove_by LIST_REMOVE_ok.
  - two_by LIST_SWAP_ok.
  - read_by ltac:(by eapply foreach_ok).
  - eapply drain_forward_ok; [done..|]. intros x l2 s ??. by apply (LIST_REMOVE_ok h s []).
Qed.

#[export] Instance stailq_family : QueueFamily STAILQ_layout stailq_exec.
Proof.
  intros H E fuel op m st q r q' Hm Hs Hq Hf.
  destruct op; simpl in Hm; try discriminate Hm; injection Hm as <-; simpl in Hs; spec_cases;
    injection Hs as <- <-.
  - eapply init_ok; [eassumption..|apply STAILQ_INIT_ok].
  - read_by ltac:(by eapply empty_ok).
  - read_by ltac:(by eapply first_ok).
  - read_by ltac:(by eapply STAILQ_LAST_ok, queue_at).
  - read_by ltac:(by eapply next_ok).
  - insert_by STAILQ_INSERT_HEAD_ok.
  - insert_by STAILQ_INSERT_TAIL_ok.
  - insert_by STAILQ_INSERT_AFTER_ok.
  - remove_by STAILQ_REMOVE_ok.
  - remove_by STAILQ_REMOVE_HEAD_ok.
  - remove_after_by STAILQ_REMOVE_AFTER_ok.
  - two_by STAILQ_CONCAT_ok.
  - two_by STAILQ_SWAP_ok.
  - read_by ltac:(by eapply foreach_ok).
  - eapply drain_forward_ok; [done..|]. intros x l2 s ??.
    apply (STAILQ_REMOVE_ok h s fuel []); [done..|simpl; lia].
Qed.

#[export] Instance slist_family : QueueFamily SLIST_layout slist_exec.
Proof.
  intros H E fuel op m st q r q' Hm Hs Hq Hf.
  destruct op; simpl in Hm; try discriminate Hm; injection Hm as <-; simpl in Hs; spec_cases;
    injection Hs as <- <-.
  - eapply init_ok; [eassumption..|apply SLIST_INIT_ok].
  - read_by ltac:(by eapply empty_ok).
  - read_by ltac:(by eapply first_ok).
  - read_by ltac:(by eapply next_ok).
  - insert_by SLIST_INSERT_HEAD_ok.
  - insert_by SLIST_INSERT_AFTER_ok.
  - remove_by SLIST_REMOVE_ok.
  - remove_by SLIST_REMOVE_HEAD_ok.
  - remove_after_by SLIST_REMOVE_AFTER_ok.
  - read_by ltac:(by eapply foreach_ok).
  - eapply drain_forward_ok; [done..|]. intros x l2 s ??.
    apply (SLIST_REMOVE_ok h s fuel []); [done..|simpl; lia].
Qed.
