(* ===== verification/QueueClaims.v ===== *)
(** The properties of the list macros: client programs, families one by one. *)
From S2P Require Import Prelude QueueCode QueueRep QueueLoops QueueSpec QueueProps QueueFamilies.

(** C11: Tail queues. Take a client with any number of tail queue heads [H] and
    elements [E], linked into queues [q]. Whatever sequence of macros it runs
    ([TAILQ_INIT], [EMPTY], [FIRST], [LAST], [NEXT], [PREV], the four
    insertions, [REMOVE], [CONCAT], [SWAP], forward and backward traversals,
    and traversals that remove each element they visit), as long as it never
    inserts a linked element nor names an unlinked one, the program neither
    dereferences a null or dangling pointer nor loops forever, every result is
    the one of the lists, and the heap holds the resulting lists. *)
Theorem TAILQ_program_refines H E fuel ops m st q rs q' :
  exec_all tailq_exec fuel ops = Some m → q_specs H E ops q = Some (rs, q') →
  holds H E TAILQ_layout st q → size E < fuel →
  wp m st (λ rs' st', rs' = rs ∧ holds H E TAILQ_layout st' q').
Proof. intros. eapply (exec_all_ok _ TAILQ_layout); eassumption. Qed.

(** C12: Lists ([LIST_*]): the same for any sequence of [LIST_INIT], [EMPTY],
    [FIRST], [NEXT], [INSERT_HEAD], [INSERT_AFTER], [INSERT_BEFORE], [REMOVE],
    [SWAP] and traversals, on any number of doubly linked lists. *)
Theorem LIST_program_refines H E fuel ops m st q rs q' :
  exec_all list_exec fuel ops = Some m → q_specs H E ops q = Some (rs, q') →
  holds H E LIST_layout st q → size E < fuel →
  wp m st (λ rs' st', rs' = rs ∧ holds H E LIST_layout st' q').
Proof. intros. eapply (exec_all_ok _ LIST_layout); eassumption. Qed.

(** C13: Singly-linked tail queues ([STAILQ_*]): the same for any sequence of
    their macros; the [stqh_last] address of every head stays the address of
    the last link, and the search of [STAILQ_REMOVE] stops. *)
Theorem STAILQ_program_refines H E fuel ops m st q rs q' :
  exec_all stailq_exec fuel ops = Some m → q_specs H E ops q = Some (rs, q') →
  holds H E STAILQ_layout st q → size E < fuel →
  wp m st (λ rs' st', rs' = rs ∧ holds H E STAILQ_layout st' q').
Proof. intros. eapply (exec_all_ok _ STAILQ_layout); eassumption. Qed.

(** Singly-linked lists ([SLIST_*]): the same for any sequence of their
    macros. *)
Theorem SLIST_program_refines H E fuel ops m st q rs q' :
  exec_all slist_exec fuel ops = Some m → q_specs H E ops q = Some (rs, q') →
  holds H E SLIST_layout st q → size E < fuel →
  wp m st (λ rs' st', rs' = rs ∧ holds H E SLIST_layout st' q').
Proof. intros. eapply (exec_all_ok _ SLIST_layout); eassumption. Qed.

(** The word that points to each element of a singly-linked list. *)
Definition prev_slots (h : loc) (l : list loc) : list (loc * slot) :=
  zip l (FirstOf h :: (NextOf <$> l)).

Lemma prev_slots_snoc h l1 x l2 :
  prev_slots h (l1 ++ x :: l2) =
  prev_slots h l1 ++ (x, last_slot (FirstOf h) l1) ::
    zip l2 (NextOf x :: (NextOf <$> l2)).
Proof.
  unfold prev_slots. generalize (FirstOf h).
  induction l1 as [|y l1 IH]; intros s; simpl; [done|]. f_equal. apply IH.
Qed.

(** [SLIST_FOREACH_PREVPTR] runs its body on every element once, in
    order, and gives it the address of the very word that points to the element
    (the head's first word or the predecessor's next word), as long as the body
    keeps the list. *)
Theorem SLIST_FOREACH_PREVPTR_visits (I : q_state → Prop) fuel h l body st :
  (∀ st, I st → queue SLIST_layout st h l) →
  (∀ x s st, (x, s) ∈ prev_slots h l → I st → wp (body (Some x) s) st (λ _, I)) →
  I st → length l < fuel →
  wp (SLIST_FOREACH_PREVPTR fuel h body) st (λ r st', r = prev_slots h l ∧ I st').
Proof.
  intros Hq Hbody HI Hf. unfold SLIST_FOREACH_PREVPTR.
  eapply (wp_loop (λ n '(varp, seen) st, ∃ l1 l2, l = l1 ++ l2 ∧
    varp = last_slot (FirstOf h) l1 ∧ seen = prev_slots h l1 ∧ n = length l2 ∧ I st));
    [|by exists [], l|done].
  intros n [varp seen] s (l1 & l2 & Hl & -> & -> & -> & Hs). apply wp_bind.
  pose proof (Hq s Hs) as Hqs. rewrite Hl in Hqs. destruct s as [P A].
  destruct l2 as [|x l2]; q_split; eapply wp_ld_ptr; try (simpl; eassumption).
  { apply wp_ret. by rewrite Hl, app_nil_r. }
  apply wp_bind. eapply wp_mono; [apply Hbody; [|done]|].
  { rewrite Hl, prev_slots_snoc. set_solver. }
  intros [] s2 Hs2. apply wp_bind, wp_entry, wp_ret. exists (length l2). split; [simpl; lia|].
  exists (l1 ++ [x]), l2. rewrite <-app_assoc, last_slot_app. split_and!; try done.
  by rewrite prev_slots_snoc.
Qed.

(** C14: The bodies of [TAILQ_FOREACH] and of the other plain traversals may do
    anything that keeps the queue (an invariant [I] over the elements seen so
    far): the body runs exactly once on each element, in order, and the loop
    ends. *)
Theorem TAILQ_FOREACH_runs_body (I : list loc → q_state → Prop) fuel h l body st :
  (∀ seen st, I seen st → queue TAILQ_layout st h l) →
  (∀ l1 x l2 st, l = l1 ++ x :: l2 → I l1 st →
     wp (body (Some x)) st (λ _, I (l1 ++ [x]))) →
  I [] st → length l < fuel →
  wp (TAILQ_FOREACH fuel h body) st (λ r st', r = l ∧ I l st').
Proof.
  intros Hq Hbody HI Hf. apply wp_bind.
  eapply wp_mono; [by eapply wp_ld_first, Hq|]. intros r s [-> ->].
  apply wp_foreach; [|done|done]. intros l1 x l2 s Hl Hs.
  eapply wp_mono; [by eapply Hbody|]. intros [] s' Hs'. split; [done|].
  pose proof (Hq _ _ Hs') as Hqs. rewrite Hl in Hqs. by eapply wp_ld_next.
Qed.

(** * Witnesses *)

(** Two heads and four elements, all their words there, nothing linked yet. *)
Definition demo_heads : gset loc := {[1%positive; 2%positive]}.
Definition demo_elms : gset loc := {[1; 2; 3; 4]}%positive.
Definition demo_slots : list slot :=
  [FirstOf 1; FirstOf 2; NextOf 1; NextOf 2; NextOf 3; NextOf 4]%positive.
Definition demo_heap : q_state :=
  QS (list_to_map ((λ s, (s, None)) <$> demo_slots))
     (list_to_map ((λ s, (s, None)) <$> demo_slots)).

Lemma demo_holds lay : holds demo_heads demo_elms lay demo_heap ∅.
Proof.
  split.
  - split; intros *; rewrite lookup_empty; done.
  - intros h. unfold demo_heads.
    rewrite elem_of_union, !elem_of_singleton. intros [->| ->]; (split; [|intros _]); by eexists.
  - intros e. unfold demo_elms. rewrite !elem_of_union, !elem_of_singleton.
    intros [[[->| ->]| ->]| ->]; (split; [|intros _]); by eexists.
  - intros h l. by rewrite lookup_empty.
Qed.

Definition runs_to (exec : nat → q_op → option (Q q_res)) (lay : layout)
    (ops : list q_op) (rs : list q_res) (q : queues) : Prop :=
  match exec_all exec 5 ops with
  | Some m => wp m demo_heap (λ rs' st', rs' = rs ∧ holds demo_heads demo_elms lay st' q)
  | None => False
  end.

Ltac run_demo thm :=
  unfold runs_to;
  lazymatch goal with |- context [exec_all ?e ?f ?o] =>
    let Em := fresh "Em" in destruct (exec_all e f o) eqn:Em; [|discriminate Em];
    eapply (thm demo_heads demo_elms f o _ demo_heap ∅);
      [exact Em|vm_compute; reflexivity|apply demo_holds|vm_compute; lia] end.

Lemma TAILQ_program_refines_witness :
  runs_to tailq_exec TAILQ_layout
    [INIT 1; INIT 2; INSERT_TAIL 1 1; INSERT_HEAD 1 2; INSERT_AFTER 1 2 3;
     INSERT_TAIL 2 4; CONCAT 1 2; LAST 1; PREV 1 1; REMOVE 1 3; FOREACH_REVERSE 1;
     SWAP 1 2; EMPTY 1; DRAIN 2]
    [RUnit; RUnit; RUnit; RUnit; RUnit; RUnit; RUnit; RPtr (Some 4%positive);
     RPtr (Some 3%positive); RUnit; RList [4; 1; 2]%positive; RUnit; RBool true;
     RList [2; 1; 4]%positive]
    (<[2%positive:=[]]> (<[1%positive:=[]]> ∅)).
Proof. run_demo TAILQ_program_refines. Defined.

Lemma LIST_program_refines_witness :
  runs_to list_exec LIST_layout
    [INIT 1; INIT 2; INSERT_HEAD 1 1; INSERT_BEFORE 1 1 2; INSERT_AFTER 1 1 3;
     REMOVE 1 1; SWAP 1 2; FOREACH 2; NEXT 2 2]
    [RUnit; RUnit; RUnit; RUnit; RUnit; RUnit; RUnit; RList [2; 3]%positive;
     RPtr (Some 3%positive)]
    (<[1%positive:=[]]> (<[2%positive:=[2; 3]%positive]> ∅)).
Proof. run_demo LIST_program_refines. Defined.

Lemma STAILQ_program_refines_witness :
  runs_to stailq_exec STAILQ_layout
    [INIT 1; INSERT_TAIL 1 1; INSERT_TAIL 1 2; INSERT_TAIL 1 3; REMOVE 1 3; LAST 1;
     INSERT_TAIL 1 4; REMOVE_HEAD 1; FOREACH 1]
    [RUnit; RUnit; RUnit; RUnit; RUnit; RPtr (Some 2%positive); RUnit; RUnit;
     RList [2; 4]%positive]
    {[1%positive := [2; 4]%positive]}.
Proof. run_demo STAILQ_program_refines. Defined.

Lemma SLIST_program_refines_witness :
  runs_to slist_exec SLIST_layout
    [INIT 1; INSERT_HEAD 1 1; INSERT_HEAD 1 2; INSERT_AFTER 1 1 3; REMOVE 1 1; FOREACH 1]
    [RUnit; RUnit; RUnit; RUnit; RUnit; RList [2; 3]%positive]
    {[1%positive := [2; 3]%positive]}.
Proof. run_demo SLIST_program_refines. Defined.

(** A singly-linked list and a tail queue of two elements. *)
Definition demo_slist : q_state :=
  QS (list_to_map [(FirstOf 1, Some 1%positive); (NextOf 1, Some 2%positive); (NextOf 2, None)])
    ∅.
Definition demo_tailq : q_state :=
  QS (q_ptr demo_slist)
    (list_to_map [(FirstOf 1, Some (NextOf 2)); (NextOf 1, Some (FirstOf 1));
                  (NextOf 2, Some (NextOf 1))]).

Lemma SLIST_FOREACH_PREVPTR_visits_witness :
  wp (SLIST_FOREACH_PREVPTR 3 1 (λ _ _, ret tt)) demo_slist
    (λ r st', r = [(1%positive, FirstOf 1); (2%positive, NextOf 1)] ∧ st' = demo_slist).
Proof.
  apply (SLIST_FOREACH_PREVPTR_visits (λ st, st = demo_slist) 3 1 [1; 2]%positive).
  - intros st ->. by vm_compute.
  - intros x s st _ ->. by apply wp_ret.
  - done.
  - simpl. lia.
Defined.

Lemma TAILQ_FOREACH_runs_body_witness :
  wp (TAILQ_FOREACH 3 1 (λ _, ret tt)) demo_tailq
    (λ r st', r = [1; 2]%positive ∧ st' = demo_tailq).
Proof.
  apply (TAILQ_FOREACH_runs_body (λ _ st, st = demo_tailq) 3 1 [1; 2]%positive).
  - intros seen st ->. by vm_compute.
  - intros l1 x l2 st _ ->. by apply wp_ret.
  - done.
  - simpl. lia.
Defined.
