(* ===== verification/NetModel.v ===== *)
(** The world of the programs of src/net-program and of the examples of system
    calls: the system and library calls
    they make, with the answers left to an arbitrary operating system, C
    buffers with their bounds and their uninitialised bytes, and the functions
    of the C library the programs compute with. *)
From stdpp Require Import gmap.
From S2P Require Import Prelude.
#[global] Open Scope Z_scope.

(** * Values *)

(** [struct sockaddr_in]; the address and the port are in network order,
    [sin_zero] is [None] as long as the padding was never written. *)
Record sockaddr_in := Addr {
  sin_family : Z;
  sin_addr : Z;
  sin_port : Z;
  sin_zero : option Z
}.

(** [struct hostent] *)
Record hostent := Host {
  h_name : list Z;
  h_aliases : list (list Z);
  h_addrtype : Z;
  h_addr_list : list Z
}.

(** What the length argument of an address points to: no address is wanted, a
    length, or a variable nothing was ever stored in. *)
Inductive addr_len := NoAddr | Len (n : Z) | LenUninit.
Definition sizeof_sockaddr_in : Z := 16.

(** An argument of [printf]. *)
Inductive parg := PInt (z : Z) | PStr (s : list Z) | PChr (c : Z).

(** The calls a program makes. Texts are kept as the source spells them, data
    as bytes. *)
Inductive call :=
| Socket (domain type protocol : Z) | Bind (fd : Z) (a : sockaddr_in)
| Listen (fd backlog : Z) | Accept (fd : Z) | Connect (fd : Z) (a : sockaddr_in)
| Read (fd n : Z) | Write (fd : Z) (bytes : list Z)
| Recv (fd n flags : Z) | Send (fd : Z) (bytes : list Z) (flags : Z)
| Recvfrom (fd n flags : Z) (len : addr_len)
| Sendto (fd : Z) (bytes : list Z) (flags : Z) (a : sockaddr_in) (len : addr_len)
| Readv (fd : Z) (ns : list Z) | Writev (fd : Z) (vecs : list (list Z))
| Close (fd : Z) | Shutdown (fd how : Z)
| Setsockopt (fd level name : Z) (value : list Z) | Getsockopt (fd level name : Z)
| Select (nfds : Z) (reads : gset Z) (sec usec : Z)
| Fcntl (fd cmd arg : Z) | Getpid
| Fork_ | Pipe | Wait | Waitpid (pid options : Z) | Sleep (n : Z) | Alarm (n : Z)
| Sigaction (sig : Z) (handler : string) | Signal (sig : Z) (handler : string)
| Open (path : string) (flags : list string)
| Access (path : string) (mode : Z) | Mkfifo (path : string) (mode : Z) | Execlp (args : list string)
| Ftruncate (fd n : Z) | Mmap (n fd : Z) | Munmap (n : Z) | Setitimer (sec interval : Z) | Getppid | Now
| Fopen (path mode : string) | Fread (fp n : Z) | Fwrite (fp : Z) (bytes : list Z)
| Fclose (fp : Z) | Fgets (fp n : Z) | Feof (fp : Z) | Fgetc (fp : Z)
| Scanf (fmt : string)
| Gethostbyname (name : list Z) | Gethostbyaddr (addr len family : Z)
| Printf (fmt : string) (args : list parg) | Puts (fmt : string) (args : list parg)
| Fputs (stream : Z) (fmt : string) (args : list parg).

(** What a call gives back: its value, the bytes it delivers, the address of
    the peer and its length, the descriptors that are ready, a host entry. *)
Record reply := Reply {
  ret_ : Z;
  data : list Z;
  peer : sockaddr_in;
  peer_len : Z;
  ready : gset Z;
  host : option hostent
}.

(** The calls a process made so far, with their answers. *)
Abbreviation trace := (list (call * reply)).

(** The operating system: it may answer each call in any way, depending on all
    that happened before. [inet_addr], [inet_aton] and
    [inet_ntoa] are the library's. *)
Class OS := {
  os_reply : trace → call → reply;
  inet_addr : list Z → Z;
  inet_aton : list Z → option Z;
  inet_ntoa : Z → list Z
}.

Abbreviation Net := (M trace).

(** * The C library *)

Definition AF_INET : Z := 2.
Definition PF_INET : Z := 2.
Definition SOCK_STREAM : Z := 1.
Definition SOCK_DGRAM : Z := 2.
Definition IPPROTO_TCP : Z := 6.
Definition IPPROTO_IP : Z := 0.
Definition INADDR_ANY : Z := 0.
Definition INADDR_NONE : Z := 4294967295.
Definition SHUT_WR : Z := 1.
Definition MSG_OOB : Z := 1.
Definition MSG_PEEK : Z := 2.
Definition MSG_DONTWAIT : Z := 64.
Definition SOL_SOCKET : Z := 1.
Definition SO_REUSEADDR : Z := 2.
Definition SO_TYPE : Z := 3.
Definition SO_BROADCAST : Z := 6.
Definition SO_SNDBUF : Z := 7.
Definition SO_RCVBUF : Z := 8.
Definition IP_MULTICAST_TTL : Z := 33.
Definition IP_ADD_MEMBERSHIP : Z := 35.
Definition F_SETOWN : Z := 8.
Definition SIGINT : Z := 2.
Definition SIGALRM : Z := 14.
Definition SIGCHLD : Z := 17.
Definition SIGURG : Z := 23.
Definition WNOHANG : Z := 1.
Definition stdin : Z := 0.
Definition stdout : Z := 1.
Definition stderr : Z := 2.

(** The bytes of a literal, and of the array it initialises. *)
Definition bytes_of (s : string) : list Z :=
  (λ a, Z.of_N (Ascii.N_of_ascii a)) <$> String.list_ascii_of_string s.
Definition newline : Z := 10.
Definition c_array (s : string) : list Z := bytes_of s ++ [0].

(** [htons], [htonl] on a little-endian host. *)
Definition byte_of (z i : Z) : Z := Z.land (Z.shiftr z (8 * i)) 255.
Definition htons (z : Z) : Z := Z.lor (Z.shiftl (byte_of z 0) 8) (byte_of z 1).
Definition htonl (z : Z) : Z :=
  Z.lor (Z.shiftl (byte_of z 0) 24) (Z.lor (Z.shiftl (byte_of z 1) 16)
    (Z.lor (Z.shiftl (byte_of z 2) 8) (byte_of z 3))).

(** [atoi]: white space, a sign, digits; undefined when the value is no [int]. *)
Definition is_digit (c : Z) : bool := (48 <=? c) && (c <=? 57).
Definition is_space (c : Z) : bool := (c =? 32) || ((9 <=? c) && (c <=? 13)).
Fixpoint digits (acc : Z) (s : list Z) : Z :=
  match s with
  | c :: s => if is_digit c then digits (acc * 10 + (c - 48)) s else acc
  | [] => acc
  end.
Fixpoint skip_space (s : list Z) : list Z :=
  match s with
  | c :: s' => if is_space c then skip_space s' else s
  | [] => []
  end.
Definition atoi {S} (s : list Z) : M S Z :=
  match skip_space s with
  | 45 :: s => int (- digits 0 s)
  | 43 :: s => int (digits 0 s)
  | s => int (digits 0 s)
  end.

(** * Buffers *)

(** A [char] array: its bytes, [None] where none was ever stored. *)
Abbreviation buf := (list (option Z)).
Definition uninit (n : Z) : buf := replicate (Z.to_nat n) None.
Definition size (b : buf) : Z := Z.of_nat (length b).
(** Store at an offset, and take the first bytes: undefined out of bounds. *)
Definition bput (b : buf) (i : Z) (bytes : list Z) : option buf :=
  if (0 <=? i) && (i + Z.of_nat (length bytes) <=? size b) then
    Some (take (Z.to_nat i) b ++ (Some <$> bytes) ++
          drop (Z.to_nat i + length bytes) b)
  else None.
Definition bget (b : buf) (n : Z) : option (list Z) :=
  if (0 <=? n) && (n <=? size b) then mapM id (take (Z.to_nat n) b) else None.
Definition bat (b : buf) (i : Z) : option Z :=
  if 0 <=? i then mjoin (b !! Z.to_nat i) else None.
(** The C string a buffer holds: up to the first NUL, which must be there. *)
Fixpoint cstr (b : buf) : option (list Z) :=
  match b with
  | Some c :: b => if c =? 0 then Some [] else (c ::.) <$> cstr b
  | _ => None
  end.

(** * Calls *)

Section calls.
Context `{OS}.

Definition sys (c : call) : Net reply := λ tr,
  let r := os_reply tr c in Done r (tr ++ [(c, r)]).
(** A call of which only the value matters, and one nothing is taken from. *)
Definition val (c : call) : Net Z := r ← sys c; ret (ret_ r).
Definition run (c : call) : Net unit := sys c;; ret tt.

Definition printf (fmt : string) (args : list parg) : Net unit := run (Printf fmt args).
Definition puts (s : string) : Net unit := run (Puts s []).
Definition fputs (s : string) (stream : Z) : Net unit := run (Fputs stream s []).
(** A string argument taken from a buffer. *)
Definition pstr (b : buf) : Net parg := s ← need (cstr b); ret (PStr s).

Definition socket (domain type protocol : Z) : Net Z := val (Socket domain type protocol).
Definition accept (fd : Z) : Net Z := val (Accept fd).
Definition close (fd : Z) : Net unit := run (Close fd).
Definition sleep (n : Z) : Net unit := run (Sleep n).

(** [read(fd, b + off, n)]: the value and the buffer after it. *)
Definition read_at (fd : Z) (b : buf) (off n : Z) : Net (Z * buf) :=
  r ← sys (Read fd n); b ← need (bput b off (data r)); ret (ret_ r, b).
Definition read (fd : Z) (b : buf) (n : Z) : Net (Z * buf) := read_at fd b 0 n.
Definition recv (fd : Z) (b : buf) (n flags : Z) : Net (Z * buf) :=
  r ← sys (Recv fd n flags); b ← need (bput b 0 (data r)); ret (ret_ r, b).
(** The value, the buffer, and the address of the sender with its length. *)
Definition recvfrom (fd : Z) (b : buf) (n flags : Z) (len : addr_len)
    : Net (Z * buf * (sockaddr_in * addr_len)) :=
  r ← sys (Recvfrom fd n flags len); b ← need (bput b 0 (data r));
  ret (ret_ r, b, (peer r, Len (peer_len r))).
Definition sendto (fd : Z) (b : buf) (n flags : Z) (a : sockaddr_in) (len : addr_len)
    : Net Z :=
  bytes ← need (bget b n); val (Sendto fd bytes flags a len).
Definition send (fd : Z) (b : buf) (n flags : Z) : Net Z :=
  bytes ← need (bget b n); val (Send fd bytes flags).
(** [write(fd, b, n)] *)
Definition write (fd : Z) (b : buf) (n : Z) : Net Z :=
  bytes ← need (bget b n); val (Write fd bytes).
(** [fgets(b, n, fp)]: the buffer is left alone when there is no line. *)
Definition fgets (b : buf) (n fp : Z) : Net (bool * buf) :=
  r ← sys (Fgets fp n);
  if ret_ r =? 0 then ret (false, b) else
  b ← need (bput b 0 (data r ++ [0])); ret (true, b).
(** [strcmp(b, s) == 0] and [strlen(b)] *)
Definition str_eq (b : buf) (s : list Z) : Net bool :=
  c ← need (cstr b); ret (bool_decide (c = s)).
Definition strlen (b : buf) : Net Z := c ← need (cstr b); ret (Z.of_nat (length c)).
(** [b[i] = c] *)
Definition set (b : buf) (i c : Z) : Net buf := need (bput b i [c]).

(** [argv[i]]: undefined to use past the last argument. *)
Definition arg (argv : list (list Z)) (i : nat) : Net (list Z) := need (argv !! i).
Definition argc (argv : list (list Z)) : Z := Z.of_nat (length argv).

(** Every program's [error_handling]. *)
Definition error_handling {A} (message : string) : Net A :=
  fputs message stderr;; run (Fputs stderr "\n" []);; exit 1.
(** [if (argc != n) { printf(usage, argv[0]); exit(1); }] *)
Definition usage (argv : list (list Z)) (n : Z) (text : string) : Net unit :=
  whenM (negb (argc argv =? n)) (a ← arg argv 0; printf text [PStr a];; exit 1).
End calls.

(** * What an operating system does *)

Definition is_byte (z : Z) : Prop := 0 ≤ z < 256.

(** A call that delivers at most [n] bytes: -1, or the number of bytes. *)
Definition delivers (n : Z) (r : reply) : Prop :=
  (ret_ r = -1 ∧ data r = []) ∨
  (0 ≤ ret_ r ≤ n ∧ Z.of_nat (length (data r)) = ret_ r ∧ Forall is_byte (data r)).
(** A call that takes at most [n] bytes: -1, or the number it took. *)
Definition takes (n : Z) (r : reply) : Prop := ret_ r = -1 ∨ 0 ≤ ret_ r ≤ n.

(** The documented answers to the calls. *)
Definition answers (c : call) (r : reply) : Prop :=
  match c with
  | Read _ n | Recv _ n _ | Recvfrom _ n _ _ => delivers n r
  | Readv _ ns => delivers (foldr Z.add 0 ns) r
  | Write _ bs | Send _ bs _ | Sendto _ bs _ _ _ => takes (Z.of_nat (length bs)) r
  | Fread _ n => 0 ≤ n →
      0 ≤ ret_ r ≤ n ∧ Z.of_nat (length (data r)) = ret_ r ∧ Forall is_byte (data r)
  | Fgets _ n => ret_ r = 0 ∨
      (0 < ret_ r ∧ 0 < Z.of_nat (length (data r)) < n ∧ Forall is_byte (data r))
  | Scanf "%d" => ret_ r = 1 → ∃ z, data r = [z] ∧ is_int z = true
  | Socket _ _ _ | Accept _ | Fork_ => -1 ≤ ret_ r
  | Bind fd _ | Listen fd _ => ret_ r = -1 ∨ (ret_ r = 0 ∧ 0 ≤ fd)
  | Select _ s _ _ => -1 ≤ ret_ r ∧ ready r ⊆ s
  | _ => True
  end.
(** An operating system that answers as documented. *)
Class OSLaws `{OS} := os_answers : ∀ tr c, answers c (os_reply tr c).
