(* ===== verification/NetTcp.v ===== *)
(** The stream programs of src/net-program: the hello and echo servers and
    clients of chapters 1, 2, 4, 5 and 9, and the calculator of chapter 5. *)
From S2P Require Import Prelude NetModel.

Section programs.
Context `{OS}.

(** * Opening a connection *)

(** The statements all stream servers start with, from the argument check to
    [listen]. [server_address] is cleared, then filled in. *)
Definition server_address (port : Z) : sockaddr_in :=
  Addr AF_INET (htonl INADDR_ANY) (htons port) (Some 0).
Definition tcp_server_open (argv : list (list Z)) : Net Z :=
  usage argv 2 "Usage : %s <port>\n";;
  server_socket ← socket PF_INET SOCK_STREAM 0;
  whenM (server_socket =? -1) (error_handling "socket() error");;
  p ← arg argv 1; port ← atoi p;
  b ← val (Bind server_socket (server_address port));
  whenM (b =? -1) (error_handling "bind() error");;
  l ← val (Listen server_socket 5);
  whenM (l =? -1) (error_handling "listen() error");;
  ret server_socket.

(** [memset(&server_address, sizeof(server_address), 0)] sets no byte: the
    padding of the address stays as it was. *)
Definition uncleared : option Z := None.
Definition client_address (zero : option Z) (argv : list (list Z)) : Net sockaddr_in :=
  ip ← arg argv 1; p ← arg argv 2; port ← atoi p;
  ret (Addr AF_INET (inet_addr ip) (htons port) zero).
(** The statements of the stream clients, from the argument check to
    [connect]. *)
Definition tcp_client_open (usage_text socket_error : string) (protocol : Z)
    (argv : list (list Z)) : Net Z :=
  usage argv 3 usage_text;;
  client_socket ← socket PF_INET SOCK_STREAM protocol;
  whenM (client_socket =? -1) (error_handling socket_error);;
  a ← client_address uncleared argv;
  c ← val (Connect client_socket a);
  whenM (c =? -1) (error_handling "connect() error");;
  ret client_socket.
Definition echo_client_open (argv : list (list Z)) : Net Z :=
  client_socket ← tcp_client_open "Usage: %s <IP> <Port>\n" "sock() error" 0 argv;
  printf "Connected ...\n" [];;
  ret client_socket.

(** * chap1/hello_server.c, chap2/tcp_server.c *)

Definition hello_server_main (argv : list (list Z)) : Net Z :=
  server_socket ← tcp_server_open argv;
  client_socket ← accept server_socket;
  whenM (client_socket =? -1) (error_handling "accept() error");;
  let message := c_array "Hello World!" in
  write client_socket (Some <$> message) (Z.of_nat (length message));;
  close client_socket;;
  close server_socket;;
  ret 0.

(** * chap1/hello_client.c *)

(** A wrong number of arguments is reported, and the program goes on. *)
Definition hello_client_main (argv : list (list Z)) : Net Z :=
  whenM (negb (argc argv =? 3)) (a ← arg argv 0; printf "Usage: %s <IP> <port>\n" [PStr a]);;
  client_socket ← socket PF_INET SOCK_STREAM 0;
  whenM (client_socket =? -1) (error_handling "socket() error");;
  a ← client_address (Some 0) argv;
  c ← val (Connect client_socket a);
  whenM (c =? -1) (error_handling "connect() error");;
  '(str_len, message) ← read client_socket (uninit 30) (30 - 1);
  whenM (str_len =? -1) (error_handling "read() error");;
  m ← pstr message;
  printf "Message from server : %s\n" [m];;
  ret 0.

(** * chap2/tcp_client.c *)

(** [while (read_len = read(client_socket, &message[idx ++], 1) > 0)]:
    [read_len] is the value of the comparison. *)
Definition tcp_client_loop (fuel : nat) (client_socket : Z) (message : buf) : Net (Z * buf) :=
  loop fuel (λ '(idx, str_len, message),
    '(r, message) ← read_at client_socket message idx 1;
    let read_len := if r >? 0 then 1 else 0 in
    if read_len =? 0 then ret (inr (str_len, message)) else
    whenM (read_len =? -1) (error_handling "read() error");;
    str_len ← int (str_len + read_len);
    ret (inl (idx + 1, str_len, message))) (0, 0, message).
Definition tcp_client_main (fuel : nat) (argv : list (list Z)) : Net Z :=
  client_socket ← tcp_client_open "Usage : %s <IP> <port>\n" "socket() error" IPPROTO_TCP argv;
  '(str_len, message) ← tcp_client_loop fuel client_socket (uninit 30);
  m ← pstr message;
  printf "Message from server: %s\n" [m];;
  printf "Function read call count: %d\n" [PInt str_len];;
  close client_socket;;
  ret 0.

(** * chap4/echo_server.c, chap5/echo_server.c *)

(** [while ((str_len = read(fd, message, n)) != 0) write(fd, message, str_len);] *)
Definition echo_loop (fuel : nat) (fd : Z) (message : buf) (n : Z) : Net buf :=
  loop fuel (λ message,
    '(str_len, message) ← read fd message n;
    if str_len =? 0 then ret (inr message) else
    write fd message str_len;;
    ret (inl message)) message.
Definition echo_server_main (fuel : nat) (argv : list (list Z)) : Net Z :=
  let BUF_SIZE := 1024 in
  server_socket ← tcp_server_open argv;
  (loop fuel (λ '(i, message),
    client_socket ← accept server_socket;
    (if client_socket =? -1 then error_handling "accept() error"
     else n ← int (i + 1); printf "Connected client %d\n" [PInt n]);;
    message ← echo_loop fuel client_socket message BUF_SIZE;
    close client_socket;;
    i ← int (i + 1);
    ret (inl (i, message))) (0, uninit BUF_SIZE) : Net unit);;
  close server_socket;;
  ret 0.

(** * chap4/echo_client.c (and its copies in chapters 9, 10 and 12) *)

(** [!strcmp(message, "q\n") || !strcmp(message, "Q\n")] *)
Definition is_quit (message : buf) : Net bool :=
  q ← str_eq message [113; newline];
  if q then ret true else str_eq message [81; newline].
Definition echo_client_main (fuel : nat) (argv : list (list Z)) : Net Z :=
  let BUF_SIZE := 1024 in
  client_socket ← echo_client_open argv;
  loop fuel (λ message,
    fputs "Input message (Q to quit): " stdout;;
    '(_, message) ← fgets message BUF_SIZE stdin;
    quit ← is_quit message;
    if quit then ret (inr tt) else
    n ← strlen message;
    write client_socket message n;;
    '(str_len, message) ← read client_socket message (BUF_SIZE - 1);
    message ← set message str_len 0;
    m ← pstr message;
    printf "Message from server: %s\n" [m];;
    ret (inl message)) (uninit BUF_SIZE);;
  close client_socket;;
  ret 0.

(** * chap5/echo_client.c *)

(** [while (receive_len < str_len)]: every read starts at [message] again. *)
Definition receive_loop (fuel : nat) (client_socket str_len : Z) (message : buf)
    : Net (Z * buf) :=
  let BUF_SIZE := 1024 in
  loop fuel (λ '(receive_len, message),
    if receive_len <? str_len then
      '(receive_cnt, message) ← read client_socket message (BUF_SIZE - 1);
      whenM (receive_cnt =? -1) (error_handling "read() error");;
      receive_len ← int (receive_len + receive_cnt);
      ret (inl (receive_len, message))
    else ret (inr (receive_len, message))) (0, message).
Definition echo_client5_main (fuel : nat) (argv : list (list Z)) : Net Z :=
  let BUF_SIZE := 1024 in
  client_socket ← echo_client_open argv;
  loop fuel (λ message,
    fputs "Input message (Q to quit): " stdout;;
    '(_, message) ← fgets message BUF_SIZE stdin;
    quit ← is_quit message;
    if quit then ret (inr tt) else
    n ← strlen message;
    str_len ← write client_socket message n;
    '(receive_len, message) ← receive_loop fuel client_socket str_len message;
    message ← set message receive_len 0;
    m ← pstr message;
    printf "Message from server: %s\n" [m];;
    ret (inl message)) (uninit BUF_SIZE);;
  close client_socket;;
  ret 0.

(** * chap9/reuseaddr_server.c *)

(** [while (str_len = read(clnt_sock, message, sizeof(message)) != 0)]:
    [str_len] is the value of the comparison. *)
Definition reuseaddr_loop (fuel : nat) (clnt_sock : Z) (message : buf) : Net buf :=
  loop fuel (λ message,
    '(r, message) ← read clnt_sock message 30;
    let str_len := if negb (r =? 0) then 1 else 0 in
    if str_len =? 0 then ret (inr message) else
    write clnt_sock message str_len;;
    write 1 message str_len;;
    ret (inl message)) message.
Definition reuseaddr_server_main (fuel : nat) (argv : list (list Z)) : Net Z :=
  usage argv 2 "Usage : %s <port>\n";;
  serv_sock ← socket PF_INET SOCK_STREAM 0;
  whenM (serv_sock =? -1) (error_handling "socket() error");;
  run (Setsockopt serv_sock SOL_SOCKET SO_REUSEADDR [1]);;
  p ← arg argv 1; port ← atoi p;
  b ← val (Bind serv_sock (server_address port));
  whenM (b =? -1) (error_handling "bind() error");;
  l ← val (Listen serv_sock 5);
  whenM (l =? -1) (error_handling "listen() error");;
  clnt_sock ← accept serv_sock;
  reuseaddr_loop fuel clnt_sock (uninit 30);;
  close clnt_sock;;
  close serv_sock;;
  ret 0.
End programs.

(** * The same text again

    chap2/tcp_server.c is chap1/hello_server.c, chap5/echo_server.c is
    chap4/echo_server.c, and chapters 9, 10 and 12 have chap4/echo_client.c
    again. *)
Section copies.
Context `{OS}.
Definition tcp_server_main := hello_server_main.
Definition chap5_echo_server_main := echo_server_main.
Definition chap9_echo_client_main := echo_client_main.
Definition chap10_echo_client_main := echo_client_main.
Definition chap12_echo_client_main := echo_client_main.
End copies.
