(* ===== verification/NetCalc.v ===== *)
(** The calculator of src/net-program/chap5: the first version
    (op_server_bad.c, op_client_bad.c), and the functions of the second
    (op_server.c, op_client.c). *)
From S2P Require Import Prelude NetModel NetTcp.

(** The value of a [char]: signed. *)
Definition char_value (c : Z) : Z := if c <? 128 then c else c - 256.
(** [(char) z], as a byte. *)
Definition to_char (z : Z) : Z := z mod 256.
(** An array of [int]s, [None] where none was stored. *)
Definition iput (a : list (option Z)) (i v : Z) : option (list (option Z)) :=
  if (0 <=? i) && (i <? Z.of_nat (length a)) then Some (<[Z.to_nat i:=Some v]> a) else None.
Definition iget (a : list (option Z)) (i : Z) : option Z :=
  if 0 <=? i then mjoin (a !! Z.to_nat i) else None.

Section pure.
Context {S : Type}.
(** Division of [int]s truncates; a zero divisor is undefined, and so is the
    one quotient that overflows. *)
Definition int_div (a b : Z) : M S Z :=
  if b =? 0 then undef else int (Z.quot a b).

(** * op_server_bad.c: one operation *)

Definition calculate (a b op : Z) : M S Z :=
  if op =? 43 then int (a + b)
  else if op =? 45 then int (a - b)
  else if op =? 42 then int (a * b)
  else if op =? 47 then int_div a b
  else ret a.

(** The digits of [num], least significant first, then the end of the string:
    [int2string] of the server. *)
Definition int2string (fuel : nat) (num : Z) (ptr : buf) : M S buf :=
  loop fuel (λ '(i, num, ptr),
    if num =? 0 then
      ptr ← need (bput ptr i [0]); ret (inr ptr)
    else
      let x := Z.rem num 10 in
      let num := Z.quot num 10 in
      ptr ← need (bput ptr i [to_char (x + 48)]);
      ret (inl (i + 1, num, ptr))) (0, num, ptr).

(** * op_client_bad.c, op_client.c *)

(** [int2string] of the client: a blank after the digits. *)
Definition int2string_client (fuel : nat) (num : Z) (ptr : buf) : M S buf :=
  loop fuel (λ '(i, num, ptr),
    if num <=? 0 then
      ptr ← need (bput ptr i [32]);
      ptr ← need (bput ptr (i + 1) [0]);
      ret (inr ptr)
    else
      let x := Z.rem num 10 in
      let num := Z.quot num 10 in
      ptr ← need (bput ptr i [to_char (x + 48)]);
      ret (inl (i + 1, num, ptr))) (0, num, ptr).
(** [strcat(message, add)] *)
Definition add_message (message add : buf) : M S buf :=
  m ← need (cstr message); a ← need (cstr add);
  need (bput message (Z.of_nat (length m)) (a ++ [0])).

(** * op_server.c: all the operands at once *)

(** [for (i = 1; i < opnum; ++ i) result = f(result, opnds[i]);] *)
Definition fold_operands (fuel : nat) (f : Z → Z → M S Z) (opnum : Z) (opnds : list (option Z))
    (result : Z) : M S Z :=
  loop fuel (λ '(i, result),
    if i <? opnum then
      x ← need (iget opnds i); result ← f result x; ret (inl (i + 1, result))
    else ret (inr result)) (1, result).
Definition calculate_all (fuel : nat) (opnum : Z) (opnds : list (option Z)) (op : Z) : M S Z :=
  result ← need (iget opnds 0);
  if op =? 43 then fold_operands fuel (λ a b, int (a + b)) opnum opnds result
  else if op =? 45 then fold_operands fuel (λ a b, int (a - b)) opnum opnds result
  else if op =? 42 then fold_operands fuel (λ a b, int (a * b)) opnum opnds result
  else if op =? 47 then fold_operands fuel int_div opnum opnds result
  else ret result.
End pure.

Section programs.
Context `{OS}.

(** [get_num(&ptr)]: [ptr] is an index into [message]. *)
Definition get_num (fuel : nat) (message : buf) (ptr : Z) : Net (Z * Z) :=
  '(num, ptr) ← loop fuel (λ '(num, ptr),
    c ← need (bat message ptr);
    if c =? 32 then ret (inr (num, ptr)) else
    num ← (t ← int (num * 10); int (t + (char_value c - 48)));
    printf "pointer ++!\n" [];;
    ret (inl (num, ptr + 1))) (0, ptr);
  printf "pointer ++!\n" [];;
  ret (num, ptr + 1).

(** The requests of one client of op_server_bad.c: read the numbers, fold the
    operator over them, send the result. *)
Definition op_server_bad_client (fuel : nat) (client_socket : Z) (message : buf) : Net buf :=
  let BUF_SIZE := 1024 in
  let NUM_SIZE := 100 in
  '(_, message) ← read client_socket message BUF_SIZE;
  m ← pstr message;
  printf "received message: %s\n" [m];;
  '(cnt, ptr) ← get_num fuel message 0;
  printf "distance: %ld\n" [PInt (- ptr)];;
  '(numbers, ptr) ← loop fuel (λ '(j, numbers, ptr),
    if j <? cnt then
      '(num, ptr) ← get_num fuel message ptr;
      printf "%d th number: %d\n" [PInt (j + 1); PInt num];;
      numbers ← need (iput numbers j num);
      printf "distance: %ld\n" [PInt (- ptr)];;
      ret (inl (j + 1, numbers, ptr))
    else ret (inr (numbers, ptr))) (0, uninit NUM_SIZE, ptr);
  op ← need (bat message ptr);
  printf "the operator is %c\n" [PChr op];;
  result ← need (iget numbers 0);
  result ← loop fuel (λ '(j, result),
    if j <? cnt then
      x ← need (iget numbers j); result ← calculate result x op; ret (inl (j + 1, result))
    else ret (inr result)) (1, result);
  printf "calculate result: %d\n" [PInt result];;
  message ← int2string fuel result message;
  n ← strlen message;
  write client_socket message n;;
  ret message.
Definition op_server_bad_main (fuel : nat) (argv : list (list Z)) : Net Z :=
  server_socket ← tcp_server_open argv;
  (loop fuel (λ '(i, message),
    client_socket ← accept server_socket;
    (if client_socket =? -1 then error_handling "accept() error"
     else n ← int (i + 1); printf "Connected client %d\n" [PInt n]);;
    message ← op_server_bad_client fuel client_socket message;
    close client_socket;;
    i ← int (i + 1);
    ret (inl (i, message))) (0, uninit 1024) : Net unit);;
  close server_socket;;
  ret 0.

(** [scanf("%d", &v)]: [v] is left alone when nothing matches. *)
Definition scan_int (v : option Z) : Net (option Z) :=
  r ← sys (Scanf "%d"); ret (if ret_ r =? 1 then head (data r) else v).
(** [scanf("%s", b)] *)
Definition scan_word (b : buf) : Net buf :=
  r ← sys (Scanf "%s"); if ret_ r =? 1 then need (bput b 0 (data r ++ [0])) else ret b.

Definition op_client_bad_main (fuel : nat) (argv : list (list Z)) : Net Z :=
  let BUF_SIZE := 1024 in
  message ← set (uninit BUF_SIZE) 0 0;
  str ← set (uninit BUF_SIZE) 0 0;
  client_socket ← echo_client_open argv;
  printf "Operand count: " [];;
  cnt ← scan_int None;
  puts "";;
  cnt ← need cnt;
  str ← int2string_client fuel cnt str;
  message ← add_message message str;
  '(str, message) ← loop fuel (λ '(i, num, str, message),
    if i <? cnt then
      printf "Operand: " [];;
      num ← scan_int num;
      puts "";;
      n ← need num;
      str ← int2string_client fuel n str;
      message ← add_message message str;
      ret (inl (i + 1, num, str, message))
    else ret (inr (str, message))) (0, None, str, message);
  printf "Operator: " [];;
  op ← scan_word (uninit 2);
  message ← add_message message op;
  message ← add_message message (Some <$> [0; 0]);
  m ← pstr message;
  printf "input message: %s\n" [m];;
  n ← strlen message;
  write client_socket message n;;
  '(r, message) ← read client_socket message (BUF_SIZE - 1);
  whenM (r =? -1) (error_handling "read() error");;
  m ← pstr message;
  printf "Operation result: %s\n" [m];;
  close client_socket;;
  ret 0.
End programs.

(** op_client.c has the client's two functions again; its [main] and the one of
    op_server.c name variables that are not declared (opcnt, ret, recv_len) and
    do not compile. *)
Definition op_client_int2string {S} := int2string_client (S:=S).
Definition op_client_add_message {S} := add_message (S:=S).
