(* ===== verification/NetUdp.v ===== *)
(** The datagram programs of src/net-program: chapters 6 and 14. *)
From S2P Require Import Prelude NetModel NetTcp.

Section programs.
Context `{OS}.

(** The datagram servers' start: like the stream servers', without [listen]. *)
Definition udp_server_open (socket_error : string) (argv : list (list Z)) : Net Z :=
  usage argv 2 "Usage : %s <port>\n";;
  server_socket ← socket PF_INET SOCK_DGRAM 0;
  whenM (server_socket =? -1) (error_handling socket_error);;
  p ← arg argv 1; port ← atoi p;
  b ← val (Bind server_socket (server_address port));
  whenM (b =? -1) (error_handling "bind() error");;
  ret server_socket.
(** The datagram clients' start: the socket and the cleared address. *)
Definition udp_client_open (argv : list (list Z)) : Net (Z * sockaddr_in) :=
  usage argv 3 "Usage: %s <IP> <Port>\n";;
  client_socket ← socket PF_INET SOCK_DGRAM 0;
  whenM (client_socket =? -1) (error_handling "sock() error");;
  a ← client_address (Some 0) argv;
  ret (client_socket, a).

(** * chap6/uecho_server.c *)

(** [client_address_size] is never set before the first [recvfrom]. *)
Definition uecho_server_main (fuel : nat) (argv : list (list Z)) : Net Z :=
  let BUF_SIZE := 30 in
  server_socket ← udp_server_open "UDP socket creation error" argv;
  (loop fuel (λ '(message, client_address_size),
    '(str_len, message, (client_address, client_address_size)) ←
      recvfrom server_socket message BUF_SIZE 0 client_address_size;
    sendto server_socket message str_len 0 client_address client_address_size;;
    ret (inl (message, client_address_size))) (uninit BUF_SIZE, LenUninit) : Net unit);;
  close server_socket;;
  ret 0.

(** * chap6/uecho_client.c *)

(** One turn of the loop: a line from the user, a datagram, its answer. *)
Definition uecho_client_turn (client_socket : Z) (server_address : sockaddr_in)
    (l : buf * addr_len) : Net (buf * addr_len + unit) :=
  let BUF_SIZE := 30 in
  let '(message, address_size) := l in
  fputs "Input message (Q or q to quit): " stdout;;
  '(_, message) ← fgets message BUF_SIZE stdin;
  quit ← is_quit message;
  if quit then ret (inr tt) else
  n ← strlen message;
  sendto client_socket message n 0 server_address (Len sizeof_sockaddr_in);;
  '(str_len, message, (from_address, address_size)) ←
    recvfrom client_socket message BUF_SIZE 0 address_size;
  message ← set message str_len 0;
  m ← pstr message;
  printf "Message from server: %s\n" [m];;
  ret (inl (message, address_size)).
Definition uecho_client_main (fuel : nat) (argv : list (list Z)) : Net Z :=
  '(client_socket, server_address) ← udp_client_open argv;
  loop fuel (uecho_client_turn client_socket server_address)
    (uninit 30, Len sizeof_sockaddr_in);;
  close client_socket;;
  ret 0.

(** * chap6/uecho_con_client.c *)

Definition uecho_con_client_main (fuel : nat) (argv : list (list Z)) : Net Z :=
  let BUF_SIZE := 30 in
  '(client_socket, server_address) ← udp_client_open argv;
  run (Connect client_socket server_address);;
  loop fuel (λ message,
    fputs "Input message (Q or q to quit): " stdout;;
    '(_, message) ← fgets message BUF_SIZE stdin;
    quit ← is_quit message;
    if quit then ret (inr tt) else
    n ← strlen message;
    write client_socket message n;;
    '(str_len, message) ← read client_socket message (BUF_SIZE - 1);
    message ← set message str_len 0;
    m ← pstr message;
    printf "Message from server: %s\n" [m];;
    ret (inl message)) (uninit BUF_SIZE);;
  close client_socket;;
  ret 0.

(** * chap6/bound_client.c, chap6/bound_server.c *)

Definition send_text (fd : Z) (a : sockaddr_in) (text : string) : Net Z :=
  let message := c_array text in
  sendto fd (Some <$> message) (Z.of_nat (length message)) 0 a (Len sizeof_sockaddr_in).
Definition bound_client_main (argv : list (list Z)) : Net Z :=
  '(client_socket, your_address) ← udp_client_open argv;
  send_text client_socket your_address "Hi";;
  send_text client_socket your_address "I'm another UDP host";;
  send_text client_socket your_address "Nice to meet you";;
  close client_socket;;
  ret 0.
Definition bound_server_main (fuel : nat) (argv : list (list Z)) : Net Z :=
  let BUF_SIZE := 30 in
  server_socket ← udp_server_open "socket() error" argv;
  loop fuel (λ '(i, message, address_size),
    if i <? 3 then
      sleep 5;;
      '(str_len, message, (your_address, address_size)) ←
        recvfrom server_socket message BUF_SIZE 0 address_size;
      m ← pstr message;
      printf "Message: %dth %s\n" [PInt (i + 1); m];;
      ret (inl (i + 1, message, address_size))
    else ret (inr tt)) (0, uninit BUF_SIZE, Len sizeof_sockaddr_in);;
  close server_socket;;
  ret 0.

(** * chap14/news_receiver.c, chap14/news_receiver_brd.c *)

(** [recvfrom] without an address until it fails; [show] prints the message. *)
Definition news_loop (fuel : nat) (recv_sock : Z) (show : parg → Net unit) : Net unit :=
  let BUF_SIZE := 100 in
  loop fuel (λ buf,
    '(str_len, buf, _) ← recvfrom recv_sock buf (BUF_SIZE - 1) 0 NoAddr;
    if str_len <? 0 then ret (inr tt) else
    buf ← set buf str_len 0;
    m ← pstr buf;
    show m;;
    ret (inl buf)) (uninit BUF_SIZE).
Definition news_receiver_main (fuel : nat) (argv : list (list Z)) : Net Z :=
  usage argv 3 "Usage : %s <GroupIP> <Port>\n";;
  recv_sock ← socket PF_INET SOCK_DGRAM 0;
  p ← arg argv 2; port ← atoi p;
  b ← val (Bind recv_sock (server_address port));
  whenM (b =? -1) (error_handling "bind() error");;
  group ← arg argv 1;
  run (Setsockopt recv_sock IPPROTO_IP IP_ADD_MEMBERSHIP [inet_addr group; htonl INADDR_ANY]);;
  news_loop fuel recv_sock (λ m, printf "Received message: %s\n" [m]);;
  close recv_sock;;
  ret 0.
Definition news_receiver_brd_main (fuel : nat) (argv : list (list Z)) : Net Z :=
  usage argv 2 "Usage : %s <Port>\n";;
  recv_sock ← socket PF_INET SOCK_DGRAM 0;
  p ← arg argv 1; port ← atoi p;
  b ← val (Bind recv_sock (server_address port));
  whenM (b =? -1) (error_handling "bind() error");;
  news_loop fuel recv_sock (λ m, run (Fputs stdout "%s" [m]));;
  close recv_sock;;
  ret 0.

(** * chap14/news_sender.c, chap14/news_sender_brd.c *)

(** [while (!feof(fp)) { fgets(buf, BUF_SIZE, fp); sendto(...); sleep(2); }] *)
Definition news_send_loop (fuel : nat) (send_sock fp : Z) (a : sockaddr_in) : Net unit :=
  let BUF_SIZE := 100 in
  loop fuel (λ buf,
    e ← val (Feof fp);
    if negb (e =? 0) then ret (inr tt) else
    '(_, buf) ← fgets buf BUF_SIZE fp;
    n ← strlen buf;
    sendto send_sock buf n 0 a (Len sizeof_sockaddr_in);;
    sleep 2;;
    ret (inl buf)) (uninit BUF_SIZE).
Definition news_sender_main (fuel : nat) (argv : list (list Z)) : Net Z :=
  usage argv 3 "Usage: %s <IP> <Port>\n";;
  send_sock ← socket PF_INET SOCK_DGRAM 0;
  a ← client_address (Some 0) argv;
  run (Setsockopt send_sock IPPROTO_IP IP_MULTICAST_TTL [64]);;
  fp ← val (Fopen "news.txt" "r");
  whenM (fp =? 0) (error_handling "fopen() error");;
  news_send_loop fuel send_sock fp a;;
  run (Fclose fp);;
  close send_sock;;
  ret 0.
Definition news_sender_brd_main (fuel : nat) (argv : list (list Z)) : Net Z :=
  usage argv 3 "Usage: %s <IP> <Port>\n";;
  send_sock ← socket PF_INET SOCK_DGRAM 0;
  a ← client_address (Some 0) argv;
  run (Setsockopt send_sock SOL_SOCKET SO_BROADCAST [1]);;
  fp ← val (Fopen "news.txt" "r");
  whenM (fp =? 0) (error_handling "fopen() error");;
  news_send_loop fuel send_sock fp a;;
  close send_sock;;
  ret 0.
End programs.
