(* ===== verification/NetFile.v ===== *)
(** The file transfer of src/net-program/chap7, and the socket options,
    addresses, host names, scattered and out-of-band transfers of chapters 1,
    3, 8, 9 and 13. *)
From S2P Require Import Prelude NetModel NetTcp.

Section programs.
Context `{OS}.

(** * chap7/file_server.c *)

(** The file, in pieces of [BUF_SIZE] bytes, up to the first shorter one. *)
Definition send_file_loop (fuel : nat) (client_socket fp : Z) (b : buf) : Net buf :=
  let BUF_SIZE := 30 in
  loop fuel (λ b,
    r ← sys (Fread fp BUF_SIZE);
    b ← need (bput b 0 (data r));
    let read_cnt := ret_ r in
    if read_cnt <? BUF_SIZE then
      write client_socket b read_cnt;; ret (inr b)
    else
      write client_socket b BUF_SIZE;; ret (inl b)) b.
Definition file_server_main (fuel : nat) (argv : list (list Z)) : Net Z :=
  usage argv 2 "Usage : %s <port>\n";;
  fp ← val (Fopen "file_server.c" "rb");
  server_socket ← socket PF_INET SOCK_STREAM 0;
  p ← arg argv 1; port ← atoi p;
  run (Bind server_socket (server_address port));;
  run (Listen server_socket 5);;
  client_socket ← accept server_socket;
  b ← send_file_loop fuel client_socket fp (uninit 30);
  run (Shutdown client_socket SHUT_WR);;
  '(_, b) ← read client_socket b 30;
  m ← pstr b;
  printf "Message from client: %s\n" [m];;
  run (Fclose fp);;
  close server_socket;;
  close client_socket;;
  ret 0.

(** * chap7/file_client.c *)

Definition receive_file_loop (fuel : nat) (client_socket fp : Z) (b : buf) : Net buf :=
  let BUF_SIZE := 30 in
  loop fuel (λ b,
    '(read_cnt, b) ← read client_socket b BUF_SIZE;
    if read_cnt =? 0 then ret (inr b) else
    bytes ← need (bget b read_cnt);
    run (Fwrite fp bytes);;
    ret (inl b)) b.
Definition file_client_main (fuel : nat) (argv : list (list Z)) : Net Z :=
  usage argv 3 "Usage: %s <IP> <Port>\n";;
  fp ← val (Fopen "receive.dat" "wb");
  client_socket ← socket PF_INET SOCK_STREAM 0;
  a ← client_address (Some 0) argv;
  run (Connect client_socket a);;
  receive_file_loop fuel client_socket fp (uninit 30);;
  puts "Received file data";;
  write client_socket (Some <$> c_array "Thank you") 10;;
  run (Fclose fp);;
  close client_socket;;
  ret 0.

(** * chap1/fd_seri.c *)

Definition fd_seri_main : Net Z :=
  fd1 ← socket PF_INET SOCK_STREAM 0;
  fd2 ← val (Open "test.dat" ["O_CREAT"; "O_WRONLY"]);
  fd3 ← socket PF_INET SOCK_DGRAM 0;
  printf "file descriptor 1: %d\n" [PInt fd1];;
  printf "file descriptor 2: %d\n" [PInt fd2];;
  printf "file descriptor 3: %d\n" [PInt fd3];;
  close fd1;; close fd2;; close fd3;;
  ret 0.

(** * chap3: byte order and addresses *)

Definition endian_conv_main : Net Z :=
  let host_port := 4660 (* 0x1234 *) in
  let host_addr := 305419896 (* 0x12345678 *) in
  let net_port := htons host_port in
  let net_addr := htonl host_addr in
  printf "Host ordered port: %#x\n" [PInt host_port];;
  printf "Network ordered port: %#x\n" [PInt net_port];;
  printf "Host ordered address: %#lx\n" [PInt host_addr];;
  printf "Network ordered address: %#lx\n" [PInt net_addr];;
  ret 0.
Definition Inet_addr (addr : list Z) : Net Z :=
  let conv_addr := inet_addr addr in
  (if conv_addr =? INADDR_NONE then printf "Error occurred\n" []
   else printf "Network ordered integer address: %#lx\n" [PInt conv_addr]);;
  ret conv_addr.
Definition inet_addr_main : Net Z :=
  Inet_addr (bytes_of "1.2.3.4");;
  Inet_addr (bytes_of "1.2.3.256");;
  ret 0.
Definition inet_aton_main : Net Z :=
  (match inet_aton (bytes_of "127.232.124.79") with
   | None => error_handling "inet_aton() error"
   | Some s_addr => printf "Network ordered integer addr: %#x
" [PInt s_addr]
   end);;
  ret 0.
(** The string [inet_ntoa] returns is overwritten by its next call: [str_ptr]
    shows the second address afterwards, the copy the first. *)
Definition inet_ntoa_main : Net Z :=
  let s_addr1 := htonl 16909060 (* 0x1020304 *) in
  let s_addr2 := htonl 16843009 (* 0x1010101 *) in
  let static := inet_ntoa s_addr1 in
  str_arr ← need (bput (uninit 20) 0 (static ++ [0]));
  printf "Dotted-Decimal notation address: %s\n" [PStr static];;
  let static := inet_ntoa s_addr2 in
  printf "Dotted-Decimal notation address: %s\n" [PStr static];;
  m ← pstr str_arr;
  printf "Dotted-Decimal notation address: %s\n" [m];;
  ret 0.

(** * chap8: host names *)

(** [for (i = 0; v[i]; ++ i) printf(text, i + 1, v[i]);] *)
Fixpoint print_all (text : string) (i : Z) (v : list (list Z)) : Net unit :=
  match v with
  | [] => ret tt
  | s :: v => printf text [PInt (i + 1); PStr s];; print_all text (i + 1) v
  end.
Definition print_host (h : hostent) : Net Z :=
  printf "Official name: %s\n" [PStr (h_name h)];;
  print_all "Aliases %d: %s\n" 0 (h_aliases h);;
  printf "Address type: %s\n"
    [PStr (bytes_of (if h_addrtype h =? AF_INET then "IPv4" else "IPv6"))];;
  print_all "IP address %d: %s\n" 0 (inet_ntoa <$> h_addr_list h);;
  ret 0.
Definition gethostbyname_main (argv : list (list Z)) : Net Z :=
  usage argv 2 "Usage : %s <address>\n";;
  name ← arg argv 1;
  r ← sys (Gethostbyname name);
  match host r with
  | None => error_handling "gethostbyname() error"
  | Some h => print_host h
  end.
Definition gethostbyaddr_main (argv : list (list Z)) : Net Z :=
  usage argv 2 "Usage : %s <IP>\n";;
  ip ← arg argv 1;
  r ← sys (Gethostbyaddr (inet_addr ip) 4 AF_INET);
  match host r with
  | None => error_handling "gethostbyaddr() error"
  | Some h => print_host h
  end.

(** * chap9: socket options *)

(** [state = getsockopt(sock, SOL_SOCKET, name, &v, &len);
    if (state != 0) error_handling(...);] *)
Definition get_option (sock name : Z) : Net Z :=
  r ← sys (Getsockopt sock SOL_SOCKET name);
  whenM (negb (ret_ r =? 0)) (error_handling "getsockopt() error");;
  need (head (data r)).
Definition set_option (sock name v : Z) : Net unit :=
  state ← val (Setsockopt sock SOL_SOCKET name [v]);
  whenM (negb (state =? 0)) (error_handling "getsockopt() error").
Definition print_sizes (rcv_buf snd_buf : Z) : Net Z :=
  printf "Input buffer size: %d\n" [PInt rcv_buf];;
  printf "Output buffer size: %d\n" [PInt snd_buf];;
  ret 0.
Definition get_buf_main : Net Z :=
  sock ← socket PF_INET SOCK_STREAM 0;
  snd_buf ← get_option sock SO_SNDBUF;
  rcv_buf ← get_option sock SO_RCVBUF;
  print_sizes rcv_buf snd_buf.
Definition set_buf_main : Net Z :=
  sock ← socket PF_INET SOCK_STREAM 0;
  set_option sock SO_RCVBUF (1024 * 3);;
  set_option sock SO_SNDBUF (1024 * 3);;
  snd_buf ← get_option sock SO_SNDBUF;
  rcv_buf ← get_option sock SO_RCVBUF;
  print_sizes rcv_buf snd_buf.
Definition socket_type_main : Net Z :=
  tcp_socket ← socket PF_INET SOCK_STREAM 0;
  udp_socket ← socket PF_INET SOCK_DGRAM 0;
  printf "TCP SOCKET: %d\n" [PInt SOCK_STREAM];;
  printf "UDP SOCKET: %d\n" [PInt SOCK_DGRAM];;
  socket_type ← get_option tcp_socket SO_TYPE;
  printf "Socket tcp type: %d\n" [PInt socket_type];;
  socket_type ← get_option udp_socket SO_TYPE;
  printf "Socket udp type: %d\n" [PInt socket_type];;
  ret 0.

(** * chap13: several buffers, urgent data, peeking *)

(** [readv] fills the first buffer, then the second. *)
Definition readv_main : Net Z :=
  let zeros := replicate 100 (Some 0) in
  r ← sys (Readv 0 [5; 100]);
  buf1 ← need (bput zeros 0 (take 5 (data r)));
  buf2 ← need (bput zeros 0 (drop 5 (data r)));
  printf "Read %d bytes\n" [PInt (ret_ r)];;
  m1 ← pstr buf1;
  printf "First message: %s\n" [m1];;
  m2 ← pstr buf2;
  printf "Second message: %s\n" [m2];;
  ret 0.
Definition writev_main : Net Z :=
  str_len ← val (Writev 1 [bytes_of "ABCD"; bytes_of "12345"]);
  puts "";;
  printf "Write %d bytes\n" [PInt str_len];;
  ret 0.

Definition oob_send_main (argv : list (list Z)) : Net Z :=
  sock ← tcp_client_open "Usage: %s <IP> <Port>\n" "sock() error" 0 argv;
  val (Write sock (bytes_of "123"));;
  val (Send sock (bytes_of "4") MSG_OOB);;
  val (Write sock (bytes_of "567"));;
  val (Send sock (bytes_of "890") MSG_OOB);;
  close sock;;
  ret 0.
Definition peek_send_main (argv : list (list Z)) : Net Z :=
  sock ← tcp_client_open "Usage: %s <IP> <Port>\n" "sock() error" 0 argv;
  val (Write sock (bytes_of "123"));;
  close sock;;
  ret 0.

(** The start of oob_recv.c and peek_recv.c: only [bind] is checked. *)
Definition recv_open (argv : list (list Z)) : Net (Z * Z) :=
  usage argv 2 "Usage : %s <port>\n";;
  serv_sock ← socket PF_INET SOCK_STREAM 0;
  p ← arg argv 1; port ← atoi p;
  b ← val (Bind serv_sock (server_address port));
  whenM (b =? -1) (error_handling "bind() error");;
  run (Listen serv_sock 5);;
  clnt_sock ← accept serv_sock;
  ret (serv_sock, clnt_sock).
Definition oob_loop (fuel : nat) (clnt_sock : Z) (b : buf) : Net buf :=
  loop fuel (λ b,
    '(str_len, b) ← recv clnt_sock b (100 - 1) 0;
    if str_len =? 0 then ret (inr b) else
    if str_len =? -1 then ret (inl b) else
    b ← set b str_len 0;
    m ← pstr b;
    run (Puts "%s" [m]);;
    ret (inl b)) b.
Definition oob_recv_main (fuel : nat) (argv : list (list Z)) : Net Z :=
  '(serv_sock, clnt_sock) ← recv_open argv;
  pid ← val Getpid;
  run (Fcntl clnt_sock F_SETOWN pid);;
  run (Sigaction SIGURG "urg_handler");;
  oob_loop fuel clnt_sock (uninit 100);;
  close serv_sock;;
  close clnt_sock;;
  ret 0.
Definition urg_handler (clnt_sock sig : Z) : Net unit :=
  '(str_len, b) ← recv clnt_sock (uninit 100) (100 - 1) MSG_OOB;
  b ← set b str_len 0;
  m ← pstr b;
  printf "Urgent message: %s\n" [m].
Definition peek_loop (fuel : nat) (clnt_sock : Z) (b : buf) : Net (Z * buf) :=
  loop fuel (λ b,
    '(str_len, b) ← recv clnt_sock b (100 - 1) (Z.lor MSG_PEEK MSG_DONTWAIT);
    if str_len >? 0 then ret (inr (str_len, b)) else ret (inl b)) b.
Definition peek_recv_main (fuel : nat) (argv : list (list Z)) : Net Z :=
  '(serv_sock, clnt_sock) ← recv_open argv;
  '(str_len, b) ← peek_loop fuel clnt_sock (uninit 100);
  b ← set b str_len 0;
  m ← pstr b;
  printf "Buffering %d bytes: %s\n" [PInt str_len; m];;
  '(str_len, b) ← recv clnt_sock b (100 - 1) 0;
  b ← set b str_len 0;
  m ← pstr b;
  printf "Read again: %s\n" [m];;
  close serv_sock;;
  close clnt_sock;;
  ret 0.
End programs.
