(* ===== verification/NetProc.v ===== *)
(** The processes of src/net-program: children, signals and pipes (chapters 10
    and 11) and multiplexing with [select] (chapter 12). A process is followed
    through the values its own calls return: [fork] gives 0 in the child and
    the child's number in the parent. *)
From stdpp Require Import gmap.
From S2P Require Import Prelude NetModel NetTcp.

Section programs.
Context `{OS}.

Definition Fork : Net Z :=
  pid ← val Fork_;
  if pid =? -1 then printf "fork failed\n" [];; exit 1 else ret pid.

(** The status a child left, if it left one: [WIFEXITED] and [WEXITSTATUS] of a
    status no child was collected into are not defined. *)
Definition wait : Net (option Z) :=
  r ← sys Wait; ret (head (data r)).
Definition waitpid (pid options : Z) : Net (Z * option Z) :=
  r ← sys (Waitpid pid options); ret (ret_ r, head (data r)).
Definition WIFEXITED (status : Z) : bool := Z.land status 127 =? 0.
Definition WEXITSTATUS (status : Z) : Z := Z.land (Z.shiftr status 8) 255.
Definition print_status (status : option Z) : Net unit :=
  s ← need status;
  whenM (WIFEXITED s) (printf "Child send one: %d\n" [PInt (WEXITSTATUS s)]).

(** * chap10: children and signals *)

Definition zombie_main : Net Z :=
  pid ← val Fork_;
  (if pid =? -1 then printf "fork failed\n" [];; exit 1
   else if pid =? 0 then printf "Hi, I am child process" []
   else printf "Child process ID: %d\n" [PInt pid];; sleep 30);;
  (if pid =? 0 then puts "End child process" else puts "End parent process");;
  ret 0.

Definition wait_main : Net Z :=
  pid ← Fork;
  if pid =? 0 then ret 3 else
  printf "Child pid: %d\n" [PInt pid];;
  pid ← Fork;
  if pid =? 0 then exit 7 else
  printf "Child pid: %d\n" [PInt pid];;
  status ← wait;
  print_status status;;
  status' ← wait;
  print_status (match status' with Some _ => status' | None => status end);;
  sleep 30;;
  ret 0.

Definition waitpid_main (fuel : nat) : Net Z :=
  pid ← Fork;
  if pid =? 0 then sleep 24;; ret 24 else
  status ← loop fuel (λ status,
    '(id, status') ← waitpid (-1) WNOHANG;
    let status := match status' with Some _ => status' | None => status end in
    if id =? 0 then sleep 3;; puts "sleep 3 sec.";; ret (inl status)
    else ret (inr status)) None;
  print_status status;;
  ret 0.

(** The handler of remove_zombie.c. *)
Definition read_childproc_status (sig : Z) : Net unit :=
  '(id, status) ← waitpid (-1) WNOHANG;
  s ← need status;
  whenM (WIFEXITED s) (
    printf "Removed proc id: %d\n" [PInt id];;
    printf "Child send: %d\n" [PInt (WEXITSTATUS s)]).
Definition remove_zombie_main (fuel : nat) : Net Z :=
  run (Sigaction SIGCHLD "read_childproc");;
  pid ← Fork;
  if pid =? 0 then puts "Hi I'm child process";; sleep 10;; ret 12 else
  printf "Child process id: %d\n" [PInt pid];;
  pid ← Fork;
  if pid =? 0 then puts "Hi I'm child process";; sleep 10;; ret 24 else
  printf "Child process id: %d\n" [PInt pid];;
  loop fuel (λ i,
    if i <? 5 then puts "wait ...";; sleep 5;; ret (inl (i + 1)) else ret (inr tt)) 0;;
  ret 0.

Definition timeout (sig : Z) : Net unit := puts "Time out!";; run (Alarm 2).
Definition keycontrol (sig : Z) : Net unit := puts "Ctrl + C pressed".
Definition wait_loop (fuel : nat) : Net unit :=
  loop fuel (λ i,
    if i <? 3 then puts "wait ...";; sleep 1000;; ret (inl (i + 1)) else ret (inr tt)) 0.
Definition sigaction_main (fuel : nat) : Net Z :=
  run (Sigaction SIGALRM "timeout");;
  run (Alarm 2);;
  wait_loop fuel;;
  ret 0.
Definition signal_main (fuel : nat) : Net Z :=
  run (Signal SIGALRM "timeout");;
  run (Signal SIGINT "keycontrol");;
  run (Alarm 2);;
  wait_loop fuel;;
  ret 0.

(** * chap10/echo_mp_client.c, chap11/echo_mp_client.c *)

Definition read_routine (fuel : nat) (sock : Z) (b : buf) : Net buf :=
  loop fuel (λ b,
    '(str_len, b) ← read sock b 30;
    if str_len =? 0 then ret (inr b) else
    b ← set b str_len 0;
    m ← pstr b;
    printf "Message from server: %s" [m];;
    ret (inl b)) b.
(** After [shutdown] the loop goes on. *)
Definition write_routine (fuel : nat) (sock : Z) (b : buf) : Net buf :=
  loop fuel (λ b,
    fputs "Input message (Q to quit): " stdout;;
    '(_, b) ← fgets b 30 stdin;
    quit ← is_quit b;
    whenM quit (run (Shutdown sock SHUT_WR));;
    n ← strlen b;
    write sock b n;;
    ret (inl b)) b.
Definition echo_mp_client_main (fuel : nat) (argv : list (list Z)) : Net Z :=
  sock ← tcp_client_open "Usage: %s <IP> <Port>\n" "sock() error" 0 argv;
  pid ← Fork;
  (if pid =? 0 then write_routine fuel sock (uninit 30)
   else read_routine fuel sock (uninit 30));;
  close sock;;
  ret 0.

(** * chap10/echo_mp_server.c *)

Definition read_childproc (sig : Z) : Net unit :=
  '(pid, _) ← waitpid (-1) WNOHANG;
  printf "removed child process id: %d\n" [PInt pid].
(** From the argument check to [listen]: the handler comes first, the socket is
    not checked. *)
Definition mp_server_open (argv : list (list Z)) : Net Z :=
  usage argv 2 "Usage : %s <port>\n";;
  run (Sigaction SIGCHLD "read_childproc");;
  serv_sock ← socket PF_INET SOCK_STREAM 0;
  p ← arg argv 1; port ← atoi p;
  b ← val (Bind serv_sock (server_address port));
  whenM (b =? -1) (error_handling "bind() error");;
  l ← val (Listen serv_sock 5);
  whenM (l =? -1) (error_handling "listen() error");;
  ret serv_sock.
(** The accepting loop: the parent closes its copy and goes on, the child runs
    [serve] and returns from [main]. *)
Definition mp_accept_loop (fuel : nat) (serv_sock : Z) (serve : Z → Net unit) : Net Z :=
  loop fuel (λ _ : unit,
    clnt_sock ← accept serv_sock;
    if clnt_sock =? -1 then ret (inl tt) else
    puts "new client connected ...";;
    pid ← Fork;
    if pid =? -1 then close clnt_sock;; ret (inl tt) else
    if pid =? 0 then
      close serv_sock;;
      serve clnt_sock;;
      close clnt_sock;;
      puts "clint disconnected.";;
      ret (inr 0)
    else close clnt_sock;; ret (inl tt)) tt.
Definition echo_mp_server_main (fuel : nat) (argv : list (list Z)) : Net Z :=
  serv_sock ← mp_server_open argv;
  mp_accept_loop fuel serv_sock (λ clnt_sock,
    echo_loop fuel clnt_sock (uninit 30) 30;; ret tt).

(** * chap11/echo_store_server.c *)

(** The storing process: ten reads of the pipe, each stored. *)
Definition store_loop (fuel : nat) (fd fp : Z) : Net unit :=
  loop fuel (λ '(i, msg_buf),
    if i <? 10 then
      '(len, msg_buf) ← read fd msg_buf 30;
      bytes ← need (bget msg_buf len);
      run (Fwrite fp bytes);;
      ret (inl (i + 1, msg_buf))
    else ret (inr tt)) (0, uninit 30).
(** Echo, and pass a copy on. *)
Definition echo_tee_loop (fuel : nat) (clnt_sock fd : Z) (b : buf) : Net buf :=
  loop fuel (λ b,
    '(str_len, b) ← read clnt_sock b 30;
    if str_len =? 0 then ret (inr b) else
    write clnt_sock b str_len;;
    write fd b str_len;;
    ret (inl b)) b.
Definition echo_store_server_main (fuel : nat) (argv : list (list Z)) : Net Z :=
  serv_sock ← mp_server_open argv;
  r ← sys Pipe;
  fd0 ← need (data r !! 0%nat); fd1 ← need (data r !! 1%nat);
  pid ← Fork;
  if pid =? 0 then
    fp ← val (Fopen "echo_message.txt" "wt");
    store_loop fuel fd0 fp;;
    run (Fclose fp);;
    ret 0
  else
    mp_accept_loop fuel serv_sock (λ clnt_sock,
      echo_tee_loop fuel clnt_sock fd1 (uninit 30);; ret tt).

(** * chap11/pipe2.c, chap11/pipe3.c *)

Definition write_text (fd : Z) (text : string) : Net Z := val (Write fd (c_array text)).
(** One pipe for both directions: each side may read what it wrote itself. *)
Definition pipe2_main : Net Z :=
  r ← sys Pipe;
  fd0 ← need (data r !! 0%nat); fd1 ← need (data r !! 1%nat);
  pid ← Fork;
  (if pid =? 0 then
     write_text fd1 "Hello World!";;
     '(_, b) ← read fd0 (uninit 30) 30;
     m ← pstr b;
     printf "Child process, get message: %s\n" [m]
   else
     '(_, b) ← read fd0 (uninit 30) 30;
     m ← pstr b;
     printf "Parent process, get message: %s\n" [m];;
     write_text fd1 "Sorry, Who are you?";;
     sleep 3);;
  ret 0.
Definition pipe3_main : Net Z :=
  r1 ← sys Pipe; r2 ← sys Pipe;
  fd10 ← need (data r1 !! 0%nat); fd11 ← need (data r1 !! 1%nat);
  fd20 ← need (data r2 !! 0%nat); fd21 ← need (data r2 !! 1%nat);
  pid ← Fork;
  (if pid =? 0 then
     write_text fd11 "Hello World!";;
     '(_, b) ← read fd20 (uninit 30) 30;
     m ← pstr b;
     printf "Child process, get message: %s\n" [m]
   else
     '(_, b) ← read fd10 (uninit 30) 30;
     m ← pstr b;
     printf "Parent process, get message: %s\n" [m];;
     write_text fd21 "Sorry, Who are you?";;
     sleep 3);;
  ret 0.

(** * chap12/echo_select_server.c *)

(** The descriptors that are watched, their bound, and the clients' bytes. *)
Record watch := Watch { w_reads : gset Z; w_fd_max : Z; w_buf : buf }.
(** [FD_SET], [FD_CLR]: defined for descriptors below [FD_SETSIZE]. *)
Definition FD_SETSIZE : Z := 1024.
Definition FD_SET (fd : Z) (s : gset Z) : Net (gset Z) :=
  if (0 <=? fd) && (fd <? FD_SETSIZE) then ret ({[fd]} ∪ s) else undef.
Definition FD_CLR (fd : Z) (s : gset Z) : Net (gset Z) :=
  if (0 <=? fd) && (fd <? FD_SETSIZE) then ret (s ∖ {[fd]}) else undef.
Definition select (nfds : Z) (s : gset Z) (sec : Z) : Net (Z * gset Z) :=
  r ← sys (Select nfds s sec 0); ret (ret_ r, ready r).

(** One descriptor [i] of the scan. *)
Definition serve_fd (serv_sock i : Z) (copy_reads : gset Z) (w : watch) : Net watch :=
  if negb (bool_decide (i ∈ copy_reads)) then ret w else
  if i =? serv_sock then
    clnt_sock ← accept serv_sock;
    reads ← FD_SET clnt_sock (w_reads w);
    let fd_max := if w_fd_max w <? clnt_sock then clnt_sock else w_fd_max w in
    printf "connected client: %d\n" [PInt clnt_sock];;
    ret (Watch reads fd_max (w_buf w))
  else
    '(str_len, b) ← read i (w_buf w) 100;
    if str_len =? 0 then
      reads ← FD_CLR i (w_reads w);
      close i;;
      printf "close client: %d\n" [PInt i];;
      ret (Watch reads (w_fd_max w) b)
    else
      write i b str_len;;
      ret (Watch (w_reads w) (w_fd_max w) b).
(** [for (i = 0; i < fd_max + 1; ++ i)]: the bound is read again each time. *)
Definition serve_loop (fuel : nat) (serv_sock : Z) (copy_reads : gset Z) (w : watch)
    : Net watch :=
  loop fuel (λ '(i, w),
    if i <? w_fd_max w + 1 then
      w ← serve_fd serv_sock i copy_reads w; ret (inl (i + 1, w))
    else ret (inr w)) (0, w).
Definition select_loop (fuel : nat) (serv_sock : Z) (w : watch) : Net unit :=
  loop fuel (λ w,
    '(fd_num, copy_reads) ← select (w_fd_max w + 1) (w_reads w) 30;
    if fd_num =? -1 then error_handling "select() error" else
    if fd_num =? 0 then ret (inr tt) else
    w ← serve_loop fuel serv_sock copy_reads w;
    ret (inl w)) w.
Definition echo_select_server_main (fuel : nat) (argv : list (list Z)) : Net Z :=
  usage argv 2 "Usage : %s <port>\n";;
  serv_sock ← socket PF_INET SOCK_STREAM 0;
  p ← arg argv 1; port ← atoi p;
  b ← val (Bind serv_sock (server_address port));
  whenM (b =? -1) (error_handling "bind() error");;
  l ← val (Listen serv_sock 5);
  whenM (l =? -1) (error_handling "listen() error");;
  reads ← FD_SET serv_sock ∅;
  select_loop fuel serv_sock (Watch reads serv_sock (uninit 100));;
  close serv_sock;;
  ret 0.

(** * chap12/select.c *)

Definition select_main (fuel : nat) : Net Z :=
  reads ← FD_SET 0 ∅;
  loop fuel (λ b,
    '(result, temps) ← select 1 reads 5;
    if result =? -1 then puts "select() error";; ret (inr tt) else
    if result =? 0 then puts "Time-out (no event occur)";; ret (inl b) else
    if bool_decide (0 ∈ temps) then
      '(str_len, b) ← read 0 b 30;
      b ← set b str_len 0;
      m ← pstr b;
      printf "Message from console: %s\n" [m];;
      ret (inl b)
    else ret (inl b)) (uninit 30);;
  ret 0.
End programs.

(** chap11/echo_mp_client.c is chap10/echo_mp_client.c again. *)
Definition chap11_echo_mp_client_main `{OS} := echo_mp_client_main.
