(* ===== verification/NetRules.v ===== *)
(** Reasoning about the programs of src/net-program: rules for the calls and
    the buffers, the bytes a trace moved, the descriptors it left open. *)
From stdpp Require Import gmap.
From S2P Require Import Prelude NetModel NetTcp.

(** * Buffers *)

Lemma bput_ok b i bytes :
  0 ≤ i → i + Z.of_nat (length bytes) ≤ size b → ∃ b', bput b i bytes = Some b'.
Proof.
  intros. unfold bput. rewrite (proj2 (Z.leb_le _ _)), (proj2 (Z.leb_le _ _)) by lia. by eexists.
Qed.

Lemma bput_inv b i bytes b' :
  bput b i bytes = Some b' →
  0 ≤ i ∧ i + Z.of_nat (length bytes) ≤ size b ∧ size b' = size b ∧
  b' = take (Z.to_nat i) b ++ (Some <$> bytes) ++ drop (Z.to_nat i + length bytes) b.
Proof.
  unfold bput. destruct (Z.leb_spec 0 i), (Z.leb_spec (i + Z.of_nat (length bytes)) (size b));
    simpl; try done. intros [= <-]. split_and!; try done. unfold size in *.
  rewrite !length_app, length_fmap, length_take, length_drop. lia.
Qed.

Lemma bput_size b i bytes b' : bput b i bytes = Some b' → size b' = size b.
Proof. by intros (_ & _ & ? & _)%bput_inv. Qed.

Lemma mapM_Some (l : list Z) : mapM id (Some <$> l) = Some l.
Proof.
  apply mapM_Some_2. induction l as [|x l IH]; simpl; constructor; done.
Qed.

Lemma bget_bput b bytes b' :
  bput b 0 bytes = Some b' → bget b' (Z.of_nat (length bytes)) = Some bytes.
Proof.
  intros H. pose proof (bput_inv _ _ _ _ H) as (_ & Hl & Hs & ->). unfold bget.
  rewrite (proj2 (Z.leb_le _ _)), (proj2 (Z.leb_le _ _)) by lia. simpl.
  rewrite Nat2Z.id, <-(length_fmap Some bytes), take_app_length. apply mapM_Some.
Qed.

Lemma bget_all (l : list Z) : bget (Some <$> l) (Z.of_nat (length l)) = Some l.
Proof.
  unfold bget, size. rewrite length_fmap, (proj2 (Z.leb_le _ _)), Z.leb_refl by lia. simpl.
  rewrite Nat2Z.id, take_ge by (by rewrite length_fmap). apply mapM_Some.
Qed.

Lemma bget_length b n bytes : bget b n = Some bytes → Z.of_nat (length bytes) = n.
Proof.
  unfold bget. destruct (Z.leb_spec 0 n), (Z.leb_spec n (size b)); simpl; try done.
  intros H1%length_mapM. rewrite length_take in H1. unfold size in *. lia.
Qed.

(** A string stored with its NUL is the string the buffer holds. *)
Lemma cstr_stored bytes b : 0 ∉ bytes → cstr ((Some <$> bytes) ++ Some 0 :: b) = Some bytes.
Proof.
  induction bytes as [|c bytes IH]; [done|]. intros Hn.
  rewrite fmap_cons. cbn [app cstr].
  destruct (Z.eqb_spec c 0) as [->|]; [set_solver|]. rewrite IH by set_solver. done.
Qed.

(** * Bytes moved *)

(** The bytes passed to [write] on a descriptor, and those [read] from it. *)
Definition out_bytes (fd : Z) (e : call * reply) : list Z :=
  match e.1 with Write fd' bytes => if fd' =? fd then bytes else [] | _ => [] end.
Definition in_bytes (fd : Z) (e : call * reply) : list Z :=
  match e.1 with Read fd' _ => if fd' =? fd then data e.2 else [] | _ => [] end.
Definition written (fd : Z) (tr : trace) : list Z := tr ≫= out_bytes fd.
Definition was_read (fd : Z) (tr : trace) : list Z := tr ≫= in_bytes fd.

Lemma written_snoc fd tr e : written fd (tr ++ [e]) = written fd tr ++ out_bytes fd e.
Proof. unfold written. rewrite bind_app. simpl. by rewrite app_nil_r. Qed.
Lemma was_read_snoc fd tr e : was_read fd (tr ++ [e]) = was_read fd tr ++ in_bytes fd e.
Proof. unfold was_read. rewrite bind_app. simpl. by rewrite app_nil_r. Qed.

(** Everything read from a descriptor was passed to [write] on it. *)
Definition echoed (tr : trace) : Prop := ∀ fd, written fd tr = was_read fd tr.

(** The bytes the system took from those writes: a [write] may take fewer
    bytes than it is given, or none. *)
Definition sent_bytes (fd : Z) (e : call * reply) : list Z :=
  take (Z.to_nat (ret_ e.2)) (out_bytes fd e).
Definition sent (fd : Z) (tr : trace) : list Z := tr ≫= sent_bytes fd.
(** Every [write] on a descriptor took all it was given. *)
Definition full_writes (fd : Z) (tr : trace) : Prop :=
  Forall (λ e, length (out_bytes fd e) ≤ Z.to_nat (ret_ e.2))%nat tr.

Lemma sent_short fd tr : (length (sent fd tr) ≤ length (written fd tr))%nat.
Proof.
  induction tr as [|e tr IH]; [done|]. change (length (sent_bytes fd e ++ sent fd tr) ≤
    length (out_bytes fd e ++ written fd tr))%nat.
  rewrite !length_app. unfold sent_bytes. rewrite length_take. lia.
Qed.
(** What was passed to [write] went out exactly when no [write] was short. *)
Lemma sent_written fd tr : sent fd tr = written fd tr ↔ full_writes fd tr.
Proof.
  induction tr as [|e tr IH]; [by split; [constructor|]|].
  pose proof (sent_short fd tr) as Hl.
  change (sent_bytes fd e ++ sent fd tr = out_bytes fd e ++ written fd tr ↔
    full_writes fd (e :: tr)).
  unfold full_writes in *. rewrite Forall_cons, <-IH. unfold sent_bytes. split.
  - intros E. pose proof (f_equal length E) as El. rewrite !length_app, length_take in El.
    assert (length (out_bytes fd e) ≤ Z.to_nat (ret_ e.2))%nat as He by lia.
    rewrite take_ge in E by done. by apply app_inv_head in E.
  - intros [He ->]. by rewrite take_ge.
Qed.

(** A call that neither reads nor writes. *)
Definition silent (c : call) : bool :=
  match c with Read _ _ | Write _ _ => false | _ => true end.
Lemma silent_out c r fd : silent c = true → out_bytes fd (c, r) = [].
Proof. by destruct c. Qed.
Lemma silent_in c r fd : silent c = true → in_bytes fd (c, r) = [].
Proof. by destruct c. Qed.

Lemma echoed_silent tr c r : silent c = true → echoed tr → echoed (tr ++ [(c, r)]).
Proof.
  intros Hc H fd. by rewrite written_snoc, was_read_snoc, silent_out, silent_in, !app_nil_r.
Qed.
(** A read and the write of what it delivered. *)
Lemma echoed_pair tr fd n r r' :
  echoed tr → echoed ((tr ++ [(Read fd n, r)]) ++ [(Write fd (data r), r')]).
Proof.
  intros H fd'. rewrite !written_snoc, !was_read_snoc. simpl. rewrite H.
  unfold in_bytes, out_bytes. simpl. by rewrite !app_nil_r.
Qed.
Lemma echoed_eof tr fd n r :
  data r = [] → echoed tr → echoed (tr ++ [(Read fd n, r)]).
Proof.
  intros Hr H fd'. rewrite written_snoc, was_read_snoc. simpl. unfold in_bytes, out_bytes. simpl.
  rewrite Hr, (H fd'). destruct (fd =? fd'); by rewrite !app_nil_r.
Qed.

(** * Open descriptors *)

(** The connections accepted and not closed yet. *)
Definition fd_step (s : gset Z) (e : call * reply) : gset Z :=
  match e.1 with
  | Accept _ => if ret_ e.2 =? -1 then s else {[ret_ e.2]} ∪ s
  | Close fd => s ∖ {[fd]}
  | _ => s
  end.
Definition open_fds (tr : trace) : gset Z := foldl fd_step ∅ tr.
Lemma open_fds_snoc tr e : open_fds (tr ++ [e]) = fd_step (open_fds tr) e.
Proof. unfold open_fds. by rewrite foldl_app. Qed.

(** How many they are. *)
Definition n_open (tr : trace) : nat := base.size (open_fds tr).
Lemma n_open_accept tr s r : (n_open (tr ++ [(Accept s, r)]) ≤ n_open tr + 1)%nat.
Proof.
  unfold n_open. rewrite open_fds_snoc. unfold fd_step. simpl. case_match; [lia|].
  rewrite size_union_alt, size_singleton.
  enough (base.size (open_fds tr ∖ {[ret_ r]}) ≤ base.size (open_fds tr))%nat by lia.
  apply subseteq_size. set_solver.
Qed.
Lemma n_open_other tr c r :
  match c with Accept _ => False | _ => True end → (n_open (tr ++ [(c, r)]) ≤ n_open tr)%nat.
Proof.
  intros Hc. unfold n_open. rewrite open_fds_snoc. apply subseteq_size.
  destruct c; unfold fd_step; simpl; set_solver.
Qed.

(** * Rules *)

Section rules.
Context `{OSLaws} (X : Z → trace → Prop) (F : trace → Prop).
Implicit Types tr : trace.

Lemma wpx_sys c tr (Q : reply → trace → Prop) :
  (∀ r, r = os_reply tr c → answers c r → Q r (tr ++ [(c, r)])) → wpx (sys c) tr X F Q.
Proof. intros HQ. apply HQ; [done|apply os_answers]. Qed.
Lemma wpx_val c tr (Q : Z → trace → Prop) :
  (∀ r, r = os_reply tr c → answers c r → Q (ret_ r) (tr ++ [(c, r)])) → wpx (val c) tr X F Q.
Proof. intros HQ. apply wpx_bind, wpx_sys. intros r Hr Ha. by apply wpx_ret, HQ. Qed.
Lemma wpx_run c tr (Q : unit → trace → Prop) :
  (∀ r, r = os_reply tr c → answers c r → Q tt (tr ++ [(c, r)])) → wpx (run c) tr X F Q.
Proof. intros HQ. apply wpx_bind, wpx_sys. intros r Hr Ha. by apply wpx_ret, HQ. Qed.

Lemma wpx_when b (m : Net unit) tr (Q : unit → trace → Prop) :
  (b = true → wpx m tr X F Q) → (b = false → Q tt tr) → wpx (whenM b m) tr X F Q.
Proof. intros H1 H2. destruct b; [by apply H1|by apply H2]. Qed.

Lemma wpx_int z tr (Q : Z → trace → Prop) :
  is_int z = true → Q z tr → wpx (int z) tr X F Q.
Proof. intros Hz HQ. unfold int. by rewrite Hz. Qed.

Lemma wpx_error {A} msg tr (Q : A → trace → Prop) :
  (∀ r1 r2, X 1 ((tr ++ [(Fputs stderr msg [], r1)]) ++ [(Fputs stderr "\n" [], r2)])) →
  wpx (error_handling msg) tr X F Q.
Proof.
  intros HX. apply wpx_bind, wpx_run. intros r1 _ _. apply wpx_bind, wpx_run. intros r2 _ _.
  apply wpx_exit, HX.
Qed.

(** [read] into a buffer with room for it. *)
Lemma wpx_read fd b n tr (Q : Z * buf → trace → Prop) :
  n ≤ size b →
  (∀ r b', r = os_reply tr (Read fd n) → delivers n r → bput b 0 (data r) = Some b' →
    size b' = size b → Q (ret_ r, b') (tr ++ [(Read fd n, r)])) →
  wpx (read fd b n) tr X F Q.
Proof.
  intros Hn HQ. apply wpx_bind, wpx_sys. intros r Hr Ha. simpl in Ha.
  destruct (bput_ok b 0 (data r)) as [b' Hb]; [lia| |].
  { destruct Ha as [[_ ->]|(? & ? & _)]; simpl; [unfold size|]; lia. }
  apply wpx_bind. eapply wpx_need; [done|]. apply wpx_ret, HQ; [done|done|done|].
  by eapply bput_size.
Qed.

Lemma wpx_write fd b n bytes tr (Q : Z → trace → Prop) :
  bget b n = Some bytes →
  (∀ r, r = os_reply tr (Write fd bytes) → takes (Z.of_nat (length bytes)) r →
    Q (ret_ r) (tr ++ [(Write fd bytes, r)])) →
  wpx (write fd b n) tr X F Q.
Proof.
  intros Hb HQ. apply wpx_bind. eapply wpx_need; [done|]. apply wpx_val.
  intros r Hr Ha. by apply HQ.
Qed.
End rules.

(** One step of symbolic execution of a program that may exit. *)
Ltac n_step :=
  lazymatch goal with
  | |- wpx (bind _ _) _ _ _ _ => apply wpx_bind
  | |- wpx (ret _) _ _ _ _ => apply wpx_ret
  | |- wpx (exit _) _ _ _ _ => apply wpx_exit
  | |- wpx (error_handling _) _ _ _ _ => apply wpx_error; intros ? ?
  | |- wpx (sys _) _ _ _ _ => apply wpx_sys; intros ? ? ?
  | |- wpx (val _) _ _ _ _ => apply wpx_val; intros ? ? ?
  | |- wpx (run _) _ _ _ _ => apply wpx_run; intros ? ? ?
  | |- wpx (need (Some _)) _ _ _ _ => eapply wpx_need; [reflexivity|]
  | |- wpx (whenM _ _) _ _ _ _ => apply wpx_when; intros ?
  | |- wpx ?m _ _ _ _ =>
      progress unfold socket, accept, close, sleep, printf, puts, fputs
  end; cbv beta.
Ltac n_steps := repeat n_step.
(** The traces only grew by calls that move no bytes. *)
Ltac n_silent := repeat (apply echoed_silent; [reflexivity|]); try assumption.

(** * Rules for total correctness *)

Section total.
Context `{OS}.
Implicit Types tr : trace.

Lemma wp_sys c tr (Q : reply → trace → Prop) :
  Q (os_reply tr c) (tr ++ [(c, os_reply tr c)]) → wp (sys c) tr Q.
Proof. done. Qed.
Lemma wp_val c tr (Q : Z → trace → Prop) :
  Q (ret_ (os_reply tr c)) (tr ++ [(c, os_reply tr c)]) → wp (val c) tr Q.
Proof. done. Qed.
Lemma wp_run c tr (Q : unit → trace → Prop) :
  Q tt (tr ++ [(c, os_reply tr c)]) → wp (run c) tr Q.
Proof. done. Qed.
Lemma wp_read_at fd b off n b' tr (Q : Z * buf → trace → Prop) :
  let r := os_reply tr (Read fd n) in
  bput b off (data r) = Some b' →
  Q (ret_ r, b') (tr ++ [(Read fd n, r)]) → wp (read_at fd b off n) tr Q.
Proof.
  intros r Hb HQ. apply wp_bind, wp_sys, wp_bind. eapply wp_need; [exact Hb|].
  by apply wp_ret.
Qed.
Lemma wp_write fd b n bytes tr (Q : Z → trace → Prop) :
  bget b n = Some bytes →
  (∀ r, Q (ret_ r) (tr ++ [(Write fd bytes, r)])) → wp (write fd b n) tr Q.
Proof. intros Hb HQ. apply wp_bind. eapply wp_need; [done|]. by apply wp_val. Qed.
End total.
