(* ===== verification/NetEcho.v ===== *)
(** The stream servers and clients: what they echo, on every run. *)
From stdpp Require Import gmap.
From S2P Require Import Prelude NetModel NetTcp NetRules.

(** [read] does not fail. *)
Definition reads_succeed `{OS} : Prop :=
  ∀ tr fd n, 0 ≤ n → ret_ (os_reply tr (Read fd n)) ≠ -1.

(** A command line: the name of the program, and an argument that is the
    number of a port when there is one. *)
Definition server_args (argv : list (list Z)) : Prop :=
  argv ≠ [] ∧ ∀ a, argv !! 1%nat = Some a → ∃ port, atoi (S:=trace) a = ret port.

Section echo.
Context `{OSLaws} (Hreads : reads_succeed) (X : Z → trace → Prop).
Implicit Types tr : trace.

Lemma delivers_ok fd n tr r :
  0 ≤ n → r = os_reply tr (Read fd n) → delivers n r →
  0 ≤ ret_ r ≤ n ∧ Z.of_nat (length (data r)) = ret_ r.
Proof. intros Hn -> [[E _]|(? & ? & _)]; [by destruct (Hreads tr fd n)|done]. Qed.

Lemma delivers_eof r n : delivers n r → ret_ r = 0 → data r = [].
Proof. intros [[E _]|(? & Hl & _)] E0; [lia|]. destruct (data r); [done|simpl in Hl; lia]. Qed.

(** The echo loop keeps [echoed], with anything the reads and writes keep, and
    ends with the connection's end. *)
Lemma wpx_echo_loop (P F : trace → Prop) fuel fd b n tr :
  (∀ tr c r, silent c = false → P tr → P (tr ++ [(c, r)])) →
  (∀ tr, echoed tr → P tr → F tr) →
  0 ≤ n ≤ size b → echoed tr → P tr →
  wpx (echo_loop fuel fd b n) tr X F (λ b' tr', size b' = size b ∧ echoed tr' ∧ P tr').
Proof.
  intros HP HF Hn He HPtr.
  apply (wpx_loop X F (λ b' tr', size b' = size b ∧ echoed tr' ∧ P tr')); [|done].
  intros b1 tr1 (Hs & He1 & HP1). split; [by apply HF|]. n_step. apply wpx_read; [lia|].
  intros r b2 Hr Ha Hb Hs2. destruct (Z.eqb_spec (ret_ r) 0) as [E0|E0]; cbn beta iota.
  - apply wpx_ret. split_and!; [lia| |by apply HP].
    apply echoed_eof; [by eapply delivers_eof|done].
  - n_step. destruct (delivers_ok _ _ _ _ (proj1 Hn) Hr Ha) as [_ Hl].
    apply (wpx_write _ _ _ _ _ (data r)); [rewrite <-Hl; by eapply bget_bput|].
    intros w _ _. apply wpx_ret. split_and!; [lia|by apply echoed_pair|].
    apply HP; [done|]. by apply HP.
Qed.

(** Where the servers start: a usage error, a failing call, or a listening
    socket; nothing was read or written. *)
Lemma wpx_tcp_server_open F argv tr :
  server_args argv → echoed tr → (∀ tr', echoed tr' → X 1 tr') →
  wpx (tcp_server_open argv) tr X F (λ _ tr', echoed tr').
Proof.
  intros [Hargv Hport] He HX. destruct argv as [|a0 argv]; [done|].
  unfold tcp_server_open, usage, arg. n_step. n_step.
  { n_step. apply (wpx_need _ _ _ a0); [done|]. n_steps. apply HX. n_silent. }
  n_steps; try (apply HX; n_silent).
  destruct argv as [|a1 argv]; [done|]. apply (wpx_need _ _ _ a1); [done|]. n_step.
  destruct (Hport a1) as [port ->]; [done|]. n_steps; try (apply HX; n_silent). n_silent.
Qed.
End echo.

(** The echo server of chapters 4 and 5, on any operating system on which
    [read] does not fail: on every run, for any number of clients and any way
    the system cuts their bytes into pieces, it executes nothing undefined, it
    never returns from [main], it leaves only through [exit(1)], and whenever
    it is back at one of its loops every byte it read from a connection has
    been passed to [write] on that connection, in order, and nothing else. *)
Theorem echo_server_echoes `{OSLaws} fuel argv :
  reads_succeed → server_args argv → Z.of_nat fuel < INT_MAX →
  wpx (echo_server_main fuel argv) [] (λ code tr, code = 1 ∧ echoed tr) echoed
    (λ _ _, False).
Proof.
  intros Hreads Hargs Hf. unfold echo_server_main. cbv zeta. n_step.
  eapply wpx_mono; [by apply wpx_tcp_server_open|].
  intros server_socket tr He. apply wpx_bind.
  apply (wpx_loop_count _ _ (λ k '(i, message) tr, i = Z.of_nat k ∧ size message = 1024 ∧ echoed tr));
    [|by intros [??] ? (_ & _ & ?)|done].
  intros k [i message] tr1 Hk (-> & Hs & He1).
  assert (is_int (Z.of_nat k + 1) = true) as Hint.
  { unfold is_int, INT_MIN, INT_MAX in *. apply andb_true_intro. split; apply Z.leb_le; lia. }
  n_steps. case_match; [by n_step; split; [done|]; n_silent|].
  n_step. apply wpx_int; [done|]. n_steps.
  eapply wpx_mono; [apply (wpx_echo_loop Hreads _ (λ _, True)); [done|done|lia|by n_silent|done]|].
  intros b' tr' (Hs' & He' & _). n_steps. apply wpx_int; [done|]. n_steps.
  split_and!; [lia|lia|by n_silent].
Qed.

(** The echo servers do not check what [read] returned: when it fails, the
    count passed to [write] is -1, which reaches past the buffer, and the
    behaviour is undefined. The loop is the one of chapters 4, 5 and 10. *)
Theorem echo_loop_read_error_undefined `{OS} fuel fd b n tr :
  ret_ (os_reply tr (Read fd n)) = -1 → data (os_reply tr (Read fd n)) = [] →
  echo_loop (S fuel) fd b n tr = Undef.
Proof.
  intros Hr Hd. unfold echo_loop. cbn [loop]. unfold bind, read, read_at, sys, bind. rewrite Hd.
  destruct (bput_ok b 0 []) as [b' Hb]; [done|unfold size; simpl; lia|].
  unfold need. rewrite Hb. unfold ret. by rewrite Hr.
Qed.

(** The first byte of each piece that was read. *)
Definition first_bytes (fd : Z) (tr : trace) : list Z := tr ≫= λ e, take 1 (in_bytes fd e).

(** chap9/reuseaddr_server.c: [str_len = read(...) != 0] stores the value of
    the comparison. On every run on which [read] does not fail the server sends
    back only the first byte of each piece it read. *)
Theorem reuseaddr_echoes_first_bytes `{OSLaws} (X : Z → trace → Prop) fuel fd b :
  reads_succeed → fd ≠ 1 → size b = 30 →
  wpx (reuseaddr_loop fuel fd b) [] X (λ tr, written fd tr = first_bytes fd tr)
    (λ _ tr, written fd tr = first_bytes fd tr).
Proof.
  intros Hreads Hfd Hb.
  apply (wpx_loop X _ (λ b tr, size b = 30 ∧ written fd tr = first_bytes fd tr)); [|done].
  intros b1 tr [Hs He]. split; [done|]. n_step. apply wpx_read; [lia|].
  intros r b2 Hr Ha Hb2 Hs2.
  assert (∀ e, first_bytes fd (tr ++ [e]) = first_bytes fd tr ++ take 1 (in_bytes fd e)) as Hfb.
  { intros e. unfold first_bytes. rewrite bind_app. simpl. by rewrite app_nil_r. }
  destruct (Z.eqb_spec (ret_ r) 0) as [E0|E0]; cbn beta iota zeta delta [negb Z.eqb].
  - apply wpx_ret. rewrite written_snoc, Hfb. unfold in_bytes, out_bytes. simpl.
    rewrite Z.eqb_refl, (delivers_eof _ _ Ha E0), He. done.
  - destruct (delivers_ok Hreads _ 30 _ _ ltac:(done) Hr Ha) as [Hn Hl].
    destruct (data r) as [|c d] eqn:Hd; [simpl in Hl; lia|].
    assert (bget b2 1 = Some [c]) as Hg.
    { apply bput_inv in Hb2 as (_ & _ & _ & Hb2). unfold bget.
      rewrite (proj2 (Z.leb_le 1 (size b2))) by lia. rewrite Hb2. done. }
    n_steps. apply (wpx_write _ _ _ _ _ [c]); [done|]. intros w1 _ _.
    n_steps. apply (wpx_write _ _ _ _ _ [c]); [done|]. intros w2 _ _. n_step.
    split; [lia|]. rewrite !written_snoc. unfold first_bytes at 1.
    rewrite !bind_app. fold (first_bytes fd tr). unfold in_bytes, out_bytes.
    cbn [fst snd mbind list_bind app take].
    rewrite (proj2 (Z.eqb_neq 1 fd)), Z.eqb_refl, Hd, He by done.
    by rewrite ?app_nil_r.
Qed.

(** chap2/tcp_client.c: [read_len = read(...) > 0] stores the value of the
    comparison, so the check for -1 in the loop's body never succeeds: on no
    operating system does the loop report an error. *)
Theorem tcp_client_never_reports `{OS} fuel client_socket message tr code tr' :
  tcp_client_loop fuel client_socket message tr ≠ Exited code tr'.
Proof.
  unfold tcp_client_loop. generalize (0, 0, message) as l. revert tr.
  induction fuel as [|fuel IH]; intros tr [[idx n] m]; [done|]. cbn [loop].
  unfold bind, read_at, sys, bind, need.
  destruct (bput _ _ _); [|done]. unfold ret.
  destruct (_ >? _); simpl; [|done]. unfold int. destruct (is_int _); [|done]. apply IH.
Qed.

(** The peer's stream on a descriptor is [content]: each read delivers some of
    the bytes not read yet, and reports the end when there are none. *)
Definition delivers_stream `{OS} (fd : Z) (content : list Z) : Prop :=
  ∀ tr n, 0 < n →
    let rest := drop (length (was_read fd tr)) content in
    let r := os_reply tr (Read fd n) in
    0 ≤ ret_ r ≤ n ∧ data r = take (Z.to_nat (ret_ r)) rest ∧
    Z.of_nat (length (data r)) = ret_ r ∧ (ret_ r = 0 → rest = []).

(** chap2/tcp_client.c: whatever the peer sends, up to the size of the
    buffer, the loop ends, with all of it stored in order at the start of the
    buffer and [str_len] its length. *)
Theorem tcp_client_reads_stream `{OS} fuel fd content tr :
  delivers_stream fd content → was_read fd tr = [] → (length content ≤ 30)%nat →
  (length content < fuel)%nat →
  wp (tcp_client_loop fuel fd (uninit 30)) tr (λ '(str_len, message) tr',
    str_len = Z.of_nat (length content) ∧ was_read fd tr' = content ∧
    take (length content) message = Some <$> content).
Proof.
  intros Hst Htr Hlen Hf.
  apply (wp_loop (λ k '(idx, str_len, message) tr, idx = str_len ∧ size message = 30 ∧
    ∃ rest, content = was_read fd tr ++ rest ∧ k = length rest ∧
      str_len = Z.of_nat (length (was_read fd tr)) ∧
      take (length (was_read fd tr)) message = Some <$> was_read fd tr))
    with (n := length content); [|split_and!; [done..|]|done].
  2:{ exists content. by rewrite Htr. }
  intros k [[idx str_len] message] s (-> & Hs & rest & Hc & -> & -> & Hm).
  destruct (Hst s 1) as (Hr & Hd & Hl & He); [done|].
  assert (drop (length (was_read fd s)) content = rest) as Hrest.
  { by rewrite Hc, drop_app_length. }
  rewrite Hrest in *. set (r := os_reply s (Read fd 1)) in *.
  assert (length content = length (was_read fd s) + length rest)%nat as Hcl
    by (by rewrite Hc, length_app).
  assert (∀ w, was_read fd (s ++ [(Read fd 1, w)]) = was_read fd s ++ data w) as Hsnoc.
  { intros w. rewrite was_read_snoc. unfold in_bytes. simpl. by rewrite Z.eqb_refl. }
  apply wp_bind. unfold read_at. apply wp_bind. unfold sys, wp. fold r.
  destruct (bput_ok message (Z.of_nat (length (was_read fd s))) (data r)) as [m' Hm']; [lia| |].
  { rewrite Hl. destruct rest as [|x rest]; [|simpl in Hcl; lia].
    rewrite take_nil in Hd. rewrite Hd in Hl. simpl in Hl. lia. }
  unfold bind, need. rewrite Hm'. unfold ret.
  pose proof (bput_inv _ _ _ _ Hm') as (_ & _ & Hs' & Hme).
  destruct (Z.gtb_spec (ret_ r) 0) as [Hpos|Hneg]; simpl.
  - assert (ret_ r = 1) as E1 by lia. rewrite E1 in *.
    destruct rest as [|x rest]; [rewrite Hd in Hl; simpl in Hl; lia|]. simpl in Hd.
    unfold int. replace (is_int _) with true; [simpl|].
    2:{ symmetry. apply andb_true_intro. unfold INT_MIN, INT_MAX. split; apply Z.leb_le; lia. }
    exists (length rest). split; [lia|]. split_and!; [lia|lia|].
    exists rest. rewrite Hsnoc, Hd, length_app, <-app_assoc. split_and!; [done|done|simpl; lia|].
    rewrite Hme, Hd, Nat2Z.id. simpl. rewrite take_app.
    assert (length (take (length (was_read fd s)) message) = length (was_read fd s)) as Hlt.
    { rewrite Hm. by rewrite length_fmap. }
    rewrite (take_ge (take _ _)) by (rewrite Hlt; lia). rewrite Hlt, fmap_app, Hm.
    f_equal. replace (_ + 1 - _)%nat with 1%nat by lia. done.
  - assert (ret_ r = 0) as E0 by lia. specialize (He E0). subst rest.
    rewrite take_nil in Hd. rewrite app_nil_r in Hc.
    rewrite Hsnoc, Hd, app_nil_r, <-Hc. split_and!; [by rewrite Hc|done|].
    rewrite Hme, Hd, Nat2Z.id. simpl. rewrite Nat.add_0_r, take_drop. by rewrite Hc.
Qed.
