(* ===== verification/NetTransfer.v ===== *)
(** The file transfer of chap7, the store of chap11 and the datagram servers of
    chap6: what arrives is what was sent. *)
From stdpp Require Import gmap.
From S2P Require Import Prelude NetModel NetTcp NetUdp NetFile NetProc NetRules NetEcho.

(** The bytes taken from and added to a file. *)
Definition fread_bytes (fp : Z) (e : call * reply) : list Z :=
  match e.1 with Fread fp' _ => if fp' =? fp then data e.2 else [] | _ => [] end.
Definition fwrite_bytes (fp : Z) (e : call * reply) : list Z :=
  match e.1 with Fwrite fp' bytes => if fp' =? fp then bytes else [] | _ => [] end.
Definition taken (fp : Z) (tr : trace) : list Z := tr ≫= fread_bytes fp.
Definition stored (fp : Z) (tr : trace) : list Z := tr ≫= fwrite_bytes fp.

Lemma taken_snoc fp tr e : taken fp (tr ++ [e]) = taken fp tr ++ fread_bytes fp e.
Proof. unfold taken. rewrite bind_app. simpl. by rewrite app_nil_r. Qed.
Lemma stored_snoc fp tr e : stored fp (tr ++ [e]) = stored fp tr ++ fwrite_bytes fp e.
Proof. unfold stored. rewrite bind_app. simpl. by rewrite app_nil_r. Qed.

(** The file [fp] was opened on holds [content]: each [fread] takes as many of
    the bytes not taken yet as it was asked for, or all that are left. *)
Definition file_holds `{OS} (fp : Z) (content : list Z) : Prop :=
  ∀ tr n, 0 ≤ n →
    let r := os_reply tr (Fread fp n) in
    data r = take (Z.to_nat n) (drop (length (taken fp tr)) content) ∧
    ret_ r = Z.of_nat (length (data r)).

Section transfer.
Context `{OS}.
Implicit Types tr : trace.

(** The server's loop sends the whole file. *)
Lemma wp_send_file fuel fd fp content b tr :
  file_holds fp content → size b = 30 → taken fp tr = [] →
  (length content < 30 * fuel)%nat →
  wp (send_file_loop fuel fd fp b) tr (λ b' tr',
    size b' = 30 ∧ taken fp tr' = content ∧ written fd tr' = written fd tr ++ content).
Proof.
  intros Hfile Hb Htr Hf.
  apply (wp_loop (λ k b tr', size b = 30 ∧ ∃ rest, content = taken fp tr' ++ rest ∧
    (k = length rest / 30)%nat ∧ written fd tr' = written fd tr ++ taken fp tr'))
    with (n := (length content / 30)%nat).
  2:{ split; [done|]. exists content. by rewrite Htr, app_nil_r. }
  2:{ apply Nat.Div0.div_lt_upper_bound; lia. }
  intros k b1 s (Hb1 & rest & Hc & -> & Hw).
  destruct (Hfile s 30) as [Hd Hr]; [done|]. cbv zeta in *.
  assert (drop (length (taken fp s)) content = rest) as Hrest by (by rewrite Hc, drop_app_length).
  rewrite Hrest in Hd. set (r := os_reply s (Fread fp 30)) in *.
  assert (length (data r) = Nat.min 30 (length rest)) as Hlen by (rewrite Hd; apply length_take).
  destruct (bput_ok b1 0 (data r)) as [b2 Hb2]; [lia|lia|].
  pose proof (bput_size _ _ _ _ Hb2) as Hs2. pose proof (bget_bput _ _ _ Hb2) as Hg.
  rewrite <-Hr in Hg.
  assert (∀ w, taken fp ((s ++ [(Fread fp 30, r)]) ++ [(Write fd (data r), w)]) =
    taken fp s ++ data r) as Htk.
  { intros w. rewrite !taken_snoc. unfold fread_bytes. simpl. by rewrite Z.eqb_refl, app_nil_r. }
  assert (∀ w, written fd ((s ++ [(Fread fp 30, r)]) ++ [(Write fd (data r), w)]) =
    written fd s ++ data r) as Hwr.
  { intros w. rewrite !written_snoc. unfold out_bytes. simpl. by rewrite Z.eqb_refl, app_nil_r. }
  apply wp_bind, wp_sys. fold r. apply wp_bind. eapply wp_need; [exact Hb2|]. cbv zeta.
  destruct (Z.ltb_spec (ret_ r) 30) as [Hlt|Hge]; apply wp_bind.
  - apply (wp_write _ _ _ (data r)); [done|]. intros w. apply wp_ret.
    rewrite Htk, Hwr, Hw. rewrite take_ge in Hd by lia. rewrite Hd, <-app_assoc, <-Hc.
    split_and!; [lia|done|done].
  - assert (ret_ r = 30) as E30 by lia. rewrite E30 in Hg.
    apply (wp_write _ _ _ (data r)); [done|]. intros w. apply wp_ret.
    exists (length (drop 30 rest) / 30)%nat. rewrite length_drop. split.
    { replace (length rest) with (length rest - 30 + 1 * 30)%nat at 2 by lia.
      rewrite Nat.div_add by lia. lia. }
    split; [lia|]. exists (drop 30 rest). rewrite Htk, Hwr, Hw, length_drop, app_assoc.
    split_and!; [|done|done]. rewrite <-app_assoc, Hd, take_drop. done.
Qed.

(** The client's loop stores the whole stream. *)
Lemma wp_receive_file fuel fd fp content b tr :
  delivers_stream fd content → size b = 30 → was_read fd tr = [] →
  (length content < fuel)%nat →
  wp (receive_file_loop fuel fd fp b) tr (λ b' tr',
    size b' = 30 ∧ was_read fd tr' = content ∧ stored fp tr' = stored fp tr ++ content).
Proof.
  intros Hst Hb Htr Hf.
  apply (wp_loop (λ k b tr', size b = 30 ∧ ∃ rest, content = was_read fd tr' ++ rest ∧
    k = length rest ∧ stored fp tr' = stored fp tr ++ was_read fd tr'))
    with (n := length content); [|split; [done|]|done].
  2:{ exists content. by rewrite Htr, app_nil_r. }
  intros k b1 s (Hb1 & rest & Hc & -> & Hw).
  destruct (Hst s 30) as (Hr & Hd & Hl & He); [done|]. cbv zeta in *.
  assert (drop (length (was_read fd s)) content = rest) as Hrest by (by rewrite Hc, drop_app_length).
  rewrite Hrest in Hd, He. set (r := os_reply s (Read fd 30)) in *.
  destruct (bput_ok b1 0 (data r)) as [b2 Hb2]; [lia|lia|].
  pose proof (bput_size _ _ _ _ Hb2) as Hs2. pose proof (bget_bput _ _ _ Hb2) as Hg.
  assert (was_read fd (s ++ [(Read fd 30, r)]) = was_read fd s ++ data r) as Hrd.
  { rewrite was_read_snoc. unfold in_bytes. simpl. by rewrite Z.eqb_refl. }
  assert (stored fp (s ++ [(Read fd 30, r)]) = stored fp s) as Hsd.
  { rewrite stored_snoc. apply app_nil_r. }
  apply wp_bind. eapply wp_read_at; [exact Hb2|]. fold r.
  destruct (Z.eqb_spec (ret_ r) 0) as [E0|E0]; cbn beta iota.
  - apply wp_ret. rewrite (He E0), app_nil_r in Hc. rewrite (He E0), take_nil in Hd.
    rewrite Hrd, Hsd, Hw, Hd, app_nil_r, <-Hc. split_and!; [lia|done|done].
  - apply wp_bind. rewrite <-Hl. eapply wp_need; [exact Hg|]. apply wp_bind, wp_run, wp_ret.
    assert (length (data r) ≤ length rest)%nat by (rewrite Hd, length_take; lia).
    exists (length rest - length (data r))%nat. split; [lia|]. split; [lia|].
    exists (drop (length (data r)) rest).
    rewrite was_read_snoc, stored_snoc, Hrd, Hsd, Hw. unfold in_bytes, fwrite_bytes. simpl.
    rewrite Z.eqb_refl, app_nil_r, length_drop, <-!app_assoc. split_and!; [|done|done].
    rewrite Hc. f_equal. rewrite Hd at 1. replace (Z.to_nat (ret_ r)) with (length (data r)) by lia.
    by rewrite take_drop.
Qed.
End transfer.

(** C40: chap7: the file arrives. The loop of file_server.c passes to [write]
    exactly the bytes of its file, however long it is, and ends (in fewer turns
    than there are blocks of 30 bytes and one more); the loop of file_client.c,
    on a connection that delivers the bytes that were sent in pieces of any
    size, stores exactly these bytes and ends when they are all read. The two
    run on systems of their own. *)
Theorem file_transfer_roundtrip (server client : OS) fuel_s fuel_c fd_s fp_s fd_c fp_c
    content b_s b_c tr_s tr_c :
  file_holds (H := server) fp_s content → taken fp_s tr_s = [] → size b_s = 30 →
  (length content < 30 * fuel_s)%nat →
  was_read fd_c tr_c = [] → size b_c = 30 → (length content < fuel_c)%nat →
  ∃ sent,
    wp (send_file_loop (H := server) fuel_s fd_s fp_s b_s) tr_s
      (λ _ tr', written fd_s tr' = written fd_s tr_s ++ sent) ∧
    (delivers_stream (H := client) fd_c sent →
     wp (receive_file_loop (H := client) fuel_c fd_c fp_c b_c) tr_c
       (λ _ tr', stored fp_c tr' = stored fp_c tr_c ++ content)).
Proof.
  intros Hfile Ht Hbs Hfs Hr Hbc Hfc. exists content. split.
  - eapply wp_mono; [by apply (wp_send_file fuel_s fd_s fp_s content)|]. by intros ?? (_ & _ & ?).
  - intros Hst. eapply wp_mono; [by apply (wp_receive_file fuel_c fd_c fp_c content)|].
    by intros ?? (_ & _ & ?).
Qed.

(** * Datagrams *)

(** The datagrams received, with their senders, and those sent, with their
    addressees. *)
Definition dgram_in (e : call * reply) : list (list Z * sockaddr_in) :=
  match e.1 with Recvfrom _ _ _ _ => [(data e.2, peer e.2)] | _ => [] end.
Definition dgram_out (e : call * reply) : list (list Z * sockaddr_in) :=
  match e.1 with Sendto _ bytes _ a _ => [(bytes, a)] | _ => [] end.
Definition replied (tr : trace) : Prop := tr ≫= dgram_out = tr ≫= dgram_in.
(** [recvfrom] does not fail. *)
Definition recvfrom_succeeds `{OS} : Prop :=
  ∀ tr fd n flags len, 0 ≤ n → ret_ (os_reply tr (Recvfrom fd n flags len)) ≠ -1.

Section datagrams.
Context `{OSLaws} (X : Z → trace → Prop) (F : trace → Prop).
Implicit Types tr : trace.

Lemma replied_plain tr c r :
  dgram_in (c, r) = [] → dgram_out (c, r) = [] → replied tr → replied (tr ++ [(c, r)]).
Proof.
  unfold replied. intros E1 E2 Hr. rewrite !bind_app. simpl. by rewrite E1, E2, Hr.
Qed.

Lemma wpx_recvfrom fd b n flags len tr (Q : Z * buf * (sockaddr_in * addr_len) → trace → Prop) :
  n ≤ size b →
  (∀ r b', r = os_reply tr (Recvfrom fd n flags len) → delivers n r →
    bput b 0 (data r) = Some b' → size b' = size b →
    Q (ret_ r, b', (peer r, Len (peer_len r))) (tr ++ [(Recvfrom fd n flags len, r)])) →
  wpx (recvfrom fd b n flags len) tr X F Q.
Proof.
  intros Hn HQ. apply wpx_bind, wpx_sys. intros r Hr Ha. simpl in Ha.
  destruct (bput_ok b 0 (data r)) as [b' Hb]; [lia| |].
  { destruct Ha as [[_ ->]|(? & ? & _)]; simpl; [unfold size|]; lia. }
  apply wpx_bind. eapply wpx_need; [done|]. apply wpx_ret, HQ; [done|done|done|].
  by eapply bput_size.
Qed.
End datagrams.

(** chap6/uecho_server.c, on any operating system on which [recvfrom] does
    not fail: on every run nothing undefined is executed and, whenever the
    server is back at its loop, it has answered every datagram, in order, with
    the same bytes to the address it came from, and sent nothing else. *)
Theorem uecho_server_replies `{OSLaws} fuel argv :
  recvfrom_succeeds → server_args argv →
  wpx (uecho_server_main fuel argv) [] (λ code tr, code = 1 ∧ replied tr) replied
    (λ _ _, False).
Proof.
  intros Hrecv [Hargv Hport]. assert (replied []) as Hnil by done.
  destruct argv as [|a0 argv]; [done|].
  unfold uecho_server_main, udp_server_open, usage, arg. cbv zeta. n_steps.
  { apply (wpx_need _ _ _ a0); [done|]. n_steps. split; [done|]. by apply replied_plain. }
  { split; [done|]. by do 3 (apply replied_plain; [done..|]). }
  destruct argv as [|a1 argv]; [done|]. apply (wpx_need _ _ _ a1); [done|]. n_steps.
  destruct (Hport a1) as [port ->]; [done|]. n_steps.
  { split; [done|]. by do 4 (apply replied_plain; [done..|]). }
  apply (wpx_loop _ replied (λ '(message, _) tr, size message = 30 ∧ replied tr)).
  2:{ split; [done|]. by do 2 (apply replied_plain; [done..|]). }
  intros [message len] tr [Hs Hr]. split; [done|]. n_steps.
  apply wpx_recvfrom; [lia|]. intros r' b Hr' Ha Hb Hs'.
  assert (Z.of_nat (length (data r')) = ret_ r') as Hl.
  { destruct Ha as [[E _]|(_ & ? & _)]; [|done]. subst r'. by destruct (Hrecv _ _ 30 _ _ ltac:(done) E). }
  unfold sendto. n_steps. apply (wpx_need _ _ _ (data r')).
  { rewrite <-Hl. by eapply bget_bput. }
  n_steps. split; [lia|]. unfold replied in *. rewrite !bind_app, Hr. simpl.
  by rewrite !app_nil_r.
Qed.
