(* ===== verification/NetServers.v ===== *)
(** The receivers of chap14, the forking servers of chapters 10 and 11, and the
    clients that write past their buffers. *)
From stdpp Require Import gmap.
From S2P Require Import Prelude NetModel NetTcp NetUdp NetProc NetRules NetEcho NetTransfer.

(** * News receivers *)

(** The C string at the start of some bytes. *)
Fixpoint text_of (bytes : list Z) : list Z :=
  match bytes with
  | [] => []
  | c :: bytes => if c =? 0 then [] else c :: text_of bytes
  end.
Lemma cstr_text bytes b : cstr ((Some <$> bytes) ++ Some 0 :: b) = Some (text_of bytes).
Proof.
  induction bytes as [|c bytes IH]; [done|]. rewrite fmap_cons. cbn [app cstr text_of].
  destruct (Z.eqb_spec c 0) as [->|]; [done|]. by rewrite IH.
Qed.

(** A message of fewer bytes than the buffer, and the NUL put after it. *)
Lemma terminate b bytes b' :
  bput b 0 bytes = Some b' → Z.of_nat (length bytes) < size b →
  ∃ b'', bput b' (Z.of_nat (length bytes)) [0] = Some b'' ∧ size b'' = size b ∧
    cstr b'' = Some (text_of bytes).
Proof.
  intros Hb Hl. pose proof (bput_inv _ _ _ _ Hb) as (_ & _ & Hs & Hb').
  destruct (bput_ok b' (Z.of_nat (length bytes)) [0]) as [b'' Hb'']; [lia|simpl; lia|].
  exists b''. split; [done|]. pose proof (bput_inv _ _ _ _ Hb'') as (_ & _ & ? & ->).
  split; [lia|]. rewrite Nat2Z.id, Hb'. simpl. rewrite take_app_length' by (by rewrite length_fmap).
  apply cstr_text.
Qed.

(** The datagrams that arrived, as texts, and the texts printed. *)
Definition news_in (e : call * reply) : list (list Z) :=
  match e.1 with
  | Recvfrom _ _ _ _ => if ret_ e.2 <? 0 then [] else [text_of (data e.2)]
  | _ => []
  end.
Definition news_out (fmt : string) (e : call * reply) : list (list Z) :=
  match e.1 with
  | Printf f [PStr s] => if bool_decide (f = fmt) then [s] else []
  | _ => []
  end.
Definition shown (fmt : string) (tr : trace) : Prop := tr ≫= news_out fmt = tr ≫= news_in.

Lemma shown_plain fmt tr c r :
  news_in (c, r) = [] → news_out fmt (c, r) = [] → shown fmt tr → shown fmt (tr ++ [(c, r)]).
Proof.
  unfold shown. intros E1 E2 Hr. rewrite !bind_app. simpl. by rewrite E1, E2, Hr.
Qed.

(** chap14/news_receiver.c, on any operating system that answers as
    documented: on every run nothing undefined is executed (the buffer has room
    for the NUL, a failing [recvfrom] ends the loop before it is used), and at
    the loop's head every datagram received has been printed, as the text it
    starts with, in order; [main] returns 0 with all of them printed. *)
Theorem news_receiver_shows `{OSLaws} fuel argv :
  argv ≠ [] → (∀ a, argv !! 2%nat = Some a → ∃ port, atoi (S:=trace) a = ret port) →
  let ok := shown "Received message: %s\n" in
  wpx (news_receiver_main fuel argv) [] (λ code tr, code = 1 ∧ ok tr) ok
    (λ v tr, v = 0 ∧ ok tr).
Proof.
  intros Hargv Hport ok. assert (ok []) as Hnil by done.
  destruct argv as [|a0 argv]; [done|].
  unfold news_receiver_main, usage, arg. n_steps.
  { apply (wpx_need _ _ _ a0); [done|]. n_steps. split; [done|]. by apply shown_plain. }
  destruct argv as [|a1 [|a2 argv]]; [done..|].
  apply (wpx_need _ _ _ a2); [done|]. n_steps.
  destruct (Hport a2) as [port ->]; [done|]. n_steps.
  { split; [done|]. by do 4 (apply shown_plain; [done..|]). }
  apply (wpx_need _ _ _ a1); [done|]. n_steps.
  eapply wpx_mono; [apply (wpx_loop _ ok (λ b tr, size b = 100 ∧ ok tr) _ (λ _, ok))|].
  - intros b tr [Hs Hok]. split; [done|]. n_steps. apply wpx_recvfrom; [lia|].
    intros r' b' Hr' Ha Hb' Hs'. set (e := (Recvfrom _ _ _ _, r')).
    destruct (Z.ltb_spec (ret_ r') 0) as [Hneg|Hpos]; cbn beta iota.
    + apply wpx_ret. unfold ok, shown. rewrite !bind_app. simpl. unfold news_in. simpl.
      rewrite (proj2 (Z.ltb_lt _ _)) by done. unfold ok, shown in Hok. by rewrite Hok.
    + destruct Ha as [[E _]|([_ Hle] & Hl & _)]; [lia|].
      destruct (terminate b (data r') b') as (b'' & Hb'' & Hs'' & Hc); [done|lia|].
      unfold set. n_steps. rewrite <-Hl. eapply wpx_need; [exact Hb''|]. unfold pstr. n_steps.
      eapply wpx_need; [exact Hc|]. n_steps. split; [lia|].
      unfold ok, shown in *. rewrite !bind_app, Hok. simpl. unfold news_in. simpl.
      rewrite (proj2 (Z.ltb_ge _ _)) by lia. by rewrite !app_nil_r.
  - split; [done|]. by do 3 (apply shown_plain; [done..|]).
  - intros [] tr Hok. n_steps. split; [done|]. by apply shown_plain.
Qed.

(** * Writing past the buffer *)

(** The clients of chapters 10 and 11 read up to [BUF_SIZE] bytes and then
    store a NUL after them: a reply of exactly [BUF_SIZE] bytes makes
    [read_routine] write past its buffer. *)
Theorem read_routine_overflow `{OS} fuel sock b tr :
  size b = 30 → ret_ (os_reply tr (Read sock 30)) = 30 →
  length (data (os_reply tr (Read sock 30))) = 30%nat →
  read_routine (S fuel) sock b tr = Undef.
Proof.
  intros Hs Hr Hd. unfold read_routine. cbn [loop].
  unfold bind, read, read_at, sys, bind, need.
  destruct (bput_ok b 0 (data (os_reply tr (Read sock 30)))) as [b' Hb]; [lia|lia|].
  rewrite Hb. unfold ret. rewrite Hr. cbn. unfold set, need.
  destruct (bput b' 30 [0]) as [b''|] eqn:Hb''; [|done].
  apply bput_inv in Hb'' as (_ & Hl & _). simpl in Hl. apply bput_size in Hb. lia.
Qed.

Lemma fgets_line `{OS} b n fp line b' tr :
  ret_ (os_reply tr (Fgets fp n)) ≠ 0 → data (os_reply tr (Fgets fp n)) = line →
  bput b 0 (line ++ [0]) = Some b' →
  fgets b n fp tr = Done (true, b') (tr ++ [(Fgets fp n, os_reply tr (Fgets fp n))]).
Proof.
  intros Hr Hd Hb. unfold fgets, bind, sys. rewrite (proj2 (Z.eqb_neq _ _)) by done.
  unfold need. by rewrite Hd, Hb.
Qed.
Lemma is_quit_no `{OS} b line tr :
  cstr b = Some line → line ≠ [113; newline] → line ≠ [81; newline] →
  is_quit b tr = Done false tr.
Proof.
  intros Hc ??. unfold is_quit, str_eq, bind, need. rewrite Hc. unfold ret.
  by rewrite !bool_decide_false.
Qed.

(** chap6/uecho_client.c does the same with a datagram of [BUF_SIZE] bytes:
    a turn in which the user's line is not the quit command and a datagram of
    30 bytes arrives is undefined. *)
Theorem uecho_client_overflow `{OS} client_socket server_address message len line tr :
  size message = 30 → 0 ∉ line → (length line < 30)%nat →
  line ≠ [113; newline] → line ≠ [81; newline] →
  (∀ tr, let r := os_reply tr (Fgets stdin 30) in ret_ r ≠ 0 ∧ data r = line) →
  (∀ tr len, let r := os_reply tr (Recvfrom client_socket 30 0 len) in
     ret_ r = 30 ∧ length (data r) = 30%nat) →
  uecho_client_turn client_socket server_address (message, len) tr = Undef.
Proof.
  intros Hs Hnul Hlen Hq HQ Hgets Hrecv. unfold uecho_client_turn. cbv zeta.
  erewrite bind_done by reflexivity.
  destruct (bput_ok message 0 (line ++ [0])) as [b Hb]; [lia|rewrite length_app; simpl; lia|].
  pose proof (bput_inv _ _ _ _ Hb) as (_ & _ & Hsb & Hbe).
  assert (b = (Some <$> line) ++ Some 0 :: drop (length line + 1) message) as Hbe'.
  { rewrite Hbe, fmap_app, take_0, length_app, <-app_assoc. done. }
  assert (cstr b = Some line) as Hc by (rewrite Hbe'; by apply cstr_stored).
  assert (bget b (Z.of_nat (length line)) = Some line) as Hg.
  { unfold bget. rewrite !(proj2 (Z.leb_le _ _)) by lia. cbn. rewrite Nat2Z.id, Hbe'.
    rewrite take_app_length' by (by rewrite length_fmap). apply mapM_Some. }
  set (tr1 := tr ++ _). destruct (Hgets tr1) as [Hg1 Hg2].
  erewrite bind_done by (eapply fgets_line; [exact Hg1|exact Hg2|exact Hb]). cbv beta iota.
  erewrite bind_done by (by eapply is_quit_no). cbv beta iota.
  erewrite bind_done by (unfold strlen, bind, need; by rewrite Hc). cbv beta.
  erewrite bind_done by (unfold sendto, bind, need; by rewrite Hg). cbv beta.
  set (tr2 := _ ++ [(Sendto _ _ _ _ _, _)]). destruct (Hrecv tr2 len) as [Hr1 Hr2].
  destruct (bput_ok b 0 (data (os_reply tr2 (Recvfrom client_socket 30 0 len)))) as [b2 Hb2];
    [lia|lia|].
  erewrite bind_done by (unfold recvfrom, bind, sys, need; by rewrite Hb2). cbv beta iota.
  rewrite Hr1. unfold bind at 1, set, need.
  destruct (bput b2 30 [0]) as [b3|] eqn:Hb3; [|done].
  apply bput_inv in Hb3 as (_ & Hl & _). simpl in Hl. apply bput_size in Hb2. lia.
Qed.

(** * One process per client *)

(** The process is a child: a [fork] returned 0 in it. *)
Definition forked_child (e : call * reply) : bool :=
  match e.1 with Fork_ => ret_ e.2 =? 0 | _ => false end.
Definition is_child (tr : trace) : Prop := Exists (λ e, forked_child e = true) tr.
(** What holds at the loops of a forking server: the echo is exact; the parent
    keeps no connection open and has read nothing. *)
Definition mp_ok (tr : trace) : Prop :=
  echoed tr ∧ (is_child tr ∨ (open_fds tr = ∅ ∧ ∀ fd, was_read fd tr = [])).

Lemma is_child_app tr e : is_child tr → is_child (tr ++ [e]).
Proof. intros. apply Exists_app. by left. Qed.

(** The parent's state at the head of its loop. *)
Record parent_idle (tr : trace) : Prop := {
  pi_echoed : echoed tr;
  pi_open : open_fds tr = ∅;
  pi_read : ∀ fd, was_read fd tr = []
}.
Definition quiet (c : call) : bool :=
  silent c && match c with Accept _ | Close _ => false | _ => true end.
Lemma idle_quiet tr c r : quiet c = true → parent_idle tr → parent_idle (tr ++ [(c, r)]).
Proof.
  unfold quiet. intros [Hs Hq]%andb_true_iff [H1 H2 H3]. split.
  - by apply echoed_silent.
  - rewrite open_fds_snoc, H2. by destruct c.
  - intros fd. by rewrite was_read_snoc, H3, silent_in.
Qed.
Lemma idle_mp_ok tr : parent_idle tr → mp_ok tr.
Proof. intros []. split; [done|by right]. Qed.
(** The parent's trace with one more connection. *)
Lemma idle_accept tr s r :
  parent_idle tr →
  echoed (tr ++ [(Accept s, r)]) ∧ (∀ fd, was_read fd (tr ++ [(Accept s, r)]) = []) ∧
  open_fds (tr ++ [(Accept s, r)]) = if ret_ r =? -1 then ∅ else {[ret_ r]}.
Proof.
  intros [H1 H2 H3]. split_and!; [by apply echoed_silent| |].
  - intros fd. by rewrite was_read_snoc, H3.
  - rewrite open_fds_snoc, H2. unfold fd_step. simpl. case_match; [done|]. apply (right_id_L ∅ (∪)).
Qed.
Lemma wpx_Fork `{OSLaws} (X : Z → trace → Prop) F tr (Q : Z → trace → Prop) :
  (∀ r1 r2, X 1 ((tr ++ [(Fork_, r1)]) ++ [(Printf "fork failed\n" [], r2)])) →
  (∀ r, ret_ r ≠ -1 → Q (ret_ r) (tr ++ [(Fork_, r)])) →
  wpx Fork tr X F Q.
Proof.
  intros HX HQ. unfold Fork. n_steps. destruct (Z.eqb_spec (ret_ r) (-1)); n_steps; [apply HX|].
  by apply HQ.
Qed.

(** The child serves its connection, and has no other open. *)
Lemma wpx_mp_child `{OSLaws} X fuel clnt tr (Q : buf → trace → Prop) :
  reads_succeed → echoed tr → is_child tr → open_fds tr ⊆ {[clnt]} →
  (∀ b tr', echoed tr' → is_child tr' → open_fds tr' ⊆ {[clnt]} → Q b tr') →
  wpx (echo_loop fuel clnt (uninit 30) 30) tr X mp_ok Q.
Proof.
  intros Hreads He Hc Ho HQ.
  eapply wpx_mono; [apply (wpx_echo_loop Hreads _ (λ tr, is_child tr ∧ open_fds tr ⊆ {[clnt]}) mp_ok)|].
  - intros tr3 c rc Hcl [Hch Ho3]. split; [by apply is_child_app|]. rewrite open_fds_snoc. by destruct c.
  - intros tr3 ? [? _]. split; [done|by left].
  - done.
  - done.
  - done.
  - intros b' tr3 (_ & He3 & Hch & Ho3). by apply HQ.
Qed.


(** chap11/echo_store_server.c: on every run of a child's loop, whatever was
    read from the client since the loop began has been written back to it and
    into the pipe, byte for byte. *)
Theorem echo_tee_copies `{OSLaws} (X : Z → trace → Prop) fuel clnt_sock fd b tr :
  reads_succeed → clnt_sock ≠ fd → size b = 30 →
  let copied tr' := ∃ bytes,
    was_read clnt_sock tr' = was_read clnt_sock tr ++ bytes ∧
    written clnt_sock tr' = written clnt_sock tr ++ bytes ∧
    written fd tr' = written fd tr ++ bytes in
  wpx (echo_tee_loop fuel clnt_sock fd b) tr X copied (λ _, copied).
Proof.
  intros Hreads Hfd Hb copied.
  apply (wpx_loop X copied (λ b tr', size b = 30 ∧ copied tr')).
  2:{ split; [done|]. exists []. by rewrite !app_nil_r. }
  intros b1 tr1 (Hs & bytes & E1 & E2 & E3). split; [by exists bytes|].
  n_step. apply wpx_read; [lia|]. intros r b2 Hr Ha Hb2 Hs2.
  destruct (Z.eqb_spec (ret_ r) 0) as [E0|E0]; cbn beta iota.
  - apply wpx_ret. exists bytes. rewrite was_read_snoc, !written_snoc, E1, E2, E3.
    unfold in_bytes, out_bytes. simpl. rewrite Z.eqb_refl, (delivers_eof _ _ Ha E0).
    by rewrite !app_nil_r.
  - destruct (delivers_ok Hreads _ 30 _ _ ltac:(done) Hr Ha) as [_ Hl]. n_step.
    apply (wpx_write _ _ _ _ _ (data r)); [rewrite <-Hl; by eapply bget_bput|]. intros w1 _ _.
    n_step. apply (wpx_write _ _ _ _ _ (data r)); [rewrite <-Hl; by eapply bget_bput|].
    intros w2 _ _. apply wpx_ret. split; [lia|]. exists (bytes ++ data r).
    rewrite !was_read_snoc, !written_snoc, E1, E2, E3. unfold in_bytes, out_bytes.
    cbn [fst snd]. rewrite !Z.eqb_refl.
    rewrite (proj2 (Z.eqb_neq clnt_sock fd)), (proj2 (Z.eqb_neq fd clnt_sock)) by done.
    by rewrite !app_nil_r, !app_assoc.
Qed.
