(* ===== verification/NetSelect.v ===== *)
(** The multiplexing server of chap12/echo_select_server.c: the set it watches
    is always the listening socket and the open connections. *)
From stdpp Require Import gmap.
From S2P Require Import Prelude NetModel NetTcp NetProc NetRules NetEcho.

(** What a call may do when the connections [open] are open: only open
    connections are read, written and closed; [accept] is asked for the
    listening socket; [select] is given exactly the listening socket and the
    open connections, below its bound. *)
Definition step_ok (serv : Z) (open : gset Z) (c : call) : Prop :=
  match c with
  | Read fd _ | Write fd _ | Close fd => fd ∈ open
  | Accept fd => fd = serv
  | Select n s _ _ => s = {[serv]} ∪ open ∧ ∀ fd, fd ∈ s → 0 ≤ fd < n
  | _ => True
  end.
Fixpoint disciplined (serv : Z) (open : gset Z) (tr : trace) : Prop :=
  match tr with
  | [] => True
  | e :: tr => step_ok serv open e.1 ∧ disciplined serv (fd_step open e) tr
  end.

Lemma disciplined_snoc serv open tr e :
  disciplined serv open (tr ++ [e]) ↔
  disciplined serv open tr ∧ step_ok serv (foldl fd_step open tr) e.1.
Proof.
  revert open. induction tr as [|x tr IH]; intros open; simpl; [tauto|]. rewrite IH. tauto.
Qed.

(** The descriptors the system hands out: all fit in an [fd_set], and while
    fewer than a thousand connections are open, a new one is accepted and gets a
    descriptor that is not in use. *)
Definition fresh_descriptors `{OS} : Prop :=
  (∀ tr d t p, ret_ (os_reply tr (Socket d t p)) < FD_SETSIZE) ∧
  (∀ tr s, (n_open tr < 1000)%nat → let fd := ret_ (os_reply tr (Accept s)) in
     0 ≤ fd < FD_SETSIZE ∧ fd ≠ s ∧ fd ∉ open_fds tr).

Section select.
Context `{OSLaws} (Hreads : reads_succeed) (Hfresh : fresh_descriptors).
Context (X : Z → trace → Prop) (serv : Z) (Hserv : 0 ≤ serv < FD_SETSIZE).
Implicit Types tr : trace.

Definition session tr : Prop := disciplined serv ∅ tr ∧ echoed tr.

(** The invariant of the server's state. *)
Record watching (w : watch) tr : Prop := {
  wt_session : session tr;
  wt_reads : w_reads w = {[serv]} ∪ open_fds tr;
  wt_bound : ∀ fd, fd ∈ w_reads w → 0 ≤ fd ≤ w_fd_max w ∧ fd < FD_SETSIZE;
  wt_serv : serv ∉ open_fds tr;
  wt_buf : size (w_buf w) = 100
}.

(** A call that opens, closes and moves nothing. *)
Definition plain (c : call) : bool :=
  match c with
  | Read _ _ | Write _ _ | Close _ | Accept _ | Select _ _ _ _ => false
  | _ => true
  end.
Lemma session_plain tr c r : plain c = true → session tr → session (tr ++ [(c, r)]).
Proof.
  intros Hc [H1 H2]. split; [apply disciplined_snoc; split; [done|by destruct c]|].
  apply echoed_silent; [by destruct c|done].
Qed.
Lemma open_plain tr c r : plain c = true → open_fds (tr ++ [(c, r)]) = open_fds tr.
Proof. intros Hc. rewrite open_fds_snoc. by destruct c. Qed.
Lemma watching_plain w tr c r :
  plain c = true → watching w tr → watching w (tr ++ [(c, r)]).
Proof.
  intros Hc []. split; rewrite ?open_plain by done; try done. by apply session_plain.
Qed.

Lemma FD_SETSIZE_ok fd : 0 ≤ fd < FD_SETSIZE → (0 <=? fd) && (fd <? FD_SETSIZE) = true.
Proof. intros. apply andb_true_intro. split; [apply Z.leb_le|apply Z.ltb_lt]; lia. Qed.

(** One descriptor: the others stay watched. *)
(** The listening socket is ready: a connection is accepted and watched. *)
Lemma wpx_serve_accept copy w tr :
  watching w tr → serv ∈ copy → (n_open tr < 1000)%nat →
  wpx (serve_fd serv serv copy w) tr X session (λ w' tr',
    watching w' tr' ∧ (∀ j, j ∈ w_reads w → j ∈ w_reads w') ∧ (n_open tr' ≤ n_open tr + 1)%nat).
Proof.
  intros Hw Hic Hcount. unfold serve_fd. rewrite bool_decide_eq_true_2 by done. cbn [negb].
  rewrite Z.eqb_refl. pose proof Hw as [[Hd He] Hr Hb Hs Hbuf].
  n_steps. subst r. destruct Hfresh as [_ Hf].
  destruct (Hf tr serv) as (Hrange & Hneq & Hnew); [by apply Hcount|].
  set (fd := ret_ (os_reply tr (Accept serv))) in *.
  unfold FD_SET. rewrite FD_SETSIZE_ok by done. n_steps.
  assert (open_fds (tr ++ [(Accept serv, os_reply tr (Accept serv))]) = {[fd]} ∪ open_fds tr) as Ho.
  { rewrite open_fds_snoc. unfold fd_step. simpl. fold fd. by rewrite (proj2 (Z.eqb_neq _ _)) by lia. }
  split_and!; [|intros j ?; simpl; set_solver|].
  2:{ etrans; [by apply n_open_other|]. apply n_open_accept. }
  apply watching_plain; [done|].
  split; rewrite ?Ho; simpl.
  - split; [by apply disciplined_snoc|by apply echoed_silent].
  - set_solver.
  - intros x. rewrite elem_of_union, elem_of_singleton.
    intros [->|Hx]; [|specialize (Hb x Hx)]; destruct (Z.ltb_spec (w_fd_max w) fd); lia.
  - set_solver.
  - done.
Qed.
(** A connection is ready: what it sent is sent back, or it is closed. *)
Lemma wpx_serve_client i copy w tr :
  watching w tr → i ∈ copy → i ∈ w_reads w → i ≠ serv →
  wpx (serve_fd serv i copy w) tr X session (λ w' tr',
    watching w' tr' ∧ (∀ j, j ≠ i → j ∈ w_reads w → j ∈ w_reads w') ∧ (n_open tr' ≤ n_open tr)%nat).
Proof.
  intros Hw Hic Hi Hne. unfold serve_fd. rewrite bool_decide_eq_true_2 by done. cbn [negb].
  rewrite (proj2 (Z.eqb_neq _ _)) by done. pose proof Hw as [[Hd He] Hr Hb Hs Hbuf].
  assert (i ∈ open_fds tr) as Hio by set_solver.
  n_step. apply wpx_read; [lia|]. intros r b Hrr Ha Hb' Hsz.
  destruct (delivers_ok Hreads _ 100 _ _ ltac:(done) Hrr Ha) as [Hn Hl].
  destruct (Z.eqb_spec (ret_ r) 0) as [E0|E0]; cbn beta iota.
  - unfold FD_CLR. rewrite FD_SETSIZE_ok by (specialize (Hb i Hi); lia). n_steps.
    split_and!; [|intros j ??; simpl; set_solver|].
    2:{ do 3 (etrans; [by apply n_open_other|]). done. }
    apply watching_plain; [done|].
    split; rewrite ?open_fds_snoc; unfold fd_step; simpl.
    + split.
      * rewrite !disciplined_snoc. split_and!; [done|done|]. simpl. by rewrite foldl_app.
      * apply echoed_silent; [done|]. apply echoed_eof; [by eapply delivers_eof|done].
    + set_solver.
    + intros x Hx. apply Hb. set_solver.
    + set_solver.
    + lia.
  - n_step. apply (wpx_write _ _ _ _ _ (data r)); [rewrite <-Hl; by eapply bget_bput|].
    intros r' _ _. n_step. split_and!; [|done|].
    2:{ do 2 (etrans; [by apply n_open_other|]). done. }
    split; rewrite ?open_fds_snoc; unfold fd_step; simpl; try done; [|lia].
    split; [|by apply echoed_pair]. rewrite !disciplined_snoc. split_and!; [done|done|].
    simpl. by rewrite foldl_app.
Qed.
Lemma wpx_serve_fd i copy w tr :
  watching w tr → (i ∈ copy → i ∈ w_reads w) →
  (i = serv → (n_open tr < 1000)%nat) →
  wpx (serve_fd serv i copy w) tr X session (λ w' tr',
    watching w' tr' ∧ (∀ j, j ≠ i → j ∈ w_reads w → j ∈ w_reads w') ∧
    (n_open tr' ≤ n_open tr + if (i =? serv)%Z then 1 else 0)%nat).
Proof.
  intros Hw Hi Hcount. destruct (decide (i ∈ copy)) as [Hic|Hic].
  - destruct (Z.eqb_spec i serv) as [->|Hne].
    + eapply wpx_mono; [by apply wpx_serve_accept; [..|apply Hcount]|]. naive_solver.
    + eapply wpx_mono; [by apply wpx_serve_client; [..|apply Hi|]|].
      intros w' tr'. rewrite Nat.add_0_r. naive_solver.
  - unfold serve_fd. rewrite bool_decide_eq_false_2 by done. by apply wpx_ret; split_and!; [..|lia].
Qed.

Lemma wpx_serve_loop fuel copy w tr :
  watching w tr → copy ⊆ w_reads w → (n_open tr < 1000)%nat →
  wpx (serve_loop fuel serv copy w) tr X session
    (λ w' tr', watching w' tr' ∧ (n_open tr' ≤ n_open tr + 1)%nat).
Proof.
  intros Hw Hc Hn. apply (wpx_loop X session (λ '(i, w) tr', watching w tr' ∧
    (∀ j, j ∈ copy → i ≤ j → j ∈ w_reads w) ∧
    (n_open tr' ≤ n_open tr + if (serv <? i)%Z then 1 else 0)%nat)).
  2:{ split_and!; [done|intros j Hj _; by apply Hc|lia]. }
  intros [i w1] tr1 (Hw1 & Hc1 & Hn1). split; [apply Hw1|].
  destruct (Z.ltb_spec i (w_fd_max w1 + 1)).
  2:{ apply wpx_ret. split; [done|]. destruct (serv <? i); lia. }
  n_step. eapply wpx_mono; [apply wpx_serve_fd; [done| |]|].
  { intros Hi. by apply Hc1. }
  { intros ->. rewrite Z.ltb_irrefl in Hn1. lia. }
  intros w2 tr2 (Hw2 & Hkeep & Hn2). apply wpx_ret. split_and!; [done| |].
  - intros j Hj Hij. apply Hkeep; [lia|]. apply Hc1; [done|lia].
  - destruct (Z.eqb_spec i serv), (Z.ltb_spec serv i), (Z.ltb_spec serv (i + 1)); lia.
Qed.

Lemma wpx_select_loop fuel w tr :
  watching w tr → open_fds tr = ∅ → (fuel < 1000)%nat → (∀ tr, session tr → X 1 tr) →
  wpx (select_loop fuel serv w) tr X session (λ _, session).
Proof.
  intros Hw Ho Hf HX.
  apply (wpx_loop_count X session (λ k w tr, watching w tr ∧ (n_open tr ≤ k)%nat)).
  2:{ by intros w' tr' [Hw' _]; apply Hw'. }
  2:{ split; [done|]. unfold n_open. by rewrite Ho. }
  intros k w1 tr1 Hk [Hw1 Hn]. unfold select. n_steps.
  match goal with Ha : answers (Select _ _ _ _) ?x |- _ => destruct Ha as [_ Hready]; rename x into r end.
  pose proof Hw1 as [Hs Hr Hb Hsv Hbuf].
  set (e := (Select (w_fd_max w1 + 1) (w_reads w1) 30 0, r)).
  assert (watching w1 (tr1 ++ [e])) as Hw2.
  { split; rewrite ?open_fds_snoc; try done. split; [|apply echoed_silent; [done|apply Hs]].
    apply disciplined_snoc. split; [apply Hs|]. simpl. split; [done|].
    intros fd Hfd. specialize (Hb fd Hfd). lia. }
  assert (n_open (tr1 ++ [e]) ≤ k)%nat as Hn2 by (etrans; [by apply n_open_other|done]).
  destruct (ret_ r =? -1).
  - n_steps. apply HX. do 2 (apply session_plain; [done|]). apply Hw2.
  - destruct (ret_ r =? 0); [apply wpx_ret, Hw2|].
    n_step. eapply wpx_mono; [apply wpx_serve_loop; [done|done|lia]|].
    intros w3 tr3 [Hw3 Hn3]. apply wpx_ret. split; [done|lia].
Qed.
End select.

(** The server's run, with the system it needs. *)
Lemma select_server_session `{OSLaws} fuel argv :
  reads_succeed → fresh_descriptors → server_args argv → (fuel < 1000)%nat →
  wpx (echo_select_server_main fuel argv) []
    (λ code tr, code = 1 ∧ ∃ serv, session serv tr)
    (λ tr, ∃ serv, session serv tr)
    (λ v tr, v = 0 ∧ ∃ serv tr' r, session serv tr' ∧ tr = tr' ++ [(Close serv, r)]).
Proof.
  intros Hreads Hfresh [Hargv Hport] Hfuel.
  assert (∀ serv, session serv []) as Hnil by done.
  destruct argv as [|a0 argv]; [done|]. unfold echo_select_server_main, usage, arg. n_steps.
  { apply (wpx_need _ _ _ a0); [done|]. n_steps. split; [done|]. exists 0.
    by apply session_plain. }
  destruct argv as [|a1 argv]; [done|]. apply (wpx_need _ _ _ a1); [done|]. n_steps.
  destruct (Hport a1) as [port ->]; [done|]. n_steps.
  { split; [done|]. exists 0. by do 4 (apply session_plain; [done|]). }
  { split; [done|]. exists 0. by do 5 (apply session_plain; [done|]). }
  simpl in H5, H8. destruct H5 as [E|[_ Hpos]]; [by rewrite E in H6|].
  set (serv := ret_ r) in *. set (tr := _ ++ [(Listen serv 5, r1)]).
  assert (session serv tr) as Hs by (by do 3 (apply session_plain; [done|])).
  assert (0 ≤ serv < FD_SETSIZE) as Hrange.
  { split; [done|]. unfold serv. rewrite H2. apply Hfresh. }
  assert (watching serv (Watch {[serv]} serv (uninit 100)) tr) as Hw.
  { split; simpl; [done|..]; try done.
    - unfold tr. rewrite !open_plain by done. set_solver.
    - intros fd ->%elem_of_singleton. lia. }
  unfold FD_SET. rewrite FD_SETSIZE_ok by done. n_steps.
  rewrite (right_id_L ∅ (∪)).
  assert (open_fds tr = ∅) as Ho by (unfold tr; by rewrite !open_plain).
  eapply wpx_conseq; [apply (wpx_select_loop Hreads Hfresh (λ c tr, c = 1 ∧ session serv tr)
    serv Hrange fuel _ tr); done| | |].
  - intros c s [-> ?]. split; [done|]. by exists serv.
  - intros s ?. by exists serv.
  - intros [] s ?. n_steps. split; [done|]. by exists serv, s, r2.
Qed.

(** Where that system is needed: an [accept] that fails, or gives a descriptor
    no [fd_set] has room for, and a [read] that fails are not checked. *)
Lemma serve_accept_undef `{OS} serv copy w tr :
  serv ∈ copy → ¬ 0 ≤ ret_ (os_reply tr (Accept serv)) < FD_SETSIZE →
  serve_fd serv serv copy w tr = Undef.
Proof.
  intros Hs Ha. unfold serve_fd. rewrite bool_decide_eq_true_2 by done. cbn [negb].
  rewrite Z.eqb_refl. unfold accept, val, bind, sys, ret, FD_SET. simpl.
  destruct (Z.leb_spec 0 (ret_ (os_reply tr (Accept serv)))),
    (Z.ltb_spec (ret_ (os_reply tr (Accept serv))) FD_SETSIZE); simpl; try done. lia.
Qed.
Lemma serve_read_undef `{OSLaws} serv i copy w tr :
  i ∈ copy → i ≠ serv → ret_ (os_reply tr (Read i 100)) = -1 →
  serve_fd serv i copy w tr = Undef.
Proof.
  intros Hi Hne Hr. unfold serve_fd. rewrite bool_decide_eq_true_2 by done. cbn [negb].
  rewrite (proj2 (Z.eqb_neq _ _)) by done.
  destruct (os_answers tr (Read i 100)) as [[_ Hd]|(? & _)]; [|lia].
  unfold read, read_at, bind, sys, need, ret. simpl. rewrite Hd, Hr. simpl.
  destruct (bput (w_buf w) 0 []) as [b|]; [|done]. done.
Qed.

(** What the server did up to a loop head: the discipline, and the bytes it
    sent back. *)
Definition served (serv : Z) (tr : trace) : Prop :=
  disciplined serv ∅ tr ∧ ∀ fd,
    written fd tr = was_read fd tr ∧ (sent fd tr = was_read fd tr ↔ full_writes fd tr).
Lemma session_served serv tr : session serv tr → served serv tr.
Proof. intros [Hd He]. split; [done|]. intros fd. by rewrite <-He, sent_written. Qed.

(** C38: chap12/echo_select_server.c, on an operating system on which [read]
    does not fail and, while fewer than a thousand connections are open,
    [accept] succeeds with a descriptor below [FD_SETSIZE] that is not in use.
    On every run of fewer than a thousand turns of its loop (each turn accepts
    at most one client; an [fd_set] holds 1024 descriptors and the code does
    not check), for any interleaving of clients, nothing undefined is executed
    and at every loop head: [select] has always been given exactly the
    listening socket and the connections open at that time, with a bound above
    all of them; only open connections were read, written and closed, each
    closed once; every byte read from a connection has been passed to [write]
    on it, in order; and the system sent back exactly what was read from a
    connection if and only if no [write] on it was short (the code does not
    look at what [write] returns). The server leaves with [exit(1)] after a
    failing call, or returns 0 after a [select] that timed out, having closed
    the listening socket. The two conditions on the system are the ones the
    code needs: in any state, handling a ready listening socket whose [accept]
    gives -1 or a descriptor of 1024 or more is undefined, and so is handling a
    ready connection whose [read] gives -1. *)
Theorem select_server_disciplined `{OSLaws} fuel argv :
  (reads_succeed → fresh_descriptors → server_args argv → (fuel < 1000)%nat →
   wpx (echo_select_server_main fuel argv) []
     (λ code tr, code = 1 ∧ ∃ serv, served serv tr)
     (λ tr, ∃ serv, served serv tr)
     (λ v tr, v = 0 ∧ ∃ serv tr' r, served serv tr' ∧ tr = tr' ++ [(Close serv, r)])) ∧
  ∀ serv copy w tr,
    (serv ∈ copy → ¬ 0 ≤ ret_ (os_reply tr (Accept serv)) < FD_SETSIZE →
     serve_fd serv serv copy w tr = Undef) ∧
    (∀ i, i ∈ copy → i ≠ serv → ret_ (os_reply tr (Read i 100)) = -1 →
     serve_fd serv i copy w tr = Undef).
Proof.
  split.
  - intros Hr Hf Ha Hfuel. pose proof session_served as Hs.
    eapply wpx_conseq; [by apply select_server_session|naive_solver..].
  - intros serv copy w tr. split; [apply serve_accept_undef|intros i; apply serve_read_undef].
Qed.
