(* ===== verification/NetCalcProps.v ===== *)
(** The calculator of chap5: the folds, the digits and what the two ends make
    of each other's numbers. *)
From S2P Require Import Prelude NetModel NetTcp NetCalc NetRules.

(** * The fold *)

(** Exact arithmetic, where the result is an [int]. *)
Definition int_op (op a b : Z) : option Z :=
  let check z := if is_int z then Some z else None in
  if op =? 43 then check (a + b)
  else if op =? 45 then check (a - b)
  else if op =? 42 then check (a * b)
  else if op =? 47 then if b =? 0 then None else check (Z.quot a b)
  else Some a.
Fixpoint int_fold (op acc : Z) (xs : list Z) : option Z :=
  match xs with
  | [] => Some acc
  | x :: xs => match int_op op acc x with Some acc => int_fold op acc xs | None => None end
  end.

Definition of_option {S} (o : option Z) : M S Z :=
  match o with Some z => ret z | None => undef end.

Lemma fold_operands_eq {S} fuel op (f : Z → Z → M S Z) pre xs acc (s : S) :
  (∀ a b, f a b = of_option (int_op op a b)) → (length xs < fuel)%nat → (1 ≤ length pre)%nat →
  loop fuel (λ '(i, result),
    if i <? Z.of_nat (length (pre ++ xs)) then
      x ← need (iget (Some <$> (pre ++ xs)) i); result ← f result x; ret (inl (i + 1, result))
    else ret (inr result)) (Z.of_nat (length pre), acc) s =
  of_option (int_fold op acc xs) s.
Proof.
  intros Hf. revert pre acc s fuel. induction xs as [|x xs IH]; intros pre acc s fuel Hl Hp.
  { destruct fuel as [|fuel]; [simpl in Hl; lia|]. cbn [loop]. unfold bind.
    rewrite app_nil_r, Z.ltb_irrefl. done. }
  destruct fuel as [|fuel]; [simpl in Hl; lia|]. cbn [loop].
  rewrite (proj2 (Z.ltb_lt _ _)) by (rewrite length_app; simpl; lia).
  assert (iget (Some <$> (pre ++ x :: xs)) (Z.of_nat (length pre)) = Some x) as Hg.
  { unfold iget. rewrite (proj2 (Z.leb_le _ _)), Nat2Z.id by lia.
    rewrite list_lookup_fmap, lookup_app_r, Nat.sub_diag by lia. done. }
  rewrite Hg. unfold bind at 1 2, need. unfold ret at 1. cbn [int_fold].
  unfold bind at 1. rewrite Hf. destruct (int_op op acc x) as [acc'|]; [|done].
  unfold of_option at 1. unfold ret at 1 2.
  specialize (IH (pre ++ [x]) acc' s fuel).
  rewrite length_app, Nat2Z.inj_add in IH. simpl length in IH.
  rewrite <-app_assoc in IH. apply IH; simpl in *; lia.
Qed.

Lemma int_div_eq {S} a b : int_div (S:=S) a b = of_option (int_op 47 a b).
Proof. unfold int_div, int_op. simpl. destruct (b =? 0); [done|]. unfold int. by destruct is_int. Qed.

(** chap5/op_server.c: [calculate] on [opnum] operands is the left fold of
    the operator over them, in exact arithmetic, as long as each intermediate
    result is an [int] and no divisor is zero, and undefined otherwise; an
    unknown operator gives the first operand. *)
Theorem calculate_all_folds {S} fuel x xs op (s : S) :
  (length xs < fuel)%nat →
  calculate_all fuel (Z.of_nat (length (x :: xs))) (Some <$> x :: xs) op s =
  of_option (int_fold op x xs) s.
Proof.
  intros Hf. unfold calculate_all. change (iget (Some <$> x :: xs) 0) with (Some x).
  unfold bind, need. unfold ret at 1. unfold fold_operands.
  destruct (Z.eqb_spec op 43) as [->|H1]; [|destruct (Z.eqb_spec op 45) as [->|H2];
    [|destruct (Z.eqb_spec op 42) as [->|H3]; [|destruct (Z.eqb_spec op 47) as [->|H4]]]].
  1-3: apply (fold_operands_eq fuel _ _ [x] xs); [|done|done];
    intros a b; unfold int, int_op; cbn; by destruct is_int.
  - apply (fold_operands_eq fuel 47 _ [x] xs); [apply int_div_eq|done|done].
  - enough (int_fold op x xs = Some x) as -> by done.
    clear Hf. revert x. induction xs as [|y xs IH]; intros x; [done|]. simpl. unfold int_op.
    rewrite !(proj2 (Z.eqb_neq _ _)) by done. apply IH.
Qed.

(** * Digits *)

(** The decimal digits, least significant first. *)
Fixpoint digits_lsf (fuel : nat) (n : Z) : list Z :=
  match fuel with
  | O => []
  | S fuel => if n =? 0 then [] else (n mod 10) :: digits_lsf fuel (n / 10)
  end.
Definition ascii_digits (ds : list Z) : list Z := (λ d, d + 48) <$> ds.
(** The number some digits spell. *)
Definition number (ds : list Z) : Z := foldl (λ a d, a * 10 + d) 0 ds.

Lemma digits_range fuel n : Forall (λ d, 0 ≤ d < 10) (digits_lsf fuel n).
Proof.
  revert n. induction fuel as [|fuel IH]; intros n; simpl; [done|].
  destruct (n =? 0); constructor; [apply Z.mod_pos_bound; lia|apply IH].
Qed.
Lemma digits_length fuel n : 0 ≤ n < 10 ^ Z.of_nat fuel → (length (digits_lsf fuel n) ≤ fuel)%nat.
Proof.
  revert n. induction fuel as [|fuel IH]; intros n Hn; simpl; [lia|].
  destruct (n =? 0); simpl; [lia|]. enough (length (digits_lsf fuel (n / 10)) ≤ fuel)%nat by lia.
  apply IH. rewrite Nat2Z.inj_succ, Z.pow_succ_r in Hn by lia. split; [apply Z.div_pos; lia|].
  apply Z.div_lt_upper_bound; lia.
Qed.
(** They do spell it, read from the other end. *)
Lemma number_rev_digits fuel n :
  0 ≤ n < 10 ^ Z.of_nat fuel → number (rev (digits_lsf fuel n)) = n.
Proof.
  revert n. induction fuel as [|fuel IH]; intros n Hn; simpl.
  { simpl in Hn. unfold number. simpl. lia. }
  destruct (Z.eqb_spec n 0) as [->|]; [done|]. unfold number. simpl.
  rewrite foldl_app. simpl. fold (number (rev (digits_lsf fuel (n / 10)))).
  rewrite IH; [pose proof (Z.div_mod n 10); lia|].
  rewrite Nat2Z.inj_succ, Z.pow_succ_r in Hn by lia. split; [apply Z.div_pos; lia|].
  apply Z.div_lt_upper_bound; lia.
Qed.

Lemma bput_after b pre bytes rest v :
  b = (Some <$> pre) ++ rest → (length bytes ≤ length rest)%nat →
  v = Z.of_nat (length pre) →
  bput b v bytes = Some ((Some <$> (pre ++ bytes)) ++ drop (length bytes) rest).
Proof.
  intros -> Hl ->. unfold bput, size. rewrite length_app, length_fmap.
  rewrite !(proj2 (Z.leb_le _ _)) by lia. cbn. f_equal.
  rewrite Nat2Z.id, take_app_length', drop_app_ge by (by rewrite ?length_fmap; lia).
  rewrite length_fmap, fmap_app, <-app_assoc. do 2 f_equal. f_equal. lia.
Qed.

(** The client's digits, and where the loop stops. *)
Lemma int2string_client_loop {S} fuel n pre rest (s : S) k :
  0 ≤ n < 10 ^ Z.of_nat k → (k < fuel)%nat →
  (length (digits_lsf k n) + 2 ≤ length rest)%nat →
  loop fuel (λ '(i, num, ptr),
    if num <=? 0 then
      ptr ← need (bput ptr i [32]); ptr ← need (bput ptr (i + 1) [0]); ret (inr ptr)
    else
      let x := Z.rem num 10 in
      let num := Z.quot num 10 in
      ptr ← need (bput ptr i [to_char (x + 48)]);
      ret (inl (i + 1, num, ptr))) (Z.of_nat (length pre), n, (Some <$> pre) ++ rest) s =
  let text := pre ++ ascii_digits (digits_lsf k n) ++ [32; 0] in
  Done ((Some <$> text) ++ drop (length text - length pre) rest) s.
Proof.
  revert n pre rest fuel. induction k as [|k IH]; intros n pre rest fuel Hn Hf Hl;
    (destruct fuel as [|fuel]; [lia|]); cbn [loop digits_lsf] in *.
  - simpl in Hn. replace n with 0 by lia. unfold bind. cbn.
    rewrite (bput_after _ pre [32] rest) by (done || (simpl in *; lia)). unfold need, ret at 1.
    rewrite (bput_after _ (pre ++ [32]) [0] (drop 1 rest))
      by (done || rewrite ?length_drop, ?length_app; simpl in *; lia).
    unfold ret. rewrite drop_drop, <-app_assoc. simpl. rewrite length_app. simpl.
    do 2 f_equal. f_equal. lia.
  - destruct (Z.eqb_spec n 0) as [->|Hne].
    + unfold bind. cbn.
      rewrite (bput_after _ pre [32] rest) by (done || (simpl in *; lia)). unfold need, ret at 1.
      rewrite (bput_after _ (pre ++ [32]) [0] (drop 1 rest))
        by (done || rewrite ?length_drop, ?length_app; simpl in *; lia).
      unfold ret. rewrite drop_drop, <-app_assoc. simpl. rewrite length_app. simpl.
      do 2 f_equal. f_equal. lia.
    + unfold bind at 1. rewrite (proj2 (Z.leb_gt n 0)) by lia. cbv zeta.
      rewrite Z.rem_mod_nonneg, Z.quot_div_nonneg by lia.
      pose proof (Z.mod_pos_bound n 10). unfold to_char. rewrite Z.mod_small by lia.
      unfold bind at 1. rewrite (bput_after _ pre [n mod 10 + 48] rest)
        by (done || (simpl in *; lia)). unfold need, ret at 1 2.
      replace (Z.of_nat (length pre) + 1) with (Z.of_nat (length (pre ++ [n mod 10 + 48])))
        by (rewrite length_app; simpl; lia).
      rewrite IH.
      * cbv zeta. simpl. rewrite <-app_assoc. simpl. rewrite drop_drop, !length_app. simpl.
        do 2 f_equal. f_equal. lia.
      * rewrite Nat2Z.inj_succ, Z.pow_succ_r in Hn by lia. split; [apply Z.div_pos; lia|].
        apply Z.div_lt_upper_bound; lia.
      * lia.
      * rewrite length_drop. simpl in *. lia.
Qed.

(** * The server reads numbers back *)

Lemma number_snoc ds d : number (ds ++ [d]) = number ds * 10 + d.
Proof. unfold number. by rewrite foldl_app. Qed.
Lemma number_prefix ds1 ds2 :
  Forall (λ d, 0 ≤ d < 10) (ds1 ++ ds2) → 0 ≤ number ds1 ≤ number (ds1 ++ ds2).
Proof.
  assert (∀ ds, Forall (λ d, 0 ≤ d < 10) ds → 0 ≤ number ds) as Hpos.
  { intros ds. induction ds as [|d ds IH] using rev_ind; [done|].
    rewrite Forall_app, Forall_singleton, number_snoc. intros [? ?]. specialize (IH H). lia. }
  intros Hf. split; [apply Hpos; by apply Forall_app in Hf as [? _]|].
  induction ds2 as [|d ds2 IH] using rev_ind; [by rewrite app_nil_r|].
  rewrite app_assoc in *. apply Forall_app in Hf as [Hf Hd]. rewrite Forall_singleton in Hd.
  rewrite number_snoc. specialize (IH Hf). specialize (Hpos _ Hf). lia.
Qed.

Lemma bat_app pre c rest : bat ((Some <$> pre) ++ Some c :: rest) (Z.of_nat (length pre)) = Some c.
Proof.
  unfold bat. rewrite (proj2 (Z.leb_le _ _)), Nat2Z.id by lia.
  rewrite lookup_app_r, length_fmap, Nat.sub_diag by (by rewrite length_fmap). done.
Qed.

Lemma wp_get_num `{OS} fuel pre ds rest tr :
  Forall (λ d, 0 ≤ d < 10) ds → number ds ≤ INT_MAX → (length ds < fuel)%nat →
  wp (get_num fuel ((Some <$> pre ++ ascii_digits ds) ++ Some 32 :: rest)
        (Z.of_nat (length pre))) tr
    (λ '(num, ptr) _, num = number ds ∧ ptr = Z.of_nat (length pre + length ds + 1)).
Proof.
  intros Hds Hmax Hf. set (msg := _ ++ Some 32 :: rest). unfold get_num. apply wp_bind.
  eapply wp_mono; [apply (wp_loop (λ k '(num, ptr) _, ∃ ds1 ds2, ds = ds1 ++ ds2 ∧
      k = length ds2 ∧ num = number ds1 ∧ ptr = Z.of_nat (length pre + length ds1)) _
      (λ '(num, ptr) _, num = number ds ∧ ptr = Z.of_nat (length pre + length ds)))
      with (n := length ds)|].
  - intros k [num ptr] s (ds1 & ds2 & -> & -> & -> & ->). apply wp_bind.
    replace (length pre + length ds1)%nat with (length (pre ++ ascii_digits ds1))
      by (unfold ascii_digits; rewrite length_app, length_fmap; done).
    destruct ds2 as [|d ds2].
    + unfold msg. rewrite app_nil_r in *. eapply wp_need; [apply bat_app|]. apply wp_ret.
      split; [done|]. unfold ascii_digits. by rewrite length_app, length_fmap.
    + assert (msg = (Some <$> (pre ++ ascii_digits ds1)) ++
        Some (d + 48) :: (Some <$> ascii_digits ds2) ++ Some 32 :: rest) as ->.
      { unfold msg, ascii_digits. rewrite !fmap_app, fmap_cons, <-!app_assoc. done. }
      eapply wp_need; [apply bat_app|].
      apply Forall_app in Hds as Hds'. destruct Hds' as [_ Hds'].
      apply Forall_cons in Hds' as [Hd _].
      assert (0 ≤ number ds1 ∧ number ds1 * 10 + d ≤ INT_MAX) as [Hn0 Hn1].
      { replace (ds1 ++ d :: ds2) with ((ds1 ++ [d]) ++ ds2) in Hds, Hmax
          by (by rewrite <-app_assoc).
        pose proof (number_prefix _ _ Hds) as [? ?]. rewrite number_snoc in *.
        apply Forall_app in Hds as [Hds _].
        pose proof (number_prefix _ _ Hds) as [? ?]. lia. }
      rewrite (proj2 (Z.eqb_neq (d + 48) 32)) by lia.
      assert (char_value (d + 48) = d + 48) as Hcv.
      { unfold char_value. by rewrite (proj2 (Z.ltb_lt _ _)) by lia. }
      unfold INT_MAX, INT_MIN in *.
      apply wp_bind, wp_bind. apply wp_int; [unfold INT_MAX, INT_MIN; lia|].
      rewrite Hcv. apply wp_int; [unfold INT_MAX, INT_MIN; lia|].
      apply wp_bind, wp_run, wp_ret. exists (length ds2). split; [simpl; lia|].
      exists (ds1 ++ [d]), ds2. rewrite <-app_assoc, number_snoc, !length_app. simpl.
      unfold ascii_digits. rewrite length_fmap. split_and!; [done|done|lia|lia].
  - exists [], ds. rewrite Nat.add_0_r. by rewrite <-Nat2Z.inj_add || done.
  - done.
  - intros [num ptr] s [-> ->]. apply wp_bind, wp_run, wp_ret. split; [done|lia].
Qed.

(** chap5/op_server_bad.c: [get_num] reads the decimal number at the pointer
    up to the blank after it and moves the pointer past the blank, without
    overflow when the number is an [int]. *)
Theorem get_num_reads `{OS} fuel pre ds rest tr :
  Forall (λ d, 0 ≤ d < 10) ds → number ds ≤ INT_MAX → (length ds < fuel)%nat →
  wp (get_num fuel ((Some <$> pre ++ ascii_digits ds) ++ Some 32 :: rest)
        (Z.of_nat (length pre))) tr
    (λ '(num, ptr) _, num = number ds ∧ ptr = Z.of_nat (length pre + length ds + 1)).
Proof. apply wp_get_num. Qed.

(** chap5: the two ends disagree on the order of the digits. The client's
    [int2string] writes the digits of a positive number least significant
    first, [get_num] of the server takes the first one as the most significant:
    for a number whose reversal is an [int] the server reads the number with
    its digits reversed. *)
Theorem calc_reverses_numbers `{OS} n ptr tr :
  0 < n ≤ INT_MAX → size ptr = 1024 → number (digits_lsf 10 n) ≤ INT_MAX →
  n = number (rev (digits_lsf 10 n)) ∧
  wp (str ← int2string_client 11 n ptr; get_num 11 str 0) tr
    (λ '(num, _) _, num = number (digits_lsf 10 n)).
Proof.
  intros Hn Hs Hmax. unfold INT_MAX in Hn.
  assert (0 ≤ n < 10 ^ Z.of_nat 10) as Hn10 by (change (10 ^ Z.of_nat 10) with 10000000000; lia).
  pose proof (digits_length 10 n Hn10) as Hl.
  split; [by rewrite number_rev_digits|].
  set (text := ascii_digits (digits_lsf 10 n) ++ [32; 0]).
  assert (length text = length (digits_lsf 10 n) + 2)%nat as Htext.
  { unfold text, ascii_digits. rewrite length_app, length_fmap. done. }
  assert (int2string_client (S:=trace) 11 n ptr tr =
    Done ((Some <$> text) ++ drop (length text - 0) ptr) tr) as E.
  { apply (int2string_client_loop (S:=trace) 11 n [] ptr tr 10); [done|lia|].
    unfold size in Hs. lia. }
  apply wp_bind. eapply wp_intro; [exact E|].
  replace (_ ++ drop _ ptr) with ((Some <$> [] ++ ascii_digits (digits_lsf 10 n)) ++
    Some 32 :: Some 0 :: drop (length text - 0) ptr).
  2:{ unfold text. rewrite (fmap_app Some _ [32; 0]), <-app_assoc. done. }
  eapply wp_mono; [apply (wp_get_num 11 [])|]; [apply digits_range|done|lia|].
  by intros [num p] s [-> _].
Qed.
