(* ===== verification/NetWitness.v ===== *)
(** Operating systems on which the properties of the network programs apply:
    one that answers every call as documented, one that floods its callers with
    full buffers, and one on which every call that can fail does. *)
From stdpp Require Import gmap.
From S2P Require Import Prelude NetModel NetTcp NetCalc NetUdp NetFile NetProc NetRules NetEcho NetTransfer NetServers NetSelect NetCalcProps.

Definition demo_content : list Z := [72; 105; 0].
Definition answer (v : Z) (bytes : list Z) : reply :=
  Reply v bytes (Addr AF_INET 0 0 (Some 0)) 16 ∅ None.
(** The least descriptor that is neither open nor [s]. *)
Definition fresh_fd (tr : trace) (s : Z) : Z :=
  default 0 (List.find (λ fd, bool_decide ((fd ∉ open_fds tr) ∧ fd ≠ s)) (seqZ 0 1024)).
(** At most [n] bytes of what is left of [demo_content]. *)
Definition piece (used : list Z) (n : Z) : reply :=
  let bytes := take (Z.to_nat n) (drop (length used) demo_content) in
  if n <? 0 then answer (-1) [] else answer (Z.of_nat (length bytes)) bytes.

#[export] Instance demo_os : OS := {
  os_reply tr c :=
    match c with
    | Socket _ _ _ => answer 3 []
    | Bind fd _ | Listen fd _ => answer (if fd <? 0 then -1 else 0) []
    | Accept s => answer (fresh_fd tr s) []
    | Read fd n => piece (was_read fd tr) n
    | Fread fp n => piece (taken fp tr) n
    | Recv _ n _ | Recvfrom _ n _ _ => answer (if n <? 0 then -1 else 0) []
    | Readv _ _ => answer (-1) []
    | Fork_ => answer 7 []
    | Write _ bytes => answer (Z.of_nat (length bytes)) []
    | Select _ s _ _ =>
        if existsb (λ e : call * reply, if e.1 is Close _ then true else false) tr then answer 0 []
        else Reply 1 [] (Addr AF_INET 0 0 (Some 0)) 16 s None
    | _ => answer 0 []
    end;
  inet_addr _ := 0;
  inet_aton _ := None;
  inet_ntoa _ := []
}.

Lemma find_some {A} (f : A → bool) l x : x ∈ l → f x = true → ∃ y, List.find f l = Some y.
Proof.
  intros Hx Hf. destruct (List.find f l) as [y|] eqn:E; [by exists y|].
  apply List.find_none with (x := x) in E; [congruence|]. by apply list_elem_of_In.
Qed.

Lemma fresh_fd_ok tr s :
  (n_open tr < 1000)%nat →
  0 ≤ fresh_fd tr s < FD_SETSIZE ∧ fresh_fd tr s ≠ s ∧ fresh_fd tr s ∉ open_fds tr.
Proof.
  intros Hn. unfold fresh_fd.
  assert (∃ fd, fd ∈ seqZ 0 1024 ∧ (fd ∉ open_fds tr) ∧ fd ≠ s) as (fd & Hin & Hfd).
  { destruct (decide (Exists (λ fd, (fd ∉ open_fds tr) ∧ fd ≠ s) (seqZ 0 1024))) as [Hex|Hno].
    { by apply Exists_exists in Hex. }
    exfalso. assert (list_to_set (seqZ 0 1024) ⊆ open_fds tr ∪ {[s]}) as Hsub.
    { intros x. rewrite elem_of_list_to_set. intros Hx. apply not_Exists_Forall in Hno; [|apply _].
      rewrite Forall_forall in Hno. specialize (Hno x Hx). simpl in Hno.
      destruct (decide (x ∈ open_fds tr)); [set_solver|]. destruct (decide (x = s)); set_solver. }
    apply subseteq_size in Hsub. rewrite size_list_to_set in Hsub by apply NoDup_seqZ.
    rewrite length_seqZ in Hsub. rewrite union_comm_L, size_union_alt, size_singleton in Hsub.
    assert (base.size (open_fds tr ∖ {[s]}) ≤ n_open tr)%nat.
    { unfold n_open. apply subseteq_size. set_solver. }
    change (Z.to_nat 1024) with 1024%nat in Hsub. lia. }
  destruct (find_some (λ fd, bool_decide ((fd ∉ open_fds tr) ∧ fd ≠ s)) (seqZ 0 1024) fd)
    as [y Hy]; [done|by apply bool_decide_eq_true_2|].
  rewrite Hy. simpl. apply List.find_some in Hy as [Hyin Hy%bool_decide_eq_true_1].
  apply list_elem_of_In, elem_of_seqZ in Hyin. unfold FD_SETSIZE. split; [lia|tauto].
Qed.

Lemma demo_bytes : Forall is_byte demo_content.
Proof. repeat (constructor; [unfold is_byte; lia|]). constructor. Qed.
Lemma piece_delivers used n : delivers n (piece used n).
Proof.
  unfold piece. destruct (Z.ltb_spec n 0); [by left|right].
  split_and!; simpl; [lia| |done|].
  - pose proof (length_take (drop (length used) demo_content) (Z.to_nat n)). lia.
  - apply Forall_take, Forall_drop, demo_bytes.
Qed.

#[export] Instance demo_laws : OSLaws.
Proof.
  intros tr c. destruct c; simpl; try done; try (right; lia); try (by left).
  - case_match eqn:E; apply Z.ltb_lt in E || apply Z.ltb_ge in E; [by left|right; lia].
  - case_match eqn:E; apply Z.ltb_lt in E || apply Z.ltb_ge in E; [by left|right; lia].
  - unfold fresh_fd. destruct (List.find _ _) as [y|] eqn:E; simpl; [|done].
    apply List.find_some in E as [Hin _]. apply list_elem_of_In, elem_of_seqZ in Hin. lia.
  - apply piece_delivers.
  - right. simpl. lia.
  - case_match eqn:E; apply Z.ltb_lt in E || apply Z.ltb_ge in E; [by left|right].
    simpl. split_and!; [lia|lia|done|constructor].
  - right. simpl. lia.
  - case_match eqn:E; apply Z.ltb_lt in E || apply Z.ltb_ge in E; [by left|right].
    simpl. split_and!; [lia|lia|done|constructor].
  - right. simpl. lia.
  - case_match; simpl; split; done || lia.
  - intros Hn. destruct (piece_delivers (taken fp tr) n) as [[E _]|?]; [|done].
    unfold piece in E. rewrite (proj2 (Z.ltb_ge _ _)) in E by done. simpl in E. lia.
  - by repeat case_match.
Qed.

Lemma demo_reads : reads_succeed.
Proof.
  intros tr fd n Hn. simpl. unfold piece. rewrite (proj2 (Z.ltb_ge _ _)) by done. simpl. lia.
Qed.
Lemma demo_recvfrom : recvfrom_succeeds.
Proof. intros tr fd n flags len Hn. simpl. by rewrite (proj2 (Z.ltb_ge _ _)). Qed.
Lemma demo_fresh : fresh_descriptors.
Proof. split; [done|]. intros tr s Hn. by apply fresh_fd_ok. Qed.

(** A program called [prog] with the port 80 as its last argument. *)
Definition server_argv : list (list Z) := [bytes_of "prog"; bytes_of "80"].
Definition group_argv : list (list Z) := [bytes_of "prog"; bytes_of "group"; bytes_of "80"].
Lemma server_argv_ok : server_args server_argv.
Proof. split; [done|]. intros a [= <-]. by exists 80. Qed.

Lemma demo_stream fd : delivers_stream fd demo_content.
Proof.
  intros tr n Hn. cbv zeta. simpl os_reply. unfold piece.
  rewrite (proj2 (Z.ltb_ge _ _)) by lia. simpl ret_. simpl data.
  set (rest := drop _ _). pose proof (length_take rest (Z.to_nat n)).
  split_and!; [lia|lia| |done|].
  - rewrite Nat2Z.id. destruct (decide (Z.to_nat n ≤ length rest)%nat).
    + by rewrite length_take_le by done.
    + by rewrite !take_ge by (rewrite ?take_ge; lia).
  - intros E. destruct rest; [done|]. simpl in *. destruct (Z.to_nat n) eqn:?; simpl in *; lia.
Qed.
Lemma demo_file fp : file_holds fp demo_content.
Proof.
  intros tr n Hn. cbv zeta. simpl os_reply. unfold piece.
  by rewrite (proj2 (Z.ltb_ge _ _)) by lia.
Qed.

(** * Servers and clients *)

Lemma echo_server_echoes_witness :
  wpx (echo_server_main 5 server_argv) [] (λ code tr, code = 1 ∧ echoed tr) echoed
    (λ _ _, False).
Proof. apply echo_server_echoes; [apply demo_reads|apply server_argv_ok|done]. Defined.

Lemma reuseaddr_echoes_first_bytes_witness :
  wpx (reuseaddr_loop 5 4 (uninit 30)) [] (λ _ _, True)
    (λ tr, written 4 tr = first_bytes 4 tr) (λ _ tr, written 4 tr = first_bytes 4 tr).
Proof. apply reuseaddr_echoes_first_bytes; [apply demo_reads|done|done]. Defined.

Lemma tcp_client_reads_stream_witness :
  wp (tcp_client_loop 5 3 (uninit 30)) [] (λ '(str_len, message) tr',
    str_len = 3 ∧ was_read 3 tr' = demo_content ∧ take 3 message = Some <$> demo_content).
Proof.
  apply (tcp_client_reads_stream 5 3 demo_content []); [apply demo_stream|done|simpl; lia|simpl; lia].
Defined.

(** A system on which every call that can fail does. *)
Definition failing_os : OS := {|
  os_reply _ c := match c with Fread _ _ | Fgets _ _ => answer 0 [] | _ => answer (-1) [] end;
  inet_addr _ := 0;
  inet_aton _ := None;
  inet_ntoa _ := []
|}.
#[export] Instance failing_laws : OSLaws (H:=failing_os).
Proof.
  intros tr c. destruct c; simpl; try done; try (by left).
  by repeat case_match.
Qed.

(** The server on [demo_os], where two clients connect and the first sends
    three bytes; and a turn on [failing_os]. *)
Lemma select_server_disciplined_witness :
  (wpx (echo_select_server_main 9 server_argv) []
    (λ code tr, code = 1 ∧ ∃ serv, served serv tr) (λ tr, ∃ serv, served serv tr)
    (λ v tr, v = 0 ∧ ∃ serv tr' r, served serv tr' ∧ tr = tr' ++ [(Close serv, r)]) ∧
   match echo_select_server_main 9 server_argv [] with
   | Done v tr => v = 0 ∧ sent 0 tr = demo_content
   | _ => False
   end) ∧
  (serve_fd (H:=failing_os) 3 3 {[3]} (Watch {[3]} 3 (uninit 100)) [] = Undef ∧
   serve_fd (H:=failing_os) 3 4 {[3; 4]} (Watch {[3; 4]} 4 (uninit 100)) [] = Undef).
Proof.
  split; [split|split].
  - refine (proj1 (select_server_disciplined 9 server_argv) demo_reads demo_fresh server_argv_ok _).
    lia.
  - vm_compute. done.
  - refine (proj1 (proj2 (select_server_disciplined (H:=failing_os) (H0:=failing_laws) 9 server_argv) 3 {[3]} _ []) _ _);
      [set_solver|simpl; lia].
  - refine (proj2 (proj2 (select_server_disciplined (H:=failing_os) (H0:=failing_laws) 9 server_argv) 3 {[3; 4]} _ [])
      4 _ _ _); [set_solver|lia|done].
Defined.


Lemma echo_tee_copies_witness :
  let copied tr' := ∃ bytes,
    was_read 4 tr' = was_read 4 [] ++ bytes ∧ written 4 tr' = written 4 [] ++ bytes ∧
    written 5 tr' = written 5 [] ++ bytes in
  wpx (echo_tee_loop 5 4 5 (uninit 30)) [] (λ _ _, True) copied (λ _, copied).
Proof. apply echo_tee_copies; [apply demo_reads|done|done]. Defined.

Lemma file_transfer_roundtrip_witness :
  ∃ sent,
    wp (send_file_loop 2 4 9 (uninit 30)) [] (λ _ tr', written 4 tr' = [] ++ sent) ∧
    (delivers_stream 3 sent →
     wp (receive_file_loop 5 3 8 (uninit 30)) [] (λ _ tr', stored 8 tr' = [] ++ demo_content)).
Proof.
  apply (file_transfer_roundtrip demo_os demo_os 2 5 4 9 3 8 demo_content (uninit 30) (uninit 30)
    [] []); [apply demo_file|done|done|simpl; lia|done|done|simpl; lia].
Defined.

Lemma uecho_server_replies_witness :
  wpx (uecho_server_main 5 server_argv) [] (λ code tr, code = 1 ∧ replied tr) replied
    (λ _ _, False).
Proof. apply uecho_server_replies; [apply demo_recvfrom|apply server_argv_ok]. Defined.

Lemma news_receiver_shows_witness :
  let ok := shown "Received message: %s\n" in
  wpx (news_receiver_main 5 group_argv) [] (λ code tr, code = 1 ∧ ok tr) ok
    (λ v tr, v = 0 ∧ ok tr).
Proof. apply news_receiver_shows; [done|]. intros a [= <-]. by exists 80. Defined.

(** * Failing and flooding systems *)

Definition flooding_os : OS := {|
  os_reply _ c :=
    match c with
    | Fgets _ _ => answer 1 [104; 105; newline]
    | _ => answer 30 (replicate 30 120)
    end;
  inet_addr _ := 0;
  inet_aton _ := None;
  inet_ntoa _ := []
|}.

Lemma echo_loop_read_error_undefined_witness :
  echo_loop (H := failing_os) 5 4 (uninit 1024) 1024 [] = Undef.
Proof. by apply (echo_loop_read_error_undefined (H := failing_os) 4). Defined.

Lemma read_routine_overflow_witness :
  read_routine (H := flooding_os) 5 3 (uninit 30) [] = Undef.
Proof. by apply (read_routine_overflow (H := flooding_os) 4). Defined.

Lemma uecho_client_overflow_witness :
  uecho_client_turn (H := flooding_os) 3 (Addr AF_INET 0 0 (Some 0))
    (uninit 30, Len 16) [] = Undef.
Proof.
  apply (uecho_client_overflow (H := flooding_os) 3 _ (uninit 30) (Len 16) [104; 105; newline]);
    [done|by set_solver|simpl; lia|done|done|done|done].
Defined.

(** * The calculator *)

Lemma calculate_all_folds_witness :
  calculate_all (S:=trace) 5 3 (Some <$> [100; 7; 2]) 47 [] = Done 7 [].
Proof. apply (calculate_all_folds 5 100 [7; 2] 47 []). simpl; lia. Defined.

Lemma get_num_reads_witness :
  wp (get_num 5 ((Some <$> [] ++ ascii_digits [4; 2]) ++ Some 32 :: []) (Z.of_nat 0)) []
    (λ '(num, ptr) _, num = 42 ∧ ptr = 3).
Proof.
  apply (get_num_reads 5 [] [4; 2] [] []).
  - constructor; [lia|]. constructor; [lia|constructor].
  - vm_compute. done.
  - simpl. lia.
Defined.

Lemma calc_reverses_numbers_witness :
  wp (str ← int2string_client 11 12 (uninit 1024); get_num 11 str 0) []
    (λ '(num, _) _, num = 21).
Proof.
  apply (calc_reverses_numbers 12 (uninit 1024) []); [vm_compute; done|vm_compute; done|].
  vm_compute. done.
Defined.
