(* ===== verification/VideoLog.v ===== *)
(** The log of src/videoedit/src/xlog: the configuration file ([XConfig]), the
    filter and the format of lines ([Logger], [XLogFormat]) and how
    [LogFactory] sets them up. Strings are lists of bytes. A configuration
    that is printed is read back. *)
From stdpp Require Import gmap list pretty.
From coqutil Require Import Datatypes.RecordSetters.
From S2P Require Import Prelude HttpModel HttpResponse.
Export RecordSetters.DoubleBraceUpdate.
#[global] Open Scope Z_scope.

(** [getline] on the rest of a stream: the line, and what follows it; [None]
    when the end was met. *)
Fixpoint getline (s : list Z) : list Z * option (list Z) :=
  match s with
  | [] => ([], None)
  | c :: s => if c =? LF then ([], Some s) else let '(line, rest) := getline s in (c :: line, rest)
  end.

(** * Configuration *)

Definition XConfig : Type := gmap (list Z) (list Z).

(** [find], [substr(0, pos)] and [substr(pos + 1)]: when there is no ['='],
    [pos] is [npos], which is not 0, and [npos + 1] is 0. *)
Fixpoint find_char (c : Z) (s : list Z) : option nat :=
  match s with [] => None | d :: s => if d =? c then Some 0%nat else S <$> find_char c s end.
Definition EQUALS : Z := 61.
Definition read_line (line : list Z) (config : XConfig) : XConfig :=
  match line with
  | [] => config
  | _ =>
      match find_char EQUALS line with
      | Some O => config
      | Some pos => <[take pos line:=drop (S pos) line]> config
      | None => <[line:=line]> config
      end
  end.
Definition NULL_KEY : list Z := bytes "null".
(** [XConfig::Read] of a file that has the content [file], if it can be opened. *)
Definition Read (fuel : nat) (file : option (list Z)) : M XConfig bool :=
  match file with
  | None => ret false
  | Some content =>
      loop fuel (λ rest,
        let '(line, next) := getline rest in
        modify (read_line line);;
        match next with Some rest => ret (inl rest) | None => ret (inr tt) end) content;;
      modify (insert NULL_KEY []);; ret true
  end.
(** [XConfig::Get]: [config_["null"]] is created when it is not there. *)
Definition Get (key : list Z) : M XConfig (list Z) :=
  config ← gets id;
  match config !! key with
  | Some v => ret v
  | None =>
      match config !! NULL_KEY with
      | Some v => ret v
      | None => modify (insert NULL_KEY []);; ret []
      end
  end.

(** * The logger *)

Inductive LogLevel := DEBUG | INFO | ERROR | FATAL.
#[export] Instance LogLevel_eq_dec : EqDecision LogLevel.
Proof. solve_decision. Defined.
Definition rank (l : LogLevel) : Z := match l with DEBUG => 0 | INFO => 1 | ERROR => 2 | FATAL => 3 end.
Inductive LogOutput := LogConsoleOutput | LogFileOutput (name : list Z).

(** A logger, and the lines that were put out. *)
Record Logger := LoggerObject {
  has_format : bool;
  log_output_ : option LogOutput;
  loglevel_ : LogLevel;
  put_out : list (LogOutput * list Z)
}.
Definition Logger_new : Logger := LoggerObject false None DEBUG [].

(** [XLogFormat::Format]; [now] is what [GetNow] returns. *)
Definition Format (now level log file : list Z) (line : Z) : list Z :=
  now ++ [SP] ++ level ++ [SP] ++ log ++ [SP] ++ file ++ bytes ": " ++ decimal line.
Definition level_name (l : LogLevel) : list Z :=
  match l with INFO => bytes "info" | ERROR => bytes "error" | FATAL => bytes "fatal" | DEBUG => bytes "debug" end.
(** [Logger::Write]: undefined through a null [log_format_] or [log_output_]. *)
Definition Write (now : list Z) (level : LogLevel) (log file : list Z) (line : Z) : M Logger unit :=
  least ← gets loglevel_;
  if rank level <? rank least then ret tt else
  f ← gets has_format;
  if negb f then undef else
  out ← gets log_output_; out ← need out;
  modify (λ l, l{{put_out := put_out l ++ [(out, Format now (level_name level) log file line ++ [LF])] }}).

(** [LogFactory::init]: [file] is the configuration file, [can_open] says which
    logs can be opened. For a name that is no level the variable [level] has no
    value when it is used. *)
Definition level_of (name : list Z) : option LogLevel :=
  if bool_decide (name = bytes "debug") then Some DEBUG
  else if bool_decide (name = bytes "info") then Some DEBUG
  else if bool_decide (name = bytes "error") then Some ERROR
  else if bool_decide (name = bytes "fatal") then Some FATAL
  else None.
(** A value that is set in the configuration, or the default. *)
Definition setting (config : option XConfig) (key default : list Z) : M Logger (list Z) :=
  match config with
  | None => ret default
  | Some c =>
      match Get key c with
      | Done v _ => ret (if bool_decide (v = []) then default else v)
      | _ => undef
      end
  end.
Definition set_level (name : list Z) : M Logger unit :=
  level ← need (level_of name); modify (λ l, l{{loglevel_ := level}}).
Definition init (fuel : nat) (file : option (list Z)) (can_open : list Z → bool) : M Logger unit :=
  modify (λ l, l{{has_format := true}});;
  config ← (match Read fuel file ∅ with
            | Done true c => ret (Some c)
            | Done false _ => ret None
            | OutOfFuel _ => (λ l, OutOfFuel l)
            | _ => undef
            end);
  log_type ← setting config (bytes "log_type") (bytes "console");
  log_file ← setting config (bytes "log_file") (bytes "log.txt");
  log_level ← setting config (bytes "log_level") (bytes "debug");
  if bool_decide (log_type = bytes "console") then
    modify (λ l, l{{log_output_ := Some LogConsoleOutput}});; set_level log_level
  else if can_open log_file then
    modify (λ l, l{{log_output_ := Some (LogFileOutput log_file)}});; set_level log_level
  else ret tt.

(** A setting, and the file that holds some. *)
Definition setting_line (kv : list Z * list Z) : list Z := kv.1 ++ EQUALS :: kv.2 ++ [LF].
Definition config_file (kvs : list (list Z * list Z)) : list Z := concat (setting_line <$> kvs).
Definition plain_setting (kv : list Z * list Z) : Prop :=
  kv.1 ≠ [] ∧ EQUALS ∉ kv.1 ∧ LF ∉ kv.1 ∧ LF ∉ kv.2.
(** The value that was set last. *)
Fixpoint last_value (key : list Z) (kvs : list (list Z * list Z)) (old : list Z) : list Z :=
  match kvs with
  | [] => old
  | (k, v) :: kvs => last_value key kvs (if decide (k = key) then v else old)
  end.

Lemma getline_line line rest : LF ∉ line → getline (line ++ LF :: rest) = (line, Some rest).
Proof.
  induction line as [|c line IH]; simpl; [done|]. intros [Hc Hl]%not_elem_of_cons.
  rewrite (proj2 (Z.eqb_neq _ _)) by done. by rewrite IH.
Qed.
Lemma find_char_first c s rest : c ∉ s → find_char c (s ++ c :: rest) = Some (length s).
Proof.
  induction s as [|d s IH]; simpl; [by rewrite Z.eqb_refl|]. intros [Hc Hs]%not_elem_of_cons.
  rewrite (proj2 (Z.eqb_neq _ _)) by done. by rewrite IH.
Qed.
Lemma read_setting kv config :
  plain_setting kv → read_line (kv.1 ++ EQUALS :: kv.2) config = <[kv.1:=kv.2]> config.
Proof.
  destruct kv as [k v]. simpl. intros (Hk & He & _ & _). unfold read_line. simpl in *.
  destruct (k ++ EQUALS :: v) eqn:Hl; [by destruct k|]. rewrite <- Hl, find_char_first by done.
  destruct k as [|c k]; [done|]. cbn [length]. rewrite take_app_length', drop_app_ge by (simpl; lia).
  by replace (S _ - _)%nat with 1%nat by (simpl; lia).
Qed.

Lemma config_file_cons k v kvs : config_file ((k, v) :: kvs) = (k ++ EQUALS :: v) ++ LF :: config_file kvs.
Proof. unfold config_file, setting_line. simpl. by rewrite <- !app_assoc; simpl; rewrite <- !app_assoc. Qed.

Lemma Get_null (key : list Z) (config : gmap (list Z) (list Z)) :
  config !! NULL_KEY = Some [] → Get key config = Done (default [] (config !! key)) config.
Proof. unfold Get, XConfig, bind, gets, id, ret. intros Hn. destruct (config !! key); [done|]. by rewrite Hn. Qed.

(** [XConfig::Read] reads back the settings that were printed to a file,
    one to a line: every key but ["null"], the one [Get] uses itself, has the
    value that was set last, and [Get] returns the empty string for a key that
    was not set. *)
Theorem XConfig_reads_back fuel kvs :
  Forall plain_setting kvs → (length kvs < fuel)%nat →
  wp (Read fuel (Some (config_file kvs))) ∅ (λ result config, result = true ∧
    ∀ key, key ≠ NULL_KEY → Get key config = Done (last_value key kvs []) config).
Proof.
  intros Hkvs Hfuel. unfold Read. apply wp_bind.
  apply (wp_mono _ _ (λ _ config, ∀ key, default [] (config !! key) = last_value key kvs [])).
  - enough (∀ (config : XConfig) old, (∀ key, default [] (config !! key) = old key) →
      wp (loop fuel (λ rest, let '(line, next) := getline rest in modify (read_line line);;
        match next with Some rest => ret (inl rest) | None => ret (inr tt) end) (config_file kvs)) config
      (λ _ config, ∀ key, default [] (config !! key) = last_value key kvs (old key))) as Hloop.
    { by apply (Hloop ∅ (λ _, [])). }
    revert fuel Hfuel. induction Hkvs as [|[k v] kvs Hkv Hkvs IH]; intros [|fuel] Hfuel config old Hold; try (simpl in *; lia).
    + simpl. apply wp_bind, wp_bind, wp_modify, wp_ret, wp_ret. by destruct fuel.
    + rewrite config_file_cons. cbn [loop].
      rewrite getline_line by (destruct Hkv as (_ & _ & ? & ?); simpl in *; rewrite not_elem_of_app, not_elem_of_cons; done).
      apply wp_bind, wp_bind, wp_modify, wp_ret.
      rewrite (read_setting (k, v)) by done. eapply wp_mono; [apply (IH fuel ltac:(simpl in *; lia) _ (λ key, if decide (k = key) then v else old key))|done].
      intros key. cbn [fst snd]. unfold XConfig in *. destruct (decide (k = key)) as [->|Hne]; [by rewrite lookup_insert_eq|].
      by rewrite lookup_insert_ne.
  - intros _ config Hc. apply wp_bind, wp_modify, wp_ret. split; [done|]. intros key Hkey.
    unfold XConfig in *. rewrite <- (Hc key), Get_null by apply lookup_insert_eq.
    by rewrite lookup_insert_ne.
Qed.
