(* ===== verification/VideoTask.v ===== *)
(** The tasks of src/videoedit/src: the command line of ffmpeg ([FFTask], xtask),
    the thread that runs it and reads its output ([XExec], xexec), the progress
    that is read from the output, and [XVideoInput::RunTask] (xinput), which
    waits for the thread. *)
From stdpp Require Import gmap list pretty.
From coqutil Require Import Datatypes.RecordSetters.
From S2P Require Import Prelude HttpModel HttpResponse VideoLog.
#[global] Open Scope Z_scope.

(** * Strings; [None] is an exception *)

Fixpoint starts_with (pat s : list Z) : bool :=
  match pat, s with
  | [], _ => true
  | p :: pat, c :: s => (p =? c) && starts_with pat s
  | _ :: _, [] => false
  end.
(** [s.find(pat)] *)
Fixpoint find_str (pat s : list Z) : option nat :=
  if starts_with pat s then Some 0%nat
  else match s with [] => None | _ :: s => S <$> find_str pat s end.
(** [s.substr(pos, n)] *)
Definition substr (s : list Z) (pos n : nat) : option (list Z) :=
  if (pos <=? length s)%nat then Some (take n (drop pos s)) else None.
Definition is_space (c : Z) : bool := (c =? 32) || ((9 <=? c) && (c <=? 13)).
Definition is_digit (c : Z) : bool := (48 <=? c) && (c <=? 57).
Fixpoint digits (acc : Z) (s : list Z) : Z :=
  match s with
  | c :: s => if is_digit c then digits (acc * 10 + (c - 48)) s else acc
  | [] => acc
  end.
Fixpoint skip_space (s : list Z) : list Z :=
  match s with c :: s' => if is_space c then skip_space s' else s | [] => [] end.
(** [stoi]: it needs a digit, and a value of [int]. *)
Definition digits_of (s : list Z) : option Z :=
  match s with c :: _ => if is_digit c then Some (digits 0 s) else None | [] => None end.
Definition stoi (s : list Z) : option Z :=
  match (match skip_space s with
         | 45 :: s => Z.opp <$> digits_of s
         | 43 :: s => digits_of s
         | s => digits_of s
         end) with
  | Some z => if is_int z then Some z else None
  | None => None
  end.

(** * The task *)

Record Data := TaskData {
  task_type : list Z;
  src : list Z;
  des : list Z;
  begin_seconds : list Z;
  end_seconds : list Z;
  secret_key : list Z;
  is_encrypt : bool
}.
Definition no_data : Data := TaskData [] [] [] [] [] [] true.

Definition TimeToSeconds (s : list Z) : option Z :=
  match substr s 0 2 ≫= stoi, substr s 3 2 ≫= stoi, substr s 6 2 ≫= stoi with
  | Some hour, Some minute, Some seconds => Some (hour * 3600 + minute * 60 + seconds)
  | _, _, _ => None
  end.

Definition DEFAULTKEY : list Z := bytes "1234567890abcdef1234567890abcdef".
(** [for (i...) default_key[i] = data.secret_key[i];] *)
Fixpoint overlay (default key : list Z) : list Z :=
  match default, key with
  | _ :: default, k :: key => k :: overlay default key
  | _, _ => default
  end.

(** The parts of the command that [FFTask::Start] makes. *)
Definition begin_text (d : Data) : list Z :=
  if bool_decide (begin_seconds d = []) then [] else bytes " -ss " ++ begin_seconds d.
Definition segment_text (segment_seconds : Z) : list Z :=
  if segment_seconds >? 0 then bytes " -t " ++ decimal segment_seconds else [].
Definition key_text (d : Data) : list Z :=
  if bool_decide (secret_key d = []) then [] else
  let default_key := overlay DEFAULTKEY (secret_key d) in
  if is_encrypt d then
    bytes " -encryption_scheme cenc-aes-ctr -encryption_kid abcdef0123456789abcdef0123456789" ++
    bytes " -encryption_key " ++ default_key ++ bytes " -c:v libx264 -c:a aac"
  else bytes " -decryption_key " ++ default_key ++ bytes " -c copy".
Definition command (d : Data) (segment : list Z) : list Z :=
  (if bool_decide (task_type d = bytes "play") then bytes "ffplay" else bytes "ffmpeg -y") ++
  bytes " -i " ++ src d ++ begin_text d ++ segment ++ key_text d ++
  (if bool_decide (task_type d = bytes "cv") then [SP] ++ des d else []).

(** What the callback does with a line of output: [total_seconds_] and
    [progress_] before and after. *)
Definition on_output (s : list Z) (tp : Z * Z) : option (Z * Z) :=
  let '(total, progress) := tp in
  match (if total <=? 0 then find_str (bytes "Duration: ") s else None) with
  | Some pos => (λ t, (t, progress)) <$> (substr s (pos + 10) 8 ≫= TimeToSeconds)
  | None =>
      match find_str (bytes "time=") s with
      | Some pos =>
          (λ t, (total, if total >? 0 then Z.quot (100 * t) total else progress)) <$>
          (substr s (pos + 5) 8 ≫= TimeToSeconds)
      | None => Some tp
      end
  end.

(** * The thread that runs the command *)

(** [RunCommand]: before [popen]; reading, with what is left of the output and
    the line read so far; before [running_ = false]; at the end. *)
Inductive worker := NoThread | Opening (cmd : list Z) | Reading (rest result : list Z) | Stopping | Finished.

(** What the program asks of the system, as a function of what it asked before
    ([None] is an exception, or a failure of [popen]); and how many steps the
    thread makes between two looks of the main thread. *)
Inductive request := Popen (cmd : list Z) | CreateDirectory (path : list Z).
Record entry := DirectoryEntry {
  e_directory : bool;
  e_regular : bool;
  e_filename : list Z;
  e_path : list Z;
  e_extension : list Z
}.
Class Shell := {
  shell_output : list request → list Z → option (list Z);
  is_directory : list request → list Z → option bool;
  create_directory : list request → list Z → option bool;
  directory_entries : list request → list Z → option (list entry);
  turns : nat → nat
}.

Record Video := VideoState {
  v_running : bool;
  v_worker : worker;
  v_total : Z;
  v_progress : Z;
  v_calls : list request;
  v_shown : list Z;
  v_clock : nat
}.
Abbreviation VM := (M Video).
(** An exception that nobody catches. *)
Definition terminate {X A} : M X A := exit 134.
Definition throws {X A} (o : option A) : M X A := match o with Some a => ret a | None => terminate end.

(** [RunCommand] reads the output of the command; [line_read] is what it does
    with a line: [func(line)], or [outputs_.push(line)] when [func] is null.
    [char c = fgetc(...)]: the byte 255 is taken for [EOF]. *)
Section reading.
Context {X : Type} (go : worker → M X unit) (line_read : list Z → M X unit).
Definition finish_output (result : list Z) : M X unit :=
  (if bool_decide (result = []) then ret tt else line_read result);; go Stopping.
Definition read_char (rest result : list Z) : M X unit :=
  match rest with
  | [] => finish_output result
  | c :: rest =>
      if c =? 255 then finish_output result else
      let result := result ++ [c] in
      if (c =? LF) || (c =? CR) then line_read result;; go (Reading rest [])
      else go (Reading rest result)
  end.
End reading.

Section code.
Context `{Shell}.

Definition set_worker (w : worker) : VM unit := modify (λ v, v{{v_worker := w}}).
(** [func(result)] *)
Definition callback (line : list Z) : VM unit :=
  t ← gets v_total; p ← gets v_progress; tp ← throws (on_output line (t, p));
  modify (λ v, v{{v_total := tp.1}}{{v_progress := tp.2}}).

Definition worker_step : VM unit :=
  w ← gets v_worker;
  match w with
  | NoThread | Finished => ret tt
  | Opening cmd =>
      h ← gets v_calls; modify (λ v, v{{v_calls := h ++ [Popen cmd] }});;
      out ← throws (shell_output h cmd); set_worker (Reading out [])
  | Reading rest result => read_char set_worker callback rest result
  | Stopping => modify (λ v, v{{v_running := false}});; set_worker Finished
  end.
Fixpoint worker_steps (n : nat) : VM unit :=
  match n with O => ret tt | S n => worker_step;; worker_steps n end.
(** Time passes. *)
Definition yield : VM unit :=
  n ← gets v_clock; modify (λ v, v{{v_clock := S n}});; worker_steps (turns n).

(** [XExec::Start]: assigning to a thread that has not been joined terminates
    the program. *)
Definition XExec_Start (cmd : list Z) : VM unit :=
  w ← gets v_worker;
  match w with
  | NoThread =>
      set_worker (Opening (cmd ++ bytes " 2>&1"));; yield;; modify (λ v, v{{v_running := true}})
  | _ => terminate
  end.
Definition Running : VM bool := yield;; gets v_running.
(** [join] *)
Definition XExec_Stop (fuel : nat) : VM unit :=
  w ← gets v_worker;
  match w with
  | NoThread => ret tt
  | _ =>
      loop fuel (λ _ : unit,
        w ← gets v_worker;
        match w with Finished => ret (inr tt) | _ => worker_step;; ret (inl tt) end) tt;;
      set_worker NoThread
  end.

(** [FFTask] *)
Definition cut_text (d : Data) : VM (list Z) :=
  if bool_decide (end_seconds d = []) then ret [] else
  e ← throws (stoi (end_seconds d)); b ← throws (stoi (begin_seconds d));
  segment_seconds ← int (e - b); ret (segment_text segment_seconds).
Definition FFTask_Start (d : Data) : VM bool :=
  segment ← cut_text d; XExec_Start (command d segment);; ret true.
(** [progress_] and [total_seconds_] are plain [int]s which the worker writes
    while the main thread reads them here: a data race, undefined by the
    standard. The model takes such a read for an atomic one, which gives the
    value of the last store before it. *)
Definition Progress : VM Z := yield;; gets v_progress.

(** [XVideoInput::RunTask]; a turn of each of its loops, [pre] being the
    progress shown last. *)
Definition wait_running (_ : unit) : VM (unit + unit) :=
  r ← Running; if r : bool then ret (inr tt) else ret (inl tt).
Definition show_progress (pre : Z) : VM (Z + unit) :=
  r ← Running;
  if negb r then ret (inr tt) else
  cur ← Progress;
  if cur =? pre then ret (inl pre) else
  p ← Progress; modify (λ v, v{{v_shown := v_shown v ++ [p] }});; ret (inl cur).
Definition RunTask (fuel : nat) (d : Data) : VM unit :=
  FFTask_Start d;;
  loop fuel wait_running tt;;
  loop fuel show_progress (-1);;
  modify (λ v, v{{v_shown := v_shown v ++ [100] }});;
  XExec_Stop fuel.
End code.
