(* ===== verification/VideoTaskProps.v ===== *)
(** The task of src/videoedit: what the thread hears of a command, and when
    [RunTask] comes back. *)
From stdpp Require Import gmap list.
From coqutil Require Import Datatypes.RecordSetters.
From S2P Require Import Prelude HttpModel HttpResponse VideoLog VideoTask.
#[global] Open Scope Z_scope.

(** * The reference: the pieces of the output *)

(** The output up to the first byte 255. *)
Fixpoint heard (out : list Z) : list Z :=
  match out with [] => [] | c :: out => if c =? 255 then [] else c :: heard out end.
(** It is cut behind every line feed and every carriage return; [piece] is the
    piece that was begun. *)
Fixpoint pieces (piece out : list Z) : list (list Z) :=
  match out with
  | [] => match piece with [] => [] | _ => [piece] end
  | c :: out =>
      if (c =? LF) || (c =? CR) then (piece ++ [c]) :: pieces [] out else pieces (piece ++ [c]) out
  end.
(** What [total_seconds_] and [progress_] are after some pieces. *)
Fixpoint after_pieces (ps : list (list Z)) (tp : Z * Z) : option (Z * Z) :=
  match ps with [] => Some tp | s :: ps => on_output s tp ≫= after_pieces ps end.

Lemma after_pieces_app ps qs tp :
  after_pieces (ps ++ qs) tp = after_pieces ps tp ≫= after_pieces qs.
Proof.
  revert tp. induction ps as [|s ps IH]; intros tp; simpl; [done|].
  destruct (on_output s tp); simpl; [apply IH|done].
Qed.

#[local] Arguments on_output : simpl never.

Section proofs.
Context `{Shell}.

(** A run of a command: what was asked before, the command, its output and
    the progress it starts with. *)
Section run.
Context (h : list request) (cmd out : list Z) (tp : Z * Z).
Hypothesis Hout : shell_output h cmd = Some out.
Hypothesis Htp : is_Some (after_pieces (pieces [] (heard out)) tp).

(** The steps that are left to a thread, and the pieces it has not seen. *)
Definition left (w : worker) : nat :=
  match w with
  | NoThread | Finished => 0
  | Stopping => 1
  | Reading rest _ => length (heard rest) + 2
  | Opening _ => length (heard out) + 3
  end.
Definition unheard (w : worker) : list (list Z) :=
  match w with
  | Opening _ => pieces [] (heard out)
  | Reading rest result => pieces result (heard rest)
  | _ => []
  end.
Definition asked (w : worker) : list request :=
  match w with Opening _ => h | _ => h ++ [Popen cmd] end.
(** The pieces that were heard make the progress what it is. *)
Definition reached (t p : Z) : Prop := ∃ ps qs, pieces [] (heard out) = ps ++ qs ∧ after_pieces ps tp = Some (t, p).
Definition runs (v : Video) : Prop :=
  v_worker v ≠ NoThread ∧ v_calls v = asked (v_worker v) ∧
  (∀ c, v_worker v = Opening c → c = cmd) ∧
  ∃ ps, pieces [] (heard out) = ps ++ unheard (v_worker v) ∧
    after_pieces ps tp = Some (v_total v, v_progress v).

Lemma runs_reached v : runs v → reached (v_total v) (v_progress v).
Proof. intros (_ & _ & _ & ps & ? & ?). by exists ps, (unheard (v_worker v)). Qed.
Lemma runs_end v : runs v → left (v_worker v) = 0%nat → v_worker v = Finished ∧
  v_calls v = h ++ [Popen cmd] ∧ after_pieces (pieces [] (heard out)) tp = Some (v_total v, v_progress v).
Proof.
  intros (Hw & Hc & _ & ps & Hps & Htot) Hl. destruct (v_worker v); simpl in *; try lia; try done.
  rewrite app_nil_r in Hps. by subst.
Qed.

(** The next piece is heard: the callback does not throw. *)
Lemma callback_hears ps s qs v :
  pieces [] (heard out) = ps ++ s :: qs → after_pieces ps tp = Some (v_total v, v_progress v) →
  wp (callback s) v (λ _ v', ∃ t p, v' = v{{v_total := t}}{{v_progress := p}} ∧
    after_pieces (ps ++ [s]) tp = Some (t, p)).
Proof.
  intros Hps Ha. destruct Htp as [r Hr]. rewrite Hps, after_pieces_app, Ha in Hr. simpl in Hr.
  destruct (on_output s (v_total v, v_progress v)) as [[t p]|] eqn:Ho; [|done].
  unfold callback. do 2 (apply wp_bind, wp_gets). rewrite Ho. simpl.
  apply wp_bind, wp_ret, wp_modify. exists t, p. split; [done|].
  rewrite after_pieces_app, Ha. simpl. by rewrite Ho.
Qed.

(** What [n] steps of the thread change. *)
Definition later (n : nat) (v v' : Video) : Prop :=
  runs v' ∧ left (v_worker v') = (left (v_worker v) - n)%nat ∧
  v_running v' = (if (1 <=? left (v_worker v))%nat && (left (v_worker v) <=? n)%nat then false else v_running v) ∧
  v_shown v' = v_shown v ∧ v_clock v' = v_clock v.

Lemma finish_output_runs rest result v :
  runs v → v_worker v = Reading rest result → heard rest = [] →
  wp (finish_output set_worker callback result) v (λ _ v', later 1 v v').
Proof.
  intros (Hw & Hc & Hcmd & ps & Hps & Ha) Hwk Hrest. rewrite Hwk in *. simpl in *. rewrite Hrest in *.
  unfold finish_output. case_bool_decide as Hr; apply wp_bind.
  - subst result. apply wp_ret, wp_modify. unfold later, runs. simpl. rewrite Hwk. simpl. rewrite Hrest. simpl.
    split_and!; try done. exists ps. done.
  - destruct result as [|c result]; [done|]. simpl in Hps.
    eapply wp_mono; [by eapply callback_hears|]. intros _ ? (t & p & -> & Ha').
    apply wp_modify. unfold later, runs. simpl. rewrite Hwk. simpl. rewrite Hrest. simpl.
    split_and!; try done. exists (ps ++ [c :: result]). by rewrite app_nil_r.
Qed.
Lemma read_char_runs rest result v :
  runs v → v_worker v = Reading rest result → wp (read_char set_worker callback rest result) v (λ _ v', later 1 v v').
Proof.
  intros Hv Hwk. destruct rest as [|c rest]; simpl; [by eapply finish_output_runs|].
  destruct (c =? 255) eqn:Hc255; [eapply finish_output_runs; [done..|]; simpl; by rewrite Hc255|].
  destruct Hv as (Hw & Hc & Hcmd & ps & Hps & Ha). rewrite Hwk in *. simpl in *. rewrite Hc255 in *.
  assert (∀ n : nat, (S (n + 2) - 1)%nat = (n + 2)%nat) as Hn by lia.
  simpl in Hps. destruct ((c =? LF) || (c =? CR)).
  - apply wp_bind. eapply wp_mono; [by eapply callback_hears|]. intros _ ? (t & p & -> & Ha').
    apply wp_modify. unfold later, runs. simpl. rewrite Hwk. simpl. rewrite Hc255. simpl.
    split_and!; try done; [|lia|by destruct (length _)].
    exists (ps ++ [result ++ [c]]). by rewrite <- app_assoc.
  - apply wp_modify. unfold later, runs. simpl. rewrite Hwk. simpl. rewrite Hc255. simpl.
    split_and!; try done; [|lia|by destruct (length _)]. by exists ps.
Qed.
Lemma worker_step_runs v : runs v → wp worker_step v (λ _ v', later 1 v v').
Proof.
  intros Hv. unfold worker_step. apply wp_bind, wp_gets. destruct (v_worker v) as [|c|rest result| |] eqn:Hwk.
  - by destruct Hv.
  - destruct Hv as (Hw & Hc & Hcmd & ps & Hps & Ha). rewrite Hwk in *. simpl in *.
    specialize (Hcmd _ eq_refl) as ->. apply wp_bind, wp_gets, wp_bind, wp_modify.
    rewrite Hc, Hout. simpl. apply wp_bind, wp_ret, wp_modify. unfold later, runs. simpl. rewrite Hwk. simpl.
    split_and!; try done; [by exists ps|lia|by rewrite (proj2 (Nat.leb_gt _ 1)), andb_false_r by lia].
  - by eapply read_char_runs.
  - destruct Hv as (Hw & Hc & Hcmd & ps & Hps & Ha). rewrite Hwk in *. simpl in *.
    apply wp_bind, wp_modify, wp_modify. unfold later, runs. simpl. rewrite Hwk. simpl.
    split_and!; try done. by exists ps.
  - apply wp_ret. unfold later. rewrite Hwk. by split_and!.
Qed.
Lemma steps_flag (l n : nat) (r : bool) :
  (if (1 <=? l - 1) && (l - 1 <=? n) then false else if (1 <=? l) && (l <=? 1) then false else r)%nat =
  (if (1 <=? l) && (l <=? S n) then false else r)%nat.
Proof. by destruct l as [|[|l]]. Qed.
Lemma worker_steps_runs n v : runs v → wp (worker_steps n) v (λ _ v', later n v v').
Proof.
  revert v. induction n as [|n IH]; intros v Hv; simpl.
  - apply wp_ret. unfold later. split_and!; try done; [lia|by destruct (left _)].
  - apply wp_bind. eapply wp_mono; [by apply worker_step_runs|]. intros _ v1 (H1 & Hl1 & Hr1 & Hs1 & Hc1).
    eapply wp_mono; [by apply IH|]. intros _ v2 (H2 & Hl2 & Hr2 & Hs2 & Hc2).
    unfold later. rewrite Hl2, Hr2, Hs2, Hc2, Hl1, Hr1. split_and!; try done; [lia|].
    apply steps_flag.
Qed.
(** Time passes: [n] steps of the thread, seen from the main thread. *)
Definition passed (n : nat) (v v' : Video) : Prop :=
  runs v' ∧ left (v_worker v') = (left (v_worker v) - n)%nat ∧
  v_running v' = (if (1 <=? left (v_worker v))%nat && (left (v_worker v) <=? n)%nat then false else v_running v) ∧
  v_shown v' = v_shown v ∧ v_clock v' = S (v_clock v).
Lemma yield_runs v :
  runs v → wp yield v (λ _ v', passed (turns (v_clock v)) v v').
Proof.
  intros Hv. unfold yield. apply wp_bind, wp_gets, wp_bind, wp_modify. by apply worker_steps_runs.
Qed.

Lemma Running_runs v : runs v →
  wp Running v (λ r v', r = v_running v' ∧ passed (turns (v_clock v)) v v').
Proof.
  intros Hv. unfold Running. apply wp_bind. eapply wp_mono; [by apply yield_runs|].
  intros [] v1 Hl. apply wp_gets. exact (conj eq_refl Hl).
Qed.
Lemma Progress_runs v : runs v →
  wp Progress v (λ p v', (∃ t, reached t p) ∧ passed (turns (v_clock v)) v v').
Proof.
  intros Hv. unfold Progress. apply wp_bind. eapply wp_mono; [by apply yield_runs|].
  intros [] v' Hl. apply wp_gets. split; [|done]. destruct Hl as [Hr _]. exists (v_total v'). by apply runs_reached.
Qed.

(** Once the flag is set while the thread has steps left, it tells whether it has. *)
Definition watched (v : Video) : Prop := runs v ∧ v_running v = (1 <=? left (v_worker v))%nat.
Lemma watched_later n v v' : watched v → passed n v v' →
  watched v' ∧ v_shown v' = v_shown v ∧ left (v_worker v') = (left (v_worker v) - n)%nat.
Proof.
  intros [Hv Hf] (Hv' & Hl & Hr & Hs & Hc). split_and!; [|done..]. split; [done|].
  rewrite Hr, Hf, Hl. destruct (Nat.leb_spec 1 (left (v_worker v))), (Nat.leb_spec (left (v_worker v)) n); cbn [andb];
    symmetry; rewrite ?Nat.leb_le, ?Nat.leb_gt; lia.
Qed.

Definition progress_shown (shown : list Z) (v : Video) : Prop :=
  ∃ ps, v_shown v = shown ++ ps ∧ Forall (λ p, ∃ t, reached t p) ps.
Lemma progress_loop fuel shown pre v :
  (∀ n, (1 ≤ turns n)%nat) → watched v → progress_shown shown v → (left (v_worker v) < fuel)%nat →
  wp (loop fuel show_progress pre) v (λ _ v', watched v' ∧ left (v_worker v') = 0%nat ∧ progress_shown shown v').
Proof.
  intros Hturns Hv Hs Hfuel.
  apply (wp_loop (λ n _ v, watched v ∧ progress_shown shown v ∧ (left (v_worker v) ≤ n)%nat))
    with (n := left (v_worker v)); [clear v pre Hv Hs Hfuel|by split_and!|done].
  intros n pre v (Hv & (ps & Hs & Hps) & Hn). unfold show_progress.
  apply wp_bind. eapply wp_mono; [apply Running_runs, Hv|]. intros r v1 [-> H1].
  specialize (Hturns (v_clock v)) as Ht. apply watched_later in H1 as (Hv1 & Hs1 & Hl1); [|done].
  rewrite (proj2 Hv1). destruct (Nat.leb_spec 1 (left (v_worker v1))) as [Hle|Hle]; simpl.
  2:{ apply wp_ret. split_and!; [done|lia|]. exists ps. by rewrite Hs1. }
  apply wp_bind. eapply wp_mono; [apply Progress_runs, Hv1|]. intros cur v2 [_ H2].
  apply watched_later in H2 as (Hv2 & Hs2 & Hl2); [|done]. destruct (cur =? pre).
  { apply wp_ret. exists (pred n). split_and!; [lia|done| |lia]. exists ps. by rewrite Hs2, Hs1. }
  apply wp_bind. eapply wp_mono; [apply Progress_runs, Hv2|]. intros p v3 [Hp H3].
  apply watched_later in H3 as (Hv3 & Hs3 & Hl3); [|done].
  apply wp_bind, wp_modify, wp_ret. exists (pred n).
  split_and!; [lia| | |change (left (v_worker v3) ≤ pred n)%nat; lia].
  - destruct Hv3 as [Hv3 Hf]. by split.
  - exists (ps ++ [p]). simpl. rewrite Hs3, Hs2, Hs1, Hs, app_assoc. split; [done|].
    apply Forall_app. by split; [|apply Forall_singleton].
Qed.

(** The thread has ended: [running_] does not change any more. *)
Lemma ended_passed n v v' : runs v → left (v_worker v) = 0%nat → passed n v v' →
  runs v' ∧ left (v_worker v') = 0%nat ∧ v_running v' = v_running v.
Proof. intros Hv H0 (Hv' & Hl & Hr & _). rewrite H0 in *. by split_and!. Qed.
(** Then [RunTask] waits for ever for [running_] to be set, or to be cleared. *)
Lemma never_running fuel v :
  runs v → left (v_worker v) = 0%nat → v_running v = false →
  wpx (loop fuel wait_running tt) v (λ _ _, False) (λ _, True) (λ _ _, False).
Proof.
  intros Hv Hl Hf. apply (wpx_loop _ _ (λ _ v, runs v ∧ left (v_worker v) = 0%nat ∧ v_running v = false)); [|done].
  clear v Hv Hl Hf. intros [] v (Hv & Hl & Hf). split; [done|]. unfold wait_running.
  apply wpx_of_wp, wp_bind. eapply wp_mono; [by apply Running_runs|]. intros r v1 [-> H1].
  apply ended_passed in H1 as (Hv1 & Hl1 & Hf1); [|done..]. rewrite Hf1, Hf. apply wp_ret. by rewrite Hf1.
Qed.
Lemma always_running fuel pre v :
  runs v → left (v_worker v) = 0%nat → v_running v = true →
  wpx (loop fuel show_progress pre) v (λ _ _, False) (λ _, True) (λ _ _, False).
Proof.
  intros Hv Hl Hf. apply (wpx_loop _ _ (λ _ v, runs v ∧ left (v_worker v) = 0%nat ∧ v_running v = true)); [|done].
  clear v Hv Hl Hf pre. intros pre v (Hv & Hl & Hf). split; [done|]. unfold show_progress.
  apply wpx_of_wp, wp_bind. eapply wp_mono; [by apply Running_runs|]. intros r v1 [-> H1].
  apply ended_passed in H1 as (Hv1 & Hl1 & Hf1); [|done..]. rewrite Hf1, Hf. simpl.
  apply wp_bind. eapply wp_mono; [by apply Progress_runs|]. intros cur v2 [_ H2].
  apply ended_passed in H2 as (Hv2 & Hl2 & Hf2); [|done..].
  destruct (cur =? pre); [apply wp_ret; by rewrite Hf2, Hf1|].
  apply wp_bind. eapply wp_mono; [by apply Progress_runs|]. intros p v3 [_ H3].
  apply ended_passed in H3 as (Hv3 & Hl3 & Hf3); [|done..].
  apply wp_bind, wp_modify, wp_ret. split_and!; [|done|]; [exact Hv3|].
  change (v_running v3 = true). by rewrite Hf3, Hf2, Hf1.
Qed.
End run.

Lemma XExec_Stop_ended fuel v :
  v_worker v = Finished → XExec_Stop (S fuel) v = Done tt (v{{v_worker := NoThread}}).
Proof. destruct v. simpl. by intros ->. Qed.

(** A task that is started without a thread, and the run of its command. *)
Section task.
Context (d : Data) (v : Video) (segment out : list Z) (result : Z * Z).
Let cmd : list Z := command d segment ++ bytes " 2>&1".
Let tp : Z * Z := (v_total v, v_progress v).
Hypothesis Hworker : v_worker v = NoThread.
Hypothesis Hcut : cut_text d v = Done segment v.
Hypothesis Hout : shell_output (v_calls v) cmd = Some out.
Hypothesis Hresult : after_pieces (pieces [] (heard out)) tp = Some result.

Lemma FFTask_Start_runs :
  wp (FFTask_Start d) v (λ _ v', runs (v_calls v) cmd out tp v' ∧
    left out (v_worker v') = (length (heard out) + 3 - turns (v_clock v))%nat ∧
    v_running v' = true ∧ v_shown v' = v_shown v ∧ v_clock v' = S (v_clock v)).
Proof.
  unfold FFTask_Start. apply wp_bind. eapply wp_intro; [apply Hcut|].
  apply wp_bind. unfold XExec_Start. apply wp_bind, wp_gets. rewrite Hworker.
  apply wp_bind, wp_modify, wp_bind. eapply wp_mono.
  - apply (yield_runs (v_calls v) cmd out tp); [done|by exists result|].
    unfold runs. simpl. split_and!; [done|done|by intros ? [= <-]|by exists []].
  - intros [] v1 (H1 & Hl & _ & Hs & Hc). apply wp_modify, wp_ret. split_and!; [exact H1|exact Hl|done..].
Qed.

(** [RunTask] on a program that has no other thread comes back if the
    thread is still at work when the main thread looks at [running_] for the
    first time, whatever the two threads' speeds are afterwards. It has then run
    the command of the task once and joined the thread; the duration and the
    progress are what the pieces of the output make them, cut behind every line
    feed and carriage return up to a byte 255; and every percentage that was
    shown before the last one, 100, is one of some first pieces. *)
Lemma RunTask_comes_back fuel :
  (∀ n, (1 ≤ turns n)%nat) →
  (turns (v_clock v) + turns (S (v_clock v)) < length (heard out) + 3)%nat →
  (length (heard out) + 3 ≤ fuel)%nat →
  wp (RunTask fuel d) v (λ _ v',
    v_worker v' = NoThread ∧ v_running v' = false ∧ v_calls v' = v_calls v ++ [Popen cmd] ∧
    (v_total v', v_progress v') = result ∧
    ∃ shown, v_shown v' = v_shown v ++ shown ++ [100] ∧ Forall (λ p, ∃ t, reached out tp t p) shown).
Proof.
  intros Hturns Hlate Hfuel. assert (is_Some (after_pieces (pieces [] (heard out)) tp)) as Htp by by exists result.
  unfold RunTask. apply wp_bind. eapply wp_mono; [apply FFTask_Start_runs|].
  intros _ v1 (H1 & Hl1 & Hr1 & Hs1 & Hc1). assert (∃ f, fuel = S f) as [f Hf] by (exists (pred fuel); lia).
  apply wp_bind. rewrite Hf at 1. simpl. apply wp_bind. unfold wait_running. apply wp_bind.
  eapply wp_mono; [by eapply Running_runs|]. intros r v2 [-> H2]. rewrite Hc1 in H2.
  apply (watched_later _ _ _ _ (turns (S (v_clock v)))) in H2 as (Hv2 & Hs2 & Hl2).
  2:{ split; [done|]. rewrite Hr1. symmetry. apply Nat.leb_le. lia. }
  pose proof Hv2 as [H2 ->]. rewrite (proj2 (Nat.leb_le _ _)) by lia. apply wp_ret, wp_ret, wp_bind.
  eapply wp_mono; [eapply (progress_loop _ _ _ _ Hout Htp _ (v_shown v)); [done|done| |specialize (Hturns (v_clock v)); lia]|].
  { exists []. by rewrite Hs2, Hs1, app_nil_r. }
  intros _ v3 ([H3 Hr3] & Hl3 & ps & Hs3 & Hps). rewrite Hl3 in Hr3.
  destruct (runs_end _ _ _ _ _ H3 Hl3) as (Hw3 & Hc3 & Ht3).
  apply wp_bind, wp_modify. rewrite Hf. eapply wp_intro; [by apply XExec_Stop_ended|].
  split_and!; [done|exact Hr3|exact Hc3|by rewrite Hresult in Ht3; injection Ht3|].
  exists ps. by rewrite app_assoc, <- Hs3.
Qed.

(** [RunTask] never comes back if the thread has ended before the main
    thread looks at [running_] for the first time: [running_] is set after the
    thread was started, so that what the thread stores last is overwritten, or
    the main thread waits for a flag that was set and cleared before. *)
Lemma RunTask_waits_for_ever fuel :
  (length (heard out) + 3 ≤ turns (v_clock v) + turns (S (v_clock v)))%nat →
  ∃ v', RunTask fuel d v = OutOfFuel v'.
Proof.
  intros Hlate. assert (is_Some (after_pieces (pieces [] (heard out)) tp)) as Htp by by exists result.
  enough (wpx (RunTask fuel d) v (λ _ _, False) (λ _, True) (λ _ _, False)) as Hx.
  { unfold wpx in Hx. destruct (RunTask fuel d v); try done. by eexists. }
  unfold RunTask. apply wpx_bind, wpx_of_wp. eapply wp_mono; [apply FFTask_Start_runs|].
  intros _ v1 (H1 & Hl1 & Hr1 & Hs1 & Hc1). apply wpx_bind. destruct fuel as [|f]; [done|].
  simpl. apply wpx_bind. unfold wait_running at 1. apply wpx_bind, wpx_of_wp.
  eapply wp_mono; [by eapply Running_runs|]. intros r v2 [-> (H2 & Hl2 & Hr2 & _)].
  rewrite Hl1, Hr1, Hc1 in *.
  destruct (Nat.leb_spec 1 (length (heard out) + 3 - turns (v_clock v))) as [Hle|Hle]; simpl in Hr2.
  - rewrite (proj2 (Nat.leb_le _ _)) in Hr2 by lia. rewrite Hr2. apply wpx_ret.
    eapply wpx_conseq; [eapply never_running; [done..|lia|done]|done..].
  - rewrite Hr2. apply wpx_ret, wpx_ret, wpx_bind.
    eapply wpx_conseq; [eapply (always_running _ _ _ _ Hout Htp (S f) (-1)); [done|lia|done]|done..].
Qed.

(** C31: starting a task and waiting for it is a race. [RunTask] comes back if
    the thread is still at work when the main thread looks at [running_] for the
    first time, whatever the speeds of the two are from then on; then the command
    was run once, the thread is joined, and the duration and the progress are
    what the output says. If the thread is faster, [RunTask] never comes back:
    [running_] is set after the thread was started, so that the last store of
    the thread is overwritten or is over before the main thread has seen the flag. *)
Theorem RunTask_returns_iff fuel :
  (∀ n, (1 ≤ turns n)%nat) → (length (heard out) + 3 ≤ fuel)%nat →
  let early := (turns (v_clock v) + turns (S (v_clock v)) < length (heard out) + 3)%nat in
  (early → ∃ v', RunTask fuel d v = Done tt v' ∧ v_worker v' = NoThread ∧
    v_calls v' = v_calls v ++ [Popen cmd] ∧ (v_total v', v_progress v') = result) ∧
  (¬ early → ∀ fuel', ∃ v', RunTask fuel' d v = OutOfFuel v').
Proof.
  intros Hturns Hfuel early. split.
  - intros He. destruct (wp_elim _ _ _ (RunTask_comes_back fuel Hturns He Hfuel)) as ([] & v' & Hr & ? & _ & ? & ? & _).
    by exists v'.
  - intros Hl fuel'. apply RunTask_waits_for_ever. unfold early in Hl. lia.
Qed.
End task.
End proofs.
