(* ===== verification/VideoQueue.v ===== *)
(** The queue of lines of src/videoedit (xexec/block_queue.h, the same file as
    xlog/block_queue.h): an object shared by threads that wakes one waiting
    thread for each value. Then the thread that fills it when no callback is
    given (xexec/xexec.cpp) and the program that empties it (xexec/test.cpp). *)
From stdpp Require Import list relations.
From coqutil Require Import Datatypes.RecordSetters.
From S2P Require Import Prelude HttpModel HttpResponse Monitor VideoLog VideoTask VideoTaskProps.
#[global] Open Scope Z_scope.

(** * The queue *)

(** The calls, and what they return: the value a [pop] stores, [None] when
    [try_pop] returns false. *)
Inductive vq_call (T : Type) := Push (value : T) | TryPop | WaitAndPop | Empty.
Inductive vq_res (T : Type) := Pushed | Popped (value : option T) | IsEmpty (b : bool).
Arguments Push {T}. Arguments TryPop {T}. Arguments WaitAndPop {T}. Arguments Empty {T}.
Arguments Pushed {T}. Arguments Popped {T}. Arguments IsEmpty {T}.

(** What each call does while it holds [mutex_]; the state is [queue_]. *)
Section code.
Context {T : Type}.
Definition section : Type := M (list T) (wake * cs_end (vq_res T)).
Definition push (value : T) : section := modify (λ q, q ++ [value]);; ret (Signal, Return Pushed).
(** [value = std::move(queue_.front()); queue_.pop();] *)
Definition take_front : section :=
  q ← gets id;
  match q with
  | value :: q => modify (λ _, q);; ret (NoWake, Return (Popped (Some value)))
  | [] => undef
  end.
Definition is_empty : M (list T) bool := gets (λ q, match q with [] => true | _ => false end).
Definition try_pop : section :=
  e ← is_empty; if e : bool then ret (NoWake, Return (Popped None)) else take_front.
Definition wait_and_pop : section :=
  e ← is_empty; if e : bool then ret (NoWake, CondWait) else take_front.
Definition empty : section := e ← is_empty; ret (NoWake, Return (IsEmpty e)).

(** [wait] checks its condition again, however it came back. *)
Definition vq_cs (c : vq_call T) (w : option bool) : section :=
  match c with
  | Push value => push value
  | TryPop => try_pop
  | WaitAndPop => wait_and_pop
  | Empty => empty
  end.
End code.

Section contract.
Context {T : Type}.
Implicit Types (l : list T) (h : list (vq_call T * vq_res T)).

Definition vq_spec (c : vq_call T) l (r : vq_res T) l' : Prop :=
  match c with
  | Push value => r = Pushed ∧ l' = l ++ [value]
  | TryPop => (l = [] ∧ r = Popped None ∧ l' = []) ∨ (∃ x, l = x :: l' ∧ r = Popped (Some x))
  | WaitAndPop => ∃ x, l = x :: l' ∧ r = Popped (Some x)
  | Empty => r = IsEmpty (bool_decide (length l = 0%nat)) ∧ l' = l
  end.
Definition vq_blocked (c : vq_call T) l : Prop := c = WaitAndPop ∧ l = [].

#[export, program] Instance vq_monitor : MonitorSpec (@vq_cs T) (list T) := {|
  rep := eq;
  spec := vq_spec;
  blocked := vq_blocked;
  undefined _ _ := False;
  credit := length;
  signals := true
|}.
Next Obligation. by intros c l [_ ->]. Qed.
Next Obligation. intros c l l' [-> _] Hl%length_zero_iff_nil. by split. Qed.
Next Obligation.
  intros c w q l -> Hw. right. destruct c as [value| | |]; simpl.
  - eexists _, _, _. split; [done|]. exists (l ++ [value]). do 3 (split; [done|]).
    destruct Hw as [->|[l0 [[=] _]]]. rewrite length_app. simpl. lia.
  - destruct Hw as [->|[l0 [[=] _]]]. destruct l as [|x l]; eexists _, _, _; (split; [done|]).
    + exists []. split; [done|]. split; [by left|simpl; lia].
    + exists l. split; [done|]. split; [right; by exists x|simpl; lia].
  - destruct l as [|x l]; eexists _, _, _; (split; [done|]); [done|].
    exists l. split; [done|]. split; [by exists x|]. destruct w; simpl; lia.
  - destruct Hw as [->|[l0 [[=] _]]]. eexists _, _, _. split; [done|]. exists l.
    split; [done|]. split; [by destruct l|simpl; lia].
Qed.

(** The values that were pushed, and those that were popped, in order. *)
Definition pushed h : list T := omap (λ '(c, _), match c with Push x => Some x | _ => None end) h.
Definition popped h : list T := omap (λ '(_, r), match r with Popped o => o | _ => None end) h.

Lemma replay_fifo h l l' : replay vq_cs h l l' → l ++ pushed h = popped h ++ l'.
Proof.
  revert l. induction h as [|[c r] h IH]; intros l; simpl; [intros ->; by rewrite app_nil_r|].
  intros (l1 & Hs & Hr). specialize (IH l1 Hr). unfold pushed, popped in *. csimpl in *.
  destruct c as [value| | |]; simpl in Hs.
  - destruct Hs as [-> ->]. by rewrite <-app_assoc in IH.
  - by destruct Hs as [(-> & -> & ->)|(x & -> & ->)]; csimpl; rewrite <-IH.
  - destruct Hs as (x & -> & ->). csimpl. by rewrite <-IH.
  - by destruct Hs as [-> ->].
Qed.
End contract.

(** C28: Whatever the threads do and however their steps interleave, spurious
    wake-ups included, the queue works as a list to which one call happens after
    the other; what was popped and then what is left in the queue is what was
    pushed, in order; and although [push] wakes only one thread, none sleeps on
    for which there is a value: without further spurious wake-ups the threads
    stop after a bounded number of steps, and each has then returned from all
    its calls or waits in [wait_and_pop] of an empty queue. *)
Theorem VideoQueue_wakes_enough {T} (todos : list (list (vq_call T))) s :
  rtc (any_step vq_cs) (start [] todos) s →
  ¬ crashed vq_cs s ∧ replay vq_cs (s_hist s) [] (s_obj s) ∧
  pushed (s_hist s) = popped (s_hist s) ++ s_obj s ∧
  (∀ k s', nsteps (step vq_cs) k s s' → (k ≤ steps_left s)%nat) ∧
  ∀ s', rtc (step vq_cs) s s' → (∀ s'', ¬ step vq_cs s' s'') →
    ∀ i t, s_threads s' !! i = Some t →
      t = Thread Idle [] ∨ (∃ todo, t = Thread (Waiting WaitAndPop) todo) ∧ s_obj s' = [].
Proof.
  intros Hs. destruct (monitor_linearizable (MS:=vq_monitor) vq_cs [] [] todos s eq_refl Hs) as (l & Hl & Hh & _).
  simpl in Hl. subst l. pose proof (replay_fifo _ _ _ Hh) as Hf. simpl in Hf.
  destruct (inv_steps (MS:=vq_monitor) vq_cs [] _ _ [] (inv_start (MS:=vq_monitor) vq_cs [] [] todos eq_refl) Hs) as [l Hi].
  assert (∀ (s : sys (list T) _ _) a, inv vq_cs [] s a → ¬ crashed vq_cs s) as Hsafe.
  { intros s1 a1 Hi1 (? & ? & ? & ? & _ & [])%(crashed_undefined vq_cs _ _ _ Hi1). }
  split_and!; [by eapply Hsafe|done..|intros k s'; by eapply monitor_terminates|].
  intros s' Hs' Hstop i t Ht.
  assert (rtc (any_step vq_cs) s s') as Hany by (eapply rtc_subrel; [|done]; by left).
  destruct (inv_steps vq_cs _ _ _ _ Hi Hany) as [l' Hi'].
  destruct (monitor_final vq_cs _ _ _ _ _ Hi' (Hsafe _ _ Hi') Hstop Ht) as [->|(c & todo & -> & [-> Hb])]; [by left|].
  right. split; [by exists todo|]. pose proof (inv_rep _ _ _ _ Hi') as Hr. simpl in Hr, Hb. by rewrite Hr.
Qed.

(** * A command without a callback, and the program that shows its lines *)

Record XExec := XExecState {
  x_running : bool;
  x_worker : worker;
  x_outputs : list (list Z)
}.
(** Where [TestXExec] is: before [running_ = true] in [exec.Start(cmd)]; at
    [exec.GetOutput()]; at [exec.Running()]; in [Stop], which [~XExec] calls;
    at its end. *)
Inductive main_pc := Starting | Getting | Looking | Ending | Ended.
(** What it has shown on [cout] besides. *)
Record test := Test { t_exec : XExec; t_main : main_pc; t_shown : list (list Z) }.

Section TestXExec.
(** The output of a command; [None] when [popen] fails. *)
Context (popen : list Z → option (list Z)).

Definition x_go (w : worker) : M XExec unit := modify (λ x, x{{x_worker := w}}).
(** [outputs_.push(result)] *)
Definition push_line (line : list Z) : M XExec unit := λ x,
  match push line (x_outputs x) with
  | Done _ q => Done tt (x{{x_outputs := q}})
  | _ => Undef
  end.
(** A step of [RunCommand(cmd)]. *)
Definition RunCommand_step : M XExec unit :=
  w ← gets x_worker;
  match w with
  | NoThread | Finished => ret tt
  | Opening cmd => out ← throws (popen cmd); x_go (Reading out [])
  | Reading rest result => read_char x_go push_line rest result
  | Stopping => modify (λ x, x{{x_running := false}});; x_go Finished
  end.
Definition alive (w : worker) : Prop := w ≠ NoThread ∧ w ≠ Finished.

(** The two threads take turns in any order. A call of the queue is one step,
    since calls happen one after the other; [GetOutput] has none while the
    queue is empty. *)
Inductive test_step : test → test → Prop :=
| worker_runs x x' pc sh :
    alive (x_worker x) → RunCommand_step x = Done tt x' → test_step (Test x pc sh) (Test x' pc sh)
| main_starts x sh : test_step (Test x Starting sh) (Test (x{{x_running := true}}) Getting sh)
| main_gets x sh line q :
    wait_and_pop (x_outputs x) = Done (NoWake, Return (Popped (Some line))) q →
    test_step (Test x Getting sh) (Test (x{{x_outputs := q}}) Looking (sh ++ [line]))
| main_goes_on x sh : x_running x = true → test_step (Test x Looking sh) (Test x Getting sh)
| main_breaks x sh : x_running x = false → test_step (Test x Looking sh) (Test x Ending sh)
| main_joins x sh :
    x_worker x = Finished → test_step (Test x Ending sh) (Test (x{{x_worker := NoThread}}) Ended sh).

(** [XExec exec; exec.Start(cmd)], up to the new thread. *)
Definition test_start (cmd : list Z) : test :=
  Test (XExecState false (Opening (cmd ++ bytes " 2>&1")) []) Starting [].

(** It has ended, or it waits in [GetOutput] for a thread that has finished. *)
Definition test_ended (s : test) : Prop := t_main s = Ended.
Definition test_hangs (s : test) : Prop :=
  t_main s = Getting ∧ x_outputs (t_exec s) = [] ∧ x_worker (t_exec s) = Finished.

Context (cmd out : list Z).
Hypothesis Hout : popen (cmd ++ bytes " 2>&1") = Some out.

(** The lines, first shown, then in the queue, then still to be read. *)
Definition lines : list (list Z) := pieces [] (heard out).
Record test_inv (s : test) : Prop := {
  ti_lines : t_shown s ++ x_outputs (t_exec s) ++ unheard out (x_worker (t_exec s)) = lines;
  ti_opening c : x_worker (t_exec s) = Opening c → c = cmd ++ bytes " 2>&1";
  ti_thread : x_worker (t_exec s) = NoThread → t_main s = Ended;
  ti_shown : t_main s ∈ [Looking; Ending; Ended] → t_shown s ≠ []
}.

Lemma test_inv_start : test_inv (test_start cmd).
Proof.
  constructor; simpl; [done|by intros c [= <-]|done|]. rewrite !elem_of_cons, elem_of_nil. naive_solver.
Qed.

(** A step of the thread: the line it reads next moves into the queue. *)
Lemma finish_output_pushes x result :
  wp (finish_output x_go push_line result) x (λ _ x', x_running x' = x_running x ∧
    x_worker x' = Stopping ∧ x_outputs x' = x_outputs x ++ pieces result []).
Proof.
  unfold finish_output. case_bool_decide as Hr.
  - subst. simpl. by rewrite app_nil_r.
  - by destruct result.
Qed.
Lemma read_char_pushes x rest result :
  x_worker x = Reading rest result →
  wp (read_char x_go push_line rest result) x (λ _ x', x_running x' = x_running x ∧
    x_worker x' ≠ NoThread ∧ (∀ c, x_worker x' ≠ Opening c) ∧
    x_outputs x' ++ unheard out (x_worker x') = x_outputs x ++ pieces result (heard rest) ∧
    (left out (x_worker x') < length (heard rest) + 2)%nat).
Proof.
  intros Hx. destruct rest as [|c rest]; simpl.
  - eapply wp_mono; [apply finish_output_pushes|]. intros _ x' (-> & -> & ->). simpl.
    rewrite app_nil_r. by split_and!; [..|lia].
  - destruct (c =? 255).
    + eapply wp_mono; [apply finish_output_pushes|]. intros _ x' (-> & -> & ->). simpl.
      rewrite app_nil_r. by split_and!; [..|lia].
    + simpl. destruct ((c =? LF) || (c =? CR)); simpl.
      * unfold wp, push_line, push, x_go, bind, modify, ret. simpl. unfold constant. rewrite <-app_assoc.
        by split_and!; [..|lia].
      * unfold wp, x_go, modify. simpl. by split_and!; [..|lia].
Qed.
Lemma RunCommand_step_ok x :
  alive (x_worker x) → (∀ c, x_worker x = Opening c → c = cmd ++ bytes " 2>&1") →
  wp RunCommand_step x (λ _ x',
    x_worker x' ≠ NoThread ∧ (∀ c, x_worker x' ≠ Opening c) ∧
    x_outputs x' ++ unheard out (x_worker x') = x_outputs x ++ unheard out (x_worker x) ∧
    (left out (x_worker x') < left out (x_worker x))%nat).
Proof.
  intros [Hn Hf] Ho. unfold RunCommand_step. apply wp_bind, wp_gets.
  destruct (x_worker x) as [|c|rest result| |] eqn:Hw; [done| | | |done].
  - rewrite (Ho c eq_refl), Hout. apply wp_modify. simpl. unfold constant. by split_and!; [..|lia].
  - eapply wp_mono; [by apply read_char_pushes|]. simpl. naive_solver.
  - apply wp_bind, wp_modify, wp_modify. simpl. unfold constant. by split_and!; [..|lia].
Qed.

Definition main_left (pc : main_pc) : nat :=
  match pc with Starting => 3 | Getting => 2 | Looking => 3 | Ending => 1 | Ended => 0 end.
(** The steps that are left; a line that is to be shown costs two of them. *)
Definition test_left (s : test) : nat :=
  left out (x_worker (t_exec s)) + 2 * length (x_outputs (t_exec s) ++ unheard out (x_worker (t_exec s))) +
  main_left (t_main s).

Lemma wait_and_pop_gets (line : list Z) (l q : list (list Z)) :
  wait_and_pop l = Done (NoWake, Return (Popped (Some line))) q ↔ l = line :: q.
Proof. destruct l; [done|]. split; [by intros [= -> ->]|by intros [= -> ->]]. Qed.

Lemma test_inv_step s s' :
  test_inv s → test_step s s' → test_inv s' ∧ (test_left s' < test_left s)%nat.
Proof.
  intros [Hl Ho Ht Hsh] Hs. destruct Hs as [x x' pc sh Ha Hx|x sh|x sh line q Hq|x sh Hr|x sh Hr|x sh Hf]; simpl in *.
  - pose proof (RunCommand_step_ok x Ha Ho) as Hok. unfold wp in Hok. rewrite Hx in Hok.
    destruct Hok as (Hn & Ho' & Hout' & Hlt). unfold test_left. simpl. rewrite Hout'.
    split; [constructor; simpl|lia]; [by rewrite Hout'|by intros c ?%Ho'|done|done].
  - destruct x as [run w q]. split; [|unfold test_left; simpl; lia]. constructor; simpl in *; try done.
    + by intros Hn%Ht.
    + rewrite !elem_of_cons, elem_of_nil. naive_solver.
  - apply wait_and_pop_gets in Hq. destruct x as [run w q1]. simpl in *. subst q1.
    split; [|unfold test_left; simpl; unfold constant; lia]. constructor; simpl in *; try done.
    + by rewrite <-app_assoc.
    + by intros Hn%Ht.
    + intros _. by destruct sh.
  - split; [|unfold test_left; simpl; lia]. constructor; simpl; try done.
    + by intros Hn%Ht.
    + rewrite !elem_of_cons, elem_of_nil. naive_solver.
  - split; [|unfold test_left; simpl; lia]. constructor; simpl; try done.
    + by intros Hn%Ht.
    + intros _. apply Hsh. set_solver.
  - destruct x as [run w q]. simpl in *. subst w. split; [|unfold test_left; simpl; unfold constant; simpl; lia].
    constructor; simpl in *; try done. intros _. apply Hsh. set_solver.
Qed.

Lemma test_inv_steps n s s' :
  test_inv s → nsteps test_step n s s' → test_inv s' ∧ (n + test_left s' ≤ test_left s)%nat.
Proof.
  intros Hi Hn. revert Hi. induction Hn as [s|n s s1 s' H1 _ IH]; intros Hi; [by split|].
  destruct (test_inv_step _ _ Hi H1) as [Hi1 Hlt]. destruct (IH Hi1). split; [done|lia].
Qed.

(** A state that no step leaves. *)
Lemma test_stuck s :
  test_inv s → (∀ s', ¬ test_step s s') →
  (test_ended s ∧ ∃ j, (1 ≤ j ≤ length lines)%nat ∧ t_shown s = take j lines) ∨
  (test_hangs s ∧ t_shown s = lines).
Proof.
  intros [Hl Ho Ht Hsh] Hstop. destruct s as [x pc sh]. simpl in *.
  assert (x_worker x = NoThread ∨ x_worker x = Finished) as Hw.
  { destruct (x_worker x) eqn:Hw; [by left| | | |by right]; exfalso;
      (destruct (wp_elim _ _ _ (RunCommand_step_ok x ltac:(by split; rewrite Hw) ltac:(by rewrite Hw)))
         as ([] & x' & Hx & _); by eapply Hstop, worker_runs; [split; rewrite Hw|]). }
  assert (sh ++ x_outputs x = lines) as Hall.
  { by destruct Hw as [Hw|Hw]; rewrite Hw in Hl; simpl in Hl; rewrite app_nil_r in Hl. }
  destruct pc.
  - exfalso. by eapply Hstop, main_starts.
  - right. destruct Hw as [Hw|Hw]; [by apply Ht in Hw|]. destruct (x_outputs x) as [|line q] eqn:Hq.
    + split; [done|]. by rewrite app_nil_r in Hall.
    + exfalso. by eapply Hstop, main_gets, wait_and_pop_gets.
  - exfalso. destruct (x_running x) eqn:Hr; [by eapply Hstop, main_goes_on|by eapply Hstop, main_breaks].
  - exfalso. destruct Hw as [Hw|Hw]; [by apply Ht in Hw|by eapply Hstop, main_joins].
  - left. split; [done|]. exists (length sh). rewrite <-Hall, take_app_length, length_app.
    split; [|done]. assert (sh ≠ []) by (apply Hsh; set_solver). destruct sh; [done|simpl; lia].
Qed.

(** * Runs *)

Lemma worker_reads run rest result q pc sh :
  rtc test_step (Test (XExecState run (Reading rest result) q) pc sh)
    (Test (XExecState run Stopping (q ++ pieces result (heard rest))) pc sh).
Proof.
  assert (∀ rest result q, heard rest = [] →
    RunCommand_step (XExecState run (Reading rest result) q) =
      finish_output x_go push_line result (XExecState run (Reading rest result) q) →
    rtc test_step (Test (XExecState run (Reading rest result) q) pc sh)
      (Test (XExecState run Stopping (q ++ pieces result [])) pc sh)) as Hfinish.
  { intros rest0 result0 q0 _ Heq. apply rtc_once, worker_runs; [done|]. rewrite Heq.
    unfold finish_output. case_bool_decide as Hr; [subst; simpl; by rewrite app_nil_r|by destruct result0]. }
  revert result q. induction rest as [|c rest IH]; intros result q; [by apply Hfinish|].
  simpl. destruct (c =? 255) eqn:Hc.
  { apply Hfinish; [simpl; by rewrite Hc|]. unfold RunCommand_step, bind, gets. simpl. by rewrite Hc. }
  simpl. destruct ((c =? LF) || (c =? CR)) eqn:Hend.
  - eapply rtc_l; [apply worker_runs; [done|]|].
    { unfold RunCommand_step, bind, gets. simpl. rewrite Hc, Hend. done. }
    replace (q ++ _) with ((q ++ [result ++ [c]]) ++ pieces [] (heard rest)) by (by rewrite <-app_assoc). apply IH.
  - eapply rtc_l; [apply worker_runs; [done|]|apply IH].
    unfold RunCommand_step, bind, gets. simpl. by rewrite Hc, Hend.
Qed.

Lemma main_shows w a q sh :
  rtc test_step (Test (XExecState true w (a ++ q)) Getting sh) (Test (XExecState true w q) Getting (sh ++ a)).
Proof.
  revert sh. induction a as [|line a IH]; intros sh; simpl; [rewrite app_nil_r; apply rtc_refl|].
  eapply rtc_l; [by eapply main_gets, wait_and_pop_gets|].
  eapply rtc_l; [by apply main_goes_on|]. specialize (IH (sh ++ [line])). by rewrite <-app_assoc in IH.
Qed.

(** All lines are in the queue, [j] of them have been shown, and the thread is
    about to say that it is no longer running. *)
Lemma test_reaches j :
  rtc test_step (test_start cmd) (Test (XExecState true Stopping (drop j lines)) Getting (take j lines)).
Proof.
  eapply rtc_l; [apply main_starts|]. eapply rtc_l; [apply worker_runs; [done|]|].
  { unfold RunCommand_step, bind, gets. simpl. rewrite Hout. done. }
  transitivity (Test (XExecState true Stopping (take j lines ++ drop j lines)) Getting []).
  - rewrite take_drop. apply worker_reads.
  - apply (main_shows _ (take j lines) (drop j lines) []).
Qed.
Lemma test_can_end j :
  (1 ≤ j ≤ length lines)%nat → ∃ s, rtc test_step (test_start cmd) s ∧ test_ended s ∧ t_shown s = take j lines.
Proof.
  intros Hj. destruct j as [|j]; [lia|].
  destruct (lookup_lt_is_Some_2 lines j) as [line Hline]; [lia|].
  exists (Test (XExecState false NoThread (drop (S j) lines)) Ended (take (S j) lines)).
  split; [|done]. etransitivity; [apply (test_reaches j)|]. rewrite (drop_S _ _ _ Hline), (take_S_r _ _ _ Hline).
  eapply rtc_l; [by apply worker_runs|]. eapply rtc_l; [by eapply main_gets, wait_and_pop_gets|].
  eapply rtc_l; [by apply main_breaks|]. by apply rtc_once, main_joins.
Qed.
Lemma test_can_hang :
  ∃ s, rtc test_step (test_start cmd) s ∧ test_hangs s ∧ t_shown s = lines.
Proof.
  exists (Test (XExecState false Finished []) Getting lines). split; [|done].
  etransitivity; [apply (test_reaches (length lines))|]. rewrite drop_all, firstn_all.
  by apply rtc_once, worker_runs.
Qed.
End TestXExec.

(** C29: What the test program of the thread does with a command whose output
    has some lines: it stops after a bounded number of steps; if it ends, it
    has shown at least one line and any number of those that follow may be
    missing; or it has shown all of them and waits for ever for one more. All
    of this happens, and a command without output leaves only the last. *)
Theorem TestXExec_outcomes popen cmd out :
  popen (cmd ++ bytes " 2>&1") = Some out →
  (∀ k s, nsteps (test_step popen) k (test_start cmd) s → (k ≤ test_left out (test_start cmd))%nat) ∧
  (∀ s, rtc (test_step popen) (test_start cmd) s → (∀ s', ¬ test_step popen s s') →
    test_ended s ∧ (∃ j, (1 ≤ j ≤ length (lines out))%nat ∧ t_shown s = take j (lines out)) ∨
    test_hangs s ∧ t_shown s = lines out) ∧
  (∀ j, (1 ≤ j ≤ length (lines out))%nat →
    ∃ s, rtc (test_step popen) (test_start cmd) s ∧ test_ended s ∧ t_shown s = take j (lines out)) ∧
  ∃ s, rtc (test_step popen) (test_start cmd) s ∧ test_hangs s ∧ t_shown s = lines out ∧
    ∀ s', ¬ test_step popen s s'.
Proof.
  intros Hout. pose proof (test_inv_start cmd out) as Hi. split_and!.
  - intros k s Hk. apply (test_inv_steps _ _ _ Hout _ _ _ Hi) in Hk as [_ Hk]. lia.
  - intros s [n Hn]%rtc_nsteps Hstop. by eapply test_stuck; [|apply (test_inv_steps _ _ _ Hout _ _ _ Hi Hn)|].
  - by apply test_can_end.
  - destruct (test_can_hang _ _ _ Hout) as (s & Hs & Hh & Hsh). exists s. split_and!; [done..|].
    destruct s as [x pc sh], Hh as (Hp & Hq & Hw). simpl in *. subst pc. intros s' Hstep.
    inversion Hstep; unfold alive in *; rewrite ?wait_and_pop_gets in *; naive_solver congruence.
Qed.
