(* ===== verification/VideoInput.v ===== *)
(** The console of src/videoedit/src/xinput: [UserInput], which reads lines and
    calls the functions that are registered for their words, [XVideoInput],
    which registers the functions of the video tasks, the directories it works
    on (xdir) and the program (test/test.cpp). *)
From stdpp Require Import gmap list.
From coqutil Require Import Datatypes.RecordSetters.
From S2P Require Import Prelude HttpModel HttpResponse VideoLog VideoTask.
#[global] Open Scope Z_scope.

(** [SplitString]; [word] is the token that is being read. *)
Fixpoint split_words (word s : list Z) : list (list Z) :=
  match s with
  | [] => match word with [] => [] | _ => [word] end
  | c :: s =>
      if is_space c then match word with [] => split_words [] s | _ => word :: split_words [] s end
      else split_words (word ++ [c]) s
  end.
Definition SplitString (s : list Z) : list (list Z) := split_words [] s.

(** The program while it reads commands: [cin] (what is left of it, and whether
    it is good), [is_stop_], the [data] of the command and the task. *)
Record Console := ConsoleState {
  c_in : list Z;
  c_good : bool;
  c_stop : bool;
  c_data : Data;
  c_video : Video
}.
Abbreviation CM := (M Console).

(** [getline(cin, input)] into an empty string, and [cin >> word]. *)
Definition cin_getline : CM (list Z) :=
  good ← gets c_good;
  if negb good then ret [] else
  s ← gets c_in;
  let '(line, next) := getline s in
  match next with
  | Some rest => modify (λ c, c{{c_in := rest}});; ret line
  | None => modify (λ c, c{{c_in := [] }}{{c_good := false}});; ret line
  end.
Fixpoint span_word (s : list Z) : list Z * list Z :=
  match s with
  | [] => ([], [])
  | c :: s' => if is_space c then ([], s) else let '(w, rest) := span_word s' in (c :: w, rest)
  end.
Definition cin_word (old : list Z) : CM (list Z) :=
  good ← gets c_good;
  if negb good then ret old else
  s ← gets c_in;
  let '(word, rest) := span_word (skip_space s) in
  modify (λ c, c{{c_in := rest}}{{c_good := bool_decide (rest ≠ [])}});;
  ret (match word with [] => old | _ => word end).

(** A call on the task. *)
Definition on_video {A} (m : M Video A) : CM A := λ c,
  match m (c_video c) with
  | Done a v => Done a (c{{c_video := v}})
  | Undef => Undef
  | OutOfFuel v => OutOfFuel (c{{c_video := v}})
  | Exited n v => Exited n (c{{c_video := v}})
  end.

(** * UserInput *)

Record UserInput := UserInputObject {
  key_functions_ : gmap (list Z) (list Z → CM unit);
  task_functions_ : gmap (list Z) (CM unit)
}.
Definition UserInput_new : UserInput := UserInputObject ∅ ∅.
Definition Register (key : list Z) (func : list Z → CM unit) (u : UserInput) : UserInput :=
  UserInputObject (<[key:=func]> (key_functions_ u)) (task_functions_ u).
Definition RegisterTask (key : list Z) (func : CM unit) (u : UserInput) : UserInput :=
  UserInputObject (key_functions_ u) (<[key:=func]> (task_functions_ u)).

(** The loop over the words of a line. *)
Fixpoint call_functions (functions : gmap (list Z) (list Z → CM unit)) (vec : list (list Z)) : CM unit :=
  match vec with
  | [] => ret tt
  | key :: rest =>
      match functions !! key with
      | None => call_functions functions rest
      | Some func =>
          match rest with
          | value :: rest' =>
              match functions !! value with
              | None => func value;; call_functions functions rest'
              | Some _ => func [];; call_functions functions rest
              end
          | [] => func []
          end
      end
  end.
(** [vec[0]] of a line without words is undefined. *)
Definition run_line (u : UserInput) (init_function : CM unit) (input : list Z) : CM unit :=
  init_function;;
  let vec := SplitString input in
  call_functions (key_functions_ u) vec;;
  task_type ← need (head vec);
  match task_functions_ u !! task_type with
  | None => ret tt
  | Some task => task
  end.
Definition console_turn (u : UserInput) (init_function : CM unit) (_ : unit) : CM (unit + unit) :=
  stop ← gets c_stop;
  if stop : bool then ret (inr tt) else
  input ← cin_getline;
  if bool_decide (input = []) then ret (inl tt) else
  if bool_decide (input = bytes "exit") then
    modify (λ c, c{{c_stop := true}});; ret (inr tt) else
  run_line u init_function input;; ret (inl tt).
Definition UserInput_Start (fuel : nat) (u : UserInput) (init_function : CM unit) : CM unit :=
  loop fuel (console_turn u init_function) tt.

(** * XDir *)

Record XFile := XFileObject { name : list Z; path : list Z; ext : list Z }.
Section code.
Context `{Shell}.

Definition IsDir (p : list Z) : VM bool := h ← gets v_calls; throws (is_directory h p).
Definition CreateDir (p : list Z) : VM bool :=
  h ← gets v_calls; modify (λ v, v{{v_calls := h ++ [CreateDirectory p] }});;
  throws (create_directory h p).
Fixpoint regular_files (entries : list entry) : list XFile :=
  match entries with
  | [] => []
  | p :: entries =>
      if e_directory p then regular_files entries
      else if negb (e_regular p) then regular_files entries
      else XFileObject (e_filename p) (e_path p) (e_extension p) :: regular_files entries
  end.
Definition GetFiles (p : list Z) : VM (list XFile) :=
  h ← gets v_calls; entries ← throws (directory_entries h p); ret (regular_files entries).

(** * XVideoInput *)

Definition set_data (f : Data → Data) : CM unit := modify (λ c, c{{c_data := f (c_data c)}}).
Definition on_source (s : list Z) : CM unit := set_data (λ d, d{{src := s}}).
Definition on_target (s : list Z) : CM unit := set_data (λ d, d{{des := s}}).
Definition on_key (encrypt : bool) (s : list Z) : CM unit :=
  match s with
  | [] => old ← gets (secret_key ∘ c_data); word ← cin_word old; set_data (λ d, d{{secret_key := word}})
  | _ => set_data (λ d, d{{secret_key := s}})
  end;;
  set_data (λ d, d{{is_encrypt := encrypt}}).
Definition on_begin (s : list Z) : CM unit := set_data (λ d, d{{begin_seconds := s}}).
Definition on_end (s : list Z) : CM unit := set_data (λ d, d{{end_seconds := s}}).

Fixpoint convert_files (fuel : nat) (data : Data) (files : list XFile) : VM unit :=
  match files with
  | [] => ret tt
  | file :: files =>
      there ← IsDir (des data);
      (if there : bool then ret tt else CreateDir (des data);; ret tt);;
      RunTask fuel (data{{src := path file}}{{des := des data ++ bytes "/" ++ name file}});;
      convert_files fuel data files
  end.
Definition cv (fuel : nat) : CM unit :=
  set_data (λ d, d{{task_type := bytes "cv"}});;
  data ← gets c_data;
  on_video (
    is_dir ← IsDir (src data);
    if is_dir : bool then files ← GetFiles (src data); convert_files fuel data files
    else RunTask fuel data).
Definition play (fuel : nat) : CM unit :=
  set_data (λ d, d{{task_type := bytes "play"}});;
  data ← gets c_data;
  on_video (FFTask_Start data;; XExec_Stop fuel).

Definition video_input (fuel : nat) : UserInput :=
  RegisterTask (bytes "play") (play fuel)
    (RegisterTask (bytes "cv") (cv fuel)
      (Register (bytes "-e") on_end
        (Register (bytes "-b") on_begin
          (Register (bytes "-dp") (on_key false)
            (Register (bytes "-p") (on_key true)
              (Register (bytes "-d") on_target
                (Register (bytes "-s") on_source UserInput_new))))))).
(** [XVideoInput::Start], up to the end of [task]: deleting an [FFTask] as an
    [XTask], whose destructor is not virtual, is undefined. *)
Definition XVideoInput_Start (fuel : nat) : CM unit :=
  UserInput_Start fuel (video_input fuel) (set_data (λ _, no_data)).
End code.
