(* ===== verification/VideoInputProps.v ===== *)
(** The console of src/videoedit: a job that is printed as a line of input is
    run as the command it stands for, job by job, until "exit". *)
From stdpp Require Import gmap list pretty.
From coqutil Require Import Datatypes.RecordSetters.
From S2P Require Import Prelude HttpModel HttpResponse Decimal VideoLog VideoTask VideoTaskProps VideoInput.
#[global] Open Scope Z_scope.

(** * Numbers *)

Lemma digit_char x : (x < 10)%N → bytes (String (pretty_N_char x) "") = [48 + Z.of_N x].
Proof.
  intros Hx. assert (x = 0 ∨ x = 1 ∨ x = 2 ∨ x = 3 ∨ x = 4 ∨ x = 5 ∨ x = 6 ∨ x = 7 ∨ x = 8 ∨ x = 9)%N as H by lia.
  naive_solver.
Qed.
Lemma pretty_go_digits x s :
  digits 0 (bytes (pretty_N_go x s)) = digits (Z.of_N x) (bytes s) ∧
  (forallb is_digit (bytes s) = true → forallb is_digit (bytes (pretty_N_go x s)) = true).
Proof.
  revert s. induction (N.lt_wf_0 x) as [x _ IH]; intros s.
  destruct (decide (x = 0%N)) as [->|Hx]; [by rewrite pretty_N_go_0|].
  rewrite pretty_N_go_step by lia.
  assert (x mod 10 < 10)%N as Hm by (apply N.mod_lt; lia).
  assert (bytes (String (pretty_N_char (x mod 10)) s) = (48 + Z.of_N (x mod 10)) :: bytes s) as Hb.
  { pose proof (digit_char _ Hm) as Hd. rewrite bytes_cons in *. by injection Hd as ->. }
  destruct (IH (x `div` 10)%N ltac:(apply N.div_lt; lia) (String (pretty_N_char (x mod 10)) s)) as [-> Hall].
  rewrite Hb in *. assert (is_digit (48 + Z.of_N (x mod 10)) = true) as Hd by (clear -Hm; generalize dependent (x mod 10)%N; unfold is_digit; lia).
  split.
  - simpl. rewrite Hd. f_equal. rewrite (N.div_mod x 10) at 3 by done. lia.
  - intros Hs. apply Hall. simpl. by rewrite Hd.
Qed.
Lemma decimal_digits n :
  0 ≤ n → digits 0 (decimal n) = n ∧ forallb is_digit (decimal n) = true ∧ decimal n ≠ [].
Proof.
  intros Hn. unfold decimal, pretty, pretty_Z. destruct n as [|p|p]; [done| |lia].
  simpl. unfold pretty, pretty_positive, pretty, pretty_N. case_decide; [lia|].
  destruct (pretty_go_digits (N.pos p) "") as [Hd Hall]. split_and!; [done|by apply Hall|].
  intros He. rewrite He in Hd. simpl in Hd. lia.
Qed.
Lemma digit_not_space c : is_digit c = true → is_space c = false.
Proof. unfold is_digit, is_space. lia. Qed.
Lemma stoi_decimal n : 0 ≤ n ≤ INT_MAX → stoi (decimal n) = Some n.
Proof.
  intros Hn. destruct (decimal_digits n) as (Hd & Hall & Hne); [lia|].
  destruct (decimal n) as [|c s]; [done|]. simpl in Hall. apply andb_true_iff in Hall as [Hc Hs].
  assert (skip_space (c :: s) = c :: s) as Hsk by (simpl; by rewrite digit_not_space).
  assert (digits_of (c :: s) = Some n) as Hof by (simpl; rewrite Hc; f_equal; simpl in Hd; by rewrite Hc in Hd).
  assert (is_int n = true) as Hi by (unfold is_int, INT_MIN, INT_MAX in *; lia).
  assert (c ≠ 45 ∧ c ≠ 43) as [H45 H43] by (unfold is_digit in Hc; lia).
  unfold stoi. rewrite Hsk.
  transitivity (match digits_of (c :: s) with Some z => if is_int z then Some z else None | None => None end);
    [|by rewrite Hof, Hi].
  clear -H45 H43. destruct c as [|p|p]; try done. do 6 (destruct p as [p|p|]; try done).
Qed.

(** * Words *)

Definition keywords : list (list Z) := bytes <$> ["-s"; "-d"; "-p"; "-dp"; "-b"; "-e"]%string.
(** A word that is a value: not empty, without white space, no keyword. *)
Definition plain_word (w : list Z) : Prop :=
  w ≠ [] ∧ forallb (negb ∘ is_space) w = true ∧ w ∉ keywords.

Lemma split_words_plain w word rest :
  forallb (negb ∘ is_space) w = true → split_words word (w ++ rest) = split_words (word ++ w) rest.
Proof.
  revert word. induction w as [|c w IH]; intros word; simpl; [by rewrite app_nil_r|].
  intros [Hc Hw]%andb_true_iff. apply negb_true_iff in Hc. rewrite Hc, IH by done. by rewrite <- app_assoc.
Qed.
Definition spaceless (w : list Z) : Prop := w ≠ [] ∧ forallb (negb ∘ is_space) w = true.
(** The words of a line, with one space between them. *)
Fixpoint join_words (w : list Z) (ws : list (list Z)) : list Z :=
  match ws with [] => w | w' :: ws => w ++ SP :: join_words w' ws end.
Lemma SplitString_join w ws : spaceless w → Forall spaceless ws → SplitString (join_words w ws) = w :: ws.
Proof.
  unfold SplitString. intros Hw Hws. revert w Hw. induction Hws as [|w' ws Hw' Hws IH]; intros w [Hne Hw]; simpl.
  - rewrite <- (app_nil_r w) at 1. rewrite split_words_plain by done. by destruct w.
  - rewrite split_words_plain by done. simpl. destruct w as [|c w]; [done|]. by rewrite IH.
Qed.
Lemma join_words_newline w ws : spaceless w → Forall spaceless ws → LF ∉ join_words w ws.
Proof.
  assert (∀ w, spaceless w → LF ∉ w) as Hlf.
  { intros v [_ Hv] Hin. rewrite forallb_forall in Hv. apply list_elem_of_In, Hv in Hin. done. }
  intros Hw Hws. revert w Hw. induction Hws as [|w' ws Hw' Hws IH]; intros w Hw; simpl; [by apply Hlf|].
  rewrite not_elem_of_app, not_elem_of_cons. split_and!; [by apply Hlf|done|by apply IH].
Qed.

(** * Jobs *)

(** A file to convert: where it is, where the result goes, the seconds to cut
    from and to, and the key to encrypt ([true]) or to decrypt with. *)
Record job := Job {
  job_source : list Z;
  job_target : list Z;
  job_cut : option (Z * Z);
  job_key : option (bool * list Z)
}.
Definition job_words (j : job) : list (list Z) :=
  [bytes "-s"; job_source j; bytes "-d"; job_target j] ++
  match job_cut j with Some (b, e) => [bytes "-b"; decimal b; bytes "-e"; decimal e] | None => [] end ++
  match job_key j with Some (encrypt, k) => [bytes (if encrypt : bool then "-p" else "-dp"); k] | None => [] end.
Definition job_line (j : job) : list Z := join_words (bytes "cv") (job_words j).
Definition good_job (j : job) : Prop :=
  plain_word (job_source j) ∧ plain_word (job_target j) ∧
  (∀ b e, job_cut j = Some (b, e) → 0 ≤ b ≤ INT_MAX ∧ 0 ≤ e ≤ INT_MAX) ∧
  (∀ encrypt k, job_key j = Some (encrypt, k) → plain_word k).
(** The command it stands for. *)
Definition job_command (j : job) : list Z :=
  bytes "ffmpeg -y -i " ++ job_source j ++
  match job_cut j with
  | Some (b, e) => bytes " -ss " ++ decimal b ++ (if b <? e then bytes " -t " ++ decimal (e - b) else [])
  | None => []
  end ++
  match job_key j with
  | Some (true, k) =>
      bytes " -encryption_scheme cenc-aes-ctr -encryption_kid abcdef0123456789abcdef0123456789 -encryption_key " ++
      take 32 k ++ drop (length k) DEFAULTKEY ++ bytes " -c:v libx264 -c:a aac"
  | Some (false, k) => bytes " -decryption_key " ++ take 32 k ++ drop (length k) DEFAULTKEY ++ bytes " -c copy"
  | None => []
  end ++ [SP] ++ job_target j ++ bytes " 2>&1".

Lemma overlay_key default key : overlay default key = take (length default) key ++ drop (length key) default.
Proof.
  revert key. induction default as [|d default IH]; intros [|k key]; simpl; try done.
  by rewrite IH.
Qed.

Definition job_data (j : job) : Data := {|
  task_type := bytes "cv"; src := job_source j; des := job_target j;
  begin_seconds := match job_cut j with Some (b, _) => decimal b | None => [] end;
  end_seconds := match job_cut j with Some (_, e) => decimal e | None => [] end;
  secret_key := match job_key j with Some (_, k) => k | None => [] end;
  is_encrypt := match job_key j with Some (encrypt, _) => encrypt | None => true end
|}.
#[local] Arguments overlay : simpl never.
Lemma job_command_made `{Shell} j v : good_job j → ∃ segment,
  cut_text (job_data j) v = Done segment v ∧ command (job_data j) segment ++ bytes " 2>&1" = job_command j.
Proof.
  intros (Hs & Ht & Hcut & Hkey). destruct j as [s t cut key]. simpl in *.
  assert (∀ k, plain_word k → k ≠ []) as Hne by (by intros k []).
  exists (match cut with Some (b, e) => segment_text (e - b) | None => [] end).
  split.
  - destruct cut as [[b e]|]; [|done]. destruct (Hcut b e eq_refl) as [Hb He].
    unfold cut_text. simpl. rewrite bool_decide_false by (apply decimal_digits; lia).
    unfold bind, throws. rewrite !stoi_decimal by done. simpl. unfold int.
    assert (is_int (e - b) = true) as -> by (unfold is_int, INT_MIN, INT_MAX in *; lia). done.
  - assert (∀ b e, segment_text (e - b) = if b <? e then bytes " -t " ++ decimal (e - b) else []) as Hseg.
    { intros b e. unfold segment_text. by replace (e - b >? 0) with (b <? e) by lia. }
    unfold command, job_command, begin_text, key_text. simpl.
    destruct cut as [[b e]|], key as [[[] k]|]; simpl;
      rewrite ?overlay_key, ?Hseg, ?(bool_decide_false (decimal b = [])), ?(bool_decide_false (k = []))
        by first [by eapply Hne, Hkey|apply decimal_digits; destruct (Hcut b e eq_refl); lia];
      by repeat first [progress simpl | rewrite <- app_assoc].
Qed.

Lemma keyword_dash w : w ∈ keywords → head w = Some 45.
Proof. intros Hw. repeat (apply elem_of_cons in Hw as [->|Hw]; [done|]). by apply not_elem_of_nil in Hw. Qed.
Lemma plain_spaceless w : plain_word w → spaceless w.
Proof. by intros (? & ? & _). Qed.
Lemma decimal_word n : 0 ≤ n → plain_word (decimal n).
Proof.
  intros Hn. destruct (decimal_digits n Hn) as (_ & Hall & Hne). split_and!; [done| |].
  - rewrite forallb_forall in *. intros c Hc. simpl. by rewrite digit_not_space by auto.
  - destruct (decimal n) as [|c s]; [done|]. simpl in Hall. apply andb_true_iff in Hall as [Hc _].
    intros [= ->]%keyword_dash. done.
Qed.
Lemma job_spaceless j : good_job j → spaceless (bytes "cv") ∧ Forall spaceless (job_words j).
Proof.
  intros (Hs & Ht & Hcut & Hkey). split; [done|]. destruct j as [s t cut key].
  cbn [job_source job_target job_cut job_key] in *. unfold job_words. rewrite !Forall_app. split_and!.
  - repeat (apply Forall_cons; split); try done; by apply plain_spaceless.
  - destruct cut as [[b e]|]; [|done]. destruct (Hcut b e eq_refl) as [[Hb _] [He _]].
    repeat (apply Forall_cons; split); try done; by apply plain_spaceless, decimal_word.
  - destruct key as [[encrypt k]|]; [|done]. specialize (Hkey encrypt k eq_refl).
    repeat (apply Forall_cons; split); try done; [by destruct encrypt|by apply plain_spaceless].
Qed.

(** * The functions that are called for the words of a job *)

Section console.
Context `{Shell} (fuel : nat).
Abbreviation functions := (key_functions_ (video_input fuel)).

Lemma function_of_key :
  functions !! bytes "-s" = Some on_source ∧ functions !! bytes "-d" = Some on_target ∧
  functions !! bytes "-p" = Some (on_key true) ∧ functions !! bytes "-dp" = Some (on_key false) ∧
  functions !! bytes "-b" = Some on_begin ∧ functions !! bytes "-e" = Some on_end.
Proof. by split_and!. Qed.
Lemma no_function w : w ∉ keywords → functions !! w = None.
Proof.
  intros Hw. unfold video_input, Register, RegisterTask. simpl.
  rewrite !lookup_insert_ne; [apply lookup_empty|..]; intros <-; apply Hw; unfold keywords; simpl; set_solver.
Qed.
Lemma call_value key (func : list Z → CM unit) w rest c c' (Q : unit → Console → Prop) :
  functions !! key = Some func → plain_word w → func w c = Done tt c' →
  wp (call_functions functions rest) c' Q → wp (call_functions functions (key :: w :: rest)) c Q.
Proof.
  intros Hk (_ & _ & Hw) Hf HQ. cbn [call_functions]. rewrite Hk, (no_function w Hw).
  apply wp_bind. by eapply wp_intro.
Qed.
Lemma call_skip w rest : w ∉ keywords → call_functions functions (w :: rest) = call_functions functions rest.
Proof. intros Hw. cbn [call_functions]. by rewrite (no_function w Hw). Qed.
Lemma on_key_word encrypt w c : plain_word w →
  on_key encrypt w c = Done tt (c{{c_data := (c_data c){{secret_key := w}}{{is_encrypt := encrypt}} }}).
Proof. by destruct w as [|x w]; intros (? & _). Qed.

Lemma call_job j c :
  good_job j → c_data c = no_data →
  wp (call_functions functions (bytes "cv" :: job_words j)) c (λ _ c',
    ∃ d, c' = c{{c_data := d}} ∧ d{{task_type := bytes "cv"}} = job_data j).
Proof.
  intros (Hs & Ht & Hcut & Hkey) Hd. destruct j as [s t cut key], c as [ci cg cs cd cv].
  cbn [job_source job_target job_cut job_key c_data] in *. subst cd.
  destruct function_of_key as (Fs & Ft & Fp & Fdp & Fb & Fe).
  unfold job_words. cbn [job_source job_target job_cut job_key app].
  rewrite call_skip by (by intros ?%keyword_dash).
  eapply call_value; [exact Fs|exact Hs|reflexivity|]. eapply call_value; [exact Ft|exact Ht|reflexivity|].
  destruct cut as [[b e]|], key as [[encrypt k]|]; cbn [app].
  all: try (destruct (Hcut b e eq_refl) as [Hb He];
    eapply call_value; [exact Fb|apply decimal_word, Hb|reflexivity|];
    eapply call_value; [exact Fe|apply decimal_word, He|reflexivity|]).
  all: try (eapply call_value;
    [destruct encrypt; [exact Fp|exact Fdp]|by eapply Hkey|by apply on_key_word, (Hkey encrypt)|]).
  all: apply wp_ret; eexists; split; reflexivity.
Qed.

(** The runs a console comes through. The main thread is slow enough for the
    worker to do something between two looks ([turns_happen]); for any command,
    [popen] succeeds, the functions that look for a duration and a progress
    take what it prints without throwing, the thread is still at work when the
    main thread looks at [running_] for the first time - the race of C31, which
    [RunTask] does not come back from otherwise - and what it prints fits the
    fuel ([outputs_are_calm]); no path names a directory, and looking at one
    does not throw ([paths_are_files]; the tasks of a directory are the files
    in it). *)
Class CalmShell := {
  turns_happen n : (1 ≤ turns n)%nat;
  outputs_are_calm h cmd : ∃ out, shell_output h cmd = Some out ∧
    (∀ tp, is_Some (after_pieces (pieces [] (heard out)) tp)) ∧
    (∀ n, turns n + turns (S n) < length (heard out) + 3)%nat ∧ (length (heard out) + 3 ≤ fuel)%nat;
  paths_are_files h p : is_directory h p = Some false
}.
Context `{!CalmShell}.

Lemma IsDir_file p v : IsDir p v = Done false v.
Proof. unfold IsDir, bind, gets, throws. by rewrite paths_are_files. Qed.
Lemma cv_job j c :
  good_job j → v_worker (c_video c) = NoThread → (c_data c){{task_type := bytes "cv"}} = job_data j →
  wp (cv fuel) c (λ _ c', ∃ d v, c' = c{{c_data := d}}{{c_video := v}} ∧
    v_worker v = NoThread ∧ v_calls v = v_calls (c_video c) ++ [Popen (job_command j)]).
Proof.
  intros Hj Hw Hd. unfold cv. apply wp_bind. unfold set_data at 1. apply wp_modify, wp_bind, wp_gets.
  destruct c as [ci cg cs cd v]. cbn [c_data c_video] in *. rewrite Hd. unfold wp, on_video. cbn [c_video].
  rewrite (bind_done _ _ _ _ _ (IsDir_file _ v)).
  destruct (job_command_made j v Hj) as (segment & Hcut & Hcmd).
  destruct (outputs_are_calm (v_calls v) (command (job_data j) segment ++ bytes " 2>&1")) as (out & Ho & Ha & Ht & Hf).
  destruct (Ha (v_total v, v_progress v)) as [r Hr].
  destruct (wp_elim _ _ _ (RunTask_comes_back (job_data j) v segment out r Hw Hcut Ho Hr fuel turns_happen (Ht _) Hf))
    as ([] & v' & Hrun & Hw' & _ & Hc & _). match goal with |- context [RunTask fuel ?d _] => change d with (job_data j) end. rewrite Hrun. rewrite Hcmd in Hc. by exists (job_data j), v'.
Qed.
Lemma run_line_job j c :
  good_job j → v_worker (c_video c) = NoThread →
  wp (run_line (video_input fuel) (set_data (λ _, no_data)) (job_line j)) c (λ _ c',
    ∃ d v, c' = c{{c_data := d}}{{c_video := v}} ∧ v_worker v = NoThread ∧
      v_calls v = v_calls (c_video c) ++ [Popen (job_command j)]).
Proof.
  intros Hj Hw. unfold run_line. apply wp_bind. unfold set_data at 1. apply wp_modify.
  unfold job_line. destruct (job_spaceless j Hj) as [Hcv Hws]. rewrite (SplitString_join _ _ Hcv Hws).
  apply wp_bind. eapply wp_mono; [by apply call_job|]. intros _ c1 (d & -> & Hd).
  apply wp_bind, wp_ret. change (task_functions_ _ !! _) with (Some (cv fuel)).
  destruct c as [ci cg cs cd v]. cbn [c_video] in *.
  eapply wp_mono; [by apply cv_job|]. intros _ ? (d' & v' & -> & ? & ?). by exists d', v'.
Qed.

(** What is typed: jobs, each on a line of its own, and "exit". *)
Definition typed (js : list job) : list Z := concat ((λ j, job_line j ++ [LF]) <$> js) ++ bytes "exit" ++ [LF].

Lemma cin_getline_line line rest c :
  c_good c = true → LF ∉ line → c_in c = line ++ LF :: rest → cin_getline c = Done line (c{{c_in := rest}}).
Proof.
  destruct c as [ci cg cs cd v]. cbn [c_good c_in]. intros -> Hl ->.
  unfold cin_getline, bind, gets. simpl. by rewrite getline_line.
Qed.
Lemma job_line_typed j : good_job j → LF ∉ job_line j ∧ job_line j ≠ [] ∧ job_line j ≠ bytes "exit".
Proof.
  intros Hj. destruct (job_spaceless j Hj) as [Hcv Hws]. split_and!; [by apply join_words_newline|done..].
Qed.
Abbreviation turn := (console_turn (video_input fuel) (set_data (λ _, no_data))).
Lemma turn_exit rest c :
  c_good c = true → c_stop c = false → c_in c = bytes "exit" ++ LF :: rest →
  turn tt c = Done (inr tt) (c{{c_in := rest}}{{c_stop := true}}).
Proof.
  intros Hg Hs Hin. unfold console_turn. rewrite (bind_done _ _ _ false c) by (unfold gets; by rewrite Hs).
  erewrite bind_done by (apply cin_getline_line; [done| |apply Hin]; exact (bool_decide_unpack (LF ∉ bytes "exit") I)).
  done.
Qed.
Lemma turn_job j rest c :
  good_job j → c_good c = true → c_stop c = false → v_worker (c_video c) = NoThread →
  c_in c = job_line j ++ LF :: rest →
  wp (turn tt) c (λ r c', r = inl tt ∧ c_in c' = rest ∧ c_good c' = true ∧ c_stop c' = false ∧
    v_worker (c_video c') = NoThread ∧ v_calls (c_video c') = v_calls (c_video c) ++ [Popen (job_command j)]).
Proof.
  intros Hj Hg Hs Hw Hin. destruct (job_line_typed j Hj) as (Hl & Hne & Hex). unfold console_turn.
  apply wp_bind, wp_gets. rewrite Hs. apply wp_bind.
  eapply wp_intro; [by apply (cin_getline_line (job_line j) rest)|].
  rewrite !bool_decide_false by done. apply wp_bind. eapply wp_mono; [by apply run_line_job|].
  intros _ ? (d & v & -> & Hw' & Hc'). apply wp_ret. by split_and!.
Qed.

(** C30: jobs that are typed at the console are run one after the other, each
    as the one command it stands for (its files, the segment to cut, the key on
    the first characters of the default key, the codecs), with its thread joined
    before the next line is read; "exit" ends the console. This is said of the
    runs of [CalmShell] only: every command's thread is still at work when
    [RunTask] first looks at [running_] (C31: a faster thread makes [RunTask]
    hang), [popen] succeeds, no output makes the callback throw, no path names
    a directory and the outputs fit the fuel. The words of a job are not empty
    and hold no white space and no keyword, and its seconds are of [int]
    ([good_job]). *)
Theorem XVideoInput_runs_jobs js rest c :
  Forall good_job js → (length js < fuel)%nat →
  c_in c = typed js ++ rest → c_good c = true → c_stop c = false → v_worker (c_video c) = NoThread →
  wp (XVideoInput_Start fuel) c (λ _ c',
    c_in c' = rest ∧ c_stop c' = true ∧ v_worker (c_video c') = NoThread ∧
    v_calls (c_video c') = v_calls (c_video c) ++ (Popen ∘ job_command <$> js)).
Proof.
  unfold XVideoInput_Start, UserInput_Start. generalize fuel at 1 2 as n.
  intros n Hjs. revert n c. induction Hjs as [|j js Hj Hjs IH]; intros [|n] c Hn Hin Hgood Hstop Hw; try (simpl in Hn; lia).
  all: unfold typed in Hin; cbn [fmap list_fmap concat] in Hin; rewrite <- ?app_assoc in Hin; cbn [loop]; apply wp_bind.
  - eapply wp_intro; [by eapply turn_exit|]. apply wp_ret. split_and!; [done..|]. by rewrite app_nil_r.
  - eapply wp_mono; [eapply turn_job; [done..|exact Hin]|]. intros r c' (-> & Hin' & Hg' & Hs' & Hw' & Hc').
    eapply wp_mono; [apply IH; [simpl in Hn; lia| |done..]|].
    + by rewrite Hin'; unfold typed; rewrite <- app_assoc.
    + intros _ c2 (? & ? & ? & Hc2). split_and!; [done..|]. by rewrite Hc2, Hc', <- app_assoc.
Qed.
End console.
