(* ===== verification/VideoWitness.v ===== *)
(** The theorems on src/videoedit at concrete inputs, and what the program does
    on inputs it does not expect. *)
From stdpp Require Import gmap list relations.
From coqutil Require Import Datatypes.RecordSetters.
From S2P Require Import Prelude HttpModel HttpResponse VideoLog VideoTask VideoTaskProps VideoInput VideoInputProps Monitor VideoQueue.
#[global] Open Scope Z_scope.

(** A shell whose commands report a duration and one position. *)
Definition demo_output : list Z :=
  bytes "  Duration: 00:01:40.00, start: 0" ++ [LF] ++ bytes "frame= 25 time=00:00:50.04 bitrate=1" ++ [CR].
Definition demo_shell (speed : nat) : Shell := {|
  shell_output _ _ := Some demo_output;
  is_directory _ _ := Some false;
  create_directory _ _ := Some true;
  directory_entries _ _ := Some [];
  turns _ := speed
|}.
Definition demo_video : Video := VideoState false NoThread 0 0 [] [] 0.
Definition demo_job : job := Job (bytes "test.mp4") (bytes "out.mp4") (Some (5, 65)) (Some (true, bytes "secret")).
Definition demo_console (input : list Z) : Console := ConsoleState input true false no_data demo_video.

Lemma XConfig_reads_back_witness :
  wp (Read 3 (Some (config_file [(bytes "log_type", bytes "console"); (bytes "log_level", bytes "a=b")]))) ∅
    (λ result config, result = true ∧ ∀ key, key ≠ NULL_KEY →
      Get key config =
      Done (last_value key [(bytes "log_type", bytes "console"); (bytes "log_level", bytes "a=b")] []) config).
Proof.
  apply (XConfig_reads_back 3); [|simpl; lia].
  repeat (apply Forall_cons; split); [..|done]; unfold plain_setting; split_and!;
    try done; by apply (bool_decide_unpack _).
Defined.

(** 100 seconds, 50 of which are done, on a slow and on a fast thread. *)
Lemma RunTask_returns_iff_witness :
  (∃ v', @RunTask (demo_shell 2) 100 (job_data demo_job) demo_video = Done tt v' ∧ v_worker v' = NoThread ∧
    v_calls v' = [Popen (job_command demo_job)] ∧ (v_total v', v_progress v') = (100, 50)) ∧
  (∀ fuel, ∃ v', @RunTask (demo_shell 50) fuel (job_data demo_job) demo_video = OutOfFuel v').
Proof.
  split.
  - apply (@RunTask_returns_iff (demo_shell 2) (job_data demo_job) demo_video (bytes " -t 60") demo_output (100, 50)
      eq_refl eq_refl eq_refl eq_refl 100); [|apply Nat.leb_le; vm_compute; done..].
    intros n. simpl. lia.
  - apply (@RunTask_returns_iff (demo_shell 50) (job_data demo_job) demo_video (bytes " -t 60") demo_output (100, 50)
      eq_refl eq_refl eq_refl eq_refl 100); [|apply Nat.leb_le; vm_compute; done|].
    + intros n. simpl. lia.
    + intros He. apply Nat.ltb_lt in He. vm_compute in He. done.
Defined.

Definition demo_pieces : list (list Z) :=
  [bytes "  Duration: 00:01:40.00, start: 0" ++ [LF]; bytes "frame= 25 time=00:00:50.04 bitrate=1" ++ [CR]].
Lemma demo_first t p : on_output (bytes "  Duration: 00:01:40.00, start: 0" ++ [LF]) (t, p) =
  Some (if t <=? 0 then 100 else t, p).
Proof. unfold on_output. by destruct (t <=? 0). Qed.
Lemma demo_second t p : 0 < t →
  on_output (bytes "frame= 25 time=00:00:50.04 bitrate=1" ++ [CR]) (t, p) = Some (t, Z.quot 5000 t).
Proof.
  intros Ht. unfold on_output. rewrite (proj2 (Z.leb_gt _ _)) by done.
  by replace (t >? 0) with true by lia.
Qed.
Lemma demo_output_calm tp : is_Some (after_pieces (pieces [] (heard demo_output)) tp).
Proof.
  assert (pieces [] (heard demo_output) = demo_pieces) as -> by reflexivity.
  destruct tp as [t p]. unfold demo_pieces, after_pieces. rewrite demo_first. cbn [mbind option_bind].
  rewrite demo_second; [by eexists|]. destruct (Z.leb_spec t 0); lia.
Qed.

Lemma demo_calm : @CalmShell (demo_shell 1) 100.
Proof.
  split; [simpl; lia| |done]. intros h cmd. exists demo_output. split_and!; [done|apply demo_output_calm| |].
  - intros n. apply Nat.ltb_lt. vm_compute. done.
  - apply Nat.leb_le. vm_compute. done.
Qed.
Lemma demo_job_good : good_job demo_job.
Proof.
  unfold good_job, plain_word. simpl. split_and!; try done; try by apply (bool_decide_unpack _).
  - intros b e [= <- <-]. unfold INT_MAX. lia.
  - intros encrypt k [= <- <-]. split_and!; try done. by apply (bool_decide_unpack _).
Qed.
Lemma XVideoInput_runs_jobs_witness :
  wp (@XVideoInput_Start (demo_shell 1) 100) (demo_console (typed [demo_job; demo_job] ++ bytes "unread"))
    (λ _ c', c_in c' = bytes "unread" ∧ c_stop c' = true ∧ v_worker (c_video c') = NoThread ∧
      v_calls (c_video c') = [] ++ (Popen ∘ job_command <$> [demo_job; demo_job])).
Proof.
  apply (@XVideoInput_runs_jobs (demo_shell 1) 100 demo_calm [demo_job; demo_job] (bytes "unread")
    (demo_console (typed [demo_job; demo_job] ++ bytes "unread"))).
  - repeat (apply Forall_cons; split); [apply demo_job_good..|apply Forall_nil_2].
  - simpl. lia.
  - reflexivity.
  - reflexivity.
  - reflexivity.
  - reflexivity.
Defined.

(** * Inputs it does not expect *)

Section faults.
Context `{Shell}.

(** At the end of [cin] the console reads empty lines for ever. *)
Lemma console_spins_at_end fuel n c :
  c_good c = false → c_stop c = false →
  loop n (console_turn (video_input fuel) (set_data (λ _, no_data))) tt c = OutOfFuel c.
Proof.
  intros Hg Hs. induction n as [|n IH]; [done|]. cbn [loop]. rewrite (bind_done _ _ _ (inl tt) c); [done|].
  unfold console_turn, cin_getline, bind, gets. rewrite Hs. simpl. by rewrite Hg.
Qed.
(** A line of spaces makes the console use the first word of no words. *)
Lemma blank_line_undefined fuel c :
  run_line (video_input fuel) (set_data (λ _, no_data)) [SP] c = Undef.
Proof. done. Qed.
(** An end without a beginning, or a duration that is not known yet, ends the
    program by an exception. *)
Lemma end_without_begin_terminates d v :
  begin_seconds d = [] → end_seconds d = bytes "10" → cut_text d v = Exited 134 v.
Proof. intros Hb He. unfold cut_text. rewrite He, Hb. done. Qed.
Lemma unknown_duration_terminates p : on_output (bytes "  Duration: N/A, start: 0.000000") (0, p) = None.
Proof. reflexivity. Qed.
End faults.

(** A second task is measured by the duration of the first. *)
Lemma duration_is_kept :
  after_pieces [bytes "Duration: 00:00:10"; bytes "time=00:00:10"] (0, 0) = Some (10, 100) ∧
  after_pieces [bytes "Duration: 00:00:40"; bytes "time=00:00:20"] (10, 100) = Some (10, 200).
Proof. done. Qed.
(** "info" sets the level [DEBUG], and a level that is no level is undefined. *)
Lemma info_is_debug : level_of (bytes "info") = Some DEBUG ∧ level_of (bytes "warning") = None.
Proof. done. Qed.
(** A line without ['='] is stored as key and as value. *)
Lemma line_without_equals : read_line (bytes "log_type") ∅ = {[bytes "log_type" := bytes "log_type"]}.
Proof. done. Qed.

(** A thread that waits for a line and one that brings it. *)
Definition demo_line_calls : list (list (vq_call Z)) := [[WaitAndPop]; [Push 7]].
Definition demo_line_wait : sys (list Z) (vq_call Z) (vq_res Z) :=
  Sys [] None [Thread (Waiting WaitAndPop) []; Thread Idle [Push 7]] [].
Lemma demo_line_reached : rtc (any_step vq_cs) (start [] demo_line_calls) demo_line_wait.
Proof.
  eapply rtc_l; [left; eapply (step_call _ _ _ _ _ 0); reflexivity|].
  eapply rtc_l; [left; eapply (step_lock _ _ _ _ 0); reflexivity|].
  eapply rtc_once. left. eapply (step_wait _ _ _ _ _ 0); [reflexivity..|constructor].
Qed.
Lemma VideoQueue_wakes_enough_witness :
  rtc (any_step vq_cs) (start [] demo_line_calls) demo_line_wait ∧
  (∀ k s', nsteps (step vq_cs) k demo_line_wait s' → (k ≤ 13)%nat) ∧
  ∀ s', rtc (step vq_cs) demo_line_wait s' → (∀ s'', ¬ step vq_cs s' s'') →
    ∀ i t, s_threads s' !! i = Some t →
      t = Thread Idle [] ∨ (∃ todo, t = Thread (Waiting WaitAndPop) todo) ∧ s_obj s' = [].
Proof.
  split; [apply demo_line_reached|].
  destruct (VideoQueue_wakes_enough demo_line_calls demo_line_wait demo_line_reached) as (_ & _ & _ & Hk & Hs).
  split; [|exact Hs]. intros k s' Hn. exact (Hk k s' Hn).
Defined.

Lemma TestXExec_outcomes_witness :
  lines demo_output = demo_pieces ∧
  (∃ s, rtc (test_step (λ _, Some demo_output)) (test_start (bytes "ffmpeg")) s ∧ test_ended s ∧
    t_shown s = take 1 (lines demo_output)) ∧
  ∃ s, rtc (test_step (λ _, Some demo_output)) (test_start (bytes "ffmpeg")) s ∧ test_hangs s.
Proof.
  split; [reflexivity|].
  destruct (TestXExec_outcomes (λ _, Some demo_output) (bytes "ffmpeg") demo_output eq_refl)
    as (_ & _ & Hend & s & Hs & Hh & _).
  split; [|by exists s]. apply Hend. vm_compute. lia.
Defined.
