(* ===== verification/SysExamples.v ===== *)
(** Small programs that show system calls: src/IPC, src/learnOS/IPC,
    src/process, src/mmap and src/timer. A process is followed through the values
    its own calls return. *)
From stdpp Require Import gmap list.
From S2P Require Import Prelude NetModel MultiThread.
#[global] Open Scope Z_scope.

Section programs.
Context `{OS}.

Definition perror (s : string) : Net unit := fputs s stderr.

(** * src/IPC *)

Definition STDOUT_FILENO : Z := 1.
Definition pipe_test_main : Net Z :=
  r ← sys Pipe;
  if ret_ r =? -1 then perror "pipe error!";; exit 1 else
  fd0 ← need (data r !! 0%nat); fd1 ← need (data r !! 1%nat);
  pid ← val Fork_;
  (if pid =? -1 then perror "fork error!";; exit 1
   else if pid =? 0 then
     close fd1;;
     id ← val Getpid; printf "child pid = %d\n" [PInt id];;
     '(n, buf) ← read fd0 (uninit 1024) 1024;
     write STDOUT_FILENO buf n;; ret tt
   else if pid >? 0 then
     sleep 1;; close fd0;;
     id ← val Getpid; printf "parent pid = %d\n" [PInt id];;
     write fd1 (Some <$> bytes_of "hello pipe" ++ [newline]) 11;; run Wait
   else ret tt);;
  id ← val Getpid; printf "complete! pid = %d\n" [PInt id];;
  ret 0.

Definition F_OK : Z := 0.
Definition P_FIFO : string := "p_fifo".
(** [execlp] does not return when it succeeds. *)
Definition execlp (args : list string) : Net unit :=
  r ← val (Execlp args); if r =? -1 then ret tt else exit 0.
Definition zeroed (n : Z) : buf := replicate (Z.to_nat n) (Some 0).
Definition fifo_read_turn (fd : Z) (_ : unit) : Net (unit + Z) :=
  '(n, cache) ← read fd (zeroed 100) 100;
  (if n =? 0 then printf "no data\n" [] else m ← pstr cache; printf "data: %s\n" [m]);;
  sleep 1;; ret (inl tt).
Definition fifo_read_main (fuel : nat) : Net Z :=
  there ← val (Access P_FIFO F_OK);
  (if there =? 0 then execlp ["rm"; "-f"; P_FIFO]%string;; printf "access.\n" [] else ret tt);;
  made ← val (Mkfifo P_FIFO 511);
  if made <? 0 then printf "create named pipe failed\n" [];; exit 1 else
  fd ← val (Open P_FIFO ["O_RDONLY"; "O_NONBLOCK"]%string);
  loop fuel (fifo_read_turn fd) tt.
Definition fifo_write_main (argv : list (list Z)) : Net Z :=
  if argc argv <? 2 then printf "please input the write data.\n" [];; exit 1 else
  fd ← val (Open P_FIFO ["O_WRONLY"; "O_NONBLOCK"]%string);
  (if fd =? -1 then printf "open failed!\n" [];; exit 1 else printf "open named pipe successful" []);;
  text ← arg argv 1;
  write fd (Some <$> text ++ [0]) 100;;
  close fd;; ret 0.

(** * src/learnOS/IPC/pipe.cpp *)

Definition learn_pipe_main : Net Z :=
  r ← sys Pipe;
  if ret_ r =? -1 then perror "pipe failed";; ret 1 else
  pipefd0 ← need (data r !! 0%nat); pipefd1 ← need (data r !! 1%nat);
  pid ← val Fork_;
  if pid =? -1 then perror "fork failed";; ret 1 else
  (if pid =? 0 then
     close pipefd1;;
     '(nbytes, buffer) ← read pipefd0 (uninit 128) 128;
     (if nbytes >? 0 then
        buffer ← set buffer nbytes 0; m ← pstr buffer; printf "[子进程] 接收到父进程消息: %s" [m]
      else ret tt);;
     close pipefd0
   else
     close pipefd0;;
     let msg := bytes_of "你好，我是父进程！" in
     write pipefd1 (Some <$> msg) (Z.of_nat (length msg));;
     close pipefd1;; run Wait);;
  ret 0.

(** * src/process *)

Definition fork_test_main : Net Z :=
  let x := 0 in
  printf "x = %d" [PInt x];;
  id ← val Getpid; printf "parent pid = %d" [PInt id];;
  pid ← val Fork_;
  (if pid =? 0 then
     x ← int (x + 1); printf "x = %d" [PInt x];; puts "success";;
     id ← val Getpid; printf "child getpid = %d" [PInt id]
   else if pid <? 0 then puts "failure"
   else printf "x = %d" [PInt x];; printf "pid = %d" [PInt pid]);;
  ret 0.

(** The loop [for (int i = start; i < stop; ++i) temp += i * (LL)i;] *)
Definition interval_loop (fuel : nat) (start stop : Z) : Net Z :=
  loop fuel (λ '(i, temp),
    if i <? stop then
      square ← ll (i * i); temp ← ll (temp + square); i ← int (i + 1); ret (inl (i, temp))
    else ret (inr temp)) (start, 0).
Definition chrono_test_main (fuel : nat) : Net Z :=
  start ← val Now;
  new_total ← interval_loop fuel 0 100000;
  printf "linear scan result = %lld\n" [PInt new_total];;
  stop ← val Now; printf "linear scan takes %lld ms\n" [PInt (stop - start)];;
  ret 0.
Definition get_interval_sum (fuel : nat) (start : Z) : Net Z :=
  start ← int (start * 20000); stop ← int (start + 20000);
  start_time ← val Now;
  temp ← interval_loop fuel start stop;
  end_time ← val Now;
  printf "I'm %dth, temp = %lld, time consumed: %ld\n" [PInt (Z.quot start 20000); PInt temp; PInt (end_time - start_time)];;
  ret temp.
(** [main]: [fork_loop] is left with [i] and [total_sum]. *)
Definition THREAD_NUM : Z := 5.
Definition fork_turn (fuel : nat) (l : Z * Z) : Net (Z * Z + Z * Z) :=
  let '(i, total_sum) := l in
  if i <? THREAD_NUM then
    pid ← val Fork_;
    if pid =? 0 then
      s ← get_interval_sum fuel i; total_sum ← ll (total_sum + s); ret (inr (i, total_sum))
    else i ← int (i + 1); ret (inl (i, total_sum))
  else ret (inr (i, total_sum)).
Definition reclaim_turn (reclaim_num : Z) : Net (Z + unit) :=
  wpid ← val (Waitpid (-1) WNOHANG);
  reclaim_num ← (if wpid >? 0 then int (reclaim_num + 1) else ret reclaim_num);
  if reclaim_num =? THREAD_NUM then ret (inr tt) else ret (inl reclaim_num).
Definition multi_process_main (fuel : nat) : Net Z :=
  start ← val Now;
  '(i, total_sum) ← loop fuel (fork_turn fuel) (0, 0);
  if i <? THREAD_NUM then exit 0 else
  loop fuel reclaim_turn 0;;
  pid ← val Getpid; ppid ← val Getppid; printf "I'm parent, pid = %u, ppid = %u\n" [PInt pid; PInt ppid];;
  printf "linear scan result through multi-process is %lld\n" [PInt total_sum];;
  stop ← val Now; printf "linear scan through multi-process takes %ld ms\n" [PInt (stop - start)];;
  ret 0.

(** * src/mmap: both programs, by what they store where *)

Definition mmap_main (open_error ftruncate_error : string) (offset : Z) (text : list Z) : Net (Z * buf) :=
  fd ← val (Open "test.txt" ["O_RDWR"; "O_CREAT"]%string);
  if fd <? 0 then perror open_error;; exit 1 else
  r ← val (Ftruncate fd 64);
  if r =? -1 then printf ftruncate_error [];; close fd;; exit 1 else
  p ← sys (Mmap 64 fd);
  if ret_ p =? -1 then perror "mmap error!";; exit 1 else
  memory ← need (bput (Some <$> data p) offset (text ++ [0]));
  r ← val (Munmap 64);
  if r =? -1 then perror "munmap error!";; exit 1 else
  close fd;; ret (0, memory).
Definition mmap_test_main : Net (Z * buf) := mmap_main "open file error!\n" "ftruncate error!\n" 0 (bytes_of "hello mmap").
Definition mmap_test2_main : Net (Z * buf) := mmap_main "open error!" "ftruncate error!\n" 6 (bytes_of "new mmap" ++ [newline]).

(** * src/timer: they run until the signal ends them *)

Definition counting_turn (fmt : string) (i : Z) : Net (Z + Z) :=
  printf fmt [PInt i];; i ← int (i + 1); ret (inl i).
Definition alarm_test_main (fuel : nat) : Net Z := run (Alarm 1);; loop fuel (counting_turn "processing...%d\n") 0.
Definition my_alarm (sec : Z) : Net Z :=
  r ← sys (Setitimer sec 0);
  if ret_ r =? -1 then perror "setitimer error";; exit 1 else need (head (data r)).
Definition setitimer_test_main (fuel : nat) : Net Z := my_alarm 1;; loop fuel (counting_turn "%d\n") 0.
Definition process_func (x : Z) : Net unit := printf "I catch a signal. ha ha ha ...\n" [].
Definition setitimer_test2_main (fuel : nat) : Net Z :=
  run (Signal SIGALRM "process_func");;
  r ← val (Setitimer 1 3);
  if r =? -1 then perror "setitimer error";; exit 1 else
  loop fuel (λ _ : unit, ret (inl tt)) tt.
End programs.

(** * The processes of src/process/multi_process.cpp *)

(** The calls a process makes, in order, with what they gave; [n] calls of
    [fork] in the parent; and calls of [waitpid], of which [n] returned a child. *)
Definition part_line : string := "I'm %dth, temp = %lld, time consumed: %ld\n".
Definition parent_line : string := "I'm parent, pid = %u, ppid = %u\n".
Definition total_line : string := "linear scan result through multi-process is %lld\n".
Definition time_line : string := "linear scan through multi-process takes %ld ms\n".
Definition forked (n : Z) (tr : trace) : Prop :=
  Z.of_nat (length tr) = n ∧ Forall (λ e, e.1 = Fork_ ∧ ret_ e.2 ≠ 0) tr.
Definition waited (n : Z) (tr : trace) : Prop :=
  Forall (λ e, e.1 = Waitpid (-1) WNOHANG) tr ∧ Z.of_nat (length (filter (λ e, 0 < ret_ e.2) tr)) = n.

(** The [i]-th child: it has its part of the sum, and prints it. *)
Definition child_calls (i : Z) (tr : trace) : Prop :=
  ∃ start forks fork_reply t0 t1 printed, forked i forks ∧ ret_ fork_reply = 0 ∧
    tr = (Now, start) :: forks ++ [(Fork_, fork_reply); (Now, t0); (Now, t1);
      (Printf part_line [PInt i; PInt (sum_squares (20000 * i) (20000 * i + 19999)); PInt (ret_ t1 - ret_ t0)], printed)].
(** The parent: it forks five times, waits until [n] children were reclaimed,
    and then prints its lines, [rest]. *)
Definition parent_calls (n : Z) (rest : reply → trace → Prop) (tr : trace) : Prop :=
  ∃ start forks waits tail, forked THREAD_NUM forks ∧ waited n waits ∧ rest start tail ∧
    tr = (Now, start) :: forks ++ waits ++ tail.
Definition parent_report (start : reply) (tr : trace) : Prop :=
  ∃ pid ppid stop p1 p2 p3,
    tr = [(Getpid, pid); (Getppid, ppid); (Printf parent_line [PInt (ret_ pid); PInt (ret_ ppid)], p1);
          (Printf total_line [PInt 0], p2); (Now, stop); (Printf time_line [PInt (ret_ stop - ret_ start)], p3)].
Definition no_report (start : reply) (tr : trace) : Prop := tr = [].

Section reports.
Context `{OS}.
Implicit Types tr : trace.

Lemma wp_val_step c tr (Q : Z → trace → Prop) :
  (∀ r, Q (ret_ r) (tr ++ [(c, r)])) → wp (val c) tr Q.
Proof. intros HQ. apply HQ. Qed.
Lemma wp_printf_step fmt args tr (Q : unit → trace → Prop) :
  (∀ r, Q tt (tr ++ [(Printf fmt args, r)])) → wp (printf fmt args) tr Q.
Proof. intros HQ. apply HQ. Qed.

Lemma wp_interval_loop fuel start stop tr (Q : Z → trace → Prop) :
  0 ≤ start ≤ stop → stop < INT_MAX → sum_squares start (stop - 1) ≤ LL_MAX → (Z.to_nat (stop - start) < fuel)%nat →
  Q (sum_squares start (stop - 1)) tr → wp (interval_loop fuel start stop) tr Q.
Proof.
  intros Hs Hmax Hsum Hfuel HQ.
  apply (wp_loop (λ n l tr', let '(i, temp) := l in start ≤ i ≤ stop ∧ (Z.to_nat (stop - i) ≤ n)%nat ∧ 0 ≤ temp ∧ tr' = tr ∧
    temp + sum_squares i (stop - 1) = sum_squares start (stop - 1))) with (n := Z.to_nat (stop - start));
    [|split_and!; try done; lia|done].
  intros n [i temp] tr' (Hi & Hn & Ht & -> & He). destruct (Z.ltb_spec i stop) as [Hlt|Hge].
  2:{ rewrite sum_squares_none in He by lia. apply wp_ret. by replace temp with (sum_squares start (stop - 1)) by lia. }
  rewrite sum_squares_step in He by lia. pose proof (sum_squares_pos (i + 1) (stop - 1)).
  apply wp_bind, wp_ll; [nia|]. apply wp_bind, wp_ll; [nia|].
  apply wp_bind, wp_int; [unfold INT_MIN, INT_MAX in *; lia|]. apply wp_ret. exists (pred n). split_and!; try done; nia.
Qed.
(** A sum of squares below 100000 fits. *)
Lemma part_fits i : 0 ≤ i < THREAD_NUM → sum_squares (20000 * i) (20000 * i + 19999) ≤ 400000000000000.
Proof.
  unfold THREAD_NUM. intros Hi. pose proof (sum_squares_closed 99999 ltac:(lia)) as Hc.
  rewrite (sum_squares_split 0 (20000 * i - 1) 99999), (sum_squares_split (20000 * i - 1 + 1) (20000 * i + 19999) 99999) in Hc by lia.
  replace (20000 * i - 1 + 1) with (20000 * i) in Hc by lia.
  pose proof (sum_squares_pos 0 (20000 * i - 1)). pose proof (sum_squares_pos (20000 * i + 19999 + 1) 99999). lia.
Qed.
Lemma wp_get_interval_sum fuel i tr (Q : Z → trace → Prop) :
  0 ≤ i < THREAD_NUM → 20000 < Z.of_nat fuel →
  (∀ s t0 t1 printed, 0 ≤ s ≤ 400000000000000 →
    Q s (tr ++ [(Now, t0); (Now, t1); (Printf part_line [PInt i;
      PInt (sum_squares (20000 * i) (20000 * i + 19999)); PInt (ret_ t1 - ret_ t0)], printed)])) →
  wp (get_interval_sum fuel i) tr Q.
Proof.
  intros Hi Hfuel HQ. pose proof (part_fits i Hi) as Hfit. unfold get_interval_sum, THREAD_NUM in *.
  apply wp_bind, wp_int; [unfold INT_MIN, INT_MAX; lia|]. apply wp_bind, wp_int; [unfold INT_MIN, INT_MAX; lia|].
  apply wp_bind, wp_val_step. intros t0.
  replace (i * 20000 + 20000) with (20000 * i + 19999 + 1) by lia. replace (i * 20000) with (20000 * i) by lia.
  apply wp_bind, wp_interval_loop; [lia|unfold INT_MAX; lia| |lia|];
    replace (20000 * i + 19999 + 1 - 1) with (20000 * i + 19999) by lia; [unfold LL_MAX; lia|].
  apply wp_bind, wp_val_step. intros t1. apply wp_bind, wp_printf_step. intros printed.
  replace (Z.quot (20000 * i) 20000) with i by (rewrite Z.mul_comm; by rewrite Z.quot_mul).
  apply wp_ret. rewrite <- !app_assoc. apply HQ. split; [apply sum_squares_pos|done].
Qed.

Lemma forked_snoc n tr r : forked n tr → ret_ r ≠ 0 → forked (n + 1) (tr ++ [(Fork_, r)]).
Proof.
  intros [Hn Hf] Hr. split; [rewrite length_app; simpl; lia|]. apply Forall_app. split; [done|]. by constructor.
Qed.
Lemma waited_snoc n tr r :
  waited n tr → waited (if decide (0 < ret_ r) then n + 1 else n) (tr ++ [(Waitpid (-1) WNOHANG, r)]).
Proof.
  intros [Hw Hn]. split; [apply Forall_app; split; [done|by constructor]|].
  rewrite filter_app, filter_cons. simpl. case_decide; rewrite length_app; simpl; lia.
Qed.

(** The loop of [fork]s: the process is the child, or the parent of five. *)
Lemma wp_fork_loop fuel start (Q : Z * Z → trace → Prop) :
  20000 < Z.of_nat fuel →
  (∀ i total tr, 0 ≤ i < THREAD_NUM → child_calls i tr → Q (i, total) tr) →
  (∀ forks, forked THREAD_NUM forks → Q (THREAD_NUM, 0) ((Now, start) :: forks)) →
  wp (loop fuel (fork_turn fuel) (0, 0)) [(Now, start)] Q.
Proof.
  intros Hfuel Hchild Hparent.
  apply (wp_loop (λ n l tr, let '(i, total) := l in 0 ≤ i ≤ THREAD_NUM ∧ n = Z.to_nat (THREAD_NUM - i) ∧ total = 0 ∧
    ∃ forks, forked i forks ∧ tr = (Now, start) :: forks)) with (n := Z.to_nat THREAD_NUM);
    [|split_and!; [done..|]; exists []; by repeat split|unfold THREAD_NUM; lia].
  intros n [i total] tr (Hi & -> & -> & forks & Hf & ->). unfold fork_turn.
  destruct (Z.ltb_spec i THREAD_NUM) as [Hlt|Hge].
  - apply wp_bind, wp_val_step. intros r. destruct (Z.eqb_spec (ret_ r) 0) as [Hr|Hr].
    + apply wp_bind, wp_get_interval_sum; [lia|done|]. intros s t0 t1 printed Hs.
      apply wp_bind, wp_ll; [unfold LL_MAX; lia|]. apply wp_ret. apply Hchild; [lia|].
      exists start, forks, r, t0, t1, printed. split_and!; [done..|]. simpl. by rewrite <- !app_assoc.
    + apply wp_bind, wp_int; [unfold INT_MIN, INT_MAX, THREAD_NUM in *; lia|]. apply wp_ret.
      exists (Z.to_nat (THREAD_NUM - (i + 1))). split; [lia|]. split_and!; [lia..|done|done|].
      exists (forks ++ [(Fork_, r)]). split; [by apply forked_snoc|done].
  - apply wp_ret. assert (i = THREAD_NUM) as -> by lia. by apply Hparent.
Qed.
(** The loop of [waitpid]s may run for ever. *)
Lemma wpx_reclaim_loop fuel start forks (X : Z → trace → Prop) (Q : unit → trace → Prop) :
  forked THREAD_NUM forks →
  (∀ waits, waited THREAD_NUM waits → Q tt ((Now, start) :: forks ++ waits)) →
  wpx (loop fuel reclaim_turn 0) ((Now, start) :: forks) X
    (λ tr, ∃ n, 0 ≤ n < THREAD_NUM ∧ parent_calls n no_report tr) Q.
Proof.
  intros Hf HQ. eapply (wpx_loop _ _ (λ n tr, 0 ≤ n < THREAD_NUM ∧ ∃ waits, waited n waits ∧ tr = (Now, start) :: forks ++ waits));
    [|split; [done|]; exists []; by rewrite app_nil_r].
  intros n tr (Hn & waits & Hw & ->). split.
  { exists n. split; [done|]. exists start, forks, waits, []. by rewrite app_nil_r. }
  unfold reclaim_turn. apply wpx_of_wp, wp_bind, wp_val_step. intros r. pose proof (waited_snoc _ _ r Hw) as Hw'.
  apply wp_bind. apply (wp_mono _ _ (λ m tr, m = (if decide (0 < ret_ r) then n + 1 else n) ∧
    tr = (Now, start) :: forks ++ waits ++ [(Waitpid (-1) WNOHANG, r)])).
  { assert (∀ x : trace, ((Now, start) :: forks ++ waits) ++ x = (Now, start) :: forks ++ waits ++ x) as ->
      by (intros; simpl; by rewrite <- app_assoc).
    rewrite Z.gtb_ltb. destruct (Z.ltb_spec 0 (ret_ r)).
    - apply wp_int; [unfold INT_MIN, INT_MAX, THREAD_NUM in *; lia|]. by rewrite decide_True.
    - apply wp_ret. by rewrite decide_False by lia. }
  intros m tr [-> ->]. destruct (Z.eqb_spec (if decide (0 < ret_ r) then n + 1 else n) THREAD_NUM) as [He|Hne];
    apply wp_ret; [rewrite He in Hw'; by apply HQ|].
  split; [case_decide; unfold THREAD_NUM in *; lia|]. by eexists.
Qed.

(** C27: The processes, each with all the calls it makes. A child exits with 0
    after it has forked (in the processes before it) as often as its number says,
    and has printed exactly one line, with its number and the sum of the squares
    of its own fifth of the numbers below 100000. The parent forks five times,
    calls [waitpid] until five calls have returned a child, and prints three
    lines, the second of which always says that the total is 0: the variable
    that the children add to is their own. If five children are never
    reclaimed, it waits for ever. *)
Theorem multi_process_reports_zero fuel :
  20000 < Z.of_nat fuel →
  wpx (multi_process_main fuel) []
    (λ code tr, code = 0 ∧ ∃ i, 0 ≤ i < THREAD_NUM ∧ child_calls i tr)
    (λ tr, ∃ n, 0 ≤ n < THREAD_NUM ∧ parent_calls n no_report tr)
    (λ r tr, r = 0 ∧ parent_calls THREAD_NUM parent_report tr).
Proof.
  intros Hfuel. unfold multi_process_main. apply wpx_bind, wpx_of_wp, wp_val_step. intros start.
  apply wpx_bind, wpx_of_wp, wp_fork_loop; [done|..].
  { intros i total tr Hi Hc. rewrite (proj2 (Z.ltb_lt _ _)) by lia. apply wpx_exit. eauto. }
  intros forks Hf. rewrite Z.ltb_irrefl. apply wpx_bind, wpx_reclaim_loop; [done|]. intros waits Hw.
  apply wpx_of_wp. apply wp_bind, wp_val_step. intros pid. apply wp_bind, wp_val_step. intros ppid.
  apply wp_bind, wp_printf_step. intros p1. apply wp_bind, wp_printf_step. intros p2.
  apply wp_bind, wp_val_step. intros stop. apply wp_bind, wp_printf_step. intros p3. apply wp_ret.
  split; [done|]. do 4 eexists. split; [exact Hf|]. split; [exact Hw|].
  split; [by exists pid, ppid, stop, p1, p2, p3|]. simpl. by rewrite <- !app_assoc.
Qed.
End reports.

(** An operating system for the child of a pipe: [n] bytes are delivered by the
    first read, an error if [n] is negative. *)
Definition pipe_os (n : Z) : OS := {|
  os_reply _ c := match c with
    | Pipe => Reply 0 [3; 4] (Addr 0 0 0 None) 0 ∅ None
    | Read _ _ => Reply n (replicate (Z.to_nat n) 65) (Addr 0 0 0 None) 0 ∅ None
    | _ => Reply 0 [] (Addr 0 0 0 None) 0 ∅ None
    end;
  inet_addr _ := 0; inet_aton _ := None; inet_ntoa _ := []
|}.
(** A message that fills the buffer is terminated behind it; a read that fails
    is passed on as a length; and an argument of fewer than 99 characters is
    written from behind its end. *)
Lemma learn_pipe_overflow : @learn_pipe_main (pipe_os 128) [] = Undef ∧ ∃ tr, @learn_pipe_main (pipe_os 127) [] = Done 0 tr.
Proof. split; [reflexivity|eexists; vm_compute; reflexivity]. Qed.
Lemma pipe_test_read_error : @pipe_test_main (pipe_os (-1)) [] = Undef.
Proof. reflexivity. Qed.
Lemma fifo_write_overread : @fifo_write_main (pipe_os 0) [bytes_of "fifo_write"; bytes_of "text"] [] = Undef.
Proof. reflexivity. Qed.

(** Every [fork] makes a child, and all children are reclaimed at once. *)
Definition fork_os : OS := {|
  os_reply tr c := Reply (match c with Fork_ | Waitpid _ _ => 7 | _ => 0 end) [] (Addr 0 0 0 None) 0 ∅ None;
  inet_addr _ := 0; inet_aton _ := None; inet_ntoa _ := []
|}.
Lemma multi_process_reports_zero_witness :
  20000 < Z.of_nat (Z.to_nat 20001) ∧
  wpx (@multi_process_main fork_os (Z.to_nat 20001)) [] (λ code tr, ∃ i, child_calls i tr)
    (λ tr, ∃ n, parent_calls n no_report tr) (λ r tr, r = 0 ∧ parent_calls THREAD_NUM parent_report tr).
Proof.
  split; [lia|]. eapply wpx_conseq; [apply (@multi_process_reports_zero fork_os); lia| | |done].
  - intros code tr (_ & i & _ & Hc). by exists i.
  - intros tr (n & _ & Hn). by exists n.
Defined.
